(* ===== verification/_CoqProject ===== *)
-Q . S2P
Prelude.v
GoText.v
Db.v
CallBinding.v
Interactions.v
JournalCore.v
Commands.v
Owners.v
Runs.v
Operations.v
DefinitionStore.v
Records.v
Lifecycle.v
Keeps.v
JournalSim.v
Journal.v
Migrate.v
JournalKeeps.v
Lease.v
EventLog.v
Retry.v
Calls.v
Rollout.v
Scenario.v
ActiveSet.v
Selectors.v
Journey.v
Compile.v
History.v
Resolve.v
ResolveSpec.v
Service.v
Binding.v
Settings.v
TenantDir.v
Guard.v
Dispatch.v
Harness.v
HarnessSpec.v
HarnessHistory.v
HarnessGate.v
GoPath.v
Bundle.v
BundleSpec.v
Skill.v
CompileSet.v
CompileSpec.v
CompileWf.v
Loader.v
LoaderSpec.v
HttpHeader.v
Credential.v
Cost.v
CostSpec.v
Provider.v
Litellm.v
Foundry.v
ProviderSpec.v
GoTime.v
Auth.v
AuthSpec.v
Identity.v
Runner.v
Config.v
ConfigSpec.v
Platform.v
RunnerSpec.v
PlatformSpec.v
Process.v
RunnerStart.v
Sse.v
Tui.v
Chat.v
ChatSpec.v
TuiSpec.v
Demo.v
HarnessDemo.v
DefsDemo.v
RunnerDemo.v
Telemetry.v
