(* ===== verification/Prelude.v ===== *)
(** * Verification of the conversation-agent platform

    A library of models and proofs for the Go service in [src/]: the agent
    platform that runs one conversation agent per conversation, keeps every
    conversation in a PostgreSQL journal, lets the agent call tools of a
    multi-tenant tool server (MCP), and answers its users over an AG-UI event
    stream.

    ** The program and how its parts interact

    A request reaches the chat endpoint ([internal/chat]), which authenticates
    its user, maps the user's thread and run to internal identifiers and hands
    a command to the platform ([internal/platform]).  The platform admits the
    command in the journal ([internal/journal]) and, when that starts a run,
    claims it and executes it in a worker.  The runner ([internal/runtime])
    resolves the conversation's scope (tenant and endpoint from
    [internal/tenantdir], settings from [internal/settings]), asks the cost
    gate ([internal/cost]), pins the conversation to a definition set that it
    loads from the store ([internal/defstore], compiled by
    [internal/definitions] from a bundle of YAML and skill files), binds the
    journeys of that set to the tools the tool server advertises
    ([internal/catalog]), and enters the conversation loop: requests to the
    model provider alternate with guarded tool calls, waits for a human and
    activations of journeys ([internal/journeys]), with a transaction of the
    journal around each.  Observers read the journal's event log; the stream
    of a request is such an observer.

    Several replicas run against one database.  No process trusts what it read
    before: a run's owner is fenced by a lease and an epoch, and every effect
    outside the database is journaled before it happens.  This is what most of
    the theorems are about.

    ** Conventions

    - A Go function that returns a value and an error is a function to
      [result E T] (below); one that mutates its receiver returns the new
      state.  Code that runs one transaction after another is a [prog S]
      ([Service.v]): a state [S] and a result, where an error stops the program
      but undoes nothing.  A transaction is a [tx] ([Db.v]): an error rolls
      back.
    - Integers are [Z], with the wrap-around or the clamp written out where the
      code can reach it (retry delays in [Cost.v], versions in [Selectors.v],
      limits in [Bundle.v] and [Settings.v]); Go strings are byte strings.
    - A process acts among others: a class or record says, for the n-th call,
      what the clock reads, which calls fail and what other processes commit
      in between, also between the two transactions around a tool call
      ([moment], [transact]).  The theorems assume of the others only that they
      act by the journal's transactions ([steps], [others_steps]), or nothing
      at all; those that need more say so.
    - A command's texts pass through JSON and PostgreSQL on their way to the
      journal: [through_json_command], [sql_text] and [jsonb_command] of
      [Commands.v] are what they keep and refuse.
    - Every theorem with a hypothesis is applied to a concrete run in the same
      file or in one of the files [Scenario.v] and [*Demo.v].

    ** Files

    Common: this prelude; [GoText.v], [GoPath.v] and [GoTime.v], the parts of
    Go's standard library on strings, sorting, paths, durations and flags the
    code uses; [HttpHeader.v], HTTP headers; [Service.v], programs
    over transactions.

    The journal, [internal/journal]:
    - [Db.v]: the tables and constraints of [migrations/] and transactions
      ([store.go]); [JournalCore.v]: the steps several transactions share.
    - One file per group of transactions: [Commands.v] ([commands.go],
      [inbox.go], replies of [interactions.go]), [Owners.v] ([owners.go]),
      [Runs.v] ([sessions.go], [history.go], [observe.go], waits of
      [interactions.go], limits of [usage.go]), [Operations.v] ([operations.go]),
      [DefinitionStore.v] ([definitions.go]), [Records.v] ([scope.go],
      [catalog.go], [active.go], usage);
      [Interactions.v]: the pure checks of [interactions.go];
      [CallBinding.v]: the approval digests of [binding.go].
    - [Journal.v]: all transactions as one step relation with its reachable
      states.  [Lifecycle.v] is the abstract machine of one conversation, and
      [JournalSim.v] the simulation between the two.  [Keeps.v] and
      [JournalKeeps.v] are the program logic that carries a preorder through
      the text of every transaction.  [EventLog.v], [Retry.v], [Calls.v],
      [Lease.v] and [Rollout.v] hold what follows: the log has no gaps,
      admission is idempotent, effects are approved and attempted a bounded
      number of times, a lease protects a run, definition sets roll forward
      only.  [Scenario.v] plays a
      conversation.
    - [Migrate.v]: the runner of the schema migrations ([migrate.go]).

    Definition sets: [Selectors.v], [Journey.v], [Compile.v], [Skill.v],
    [CompileSet.v] and [Bundle.v] model [internal/definitions] (selectors.go,
    journey.go, compile.go, skill.go, set.go, bundle.go); [BundleSpec.v],
    [CompileSpec.v] and [CompileWf.v] say what a checked bundle and a compiled
    set are and that a set survives the trip through its own bundle.
    [Loader.v] and [LoaderSpec.v] model [internal/defstore]: loading and
    activation next to other processes and failing calls.

    Scope of a run: [Settings.v] ([internal/settings]), [TenantDir.v]
    ([internal/tenantdir]), [Credential.v] ([internal/credential] and
    [internal/catalog/transport.go]), [Cost.v] and [CostSpec.v]
    ([internal/cost]).

    Tools: [Resolve.v] and [ResolveSpec.v] ([catalog/resolve.go]),
    [Binding.v] ([catalog/descriptor.go], [catalog/binding.go]),
    [ActiveSet.v] ([journeys/journeys.go]).

    The agent: [History.v] ([runtime/history.go]), [Guard.v]
    ([tool_policy.go]), [Dispatch.v] ([dispatch.go], [journeys/compose.go],
    [skills/source.go]), [Harness.v] ([interactions.go] with the provider call
    of [run.go]), [Runner.v] (the rest of [run.go]).  [HarnessSpec.v],
    [HarnessHistory.v], [HarnessGate.v], [RunnerSpec.v] and [RunnerStart.v]
    hold their theorems; [HarnessDemo.v] plays a run, and one
    with an adapter of the next group.

    The model: [Provider.v], [Litellm.v] and [Foundry.v]
    ([provider/litellm], [provider/foundry]): the adapters around the vendors'
    SDKs, which are programs over the transport they are given.
    [ProviderSpec.v] shows that they are what the loop of [Harness.v] takes a
    model for.

    The platform: [Platform.v] ([platform/platform.go]), [PlatformSpec.v],
    [RunnerDemo.v]; [Config.v] and [ConfigSpec.v], the configuration a process
    starts with and the activate command ([cmd/agent-platform/main.go]);
    [Telemetry.v], the tracer provider and the redaction of spans
    ([telemetry/telemetry.go], [telemetry/redact.go]).

    The process: [Process.v].  [Platform.v] executes one run as a program;
    here are the goroutines around it.  Module [Renewal] is the loop of
    [execute] that renews a lease, as a step relation over the database, the
    clock and the loop's place, with a bound on how late a goroutine runs.
    Module [Drain] is an executable step function ([take]) over the flags, the
    wait group, the counted submissions, the reaper and the calls of [Drain],
    so that every interleaving is a list of events.  Module [Main] is
    [service.go] and [run] of [main.go].

    The endpoint: [Auth.v] and [AuthSpec.v] ([chat/auth.go],
    [chat/keycloak_auth.go]), [Identity.v] ([chat/identity.go]), [Chat.v] and
    [ChatSpec.v] ([chat/http.go]), [Sse.v] (the stream on the wire, and
    [internal/devtui/client.go], which reads it).

    The developer's client: [Tui.v] and [TuiSpec.v]
    ([internal/devtui/model.go], the requests of [client.go],
    [cmd/agent-platform-tui/main.go]).

    ** What the theorems show

    - Effects.  [Calls.effects_are_approved], [Calls.approvals_follow_markers],
      [Calls.attempts_bounded]: in every reachable database a dispatched call
      that is not read-only was let through by a spent, positive approval of
      exactly that call, and effects are never retried.
      [HarnessGate.runHarness_gated] and [RunnerSpec.execute_sends_admitted]
      say the same of the processes: what leaves them was allowed, admitted by
      the cost gate and sent to the endpoint the tenant is allowed.
      [ProviderSpec.sends_after_commit]: a model is sent nothing before the
      commands it answers are committed as included.
    - Ownership and phases.  [Journal.journal_refines_lifecycle]: the
      transactions refine the abstract machine; with it
      [Journal.conversation_in_one_phase], [Journal.fenced_forever],
      [Journal.owner_exclusive], [Journal.no_command_lost],
      [Retry.Admit_idempotent].  [Lease.lease_protects]: while a lease lasts
      only its owner's renewals and endings touch it; with it
      [Process.worker_stops_first]: the context of a worker ends before its
      lease does; and [Lease.Reap_recovers]: a sweep leaves no run without a
      valid lease.
    - Shutting down.  [Process.drained_is_quiet], [Process.shutdown_completes],
      [Process.wait_group_respected], [PlatformSpec.draining_is_final].
    - Whole executions.  Whatever the dependencies answer, a run changes the
      database only by the journal's steps ([HarnessSpec.runHarness_steps],
      [RunnerSpec.execute_journal_steps]), so all invariants hold through it;
      [Guard.guardedCall_journaled]: a tool call is journaled around every
      dispatch; [PlatformSpec.execute_verdict]: which state a run ends in for
      which error; [RunnerSpec.execute_bounded]: sixteen provider requests a
      round; [HarnessHistory.runHarness_closes_calls],
      [HarnessSpec.runHarness_active_set] (the set of active journeys reaches
      the journal, next to processes that may take the conversation over),
      [ProviderSpec.complete_implemented].
    - Definition sets.  [CompileWf.CompileBundle_well_formed],
      [CompileSpec.CompileBundle_stable], [BundleSpec.ReadBundle_bounded],
      [LoaderSpec.Activate_servable] (next to other processes and faults),
      [LoaderSpec.Activate_alone] and [RunnerStart.BindingOf_alone] (what a
      replica alone does, on every store), [Rollout.activate_iff],
      [Rollout.ready_never_refuses].
    - Observation and access.  [PlatformSpec.Observe_exactly_once],
      [ChatSpec.stream_isolated], [ChatSpec.stream_ordered],
      [ChatSpec.stream_received], [TuiSpec.client_end_to_end] (a request from
      the client through the endpoint and its stream back),
      [TuiSpec.unfinished_resent], [TuiSpec.client_bounded],
      [AuthSpec.Authenticate_sound], [AuthSpec.fetches_limited],
      [AuthSpec.canonicalPrincipal_injective],
      [Identity.identifiers_one_to_one].
    - Functions against their specifications.  [ResolveSpec.Resolve_spec],
      [ActiveSet.Activate_refines_lru], [History.trimHistory_keeps],
      [AuthSpec.accepts_tokens_iff], [Credential.credentials_forwarded],
      [CostSpec.attribution_confined], [ProviderSpec.inputItems_iff],
      [ConfigSpec.parseHistoryBudget_iff], and the theorems on settings,
      tenants, selectors and bindings in their files.
    - Starting and upgrading.  [ConfigSpec.loadConfig_usable],
      [ConfigSpec.runActivate_reports], [Process.run_releases],
      [TuiSpec.started_when_ready], [AuthSpec.authenticator_valid],
      [Telemetry.telemetry_bounded], [Migrate.migrations_compose].

    ** Bounds and fuel

    A loop the code bounds has the code's bound: sixteen provider requests of a
    call of [Run] ([maxRounds]), two attempts of a call ([attempt_loop 2]), five attempts
    of an activation ([activateAttempts]), three of a binding
    ([bindingAttempts]).  A loop over data has a fuel its data bounds, with a
    lemma that it is enough: trimming a history runs at most once per turn,
    reading a directory at most [bundle_depth] deep with [walk_fuel] entries
    ([ReadBundle_bounded]), scanning JSON at most twice per token
    ([scan_fuel], [accepts_tokens_iff] for every token sequence), parsing a
    duration at most once per byte ([duration_parts_enough]).  The three
    loops the code does not bound (a worker that starts over when a command was
    admitted at the last moment, an observer, a stream) take the number of
    rounds to look at: [execute n], [polls n], [serve n]; the theorems hold
    for every [n], and [execute] says when its rounds were not enough.

    ** Parameters

    What is not code of this repository is a parameter, with what the code
    relies on as named hypotheses: [Codec] (SHA-256 and JSON canonical form),
    [Yaml] and [Decoders] (YAML, JSON, floats, dates), [hostFS] (a file
    system), [Jwt] (the token library, URL parsing), [ChatIO] (decoding of a
    request body, the client's connection), [Wire], [responses_new] and
    [agent_run] (JSON and the SDKs of the model providers), [Urls] and
    [url_parse] (URL parsing), [exchange] (one HTTP request and its response),
    [exec_sql] (what a migration does), [framework] and [outside] of
    [Harness.v] (the agent framework, the model, remote tools, the clock),
    [Main.outside] (what the libraries' constructors return), [Replica] and [Runtime] (other processes, failing calls, the tool server
    as far as opening a binding sees it).

    ** Not modelled

    - Test doubles ([internal/mcptest], [internal/modeltest],
      [internal/pgtest], the scripted cost gate): servers and fakes only the
      tests run, so nothing of the program depends on them.
    - The insides of the libraries: OpenTelemetry, the HTTP server and client,
      the terminal's text input and view.
    - In modelled parts: spans and logs, SQL migrations that rewrite rows of
      earlier versions, and the isolation machinery of PostgreSQL (a
      transaction is one atomic step, because the code locks the
      conversation's row first).  Time is modelled where the code depends on
      it: leases, expiries and the renewal loop; that a worker ends some time
      after its context was cancelled is taken for granted by
      [Process.shutdown_completes], which counts it among the steps a process
      makes.
    - A sweep of [Reap] is its transactions one after the other at one time;
      next to other processes each of them is the step [OpReap] of
      [Journal.v].  The JSON tags of the chat request are not modelled: that
      the endpoint's decoder reads what the client encoded is a hypothesis of
      [TuiSpec.client_end_to_end]. *)
From stdpp Require Export base strings gmap list sorting.
From Stdlib Require Export ZArith Lia.

#[global] Open Scope Z_scope.

(** ** Results of fallible Go code

    A Go function returning [(T, error)] is modelled by [result E T]: the zero
    value that accompanies a non-nil error is never observed by the callers
    modelled here. *)
Inductive result (E A : Type) : Type :=
| Ok (a : A)
| Err (e : E).
Arguments Ok {E A} a.
Arguments Err {E A} e.

#[export] Instance result_ret E : MRet (result E) := λ A a, Ok a.
#[export] Instance result_bind E : MBind (result E) := λ A B f r,
  match r with Ok a => f a | Err e => Err e end.
#[export] Instance result_eq_dec E A `{EqDecision E, EqDecision A} :
  EqDecision (result E A).
Proof. solve_decision. Defined.

(** [ensure b e] is the guard [if !b { return e }]. *)
Definition ensure {E} (b : bool) (e : E) : result E unit :=
  if b then Ok tt else Err e.

Definition is_ok {E A} (r : result E A) : bool :=
  match r with Ok _ => true | Err _ => false end.

Lemma bind_ok {E A B} (r : result E A) (f : A → result E B) b :
  (r ≫= f) = Ok b ↔ ∃ a, r = Ok a ∧ f a = Ok b.
Proof.
  destruct r as [a|e]; simpl; split; intros H.
  - eauto.
  - destruct H as (a' & [= ->] & H); done.
  - done.
  - destruct H as (a' & [=] & _).
Qed.

Lemma ensure_ok {E} (b : bool) (e : E) u : ensure b e = Ok u ↔ b = true.
Proof. destruct b, u; simpl; naive_solver. Qed.

Lemma ensure_bind {E A} (b : bool) (e : E) (f : unit → result E A) r :
  (ensure b e ≫= f) = Ok r ↔ b = true ∧ f tt = Ok r.
Proof. destruct b; simpl; naive_solver. Qed.

Lemma ensure_err {E} (b : bool) (e e' : E) :
  ensure b e = Err e' ↔ b = false ∧ e = e'.
Proof. destruct b; simpl; naive_solver. Qed.

(** ** Automation

    [gosimpl] takes apart hypotheses that say a modelled function returned
    normally: binds, guards and the equations they leave. *)
Create HintDb go discriminated.
Create Rewrite HintDb go.
#[export] Hint Rewrite @bind_ok @ensure_ok : go.

Ltac gosimpl :=
  repeat match goal with
  | H : (_ ≫= _) = Ok _ |- _ =>
      let a := fresh "a" in let H' := fresh H in
      apply bind_ok in H as (a & H' & H)
  | H : ensure _ _ = Ok ?u |- _ => apply ensure_ok in H
  | H : Ok _ = Ok _ |- _ => injection H as H
  | H : Err _ = Ok _ |- _ => discriminate H
  | H : Ok _ = Err _ |- _ => discriminate H
  | H : Err _ = Err _ |- _ => injection H as H
  | H : _ ∧ _ |- _ => destruct H
  | H : (_, _) = (_, _) |- _ => injection H as H
  | H : _ && _ = true |- _ => apply andb_true_iff in H
  | H : negb _ = true |- _ => apply negb_true_iff in H
  | H : negb _ = false |- _ => apply negb_false_iff in H
  | H : bool_decide _ = true |- _ => apply bool_decide_eq_true in H
  | H : bool_decide _ = false |- _ => apply bool_decide_eq_false in H
  | x : unit |- _ => destruct x
  end; subst.

(** Case analysis on every [match] of a hypothesis, then simplification. *)
Ltac case_all H :=
  repeat (case_match; simplify_eq/=; try discriminate H).

(** ** Lists *)

(** [slices.Index]: the position of the first occurrence. *)
Fixpoint index_of {A} `{EqDecision A} (x : A) (l : list A) : option nat :=
  match l with
  | [] => None
  | y :: l => if decide (y = x) then Some 0%nat else S <$> index_of x l
  end.

(** [len] as a Go [int]. *)
Definition zlen {A} (l : list A) : Z := Z.of_nat (length l).

(** Membership as a boolean ([slices.Contains]). *)
Definition contains {A} `{EqDecision A} (x : A) (l : list A) : bool :=
  bool_decide (x ∈ l).

(** No element occurs twice, as a boolean: the [seen] map idiom. *)
Fixpoint no_dup_b {A} `{EqDecision A} (l : list A) : bool :=
  match l with
  | [] => true
  | x :: l => negb (contains x l) && no_dup_b l
  end.

Section list_lemmas.
  Context {A : Type} `{EqDecision A}.
  Implicit Types (x y : A) (l : list A).

Lemma contains_true x l : contains x l = true ↔ x ∈ l.
  Proof. unfold contains. by rewrite bool_decide_eq_true. Qed.

Lemma contains_false x l : contains x l = false ↔ x ∉ l.
  Proof. unfold contains. by rewrite bool_decide_eq_false. Qed.

Lemma no_dup_b_true l : no_dup_b l = true ↔ NoDup l.
  Proof.
    induction l as [|x l IH]; simpl.
    - split; [constructor|done].
    - by rewrite andb_true_iff, negb_true_iff, contains_false, IH, NoDup_cons.
  Qed.

Lemma index_of_None x l : index_of x l = None ↔ x ∉ l.
  Proof.
    induction l as [|y l IH]; simpl; [set_solver|].
    case_decide as Hd; [set_solver|].
    rewrite fmap_None, IH, not_elem_of_cons. naive_solver.
  Qed.

Lemma index_of_Some x l i :
    index_of x l = Some i → ∃ l1 l2, l = (l1 ++ x :: l2) ∧ x ∉ l1 ∧ length l1 = i.
  Proof.
    revert i. induction l as [|y l IH]; simpl; intros i Hi; [done|].
    case_decide as Hd; simplify_eq.
    - exists [], l. set_solver.
    - apply fmap_Some in Hi as (j & Hj & ->).
      destruct (IH _ Hj) as (l1 & l2 & -> & Hni & Hlen).
      exists (y :: l1), l2. split; [done|]. set_solver.
  Qed.

Lemma delete_middle l1 l2 x : delete (length l1) (l1 ++ x :: l2) = l1 ++ l2.
  Proof. induction l1 as [|y l1 IH]; simpl; [done|]. by rewrite IH. Qed.

Lemma filter_neq_id x l : x ∉ l → filter (λ y, y ≠ x) l = l.
  Proof.
    induction l as [|y l IH]; intros Hx; [done|].
    rewrite filter_cons. apply not_elem_of_cons in Hx as [Hne Hni].
    rewrite IH by done. case_decide; naive_solver.
  Qed.
End list_lemmas.
#[export] Hint Rewrite @contains_true @contains_false @no_dup_b_true : go.
