(* ===== verification/GoText.v ===== *)
(** * Go strings

    The parts of Go's [strings], [unicode/utf8], [path], [io/fs],
    [net/textproto] and [sort] packages that the modelled code calls.  A Go
    string is a sequence of bytes: here a [string] of 8-bit characters. *)
From stdpp Require Import pretty.
From Stdlib Require Import Ascii.
From S2P Require Import Prelude.
#[local] Open Scope Z_scope.

Declare Scope byte_scope.
Delimit Scope byte_scope with byte.

(** ** Bytes *)

Definition code (c : ascii) : Z := Z.of_N (N_of_ascii c).
Definition byte_between (lo hi c : ascii) : bool := (code lo <=? code c) && (code c <=? code hi).
Definition is_digit (c : ascii) : bool := byte_between "0" "9" c.
Definition is_lower (c : ascii) : bool := byte_between "a" "z" c.
Definition is_upper (c : ascii) : bool := byte_between "A" "Z" c.
Definition is_alnum (c : ascii) : bool := is_lower c || is_upper c || is_digit c.

Fixpoint all_bytes (p : ascii → bool) (s : string) : bool :=
  match s with "" => true | String c s => p c && all_bytes p s end.
Fixpoint any_byte (p : ascii → bool) (s : string) : bool :=
  match s with "" => false | String c s => p c || any_byte p s end.
Fixpoint map_bytes (f : ascii → ascii) (s : string) : string :=
  match s with "" => "" | String c s => String (f c) (map_bytes f s) end.

(** [len(s)] *)
Definition slen (s : string) : Z := Z.of_nat (String.length s).

(** [strings.IndexByte(set, c) >= 0] *)
Definition in_set (set : string) (c : ascii) : bool := any_byte (λ d, bool_decide (c = d)) set.

(** [s[n:]] *)
Fixpoint drop_bytes (n : nat) (s : string) : string :=
  match n, s with
  | O, _ => s
  | S n, String _ s => drop_bytes n s
  | S _, "" => ""
  end.

Definition has_prefix (p s : string) : bool := String.prefix p s.
Definition trim_prefix (p s : string) : string :=
  if has_prefix p s then drop_bytes (String.length p) s else s.

(** [strings.TrimLeft(s, cutset)], [TrimRight] and [Trim] for a cutset of
    ASCII characters. *)
Fixpoint trim_left (p : ascii → bool) (s : string) : string :=
  match s with
  | "" => ""
  | String c s' => if p c then trim_left p s' else s
  end.
Fixpoint trim_right (p : ascii → bool) (s : string) : string :=
  match s with
  | "" => ""
  | String c s =>
      let s' := trim_right p s in
      match s' with
      | "" => if p c then "" else String c ""
      | _ => String c s'
      end
  end.
Definition trim (p : ascii → bool) (s : string) : string := trim_right p (trim_left p s).

(** [strings.Split(s, sep)] for a one-byte separator: never empty. *)
Fixpoint split (sep : ascii) (s : string) : list string :=
  match s with
  | "" => [""]
  | String c s =>
      if decide (c = sep) then "" :: split sep s
      else match split sep s with
           | h :: t => String c h :: t
           | [] => [String c ""]
           end
  end.

(** [strings.Cut(s, sep)]; [None] when the separator is absent. *)
Fixpoint cut (sep : ascii) (s : string) : option (string * string) :=
  match s with
  | "" => None
  | String c s =>
      if decide (c = sep) then Some ("", s)
      else '(a, b) ← cut sep s; Some (String c a, b)
  end.

(** [strings.Join(l, sep)] *)
Definition join (sep : string) (l : list string) : string := String.concat sep l.

(** [strings.Index(s, sub)] *)
Definition index_str (sub s : string) : option nat := String.index 0 sub s.

(** ** Runes *)

Definition cont_byte (c : ascii) : bool := (128 <=? code c) && (code c <=? 191).

(** One decoding step of [utf8.DecodeRuneInString]: the rune and its width in
    bytes.  Invalid encodings (bad continuation, overlong, surrogate, out of
    range) give U+FFFD with width 1. *)
Definition decode_rune (s : string) : Z * nat :=
  let bad := (65533, 1%nat) in
  match s with
  | "" => (65533, 0%nat)
  | String a s =>
      let x := code a in
      if x <? 128 then (x, 1%nat)
      else match s with
      | String b s1 =>
          if negb (cont_byte b) then bad
          else if (194 <=? x) && (x <=? 223) then ((x - 192) * 64 + (code b - 128), 2%nat)
          else match s1 with
          | String c s2 =>
              if negb (cont_byte c) then bad
              else if (224 <=? x) && (x <=? 239) then
                let r := (x - 224) * 4096 + (code b - 128) * 64 + (code c - 128) in
                if (r <? 2048) || ((55296 <=? r) && (r <=? 57343)) then bad else (r, 3%nat)
              else match s2 with
              | String d _ =>
                  if negb (cont_byte d) then bad
                  else if (240 <=? x) && (x <=? 244) then
                    let r := (x - 240) * 262144 + (code b - 128) * 4096
                             + (code c - 128) * 64 + (code d - 128) in
                    if (r <? 65536) || (1114111 <? r) then bad else (r, 4%nat)
                  else bad
              | "" => bad
              end
          | "" => bad
          end
      | "" => bad
      end
  end.

(** The runes of a string with the bytes each was decoded from; [fuel] bounds
    the number of runes and [String.length s] is always enough. *)
Fixpoint runes_fuel (fuel : nat) (s : string) : list (Z * string) :=
  match fuel, s with
  | O, _ | _, "" => []
  | S fuel, _ =>
      let '(r, w) := decode_rune s in
      (r, String.substring 0 w s) :: runes_fuel fuel (drop_bytes w s)
  end.
Definition runes (s : string) : list (Z * string) := runes_fuel (String.length s) s.

(** [unicode.IsSpace] and [unicode.IsControl] *)
Definition is_space_rune (r : Z) : bool :=
  ((9 <=? r) && (r <=? 13)) || (r =? 32) || (r =? 133) || (r =? 160) || (r =? 5760)
  || ((8192 <=? r) && (r <=? 8202)) || (r =? 8232) || (r =? 8233) || (r =? 8239)
  || (r =? 8287) || (r =? 12288).
Definition is_control_rune (r : Z) : bool := (r <? 32) || ((127 <=? r) && (r <=? 159)).

(** [strings.IndexFunc(s, p) >= 0] *)
Definition any_rune (p : Z → bool) (s : string) : bool := existsb (λ r, p r.1) (runes s).

Fixpoint drop_space (l : list (Z * string)) : list (Z * string) :=
  match l with
  | [] => []
  | x :: l' => if is_space_rune x.1 then drop_space l' else l
  end.

(** [strings.TrimSpace] *)
Definition trim_space (s : string) : string :=
  join "" (snd <$> rev (drop_space (rev (drop_space (runes s))))).

Lemma code_bounds c : 0 <= code c < 256.
Proof. destruct c as [[] [] [] [] [] [] [] []]; vm_compute; split; congruence. Qed.

(** ** Comparison

    Go comparisons return a negative, zero or positive [int].  [CompareOk]
    says one is a total preorder; it is closed under pulling back along a key
    and under lexicographic combination. *)
Class CompareOk {A} (cmp : A → A → Z) : Prop := {
  cmp_antisym : ∀ x y, cmp y x = - cmp x y;
  cmp_trans : ∀ x y z, cmp x y <= 0 → cmp y z <= 0 → cmp x z <= 0;
}.

Arguments cmp_antisym {A} cmp {_} x y.
Arguments cmp_trans {A} cmp {_} x y z.

Definition cmp_z (c : comparison) : Z :=
  match c with Lt => -1 | Eq => 0 | Gt => 1 end.

(** [strings.Compare] *)
Definition compare_str (a b : string) : Z := cmp_z (String.compare a b).

Definition lex {A} (c1 c2 : A → A → Z) (x y : A) : Z :=
  if decide (c1 x y = 0) then c2 x y else c1 x y.

Fixpoint lex_list {A} (cmp : A → A → Z) (l k : list A) : Z :=
  match l, k with
  | [], [] => 0
  | [], _ => -1
  | _, [] => 1
  | x :: l, y :: k => if decide (cmp x y = 0) then lex_list cmp l k else cmp x y
  end.

Section compare.
  Context {A : Type} (cmp : A → A → Z) `{Hcmp : !CompareOk cmp}.

Lemma cmp_refl x : cmp x x = 0.
  Proof. pose proof (cmp_antisym cmp x x). lia. Qed.

Lemma cmp_lt_le x y z : cmp x y < 0 → cmp y z <= 0 → cmp x z < 0.
  Proof using Hcmp.
    intros H1 H2. pose proof (cmp_trans cmp x y z ltac:(lia) H2).
    destruct (decide (cmp x z = 0)) as [H0|]; [|lia].
    pose proof (cmp_antisym cmp x z). pose proof (cmp_antisym cmp x y).
    pose proof (cmp_trans cmp y z x H2 ltac:(lia)). lia.
  Qed.

Lemma cmp_le_lt x y z : cmp x y <= 0 → cmp y z < 0 → cmp x z < 0.
  Proof using Hcmp.
    intros H1 H2. pose proof (cmp_trans cmp x y z H1 ltac:(lia)).
    destruct (decide (cmp x z = 0)) as [H0|]; [|lia].
    pose proof (cmp_antisym cmp x z). pose proof (cmp_antisym cmp y z).
    pose proof (cmp_trans cmp z x y ltac:(lia) H1). lia.
  Qed.

Lemma cmp_eq_trans x y z : cmp x y = 0 → cmp y z = 0 → cmp x z = 0.
  Proof using Hcmp.
    intros H1 H2. pose proof (cmp_trans cmp x y z ltac:(lia) ltac:(lia)).
    pose proof (cmp_antisym cmp x y). pose proof (cmp_antisym cmp y z). pose proof (cmp_antisym cmp x z).
    pose proof (cmp_trans cmp z y x ltac:(lia) ltac:(lia)). lia.
  Qed.

#[export] Instance pull_ok {B} (f : B → A) : CompareOk (λ x y, cmp (f x) (f y)).
  Proof using Hcmp.
    split; intros.
    - apply (cmp_antisym cmp).
    - by eapply (cmp_trans cmp).
  Qed.

#[export] Instance lex_list_ok : CompareOk (lex_list cmp).
  Proof using Hcmp.
    split.
    - intros l. induction l as [|x l IH]; intros [|y k]; simpl; [done..|].
      pose proof (cmp_antisym cmp x y). rewrite IH. repeat case_decide; lia.
    - intros l. induction l as [|x l IH]; intros [|y k] [|z m]; simpl; try lia.
      pose proof (cmp_eq_trans x y z). pose proof (cmp_trans cmp x y z).
      pose proof (cmp_lt_le x y z). pose proof (cmp_le_lt x y z). pose proof (IH k m).
      repeat case_decide; lia.
  Qed.
End compare.

#[export] Instance lex_ok {A} (c1 c2 : A → A → Z) `{H1 : !CompareOk c1, H2 : !CompareOk c2} :
  CompareOk (lex c1 c2).
Proof.
  unfold lex. split.
  - intros x y. pose proof (cmp_antisym c1 x y). pose proof (cmp_antisym c2 x y).
    repeat case_decide; lia.
  - intros x y z. pose proof (cmp_eq_trans c1 x y z). pose proof (cmp_trans c2 x y z).
    pose proof (cmp_lt_le c1 x y z). pose proof (cmp_le_lt c1 x y z).
    repeat case_decide; lia.
Qed.

#[export] Instance zsub_ok : CompareOk (λ x y : Z, cmp_z (x ?= y)).
Proof.
  split.
  - intros x y. rewrite Z.compare_antisym. by destruct (x ?= y).
  - intros x y z. destruct (Z.compare_spec x y), (Z.compare_spec y z),
      (Z.compare_spec x z); simpl; lia.
Qed.

Lemma compare_str_nonpos a b : compare_str a b <= 0 ↔ String.le a b.
Proof.
  unfold compare_str, String.le, String.leb. destruct (a ?= b)%string; simpl.
  all: split; (done || lia || naive_solver).
Qed.

#[export] Instance compare_str_ok : CompareOk compare_str.
Proof.
  split.
  - intros a b. unfold compare_str. rewrite String.compare_antisym.
    by destruct (a ?= b)%string.
  - intros a b c. rewrite !compare_str_nonpos. apply transitivity.
Qed.

(** [sort.Strings] *)
Definition sort_strings (l : list string) : list string := merge_sort String.le l.

Lemma sort_strings_perm l : sort_strings l ≡ₚ l.
Proof. apply merge_sort_Permutation. Qed.

Lemma sort_strings_sorted l : StronglySorted String.le (sort_strings l).
Proof. apply StronglySorted_merge_sort; apply _. Qed.

Lemma sort_strings_unique l k : l ≡ₚ k → sort_strings l = sort_strings k.
Proof.
  intros Hlk. apply (StronglySorted_unique String.le); [apply sort_strings_sorted..|].
  by rewrite !sort_strings_perm.
Qed.

Lemma elem_of_sort_strings x l : x ∈ sort_strings l ↔ x ∈ l.
Proof. by rewrite sort_strings_perm. Qed.
#[export] Instance sort_strings_proper : Proper ((≡ₚ) ==> (=)) sort_strings.
Proof. intros l k. apply sort_strings_unique. Qed.

(** ** Splitting undoes joining *)

Definition lacks (sep : ascii) (s : string) : bool := all_bytes (λ c, negb (bool_decide (c = sep))) s.

Lemma split_lacks sep s : lacks sep s = true → split sep s = [s].
Proof.
  induction s as [|c s IH]; simpl; [done|].
  intros [Hc Hs]%andb_true_iff. apply negb_true_iff, bool_decide_eq_false in Hc.
  rewrite decide_False by done. by rewrite IH.
Qed.

Lemma split_app sep s t : lacks sep s = true →
  split sep (s +:+ String sep t) = s :: split sep t.
Proof.
  induction s as [|c s IH]; intros Hl; simpl in *.
  - unfold String.app. simpl. by rewrite decide_True.
  - apply andb_true_iff in Hl as [Hc Hs]. apply negb_true_iff, bool_decide_eq_false in Hc.
    change (String c s +:+ String sep t) with (String c (s +:+ String sep t)). simpl.
    rewrite decide_False by done. by rewrite IH.
Qed.

Lemma split_join sep l : l ≠ [] → Forall (λ s, lacks sep s = true) l →
  split sep (join (String sep "") l) = l.
Proof.
  intros Hne Hl. induction Hl as [|s l Hs Hl IH]; [done|].
  destruct l as [|t l]; [by apply split_lacks|].
  change (split sep (s +:+ String sep (join (String sep "") (t :: l))) = s :: t :: l).
  rewrite split_app by done. by rewrite IH.
Qed.

Lemma join_inj sep l k : l ≠ [] → k ≠ [] →
  Forall (λ s, lacks sep s = true) l → Forall (λ s, lacks sep s = true) k →
  join (String sep "") l = join (String sep "") k → l = k.
Proof.
  intros Hl Hk Hfl Hfk Heq. rewrite <- (split_join sep l), <- (split_join sep k) by done.
  by rewrite Heq.
Qed.

(** ** Concatenation and printed numbers *)

Lemma str_cons_app c s t : String c s +:+ t = String c (s +:+ t).
Proof. done. Qed.
Lemma append_assoc a b c : ((a +:+ b) +:+ c = a +:+ (b +:+ c))%string.
Proof. induction a as [|x a IH]; [done|]. unfold String.append; fold String.append. by f_equal. Qed.
Lemma append_nil_r s : (s +:+ "")%string = s.
Proof. induction s as [|c s IH]; [done|]. unfold String.append; fold String.append. by f_equal. Qed.
Lemma slen_app s t : slen (s +:+ t) = slen s + slen t.
Proof.
  unfold slen. induction s as [|c s IH]; [done|]. rewrite str_cons_app. cbn [String.length].
  rewrite !Nat2Z.inj_succ, IH. lia.
Qed.

Lemma lacks_cons sep c s : lacks sep (String c s) = negb (bool_decide (c = sep)) && lacks sep s.
Proof. done. Qed.

Lemma lacks_app sep s t : lacks sep (s +:+ t) = lacks sep s && lacks sep t.
Proof.
  induction s as [|c s IH]; [done|]. change (String c s +:+ t) with (String c (s +:+ t)).  by rewrite !lacks_cons, IH, andb_assoc.
Qed.

Lemma pretty_N_char_digit n : is_digit (pretty.pretty_N_char n) = true.
Proof. unfold pretty.pretty_N_char. by repeat case_match. Qed.

Lemma pretty_Z_lacks sep (z : Z) : is_digit sep = false → sep ≠ "-"%char → lacks sep (pretty z) = true.
Proof.
  intros Hd Hm. assert (∀ n s, lacks sep s = true → lacks sep (pretty.pretty_N_go n s) = true) as Hgo.
  { intros n. induction (N.lt_wf_0 n) as [n _ IH]. intros s Hs. destruct (decide (n = 0%N)) as [->|Hn];
      [by rewrite pretty.pretty_N_go_0|]. rewrite pretty.pretty_N_go_step by lia. apply IH; [apply N.div_lt; lia|].
    rewrite lacks_cons, Hs, andb_true_r. apply negb_true_iff, bool_decide_eq_false. intros E.
    pose proof (pretty_N_char_digit (n `mod` 10)) as Hc. rewrite E in Hc. congruence. }
  assert (∀ n : N, lacks sep (pretty n) = true) as HN.
  { intros n. unfold pretty, pretty.pretty_N. case_decide; [|by apply Hgo]. rewrite lacks_cons, andb_true_r.
    apply negb_true_iff, bool_decide_eq_false. intros E. by rewrite <- E in Hd. }
  destruct z as [|p|p]; [exact (HN 0%N)|exact (HN (N.pos p))|].
  change (pretty (Z.neg p)) with ("-" +:+ pretty (N.pos p)). rewrite lacks_app, HN, andb_true_r.
  rewrite lacks_cons, andb_true_r. apply negb_true_iff, bool_decide_eq_false. intros E. by apply Hm.
Qed.

Lemma cut_lacks sep s t : lacks sep s = true → cut sep (s +:+ String sep t) = Some (s, t).
Proof.
  induction s as [|c s IH]; intros Hs.
  - change ("" +:+ String sep t) with (String sep t). simpl. by rewrite decide_True.
  - change (String c s +:+ String sep t) with (String c (s +:+ String sep t)). rewrite lacks_cons in Hs.
    apply andb_true_iff in Hs as [Hc%negb_true_iff%bool_decide_eq_false Hs]. simpl.
    rewrite decide_False by done. by rewrite IH.
Qed.
