(* ===== verification/Db.v ===== *)
(** * The journal's database

    The tables the journal keeps in PostgreSQL ([internal/journal] and its
    migrations), with the constraints the schema declares, and transactions
    over them.  A transaction is a function from a database to a result and a
    new database; an error rolls back, so [Err] carries no database
    ([pgx.BeginFunc]).  Row locks serialise the transactions of a
    conversation, so one transaction is one atomic step; [now] is the
    database clock it reads ([clock_timestamp()], in microseconds).

    JSON columns hold decoded values where the code only ever stores a value
    it marshalled itself (commands as JSON keeps them, interactions, event
    details, active sets)
    and JSON text where the value comes from outside (histories, checkpoints,
    replies, settings, server info, descriptors). *)
From S2P Require Import Prelude GoText.
From Stdlib Require Import Ascii.

(** ** Errors

    The sentinel errors of [store.go], [operations.go] and
    [interactions.go], then those the database driver returns. *)
Inductive error :=
| ErrOwnership | ErrPending | ErrConflict | ErrExpired | ErrForbidden | ErrBusy | ErrState
| ErrDefinition | ErrDefinitionSuperseded | ErrOutcomeUnknown | ErrSuperseded
| DbNoRows | DbUnique | DbCheck | DbForeignKey | DbSyntax | DbRange | DbText.
#[export] Instance error_eq_dec : EqDecision error.
Proof. solve_decision. Defined.

(** ** Values *)

Inductive RunState :=
| RunAwaitingInput | RunInterrupted | RunPending | RunRunning | RunCompleted | RunFailed
| RunAuthRequired | RunDependencyUnavailable | RunLimitExceeded.
#[export] Instance RunState_eq_dec : EqDecision RunState.
Proof. solve_decision. Defined.

Definition state_name (s : RunState) : string :=
  match s with
  | RunAwaitingInput => "awaiting_input" | RunInterrupted => "interrupted"
  | RunPending => "pending" | RunRunning => "running" | RunCompleted => "completed"
  | RunFailed => "failed" | RunAuthRequired => "auth_required"
  | RunDependencyUnavailable => "dependency_unavailable" | RunLimitExceeded => "limit_exceeded"
  end.

Definition ReasonJourneyUnavailable : string := "journey_unavailable".
Definition ReasonPolicyConflict : string := "policy_conflict".
Definition ReasonActivationRefused : string := "activation_refused".
Definition ReasonInteractionExpired : string := "interaction_expired".

(** [agent_interactions.state], [agent_interactions.marker] and
    [agent_operations.outcome]: the values their CHECK constraints allow. *)
Inductive InteractionState := IPending | IConsumed | IExpired.
#[export] Instance InteractionState_eq_dec : EqDecision InteractionState.
Proof. solve_decision. Defined.
Inductive Marker := MRequested | MDecided | MDenied | MDispatched | MSuperseded.
#[export] Instance Marker_eq_dec : EqDecision Marker.
Proof. solve_decision. Defined.
Inductive Outcome := ODispatching | OCompleted | ORejected | OAuthRequired | OUnknown.
#[export] Instance Outcome_eq_dec : EqDecision Outcome.
Proof. solve_decision. Defined.

Definition outcome_name (o : Outcome) : string :=
  match o with
  | ODispatching => "dispatching" | OCompleted => "completed" | ORejected => "rejected"
  | OAuthRequired => "auth_required" | OUnknown => "outcome_unknown"
  end.

Record Command := mk_Command {
  c_ThreadID : string; c_RunID : string; c_CommunicationID : string; c_Principal : string;
  c_Tenant : string; c_Text : string; c_TargetJourney : string; c_InteractionID : string;
  c_ReplyKind : string; c_ReplyJSON : string;
}.
#[export] Instance Command_eq_dec : EqDecision Command.
Proof. solve_decision. Defined.

Record Receipt := mk_Receipt {
  rc_ThreadID : string; rc_RunID : string; rc_CommunicationID : string;
  rc_ExecutionRunID : string; rc_State : RunState; rc_Answer : string;
}.

(** The JSON object of an event's detail, as the fields the code puts in it. *)
Inductive Detail :=
| DDefinition (old_digest new_digest : string)
| DCatalog (old_digest new_digest old_version new_version : string)
| DTruncation (turns messages before after budget : Z)
| DLimit (kind : string) (retry_after_seconds : Z).
#[export] Instance Detail_eq_dec : EqDecision Detail.
Proof. solve_decision. Defined.

Record Event := mk_Event {
  e_Sequence : Z; e_Type : string; e_RunID : string; e_CallID : string; e_ToolName : string;
  e_Answer : string; e_CommunicationID : string; e_Reason : string; e_Detail : option Detail;
}.
#[export] Instance Event_eq_dec : EqDecision Event.
Proof. solve_decision. Defined.

(** [Event{RunID: run, Type: kind}] and the literals with further fields. *)
Definition event (kind run : string) : Event := mk_Event 0 kind run "" "" "" "" "" None.
Definition command_event (kind run comm reason : string) : Event :=
  mk_Event 0 kind run "" "" "" comm reason None.
Definition call_event (kind run call tool : string) : Event :=
  mk_Event 0 kind run call tool "" "" "" None.
Definition detail_event (kind run reason : string) (d : Detail) : Event :=
  mk_Event 0 kind run "" "" "" "" reason (Some d).

Record QOption := mk_Option { o_Label : string; o_Description : string }.
#[export] Instance QOption_eq_dec : EqDecision QOption.
Proof. solve_decision. Defined.
Record Question := mk_Question {
  q_ID : string; q_Header : string; q_Question : string; q_Options : list QOption;
}.
#[export] Instance Question_eq_dec : EqDecision Question.
Proof. solve_decision. Defined.
Record ProposedCall := mk_Call {
  pc_CallID : string; pc_ProviderCallID : string; pc_Name : string; pc_Arguments : string;
  pc_Binding : string;
}.
#[export] Instance ProposedCall_eq_dec : EqDecision ProposedCall.
Proof. solve_decision. Defined.
Record Interaction := mk_Interaction {
  i_ID : string; i_Kind : string; i_Questions : list Question; i_Call : ProposedCall;
  i_ExpiresAt : Z; i_JourneyID : string; i_OperationKey : string; i_NameDigest : string;
  i_SchemaDigest : string;
}.
#[export] Instance Interaction_eq_dec : EqDecision Interaction.
Proof. solve_decision. Defined.
Record Answer := mk_Answer { a_Option : string; a_Custom : string }.
Record Reply := mk_Reply {
  r_Answers : gmap string Answer; r_Decision : string; r_Binding : string;
}.

(** ** Encodings

    What the journal uses of JSON, PostgreSQL's [jsonb] and SHA-256. *)
Class Codec := {
  (** text to [jsonb] and back to text; [None] when the text is refused *)
  jsonb : string → option string;
  (** [json.Valid] *)
  json_valid : string → bool;
  (** [DecodeStrict] of a reply, and [json.Unmarshal] of a stored one *)
  decode_reply : string → option Reply;
  unmarshal_reply : string → option Reply;
  (** [DecodeStrict] into [map[string]any] (not null), then [json.Marshal] *)
  canonical_object : string → option string;
  (** [DecodeStrict] into [any], then [json.Marshal] *)
  canonical_value : string → option string;
  (** a stored history decoded as messages, with the function result
      [{"error": e}] appended for the given provider call, and marshalled *)
  close_history : string → string → string → option string;
  (** the [interaction_ttl] of recorded settings; 0 when absent *)
  settings_ttl : string → option Z;
  (** [sha256.Sum256] *)
  sha256 : string → string;
}.

(** [jsonb_typeof] of a [jsonb] value's text. *)
Definition jsonb_first (c : ascii) (text : string) : bool :=
  match text with String d _ => bool_decide (c = d) | "" => false end.
Definition jsonb_is_array (text : string) : bool := jsonb_first "[" text.
Definition jsonb_is_object (text : string) : bool := jsonb_first "{" text.

(** ** Tables *)

(** [agent_conversations]: keyed by thread ID. *)
Record conv_row := mk_conv {
  cv_principal : string;
  cv_sequence : Z;
  cv_owner_epoch : Z;
  cv_history : string;
  cv_definition : option string;
  cv_active : list string;
  cv_catalog : option string;
  cv_product : option string;
  cv_validated : option Z;
}.

Definition upd_cv_sequence (f : Z → Z) (r : conv_row) : conv_row :=
  mk_conv r.(cv_principal) (f r.(cv_sequence)) r.(cv_owner_epoch) r.(cv_history) r.(cv_definition) r.(cv_active) r.(cv_catalog) r.(cv_product) r.(cv_validated).
Definition upd_cv_owner_epoch (f : Z → Z) (r : conv_row) : conv_row :=
  mk_conv r.(cv_principal) r.(cv_sequence) (f r.(cv_owner_epoch)) r.(cv_history) r.(cv_definition) r.(cv_active) r.(cv_catalog) r.(cv_product) r.(cv_validated).
Definition upd_cv_history (f : string → string) (r : conv_row) : conv_row :=
  mk_conv r.(cv_principal) r.(cv_sequence) r.(cv_owner_epoch) (f r.(cv_history)) r.(cv_definition) r.(cv_active) r.(cv_catalog) r.(cv_product) r.(cv_validated).
Definition upd_cv_definition (f : option string → option string) (r : conv_row) : conv_row :=
  mk_conv r.(cv_principal) r.(cv_sequence) r.(cv_owner_epoch) r.(cv_history) (f r.(cv_definition)) r.(cv_active) r.(cv_catalog) r.(cv_product) r.(cv_validated).
Definition upd_cv_active (f : list string → list string) (r : conv_row) : conv_row :=
  mk_conv r.(cv_principal) r.(cv_sequence) r.(cv_owner_epoch) r.(cv_history) r.(cv_definition) (f r.(cv_active)) r.(cv_catalog) r.(cv_product) r.(cv_validated).
Definition upd_cv_catalog (f : option string → option string) (r : conv_row) : conv_row :=
  mk_conv r.(cv_principal) r.(cv_sequence) r.(cv_owner_epoch) r.(cv_history) r.(cv_definition) r.(cv_active) (f r.(cv_catalog)) r.(cv_product) r.(cv_validated).
Definition upd_cv_product (f : option string → option string) (r : conv_row) : conv_row :=
  mk_conv r.(cv_principal) r.(cv_sequence) r.(cv_owner_epoch) r.(cv_history) r.(cv_definition) r.(cv_active) r.(cv_catalog) (f r.(cv_product)) r.(cv_validated).
Definition upd_cv_validated (f : option Z → option Z) (r : conv_row) : conv_row :=
  mk_conv r.(cv_principal) r.(cv_sequence) r.(cv_owner_epoch) r.(cv_history) r.(cv_definition) r.(cv_active) r.(cv_catalog) r.(cv_product) (f r.(cv_validated)).

(** [agent_commands]: rows in [ordinal] order. *)
Record command_row := mk_command {
  cm_thread : string;
  cm_comm : string;
  cm_run : string;
  cm_payload : Command;
  cm_exec : string;
  cm_included : bool;
  cm_terminal : string;
}.

Definition upd_cm_included (f : bool → bool) (r : command_row) : command_row :=
  mk_command r.(cm_thread) r.(cm_comm) r.(cm_run) r.(cm_payload) r.(cm_exec) (f r.(cm_included)) r.(cm_terminal).
Definition upd_cm_terminal (f : string → string) (r : command_row) : command_row :=
  mk_command r.(cm_thread) r.(cm_comm) r.(cm_run) r.(cm_payload) r.(cm_exec) r.(cm_included) (f r.(cm_terminal)).

(** [agent_runs]: keyed by run ID. *)
Record run_row := mk_run {
  rn_thread : string;
  rn_state : RunState;
  rn_journey : option string;
  rn_definition : option string;
  rn_answer : string;
  rn_owner : string;
  rn_epoch : Z;
  rn_lease : Z;
  rn_product : option string;
  rn_endpoint : option string;
  rn_settings : option string;
  rn_server : option string;
  rn_catalog : option string;
}.

Definition upd_rn_state (f : RunState → RunState) (r : run_row) : run_row :=
  mk_run r.(rn_thread) (f r.(rn_state)) r.(rn_journey) r.(rn_definition) r.(rn_answer) r.(rn_owner) r.(rn_epoch) r.(rn_lease) r.(rn_product) r.(rn_endpoint) r.(rn_settings) r.(rn_server) r.(rn_catalog).
Definition upd_rn_journey (f : option string → option string) (r : run_row) : run_row :=
  mk_run r.(rn_thread) r.(rn_state) (f r.(rn_journey)) r.(rn_definition) r.(rn_answer) r.(rn_owner) r.(rn_epoch) r.(rn_lease) r.(rn_product) r.(rn_endpoint) r.(rn_settings) r.(rn_server) r.(rn_catalog).
Definition upd_rn_definition (f : option string → option string) (r : run_row) : run_row :=
  mk_run r.(rn_thread) r.(rn_state) r.(rn_journey) (f r.(rn_definition)) r.(rn_answer) r.(rn_owner) r.(rn_epoch) r.(rn_lease) r.(rn_product) r.(rn_endpoint) r.(rn_settings) r.(rn_server) r.(rn_catalog).
Definition upd_rn_answer (f : string → string) (r : run_row) : run_row :=
  mk_run r.(rn_thread) r.(rn_state) r.(rn_journey) r.(rn_definition) (f r.(rn_answer)) r.(rn_owner) r.(rn_epoch) r.(rn_lease) r.(rn_product) r.(rn_endpoint) r.(rn_settings) r.(rn_server) r.(rn_catalog).
Definition upd_rn_owner (f : string → string) (r : run_row) : run_row :=
  mk_run r.(rn_thread) r.(rn_state) r.(rn_journey) r.(rn_definition) r.(rn_answer) (f r.(rn_owner)) r.(rn_epoch) r.(rn_lease) r.(rn_product) r.(rn_endpoint) r.(rn_settings) r.(rn_server) r.(rn_catalog).
Definition upd_rn_epoch (f : Z → Z) (r : run_row) : run_row :=
  mk_run r.(rn_thread) r.(rn_state) r.(rn_journey) r.(rn_definition) r.(rn_answer) r.(rn_owner) (f r.(rn_epoch)) r.(rn_lease) r.(rn_product) r.(rn_endpoint) r.(rn_settings) r.(rn_server) r.(rn_catalog).
Definition upd_rn_lease (f : Z → Z) (r : run_row) : run_row :=
  mk_run r.(rn_thread) r.(rn_state) r.(rn_journey) r.(rn_definition) r.(rn_answer) r.(rn_owner) r.(rn_epoch) (f r.(rn_lease)) r.(rn_product) r.(rn_endpoint) r.(rn_settings) r.(rn_server) r.(rn_catalog).
Definition upd_rn_product (f : option string → option string) (r : run_row) : run_row :=
  mk_run r.(rn_thread) r.(rn_state) r.(rn_journey) r.(rn_definition) r.(rn_answer) r.(rn_owner) r.(rn_epoch) r.(rn_lease) (f r.(rn_product)) r.(rn_endpoint) r.(rn_settings) r.(rn_server) r.(rn_catalog).
Definition upd_rn_endpoint (f : option string → option string) (r : run_row) : run_row :=
  mk_run r.(rn_thread) r.(rn_state) r.(rn_journey) r.(rn_definition) r.(rn_answer) r.(rn_owner) r.(rn_epoch) r.(rn_lease) r.(rn_product) (f r.(rn_endpoint)) r.(rn_settings) r.(rn_server) r.(rn_catalog).
Definition upd_rn_settings (f : option string → option string) (r : run_row) : run_row :=
  mk_run r.(rn_thread) r.(rn_state) r.(rn_journey) r.(rn_definition) r.(rn_answer) r.(rn_owner) r.(rn_epoch) r.(rn_lease) r.(rn_product) r.(rn_endpoint) (f r.(rn_settings)) r.(rn_server) r.(rn_catalog).
Definition upd_rn_server (f : option string → option string) (r : run_row) : run_row :=
  mk_run r.(rn_thread) r.(rn_state) r.(rn_journey) r.(rn_definition) r.(rn_answer) r.(rn_owner) r.(rn_epoch) r.(rn_lease) r.(rn_product) r.(rn_endpoint) r.(rn_settings) (f r.(rn_server)) r.(rn_catalog).
Definition upd_rn_catalog (f : option string → option string) (r : run_row) : run_row :=
  mk_run r.(rn_thread) r.(rn_state) r.(rn_journey) r.(rn_definition) r.(rn_answer) r.(rn_owner) r.(rn_epoch) r.(rn_lease) r.(rn_product) r.(rn_endpoint) r.(rn_settings) r.(rn_server) (f r.(rn_catalog)).

(** [agent_interactions]: keyed by interaction ID. *)
Record interaction_row := mk_interaction {
  in_thread : string;
  in_run : string;
  in_journey : option string;
  in_definition : string;
  in_kind : string;
  in_artifact : Interaction;
  in_checkpoint : string;
  in_history : string;
  in_expires : Z;
  in_state : InteractionState;
  in_continuation : option string;
  in_reply : option string;
  in_marker : option Marker;
  in_operation : option string;
  in_name : option string;
  in_schema : option string;
  in_product : option string;
  in_catalog : option string;
  in_active : option (list string);
}.

Definition upd_in_state (f : InteractionState → InteractionState) (r : interaction_row) : interaction_row :=
  mk_interaction r.(in_thread) r.(in_run) r.(in_journey) r.(in_definition) r.(in_kind) r.(in_artifact) r.(in_checkpoint) r.(in_history) r.(in_expires) (f r.(in_state)) r.(in_continuation) r.(in_reply) r.(in_marker) r.(in_operation) r.(in_name) r.(in_schema) r.(in_product) r.(in_catalog) r.(in_active).
Definition upd_in_continuation (f : option string → option string) (r : interaction_row) : interaction_row :=
  mk_interaction r.(in_thread) r.(in_run) r.(in_journey) r.(in_definition) r.(in_kind) r.(in_artifact) r.(in_checkpoint) r.(in_history) r.(in_expires) r.(in_state) (f r.(in_continuation)) r.(in_reply) r.(in_marker) r.(in_operation) r.(in_name) r.(in_schema) r.(in_product) r.(in_catalog) r.(in_active).
Definition upd_in_reply (f : option string → option string) (r : interaction_row) : interaction_row :=
  mk_interaction r.(in_thread) r.(in_run) r.(in_journey) r.(in_definition) r.(in_kind) r.(in_artifact) r.(in_checkpoint) r.(in_history) r.(in_expires) r.(in_state) r.(in_continuation) (f r.(in_reply)) r.(in_marker) r.(in_operation) r.(in_name) r.(in_schema) r.(in_product) r.(in_catalog) r.(in_active).
Definition upd_in_marker (f : option Marker → option Marker) (r : interaction_row) : interaction_row :=
  mk_interaction r.(in_thread) r.(in_run) r.(in_journey) r.(in_definition) r.(in_kind) r.(in_artifact) r.(in_checkpoint) r.(in_history) r.(in_expires) r.(in_state) r.(in_continuation) r.(in_reply) (f r.(in_marker)) r.(in_operation) r.(in_name) r.(in_schema) r.(in_product) r.(in_catalog) r.(in_active).

(** [agent_operations]: keyed by call ID. *)
Record operation_row := mk_operation {
  op_thread : string;
  op_run : string;
  op_alias : string;
  op_key : string;
  op_args : string;
  op_binding : string;
  op_policy : string;
  op_approval : bool;
  op_outcome : Outcome;
  op_journey : option string;
}.

Definition upd_op_outcome (f : Outcome → Outcome) (r : operation_row) : operation_row :=
  mk_operation r.(op_thread) r.(op_run) r.(op_alias) r.(op_key) r.(op_args) r.(op_binding) r.(op_policy) r.(op_approval) (f r.(op_outcome)) r.(op_journey).

(** [agent_usage]: one row per completion. *)
Record usage_row := mk_usage {
  us_thread : string; us_run : string; us_seq : Z; us_model : string;
  us_input : Z; us_output : Z; us_cached : Z;
  us_tenant : string; us_principal : string; us_journey : option string; us_at : Z;
}.

(** [agent_definition_sets] with the files of [agent_definition_set_files]. *)
Record defset_row := mk_defset { ds_activated : option Z; ds_files : gmap string string }.

(** [agent_catalog_snapshots]: keyed by digest. *)
Record snapshot_row := mk_snapshot {
  sn_tenant : string; sn_principal : string; sn_product : string; sn_endpoint : string;
  sn_server : string; sn_descriptors : string; sn_captured : Z;
}.

(** The tables. [current] is the row of [agent_definition_current], if any. *)
Record db := mk_db {
  convs : gmap string conv_row;
  commands : list command_row;
  runs : gmap string run_row;
  events : list (string * Event);
  interactions : gmap string interaction_row;
  operations : gmap string operation_row;
  attempts : gmap (string * Z) Outcome;
  usages : list usage_row;
  current : option string;
  def_sets : gmap string defset_row;
  snapshots : gmap string snapshot_row;
}.

Definition upd_convs (f : gmap string conv_row → gmap string conv_row) (r : db) : db :=
  mk_db (f r.(convs)) r.(commands) r.(runs) r.(events) r.(interactions) r.(operations) r.(attempts) r.(usages) r.(current) r.(def_sets) r.(snapshots).
Definition upd_commands (f : list command_row → list command_row) (r : db) : db :=
  mk_db r.(convs) (f r.(commands)) r.(runs) r.(events) r.(interactions) r.(operations) r.(attempts) r.(usages) r.(current) r.(def_sets) r.(snapshots).
Definition upd_runs (f : gmap string run_row → gmap string run_row) (r : db) : db :=
  mk_db r.(convs) r.(commands) (f r.(runs)) r.(events) r.(interactions) r.(operations) r.(attempts) r.(usages) r.(current) r.(def_sets) r.(snapshots).
Definition upd_events (f : list (string * Event) → list (string * Event)) (r : db) : db :=
  mk_db r.(convs) r.(commands) r.(runs) (f r.(events)) r.(interactions) r.(operations) r.(attempts) r.(usages) r.(current) r.(def_sets) r.(snapshots).
Definition upd_interactions (f : gmap string interaction_row → gmap string interaction_row) (r : db) : db :=
  mk_db r.(convs) r.(commands) r.(runs) r.(events) (f r.(interactions)) r.(operations) r.(attempts) r.(usages) r.(current) r.(def_sets) r.(snapshots).
Definition upd_operations (f : gmap string operation_row → gmap string operation_row) (r : db) : db :=
  mk_db r.(convs) r.(commands) r.(runs) r.(events) r.(interactions) (f r.(operations)) r.(attempts) r.(usages) r.(current) r.(def_sets) r.(snapshots).
Definition upd_attempts (f : gmap (string * Z) Outcome → gmap (string * Z) Outcome) (r : db) : db :=
  mk_db r.(convs) r.(commands) r.(runs) r.(events) r.(interactions) r.(operations) (f r.(attempts)) r.(usages) r.(current) r.(def_sets) r.(snapshots).
Definition upd_usages (f : list usage_row → list usage_row) (r : db) : db :=
  mk_db r.(convs) r.(commands) r.(runs) r.(events) r.(interactions) r.(operations) r.(attempts) (f r.(usages)) r.(current) r.(def_sets) r.(snapshots).
Definition upd_current (f : option string → option string) (r : db) : db :=
  mk_db r.(convs) r.(commands) r.(runs) r.(events) r.(interactions) r.(operations) r.(attempts) r.(usages) (f r.(current)) r.(def_sets) r.(snapshots).
Definition upd_def_sets (f : gmap string defset_row → gmap string defset_row) (r : db) : db :=
  mk_db r.(convs) r.(commands) r.(runs) r.(events) r.(interactions) r.(operations) r.(attempts) r.(usages) r.(current) (f r.(def_sets)) r.(snapshots).
Definition upd_snapshots (f : gmap string snapshot_row → gmap string snapshot_row) (r : db) : db :=
  mk_db r.(convs) r.(commands) r.(runs) r.(events) r.(interactions) r.(operations) r.(attempts) r.(usages) r.(current) r.(def_sets) (f r.(snapshots)).


Definition empty_db : db := mk_db ∅ [] ∅ [] ∅ ∅ ∅ [] None ∅ ∅.

(** ** Rows by condition *)

Section rows.
Context {K A : Type} `{Countable K}.
Implicit Types (P : K → A → bool) (m : gmap K A).

(** [EXISTS (SELECT 1 FROM m WHERE P)] *)
Definition exists_row P m : bool := existsb (λ kv, P kv.1 kv.2) (map_to_list m).

(** [SELECT ... FROM m WHERE P], its first row *)
Definition find_row P m : option (K * A) := head (filter (λ kv, P kv.1 kv.2 = true) (map_to_list m)).

(** [UPDATE m SET f WHERE P] *)
Definition update_rows P (f : A → A) m : gmap K A :=
  map_imap (λ k v, Some (if P k v then f v else v)) m.

(** The rows an [UPDATE m SET f WHERE P RETURNING ...] returns *)
Definition matching P m : list (K * A) := filter (λ kv, P kv.1 kv.2 = true) (map_to_list m).

Lemma exists_row_true P m : exists_row P m = true ↔ ∃ k v, m !! k = Some v ∧ P k v = true.
Proof.
  unfold exists_row. rewrite existsb_exists. split.
  - intros ([k v] & Hin & HP). apply list_elem_of_In, elem_of_map_to_list in Hin. eauto.
  - intros (k & v & Hk & HP). exists (k, v). split; [|done].
    by apply list_elem_of_In, elem_of_map_to_list.
Qed.

Lemma exists_row_false P m : exists_row P m = false ↔ ∀ k v, m !! k = Some v → P k v = false.
Proof.
  rewrite <- not_true_iff_false, exists_row_true. split.
  - intros Hn k v Hk. destruct (P k v) eqn:E; [|done]. destruct Hn. eauto.
  - intros Hf (k & v & Hk & HP). by rewrite (Hf k v Hk) in HP.
Qed.

Lemma elem_of_matching P m k v : (k, v) ∈ matching P m ↔ m !! k = Some v ∧ P k v = true.
Proof. unfold matching. rewrite list_elem_of_filter, elem_of_map_to_list. naive_solver. Qed.

Lemma find_row_Some P m k v : find_row P m = Some (k, v) → m !! k = Some v ∧ P k v = true.
Proof.
  unfold find_row. intros Hf. apply (elem_of_matching P m). unfold matching.
  destruct (filter _ _) as [|kv l]; [done|]. simplify_eq/=. apply list_elem_of_here.
Qed.

Lemma find_row_None P m : find_row P m = None ↔ ∀ k v, m !! k = Some v → P k v = false.
Proof.
  unfold find_row. split.
  - intros Hf k v Hk. destruct (P k v) eqn:E; [|done].
    pose proof (proj2 (elem_of_matching P m k v) (conj Hk E)) as Hin. unfold matching in Hin.
    destruct (filter _ _); [by apply elem_of_nil in Hin|done].
  - intros Hf. destruct (filter _ _) as [|[k v] l] eqn:E; [done|].
    assert ((k, v) ∈ matching P m) as Hin by (unfold matching; rewrite E; apply list_elem_of_here).
    apply elem_of_matching in Hin as [Hk HP]. by rewrite (Hf k v Hk) in HP.
Qed.

Lemma lookup_update_rows P f m k :
  update_rows P f m !! k = (λ v, if P k v then f v else v) <$> m !! k.
Proof. unfold update_rows. rewrite map_lookup_imap. by destruct (m !! k). Qed.

Lemma update_rows_none P f m : (∀ k v, m !! k = Some v → P k v = false) → update_rows P f m = m.
Proof.
  intros HP. apply map_eq. intros k. rewrite lookup_update_rows.
  destruct (m !! k) as [v|] eqn:E; simpl; [|done]. by rewrite (HP k v E).
Qed.

Lemma update_rows_one P f m k v : m !! k = Some v → P k v = true →
  (∀ k' v', m !! k' = Some v' → P k' v' = true → k' = k) → update_rows P f m = <[k := f v]> m.
Proof.
  intros Hk HP Hu. apply map_eq. intros k'. rewrite lookup_update_rows.
  destruct (decide (k = k')) as [<-|Hne]; [by rewrite lookup_insert_eq, Hk; simpl; rewrite HP|].
  rewrite lookup_insert_ne by done. destruct (m !! k') as [v'|] eqn:E; simpl; [|done].
  destruct (P k' v') eqn:E'; [|done]. by destruct Hne; symmetry; eapply Hu.
Qed.

Lemma matching_cases P m : (∀ k v, m !! k = Some v → P k v = false) ∧ matching P m = [] ∨
  ∃ k v l, matching P m = (k, v) :: l ∧ m !! k = Some v ∧ P k v = true.
Proof.
  destruct (matching P m) as [|[k v] l] eqn:E.
  - left. split; [|done]. intros k v Hk. destruct (P k v) eqn:HP; [|done].
    pose proof (proj2 (elem_of_matching P m k v) (conj Hk HP)) as Hin. rewrite E in Hin.
    by apply elem_of_nil in Hin.
  - right. exists k, v, l. split; [done|]. apply (elem_of_matching P m). rewrite E. apply list_elem_of_here.
Qed.

Lemma NoDup_matching P m : NoDup (matching P m).
Proof. apply NoDup_filter, NoDup_map_to_list. Qed.

Lemma matching_one P m k v : m !! k = Some v → P k v = true →
  (∀ k' v', m !! k' = Some v' → P k' v' = true → k' = k) → matching P m = [(k, v)].
Proof.
  intros Hk HP Hu. pose proof (NoDup_matching P m) as Hnd.
  assert (∀ x, x ∈ matching P m ↔ x = (k, v)) as Hx.
  { intros [k' v']. rewrite elem_of_matching. split; [|by intros [= -> ->]].
    intros [Hk' HP']. pose proof (Hu k' v' Hk' HP') as ->. by simplify_eq. }
  destruct (matching P m) as [|x [|y l]].
  - by pose proof (proj2 (Hx (k, v)) eq_refl) as Hin%elem_of_nil.
  - by rewrite (proj1 (Hx x) (list_elem_of_here _ _)).
  - apply NoDup_cons in Hnd as [Hn _]. destruct Hn.
    rewrite (proj1 (Hx x) ltac:(set_solver)), (proj1 (Hx y) ltac:(set_solver)). set_solver.
Qed.
End rows.

(** ** Transactions *)

Definition tx (A : Type) : Type := db → result error (A * db).
#[export] Instance tx_ret : MRet tx := λ A a s, Ok (a, s).
#[export] Instance tx_bind : MBind tx := λ A B f m s,
  match m s with Ok (a, s') => f a s' | Err e => Err e end.

Definition fail {A} (e : error) : tx A := λ s, Err e.
Definition get {A} (f : db → A) : tx A := λ s, Ok (f s, s).
Definition modify (f : db → db) : tx unit := λ s, Ok (tt, f s).
(** [if !b { return e }] *)
Definition guard_tx (b : bool) (e : error) : tx unit := if b then mret tt else fail e.
(** A row that a query must find: [pgx.ErrNoRows] becomes [e]. *)
Definition the {A} (e : error) (o : option A) : tx A :=
  match o with Some a => mret a | None => fail e end.

Lemma tx_bind_ok {A B} (m : tx A) (f : A → tx B) s r :
  (m ≫= f) s = Ok r ↔ ∃ a s', m s = Ok (a, s') ∧ f a s' = Ok r.
Proof.
  unfold mbind, tx_bind. destruct (m s) as [[a s']|e]; split.
  - eauto.
  - by intros (? & ? & [= -> ->] & ?).
  - done.
  - by intros (? & ? & [=] & _).
Qed.

Lemma guard_tx_ok b e s r : guard_tx b e s = Ok r ↔ b = true ∧ r = (tt, s).
Proof. destruct b; cbv; split; intros H; simplify_eq; naive_solver. Qed.

Lemma the_ok {A} e (o : option A) s r : the e o s = Ok r ↔ ∃ a, o = Some a ∧ r = (a, s).
Proof. destruct o; cbv; split; intros H; simplify_eq; naive_solver. Qed.

(** Takes apart a transaction that committed. *)
Ltac txsimpl :=
  repeat match goal with
  | H : (_ ≫= _) _ = Ok _ |- _ =>
      let a := fresh "a" in let s := fresh "s" in let H' := fresh H in
      apply tx_bind_ok in H as (a & s & H' & H)
  | H : guard_tx _ _ _ = Ok _ |- _ =>
      let H' := fresh H in apply guard_tx_ok in H as [H' H]
  | H : the _ _ _ = Ok _ |- _ =>
      let a := fresh "a" in let H' := fresh H in apply the_ok in H as (a & H' & H)
  | H : fail _ _ = Ok _ |- _ => discriminate H
  | H : get _ _ = Ok _ |- _ => injection H as H
  | H : modify _ _ = Ok _ |- _ => injection H as H
  | H : mret _ _ = Ok _ |- _ => injection H as H
  | H : Ok _ = Ok _ |- _ => injection H as H
  | H : (_, _) = (_, _) |- _ => injection H as H
  | H : Err _ = Ok _ |- _ => discriminate H
  | H : tt = tt |- _ => clear H
  | x : unit |- _ => destruct x
  end; subst.

(** One statement of it, named. *)
Tactic Notation "tx_step" hyp(H) ident(x) ident(s1) ident(H1) :=
  apply tx_bind_ok in H as (x & s1 & H1 & H).
Tactic Notation "tx_get" hyp(H) ident(x) :=
  let s1 := fresh "s" in apply tx_bind_ok in H as (x & s1 & [= <- <-] & H).
Tactic Notation "tx_guard" hyp(H) ident(Hg) :=
  let u := fresh "u" in let s1 := fresh "s" in
  apply tx_bind_ok in H as (u & s1 & [Hg [= -> ->]]%guard_tx_ok & H).
Tactic Notation "tx_the" hyp(H) ident(x) ident(Hx) :=
  let y := fresh "y" in let s1 := fresh "s" in
  apply tx_bind_ok in H as (y & s1 & (x & Hx & [= -> ->])%the_ok & H).

(** ** Constraints and writes *)

Definition is_live (st : RunState) : bool :=
  match st with RunPending | RunRunning => true | _ => false end.

Definition run_check (r : run_row) : bool :=
  (* agent_runs_journey_requires_definition *)
  (bool_decide (r.(rn_journey) = None) || bool_decide (r.(rn_definition) ≠ None)) &&
  (* agent_runs_scope_check *)
  match r.(rn_product), r.(rn_endpoint) with
  | None, None => true
  | Some p, Some e => negb (bool_decide (p = "")) && negb (bool_decide (e = ""))
  | _, _ => false
  end &&
  default true (jsonb_is_object <$> r.(rn_settings)) &&
  default true (jsonb_is_object <$> r.(rn_server)).

(** Writing a run row: its CHECK constraints and [agent_one_live_run]. *)
Definition put_run (id : string) (r : run_row) : tx unit :=
  _ ← guard_tx (run_check r) DbCheck;
  clash ← get (λ s, is_live r.(rn_state) &&
    exists_row (λ id' r', negb (bool_decide (id' = id)) && bool_decide (r'.(rn_thread) = r.(rn_thread))
                          && is_live r'.(rn_state)) s.(runs));
  _ ← guard_tx (negb clash) DbUnique;
  modify (upd_runs <[id := r]>).

(** [INSERT INTO agent_runs]: the primary key and the foreign key to the
    command that carries the run's ID. *)
Definition insert_run (id : string) (r : run_row) : tx unit :=
  old ← get (λ s, s.(runs) !! id);
  _ ← guard_tx (bool_decide (old = None)) DbUnique;
  cmd ← get (λ s, existsb (λ c, bool_decide (c.(cm_thread) = r.(rn_thread)) &&
                               bool_decide (c.(cm_run) = id)) s.(commands));
  _ ← guard_tx cmd DbForeignKey;
  put_run id r.

(** [WHERE thread_id=$1 AND id=$2] *)
Definition run_of (thread id : string) (s : db) : option run_row :=
  r ← s.(runs) !! id; if decide (r.(rn_thread) = thread) then Some r else None.

(** [UPDATE agent_runs SET f WHERE thread_id=$1 AND id=$2 AND cond]; the
    number of rows affected. *)
Definition update_run (thread id : string) (cond : run_row → bool) (f : run_row → run_row) : tx Z :=
  row ← get (run_of thread id);
  match row with
  | Some r => if cond r then _ ← put_run id (f r); mret 1 else mret 0
  | None => mret 0
  end.

Definition conv_check (c : conv_row) : bool :=
  (0 <=? c.(cv_sequence)) && jsonb_is_array c.(cv_history) &&
  match c.(cv_catalog), c.(cv_product), c.(cv_validated) with
  | None, None, None | Some _, Some _, Some _ => true
  | _, _, _ => false
  end.

(** [UPDATE agent_conversations SET f WHERE id=$1] *)
Definition update_conv (thread : string) (f : conv_row → conv_row) : tx unit :=
  row ← get (λ s, s.(convs) !! thread);
  match row with
  | Some c => _ ← guard_tx (conv_check (f c)) DbCheck; modify (upd_convs <[thread := f c]>)
  | None => mret tt
  end.

(** A statement's JSON text as [jsonb]. *)
Definition as_jsonb `{Codec} (text : string) : tx string := the DbSyntax (jsonb text).

Definition update_history `{Codec} (thread : string) (history : string) : tx unit :=
  h ← as_jsonb history; update_conv thread (upd_cv_history (λ _, h)).

Definition pending_command (c : command_row) : bool :=
  negb c.(cm_included) && bool_decide (c.(cm_terminal) = "").
Definition command_of (thread exec : string) (c : command_row) : bool :=
  bool_decide (c.(cm_thread) = thread) && bool_decide (c.(cm_exec) = exec).

(** [INSERT INTO agent_commands]: the primary key, [UNIQUE (run_id)] and the
    foreign key to the conversation.  The one to the execution run is
    deferred: [check_commands] is its test at commit. *)
Definition insert_command (thread comm run : string) (payload : Command) (exec : string) : tx unit :=
  clash ← get (λ s, existsb (λ c, (bool_decide (c.(cm_thread) = thread) && bool_decide (c.(cm_comm) = comm))
                                 || bool_decide (c.(cm_run) = run)) s.(commands));
  _ ← guard_tx (negb clash) DbUnique;
  conv ← get (λ s, s.(convs) !! thread);
  _ ← guard_tx (bool_decide (is_Some conv)) DbForeignKey;
  modify (upd_commands (λ l, l ++ [mk_command thread comm run payload exec false ""])).

Definition check_commands (s : db) : bool :=
  forallb (λ c, bool_decide (is_Some (run_of c.(cm_thread) c.(cm_exec) s))) s.(commands).

(** [UPDATE agent_commands SET f WHERE cond]; the rows it changed. *)
Definition update_commands (cond : command_row → bool) (f : command_row → command_row)
    : tx (list command_row) :=
  rows ← get (λ s, filter (λ c, cond c = true) s.(commands));
  _ ← guard_tx (forallb (λ c, negb (f c).(cm_included) || bool_decide ((f c).(cm_terminal) = "")) rows) DbCheck;
  _ ← modify (upd_commands (fmap (λ c, if cond c then f c else c)));
  mret rows.

(** [EXISTS(... NOT included AND terminal_reason='')] *)
Definition has_pending (thread run : string) (s : db) : bool :=
  existsb (λ c, command_of thread run c && pending_command c) s.(commands).

Definition interaction_check (i : interaction_row) : bool :=
  (bool_decide (i.(in_kind) = "clarification") || bool_decide (i.(in_kind) = "approval")) &&
  (* agent_interactions_marker_kind *)
  bool_decide (i.(in_kind) = "approval" ↔ i.(in_marker) ≠ None).

(** Writing an interaction row: its CHECK constraints and
    [agent_one_pending_interaction]. *)
Definition put_interaction (id : string) (i : interaction_row) : tx unit :=
  _ ← guard_tx (interaction_check i) DbCheck;
  clash ← get (λ s, bool_decide (i.(in_state) = IPending) &&
    exists_row (λ id' i', negb (bool_decide (id' = id)) && bool_decide (i'.(in_thread) = i.(in_thread))
                          && bool_decide (i'.(in_state) = IPending)) s.(interactions));
  _ ← guard_tx (negb clash) DbUnique;
  modify (upd_interactions <[id := i]>).

Definition insert_interaction (id : string) (i : interaction_row) : tx unit :=
  old ← get (λ s, s.(interactions) !! id);
  _ ← guard_tx (bool_decide (old = None)) DbUnique;
  run ← get (run_of i.(in_thread) i.(in_run));
  _ ← guard_tx (bool_decide (is_Some run)) DbForeignKey;
  put_interaction id i.

Definition interaction_of (thread id : string) (s : db) : option interaction_row :=
  i ← s.(interactions) !! id; if decide (i.(in_thread) = thread) then Some i else None.

(** [UPDATE agent_interactions SET f WHERE thread_id=$1 AND id=$2] *)
Definition update_interaction (thread id : string) (f : interaction_row → interaction_row) : tx unit :=
  row ← get (interaction_of thread id);
  match row with Some i => put_interaction id (f i) | None => mret tt end.

(** [INSERT INTO agent_operations] *)
Definition valid_policy (p : string) : bool :=
  bool_decide (p = "read_only") || bool_decide (p = "idempotent") || bool_decide (p = "effectful").
Definition operation_check (o : operation_row) : bool :=
  valid_policy o.(op_policy) && (bool_decide (o.(op_policy) = "read_only") || o.(op_approval)).
Definition insert_operation (id : string) (o : operation_row) : tx unit :=
  old ← get (λ s, s.(operations) !! id);
  _ ← guard_tx (bool_decide (old = None)) DbUnique;
  run ← get (run_of o.(op_thread) o.(op_run));
  _ ← guard_tx (bool_decide (is_Some run)) DbForeignKey;
  _ ← guard_tx (operation_check o) DbCheck;
  modify (upd_operations <[id := o]>).

(** [INSERT INTO agent_attempts] *)
Definition insert_attempt (call : string) (attempt : Z) (o : Outcome) : tx unit :=
  old ← get (λ s, s.(attempts) !! (call, attempt));
  _ ← guard_tx (bool_decide (old = None)) DbUnique;
  op ← get (λ s, s.(operations) !! call);
  _ ← guard_tx (bool_decide (is_Some op)) DbForeignKey;
  _ ← guard_tx (0 <? attempt) DbCheck;
  modify (upd_attempts <[(call, attempt) := o]>).

(** ** [store.go] *)

Definition lockConversation (thread principal : string) : tx unit :=
  row ← get (λ s, s.(convs) !! thread);
  match row with
  | Some c => guard_tx (bool_decide (c.(cv_principal) = principal)) ErrForbidden
  | None => fail ErrForbidden
  end.

Definition with_sequence (n : Z) (e : Event) : Event :=
  mk_Event n e.(e_Type) e.(e_RunID) e.(e_CallID) e.(e_ToolName) e.(e_Answer)
    e.(e_CommunicationID) e.(e_Reason) e.(e_Detail).

(** The event takes the conversation's next sequence number; its run must be
    one of the conversation's. *)
Definition appendEvent (thread : string) (e : Event) : tx unit :=
  row ← get (λ s, s.(convs) !! thread);
  c ← the DbNoRows row;
  _ ← update_conv thread (upd_cv_sequence (λ n, n + 1));
  run ← get (run_of thread e.(e_RunID));
  _ ← guard_tx (bool_decide (is_Some run)) DbForeignKey;
  modify (upd_events (λ l, l ++ [(thread, with_sequence (c.(cv_sequence) + 1) e)])).
