(* ===== verification/CallBinding.v ===== *)
(** * Approval bindings

    [internal/journal/binding.go]: the digest an approval is bound to.  A
    binding is the SHA-256 of a domain tag and the canonical JSON of the call:
    which journey asks, which operation, with which arguments, for whom and
    under which definition set.  [encoding/json]'s string escaping is written
    out, because the digest identifies a call only if no two calls have the
    same text. *)
From S2P Require Import Prelude GoText Db.
From Stdlib Require Import Ascii.

(** ** [json.Marshal] of a string *)

Definition dquote : ascii := "034".
Definition backslash : ascii := "092".
Definition hex_digit (n : Z) : ascii :=
  match String.get (Z.to_nat n) "0123456789abcdef" with Some c => c | None => "0"%char end.

(** An ASCII byte, with [encoding/json]'s HTML escaping. *)
Definition escape_ascii (c : ascii) : string :=
  if in_set (String dquote (String backslash "")) c then String backslash (String c "")
  else if bool_decide (code c = 8) then String backslash "b"
  else if bool_decide (code c = 12) then String backslash "f"
  else if bool_decide (code c = 10) then String backslash "n"
  else if bool_decide (code c = 13) then String backslash "r"
  else if bool_decide (code c = 9) then String backslash "t"
  else if (code c <? 32) || in_set "<>&" c then
    String backslash (("u00" +:+ String (hex_digit (code c / 16)) (String (hex_digit (code c mod 16)) ""))%string)
  else String c "".

(** A decoded rune and its bytes. *)
Definition escape_rune (t : Z * string) : string :=
  let '(r, raw) := t in
  if r <? 128 then match raw with String c _ => escape_ascii c | "" => "" end
  else if bool_decide (r = 65533) && (slen raw =? 1) then String backslash "ufffd"
  else if bool_decide (r = 8232) then String backslash "u2028"
  else if bool_decide (r = 8233) then String backslash "u2029"
  else raw.

Definition json_string (s : string) : string :=
  String dquote (foldr String.append "" (escape_rune <$> runes s) +:+ String dquote "")%string.

(** ** Digests *)

Fixpoint hex (s : string) : string :=
  match s with
  | "" => ""
  | String c s => String (hex_digit (code c / 16)) (String (hex_digit (code c mod 16)) (hex s))
  end.

Record CallBinding := mk_CallBinding {
  cb_JourneyID : string; cb_OperationKey : string; cb_NameDigest : string; cb_SchemaDigest : string;
  cb_Arguments : string; cb_ProductVersion : string; cb_Principal : string;
  cb_Conversation : string; cb_DefinitionSet : string;
}.

Definition nul_byte : string := String "000" "".
Definition bindingDomain : string := "az-agent-platform/approval-binding/v2" +:+ nul_byte.
Definition nameDigestDomain : string := "az-agent-platform/remote-name/v1" +:+ nul_byte.
Definition schemaDomain : string := "az-agent-platform/input-schema/v1" +:+ nul_byte.

(** [{"k":v,...}] from the members' texts. *)
Definition json_member (kv : string * string) : string :=
  (json_string kv.1 +:+ (":" +:+ kv.2))%string.
Definition json_members (l : list (string * string)) : string := join "," (json_member <$> l).
Definition json_object (l : list (string * string)) : string :=
  ("{" +:+ json_members l +:+ "}")%string.

(** [json.Marshal(canonicalBinding{...})], given the marshalled arguments. *)
Definition canonicalBinding (b : CallBinding) (args : string) : string :=
  json_object [("journey_id", json_string b.(cb_JourneyID));
    ("operation_key", json_string b.(cb_OperationKey));
    ("name_digest", json_string b.(cb_NameDigest));
    ("schema_digest", json_string b.(cb_SchemaDigest));
    ("arguments", args);
    ("product_version", json_string b.(cb_ProductVersion));
    ("principal", json_string b.(cb_Principal));
    ("conversation", json_string b.(cb_Conversation));
    ("definition_set", json_string b.(cb_DefinitionSet))].

Section binding.
Context `{Codec}.

Definition domainDigest (domain data : string) : string := hex (sha256 (domain +:+ data)).

Definition BindCall (b : CallBinding) : result error string :=
  _ ← ensure (negb (bool_decide (b.(cb_OperationKey) = "")) && negb (bool_decide (b.(cb_NameDigest) = ""))
    && negb (bool_decide (b.(cb_SchemaDigest) = "")) && negb (bool_decide (b.(cb_ProductVersion) = ""))
    && negb (bool_decide (b.(cb_Principal) = "")) && negb (bool_decide (b.(cb_Conversation) = ""))
    && (slen b.(cb_DefinitionSet) =? 64)) ErrState;
  match canonical_object b.(cb_Arguments) with
  | Some args => Ok (domainDigest bindingDomain (canonicalBinding b args))
  | None => Err ErrState
  end.

Definition NameDigest (name : string) : string := domainDigest nameDigestDomain name.

Definition SchemaDigest (schema : string) : result error string :=
  match canonical_value (if bool_decide (schema = "") then "null" else schema) with
  | Some data => Ok (domainDigest schemaDomain data)
  | None => Err ErrState
  end.
End binding.

(** ** Reading back a JSON string

    [read_string] undoes [json_string] up to its closing quote; it is the
    witness that the escaping loses nothing and marks its own end. *)

Definition hex_value (c : ascii) : Z :=
  if is_digit c then code c - 48 else if is_lower c then code c - 87 else 0.
Definition of_code (n : Z) : ascii := ascii_of_N (Z.to_N n).
Definition line_separator (last : ascii) : string :=
  String "226" (String "128" (String last "")).
Definition unescape_unit (h1 h2 h3 h4 : ascii) : string :=
  let n := hex_value h1 * 4096 + hex_value h2 * 256 + hex_value h3 * 16 + hex_value h4 in
  if n <? 128 then String (of_code n) ""
  else if n =? 8232 then line_separator "168" else line_separator "169".
Definition unescape_short (c : ascii) : ascii :=
  if bool_decide (c = "b"%char) then "008" else if bool_decide (c = "f"%char) then "012"
  else if bool_decide (c = "n"%char) then "010" else if bool_decide (c = "r"%char) then "013"
  else if bool_decide (c = "t"%char) then "009" else c.

Definition prepend (p : string) (o : option (string * string)) : option (string * string) :=
  '(a, rest) ← o; Some ((p +:+ a)%string, rest).

Fixpoint read_string (s : string) : option (string * string) :=
  match s with
  | "" => None
  | String c s1 =>
      if decide (c = dquote) then Some ("", s1)
      else if decide (c = backslash) then
        match s1 with
        | "" => None
        | String d s2 =>
            if decide (d = "u"%char) then
              match s2 with
              | String h1 (String h2 (String h3 (String h4 s3))) =>
                  prepend (unescape_unit h1 h2 h3 h4) (read_string s3)
              | _ => None
              end
            else prepend (String (unescape_short d) "") (read_string s2)
        end
      else prepend (String c "") (read_string s1)
  end.

(** Valid UTF-8: no byte decodes to the replacement rune on its own. *)
Definition valid_utf8 (s : string) : bool :=
  forallb (λ t, negb (bool_decide (t.1 = 65533) && (slen t.2 =? 1))) (runes s).

(** What [json.Marshal] and [json.Unmarshal] make of a string: every byte that
    belongs to no valid encoding becomes U+FFFD. *)
Definition replacement : string := String "239" (String "191" (String "189" "")).
Definition through_json (s : string) : string :=
  foldr String.append "" ((λ t, if bool_decide (t.1 = 65533) && (slen t.2 =? 1) then replacement else t.2) <$> runes s).

Definition plain_byte (c : ascii) : bool := negb (in_set (String dquote (String backslash "")) c).

Lemma read_plain raw rest : all_bytes plain_byte raw = true →
  read_string (raw +:+ rest) = prepend raw (read_string rest).
Proof.
  induction raw as [|c raw IH]; intros Hp.
  - unfold prepend. change ("" +:+ rest) with rest. by destruct (read_string rest) as [[]|].
  - simpl in Hp. apply andb_true_iff in Hp as [Hc Hp].
    change (String c raw +:+ rest) with (String c (raw +:+ rest)). cbn [read_string].
    unfold plain_byte in Hc. simpl in Hc.
    destruct (decide (c = dquote)) as [->|]; [by vm_compute in Hc|].
    destruct (decide (c = backslash)) as [->|]; [by vm_compute in Hc|].
    rewrite IH by done. by destruct (read_string rest) as [[]|].
Qed.

(** Every ASCII byte is read back, by cases on the 128 of them. *)
Definition ascii_round (c : ascii) : bool :=
  match escape_ascii c with
  | String a "" => plain_byte a && bool_decide (a = c)
  | String a (String d "") => bool_decide (a = backslash) && negb (bool_decide (d = "u"%char))
      && bool_decide (unescape_short d = c)
  | String a (String d (String h1 (String h2 (String h3 (String h4 ""))))) =>
      bool_decide (a = backslash) && bool_decide (d = "u"%char)
      && bool_decide (unescape_unit h1 h2 h3 h4 = String c "")
  | _ => false
  end.

Lemma code_inj c d : code c = code d → c = d.
Proof.
  intros Hcd. rewrite <- (ascii_N_embedding c), <- (ascii_N_embedding d). f_equal. unfold code in Hcd. lia.
Qed.

Lemma read_ascii c rest : code c < 128 →
  read_string (escape_ascii c +:+ rest) = prepend (String c "") (read_string rest).
Proof.
  destruct c as [[] [] [] [] [] [] [] []]; intros Hc; first [by vm_compute in Hc|reflexivity].
Qed.

(** One rune of the text: its bytes, and whether they are escaped. *)
Definition token (t : Z * string) : Prop :=
  (∃ c, t = (code c, String c "") ∧ code c < 128) ∨
  (128 <= t.1 ∧ (t.1 = 65533 ∧ slen t.2 = 1 ∨
     all_bytes plain_byte t.2 = true ∧ slen t.2 ≠ 1 ∧
     (t.1 = 8232 → t.2 = line_separator "168") ∧ (t.1 = 8233 → t.2 = line_separator "169"))).

Lemma plain_high c : 128 <= code c → plain_byte c = true.
Proof. intros Hc. destruct c as [[] [] [] [] [] [] [] []]; first [by vm_compute in Hc|reflexivity]. Qed.

Lemma code_range c : 0 <= code c < 256.
Proof. unfold code. pose proof (N_ascii_bounded c). lia. Qed.

Lemma substring_zero s : String.substring 0 0 s = "".
Proof. by destruct s. Qed.

Lemma token_bad a s : 128 <= code a →
  token (65533, String.substring 0 1 (String a s)) ∧
  String a s = (String.substring 0 1 (String a s) +:+ drop_bytes 1 (String a s))%string.
Proof.
  intros Ha. cbn. rewrite substring_zero. split; [right|done]. cbn. split; [lia|]. by left.
Qed.

Lemma code_of_code c n : code c = n → c = of_code n.
Proof.
  intros <-. unfold of_code, code. by rewrite N2Z.id, ascii_N_embedding.
Qed.

Lemma decode_token a s r w : decode_rune (String a s) = (r, w) →
  token (r, String.substring 0 w (String a s)) ∧
  String a s = (String.substring 0 w (String a s) +:+ drop_bytes w (String a s))%string.
Proof.
  unfold decode_rune, cont_byte. pose proof (code_range a). cbv zeta.
  destruct (code a <? 128) eqn:Ha.
  { intros [= <- <-]. apply Z.ltb_lt in Ha. cbn. rewrite substring_zero.
    split; [left; exists a; done|done]. }
  apply Z.ltb_ge in Ha. pose proof (token_bad a s Ha) as Hbad.
  destruct s as [|b s]; [by intros [= <- <-]|].
  destruct ((128 <=? code b) && (code b <=? 191)) eqn:Hb; simpl negb; [|by intros [= <- <-]].
  destruct ((194 <=? code a) && (code a <=? 223)) eqn:H2.
  { intros [= <- <-]. cbn -[Z.mul Z.sub Z.add]. rewrite substring_zero. split; [|done]. right.
    cbn -[Z.mul Z.sub Z.add]. split; [lia|right]. rewrite !plain_high by lia.
    split; [done|]. unfold slen; simpl. lia. }
  destruct s as [|c s]; [by intros [= <- <-]|].
  destruct ((128 <=? code c) && (code c <=? 191)) eqn:Hc; simpl negb; [|by intros [= <- <-]].
  destruct ((224 <=? code a) && (code a <=? 239)) eqn:H3.
  { match goal with |- (if ?b then _ else _) = _ → _ => destruct b eqn:Hr end; [by intros [= <- <-]|].
    intros [= <- <-]. cbn -[Z.mul Z.sub Z.add]. rewrite substring_zero. split; [|done]. right.
    cbn -[Z.mul Z.sub Z.add]. split; [lia|right]. rewrite !plain_high by lia.
    split; [done|]. split; [unfold slen; simpl; lia|].
    split; intros Hn; rewrite (code_of_code a 226), (code_of_code b 128) by lia;
      [rewrite (code_of_code c 168) by lia|rewrite (code_of_code c 169) by lia]; done. }
  destruct s as [|d s]; [by intros [= <- <-]|].
  destruct ((128 <=? code d) && (code d <=? 191)) eqn:Hd; simpl negb; [|by intros [= <- <-]].
  destruct ((240 <=? code a) && (code a <=? 244)) eqn:H4; [|by intros [= <- <-]].
  match goal with |- (if ?b then _ else _) = _ → _ => destruct b eqn:Hr end; [by intros [= <- <-]|].
  intros [= <- <-]. cbn -[Z.mul Z.sub Z.add]. rewrite substring_zero. split; [|done]. right.
  cbn -[Z.mul Z.sub Z.add]. split; [lia|right]. rewrite !plain_high by lia.
  split; [done|]. unfold slen; simpl. lia.
Qed.

Lemma decode_width a s r w : decode_rune (String a s) = (r, w) → (0 < w)%nat.
Proof.
  unfold decode_rune. cbv zeta. intros Hd. repeat (case_match; simplify_eq; try lia).
Qed.

Lemma length_drop_bytes w s : (String.length (drop_bytes w s) = String.length s - w)%nat.
Proof. revert s. induction w as [|w IH]; intros [|c s]; simpl; [done..|]. by rewrite IH. Qed.

Lemma read_token t rest : token t → ¬ (t.1 = 65533 ∧ slen t.2 = 1) →
  read_string (escape_rune t +:+ rest) = prepend t.2 (read_string rest).
Proof.
  destruct t as [r raw]. intros [(c & [= -> ->] & Hc)|(Hr & Hraw)] Hvalid; simpl in *.
  - rewrite (proj2 (Z.ltb_lt _ _)) by lia. by apply read_ascii.
  - destruct Hraw as [?|(Hplain & Hlen & H8 & H9)]; [by destruct Hvalid|].
    rewrite (proj2 (Z.ltb_ge _ _)) by lia. rewrite (proj2 (Z.eqb_neq _ _) Hlen), andb_false_r.
    case_bool_decide; [by rewrite H8|]. case_bool_decide; [by rewrite H9|].
    by apply read_plain.
Qed.

Lemma read_runes fuel s rest : (String.length s <= fuel)%nat →
  forallb (λ t, negb (bool_decide (t.1 = 65533) && (slen t.2 =? 1))) (runes_fuel fuel s) = true →
  read_string (foldr String.append "" (escape_rune <$> runes_fuel fuel s) +:+ String dquote rest)
  = Some (s, rest).
Proof.
  revert s. induction fuel as [|fuel IH]; intros [|a s] Hlen; [done|simpl in Hlen; lia|done|].
  change (runes_fuel (S fuel) (String a s)) with
    (let '(r, w) := decode_rune (String a s) in
     (r, String.substring 0 w (String a s)) :: runes_fuel fuel (drop_bytes w (String a s))).
  destruct (decode_rune (String a s)) as [r w] eqn:Hd.
  apply decode_token in Hd as Ht. apply decode_width in Hd as Hw. destruct Ht as [Ht Hs].
  cbn [forallb fst snd]. intros [Hv Hrest]%andb_true_iff.
  rewrite fmap_cons. cbn [foldr]. rewrite append_assoc, read_token; [|done|].
  - cbn [snd]. rewrite IH; [| |done].
    { unfold prepend, mbind, option_bind. rewrite <- Hs. done. }
    rewrite length_drop_bytes. simpl in *. lia.
  - cbn [fst snd]. intros [-> Hl]. by rewrite Hl in Hv.
Qed.

Lemma read_json_string s rest : valid_utf8 s = true →
  read_string (drop_bytes 1 (json_string s) +:+ rest) = Some (s, rest).
Proof.
  intros Hv. unfold json_string. cbn [drop_bytes]. rewrite append_assoc.
  by apply read_runes.
Qed.

(** Valid text survives JSON as it is. *)
Lemma through_json_valid s : valid_utf8 s = true → through_json s = s.
Proof.
  unfold valid_utf8, through_json, runes. generalize (Nat.le_refl (String.length s)). generalize (String.length s) at 2 3 4 as fuel.
  intros fuel. revert s. induction fuel as [|fuel IH]; intros [|a s] Hlen; [done|simpl in Hlen; lia|done|].
  change (runes_fuel (S fuel) (String a s)) with
    (let '(r, w) := decode_rune (String a s) in
     (r, String.substring 0 w (String a s)) :: runes_fuel fuel (drop_bytes w (String a s))).
  destruct (decode_rune (String a s)) as [r w] eqn:Hd.
  apply decode_token in Hd as Ht. apply decode_width in Hd as Hw. destruct Ht as [_ Hs].
  cbn [forallb fst snd]. intros [Hv%negb_true_iff Hrest]%andb_true_iff. rewrite fmap_cons. cbn [foldr fst snd].
  rewrite Hv, IH; [done| |done]. rewrite length_drop_bytes. simpl in *. lia.
Qed.

(** ** A binding determines its call *)

(** Two texts at the same place in a longer text that agree must be equal. *)
Definition delimited (v w : string) : Prop :=
  ∀ x y, (v +:+ x = w +:+ y)%string → v = w ∧ x = y.

Lemma append_cancel p x y : (p +:+ x = p +:+ y)%string → x = y.
Proof. induction p as [|c p IH]; [done|]. intros [= H]. by apply IH. Qed.

Lemma json_string_delimited a b : valid_utf8 a = true → valid_utf8 b = true →
  delimited (json_string a) (json_string b) ∧ (json_string a = json_string b → a = b).
Proof.
  intros Ha Hb. split.
  - intros x y Hxy. pose proof (read_json_string a x Ha) as Ra.
    pose proof (read_json_string b y Hb) as Rb.
    assert (drop_bytes 1 (json_string a) +:+ x = drop_bytes 1 (json_string b) +:+ y)%string as Hd.
    { unfold json_string in *. cbn [drop_bytes] in *. by injection Hxy. }
    rewrite Hd, Rb in Ra. by simplify_eq.
  - intros Hj. pose proof (read_json_string a "" Ha) as Ra.
    pose proof (read_json_string b "" Hb) as Rb. rewrite Hj, Rb in Ra. by simplify_eq.
Qed.

(** A template: literal texts, each followed by a value. *)
Definition render (l : list (string * string)) (tail : string) : string :=
  foldr (λ lv acc, lv.1 +:+ (lv.2 +:+ acc))%string tail l.

Lemma render_inj l k tail :
  Forall2 (λ p q, p.1 = q.1 ∧ delimited p.2 q.2) l k → render l tail = render k tail →
  snd <$> l = snd <$> k.
Proof.
  induction 1 as [|p q l k [Hl Hd] Hf IH]; [done|]. simpl. rewrite Hl.
  intros [Hv Ht]%append_cancel%Hd. rewrite Hv. f_equal. by apply IH.
Qed.

Definition member_text (sep : string) (kv : string * string) : string * string :=
  ((sep +:+ (json_string kv.1 +:+ ":"))%string, kv.2).

Lemma concat_cons sep x y l :
  String.concat sep (x :: y :: l) = (x +:+ (sep +:+ String.concat sep (y :: l)))%string.
Proof. done. Qed.

Lemma json_members_cons kv l tail :
  (json_members (kv :: l) +:+ tail = render (member_text "" kv :: (member_text "," <$> l)) tail)%string.
Proof.
  unfold json_members, join, render. revert kv.
  induction l as [|kv' l IH]; intros kv.
  - cbn [fmap list_fmap String.concat foldr]. unfold member_text, json_member. cbn [fst snd].
    rewrite !append_assoc. done.
  - rewrite 2!fmap_cons, concat_cons, <- fmap_cons, !append_assoc, IH.
    unfold member_text, json_member. cbn [fmap list_fmap foldr fst snd]. rewrite !append_assoc. done.
Qed.

Definition binding_members (b : CallBinding) (args : string) : list (string * string) :=
  [("operation_key", json_string b.(cb_OperationKey)); ("name_digest", json_string b.(cb_NameDigest));
   ("schema_digest", json_string b.(cb_SchemaDigest)); ("arguments", args);
   ("product_version", json_string b.(cb_ProductVersion)); ("principal", json_string b.(cb_Principal));
   ("conversation", json_string b.(cb_Conversation));
   ("definition_set", json_string b.(cb_DefinitionSet))].

Lemma canonicalBinding_template b args :
  canonicalBinding b args =
  ("{" +:+ render (member_text "" ("journey_id", json_string b.(cb_JourneyID))
                   :: (member_text "," <$> binding_members b args)) "}")%string.
Proof. unfold canonicalBinding, json_object. by rewrite json_members_cons. Qed.

Definition utf8_binding (b : CallBinding) : bool :=
  forallb valid_utf8 [b.(cb_JourneyID); b.(cb_OperationKey); b.(cb_NameDigest); b.(cb_SchemaDigest);
    b.(cb_ProductVersion); b.(cb_Principal); b.(cb_Conversation); b.(cb_DefinitionSet)].

(** Two bindings of the same call: every field agrees, and the arguments are
    the same JSON object. *)
Definition same_call `{Codec} (a b : CallBinding) : Prop :=
  canonical_object a.(cb_Arguments) = canonical_object b.(cb_Arguments) ∧
  mk_CallBinding a.(cb_JourneyID) a.(cb_OperationKey) a.(cb_NameDigest) a.(cb_SchemaDigest)
    b.(cb_Arguments) a.(cb_ProductVersion) a.(cb_Principal) a.(cb_Conversation)
    a.(cb_DefinitionSet) = b.

Lemma cons_inv {A} (x y : A) l k : x :: l = y :: k → x = y ∧ l = k.
Proof. by intros [= -> ->]. Qed.

Lemma canonicalBinding_inj a b x y : utf8_binding a = true → utf8_binding b = true →
  delimited x y → canonicalBinding a x = canonicalBinding b y →
  x = y ∧ mk_CallBinding a.(cb_JourneyID) a.(cb_OperationKey) a.(cb_NameDigest) a.(cb_SchemaDigest)
    b.(cb_Arguments) a.(cb_ProductVersion) a.(cb_Principal) a.(cb_Conversation)
    a.(cb_DefinitionSet) = b.
Proof.
  unfold utf8_binding. cbn [forallb]. intros Ha Hb Hxy. rewrite !canonicalBinding_template.
  repeat match goal with H : _ && _ = true |- _ => apply andb_true_iff in H as [? H] end.
  intros Heq%append_cancel%render_inj.
  - cbn [fmap list_fmap binding_members member_text snd] in Heq. 
    repeat apply cons_inv in Heq as [? Heq].
    split; [done|]. destruct a, b; simpl in *. f_equal; by apply json_string_delimited.
  - repeat (apply Forall2_cons; split); try apply Forall2_nil; cbn [fst snd member_text];
      try (split; [done|]); try done; by apply json_string_delimited.
Qed.

Lemma hex_inj x y : hex x = hex y → x = y.
Proof.
  assert (∀ m n, 0 <= m < 16 → 0 <= n < 16 → hex_digit m = hex_digit n → m = n) as Hd.
  { intros m n Hm Hn Hmn.
    assert (∀ k, 0 <= k < 16 → hex_value (hex_digit k) = k) as Hv.
    { intros k Hk. assert (k ∈ seqZ 0 16) as Hin by (by apply elem_of_seqZ).
      clear Hk. revert k Hin. apply Forall_forall. repeat (constructor; [reflexivity|]). constructor. }
    by rewrite <- (Hv m), <- (Hv n), Hmn. }
  revert y. induction x as [|c x IH]; intros [|d y]; simpl; [done..|].
  intros [= H1 H2 H3]. pose proof (code_range c). pose proof (code_range d).
  assert (∀ n, 0 <= n < 256 → 0 <= n / 16 < 16 ∧ 0 <= n mod 16 < 16) as Hr.
  { intros n Hn. split; [split; [by apply Z.div_pos; lia|apply Z.div_lt_upper_bound; lia]|].
    apply Z.mod_pos_bound. lia. }
  apply Hd in H1; [|by apply Hr..]. apply Hd in H2; [|by apply Hr..].
  f_equal; [|by apply IH]. apply code_inj. rewrite (Z.div_mod (code c) 16), (Z.div_mod (code d) 16) by lia.
  by rewrite H1, H2.
Qed.

(** ** The codec laws the bindings rely on *)
Class CodecOk `{Codec} : Prop := {
  (** the JSON text of an object is no proper prefix of another's *)
  canonical_object_delimited : ∀ a b x y,
    canonical_object a = Some x → canonical_object b = Some y → delimited x y;
}.

(** The text whose SHA-256 is the binding. *)
Definition binding_preimage `{Codec} (b : CallBinding) : string :=
  bindingDomain +:+ canonicalBinding b (default "" (canonical_object b.(cb_Arguments))).

Lemma BindCall_ok `{Codec} b d : BindCall b = Ok d →
  is_Some (canonical_object b.(cb_Arguments)) ∧ d = hex (sha256 (binding_preimage b)) ∧
  slen b.(cb_DefinitionSet) = 64.
Proof.
  unfold BindCall, binding_preimage, domainDigest. intros Hb. gosimpl.
  destruct (canonical_object _) as [args|]; simplify_eq/=. split_and!; [done|done|].
  by apply Z.eqb_eq.
Qed.

(** What the binding theorem assumes of the two hashes. *)
Definition no_collision `{Codec} (x y : string) : Prop := sha256 x = sha256 y → x = y.

Lemma binding_determines_call `{CodecOk} a b d :
  utf8_binding a = true → utf8_binding b = true →
  BindCall a = Ok d → BindCall b = Ok d →
  no_collision (binding_preimage a) (binding_preimage b) → same_call a b.
Proof.
  intros Ha Hb HA HB Hsha.
  apply BindCall_ok in HA as ([x Hx] & Hda & _). apply BindCall_ok in HB as ([y Hy] & Hdb & _).
  assert (binding_preimage a = binding_preimage b) as Hp.
  { apply Hsha, hex_inj. by rewrite <- Hda, <- Hdb. }
  unfold binding_preimage in Hp. rewrite Hx, Hy in Hp. apply append_cancel in Hp.
  destruct (canonicalBinding_inj a b x y) as [<- Hab]; [done..| |done|].
  - by eapply canonical_object_delimited.
  - split; [by rewrite Hx, Hy|done].
Qed.

(** An approval binding identifies its call: if two calls have the same
    binding then, unless SHA-256 collides on their two canonical texts, they
    agree on the journey, the operation, the remote name, the input schema,
    the JSON arguments, the product version, the principal, the conversation
    and the definition set. *)
Theorem BindCall_binds_every_field `{CodecOk} (a b : CallBinding) (d : string) :
  utf8_binding a = true → utf8_binding b = true →
  BindCall a = Ok d → BindCall b = Ok d →
  no_collision (binding_preimage a) (binding_preimage b) →
  same_call a b.
Proof. apply binding_determines_call. Qed.

(** A codec to evaluate on: JSON texts are kept as they are, the only JSON
    objects are [{}] and [{"a":1}], and the hash is the identity. *)
Definition toy_object : string := "{" +:+ json_string "a" +:+ ":1}".
#[export] Instance toy_codec : Codec := {|
  jsonb := λ s, if bool_decide (s = "") then None else Some s;
  json_valid := λ s, negb (bool_decide (s = ""));
  decode_reply := λ s, if String.prefix "approve:" s then Some (mk_Reply ∅ "approve" (String.substring 8 (String.length s) s))
    else if String.prefix "deny:" s then Some (mk_Reply ∅ "deny" (String.substring 5 (String.length s) s)) else None;
  unmarshal_reply := λ s, Some (mk_Reply ∅ (if String.prefix "approve:" s then "approve" else "deny") s);
  canonical_object := λ s, if bool_decide (s = "{}" ∨ s = toy_object) then Some s else None;
  canonical_value := Some;
  close_history := λ h call e, Some h;
  settings_ttl := λ s, Some 0;
  sha256 := λ s, s;
|}.
#[export] Instance toy_codec_ok : CodecOk.
Proof.
  split. intros a b x y Ha Hb. simpl in Ha, Hb. repeat case_bool_decide; simplify_eq.
  intros u v Huv. destruct H as [->| ->], H0 as [->| ->]; vm_compute in Huv |- *; by simplify_eq.
Qed.

Definition example_binding (arguments : string) : CallBinding :=
  mk_CallBinding "billing" "invoices.pay" "n" "s" arguments "1.2" "alice" "thread-1"
    "0123456789abcdef0123456789abcdef0123456789abcdef0123456789abcdef".

Lemma BindCall_binds_every_field_witness :
  is_ok (BindCall (example_binding "{}")) = true ∧
  same_call (example_binding "{}") (example_binding "{}").
Proof.
  split; [by vm_compute|].
  eapply (BindCall_binds_every_field (example_binding "{}") (example_binding "{}"));
    [by vm_compute|by vm_compute|by vm_compute|by vm_compute|intros _; reflexivity].
Defined.
