(* ===== verification/Interactions.v ===== *)
(** * Questions and replies

    The pure part of [internal/journal/interactions.go]: what makes a planned
    interaction well formed ([Interaction.Validate]) and which replies answer
    it ([Interaction.ValidateReply]). *)
From S2P Require Import Prelude GoText Db.

(** The options of a question, with the labels seen so far. *)
Fixpoint validOptions (labels : list string) (l : list QOption) : bool :=
  match l with
  | [] => true
  | o :: l =>
      negb (bool_decide (trim_space o.(o_Label) = "")) &&
      negb (bool_decide (trim_space o.(o_Description) = "")) &&
      negb (contains o.(o_Label) labels) && validOptions (o.(o_Label) :: labels) l
  end.

Definition validQuestion (seen : list string) (q : Question) : bool :=
  negb (bool_decide (q.(q_ID) = "")) && negb (contains q.(q_ID) seen) &&
  negb (bool_decide (trim_space q.(q_Question) = "")) && negb (bool_decide (q.(q_Header) = "")) &&
  (zlen (runes q.(q_Header)) <=? 12) && (2 <=? zlen q.(q_Options)) && (zlen q.(q_Options) <=? 3) &&
  validOptions [] q.(q_Options).

Fixpoint validQuestions (seen : list string) (l : list Question) : bool :=
  match l with
  | [] => true
  | q :: l => validQuestion seen q && validQuestions (q.(q_ID) :: seen) l
  end.

Definition Validate (i : Interaction) : result error unit :=
  let c := i.(i_Call) in
  _ ← ensure (negb (bool_decide (i.(i_ID) = "")) && negb (bool_decide (c.(pc_CallID) = ""))
      && negb (bool_decide (c.(pc_ProviderCallID) = "")) && negb (bool_decide (c.(pc_Name) = ""))) ErrState;
  _ ← ensure (negb (bool_decide (c.(pc_Binding) = ""))) ErrState;
  if bool_decide (i.(i_Kind) = "approval") then
    ensure (bool_decide (i.(i_Questions) = [])) ErrState
  else
    _ ← ensure (bool_decide (i.(i_Kind) = "clarification") &&
                (1 <=? zlen i.(i_Questions)) && (zlen i.(i_Questions) <=? 3)) ErrState;
    ensure (validQuestions [] i.(i_Questions)) ErrState.

(** One answer of a clarification. *)
Definition validAnswer (q : Question) (a : Answer) : bool :=
  negb (eqb (bool_decide (a.(a_Option) = "")) (bool_decide (trim_space a.(a_Custom) = ""))) &&
  (if bool_decide (a.(a_Custom) = "") then
     existsb (λ o, bool_decide (a.(a_Option) = o.(o_Label))) q.(q_Options)
   else slen a.(a_Custom) <=? 4096).

Definition ValidateReply (i : Interaction) (r : Reply) : result error unit :=
  if bool_decide (i.(i_Kind) = "approval") then
    ensure (bool_decide (size r.(r_Answers) = 0%nat) &&
            bool_decide (r.(r_Binding) = i.(i_Call).(pc_Binding)) &&
            (bool_decide (r.(r_Decision) = "approve") || bool_decide (r.(r_Decision) = "deny"))) ErrState
  else
    _ ← ensure (bool_decide (r.(r_Decision) = "") && bool_decide (r.(r_Binding) = "") &&
                bool_decide (size r.(r_Answers) = length i.(i_Questions))) ErrState;
    ensure (forallb (λ q, match r.(r_Answers) !! q.(q_ID) with
                          | Some a => validAnswer q a
                          | None => false
                          end) i.(i_Questions)) ErrState.

(** ** What they accept *)

Definition option_ok (o : QOption) : Prop :=
  trim_space o.(o_Label) ≠ "" ∧ trim_space o.(o_Description) ≠ "".

Definition question_ok (q : Question) : Prop :=
  q.(q_ID) ≠ "" ∧ trim_space q.(q_Question) ≠ "" ∧ q.(q_Header) ≠ "" ∧
  zlen (runes q.(q_Header)) <= 12 ∧ 2 <= zlen q.(q_Options) <= 3 ∧
  Forall option_ok q.(q_Options) ∧ NoDup (o_Label <$> q.(q_Options)).

Lemma validOptions_ok seen l : validOptions seen l = true ↔
  Forall option_ok l ∧ NoDup (o_Label <$> l) ∧ (∀ o, o ∈ l → o.(o_Label) ∉ seen).
Proof.
  revert seen. induction l as [|o l IH]; intros seen; simpl.
  - split; [|done]. intros _. split; [constructor|]. split; [constructor|]. intros o Ho. by apply elem_of_nil in Ho.
  - rewrite !andb_true_iff, !negb_true_iff, !bool_decide_eq_false, contains_false, IH.
    rewrite Forall_cons, NoDup_cons. unfold option_ok at 2.
    setoid_rewrite elem_of_cons. setoid_rewrite list_elem_of_fmap.
    split.
    + intros [[[Hl Hd] Hn] (Hf & Hnd & Hs)]. split_and!; [done..| |done|].
      * intros (o' & Ho' & Hin). apply (Hs o' Hin). by left.
      * intros o' [->|Hin]; [done|]. intros Hin'. apply (Hs o' Hin). by right.
    + intros ([[Hl Hd] Hf] & [Hn Hnd] & Hs). split_and!; [done|done| |done|done|].
      * apply Hs. by left.
      * intros o' Hin [Heq|Hin']; [apply Hn; by exists o'|]. by apply (Hs o' (or_intror Hin)).
Qed.

Lemma validQuestions_ok seen l : validQuestions seen l = true ↔
  Forall question_ok l ∧ NoDup (q_ID <$> l) ∧ (∀ q, q ∈ l → q.(q_ID) ∉ seen).
Proof.
  revert seen. induction l as [|q l IH]; intros seen; simpl.
  - split; [|done]. intros _. split; [constructor|]. split; [constructor|]. intros q Hq. by apply elem_of_nil in Hq.
  - unfold validQuestion. rewrite !andb_true_iff, !negb_true_iff, !bool_decide_eq_false, contains_false, IH.
    rewrite validOptions_ok, Forall_cons, NoDup_cons, !Z.leb_le. unfold question_ok at 2.
    setoid_rewrite elem_of_cons. setoid_rewrite list_elem_of_fmap.
    assert (∀ o : QOption, o.(o_Label) ∉ []) as Hnil by (intros o Ho; by apply elem_of_nil in Ho).
    split.
    + intros [[[[[[[[H1 H2] H3] H4] H5] H6] H7] (H8 & H9 & _)] (Hf & Hnd & Hs)].
      split_and!; try done.
      * intros (q' & Hq' & Hin). apply (Hs q' Hin). by left.
      * intros q' [->|Hin]; [done|]. intros Hin'. apply (Hs q' Hin). by right.
    + intros ([(H1 & H3 & H4 & H5 & [H6 H7] & H8 & H9) Hf] & [Hn Hnd] & Hs).
      split_and!; try done.
      * apply Hs. by left.
      * intros q' Hin [Heq|Hin']; [apply Hn; by exists q'|]. by apply (Hs q' (or_intror Hin)).
Qed.

Lemma Validate_iff_aux (i : Interaction) :
  Validate i = Ok tt ↔
  let c := i.(i_Call) in
  i.(i_ID) ≠ "" ∧ c.(pc_CallID) ≠ "" ∧ c.(pc_ProviderCallID) ≠ "" ∧ c.(pc_Name) ≠ "" ∧
  c.(pc_Binding) ≠ "" ∧
  (i.(i_Kind) = "approval" ∧ i.(i_Questions) = [] ∨
   i.(i_Kind) = "clarification" ∧ 1 <= zlen i.(i_Questions) <= 3 ∧
   Forall question_ok i.(i_Questions) ∧ NoDup (q_ID <$> i.(i_Questions))).
Proof.
  unfold Validate. cbv zeta. rewrite !ensure_bind, !andb_true_iff, !negb_true_iff, !bool_decide_eq_false.
  assert (∀ q : Question, q.(q_ID) ∉ []) as Hnil by (intros q Hq; by apply elem_of_nil in Hq).
  destruct (decide (i.(i_Kind) = "approval")) as [Hk|Hk].
  - rewrite bool_decide_eq_true_2 by done. rewrite ensure_ok, bool_decide_eq_true, Hk. naive_solver.
  - rewrite bool_decide_eq_false_2 by done. rewrite ensure_bind, ensure_ok, !andb_true_iff, bool_decide_eq_true, !Z.leb_le, validQuestions_ok. naive_solver.
Qed.

Definition answer_ok (q : Question) (a : Answer) : Prop :=
  a.(a_Option) = "" ∧ trim_space a.(a_Custom) ≠ "" ∧ slen a.(a_Custom) <= 4096 ∨
  a.(a_Option) ≠ "" ∧ a.(a_Custom) = "" ∧ a.(a_Option) ∈ o_Label <$> q.(q_Options) ∨
  a.(a_Option) ≠ "" ∧ a.(a_Custom) ≠ "" ∧ trim_space a.(a_Custom) = "" ∧ slen a.(a_Custom) <= 4096.

Lemma validAnswer_ok q a : validAnswer q a = true ↔ answer_ok q a.
Proof.
  unfold validAnswer, answer_ok. rewrite andb_true_iff, negb_true_iff, eqb_false_iff.
  destruct (decide (a.(a_Custom) = "")) as [->|Hc].
  - rewrite (bool_decide_eq_true_2 (trim_space "" = "")) by done.
    rewrite (bool_decide_eq_true_2 ("" = "")) by done. rewrite existsb_exists, list_elem_of_fmap.
    setoid_rewrite bool_decide_eq_true. setoid_rewrite <- list_elem_of_In.
    assert (trim_space "" = "") by done. naive_solver.
  - rewrite (bool_decide_eq_false_2 (a_Custom a = "")) by done. rewrite Z.leb_le.
    repeat case_bool_decide; naive_solver.
Qed.

Lemma all_answered i r : forallb (λ q, match r.(r_Answers) !! q.(q_ID) with
    | Some a => validAnswer q a | None => false end) i.(i_Questions) = true ↔
  ∀ q, q ∈ i.(i_Questions) → ∃ a, r.(r_Answers) !! q.(q_ID) = Some a ∧ answer_ok q a.
Proof.
  rewrite forallb_forall. setoid_rewrite <- list_elem_of_In.
  split; intros Hf q Hq; specialize (Hf q Hq).
  - destruct (r_Answers r !! q_ID q) as [a|]; [|done]. exists a. by rewrite <- validAnswer_ok.
  - destruct Hf as (a & -> & Ha). by rewrite validAnswer_ok.
Qed.

(** A planned interaction is accepted exactly when it is fully identified
    and is either an approval without questions or a clarification of one to
    three distinct, well-formed questions with two or three distinct options
    each. *)
Theorem Validate_iff (i : Interaction) :
  Validate i = Ok tt ↔
  let c := i.(i_Call) in
  i.(i_ID) ≠ "" ∧ c.(pc_CallID) ≠ "" ∧ c.(pc_ProviderCallID) ≠ "" ∧ c.(pc_Name) ≠ "" ∧
  c.(pc_Binding) ≠ "" ∧
  (i.(i_Kind) = "approval" ∧ i.(i_Questions) = [] ∨
   i.(i_Kind) = "clarification" ∧ 1 <= zlen i.(i_Questions) <= 3 ∧
   Forall question_ok i.(i_Questions) ∧ NoDup (q_ID <$> i.(i_Questions))).
Proof. apply Validate_iff_aux. Qed.

(** A reply to a well-formed clarification is accepted exactly when it
    answers each question once and nothing else, and each answer is an offered
    option, a non-blank text of at most 4096 bytes, or (the case of a blank
    custom text) any option at all. *)
Theorem ValidateReply_clarification (i : Interaction) (r : Reply) :
  Validate i = Ok tt → i.(i_Kind) = "clarification" →
  ValidateReply i r = Ok tt ↔
  r.(r_Decision) = "" ∧ r.(r_Binding) = "" ∧
  dom r.(r_Answers) = list_to_set (q_ID <$> i.(i_Questions)) ∧
  ∀ q, q ∈ i.(i_Questions) → ∃ a, r.(r_Answers) !! q.(q_ID) = Some a ∧ answer_ok q a.
Proof.
  intros HV Hk. apply Validate_iff_aux in HV. cbv zeta in HV.
  destruct HV as (_ & _ & _ & _ & _ & [[? _]|(_ & _ & _ & Hnd)]); [congruence|].
  unfold ValidateReply. rewrite Hk, bool_decide_eq_false_2 by done.
  rewrite ensure_bind, ensure_ok, !andb_true_iff, !bool_decide_eq_true, all_answered.
  assert ((∀ q, q ∈ i.(i_Questions) → ∃ a, r.(r_Answers) !! q.(q_ID) = Some a ∧ answer_ok q a) →
    size r.(r_Answers) = length i.(i_Questions) ↔
    dom r.(r_Answers) = list_to_set (q_ID <$> i.(i_Questions))) as Hsize; [|naive_solver].
  intros Hall. rewrite <- size_dom.
  assert (list_to_set (C:=gset string) (q_ID <$> i.(i_Questions)) ⊆ dom r.(r_Answers)) as Hsub.
  { intros id. rewrite elem_of_list_to_set, list_elem_of_fmap, elem_of_dom.
    intros (q & -> & Hq). destruct (Hall q Hq) as (a & Ha & _). by exists a. }
  assert (size (list_to_set (C:=gset string) (q_ID <$> i.(i_Questions))) = length i.(i_Questions)) as Hl.
  { by rewrite size_list_to_set, length_fmap. }
  split; intros Hs.
  - symmetry. apply set_subseteq_size_eq; [done|lia].
  - by rewrite Hs.
Qed.

(** The last case above is a hole in the check: an option that was not
    offered is accepted when it comes with a custom text of blanks. *)
Theorem ValidateReply_blank_custom_hides_option :
  let q := mk_Question "q1" "Size" "Which size?" [mk_Option "S" "small"; mk_Option "L" "large"] in
  let i := mk_Interaction "i1" "clarification" [q] (mk_Call "c" "p" "ask" "{}" "b") 0 "" "" "" "" in
  let reply custom := mk_Reply {[ "q1" := mk_Answer "XXL" custom ]} "" "" in
  Validate i = Ok tt ∧ ValidateReply i (reply "") = Err ErrState ∧ ValidateReply i (reply " ") = Ok tt.
Proof. split_and!; vm_compute; reflexivity. Qed.

Definition example_question : Question :=
  mk_Question "q1" "Size" "Which size?" [mk_Option "S" "small"; mk_Option "L" "large"].
Definition example_clarification : Interaction :=
  mk_Interaction "i1" "clarification" [example_question] (mk_Call "c" "p" "ask" "{}" "b") 0 "" "" "" "".

Lemma ValidateReply_clarification_witness :
  ∃ a, r_Answers (mk_Reply {[ "q1" := mk_Answer "S" "" ]} "" "") !! "q1" = Some a ∧
       answer_ok example_question a.
Proof.
  destruct (proj1 (ValidateReply_clarification example_clarification
    (mk_Reply {[ "q1" := mk_Answer "S" "" ]} "" "")
    ltac:(vm_compute; reflexivity) eq_refl) ltac:(vm_compute; reflexivity)) as (_ & _ & _ & H).
  exact (H example_question (list_elem_of_here _ _)).
Defined.
