(* ===== verification/JournalCore.v ===== *)
(** * Shared steps of the journal's transactions

    The helpers several transactions of [internal/journal] end in: unresolved
    operations become unknown ([operations.go]), pending commands get a
    disposition ([inbox.go]), expired waits fail ([interactions.go]), expired
    owners are interrupted and live owners checked ([owners.go]). *)
From S2P Require Import Prelude GoText Db.

(** [for _, x := range l { if err := f(x); err != nil { return err } }] *)
Fixpoint for_each {A} (f : A → tx unit) (l : list A) : tx unit :=
  match l with
  | [] => mret tt
  | x :: l => _ ← f x; for_each f l
  end.

Definition operation_of (thread run : string) (o : operation_row) : bool :=
  bool_decide (o.(op_thread) = thread) && bool_decide (o.(op_run) = run).

Definition markOperationsUnknown (thread run : string) : tx unit :=
  _ ← modify (λ s, upd_attempts (update_rows (λ k o, bool_decide (o = ODispatching) &&
        match s.(operations) !! k.1 with Some op => operation_of thread run op | None => false end)
        (λ _, OUnknown)) s);
  rows ← get (λ s, matching (λ _ o, operation_of thread run o && bool_decide (o.(op_outcome) = ODispatching))
                     s.(operations));
  _ ← modify (upd_operations (update_rows (λ _ o, operation_of thread run o && bool_decide (o.(op_outcome) = ODispatching))
                (upd_op_outcome (λ _, OUnknown))));
  for_each (λ p, appendEvent thread (call_event "tool.outcome_unknown" run p.1 p.2.(op_alias))) rows.

Definition disposePending (thread run : string) (reason : RunState) : tx unit :=
  rows ← update_commands (λ c, command_of thread run c && pending_command c)
           (upd_cm_terminal (λ _, state_name reason));
  let kind := if bool_decide (reason = RunInterrupted) then "command.interrupted" else "command.rejected" in
  for_each (λ c, appendEvent thread (command_event kind run c.(cm_comm) (state_name reason))) rows.

Section core.
Context `{Codec} (now : Z).

Definition expired_wait (thread : string) (i : interaction_row) : bool :=
  bool_decide (i.(in_thread) = thread) && bool_decide (i.(in_state) = IPending) && (i.(in_expires) <=? now).

Definition expire_row (i : interaction_row) : interaction_row :=
  upd_in_state (λ _, IExpired)
    (upd_in_marker (λ _, if bool_decide (i.(in_kind) = "approval") then Some MDenied else None) i).

(** The body of [expireInteractions]'s loop: one run whose wait expired. *)
Definition expireRun (thread run : string) : tx unit :=
  row ← get (λ s, find_row (λ _ i, bool_decide (i.(in_thread) = thread) && bool_decide (i.(in_run) = run)
                                  && bool_decide (i.(in_state) = IExpired)) s.(interactions));
  i ← the DbNoRows row;
  closed ← the ErrState (close_history i.2.(in_history) i.2.(in_artifact).(i_Call).(pc_ProviderCallID)
                           "interaction_expired");
  _ ← update_history thread closed;
  _ ← update_run thread run (λ r, bool_decide (r.(rn_state) = RunAwaitingInput)) (upd_rn_state (λ _, RunFailed));
  _ ← appendEvent thread (event "interaction.expired" run);
  appendEvent thread (command_event "run.failed" run "" ReasonInteractionExpired).

Definition expireInteractions (thread : string) : tx unit :=
  rows ← get (λ s, matching (λ _ i, expired_wait thread i) s.(interactions));
  _ ← modify (upd_interactions (update_rows (λ _ i, expired_wait thread i) expire_row));
  for_each (expireRun thread) ((λ p, p.2.(in_run)) <$> rows).

(** A consumed interaction continues in this run. *)
Definition continues (thread run : string) (i : interaction_row) : bool :=
  bool_decide (i.(in_thread) = thread) && bool_decide (i.(in_continuation) = Some run)
  && bool_decide (i.(in_state) = IConsumed).

Definition interruptExpired (thread candidate : string) : tx unit :=
  row ← get (λ s, find_row (λ id r, bool_decide (r.(rn_thread) = thread) && is_live r.(rn_state)
                             && (bool_decide (candidate = "") || bool_decide (id = candidate))) s.(runs));
  match row with
  | None => mret tt
  | Some (run, r) =>
      continuation ← get (λ s, exists_row (λ _ i, continues thread run i) s.(interactions));
      if negb (r.(rn_lease) <=? now) ||
         (bool_decide (r.(rn_state) = RunPending) && (r.(rn_epoch) =? 0) && continuation)
      then mret tt
      else
        n ← update_run thread run (λ r, is_live r.(rn_state)) (upd_rn_state (λ _, RunInterrupted));
        if negb (n =? 1) then mret tt
        else
          _ ← markOperationsUnknown thread run;
          _ ← disposePending thread run RunInterrupted;
          appendEvent thread (event "run.interrupted" run)
  end.

(** ** Ownership ([owners.go]) *)

Record Owner := mk_Owner { ow_Command : Command; ow_ID : string; ow_Epoch : Z }.

Definition lockOwner (o : Owner) : tx unit :=
  let c := o.(ow_Command) in
  _ ← lockConversation c.(c_ThreadID) c.(c_Principal);
  row ← get (run_of c.(c_ThreadID) c.(c_RunID));
  r ← the ErrOwnership row;
  guard_tx (bool_decide (r.(rn_state) = RunRunning) && bool_decide (r.(rn_owner) = o.(ow_ID))
            && (r.(rn_epoch) =? o.(ow_Epoch)) && (now <? r.(rn_lease))) ErrOwnership.
End core.
