(* ===== verification/Commands.v ===== *)
(** * Admission and the inbox

    [internal/journal/commands.go], the reply half of [interactions.go] and
    [inbox.go]: a command is admitted once, to the live run's inbox or as a
    new pending run; a reply consumes a waiting interaction; the owner reads
    its inbox and marks what a provider request included.

    An operation that commits and then reports an error ([reply] on an
    expired wait) returns that error inside its result: [Ok (Err e, s)] is
    committed, [Err e] is rolled back. *)
From S2P Require Import Prelude GoText Db CallBinding Interactions JournalCore.
From Stdlib Require Import Ascii.

Definition second : Z := 1000000.
(** [Duration.Milliseconds()], of a duration in nanoseconds, as an interval of
    the database clock. *)
Definition milliseconds (duration : Z) : Z := (duration `quot` 1000000) * 1000.

(** [pgx.BeginFunc] of a transaction that inserts commands: the deferred
    foreign key to the execution run is tested at commit. *)
Definition BeginFunc {A} (m : tx A) : tx A :=
  a ← m; ok ← get check_commands; _ ← guard_tx ok DbForeignKey; mret a.

(** SQLSTATE 23505 *)
Definition unique_is_conflict {A} (m : tx A) : tx A := λ s,
  match m s with Err DbUnique => Err ErrConflict | r => r end.

(** ** Text on its way to the database

    A text parameter must be valid UTF-8 without a NUL byte (SQLSTATE 22021). The
    payload is [json.Marshal] of the command: its strings are made valid UTF-8,
    and [jsonb] refuses an escaped NUL (22P05). *)
Definition no_nul (s : string) : bool := all_bytes (λ c, negb (bool_decide (c = "000"%char))) s.
Definition sql_text (s : string) : bool := valid_utf8 s && no_nul s.
Definition sql_texts (l : list string) : bool := forallb sql_text l.

(** What is read back of a stored payload. *)
Definition through_json_command (c : Command) : Command :=
  mk_Command (through_json c.(c_ThreadID)) (through_json c.(c_RunID)) (through_json c.(c_CommunicationID))
    (through_json c.(c_Principal)) (through_json c.(c_Tenant)) (through_json c.(c_Text)) (through_json c.(c_TargetJourney))
    (through_json c.(c_InteractionID)) (through_json c.(c_ReplyKind)) (through_json c.(c_ReplyJSON)).
Definition command_strings (c : Command) : list string :=
  [c.(c_ThreadID); c.(c_RunID); c.(c_CommunicationID); c.(c_Principal); c.(c_Tenant); c.(c_Text); c.(c_TargetJourney);
   c.(c_InteractionID); c.(c_ReplyKind); c.(c_ReplyJSON)].
(** The payload [jsonb] takes. *)
Definition jsonb_command (c : Command) : bool := forallb no_nul (command_strings c).

Lemma through_json_command_valid c : forallb valid_utf8 (command_strings c) = true → through_json_command c = c.
Proof.
  unfold command_strings, through_json_command. cbn [forallb]. rewrite !andb_true_iff. intros H. decompose [and] H.
  rewrite !through_json_valid by done. by destruct c.
Qed.

Definition new_conv (principal : string) : conv_row :=
  mk_conv principal 0 0 "[]" None [] None None None.
(** [INSERT INTO agent_conversations(id,principal) ... ON CONFLICT DO NOTHING] *)
Definition insert_conv (thread principal : string) : tx unit :=
  modify (upd_convs (λ m, match m !! thread with Some _ => m | None => <[thread := new_conv principal]> m end)).

Definition find_command (thread comm : string) (s : db) : option command_row :=
  head (filter (λ c, c.(cm_thread) = thread ∧ c.(cm_comm) = comm) s.(commands)).

(** [FROM agent_runs r JOIN agent_commands c ON c.run_id=r.id WHERE
    r.thread_id=$1 AND r.state IN ('pending','running')] *)
Definition live_join (thread : string) (s : db) : option (string * run_row * command_row) :=
  head (p ← matching (λ _ r, bool_decide (r.(rn_thread) = thread) && is_live r.(rn_state)) s.(runs);
        c ← filter (λ c, c.(cm_run) = p.1) s.(commands);
        [(p, c)]).

Definition waiting (thread : string) (s : db) : bool :=
  exists_row (λ _ i, bool_decide (i.(in_thread) = thread) && bool_decide (i.(in_state) = IPending))
    s.(interactions).

Definition receipt (c : Command) (execution : string) : Receipt :=
  mk_Receipt c.(c_ThreadID) c.(c_RunID) c.(c_CommunicationID) execution RunPending "".

Section commands.
Context `{Codec} (now : Z).

(** A run row as [INSERT INTO agent_runs(id,thread_id,state[,journey_id,
    definition_digest])] leaves it. *)
Definition new_run (thread : string) (journey definition : option string) : run_row :=
  mk_run thread RunPending journey definition "" "" 0 (now + 15 * second) None None None None None.

(** The part of [Admit] that maps fresh input to the live owner or to a new
    pending run. *)
Definition admitNew (c : Command) : tx (result error (Receipt * bool)) :=
  let thread := c.(c_ThreadID) in
  _ ← interruptExpired now thread "";
  _ ← expireInteractions now thread;
  busy ← get (waiting thread);
  _ ← guard_tx (negb busy) ErrBusy;
  live ← get (live_join thread);
  let execution := match live with Some (id, _, _) => id | None => c.(c_RunID) end in
  let fresh := match live with Some _ => false | None => true end in
  _ ← guard_tx (match live with
                | Some (_, r, first) =>
                    bool_decide (c.(c_TargetJourney) = "") ||
                    bool_decide (c.(c_TargetJourney) = default "" r.(rn_journey)) ||
                    bool_decide (c.(c_TargetJourney) = first.(cm_payload).(c_TargetJourney))
                | None => true
                end) ErrBusy;
  _ ← guard_tx (sql_texts [c.(c_RunID)]) DbText;
  _ ← guard_tx (jsonb_command c) DbText;
  _ ← insert_command thread c.(c_CommunicationID) c.(c_RunID) (through_json_command c) execution;
  _ ← (if fresh then insert_run c.(c_RunID) (new_run thread None None) else mret tt);
  _ ← appendEvent thread (command_event "command.accepted" execution c.(c_CommunicationID) "");
  mret (Ok (receipt c execution, fresh)).

(** A communication ID that was accepted before: the same command gets the
    same receipt, another one is a conflict. *)
Definition replay (c : Command) (previous : command_row) : tx (result error (Receipt * bool)) :=
  _ ← guard_tx (bool_decide (previous.(cm_payload) = c)) ErrConflict;
  mret (Ok (receipt c previous.(cm_exec), false)).

Definition nonempty (s : string) : bool := negb (bool_decide (s = "")).

(** The interaction row once the reply [text] is stored with it. *)
Definition consumed (c : Command) (answer : Reply) (text : string) (i : interaction_row) : interaction_row :=
  upd_in_state (λ _, IConsumed) (upd_in_continuation (λ _, Some c.(c_RunID))
    (upd_in_reply (λ _, Some text)
      (upd_in_marker (λ _, if bool_decide (i.(in_artifact).(i_Kind) = "approval")
                           then Some (if bool_decide (answer.(r_Decision) = "approve") then MDecided else MDenied)
                           else None) i))).

(** The reply is valid: consume the wait and start its continuation run. *)
Definition consumeReply (c : Command) (answer : Reply) (i : interaction_row)
    : tx (result error (Receipt * bool)) :=
  let thread := c.(c_ThreadID) in let run := c.(c_RunID) in let comm := c.(c_CommunicationID) in
  _ ← guard_tx (sql_texts [run]) DbText;
  _ ← guard_tx (jsonb_command c) DbText;
  _ ← insert_command thread comm run (through_json_command c) run;
  _ ← insert_run run (new_run thread i.(in_journey) (Some i.(in_definition)));
  text ← as_jsonb c.(c_ReplyJSON);
  _ ← update_interaction thread c.(c_InteractionID) (consumed c answer text);
  _ ← update_run thread i.(in_run) (λ r, bool_decide (r.(rn_state) = RunAwaitingInput))
        (upd_rn_state (λ _, RunCompleted));
  _ ← appendEvent thread (event "interaction.consumed" i.(in_run));
  _ ← appendEvent thread (command_event "command.accepted" run comm "");
  _ ← (if bool_decide (i.(in_artifact).(i_Kind) = "approval") && bool_decide (answer.(r_Decision) = "approve")
       then
         _ ← update_commands (λ c', bool_decide (c'.(cm_thread) = thread) && bool_decide (c'.(cm_comm) = comm))
               (upd_cm_terminal (λ _, "consumed"));
         appendEvent thread (command_event "command.consumed" run comm "")
       else mret tt);
  mret (Ok (receipt c run, true)).

(** A reply to an interaction that was never answered with this ID before. *)
Definition replyNew (c : Command) (answer : Reply) : tx (result error (Receipt * bool)) :=
  let thread := c.(c_ThreadID) in
  _ ← guard_tx (sql_texts [c.(c_InteractionID)]) DbText;
  row ← get (interaction_of thread c.(c_InteractionID));
  i ← the ErrState row;
  let valid := now <? i.(in_expires) in
  if negb valid && bool_decide (i.(in_state) = IPending) then
    _ ← expireInteractions now thread; mret (Err ErrExpired)
  else
    _ ← guard_tx (negb (bool_decide (i.(in_state) = IExpired))) ErrExpired;
    _ ← guard_tx (valid && bool_decide (i.(in_state) = IPending)) ErrConflict;
    let journey := default "" i.(in_journey) in
    _ ← guard_tx (bool_decide (i.(in_artifact).(i_Kind) = c.(c_ReplyKind)) &&
                  (bool_decide (c.(c_TargetJourney) = "") || bool_decide (journey = "") ||
                   bool_decide (c.(c_TargetJourney) = journey))) ErrState;
    _ ← guard_tx (is_ok (ValidateReply i.(in_artifact) answer)) ErrState;
    consumeReply c answer i.

Definition reply (c : Command) : tx (result error (Receipt * bool)) :=
  _ ← guard_tx (nonempty c.(c_ThreadID) && nonempty c.(c_RunID) && nonempty c.(c_Principal)
                && nonempty c.(c_CommunicationID) && bool_decide (c.(c_Text) = "")) ErrState;
  answer ← the ErrState (decode_reply c.(c_ReplyJSON));
  BeginFunc (
    _ ← guard_tx (sql_texts [c.(c_ThreadID)]) DbText;
    _ ← lockConversation c.(c_ThreadID) c.(c_Principal);
    _ ← guard_tx (sql_texts [c.(c_CommunicationID)]) DbText;
    previous ← get (find_command c.(c_ThreadID) c.(c_CommunicationID));
    match previous with Some p => replay c p | None => replyNew c answer end).

Definition Admit (c : Command) : tx (result error (Receipt * bool)) :=
  if nonempty c.(c_InteractionID) then reply c
  else
    _ ← guard_tx (nonempty c.(c_ThreadID) && nonempty c.(c_RunID) && nonempty c.(c_CommunicationID)
                  && nonempty c.(c_Principal) && nonempty c.(c_Text)) ErrState;
    unique_is_conflict (BeginFunc (
      _ ← guard_tx (sql_texts [c.(c_ThreadID); c.(c_Principal)]) DbText;
      _ ← insert_conv c.(c_ThreadID) c.(c_Principal);
      _ ← lockConversation c.(c_ThreadID) c.(c_Principal);
      _ ← guard_tx (sql_texts [c.(c_CommunicationID)]) DbText;
      previous ← get (find_command c.(c_ThreadID) c.(c_CommunicationID));
      match previous with Some p => replay c p | None => admitNew c end)).

(** ** The inbox *)

Record Input := mk_Input {
  ip_CommunicationID : string; ip_Text : string; ip_Digest : string; ip_Payload : string;
  ip_Materialized : bool;
}.

(** [json.Marshal] of a reply: empty members are omitted, answers are sorted by
    question. *)
Definition marshal_field (k v : string) : list (string * string) :=
  if bool_decide (v = "") then [] else [(k, json_string v)].
Definition marshal_answer (a : Answer) : string :=
  json_object (marshal_field "option" a.(a_Option) ++ marshal_field "custom" a.(a_Custom)).
Definition marshal_reply (r : Reply) : string :=
  json_object (
    (if bool_decide (r.(r_Answers) = ∅) then []
     else [("answers", json_object ((λ k, (k, marshal_answer (default (mk_Answer "" "") (r.(r_Answers) !! k))))
                                    <$> sort_strings (elements (dom r.(r_Answers)))))])
    ++ marshal_field "decision" r.(r_Decision) ++ marshal_field "binding" r.(r_Binding)).

(** What the provider request carries for one pending command. *)
Definition materialize (c : Command) : result error (option string) :=
  if nonempty c.(c_Text) then Ok (Some (json_string c.(c_Text)))
  else if bool_decide (c.(c_ReplyKind) = "clarification") then
    match decode_reply c.(c_ReplyJSON) with
    | Some r => Ok (Some (marshal_reply r))
    | None => Err ErrState
    end
  else if bool_decide (c.(c_ReplyKind) = "approval") then
    match decode_reply c.(c_ReplyJSON) with
    | Some r => Ok (if bool_decide (r.(r_Decision) = "deny")
                    then Some (json_object [("error", json_string "approval_denied")]) else None)
    | None => Err ErrState
    end
  else Ok None.

Definition input_of (c : command_row) : result error Input :=
  payload ← materialize c.(cm_payload);
  mret match payload with
       | Some p => mk_Input c.(cm_comm) c.(cm_payload).(c_Text) (hex (sha256 p)) p true
       | None => mk_Input c.(cm_comm) c.(cm_payload).(c_Text) "" "" false
       end.

Fixpoint inputs_of (l : list command_row) : result error (list Input) :=
  match l with
  | [] => Ok []
  | c :: l => i ← input_of c; rest ← inputs_of l; Ok (i :: rest)
  end.

Definition Pending (o : Owner) : tx (list Input) :=
  _ ← lockOwner now o;
  rows ← get (λ s, filter (λ c, command_of o.(ow_Command).(c_ThreadID) o.(ow_Command).(c_RunID) c
                               && pending_command c = true) s.(commands));
  match inputs_of rows with Ok l => mret l | Err e => fail e end.

Definition includeOne (thread run : string) (comm : string) : tx unit :=
  rows ← update_commands (λ c, command_of thread run c && bool_decide (c.(cm_comm) = comm) && pending_command c)
           (upd_cm_included (λ _, true));
  _ ← guard_tx (bool_decide (length rows = 1%nat)) ErrState;
  appendEvent thread (command_event "command.included" run comm "").

Definition Included (o : Owner) (inputs : list Input) : tx unit :=
  _ ← lockOwner now o;
  for_each (includeOne o.(ow_Command).(c_ThreadID) o.(ow_Command).(c_RunID)) (ip_CommunicationID <$> inputs).
End commands.
