(* ===== verification/Owners.v ===== *)
(** * Run ownership

    [internal/journal/owners.go]: a pending run is claimed by the ingress that
    admitted it, under a lease and a fencing epoch; [Reap] records that
    expired owners were interrupted. *)
From S2P Require Import Prelude GoText Db JournalCore Commands.

Section owners.
Context `{Codec} (now : Z).

(** [lockConversation], with a foreign conversation reported as lost ownership. *)
Definition lockForClaim (thread principal : string) : tx unit := λ s,
  match lockConversation thread principal s with Err ErrForbidden => Err ErrOwnership | r => r end.

Definition claimable (c : Command) (r : run_row) (s : db) : bool :=
  let valid := now <? r.(rn_lease) in
  let recoverable :=
    bool_decide (r.(rn_state) = RunPending) && (r.(rn_epoch) =? 0) && negb valid && nonempty c.(c_InteractionID)
    && match interaction_of c.(c_ThreadID) c.(c_InteractionID) s with
       | Some i => continues c.(c_ThreadID) c.(c_RunID) i
       | None => false
       end in
  bool_decide (r.(rn_state) = RunPending) && (valid || recoverable).

Definition claimed (id : string) (epoch duration : Z) (r : run_row) : run_row :=
  upd_rn_state (λ _, RunRunning) (upd_rn_owner (λ _, id) (upd_rn_epoch (λ _, epoch)
    (upd_rn_lease (λ _, now + milliseconds duration) r))).

Definition Claim (c : Command) (id : string) (duration : Z) : tx Owner :=
  _ ← guard_tx (nonempty id && (0 <? duration)) ErrOwnership;
  let thread := c.(c_ThreadID) in let run := c.(c_RunID) in
  _ ← lockForClaim thread c.(c_Principal);
  row ← get (λ s, head (filter (λ k, k.(cm_thread) = thread ∧ k.(cm_run) = run ∧ k.(cm_exec) = run) s.(commands)));
  accepted ← the ErrOwnership row;
  _ ← guard_tx (bool_decide (accepted.(cm_payload) = c)) ErrOwnership;
  row ← get (run_of thread run);
  r ← the ErrOwnership row;
  ok ← get (claimable c r);
  _ ← guard_tx ok ErrOwnership;
  _ ← update_conv thread (upd_cv_owner_epoch (λ n, n + 1));
  conv ← get (λ s, s.(convs) !! thread);
  conv ← the DbNoRows conv;
  _ ← update_run thread run (λ _, true) (claimed id conv.(cv_owner_epoch) duration);
  _ ← appendEvent thread (event "run.started" run);
  mret (mk_Owner c id conv.(cv_owner_epoch)).

Definition Check (o : Owner) : tx unit := lockOwner now o.

Definition Renew (o : Owner) (duration : Z) : tx unit :=
  _ ← guard_tx (0 <? duration) ErrOwnership;
  _ ← lockOwner now o;
  _ ← update_run o.(ow_Command).(c_ThreadID) o.(ow_Command).(c_RunID) (λ _, true)
        (upd_rn_lease (λ _, now + milliseconds duration));
  mret tt.

(** The work list of [Reap]: expired live runs and the runs of expired waits. *)
Definition reapable (s : db) : list (string * string) :=
  remove_dups (
    ((λ p, (p.2.(rn_thread), p.1)) <$>
       matching (λ _ r, is_live r.(rn_state) && (r.(rn_lease) <=? now)) s.(runs)) ++
    ((λ p, (p.2.(in_thread), p.2.(in_run))) <$>
       matching (λ _ i, bool_decide (i.(in_state) = IPending) && (i.(in_expires) <=? now)) s.(interactions))).

(** One transaction of [Reap]. *)
Definition reapOne (p : string * string) : tx unit :=
  conv ← get (λ s, s.(convs) !! p.1);
  _ ← the DbNoRows conv;
  _ ← interruptExpired now p.1 p.2;
  expireInteractions now p.1.

(** [Reap]: a transaction per expired run; an error stops the sweep after the
    transactions already committed. *)
Fixpoint reapAll (l : list (string * string)) (s : db) : option error * db :=
  match l with
  | [] => (None, s)
  | p :: l => match reapOne p s with Ok (_, s') => reapAll l s' | Err e => (Some e, s) end
  end.
Definition Reap (s : db) : option error * db := reapAll (reapable s) s.
End owners.
