(* ===== verification/Runs.v ===== *)
(** * Running and finishing

    [internal/journal/sessions.go], the waiting half of [interactions.go],
    [history.go] and the finishing half of [usage.go]: a claimed run pins its
    definition ([Start]), may stop at an interaction ([Wait]), is continued
    ([Continuation], [Supersede]), and ends in one terminal transaction
    ([finish]).  Then [observe.go]: the conversation's snapshot, with its
    watermark, and the events after a watermark. *)
From S2P Require Import Prelude GoText Db CallBinding Interactions JournalCore Commands.
From Stdlib Require Import Ascii.

(** [settings.DefaultInteractionTTL], in nanoseconds. *)
Definition DefaultInteractionTTL : Z := 5 * 60 * 1000000000.

Definition unresolved (o : Outcome) : bool :=
  match o with ODispatching | OUnknown => true | _ => false end.
Definition has_unresolved (thread : string) (s : db) : bool :=
  exists_row (λ _ o, bool_decide (o.(op_thread) = thread) && unresolved o.(op_outcome)) s.(operations).

(** [COALESCE(NULLIF(v,''), old)] *)
Definition or_else (v : string) (old : option string) : option string :=
  if bool_decide (v = "") then old else Some v.

Section runs.
Context `{Codec} (now : Z).

(** [Start]'s pin: an unpinned conversation pins to the current set, which is
    bootstrapped when absent; a pinned one must agree. *)
Definition pinConversation (thread digest : string) : tx unit :=
  row ← get (λ s, s.(convs) !! thread);
  c ← the DbNoRows row;
  match c.(cv_definition) with
  | Some pin => guard_tx (bool_decide (pin = digest)) ErrDefinition
  | None =>
      cur ← get current;
      current ← match cur with
                | Some d => mret d
                | None => _ ← modify (upd_current (λ _, Some digest)); mret digest
                end;
      _ ← guard_tx (bool_decide (current = digest)) ErrDefinition;
      update_conv thread (upd_cv_definition (λ _, Some digest))
  end.

Definition Start (o : Owner) (journey digest : string) : tx string :=
  let c := o.(ow_Command) in let thread := c.(c_ThreadID) in
  _ ← guard_tx (slen digest =? 64) ErrDefinition;
  _ ← lockOwner now o;
  unknown ← get (has_unresolved thread);
  _ ← guard_tx (negb unknown) ErrOutcomeUnknown;
  _ ← pinConversation thread digest;
  row ← get (λ s, s.(convs) !! thread);
  conv ← the DbNoRows row;
  n ← update_run thread c.(c_RunID)
        (λ r, bool_decide (journey = "") || bool_decide (r.(rn_journey) = None)
              || bool_decide (r.(rn_journey) = Some journey))
        (λ r, upd_rn_journey (or_else journey) (upd_rn_definition (λ _, Some digest) r));
  _ ← guard_tx (n =? 1) ErrDefinition;
  mret conv.(cv_history).

(** ** Finishing *)

(** The terminal event: [run.<state>], or [auth_required]. *)
Definition terminal_kind (state : RunState) : string :=
  if bool_decide (state = RunAuthRequired) then "auth_required"
  else ("run." +:+ state_name state)%string.

Definition with_run (run : string) (e : Event) : Event :=
  mk_Event e.(e_Sequence) e.(e_Type) run e.(e_CallID) e.(e_ToolName) e.(e_Answer)
    e.(e_CommunicationID) e.(e_Reason) e.(e_Detail).

Definition finish (o : Owner) (state : RunState) (history answer callID tool : string)
    (terminal : option Event) : tx unit :=
  let c := o.(ow_Command) in let thread := c.(c_ThreadID) in let run := c.(c_RunID) in
  _ ← lockOwner now o;
  row ← get (run_of thread run);
  r ← the DbNoRows row;
  let pinned := bool_decide (r.(rn_definition) ≠ None) in
  _ ← (if bool_decide (state = RunCompleted) then
         pending ← get (has_pending thread run); guard_tx (negb pending) ErrPending
       else
         _ ← markOperationsUnknown thread run;
         disposePending thread run state);
  _ ← (if nonempty history && pinned then update_history thread history else mret tt);
  _ ← (if bool_decide (state = RunCompleted) then
         _ ← (if nonempty callID then appendEvent thread (call_event "tool.completed" run callID tool) else mret tt);
         appendEvent thread (mk_Event 0 "message.completed" run "" "" answer "" "" None)
       else mret tt);
  _ ← update_run thread run (λ _, true) (λ r, upd_rn_state (λ _, state) (upd_rn_answer (λ _, answer) r));
  appendEvent thread (match terminal with
                      | Some e => with_run run e
                      | None => event (terminal_kind state) run
                      end).

Definition Finish (o : Owner) (state : RunState) (history answer callID tool : string) : tx unit :=
  _ ← guard_tx (match state with
                | RunCompleted | RunFailed | RunAuthRequired | RunDependencyUnavailable => true
                | _ => false
                end) ErrState;
  finish o state history answer callID tool None.

Definition FinishFailed (o : Owner) (history reason : string) : tx unit :=
  _ ← guard_tx (contains reason [ReasonJourneyUnavailable; ReasonPolicyConflict; ReasonActivationRefused]) ErrState;
  finish o RunFailed history "" "" "" (Some (command_event "run.failed" "" "" reason)).

(** [int64(math.Ceil(retryAfter.Seconds()))] for a positive duration; the
    floating-point sum is exact enough up to 2^22 seconds, beyond any backoff. *)
Definition ceil_seconds (duration : Z) : Z := (duration + 999999999) / 1000000000.

Definition FinishLimitExceeded (o : Owner) (history kind : string) (retryAfter : Z) : tx unit :=
  _ ← guard_tx (contains kind ["budget"; "rate"]) ErrState;
  let seconds := if 0 <? retryAfter then ceil_seconds retryAfter else 0 in
  finish o RunLimitExceeded history "" "" ""
    (Some (detail_event "run.limit_exceeded" "" kind (DLimit kind seconds))).

(** ** Waiting *)

Definition recordedInteractionTTL (recorded : option string) : result error Z :=
  match recorded with
  | None => Ok DefaultInteractionTTL
  | Some text =>
      match settings_ttl text with
      | None => Err ErrState
      | Some ttl => Ok (if ttl <=? 0 then DefaultInteractionTTL else ttl)
      end
  end.

Definition lift {A} (r : result error A) : tx A :=
  match r with Ok a => mret a | Err e => fail e end.

(** The stored artifact: the column-backed fields are not in it. *)
Definition artifact_of (i : Interaction) (expires : Z) : Interaction :=
  mk_Interaction i.(i_ID) i.(i_Kind) i.(i_Questions) i.(i_Call) expires "" "" "" "".

(** The binding inputs the journal itself knows: what the run recorded and
    whose conversation it is. *)
Definition binding_of (journey key name schema arguments product principal thread definition : string)
    : CallBinding :=
  mk_CallBinding journey key name schema arguments product principal thread definition.

(** [SELECT r.product_version,r.definition_digest,c.principal ...]; both
    must be recorded. *)
Definition run_scope (thread run : string) : tx (run_row * conv_row * string * string) :=
  row ← get (run_of thread run);
  r ← the DbNoRows row;
  row ← get (λ s, s.(convs) !! thread);
  conv ← the DbNoRows row;
  product ← the ErrState r.(rn_product);
  definition ← the ErrState r.(rn_definition);
  mret (r, conv, product, definition).

Definition Wait (o : Owner) (i : Interaction) (checkpoint history : string) : tx unit :=
  let c := o.(ow_Command) in let thread := c.(c_ThreadID) in let run := c.(c_RunID) in
  _ ← lift (Validate i);
  _ ← guard_tx (json_valid checkpoint && json_valid history) ErrState;
  _ ← lockOwner now o;
  pending ← get (has_pending thread run);
  _ ← guard_tx (negb pending) ErrPending;
  _ ← guard_tx (negb (bool_decide (i.(i_Kind) = "approval")) ||
                (nonempty i.(i_JourneyID) && nonempty i.(i_OperationKey))) ErrState;
  scope ← run_scope thread run;
  let '(r, conv, product, definition) := scope in
  ttl ← lift (recordedInteractionTTL r.(rn_settings));
  _ ← guard_tx (bool_decide (BindCall (binding_of i.(i_JourneyID) i.(i_OperationKey) i.(i_NameDigest)
        i.(i_SchemaDigest) i.(i_Call).(pc_Arguments) product conv.(cv_principal) thread definition)
        = Ok i.(i_Call).(pc_Binding))) ErrState;
  let expires := now + milliseconds ttl in
  checkpoint ← as_jsonb checkpoint;
  hist ← as_jsonb history;
  _ ← insert_interaction i.(i_ID) (mk_interaction thread run (or_else i.(i_JourneyID) r.(rn_journey))
        definition i.(i_Kind) (artifact_of i expires) checkpoint hist expires IPending None None
        (if bool_decide (i.(i_Kind) = "approval") then Some MRequested else None)
        (Some i.(i_OperationKey)) (Some i.(i_NameDigest)) (Some i.(i_SchemaDigest))
        r.(rn_product) r.(rn_catalog) (Some conv.(cv_active)));
  _ ← update_history thread history;
  _ ← update_run thread run (λ _, true)
        (λ r, upd_rn_state (λ _, RunAwaitingInput) (upd_rn_owner (λ _, "") (upd_rn_lease (λ _, now) r)));
  appendEvent thread (mk_Event 0 "run.awaiting_input" run i.(i_Call).(pc_CallID) "" "" "" "" None).

(** ** Continuing *)

(** [Continuation]: the consumed interaction this run continues, with the
    column-backed fields put back, and the stored reply. *)
Definition Continuation (o : Owner) : tx (option (Interaction * string * string * Reply * option Marker)) :=
  let c := o.(ow_Command) in
  if bool_decide (c.(c_InteractionID) = "") then mret None
  else
    _ ← lockOwner now o;
    row ← get (λ s, i ← interaction_of c.(c_ThreadID) c.(c_InteractionID) s;
                    if continues c.(c_ThreadID) c.(c_RunID) i then Some i else None);
    i ← the DbNoRows row;
    answer ← the DbSyntax (text ← i.(in_reply); unmarshal_reply text);
    let a := i.(in_artifact) in
    mret (Some (mk_Interaction a.(i_ID) a.(i_Kind) a.(i_Questions) a.(i_Call) a.(i_ExpiresAt)
                  (default "" i.(in_journey)) (default "" i.(in_operation)) (default "" i.(in_name))
                  (default "" i.(in_schema)),
                i.(in_checkpoint), i.(in_history), answer, i.(in_marker))).

(** A consumed approval that this run continues. *)
Definition approval_of (thread run id : string) (s : db) : option interaction_row :=
  i ← interaction_of thread id s;
  if continues thread run i && bool_decide (i.(in_kind) = "approval") then Some i else None.

Definition supersede (thread run id : string) : tx unit :=
  row ← get (approval_of thread run id);
  i ← the ErrState row;
  if bool_decide (i.(in_marker) = Some MSuperseded) then mret tt
  else
    _ ← guard_tx (bool_decide (i.(in_marker) = Some MDecided)) ErrState;
    _ ← update_interaction thread id (upd_in_marker (λ _, Some MSuperseded));
    appendEvent thread (mk_Event 0 "interaction.superseded" run i.(in_artifact).(i_Call).(pc_CallID) "" "" "" "" None).

Definition Supersede (o : Owner) (id : string) : tx unit :=
  _ ← lockOwner now o;
  supersede o.(ow_Command).(c_ThreadID) o.(ow_Command).(c_RunID) id.

Definition HistoryTruncated (o : Owner) (turns messages before after budget : Z) : tx unit :=
  _ ← guard_tx ((0 <=? turns) && (0 <=? messages) && (0 <=? before) && (0 <=? after) && (0 <=? budget)) ErrState;
  _ ← lockOwner now o;
  let c := o.(ow_Command) in
  appendEvent c.(c_ThreadID)
    (detail_event "history_truncated" c.(c_RunID) "" (DTruncation turns messages before after budget)).
End runs.

(** [Store.Interaction]: the wait of a run, for its principal. *)
Definition PendingInteraction (thread principal run : string) (s : db) : option Interaction :=
  '(_, i) ← find_row (λ _ i, bool_decide (i.(in_thread) = thread) && bool_decide (i.(in_run) = run)
                            && bool_decide (i.(in_state) = IPending)) s.(interactions);
  c ← s.(convs) !! thread;
  if decide (c.(cv_principal) = principal) then Some i.(in_artifact) else None.

(** ** Observation *)

(** [ORDER BY sequence] and [ORDER BY call_id] *)
Definition seq_le (a b : Event) : Prop := a.(e_Sequence) <= b.(e_Sequence).
#[export] Instance seq_le_dec : RelDecision seq_le.
Proof. intros a b. unfold seq_le. apply _. Defined.
Definition call_le (a b : string * operation_row) : Prop := String.le a.1 b.1.
#[export] Instance call_le_dec : RelDecision call_le.
Proof. intros a b. unfold call_le. apply _. Defined.

Definition readEvents (thread : string) (after : Z) (s : db) : list Event :=
  merge_sort seq_le
    (snd <$> filter (λ p, p.1 = thread ∧ after < p.2.(e_Sequence)) s.(events)).

Definition Events (thread principal : string) (after : Z) (s : db) : result error (list Event) :=
  match s.(convs) !! thread with
  | Some c => if decide (c.(cv_principal) = principal) then Ok (readEvents thread after s) else Err ErrForbidden
  | None => Err ErrForbidden
  end.

Record CommandOutcome := mk_CommandOutcome { co_CommunicationID : string; co_State : string; co_Reason : string }.
Record OperationOutcome := mk_OperationOutcome { oo_CallID : string; oo_ToolName : string; oo_Outcome : Outcome }.

(** The [CASE] of the snapshot query. *)
Definition command_state (c : command_row) : string :=
  if c.(cm_included) then "included"
  else if bool_decide (c.(cm_terminal) = "") then "pending"
  else if bool_decide (c.(cm_terminal) = "interrupted") then "interrupted"
  else if bool_decide (c.(cm_terminal) = "consumed") then "consumed" else "rejected".

Record RunView := mk_RunView {
  rv_RunID : string; rv_State : RunState; rv_JourneyID : string; rv_Answer : string;
  rv_ProductVersion : string; rv_EndpointID : string; rv_Settings : option string;
  rv_ServerInfo : option string; rv_CatalogDigest : string; rv_TerminalReason : string;
  rv_TerminalDetail : option Detail; rv_CommandRunIDs : list string; rv_PendingCommands : Z;
  rv_CommandOutcomes : list CommandOutcome; rv_OperationOutcomes : list OperationOutcome;
  rv_Interaction : option Interaction;
}.

Definition terminal_event (thread run : string) (s : db) : option Event :=
  last (filter (λ e, e.(e_RunID) = run ∧ (e.(e_Type) = "run.failed" ∨ e.(e_Type) = "run.limit_exceeded"))
          (readEvents thread 0 s)).

Definition run_view (thread : string) (s : db) (p : string * run_row) : RunView :=
  let '(id, r) := p in
  let cmds := filter (λ c, command_of thread id c = true) s.(commands) in
  let terminal := terminal_event thread id s in
  mk_RunView id r.(rn_state) (default "" r.(rn_journey)) r.(rn_answer) (default "" r.(rn_product))
    (default "" r.(rn_endpoint)) r.(rn_settings) r.(rn_server) (default "" r.(rn_catalog))
    (default "" (e_Reason <$> terminal)) (terminal ≫= e_Detail) (cm_run <$> cmds)
    (zlen (filter (λ c, pending_command c = true) cmds))
    ((λ c, mk_CommandOutcome c.(cm_comm) (command_state c) c.(cm_terminal)) <$> cmds)
    ((λ q, mk_OperationOutcome q.1 q.2.(op_alias) q.2.(op_outcome)) <$>
       merge_sort call_le (matching (λ _ o, operation_of thread id o) s.(operations)))
    ((λ q, q.2.(in_artifact)) <$>
       find_row (λ _ i, bool_decide (i.(in_thread) = thread) && bool_decide (i.(in_run) = id)
                        && bool_decide (i.(in_state) = IPending)) s.(interactions)).

Record SnapshotView := mk_SnapshotView {
  sv_Runs : list RunView; sv_ThreadID : string; sv_Principal : string; sv_Latest : option RunView;
  sv_Watermark : Z; sv_Events : list Event; sv_ActiveJourneys : list string;
}.

(** [Snapshot]: one repeatable-read view.  [sv_Latest] is the run of the last
    event, which gives the snapshot's run, state, journey and answer. *)
Definition Snapshot (thread principal : string) (s : db) : result error SnapshotView :=
  match s.(convs) !! thread with
  | Some c =>
      if decide (c.(cv_principal) = principal) then
        let runs := run_view thread s <$> matching (λ _ r, bool_decide (r.(rn_thread) = thread)) s.(runs) in
        let events := readEvents thread 0 s in
        let latest := e ← last events; last (filter (λ v, v.(rv_RunID) = e.(e_RunID)) runs) in
        Ok (mk_SnapshotView runs thread principal latest c.(cv_sequence) events c.(cv_active))
      else Err ErrForbidden
  | None => Err ErrForbidden
  end.
