(* ===== verification/Operations.v ===== *)
(** * Tool calls

    [internal/journal/operations.go]: the exact intent of a call is committed
    before it is dispatched, an approval is spent by the dispatch it allowed,
    and the outcome closes the intent. *)
From S2P Require Import Prelude GoText Db CallBinding Interactions JournalCore Commands Runs.

Record Operation := mk_Operation {
  o_CallID : string; o_Name : string; o_Arguments : string; o_Binding : string; o_Policy : string;
  o_OperationKey : string; o_NameDigest : string; o_SchemaDigest : string;
  o_RequiresApproval : bool; o_JourneyID : string;
}.

Section operations.
Context `{Codec} (now : Z).

(** What [BeginAttempt] refuses before it opens a transaction. *)
Definition attempt_ok (op : Operation) (attempt : Z) : bool :=
  nonempty op.(o_CallID) && (1 <=? attempt) && (attempt <=? 2) && valid_policy op.(o_Policy) &&
  (bool_decide (op.(o_Policy) = "read_only") || op.(o_RequiresApproval)).

Definition binding_inputs (op : Operation) (product principal thread definition : string) : CallBinding :=
  binding_of op.(o_JourneyID) op.(o_OperationKey) op.(o_NameDigest) op.(o_SchemaDigest)
    op.(o_Arguments) product principal thread definition.

(** The approval of a first attempt: [true] when it no longer matches the call
    and was marked superseded instead. *)
Definition takeApproval (thread run : string) (op : Operation) (expected approval : string) : tx bool :=
  row ← get (λ s, i ← approval_of thread run approval s; if now <? i.(in_expires) then Some i else None);
  i ← the ErrState row;
  let call := i.(in_artifact).(i_Call) in
  answer ← the ErrState (text ← i.(in_reply); unmarshal_reply text);
  _ ← guard_tx (bool_decide (answer.(r_Decision) = "approve") && bool_decide (call.(pc_CallID) = op.(o_CallID))
                && bool_decide (call.(pc_Name) = op.(o_Name))) ErrState;
  _ ← guard_tx (bool_decide (i.(in_marker) = Some MDecided)) ErrState;
  if negb (bool_decide (default "" i.(in_journey) = op.(o_JourneyID))) ||
     negb (bool_decide (call.(pc_Binding) = expected))
  then _ ← supersede thread run approval; mret true
  else mret false.

Definition operation_row_of (thread run : string) (op : Operation) (journey : option string) : operation_row :=
  mk_operation thread run op.(o_Name) op.(o_OperationKey) op.(o_Arguments) op.(o_Binding) op.(o_Policy)
    op.(o_RequiresApproval) ODispatching (or_else op.(o_JourneyID) journey).

(** The first attempt; [true] when the approval was superseded. *)
Definition firstAttempt (thread run : string) (op : Operation) (expected approval : string) : tx bool :=
  superseded ← (if op.(o_RequiresApproval) then takeApproval thread run op expected approval else mret false);
  if (superseded : bool) then mret true
  else
    row ← get (run_of thread run);
    _ ← insert_operation op.(o_CallID) (operation_row_of thread run op (row ≫= rn_journey));
    _ ← (if op.(o_RequiresApproval)
         then update_interaction thread approval (upd_in_marker (λ _, Some MDispatched)) else mret tt);
    mret false.

(** A retry: only of a call that is known not to have had an effect twice. *)
Definition retryAttempt (thread run : string) (op : Operation) : tx unit :=
  row ← get (λ s, s.(operations) !! op.(o_CallID));
  o ← the DbNoRows row;
  _ ← guard_tx (operation_of thread run o) DbNoRows;
  _ ← guard_tx (bool_decide (o.(op_binding) = op.(o_Binding)) && bool_decide (o.(op_policy) = op.(o_Policy))
                && (bool_decide (o.(op_outcome) = ORejected) || bool_decide (o.(op_outcome) = OUnknown))
                && negb (bool_decide (op.(o_Policy) = "effectful"))) ErrState;
  modify (upd_operations <[op.(o_CallID) := upd_op_outcome (λ _, ODispatching) o]>).

(** [Ok (Err ErrSuperseded, s)]: the marker is committed and nothing else. *)
Definition BeginAttempt (o : Owner) (op : Operation) (attempt : Z) (approval : string)
    : tx (result error unit) :=
  _ ← guard_tx (attempt_ok op attempt) ErrState;
  _ ← lockOwner now o;
  let c := o.(ow_Command) in let thread := c.(c_ThreadID) in let run := c.(c_RunID) in
  scope ← run_scope thread run;
  let '(_, conv, product, definition) := scope in
  expected ← the ErrState (match BindCall (binding_inputs op product conv.(cv_principal) thread definition) with
                           | Ok d => Some d | Err _ => None end);
  _ ← guard_tx (bool_decide (expected = op.(o_Binding))) ErrState;
  unknown ← get (λ s, exists_row (λ k r, bool_decide (r.(op_thread) = thread) && unresolved r.(op_outcome)
                                        && negb (bool_decide (k = op.(o_CallID)))) s.(operations));
  _ ← guard_tx (negb unknown) ErrOutcomeUnknown;
  superseded ← (if attempt =? 1 then firstAttempt thread run op expected approval
                else _ ← retryAttempt thread run op; mret false);
  if (superseded : bool) then mret (Err ErrSuperseded)
  else
    _ ← insert_attempt op.(o_CallID) attempt ODispatching;
    _ ← appendEvent thread (call_event "tool.started" run op.(o_CallID) op.(o_Name));
    mret (Ok tt).

Definition parse_outcome (outcome : string) : option Outcome :=
  if bool_decide (outcome = "completed") then Some OCompleted
  else if bool_decide (outcome = "rejected") then Some ORejected
  else if bool_decide (outcome = "auth_required") then Some OAuthRequired
  else if bool_decide (outcome = "outcome_unknown") then Some OUnknown else None.

Definition EndAttempt (o : Owner) (op : Operation) (attempt : Z) (outcome : string) : tx unit :=
  result ← the ErrState (parse_outcome outcome);
  _ ← lockOwner now o;
  let c := o.(ow_Command) in let thread := c.(c_ThreadID) in let run := c.(c_RunID) in
  row ← get (λ s, s.(operations) !! op.(o_CallID));
  r ← the ErrState row;
  _ ← guard_tx (operation_of thread run r && bool_decide (r.(op_outcome) = ODispatching)) ErrState;
  _ ← modify (upd_operations <[op.(o_CallID) := upd_op_outcome (λ _, result) r]>);
  old ← get (λ s, s.(attempts) !! (op.(o_CallID), attempt));
  _ ← guard_tx (bool_decide (old = Some ODispatching)) ErrState;
  _ ← modify (upd_attempts <[(op.(o_CallID), attempt) := result]>);
  appendEvent thread (call_event ("tool." +:+ outcome) run op.(o_CallID) op.(o_Name)).
End operations.
