(* ===== verification/DefinitionStore.v ===== *)
(** * Definition pins and the definition store

    [internal/journal/definitions.go]: which definition set a conversation
    runs under, when the current set may move, and the append-only store of
    the sets' files. *)
From S2P Require Import Prelude GoText Db JournalCore Commands Runs.
From Stdlib Require Import Ascii.

(** A conversation that is waiting, continuing or unsure of an effect. *)
Definition pin_in_use (thread : string) (s : db) : bool :=
  waiting thread s
  || exists_row (λ _ i, bool_decide (i.(in_thread) = thread) && bool_decide (i.(in_state) = IConsumed)
        && match i.(in_continuation) with
           | Some run => match run_of thread run s with Some r => is_live r.(rn_state) | None => false end
           | None => false
           end) s.(interactions)
  || has_unresolved thread s.

(** [referencedDigests]: the current set and the pins in use (a [UNION], in no
    particular order). *)
Definition referencedDigests (s : db) : list string :=
  remove_dups (option_list s.(current) ++
    omap (λ p, d ← p.2.(cv_definition); if pin_in_use p.1 s then Some d else None) (map_to_list s.(convs))).

Section definitions.
Context (now : Z) (served : option (string → bool)).
(** A nil [served] serves nothing; the entry points refuse it first. *)
Definition serves (d : string) : bool := match served with Some f => f d | None => false end.
Definition has_served : bool := bool_decide (is_Some served).

(** Whether the run starting under [o] may re-pin its conversation. *)
Definition conversationIdle (o : Owner) (s : db) : bool :=
  let thread := o.(ow_Command).(c_ThreadID) in
  bool_decide (o.(ow_Command).(c_InteractionID) = "") && negb (waiting thread s || has_unresolved thread s).

Definition ResolveDefinition (o : Owner) : tx string :=
  let thread := o.(ow_Command).(c_ThreadID) in
  _ ← guard_tx has_served ErrDefinition;
  _ ← lockOwner now o;
  row ← get (λ s, s.(convs) !! thread);
  conv ← the DbNoRows row;
  cur ← get current;
  match conv.(cv_definition) with
  | Some pin =>
      idle ← get (conversationIdle o);
      match cur with
      | Some d =>
          if negb (bool_decide (d = pin)) && idle then
            _ ← guard_tx (serves d) ErrDefinition;
            _ ← update_conv thread (upd_cv_definition (λ _, Some d));
            _ ← appendEvent thread (detail_event "definition_changed" o.(ow_Command).(c_RunID) "" (DDefinition pin d));
            mret d
          else _ ← guard_tx (serves pin) ErrDefinition; mret pin
      | None => _ ← guard_tx (serves pin) ErrDefinition; mret pin
      end
  | None =>
      d ← the ErrDefinition cur;
      _ ← guard_tx (serves d) ErrDefinition;
      _ ← update_conv thread (upd_cv_definition (λ _, Some d));
      mret d
  end.

Definition CurrentDefinition (s : db) : result error string :=
  match s.(current) with Some d => Ok d | None => Err ErrDefinition end.

Definition activated_before (d : string) (s : db) : bool :=
  match s.(def_sets) !! d with Some r => bool_decide (is_Some r.(ds_activated)) | None => false end.

(** [UPDATE agent_definition_sets SET activated_at = now() WHERE ... IS NULL] *)
Definition markActivated (d : string) : tx unit :=
  modify (upd_def_sets (alter (λ r, mk_defset (Some (default now r.(ds_activated))) r.(ds_files)) d)).

Definition activate (expected candidate : string) (rollback : bool) : tx unit :=
  _ ← guard_tx ((slen candidate =? 64) && has_served && serves candidate) ErrDefinition;
  cur ← get current;
  if bool_decide (cur = Some candidate) then markActivated candidate
  else
    before ← get (activated_before candidate);
    _ ← guard_tx (rollback || negb before) ErrDefinitionSuperseded;
    pins ← get referencedDigests;
    _ ← guard_tx (forallb serves pins) ErrDefinition;
    _ ← (match cur with
         | None => guard_tx (bool_decide (expected = "")) ErrDefinition
         | Some c => guard_tx (serves c && bool_decide (c = expected)) ErrDefinition
         end);
    _ ← modify (upd_current (λ _, Some candidate));
    markActivated candidate.

Definition ActivateDefinition (expected candidate : string) : tx unit := activate expected candidate false.
Definition RollbackDefinition (expected candidate : string) : tx unit := activate expected candidate true.

Definition DefinitionsReady (s : db) : result error bool :=
  if has_served then
    Ok (bool_decide (is_Some s.(current)) && forallb serves (referencedDigests s))
  else Err ErrDefinition.
End definitions.

Definition DefinitionActivated (d : string) (s : db) : bool := activated_before d s.

(** [digestPattern] *)
Definition is_digest (d : string) : bool :=
  (slen d =? 64) && all_bytes (λ c, is_digit c || byte_between "a"%char "f"%char c) d.

Definition PutDefinitionSet (d : string) (files : gmap string string) : tx unit :=
  _ ← guard_tx (is_digest d && negb (bool_decide (files = ∅)) && bool_decide (files !! "" = None)) ErrDefinition;
  row ← get (λ s, s.(def_sets) !! d);
  match row with
  | Some _ => mret tt
  | None => modify (upd_def_sets <[d := mk_defset None files]>)
  end.

Definition DefinitionSet (d : string) (s : db) : result error (gmap string string) :=
  match s.(def_sets) !! d with Some r => Ok r.(ds_files) | None => Err ErrDefinition end.

Definition ReferencedDefinitions (s : db) : list string := sort_strings (referencedDigests s).
