(* ===== verification/Records.v ===== *)
(** * What a run records

    [internal/journal/scope.go], [catalog.go], [active.go] and the recording
    half of [usage.go]: the scope a run was governed by, the catalog snapshot
    a conversation is pinned to, the active journey set with its pinned
    members, and token usage. *)
From S2P Require Import Prelude GoText Db CallBinding JournalCore Commands Runs.
From Stdlib Require Import Ascii.

Section records.
Context `{Codec} (now : Z).

(** [isJSONObject] and [isJSONArray]: valid JSON whose first byte after white
    space opens an object or an array. *)
Definition isJSONObject (raw : string) : bool := json_valid raw && jsonb_is_object (trim_space raw).
Definition isJSONArray (raw : string) : bool := jsonb_is_array (trim_space raw) && json_valid (trim_space raw).

Definition RecordRunScope (o : Owner) (product endpoint settings : string) : tx unit :=
  _ ← guard_tx (nonempty product && nonempty endpoint && isJSONObject settings) ErrState;
  let c := o.(ow_Command) in
  _ ← lockOwner now o;
  text ← as_jsonb settings;
  row ← get (run_of c.(c_ThreadID) c.(c_RunID));
  r ← the DbNoRows row;
  if bool_decide (is_Some r.(rn_product)) then
    guard_tx (bool_decide (r.(rn_product) = Some product) && bool_decide (r.(rn_endpoint) = Some endpoint)
              && bool_decide (r.(rn_settings) = Some text)) ErrState
  else
    _ ← update_run c.(c_ThreadID) c.(c_RunID) (λ _, true)
          (λ r, upd_rn_product (λ _, Some product) (upd_rn_endpoint (λ _, Some endpoint)
                  (upd_rn_settings (λ _, Some text) r)));
    mret tt.

Definition RecordServerInfo (o : Owner) (info : string) : tx unit :=
  _ ← guard_tx (isJSONObject info) ErrState;
  let c := o.(ow_Command) in
  _ ← lockOwner now o;
  text ← as_jsonb info;
  _ ← update_run c.(c_ThreadID) c.(c_RunID) (λ _, true) (upd_rn_server (λ _, Some text));
  mret tt.

(** ** Catalog snapshots *)

Record CatalogSnapshot := mk_CatalogSnapshot {
  cs_Digest : string; cs_Tenant : string; cs_Principal : string; cs_ProductVersion : string;
  cs_EndpointID : string; cs_ServerVersion : string; cs_Descriptors : string; cs_CapturedAt : Z;
}.

(** [CatalogDigest]: the descriptors are compacted by [json.Marshal], the
    codec's canonical value. *)
Definition CatalogDigest (s : CatalogSnapshot) : result error string :=
  match canonical_value s.(cs_Descriptors) with
  | None => Err ErrState
  | Some descriptors =>
      Ok (hex (sha256 (json_object [("tenant", json_string s.(cs_Tenant));
        ("principal", json_string s.(cs_Principal)); ("product_version", json_string s.(cs_ProductVersion));
        ("endpoint_id", json_string s.(cs_EndpointID)); ("server_version", json_string s.(cs_ServerVersion));
        ("descriptors", descriptors)])))
  end.

(** [INSERT INTO agent_catalog_snapshots ... ON CONFLICT (digest) DO NOTHING] *)
Definition insert_snapshot (digest : string) (row : snapshot_row) : tx unit :=
  _ ← guard_tx ((slen digest =? 64) && nonempty row.(sn_product) && nonempty row.(sn_endpoint)
                && jsonb_is_array row.(sn_descriptors)) DbCheck;
  modify (upd_snapshots (λ m, match m !! digest with Some _ => m | None => <[digest := row]> m end)).

Definition CommitSnapshot (o : Owner) (snap : CatalogSnapshot) : tx string :=
  let c := o.(ow_Command) in let thread := c.(c_ThreadID) in
  _ ← guard_tx (nonempty snap.(cs_ProductVersion) && nonempty snap.(cs_EndpointID)
                && isJSONArray snap.(cs_Descriptors)) ErrState;
  _ ← guard_tx ((bool_decide (snap.(cs_Tenant) = "") || bool_decide (snap.(cs_Tenant) = c.(c_Tenant)))
                && (bool_decide (snap.(cs_Principal) = "") || bool_decide (snap.(cs_Principal) = c.(c_Principal)))) ErrState;
  digest ← lift (CatalogDigest (mk_CatalogSnapshot snap.(cs_Digest) c.(c_Tenant) c.(c_Principal)
                   snap.(cs_ProductVersion) snap.(cs_EndpointID) snap.(cs_ServerVersion) snap.(cs_Descriptors)
                   snap.(cs_CapturedAt)));
  _ ← lockOwner now o;
  row ← get (λ s, s.(convs) !! thread);
  conv ← the DbNoRows row;
  descriptors ← as_jsonb snap.(cs_Descriptors);
  _ ← insert_snapshot digest (mk_snapshot c.(c_Tenant) c.(c_Principal) snap.(cs_ProductVersion)
        snap.(cs_EndpointID) snap.(cs_ServerVersion) descriptors now);
  _ ← update_conv thread (λ v, upd_cv_catalog (λ _, Some digest) (upd_cv_product (λ _, Some snap.(cs_ProductVersion))
        (upd_cv_validated (λ _, Some now) v)));
  _ ← update_run thread c.(c_RunID) (λ _, true) (upd_rn_catalog (λ _, Some digest));
  _ ← (match conv.(cv_catalog) with
       | Some previous =>
           if bool_decide (previous = digest) then mret tt
           else appendEvent thread (detail_event "catalog_changed" c.(c_RunID) ""
                  (DCatalog previous digest (default "" conv.(cv_product)) snap.(cs_ProductVersion)))
       | None => mret tt
       end);
  mret digest.

Definition RecordRunCatalog (o : Owner) (digest : string) : tx unit :=
  let c := o.(ow_Command) in let thread := c.(c_ThreadID) in
  _ ← lockOwner now o;
  row ← get (λ s, s.(convs) !! thread);
  conv ← the DbNoRows row;
  _ ← guard_tx (bool_decide (conv.(cv_catalog) = Some digest)) ErrState;
  _ ← update_conv thread (upd_cv_validated (λ _, Some now));
  _ ← update_run thread c.(c_RunID) (λ _, true) (upd_rn_catalog (λ _, Some digest));
  mret tt.

(** A conversation's pinned snapshot; [Age] is in microseconds. *)
Record CatalogPin := mk_CatalogPin { cp_Snapshot : CatalogSnapshot; cp_ValidatedAt : Z; cp_Age : Z }.

Definition ConversationPin (o : Owner) : tx (option CatalogPin) :=
  _ ← lockOwner now o;
  get (λ s, c ← s.(convs) !! o.(ow_Command).(c_ThreadID);
            digest ← c.(cv_catalog);
            row ← s.(snapshots) !! digest;
            validated ← c.(cv_validated);
            Some (mk_CatalogPin (mk_CatalogSnapshot digest row.(sn_tenant) row.(sn_principal) row.(sn_product)
                    row.(sn_endpoint) row.(sn_server) row.(sn_descriptors) row.(sn_captured))
                  validated (now - validated))).

(** ** Active journeys *)

(** Journeys whose approval is open or decided and not yet spent, and journeys
    with an unresolved effect. *)
Definition pinning_interaction (thread run : string) (i : interaction_row) : bool :=
  bool_decide (i.(in_thread) = thread) && bool_decide (i.(in_kind) = "approval")
  && (bool_decide (i.(in_state) = IPending)
      || (bool_decide (i.(in_state) = IConsumed) && bool_decide (i.(in_continuation) = Some run)
          && bool_decide (i.(in_marker) = Some MDecided))).
Definition pinning_operation (thread : string) (o : operation_row) : bool :=
  bool_decide (o.(op_thread) = thread) && unresolved o.(op_outcome).

Definition pinned_journeys (thread run : string) (s : db) : list string :=
  sort_strings (remove_dups (filter (λ j, j ≠ "")
    (((λ p, default "" p.2.(in_journey)) <$> matching (λ _ i, pinning_interaction thread run i) s.(interactions)) ++
     ((λ p, default "" p.2.(op_journey)) <$> matching (λ _ o, pinning_operation thread o) s.(operations))))).

Definition ActiveJourneys (o : Owner) : tx (list string * list string) :=
  let c := o.(ow_Command) in
  _ ← lockOwner now o;
  row ← get (λ s, s.(convs) !! c.(c_ThreadID));
  conv ← the DbNoRows row;
  pinned ← get (pinned_journeys c.(c_ThreadID) c.(c_RunID));
  mret (conv.(cv_active), pinned).

Definition SetActiveJourneys (o : Owner) (active : list string) : tx unit :=
  _ ← guard_tx (negb (contains "" active) && no_dup_b active) ErrState;
  _ ← lockOwner now o;
  update_conv o.(ow_Command).(c_ThreadID) (upd_cv_active (λ _, active)).

(** ** Usage *)

Record Usage := mk_Usage {
  u_Model : string; u_Input : Z; u_Output : Z; u_Cached : Z; u_JourneyID : string;
}.

Definition usage_of (thread run : string) (u : usage_row) : bool :=
  bool_decide (u.(us_thread) = thread) && bool_decide (u.(us_run) = run).
Definition max_seq (l : list usage_row) : Z := foldr Z.max 0 (us_seq <$> l).

Definition RecordUsage (o : Owner) (u : Usage) : tx Z :=
  let c := o.(ow_Command) in
  _ ← guard_tx ((0 <=? u.(u_Input)) && (0 <=? u.(u_Output)) && (0 <=? u.(u_Cached))) ErrState;
  _ ← lockOwner now o;
  rows ← get (λ s, filter (λ r, usage_of c.(c_ThreadID) c.(c_RunID) r = true) s.(usages));
  _ ← guard_tx (nonempty c.(c_Tenant) && nonempty c.(c_Principal)) DbCheck;
  let seq := max_seq rows + 1 in
  _ ← modify (upd_usages (λ l, l ++ [mk_usage c.(c_ThreadID) c.(c_RunID) seq u.(u_Model) u.(u_Input) u.(u_Output)
        u.(u_Cached) c.(c_Tenant) c.(c_Principal) (or_else u.(u_JourneyID) None) now]));
  mret seq.
End records.

(** Zero bounds are unbounded. *)
Record UsageQuery := mk_UsageQuery {
  uq_Tenant : string; uq_Principal : string; uq_Conversation : string; uq_Journey : string;
  uq_From : option Z; uq_To : option Z;
}.
Record UsageTotal := mk_UsageTotal {
  ut_Model : string; ut_Calls : Z; ut_Input : Z; ut_Output : Z; ut_Cached : Z;
}.

Definition matches_filter (want got : string) : bool := bool_decide (want = "") || bool_decide (got = want).
Definition usage_matches (q : UsageQuery) (u : usage_row) : bool :=
  bool_decide (u.(us_tenant) = q.(uq_Tenant)) && matches_filter q.(uq_Principal) u.(us_principal)
  && matches_filter q.(uq_Conversation) u.(us_thread)
  && (bool_decide (q.(uq_Journey) = "") || bool_decide (u.(us_journey) = Some q.(uq_Journey)))
  && match q.(uq_From) with Some t => t <=? u.(us_at) | None => true end
  && match q.(uq_To) with Some t => u.(us_at) <? t | None => true end.

Definition total_of (model : string) (rows : list usage_row) : UsageTotal :=
  let l := filter (λ u, u.(us_model) = model) rows in
  let sum (f : usage_row → Z) := foldr Z.add 0 (f <$> l) in
  mk_UsageTotal model (zlen l) (sum us_input) (sum us_output) (sum us_cached).

(** [::bigint] of a [numeric] sum. *)
Definition fits_bigint (n : Z) : bool := (- 2 ^ 63 <=? n) && (n <? 2 ^ 63).
Definition total_fits (t : UsageTotal) : bool :=
  fits_bigint t.(ut_Input) && fits_bigint t.(ut_Output) && fits_bigint t.(ut_Cached).

(** Grouped by model, ordered by model. *)
Definition UsageTotals (q : UsageQuery) (s : db) : result error (list UsageTotal) :=
  if bool_decide (q.(uq_Tenant) = "") then Err ErrState
  else
    let rows := filter (λ u, usage_matches q u = true) s.(usages) in
    let totals := (λ m, total_of m rows) <$> sort_strings (remove_dups (us_model <$> rows)) in
    _ ← ensure (forallb total_fits totals) DbRange;
    Ok totals.
