(* ===== verification/Lifecycle.v ===== *)
(** * The life of a conversation

    An abstract machine for what the journal promises about one conversation:
    it is idle, has one live run, or waits for one reply.  The state keeps
    only the columns that matter for that; [Journal.v] shows that every
    transaction of the journal is a sequence of these steps. *)
From S2P Require Import Prelude Db.

Record lrun := mk_lrun { lr_thread : string; lr_state : RunState; lr_epoch : Z }.
Record lint := mk_lint {
  li_thread : string; li_run : string; li_state : InteractionState; li_cont : option string;
}.
(** Owner epochs by conversation, runs, interactions and commands. *)
Record lstate := mk_l {
  l_epochs : gmap string Z; l_runs : gmap string lrun; l_ints : gmap string lint;
  l_cmds : list command_row;
}.

Definition lrun_of (r : run_row) : lrun := mk_lrun r.(rn_thread) r.(rn_state) r.(rn_epoch).
Definition lint_of (i : interaction_row) : lint :=
  mk_lint i.(in_thread) i.(in_run) i.(in_state) i.(in_continuation).
Definition core (s : db) : lstate :=
  mk_l (cv_owner_epoch <$> s.(convs)) (lrun_of <$> s.(runs)) (lint_of <$> s.(interactions)) s.(commands).

(** ** Steps *)

Definition terminal (st : RunState) : bool :=
  match st with RunPending | RunRunning | RunAwaitingInput => false | _ => true end.

(** The pending commands of a run get a disposition. *)
Definition dispose (t run reason : string) (l : list command_row) : list command_row :=
  (λ c, if command_of t run c && pending_command c then upd_cm_terminal (λ _, reason) c else c) <$> l.
Definition include (t run comm : string) (l : list command_row) : list command_row :=
  (λ c, if command_of t run c && bool_decide (c.(cm_comm) = comm) && pending_command c
        then upd_cm_included (λ _, true) c else c) <$> l.

Definition no_live (t : string) (l : lstate) : Prop :=
  ∀ id r, l.(l_runs) !! id = Some r → r.(lr_thread) = t → is_live r.(lr_state) = false.
Definition no_wait (t : string) (l : lstate) : Prop :=
  ∀ id i, l.(l_ints) !! id = Some i → i.(li_thread) = t → i.(li_state) ≠ IPending.
Definition no_pending (t run : string) (l : lstate) : Prop :=
  ∀ c, c ∈ l.(l_cmds) → command_of t run c = true → pending_command c = false.
Definition fresh_command (t comm run : string) (l : lstate) : Prop :=
  ∀ c, c ∈ l.(l_cmds) → ¬ (c.(cm_thread) = t ∧ c.(cm_comm) = comm) ∧ c.(cm_run) ≠ run.

(** [st' ] when the run waits for input, as the updates that test the state do. *)
Definition settle (st' : RunState) (r : lrun) : lrun :=
  if bool_decide (r.(lr_state) = RunAwaitingInput) then mk_lrun r.(lr_thread) st' r.(lr_epoch) else r.

Inductive lstep (t : string) (l : lstate) : lstate → Prop :=
| L_open :
    l.(l_epochs) !! t = None →
    lstep t l (mk_l (<[t := 0]> l.(l_epochs)) l.(l_runs) l.(l_ints) l.(l_cmds))
| L_fresh comm run payload :
    is_Some (l.(l_epochs) !! t) → no_live t l → no_wait t l → l.(l_runs) !! run = None →
    fresh_command t comm run l →
    lstep t l (mk_l l.(l_epochs) (<[run := mk_lrun t RunPending 0]> l.(l_runs)) l.(l_ints)
      (l.(l_cmds) ++ [mk_command t comm run payload run false ""]))
| L_steer comm run payload exec r :
    l.(l_runs) !! exec = Some r → r.(lr_thread) = t → is_live r.(lr_state) = true → no_wait t l →
    fresh_command t comm run l →
    lstep t l (mk_l l.(l_epochs) l.(l_runs) l.(l_ints)
      (l.(l_cmds) ++ [mk_command t comm run payload exec false ""]))
| L_include run comm :
    lstep t l (mk_l l.(l_epochs) l.(l_runs) l.(l_ints) (include t run comm l.(l_cmds)))
| L_claim run ep0 e :
    l.(l_runs) !! run = Some (mk_lrun t RunPending ep0) → l.(l_epochs) !! t = Some e →
    lstep t l (mk_l (<[t := e + 1]> l.(l_epochs)) (<[run := mk_lrun t RunRunning (e + 1)]> l.(l_runs))
      l.(l_ints) l.(l_cmds))
| L_interrupt run r :
    l.(l_runs) !! run = Some r → r.(lr_thread) = t → is_live r.(lr_state) = true →
    lstep t l (mk_l l.(l_epochs) (<[run := mk_lrun t RunInterrupted r.(lr_epoch)]> l.(l_runs)) l.(l_ints)
      (dispose t run "interrupted" l.(l_cmds)))
| L_expire id i r :
    l.(l_ints) !! id = Some i → i.(li_thread) = t → i.(li_state) = IPending →
    l.(l_runs) !! i.(li_run) = Some r → r.(lr_thread) = t →
    lstep t l (mk_l l.(l_epochs) (<[i.(li_run) := settle RunFailed r]> l.(l_runs))
      (<[id := mk_lint t i.(li_run) IExpired i.(li_cont)]> l.(l_ints)) l.(l_cmds))
| L_wait run id ep :
    l.(l_runs) !! run = Some (mk_lrun t RunRunning ep) → no_pending t run l →
    l.(l_ints) !! id = None →
    lstep t l (mk_l l.(l_epochs) (<[run := mk_lrun t RunAwaitingInput ep]> l.(l_runs))
      (<[id := mk_lint t run IPending None]> l.(l_ints)) l.(l_cmds))
| L_reply comm run payload reason id i r :
    l.(l_ints) !! id = Some i → i.(li_thread) = t → i.(li_state) = IPending →
    l.(l_runs) !! i.(li_run) = Some r → r.(lr_thread) = t → l.(l_runs) !! run = None →
    fresh_command t comm run l →
    lstep t l (mk_l l.(l_epochs)
      (<[i.(li_run) := settle RunCompleted r]> (<[run := mk_lrun t RunPending 0]> l.(l_runs)))
      (<[id := mk_lint t i.(li_run) IConsumed (Some run)]> l.(l_ints))
      (l.(l_cmds) ++ [mk_command t comm run payload run false reason]))
| L_finish run st ep :
    l.(l_runs) !! run = Some (mk_lrun t RunRunning ep) → terminal st = true →
    (st = RunCompleted → no_pending t run l) →
    lstep t l (mk_l l.(l_epochs) (<[run := mk_lrun t st ep]> l.(l_runs)) l.(l_ints)
      (if bool_decide (st = RunCompleted) then l.(l_cmds) else dispose t run (state_name st) l.(l_cmds))).

(** ** Phases *)

Inductive phase := PIdle | PLive (run : string) | PWaiting (run interaction : string).

Definition phase_run (p : phase) : option string :=
  match p with PIdle => None | PLive run | PWaiting run _ => Some run end.

Definition run_in_phase (p : phase) (id : string) (st : RunState) : Prop :=
  match st with
  | RunPending | RunRunning => p = PLive id
  | RunAwaitingInput => ∃ i, p = PWaiting id i
  | _ => phase_run p ≠ Some id
  end.

(** Conversation [t] is in phase [p]: exactly the phase's run is live or
    waiting, exactly its interaction is open, and every command that still
    waits for a disposition belongs to the live run. *)
Record lphase (l : lstate) (t : string) (p : phase) : Prop := {
  lp_run : ∀ id r, l.(l_runs) !! id = Some r → r.(lr_thread) = t → run_in_phase p id r.(lr_state);
  lp_int : ∀ id i, l.(l_ints) !! id = Some i → i.(li_thread) = t →
    (i.(li_state) = IPending ↔ p = PWaiting i.(li_run) id);
  lp_cmd : ∀ c, c ∈ l.(l_cmds) → c.(cm_thread) = t → pending_command c = true → p = PLive c.(cm_exec);
  lp_run_exists : ∀ id, phase_run p = Some id → ∃ r, l.(l_runs) !! id = Some r ∧ r.(lr_thread) = t;
  lp_int_exists : ∀ run id, p = PWaiting run id → ∃ i, l.(l_ints) !! id = Some i ∧ i.(li_thread) = t ∧ i.(li_run) = run;
}.

Inductive phase_step : phase → phase → Prop :=
| ps_stay p : phase_step p p
| ps_admit run : phase_step PIdle (PLive run)
| ps_end run : phase_step (PLive run) PIdle
| ps_wait run id : phase_step (PLive run) (PWaiting run id)
| ps_expire run id : phase_step (PWaiting run id) PIdle
| ps_reply run id run' : phase_step (PWaiting run id) (PLive run').

(** ** Other conversations are not touched *)

(** The rows of conversation [t] are the same in both states. *)
Definition lsame (t : string) (l l' : lstate) : Prop :=
  (∀ id r, r.(lr_thread) = t → l'.(l_runs) !! id = Some r ↔ l.(l_runs) !! id = Some r) ∧
  (∀ id i, i.(li_thread) = t → l'.(l_ints) !! id = Some i ↔ l.(l_ints) !! id = Some i) ∧
  (∀ c, c.(cm_thread) = t → c ∈ l'.(l_cmds) ↔ c ∈ l.(l_cmds)).

Lemma insert_other {A} (thread : A → string) (t t' k : string) (v : A) (m : gmap string A) :
  t ≠ t' → thread v = t → (∀ w, m !! k = Some w → thread w = t) →
  ∀ id r, thread r = t' → <[k := v]> m !! id = Some r ↔ m !! id = Some r.
Proof.
  intros Hne Hv Hold id r Hr. destruct (decide (k = id)) as [<-|Hk].
  - rewrite lookup_insert_eq. split; [naive_solver|]. intros Hm. specialize (Hold _ Hm). congruence.
  - by rewrite lookup_insert_ne.
Qed.

Lemma map_other (t t' : string) (cond : command_row → bool) f (l : list command_row) :
  t ≠ t' → (∀ c, cond c = true → c.(cm_thread) = t) → (∀ c, (f c).(cm_thread) = c.(cm_thread)) →
  ∀ c, c.(cm_thread) = t' → c ∈ (λ c, if cond c then f c else c) <$> l ↔ c ∈ l.
Proof.
  intros Hne Hcond Hf c Hc. rewrite list_elem_of_fmap. split.
  - intros (c' & Heq & Hin). destruct (cond c') eqn:E; [|by subst].
    apply Hcond in E. rewrite <- Hc, Heq, Hf in Hne. congruence.
  - intros Hin. exists c. split; [|done]. destruct (cond c) eqn:E; [|done].
    apply Hcond in E. congruence.
Qed.

Lemma command_of_thread t run c : command_of t run c = true → c.(cm_thread) = t ∧ c.(cm_exec) = run.
Proof. unfold command_of. intros H. gosimpl. done. Qed.

Lemma dispose_other t t' run reason l : t ≠ t' →
  ∀ c, c.(cm_thread) = t' → c ∈ dispose t run reason l ↔ c ∈ l.
Proof.
  intros Hne. apply (map_other t t' _ (upd_cm_terminal (λ _, reason))); [done| |done].
  intros c [Hc _]%andb_true_iff. by apply command_of_thread in Hc as [? _].
Qed.

Lemma include_other t t' run comm l : t ≠ t' →
  ∀ c, c.(cm_thread) = t' → c ∈ include t run comm l ↔ c ∈ l.
Proof.
  intros Hne. apply (map_other t t' _ (upd_cm_included (λ _, true))); [done| |done].
  intros c [[Hc _]%andb_true_iff _]%andb_true_iff. by apply command_of_thread in Hc as [? _].
Qed.

Lemma snoc_other (t t' : string) (c' : command_row) l : t ≠ t' → c'.(cm_thread) = t →
  ∀ c, c.(cm_thread) = t' → c ∈ l ++ [c'] ↔ c ∈ l.
Proof. intros Hne Ht c Hc. rewrite elem_of_app, list_elem_of_singleton. naive_solver. Qed.

Lemma settle_thread st r : lr_thread (settle st r) = lr_thread r.
Proof. unfold settle. by case_bool_decide. Qed.

#[local] Hint Resolve dispose_other include_other snoc_other : core.

Lemma lstep_other t l l' t' : lstep t l l' → t ≠ t' → lsame t' l l'.
Proof.
  intros Hstep Hne. unfold lsame. destruct Hstep; simpl; split_and!; eauto; try done.
  all: try (eapply insert_other; [done|simpl; by rewrite ?settle_thread|naive_solver]).
  - intros id' r' Hr'. rewrite (insert_other lr_thread t t'); [|done|by rewrite settle_thread| |done].
    + by apply (insert_other lr_thread t t'); [..|rewrite H4|].
    + intros w [[_ <-]|[_ ?]]%lookup_insert_Some; [done|naive_solver].
  - case_bool_decide; eauto; done.
Qed.

Lemma lphase_same l l' t p : lsame t l l' → lphase l t p → lphase l' t p.
Proof.
  intros (Hsr & Hsi & Hsc) [Hr Hi Hc Hre Hie]. split.
  - intros id r Hl Ht. by apply Hr; [apply Hsr|].
  - intros id i Hl Ht. by apply Hi; [apply Hsi|].
  - intros c Hl Ht. by apply Hc; [apply Hsc|].
  - intros id Hp. destruct (Hre id Hp) as (r & Hl & Ht). exists r. split; [by apply Hsr|done].
  - intros run id Hp. destruct (Hie run id Hp) as (i & Hl & Ht & Hrun). exists i. split; [by apply Hsi|done].
Qed.

(** ** A step moves its conversation along the phases *)

Section phase_of_rows.
Context {l : lstate} {t : string} {p : phase} (Hp : lphase l t p).

Lemma phase_live id r : l.(l_runs) !! id = Some r → r.(lr_thread) = t → is_live r.(lr_state) = true → p = PLive id.
Proof using Hp. intros Hl Ht Hlive. pose proof (lp_run _ _ _ Hp id r Hl Ht). by destruct (lr_state r). Qed.

Lemma phase_waiting id i : l.(l_ints) !! id = Some i → i.(li_thread) = t → i.(li_state) = IPending →
  p = PWaiting i.(li_run) id.
Proof using Hp. intros Hl Ht Hs. by apply (lp_int _ _ _ Hp id i Hl Ht). Qed.

Lemma phase_idle : no_live t l → no_wait t l → p = PIdle.
Proof using Hp.
  intros Hlive Hwait. destruct p as [|run|run id]; [done|..].
  - destruct (lp_run_exists _ _ _ Hp run eq_refl) as (r & Hr & Ht).
    pose proof (lp_run _ _ _ Hp run r Hr Ht) as Hin. specialize (Hlive run r Hr Ht).
    destruct (lr_state r); simpl in *; naive_solver.
  - destruct (lp_int_exists _ _ _ Hp run id eq_refl) as (i & Hi & Ht & Hrun).
    destruct (Hwait id i Hi Ht). apply (lp_int _ _ _ Hp id i Hi Ht). by rewrite Hrun.
Qed.

(** In phase [p], the phase's own run is the only one that is not terminal. *)
Lemma phase_other id r : l.(l_runs) !! id = Some r → r.(lr_thread) = t → phase_run p ≠ Some id →
  terminal r.(lr_state) = true.
Proof using Hp.
  intros Hl Ht Hne. pose proof (lp_run _ _ _ Hp id r Hl Ht). destruct (lr_state r); naive_solver.
Qed.
End phase_of_rows.

Lemma terminal_in_phase p id st : terminal st = true → phase_run p ≠ Some id → run_in_phase p id st.
Proof. by destruct st. Qed.

Lemma not_waiting_int l t p : lphase l t p → (∀ run id, p ≠ PWaiting run id) →
  ∀ id i, l.(l_ints) !! id = Some i → i.(li_thread) = t → i.(li_state) ≠ IPending.
Proof. intros Hp Hn id i Hl Ht Hs. by eapply Hn, (phase_waiting Hp). Qed.

(** The phase after the phase's run became terminal. *)
Lemma phase_to_idle l t run r cmds :
  lphase l t (PLive run) → r.(lr_thread) = t → terminal r.(lr_state) = true →
  (∀ c, c ∈ cmds → c.(cm_thread) = t → pending_command c = true → ∃ c', c' ∈ l.(l_cmds) ∧ c'.(cm_thread) = t ∧
     pending_command c' = true ∧ c'.(cm_exec) ≠ run) →
  lphase (mk_l l.(l_epochs) (<[run := r]> l.(l_runs)) l.(l_ints) cmds) t PIdle.
Proof.
  intros Hp Ht Hterm Hcmds. split; simpl; [| | |done|done].
  - intros id r' [[<- <-]|[Hne Hl]]%lookup_insert_Some Ht'; [by apply terminal_in_phase|].
    apply terminal_in_phase; [|done]. eapply (phase_other Hp); eauto. simpl. congruence.
  - intros id i Hl Ht'. split; [|done]. intros Hs. by eapply not_waiting_int in Hp.
  - intros c Hin Hct Hpend. destruct (Hcmds c Hin Hct Hpend) as (c' & Hin' & Ht' & Hp' & Hex).
    pose proof (lp_cmd _ _ _ Hp c' Hin' Ht' Hp'). congruence.
Qed.

Lemma disposed_pending t run reason l c : reason ≠ "" →
  c ∈ dispose t run reason l → c.(cm_thread) = t → pending_command c = true →
  c ∈ l ∧ c.(cm_exec) ≠ run.
Proof.
  intros Hne (c' & Heq & Hin)%list_elem_of_fmap Ht Hp.
  destruct (command_of t run c' && pending_command c') eqn:E.
  - subst. unfold pending_command in Hp. simpl in Hp. gosimpl. done.
  - subst c'. split; [done|]. intros Hex. rewrite Hp, andb_true_r in E.
    unfold command_of in E. by rewrite !bool_decide_eq_true_2 in E by done.
Qed.

Lemma included_pending t run comm l c :
  c ∈ include t run comm l → pending_command c = true → c ∈ l.
Proof.
  intros (c' & Heq & Hin)%list_elem_of_fmap Hp.
  destruct (command_of t run c' && _ && pending_command c') eqn:E; subst; [|done].
  by unfold pending_command in Hp.
Qed.

Lemma state_name_nonempty st : state_name st ≠ "".
Proof. by destruct st. Qed.

(** Replacing the phase's run by one in the same class keeps the phase. *)
Lemma phase_keep_live l t run r epochs :
  lphase l t (PLive run) → r.(lr_thread) = t → is_live r.(lr_state) = true →
  lphase (mk_l epochs (<[run := r]> l.(l_runs)) l.(l_ints) l.(l_cmds)) t (PLive run).
Proof.
  intros Hp Ht Hlive. pose proof Hp as [Hr Hi Hc Hre Hie]. split; simpl; [|done|done| |done].
  - intros id r' [[<- <-]|[Hne Hl]]%lookup_insert_Some Ht'; [by destruct (lr_state r)|by apply Hr].
  - intros id [= <-]. exists r. by rewrite lookup_insert_eq.
Qed.

Lemma phase_steer l t run c :
  lphase l t (PLive run) → (c.(cm_thread) = t → c.(cm_exec) = run) →
  lphase (mk_l l.(l_epochs) l.(l_runs) l.(l_ints) (l.(l_cmds) ++ [c])) t (PLive run).
Proof.
  intros [Hr Hi Hc Hre Hie] Hex. split; simpl; [done|done| |done|done].
  intros c' [Hin| ->%list_elem_of_singleton]%elem_of_app Ht Hpend; [by apply Hc|by rewrite Hex].
Qed.

(** An idle conversation gets a new run. *)
Lemma phase_fresh l t run c :
  lphase l t PIdle → l.(l_runs) !! run = None → c.(cm_exec) = run →
  lphase (mk_l l.(l_epochs) (<[run := mk_lrun t RunPending 0]> l.(l_runs)) l.(l_ints) (l.(l_cmds) ++ [c]))
    t (PLive run).
Proof.
  intros Hp Hnone Hex. split; simpl; [| | | |done].
  - intros id r [[<- <-]|[Hne Hl]]%lookup_insert_Some Ht; [done|].
    apply terminal_in_phase; [by eapply (phase_other Hp)|]. simpl. congruence.
  - intros id i Hl Ht. split; [|done]. intros Hs. by eapply not_waiting_int in Hp.
  - intros c' [Hin| ->%list_elem_of_singleton]%elem_of_app Ht Hpend; [|by rewrite Hex].
    by pose proof (lp_cmd _ _ _ Hp c' Hin Ht Hpend).
  - intros id [= <-]. eexists. by rewrite lookup_insert_eq.
Qed.

(** A waiting run is resolved, its interaction with it. *)
Lemma phase_resolve l t id i i' st r :
  lphase l t (PWaiting i.(li_run) id) → l.(l_ints) !! id = Some i → i'.(li_thread) = t →
  i'.(li_state) ≠ IPending → l.(l_runs) !! i.(li_run) = Some r → r.(lr_thread) = t → terminal st = true →
  lphase (mk_l l.(l_epochs) (<[i.(li_run) := settle st r]> l.(l_runs)) (<[id := i']> l.(l_ints)) l.(l_cmds))
    t PIdle.
Proof.
  intros Hp Hi Ht' Hs' Hr Ht Hst.
  assert (r.(lr_state) = RunAwaitingInput) as Haw.
  { pose proof (lp_run _ _ _ Hp _ _ Hr Ht) as Hin. destruct (lr_state r); simpl in Hin; naive_solver. }
  split; simpl; [| | |done|done].
  - intros id' r' [[<- <-]|[Hne Hl]]%lookup_insert_Some Ht''.
    + unfold settle. rewrite bool_decide_eq_true_2 by done. by apply terminal_in_phase.
    + apply terminal_in_phase; [|done]. eapply (phase_other Hp); eauto. simpl. congruence.
  - intros id' j [[<- <-]|[Hne Hl]]%lookup_insert_Some Hj; (split; [|done]); intros Hs; [done|].
    pose proof (phase_waiting Hp id' j Hl Hj Hs). congruence.
  - intros c Hin Hct Hpend. by pose proof (lp_cmd _ _ _ Hp c Hin Hct Hpend).
Qed.

Lemma phase_wait l t run id ep :
  lphase l t (PLive run) → no_pending t run l → l.(l_ints) !! id = None →
  lphase (mk_l l.(l_epochs) (<[run := mk_lrun t RunAwaitingInput ep]> l.(l_runs))
    (<[id := mk_lint t run IPending None]> l.(l_ints)) l.(l_cmds)) t (PWaiting run id).
Proof.
  intros Hp Hnp Hid. split; simpl.
  - intros id' r' [[<- <-]|[Hne Hl]]%lookup_insert_Some Ht; [by exists id|].
    apply terminal_in_phase; [eapply (phase_other Hp); eauto|]; simpl; congruence.
  - intros id' i [[<- <-]|[Hne Hl]]%lookup_insert_Some Ht; [done|]. split; [|congruence].
    intros Hs. by pose proof (phase_waiting Hp id' i Hl Ht Hs).
  - intros c Hin Hct Hpend. pose proof (lp_cmd _ _ _ Hp c Hin Hct Hpend) as [= Hex].
    specialize (Hnp c Hin). rewrite Hnp in Hpend; [done|].
    unfold command_of. by rewrite !bool_decide_eq_true_2 by done.
  - intros id' [= <-]. eexists. by rewrite lookup_insert_eq.
  - intros run' id' [= <- <-]. eexists. by rewrite lookup_insert_eq.
Qed.

Lemma lstep_phase_aux t l l' p : lstep t l l' → lphase l t p →
  ∃ p', lphase l' t p' ∧ phase_step p p'.
Proof.
  intros Hstep Hp. destruct Hstep as
    [He|comm run payload He Hlive Hwait Hnone Hf|comm run payload exec r Hr Ht Hlive Hwait Hf|run comm
    |run ep0 e Hr He|run r Hr Ht Hlive|id i r Hi Hit His Hr Ht|run id ep Hr Hnp Hid
    |comm run payload reason id i r Hi Hit His Hr Ht Hnone Hf|run st ep Hr Hst Hnp].
  - exists p. split; [|constructor]. by destruct Hp.
  - assert (p = PIdle) as -> by (by apply (phase_idle Hp)). exists (PLive run). split; [by apply phase_fresh|constructor].
  - pose proof (phase_live Hp _ _ Hr Ht Hlive) as ->. exists (PLive exec).
    split; [by apply phase_steer|constructor].
  - exists p. split; [|constructor]. destruct Hp as [Hr Hi Hc Hre Hie]. split; try done.
    intros c Hin Ht Hpend. apply Hc; [|done|done]. by eapply included_pending.
  - pose proof (phase_live Hp _ _ Hr eq_refl eq_refl) as ->. exists (PLive run).
    split; [by apply phase_keep_live|constructor].
  - pose proof (phase_live Hp _ _ Hr Ht Hlive) as ->. exists PIdle. split; [|constructor].
    apply phase_to_idle; [done|done|done|]. intros c Hin Hct Hpend.
    apply disposed_pending in Hin as [Hin Hex]; [|done|done|done]. by exists c.
  - pose proof (phase_waiting Hp _ _ Hi Hit His) as ->. exists PIdle. split; [|constructor].
    by apply phase_resolve.
  - pose proof (phase_live Hp _ _ Hr eq_refl eq_refl) as ->. exists (PWaiting run id).
    split; [by apply phase_wait|constructor].
  - pose proof (phase_waiting Hp _ _ Hi Hit His) as ->. exists (PLive run). split; [|constructor].
    rewrite insert_insert_ne by congruence.
    assert (lphase (mk_l l.(l_epochs) (<[i.(li_run) := settle RunCompleted r]> l.(l_runs))
      (<[id := mk_lint t i.(li_run) IConsumed (Some run)]> l.(l_ints)) l.(l_cmds)) t PIdle) as Hidle.
    { by apply phase_resolve. }
    apply (phase_fresh _ t run (mk_command t comm run payload run false reason)) in Hidle; [done| |done].
    simpl. rewrite lookup_insert_ne by congruence. done.
  - pose proof (phase_live Hp _ _ Hr eq_refl eq_refl) as ->. exists PIdle. split; [|constructor].
    apply phase_to_idle; [done|done|done|]. intros c Hin Hct Hpend. case_bool_decide as Hcomp.
    + exists c. split_and!; [done..|]. intros Hex. specialize (Hnp Hcomp c Hin).
      rewrite Hnp in Hpend; [done|]. unfold command_of. by rewrite !bool_decide_eq_true_2 by done.
    + apply disposed_pending in Hin as [Hin Hex]; [|apply state_name_nonempty|done|done]. by exists c.
Qed.

(** Every conversation is in a phase. *)
Definition in_phases (l : lstate) : Prop := ∀ t, ∃ p, lphase l t p.

Lemma in_phases_empty : in_phases (core empty_db).
Proof.
  intros t. exists PIdle. split; simpl.
  - intros id r Hl. by rewrite fmap_empty, lookup_empty in Hl.
  - intros id i Hl. by rewrite fmap_empty, lookup_empty in Hl.
  - intros c Hin. by apply elem_of_nil in Hin.
  - done.
  - done.
Qed.

Lemma in_phases_step t l l' : lstep t l l' → in_phases l → in_phases l'.
Proof.
  intros Hstep Hin t'. destruct (Hin t') as [p Hp]. destruct (decide (t = t')) as [<-|Hne].
  - destruct (lstep_phase_aux t l l' p Hstep Hp) as (p' & Hp' & _). by exists p'.
  - exists p. eapply lphase_same; [by eapply lstep_other|done].
Qed.

(** ** Runs move along their state machine *)

Inductive run_move : RunState → RunState → Prop :=
| rm_claim : run_move RunPending RunRunning
| rm_expire_pending : run_move RunPending RunInterrupted
| rm_wait : run_move RunRunning RunAwaitingInput
| rm_finish st : terminal st = true → run_move RunRunning st
| rm_reply : run_move RunAwaitingInput RunCompleted
| rm_wait_expired : run_move RunAwaitingInput RunFailed.

(** Rows never disappear and keep their conversation; the state moves or
    stays, and only a claim changes the epoch. *)
Definition run_evolves (r r' : lrun) : Prop :=
  r'.(lr_thread) = r.(lr_thread) ∧
  (r'.(lr_state) = r.(lr_state) ∨ run_move r.(lr_state) r'.(lr_state)) ∧
  (r'.(lr_epoch) = r.(lr_epoch) ∨ r.(lr_state) = RunPending ∧ r'.(lr_state) = RunRunning).

Lemma settle_evolves st r : run_move RunAwaitingInput st → run_evolves r (settle st r).
Proof.
  intros Hm. unfold settle, run_evolves. case_bool_decide as Haw; simpl; [|by auto].
  split_and!; [done| |by left]. right. by rewrite Haw.
Qed.

Lemma interrupt_evolves r : is_live r.(lr_state) = true →
  run_evolves r (mk_lrun r.(lr_thread) RunInterrupted r.(lr_epoch)).
Proof.
  intros Hl. split_and!; simpl; [done| |by left]. right.
  destruct (lr_state r); try done; constructor. done.
Qed.

Lemma run_evolves_refl r : run_evolves r r.
Proof. split_and!; by auto. Qed.

Lemma lookup_insert_evolves (m : gmap string lrun) k v id r :
  m !! id = Some r → (k = id → run_evolves r v) → ∃ r', <[k := v]> m !! id = Some r' ∧ run_evolves r r'.
Proof.
  intros Hl Hv. destruct (decide (k = id)) as [<-|Hne].
  - exists v. rewrite lookup_insert_eq. by auto.
  - exists r. rewrite lookup_insert_ne by done. split; [done|apply run_evolves_refl].
Qed.

Lemma lstep_run_aux t l l' id r : lstep t l l' → l.(l_runs) !! id = Some r →
  ∃ r', l'.(l_runs) !! id = Some r' ∧ run_evolves r r'.
Proof.
  intros Hstep Hl. destruct Hstep; simpl;
    try (by exists r; split; [done|apply run_evolves_refl]);
    try (apply lookup_insert_evolves; [done|]; intros <-; simplify_eq).
  - split_and!; simpl; [done|right; constructor|by right].
  - by apply interrupt_evolves.
  - by apply settle_evolves, rm_wait_expired.
  - split_and!; simpl; [done|right; constructor|by left].
  - rewrite insert_insert_ne by congruence.
    destruct (lookup_insert_evolves (<[li_run i:=settle RunCompleted r0]> (l_runs l)) run
      (mk_lrun t RunPending 0) id (if decide (li_run i = id) then settle RunCompleted r0 else r)) as (r' & Hr' & Hev).
    + case_decide; subst; [by rewrite lookup_insert_eq|by rewrite lookup_insert_ne].
    + intros ->. congruence.
    + exists r'. split; [done|]. case_decide; subst; [|done]. simplify_eq.
      destruct (decide (run = li_run i)); [congruence|].
      rewrite lookup_insert_ne, lookup_insert_eq in Hr' by done. simplify_eq.
      by apply settle_evolves, rm_reply.
  - split_and!; simpl; [done|right; by constructor|by left].
Qed.

(** ** Well-formed rows *)

(** The immutable columns of a command: conversation, communication, run and
    execution run. *)
Definition cmd_key (c : command_row) : string * string * string * string :=
  (c.(cm_thread), c.(cm_comm), c.(cm_run), c.(cm_exec)).
Definition keys (l : lstate) : list (string * string * string * string) := cmd_key <$> l.(l_cmds).

Record lwf (l : lstate) : Prop := {
  lw_nonneg : ∀ t e, l.(l_epochs) !! t = Some e → 0 <= e;
  lw_epoch : ∀ id r, l.(l_runs) !! id = Some r →
    ∃ e, l.(l_epochs) !! r.(lr_thread) = Some e ∧ 0 <= r.(lr_epoch) <= e;
  lw_pending : ∀ id r, l.(l_runs) !! id = Some r → r.(lr_state) = RunPending → r.(lr_epoch) = 0;
  lw_epoch_inj : ∀ id1 id2 r1 r2, l.(l_runs) !! id1 = Some r1 → l.(l_runs) !! id2 = Some r2 →
    r1.(lr_thread) = r2.(lr_thread) → r1.(lr_epoch) = r2.(lr_epoch) → r1.(lr_epoch) ≠ 0 → id1 = id2;
  lw_exec : ∀ th co ru ex, (th, co, ru, ex) ∈ keys l → ∃ r, l.(l_runs) !! ex = Some r ∧ r.(lr_thread) = th;
  lw_first : ∀ id r, l.(l_runs) !! id = Some r → ∃ co, (r.(lr_thread), co, id, id) ∈ keys l;
  lw_run_ids : NoDup ((λ k, k.1.2) <$> keys l);
  lw_comm_ids : NoDup ((λ k, k.1.1) <$> keys l);
  lw_int : ∀ id i, l.(l_ints) !! id = Some i →
    ∃ r, l.(l_runs) !! i.(li_run) = Some r ∧ r.(lr_thread) = i.(li_thread);
}.

Lemma map_keys cond f (l : list command_row) : (∀ c, cmd_key (f c) = cmd_key c) →
  cmd_key <$> ((λ c, if (cond c : bool) then f c else c) <$> l) = cmd_key <$> l.
Proof.
  intros Hf. rewrite <- list_fmap_compose. apply list_fmap_ext. intros i c _. simpl.
  by destruct (cond c).
Qed.

Lemma dispose_keys t run reason l : cmd_key <$> dispose t run reason l = cmd_key <$> l.
Proof. by apply (map_keys _ (upd_cm_terminal (λ _, reason))). Qed.
Lemma include_keys t run comm l : cmd_key <$> include t run comm l = cmd_key <$> l.
Proof. by apply (map_keys _ (upd_cm_included (λ _, true))). Qed.

(** Commands are only ever appended, with fresh IDs and to an existing run or
    the run they start. *)
Lemma lstep_keys t l l' : lstep t l l' → keys l' = keys l ∨
  ∃ comm run exec, keys l' = keys l ++ [(t, comm, run, exec)] ∧ fresh_command t comm run l ∧
    ∃ r, l'.(l_runs) !! exec = Some r ∧ r.(lr_thread) = t.
Proof.
  unfold keys. intros Hstep. destruct Hstep; simpl; try (by left); rewrite ?dispose_keys, ?include_keys; try (by left).
  - right. exists comm, run, run. rewrite fmap_app, lookup_insert_eq. eauto.
  - right. exists comm, run, exec. rewrite fmap_app. eauto.
  - right. exists comm, run, run. rewrite fmap_app, lookup_insert_ne, lookup_insert_eq by congruence. eauto.
  - left. case_bool_decide; [done|]. by rewrite dispose_keys.
Qed.

(** Where a run of the new state comes from. *)
Lemma lstep_run_back t l l' id r' : lstep t l l' → l'.(l_runs) !! id = Some r' →
  (∃ r, l.(l_runs) !! id = Some r ∧ r'.(lr_thread) = r.(lr_thread) ∧ r'.(lr_epoch) = r.(lr_epoch) ∧
        (r'.(lr_state) = RunPending → r.(lr_state) = RunPending)) ∨
  (r' = mk_lrun t RunPending 0 ∧
     (is_Some (l.(l_epochs) !! t) ∨ ∃ id0 r0, l.(l_runs) !! id0 = Some r0 ∧ r0.(lr_thread) = t) ∧ ∃ co, (t, co, id, id) ∈ keys l') ∨
  (∃ e, l.(l_epochs) !! t = Some e ∧ l'.(l_epochs) !! t = Some (e + 1) ∧ r'.(lr_thread) = t ∧
        r'.(lr_epoch) = e + 1 ∧ r'.(lr_state) = RunRunning ∧ is_Some (l.(l_runs) !! id) ∧
        (∀ id' r, id' ≠ id → l'.(l_runs) !! id' = Some r → l.(l_runs) !! id' = Some r)).
Proof.
  intros Hstep.
  assert (∀ (m : gmap string lrun) k v, <[k := v]> m !! id = Some r' → m = l.(l_runs) →
    (k = id → ∃ r, l.(l_runs) !! k = Some r ∧ v.(lr_thread) = r.(lr_thread) ∧ v.(lr_epoch) = r.(lr_epoch) ∧
        (v.(lr_state) = RunPending → r.(lr_state) = RunPending)) →
    ∃ r, l.(l_runs) !! id = Some r ∧ r'.(lr_thread) = r.(lr_thread) ∧ r'.(lr_epoch) = r.(lr_epoch) ∧
        (r'.(lr_state) = RunPending → r.(lr_state) = RunPending)) as Hkeep.
  { intros m k v [[-> ->]|[Hne Hl]]%lookup_insert_Some -> Hv; [by apply Hv|]. by exists r'. }
  assert (∀ st r, st ≠ RunPending → (settle st r).(lr_thread) = r.(lr_thread) ∧
     (settle st r).(lr_epoch) = r.(lr_epoch) ∧ ((settle st r).(lr_state) = RunPending → r.(lr_state) = RunPending)) as Hset.
  { intros st r Hst. unfold settle. case_bool_decide; simpl; naive_solver. }
  assert (∀ l0 c, (c.(cm_thread), c.(cm_comm), c.(cm_run), c.(cm_exec)) ∈ cmd_key <$> (l0 ++ [c])) as Hsnoc.
  { intros l0 c. rewrite fmap_app. apply elem_of_app. right. apply list_elem_of_here. }
  destruct Hstep; simpl; intros Hl; try (by left; exists r').
  - apply lookup_insert_Some in Hl as [[<- <-]|[Hne Hl]]; [|by left; exists r'].
    right. left. split_and!; [done|by left|]. exists comm.
    apply (Hsnoc (l_cmds l) (mk_command t comm run payload run false "")).
  - apply lookup_insert_Some in Hl as [[<- <-]|[Hne Hl]]; [|by left; exists r'].
    right. right. exists e. rewrite lookup_insert_eq. split_and!; try done.
    intros id' r Hid. by rewrite lookup_insert_ne.
  - left. eapply Hkeep; [done..|]. intros _. exists r. by subst.
  - left. eapply Hkeep; [done..|]. intros _. exists r. split; [done|]. by apply Hset.
  - left. eapply Hkeep; [done..|]. intros _. eexists. split; [done|]. naive_solver.
  - apply lookup_insert_Some in Hl as [[<- <-]|[Hne Hl]].
    + left. exists r. split; [done|]. by apply Hset.
    + apply lookup_insert_Some in Hl as [[<- <-]|[Hne' Hl]]; [|by left; exists r'].
      right. left. split_and!; [done|by eauto|]. exists comm.
      apply (Hsnoc (l_cmds l) (mk_command t comm run payload run false reason)).
  - left. eapply Hkeep; [done..|]. intros _. eexists. split; [done|]. simpl.
    split_and!; [done|done|]. intros ->. done.
Qed.

Lemma lstep_epochs t l l' t' e : lstep t l l' → l.(l_epochs) !! t' = Some e →
  ∃ e', l'.(l_epochs) !! t' = Some e' ∧ e <= e'.
Proof.
  intros Hstep He. destruct Hstep; simpl; try (by exists e).
  - exists e. rewrite lookup_insert_ne by congruence. done.
  - destruct (decide (t = t')) as [<-|Hne].
    + rewrite lookup_insert_eq. exists (e0 + 1). simplify_eq. split; [done|lia].
    + exists e. by rewrite lookup_insert_ne.
Qed.

Lemma lstep_epochs_back t l l' t' e : lstep t l l' → l'.(l_epochs) !! t' = Some e →
  e = 0 ∨ ∃ e0, l.(l_epochs) !! t' = Some e0 ∧ e0 <= e.
Proof.
  intros Hstep. destruct Hstep; simpl; intros He; try (right; by exists e);
    (apply lookup_insert_Some in He as [[<- <-]|[Hne He]]; [|right; by exists e]); [by left|].
  right. exists e0. split; [done|lia].
Qed.

Lemma lstep_ints t l l' id i : lstep t l l' → l'.(l_ints) !! id = Some i →
  (∃ i0, l.(l_ints) !! id = Some i0 ∧ i.(li_thread) = i0.(li_thread) ∧ i.(li_run) = i0.(li_run)) ∨
  ∃ r, l.(l_runs) !! i.(li_run) = Some r ∧ r.(lr_thread) = i.(li_thread).
Proof.
  intros Hstep. destruct Hstep; simpl; intros Hi; try (by left; exists i);
    (apply lookup_insert_Some in Hi as [[<- <-]|[Hne Hi]]; [|by left; exists i]); simpl; eauto.
Qed.

Lemma NoDup_snoc {A} (l : list A) x : NoDup l → x ∉ l → NoDup (l ++ [x]).
Proof. intros Hl Hx. apply NoDup_app. split; [done|]. split; [set_solver|apply NoDup_singleton]. Qed.

Lemma lstep_wf t l l' : lstep t l l' → lwf l → lwf l'.
Proof.
  intros Hstep Hwf.
  pose proof (λ id r', lstep_run_back t l l' id r' Hstep) as Hback.
  pose proof (λ id r, lstep_run_aux t l l' id r Hstep) as Hfwd.
  pose proof (λ t' e, lstep_epochs t l l' t' e Hstep) as Hep.
  pose proof (lstep_keys t l l' Hstep) as Hkeys.
  assert (∀ k, k ∈ keys l → k ∈ keys l') as Hksub.
  { intros k Hk. destruct Hkeys as [->|(co & ru & ex & -> & _)]; [done|set_solver]. }
  destruct Hwf as [W0 We Wp Wi Wx Wf Wr Wc Wn]. split.
  - intros t' e He. destruct (lstep_epochs_back t l l' t' e Hstep He) as [->|(e0 & He0 & ?)]; [done|].
    specialize (W0 _ _ He0). lia.
  - intros id r' Hl. destruct (Hback id r' Hl) as [(r & Hr & -> & -> & _)|[(-> & Ht & _)|(e & He & He' & -> & -> & _)]].
    + destruct (We id r Hr) as (e & He & Hle). destruct (Hep _ _ He) as (e' & He' & ?). exists e'. split; [done|lia].
    + simpl. assert (is_Some (l_epochs l !! t)) as [e He].
      { destruct Ht as [?|(id0 & r0 & Hr0 & <-)]; [done|]. destruct (We id0 r0 Hr0) as (e & He & _). by exists e. }
      destruct (Hep _ _ He) as (e' & He' & ?). exists e'. specialize (W0 _ _ He). split; [done|lia].
    + exists (e + 1). specialize (W0 _ _ He). split; [done|lia].
  - intros id r' Hl Hs. destruct (Hback id r' Hl) as [(r & Hr & _ & -> & Hst)|[(-> & _)|(e & _ & _ & _ & _ & Hst & _)]];
      [by eapply Wp, Hst|done|congruence].
  - assert (∀ id1 id2 r1 r2, l'.(l_runs) !! id1 = Some r1 → l'.(l_runs) !! id2 = Some r2 →
      r1.(lr_thread) = r2.(lr_thread) → r1.(lr_epoch) = r2.(lr_epoch) → r1.(lr_epoch) ≠ 0 →
      (∀ e, l.(l_epochs) !! t = Some e → r1.(lr_thread) = t → r1.(lr_epoch) = e + 1 →
         (∀ id r, id ≠ id1 → l'.(l_runs) !! id = Some r → l.(l_runs) !! id = Some r) → id1 = id2)) as Hclaim.
    { intros id1 id2 r1 r2 H1 H2 Ht He H0 e Hle Ht1 He1 Hsame. destruct (decide (id2 = id1)) as [->|Hne]; [done|].
      destruct (We id2 r2 (Hsame _ _ Hne H2)) as (e2 & He2 & Hb).
      rewrite <- Ht, Ht1 in He2. simplify_eq. lia. }
    intros id1 id2 r1 r2 H1 H2 Ht He H0.
    destruct (Hback id1 r1 H1) as [(o1 & Ho1 & Ht1 & He1 & _)|[(-> & _)|(e & Hle & _ & Ht1 & He1 & _ & _ & Hs)]]; [|done|eauto].
    destruct (Hback id2 r2 H2) as [(o2 & Ho2 & Ht2 & He2 & _)|[(-> & _)|(e & Hle & _ & Ht2 & He2 & _ & _ & Hs)]].
    + eapply Wi; eauto; congruence.
    + by rewrite He in H0.
    + symmetry. eapply (Hclaim id2 id1 r2 r1); eauto; congruence.
  - intros th co ru ex Hk.
    assert ((th, co, ru, ex) ∈ keys l ∨ ∃ r, l'.(l_runs) !! ex = Some r ∧ r.(lr_thread) = th) as [Hin|?]; [| |done].
    { destruct Hkeys as [<-|(co' & ru' & ex' & Heq & _ & Hr)]; [by left|]. rewrite Heq in Hk.
      apply elem_of_app in Hk as [?|[= -> -> -> ->]%list_elem_of_singleton]; [by left|by right]. }
    destruct (Wx th co ru ex Hin) as (r & Hr & <-). destruct (Hfwd ex r Hr) as (r' & Hr' & Ht & _). by exists r'.
  - intros id r' Hl. destruct (Hback id r' Hl) as [(r & Hr & -> & _)|[(-> & _ & co & Hk)|(e & _ & _ & _ & _ & _ & [r Hr] & _)]].
    + destruct (Wf id r Hr) as (co & Hk). exists co. by apply Hksub.
    + by exists co.
    + destruct (Hfwd id r Hr) as (r1 & Hr1 & Ht & _). simplify_eq. rewrite Ht.
      destruct (Wf id r Hr) as (co & Hk). exists co. by apply Hksub.
  - destruct Hkeys as [->|(co & ru & ex & -> & Hf & _)]; [done|].
    rewrite fmap_app. apply NoDup_snoc; [done|]. unfold keys. rewrite <- list_fmap_compose.
    intros (c & Heq & Hin)%list_elem_of_fmap. by destruct (Hf c Hin) as [_ []].
  - destruct Hkeys as [->|(co & ru & ex & -> & Hf & _)]; [done|].
    rewrite fmap_app. apply NoDup_snoc; [done|]. unfold keys. rewrite <- list_fmap_compose.
    intros (c & Heq & Hin)%list_elem_of_fmap. simpl in Heq. destruct (Hf c Hin) as [[] _].
    by simplify_eq.
  - intros id i' Hi. destruct (lstep_ints t l l' id i' Hstep Hi) as [(i & Hi0 & -> & ->)|(r & Hr & Ht)].
    + destruct (Wn id i Hi0) as (r & Hr & <-). destruct (Hfwd _ r Hr) as (r' & Hr' & Ht & _). by exists r'.
    + destruct (Hfwd _ r Hr) as (r' & Hr' & Ht' & _). exists r'. split; [done|congruence].
Qed.

(** ** The phase is determined by the rows *)

Lemma phase_run_unique l t p p' id : lphase l t p → lphase l t p' → phase_run p = Some id →
  phase_run p' = Some id.
Proof.
  intros Hp Hp' Hid. destruct (lp_run_exists _ _ _ Hp id Hid) as (r & Hr & Ht).
  pose proof (lp_run _ _ _ Hp id r Hr Ht) as H1. pose proof (lp_run _ _ _ Hp' id r Hr Ht) as H2.
  destruct (lr_state r); simpl in *; try done; naive_solver.
Qed.

Lemma phase_unique l t p p' : lphase l t p → lphase l t p' → p = p'.
Proof.
  intros Hp Hp'.
  assert (∀ q q', lphase l t q → lphase l t q' → ∀ run id, q = PWaiting run id → q' = PWaiting run id) as Hw.
  { intros q q' Hq Hq' run id ->. destruct (lp_int_exists _ _ _ Hq run id eq_refl) as (i & Hi & Ht & <-).
    apply (lp_int _ _ _ Hq' id i Hi Ht). by apply (lp_int _ _ _ Hq id i Hi Ht). }
  destruct p as [|run|run id]; [|destruct p' as [|run'|run' id']|symmetry; exact (Hw _ _ Hp Hp' run id eq_refl)].
  - destruct p' as [|run'|run' id']; [done|..];
      by pose proof (phase_run_unique _ _ _ _ run' Hp' Hp eq_refl).
  - by pose proof (phase_run_unique _ _ _ _ run Hp Hp' eq_refl).
  - pose proof (phase_run_unique _ _ _ _ run Hp Hp' eq_refl) as [= ->]. done.
  - by pose proof (Hw _ _ Hp' Hp run' id' eq_refl).
Qed.

(** ** Commands are immutable but for one disposition *)

Definition cmd_evolves (c c' : command_row) : Prop :=
  cmd_key c' = cmd_key c ∧ c'.(cm_payload) = c.(cm_payload) ∧
  (pending_command c = false → c' = c).

#[export] Instance cmd_evolves_preorder : PreOrder cmd_evolves.
Proof.
  split; [by intros c|]. intros c1 c2 c3 (K1 & P1 & D1) (K2 & P2 & D2).
  split_and!; [congruence..|]. intros Hp. specialize (D1 Hp). subst. by apply D2.
Qed.

Definition cmds_evolve (l l' : list command_row) : Prop :=
  ∃ old new, l' = old ++ new ∧ Forall2 cmd_evolves l old.

Lemma cmds_evolve_map (cond : command_row → bool) f l :
  (∀ c, cond c = true → cmd_evolves c (f c)) → cmds_evolve l ((λ c, if cond c then f c else c) <$> l).
Proof.
  intros Hf. eexists _, []. split; [by rewrite app_nil_r|]. apply Forall2_fmap_r, Forall_Forall2_diag.
  apply Forall_forall. intros c _. simpl. destruct (cond c) eqn:E; [by apply Hf|reflexivity].
Qed.

Lemma cmds_evolve_snoc l new : cmds_evolve l (l ++ new).
Proof. exists l, new. split; [done|]. apply Forall_Forall2_diag, Forall_forall. reflexivity. Qed.

#[export] Instance cmds_evolve_preorder : PreOrder cmds_evolve.
Proof.
  split.
  - intros l. rewrite <- (app_nil_r l) at 2. apply cmds_evolve_snoc.
  - intros l1 l2 l3 (o1 & n1 & -> & F1) (o2 & n2 & -> & F2).
    apply Forall2_app_inv_l in F2 as (o3 & n3 & F3 & _ & ->).
    exists o3, (n3 ++ n2). rewrite app_assoc. split; [done|]. by etransitivity.
Qed.

Lemma lstep_cmds t l l' : lstep t l l' → cmds_evolve l.(l_cmds) l'.(l_cmds).
Proof.
  assert (∀ run reason c, command_of t run c && pending_command c = true →
    cmd_evolves c (upd_cm_terminal (λ _, reason) c)) as Hd.
  { intros run reason c [_ Hp]%andb_true_iff. split_and!; [done..|congruence]. }
  destruct 1; simpl; try reflexivity; try apply cmds_evolve_snoc; try (by apply cmds_evolve_map; eauto).
  - apply cmds_evolve_map. intros c [_ Hp]%andb_true_iff. split_and!; [done..|congruence].
  - case_bool_decide; [reflexivity|]. by apply cmds_evolve_map; eauto.
Qed.
