(* ===== verification/Keeps.v ===== *)
(** * What a transaction keeps

    [keeps R m]: whenever [m] commits, [R] holds between the database before
    and after.  For a reflexive and transitive [R] this follows statement by
    statement, so it is proved by walking over the transaction's text. *)
From S2P Require Import Prelude GoText Db JournalCore Commands Owners Runs Operations DefinitionStore Records.

Definition keeps {A} (R : relation db) (m : tx A) : Prop := ∀ s a s', m s = Ok (a, s') → R s s'.

(** ** Running a transaction forwards *)

Lemma bind_run {A B} (m : tx A) (f : A → tx B) s a s1 : m s = Ok (a, s1) → (m ≫= f) s = f a s1.
Proof. intros E. unfold mbind, tx_bind. by rewrite E. Qed.
Lemma bind_stop {A B} (m : tx A) (f : A → tx B) s e : m s = Err e → (m ≫= f) s = Err e.
Proof. intros E. unfold mbind, tx_bind. by rewrite E. Qed.
Lemma get_run {A B} (g : db → A) (f : A → tx B) s : (get g ≫= f) s = f (g s) s.
Proof. done. Qed.
Lemma guard_run {B} b e (f : unit → tx B) s : b = true → (guard_tx b e ≫= f) s = f tt s.
Proof. by intros ->. Qed.
Lemma guard_stop {B} b e (f : unit → tx B) s : b = false → (guard_tx b e ≫= f) s = Err e.
Proof. by intros ->. Qed.
Lemma the_run {A B} e (o : option A) x (f : A → tx B) s : o = Some x → (the e o ≫= f) s = f x s.
Proof. by intros ->. Qed.
Lemma modify_run {B} g (f : unit → tx B) s : (modify g ≫= f) s = f tt (g s).
Proof. done. Qed.

Section keeps.
Context (R : relation db) `{HR : !PreOrder R}.

Lemma keeps_ret {A} (a : A) : keeps R (mret a).
Proof using HR. intros s b s' H. txsimpl. reflexivity. Qed.
Lemma keeps_fail {A} e : keeps R (@fail A e).
Proof. intros s b s' H. txsimpl. Qed.
Lemma keeps_get {A} (f : db → A) : keeps R (get f).
Proof using HR. intros s b s' H. txsimpl. reflexivity. Qed.
Lemma keeps_guard b e : keeps R (guard_tx b e).
Proof using HR. intros s a s' H. txsimpl. reflexivity. Qed.
Lemma keeps_the {A} e (o : option A) : keeps R (the e o).
Proof using HR. intros s a s' H. txsimpl. reflexivity. Qed.
Lemma keeps_lift {A} (r : result error A) : keeps R (lift r).
Proof using HR. destruct r; [apply keeps_ret|apply keeps_fail]. Qed.
Lemma keeps_bind {A B} (m : tx A) (f : A → tx B) :
  keeps R m → (∀ a, keeps R (f a)) → keeps R (m ≫= f).
Proof using HR. intros Hm Hf s b s' H. txsimpl. etransitivity; [by eapply Hm|by eapply Hf]. Qed.
Lemma keeps_modify f : (∀ s, R s (f s)) → keeps R (modify f).
Proof. intros Hf s a s' H. txsimpl. apply Hf. Qed.
Lemma keeps_for_each {A} (f : A → tx unit) l : (∀ x, keeps R (f x)) → keeps R (for_each f l).
Proof using HR.
  intros Hf. induction l as [|x l IH]; simpl; [apply keeps_ret|].
  apply keeps_bind; [done|]. by intros _.
Qed.
Lemma keeps_unique_is_conflict {A} (m : tx A) : keeps R m → keeps R (unique_is_conflict m).
Proof. intros Hm s a s'. unfold unique_is_conflict. destruct (m s) as [?|[]] eqn:E; naive_solver. Qed.
Lemma keeps_lockForClaim t p : keeps R (lockForClaim t p).
Proof using HR.
  intros s a s'. unfold lockForClaim, lockConversation, get, fail, guard_tx, mret, tx_ret, mbind, tx_bind.
  repeat case_match; intros; simplify_eq; reflexivity.
Qed.

(** The writes, given what [R] says about each table. *)
Lemma keeps_update_conv t f :
  (∀ s c, s.(convs) !! t = Some c → R s (upd_convs <[t := f c]> s)) → keeps R (update_conv t f).
Proof using HR.
  intros Hf s a s' H. unfold update_conv in H. txsimpl.
  destruct (convs s0 !! t) as [c|] eqn:E; txsimpl; [by apply Hf|reflexivity].
Qed.

Lemma keeps_put_run id r : (∀ s, R s (upd_runs <[id := r]> s)) → keeps R (put_run id r).
Proof. intros Hf s a s' H. unfold put_run in H. txsimpl. apply Hf. Qed.

Lemma keeps_update_run t id cond f :
  (∀ s r, s.(runs) !! id = Some r → R s (upd_runs <[id := f r]> s)) → keeps R (update_run t id cond f).
Proof using HR.
  intros Hf s a s' H. unfold update_run in H. txsimpl.
  destruct (run_of t id s0) as [r|] eqn:E; [|txsimpl; reflexivity].
  destruct (cond r); [|txsimpl; reflexivity].
  unfold put_run in H. txsimpl. apply Hf. unfold run_of in E.
  apply bind_Some in E as (r' & Hr & E). by case_decide; simplify_eq.
Qed.

Lemma keeps_update_interaction t id f :
  (∀ s i, s.(interactions) !! id = Some i → R s (upd_interactions <[id := f i]> s)) →
  keeps R (update_interaction t id f).
Proof using HR.
  intros Hf s a s' H. unfold update_interaction in H. txsimpl.
  destruct (interaction_of t id s0) as [i|] eqn:E; [|txsimpl; reflexivity].
  unfold put_interaction in H. txsimpl. apply Hf. unfold interaction_of in E.
  apply bind_Some in E as (i' & Hi & E). by case_decide; simplify_eq.
Qed.
End keeps.

(** Walks over a transaction, leaving the writes. *)
Ltac keeps_walk :=
  repeat match goal with
  | |- keeps _ (_ ≫= _) => apply keeps_bind; [apply _| |intros ?]
  | |- keeps _ (mret _) => apply keeps_ret, _
  | |- keeps _ (fail _) => apply keeps_fail
  | |- keeps _ (get _) => apply keeps_get, _
  | |- keeps _ (guard_tx _ _) => apply keeps_guard, _
  | |- keeps _ (the _ _) => apply keeps_the, _
  | |- keeps _ (lift _) => apply keeps_lift, _
  | |- keeps _ (as_jsonb _) => apply keeps_the, _
  | |- keeps _ (for_each _ _) => apply keeps_for_each; [apply _|intros ?]
  | |- keeps _ (if ?b then _ else _) => destruct b
  | |- keeps _ (match ?x with _ => _ end) => destruct x
  | |- keeps _ (let '(_, _) := ?x in _) => destruct x
  end.

Section reads.
Context (R : relation db) `{HR : !PreOrder R}.

Lemma keeps_lockConversation t p : keeps R (lockConversation t p).
Proof using HR. unfold lockConversation. keeps_walk. Qed.
Lemma keeps_lockOwner now o : keeps R (lockOwner now o).
Proof using HR. unfold lockOwner. keeps_walk. by apply keeps_lockConversation. Qed.
Lemma keeps_run_scope t run : keeps R (run_scope t run).
Proof using HR. unfold run_scope. keeps_walk. Qed.
Lemma keeps_BeginFunc {A} (m : tx A) : keeps R m → keeps R (BeginFunc m).
Proof using HR. intros Hm. unfold BeginFunc. keeps_walk. done. Qed.
End reads.

Lemma lockConversation_ok t p s a s' : lockConversation t p s = Ok (a, s') →
  s' = s ∧ ∃ c, s.(convs) !! t = Some c ∧ c.(cv_principal) = p.
Proof.
  unfold lockConversation. intros H. apply tx_bind_ok in H as (row & s1 & [= <- <-] & H).
  destruct (convs s !! t) as [c|] eqn:E; [|done]. apply guard_tx_ok in H as [Hp [= _ ->]].
  apply bool_decide_eq_true in Hp. eauto.
Qed.

Lemma run_of_Some t id s r : run_of t id s = Some r ↔ s.(runs) !! id = Some r ∧ r.(rn_thread) = t.
Proof.
  unfold run_of. rewrite bind_Some. split.
  - intros (r' & Hr & E). case_decide; naive_solver.
  - intros [Hr <-]. exists r. by rewrite decide_True.
Qed.

Lemma interaction_of_Some t id s i :
  interaction_of t id s = Some i ↔ s.(interactions) !! id = Some i ∧ i.(in_thread) = t.
Proof.
  unfold interaction_of. rewrite bind_Some. split.
  - intros (r' & Hr & E). case_decide; naive_solver.
  - intros [Hr <-]. exists i. by rewrite decide_True.
Qed.

(** What [lockOwner] tells: the database is as it was, and the owner's run is
    running under it. *)
Record owns (now : Z) (o : Owner) (s : db) (r : run_row) : Prop := {
  ow_run : s.(runs) !! o.(ow_Command).(c_RunID) = Some r;
  ow_thread : r.(rn_thread) = o.(ow_Command).(c_ThreadID);
  ow_running : r.(rn_state) = RunRunning;
  ow_owner : r.(rn_owner) = o.(ow_ID);
  ow_epoch : r.(rn_epoch) = o.(ow_Epoch);
  ow_lease : now < r.(rn_lease);
  ow_conv : ∃ c, s.(convs) !! o.(ow_Command).(c_ThreadID) = Some c ∧
              c.(cv_principal) = o.(ow_Command).(c_Principal);
}.

Lemma lockOwner_ok now o s a s' : lockOwner now o s = Ok (a, s') → s' = s ∧ ∃ r, owns now o s r.
Proof.
  unfold lockOwner. cbv zeta. intros H.
  apply tx_bind_ok in H as (u & s1 & (-> & c & Hc & Hp)%lockConversation_ok & H). txsimpl.
  rename select (_ && _ = true) into Hg. rename select (run_of _ _ _ = _) into Hr.
  rewrite !andb_true_iff, !bool_decide_eq_true, Z.eqb_eq, Z.ltb_lt in Hg.
  apply run_of_Some in Hr as [Hr Ht]. split; [done|]. eexists. split; naive_solver.
Qed.

Lemma update_interaction_ok t id f s a s' i : update_interaction t id f s = Ok (a, s') →
  s.(interactions) !! id = Some i → i.(in_thread) = t → s' = upd_interactions <[id := f i]> s.
Proof.
  unfold update_interaction, put_interaction. intros Hm Hi Ht. tx_get Hm row.
  rewrite (proj2 (interaction_of_Some _ _ _ _) (conj Hi Ht)) in Hm.
  tx_guard Hm Hc. tx_get Hm clash. tx_guard Hm Hu. by txsimpl.
Qed.

Lemma insert_interaction_ok id i s a s' : insert_interaction id i s = Ok (a, s') →
  s.(interactions) !! id = None ∧ s' = upd_interactions <[id := i]> s.
Proof.
  unfold insert_interaction, put_interaction. intros Hm. tx_get Hm old. tx_guard Hm Ho. tx_get Hm run.
  tx_guard Hm Hr. tx_guard Hm Hc. tx_get Hm clash. tx_guard Hm Hu. txsimpl. by apply bool_decide_eq_true in Ho.
Qed.

Lemma run_scope_ok t run s x s' : run_scope t run s = Ok (x, s') →
  s' = s ∧ ∃ r conv product definition, x = (r, conv, product, definition) ∧
    s.(runs) !! run = Some r ∧ r.(rn_thread) = t ∧ s.(convs) !! t = Some conv ∧
    r.(rn_product) = Some product ∧ r.(rn_definition) = Some definition.
Proof.
  unfold run_scope. intros Hm. tx_get Hm row. tx_the Hm r Hr. tx_get Hm row2. tx_the Hm conv Hc.
  tx_the Hm product Hp. tx_the Hm definition Hd. txsimpl. apply run_of_Some in Hr as [Hr Ht].
  split; [done|]. by exists r, conv, product, definition.
Qed.

Lemma lift_ok {A} (r : result error A) s x s' : lift r s = Ok (x, s') → r = Ok x ∧ s' = s.
Proof. destruct r; intros Hm; [by injection Hm as -> ->|done]. Qed.

(** What the updates of one conversation or run leave. *)
Lemma update_conv_ok t f s a s' c : s.(convs) !! t = Some c → update_conv t f s = Ok (a, s') →
  s' = upd_convs <[t := f c]> s.
Proof.
  intros Hc H. unfold update_conv in H. tx_get H row. rewrite Hc in H. tx_guard H Hg. by injection H as _ <-.
Qed.

Lemma update_run_ok t id f s n s' r : s.(runs) !! id = Some r → r.(rn_thread) = t →
  update_run t id (λ _, true) f s = Ok (n, s') → s' = upd_runs <[id := f r]> s.
Proof.
  intros Hr Ht H. unfold update_run in H. tx_get H row. rewrite (proj2 (run_of_Some t id s r) (conj Hr Ht)) in H.
  tx_step H u s1 Hp. injection H as _ <-. unfold put_run in Hp. tx_guard Hp Hc. tx_get Hp clash. tx_guard Hp Hn.
  by injection Hp as _ <-.
Qed.

Lemma appendEvent_ok t e s a s' c : s.(convs) !! t = Some c → appendEvent t e s = Ok (a, s') →
  s'.(runs) = s.(runs) ∧ s'.(convs) = <[t := upd_cv_sequence (λ n, n + 1) c]> s.(convs) ∧
  s'.(events) = s.(events) ++ [(t, with_sequence (c.(cv_sequence) + 1) e)].
Proof.
  intros Hc H. unfold appendEvent in H. tx_get H row. tx_the H c' Hc'. rewrite Hc in Hc'. injection Hc' as <-.
  tx_step H u s1 Hu. apply (update_conv_ok _ _ _ _ _ c Hc) in Hu as ->. tx_get H run. tx_guard H Hr.
  by injection H as _ <-.
Qed.
