(* ===== verification/JournalSim.v ===== *)
(** * The journal implements the life of a conversation

    Every transaction of the journal is, on the columns that [Lifecycle.v]
    keeps, a sequence of the steps it allows. *)
From S2P Require Import Prelude GoText Db CallBinding Interactions JournalCore Commands Owners Runs.
From S2P Require Import Operations DefinitionStore Records Lifecycle Keeps.

Definition eq_core (s s' : db) : Prop := core s' = core s.
#[export] Instance eq_core_preorder : PreOrder eq_core.
Proof. split; [done|]. intros x y z. unfold eq_core. congruence. Qed.

Abbreviation neutral := (keeps eq_core).
Definition lsteps (t : string) : relation lstate := rtc (lstep t).

(** What holds of every reachable state. *)
Definition linv (l : lstate) : Prop := in_phases l ∧ lwf l.

Lemma linv_step t l l' : lstep t l l' → linv l → linv l'.
Proof. intros Hs [Hp Hw]. split; [by eapply in_phases_step|by eapply lstep_wf]. Qed.

Lemma linv_steps t l l' : lsteps t l l' → linv l → linv l'.
Proof. induction 1; [done|]. intros. eauto using linv_step. Qed.

Lemma lsteps_refl t l l' : l' = l → lsteps t l l'.
Proof. intros ->. apply rtc_refl. Qed.

(** ** Statements that change no lifecycle column *)

Lemma core_update_conv s t c f : s.(convs) !! t = Some c → (f c).(cv_owner_epoch) = c.(cv_owner_epoch) →
  core (upd_convs <[t := f c]> s) = core s.
Proof.
  intros Hc Hf. unfold core. simpl. f_equal. rewrite fmap_insert, Hf.
  apply insert_id. by rewrite lookup_fmap, Hc.
Qed.

Lemma core_update_run s id r f : s.(runs) !! id = Some r → lrun_of (f r) = lrun_of r →
  core (upd_runs <[id := f r]> s) = core s.
Proof.
  intros Hr Hf. unfold core. simpl. f_equal. rewrite fmap_insert, Hf.
  apply insert_id. by rewrite lookup_fmap, Hr.
Qed.

Lemma core_update_interaction s id i f : s.(interactions) !! id = Some i → lint_of (f i) = lint_of i →
  core (upd_interactions <[id := f i]> s) = core s.
Proof.
  intros Hr Hf. unfold core. simpl. f_equal. rewrite fmap_insert, Hf.
  apply insert_id. by rewrite lookup_fmap, Hr.
Qed.

Lemma neutral_update_conv t f : (∀ c, (f c).(cv_owner_epoch) = c.(cv_owner_epoch)) → neutral (update_conv t f).
Proof. intros Hf. apply keeps_update_conv; [apply _|]. intros s c Hc. by apply core_update_conv. Qed.

Lemma neutral_update_run t id cond f : (∀ r, lrun_of (f r) = lrun_of r) → neutral (update_run t id cond f).
Proof. intros Hf. apply keeps_update_run; [apply _|]. intros s r Hr. by apply core_update_run. Qed.

Lemma neutral_update_interaction t id f : (∀ i, lint_of (f i) = lint_of i) → neutral (update_interaction t id f).
Proof. intros Hf. apply keeps_update_interaction; [apply _|]. intros s i Hi. by apply core_update_interaction. Qed.

Lemma neutral_appendEvent t e : neutral (appendEvent t e).
Proof.
  unfold appendEvent. keeps_walk; [by apply neutral_update_conv|]. by apply keeps_modify.
Qed.

Lemma neutral_update_history `{Codec} t h : neutral (update_history t h).
Proof. unfold update_history. keeps_walk. by apply neutral_update_conv. Qed.

Lemma neutral_markOperationsUnknown t run : neutral (markOperationsUnknown t run).
Proof.
  unfold markOperationsUnknown. keeps_walk; try (by apply keeps_modify). apply neutral_appendEvent.
Qed.

Lemma neutral_lockOwner now o : neutral (lockOwner now o).
Proof. apply keeps_lockOwner, _. Qed.

(** Closes [neutral m] for a transaction of such statements. *)
Ltac neutral_tac :=
  repeat first
    [ progress keeps_walk
    | apply neutral_appendEvent | apply neutral_update_history | apply neutral_markOperationsUnknown
    | apply neutral_lockOwner | (apply keeps_run_scope; apply _)
    | (apply neutral_update_conv; intros; reflexivity)
    | (apply neutral_update_run; intros; reflexivity)
    | (apply neutral_update_interaction; intros; reflexivity)
    | (apply keeps_modify; intros; reflexivity) ].

Section neutral_ops.
Context {codec : Codec} (now : Z).

Lemma neutral_Check o : neutral (Check now o).
Proof. unfold Check. neutral_tac. Qed.
Lemma neutral_Renew o d : neutral (Renew now o d).
Proof. unfold Renew. neutral_tac. Qed.
Lemma neutral_Start o j d : neutral (Start now o j d).
Proof. unfold Start, pinConversation. neutral_tac. Qed.
Lemma neutral_supersede t run id : neutral (supersede t run id).
Proof. unfold supersede. neutral_tac. Qed.
Lemma neutral_Supersede o id : neutral (Supersede now o id).
Proof. unfold Supersede. neutral_tac. apply neutral_supersede. Qed.
Lemma neutral_HistoryTruncated o a b c d e : neutral (HistoryTruncated now o a b c d e).
Proof. unfold HistoryTruncated. neutral_tac. Qed.
Lemma neutral_BeginAttempt o op n a : neutral (BeginAttempt now o op n a).
Proof.
  unfold BeginAttempt, firstAttempt, takeApproval, retryAttempt, insert_operation, insert_attempt.
  neutral_tac; apply neutral_supersede.
Qed.
Lemma neutral_EndAttempt o op n out : neutral (EndAttempt now o op n out).
Proof. unfold EndAttempt. neutral_tac. Qed.
Lemma neutral_ResolveDefinition served o : neutral (ResolveDefinition now served o).
Proof. unfold ResolveDefinition. neutral_tac. Qed.
Lemma neutral_activate served e c b : neutral (activate now served e c b).
Proof. unfold activate, markActivated. neutral_tac. Qed.
Lemma neutral_PutDefinitionSet d files : neutral (PutDefinitionSet d files).
Proof. unfold PutDefinitionSet. neutral_tac. Qed.
Lemma neutral_RecordRunScope o p e c : neutral (RecordRunScope now o p e c).
Proof. unfold RecordRunScope. neutral_tac. Qed.
Lemma neutral_RecordServerInfo o i : neutral (RecordServerInfo now o i).
Proof. unfold RecordServerInfo. neutral_tac. Qed.
Lemma neutral_CommitSnapshot o c : neutral (CommitSnapshot now o c).
Proof. unfold CommitSnapshot, insert_snapshot. neutral_tac. Qed.
Lemma neutral_RecordRunCatalog o d : neutral (RecordRunCatalog now o d).
Proof. unfold RecordRunCatalog. neutral_tac. Qed.
Lemma neutral_SetActiveJourneys o a : neutral (SetActiveJourneys now o a).
Proof. unfold SetActiveJourneys. neutral_tac. Qed.
Lemma neutral_RecordUsage o u : neutral (RecordUsage now o u).
Proof. unfold RecordUsage. neutral_tac. Qed.
End neutral_ops.

(** ** The statements that do *)

Lemma update_commands_ok cond f s rows s' : update_commands cond f s = Ok (rows, s') →
  rows = filter (λ c, cond c = true) s.(commands) ∧
  s' = upd_commands (fmap (λ c, if cond c then f c else c)) s.
Proof. unfold update_commands. intros H. by txsimpl. Qed.

Lemma update_run_cases t id cond f s n s' : update_run t id cond f s = Ok (n, s') →
  (∃ r, s.(runs) !! id = Some r ∧ r.(rn_thread) = t ∧ cond r = true ∧ n = 1 ∧
        s' = upd_runs <[id := f r]> s) ∨
  (n = 0 ∧ s' = s ∧ ∀ r, s.(runs) !! id = Some r → r.(rn_thread) = t → cond r = false).
Proof.
  unfold update_run, put_run. intros H. txsimpl.
  destruct (run_of t id s0) as [r|] eqn:E.
  - apply run_of_Some in E as [Hr Ht]. destruct (cond r) eqn:Hc; txsimpl; [left; by exists r|].
    right. split_and!; [done..|]. intros r' Hr' _. by simplify_eq.
  - txsimpl. right. split_and!; [done..|]. intros r Hr Ht.
    by rewrite (proj2 (run_of_Some _ _ _ _) (conj Hr Ht)) in E.
Qed.

Lemma core_run s id r : s.(runs) !! id = Some r → (core s).(l_runs) !! id = Some (lrun_of r).
Proof. intros Hr. simpl. by rewrite lookup_fmap, Hr. Qed.
Lemma core_run_inv s id lr : (core s).(l_runs) !! id = Some lr →
  ∃ r, s.(runs) !! id = Some r ∧ lr = lrun_of r.
Proof. simpl. rewrite lookup_fmap. intros (r & Hr & ->)%fmap_Some. eauto. Qed.
Lemma core_int s id i : s.(interactions) !! id = Some i → (core s).(l_ints) !! id = Some (lint_of i).
Proof. intros Hr. simpl. by rewrite lookup_fmap, Hr. Qed.

Lemma core_upd_run s id r : core (upd_runs <[id := r]> s) =
  mk_l (core s).(l_epochs) (<[id := lrun_of r]> (core s).(l_runs)) (core s).(l_ints) (core s).(l_cmds).
Proof. unfold core. simpl. by rewrite fmap_insert. Qed.
Lemma core_upd_interaction s id i : core (upd_interactions <[id := i]> s) =
  mk_l (core s).(l_epochs) (core s).(l_runs) (<[id := lint_of i]> (core s).(l_ints)) (core s).(l_cmds).
Proof. unfold core. simpl. by rewrite fmap_insert. Qed.
Lemma core_upd_commands s f : core (upd_commands f s) =
  mk_l (core s).(l_epochs) (core s).(l_runs) (core s).(l_ints) (f (core s).(l_cmds)).
Proof. done. Qed.

Lemma neutral_events {A} (f : A → tx unit) l : (∀ x, neutral (f x)) → neutral (for_each f l).
Proof. intros. by apply keeps_for_each; [apply _|]. Qed.

Lemma disposePending_core t run reason s a s' : disposePending t run reason s = Ok (a, s') →
  core s' = mk_l (core s).(l_epochs) (core s).(l_runs) (core s).(l_ints)
              (dispose t run (state_name reason) (core s).(l_cmds)).
Proof.
  unfold disposePending. intros H. apply tx_bind_ok in H as (rows & s1 & [_ ->]%update_commands_ok & H).
  apply neutral_events in H; [|intros x; apply neutral_appendEvent].
  unfold eq_core in H. by rewrite H.
Qed.

Lemma interruptExpired_sim now t cand s a s' :
  interruptExpired now t cand s = Ok (a, s') → lsteps t (core s) (core s').
Proof.
  unfold interruptExpired. intros H. apply tx_bind_ok in H as (row & s1 & [= <- <-] & H).
  destruct (find_row _ _) as [[run r]|] eqn:E; [|txsimpl; apply rtc_refl].
  apply find_row_Some in E as [Hr HP].
  apply andb_true_iff in HP as [[Ht Hl]%andb_true_iff _]. apply bool_decide_eq_true in Ht.
  apply tx_bind_ok in H as (cont & s1 & [= <- <-] & H).
  destruct (negb _ || _); [txsimpl; apply rtc_refl|].
  apply tx_bind_ok in H as (n & s1 & H1 & H).
  apply update_run_cases in H1 as [(r' & Hr' & _ & _ & -> & ->)|(-> & -> & _)];
    cbn in H; [|txsimpl; apply rtc_refl].
  simplify_eq.
  apply tx_bind_ok in H as (u1 & s2 & H2 & H). apply neutral_markOperationsUnknown in H2.
  apply tx_bind_ok in H as (u2 & s3 & H3 & H). apply disposePending_core in H3.
  apply neutral_appendEvent in H. unfold eq_core in H2, H. rewrite H, H3, H2, core_upd_run. simpl.
  apply rtc_once. apply (L_interrupt _ (core s) run (lrun_of r)); [by apply core_run|done|done].
Qed.

Lemma settle_run s id r st : s.(runs) !! id = Some r →
  core (if bool_decide (r.(rn_state) = RunAwaitingInput)
        then upd_runs <[id := upd_rn_state (λ _, st) r]> s else s) =
  mk_l (core s).(l_epochs) (<[id := settle st (lrun_of r)]> (core s).(l_runs)) (core s).(l_ints) (core s).(l_cmds).
Proof.
  intros Hr. unfold settle. simpl. case_bool_decide; [by rewrite core_upd_run|].
  rewrite insert_id; [by destruct s|]. by rewrite lookup_fmap, Hr.
Qed.

Lemma settle_update t id st s n s' r : s.(runs) !! id = Some r → r.(rn_thread) = t →
  update_run t id (λ r, bool_decide (r.(rn_state) = RunAwaitingInput)) (upd_rn_state (λ _, st)) s = Ok (n, s') →
  core s' = mk_l (core s).(l_epochs) (<[id := settle st (lrun_of r)]> (core s).(l_runs)) (core s).(l_ints) (core s).(l_cmds).
Proof.
  intros Hr Ht Hu. rewrite <- settle_run by done.
  apply update_run_cases in Hu as [(r' & Hr' & _ & Hc & _ & ->)|(_ & -> & Hc)]; simplify_eq.
  - by rewrite Hc.
  - by rewrite (Hc r Hr eq_refl).
Qed.

Section expiry.
Context {codec : Codec} (now : Z).

Lemma expireRun_core t run s a s' r : expireRun t run s = Ok (a, s') →
  (core s).(l_runs) !! run = Some r → r.(lr_thread) = t →
  core s' = mk_l (core s).(l_epochs) (<[run := settle RunFailed r]> (core s).(l_runs)) (core s).(l_ints) (core s).(l_cmds).
Proof.
  unfold expireRun. intros Hs Hr Ht.
  tx_get Hs row. tx_the Hs i Hi. tx_the Hs closed Hcl.
  tx_step Hs u s1 H1. apply neutral_update_history in H1.
  tx_step Hs n s2 H2. unfold eq_core in H1. rewrite <- H1 in Hr.
  apply core_run_inv in Hr as (r0 & Hr & ->).
  eapply settle_update in H2; [|done|done].
  tx_step Hs u' s3 H3. apply neutral_appendEvent in H3. apply neutral_appendEvent in Hs.
  unfold eq_core in Hs, H3. by rewrite Hs, H3, H2, H1.
Qed.

(** In a conversation's phase at most one interaction is open. *)
Lemma one_wait t s : linv (core s) → ∀ k k' i i', s.(interactions) !! k = Some i → s.(interactions) !! k' = Some i' →
  i.(in_thread) = t → i'.(in_thread) = t → i.(in_state) = IPending → i'.(in_state) = IPending → k' = k.
Proof.
  intros [Hph _] k k' i i' Hk Hk' Ht Ht' Hs Hs'. destruct (Hph t) as [p Hp].
  pose proof (phase_waiting Hp k (lint_of i) (core_int _ _ _ Hk) Ht Hs) as ->.
  pose proof (phase_waiting Hp k' (lint_of i') (core_int _ _ _ Hk') Ht' Hs'). by simplify_eq.
Qed.

Lemma expired_wait_iff t i : expired_wait now t i = true ↔
  i.(in_thread) = t ∧ i.(in_state) = IPending ∧ i.(in_expires) <= now.
Proof. unfold expired_wait. rewrite !andb_true_iff, !bool_decide_eq_true, Z.leb_le. naive_solver. Qed.

Lemma expireInteractions_sim t s a s' : linv (core s) →
  expireInteractions now t s = Ok (a, s') → lsteps t (core s) (core s').
Proof.
  unfold expireInteractions. intros Hinv Hs.
  tx_get Hs rows. tx_step Hs u s1 H1. injection H1 as _ <-.
  destruct (matching_cases (λ _ i, expired_wait now t i) s.(interactions)) as [[Hn Hm]|(id & i & l & _ & Hi & Hw)].
  { rewrite Hm in Hs. simpl in Hs. txsimpl. apply lsteps_refl. unfold core. simpl. by rewrite update_rows_none. }
  apply expired_wait_iff in Hw as Hw'. destruct Hw' as (Ht & Hst & _).
  assert (∀ k' v', s.(interactions) !! k' = Some v' → expired_wait now t v' = true → k' = id) as Hu.
  { intros k' v' Hk' (Ht' & Hs' & _)%expired_wait_iff. by eapply (one_wait t s). }
  rewrite (matching_one _ _ id i) in Hs by done.
  simpl in Hs. tx_step Hs u' s2 Hs1. injection Hs as _ <-.
  destruct (lw_int _ (proj2 Hinv) id (lint_of i) (core_int _ _ _ Hi)) as (r & Hr & Hrt).
  eapply expireRun_core in Hs1; [|done|simpl in Hrt; congruence].
  rewrite Hs1. simpl. rewrite (update_rows_one _ _ _ id i), fmap_insert by done.
  apply rtc_once. subst t. 
  apply (L_expire _ (core s) id (lint_of i) r); [by apply core_int|done..].
Qed.
End expiry.

(** ** Transactions as steps *)

Definition sim {A} (t : string) (m : tx A) : Prop :=
  ∀ s a s', linv (core s) → m s = Ok (a, s') → lsteps t (core s) (core s').

Lemma sim_neutral {A} t (m : tx A) : neutral m → sim t m.
Proof. intros Hn s a s' _ Hm. apply lsteps_refl. by apply (Hn s a s'). Qed.

Lemma sim_bind {A B} t (m : tx A) (f : A → tx B) : sim t m → (∀ a, sim t (f a)) → sim t (m ≫= f).
Proof.
  intros Hm Hf s b s' Hinv H. tx_step H a s1 H1. specialize (Hm _ _ _ Hinv H1).
  etransitivity; [done|]. eapply Hf; [by eapply linv_steps|done].
Qed.

Lemma insert_command_ok t comm run payload exec s a s' :
  insert_command t comm run payload exec s = Ok (a, s') →
  fresh_command t comm run (core s) ∧ is_Some (s.(convs) !! t) ∧
  s' = upd_commands (λ l, l ++ [mk_command t comm run payload exec false ""]) s.
Proof.
  unfold insert_command. intros H. tx_get H clash. tx_guard H Hc. tx_get H conv. tx_guard H Hv. txsimpl.
  apply bool_decide_eq_true in Hv. split_and!; [|done|done]. apply negb_true_iff in Hc.
  intros c Hin. simpl in Hin. rewrite <- not_true_iff_false, existsb_exists in Hc.
  split; [intros [Ht Hco]|intros Hr]; apply Hc; exists c; (split; [by apply list_elem_of_In|]);
    rewrite orb_true_iff, andb_true_iff, !bool_decide_eq_true; auto.
Qed.

Lemma insert_run_ok id r s a s' : insert_run id r s = Ok (a, s') →
  s.(runs) !! id = None ∧ s' = upd_runs <[id := r]> s.
Proof.
  unfold insert_run, put_run. intros H. tx_get H old. tx_guard H Ho. tx_get H cmd. tx_guard H Hc. txsimpl.
  apply bool_decide_eq_true in Ho. done.
Qed.

Lemma waiting_false t s : waiting t s = false → no_wait t (core s).
Proof.
  unfold waiting. intros Hw id i Hi Ht Hs. simpl in Hi. rewrite lookup_fmap in Hi.
  apply fmap_Some in Hi as (i0 & Hi & ->). rewrite exists_row_false in Hw.
  specialize (Hw id i0 Hi). simpl in *. by rewrite !bool_decide_eq_true_2 in Hw.
Qed.

Lemma live_join_None t s : lwf (core s) → live_join t s = None → no_live t (core s).
Proof.
  intros Hwf Hj id lr Hl Ht. apply core_run_inv in Hl as (r & Hr & ->). simpl in *.
  destruct (is_live (rn_state r)) eqn:Hlive; [|done]. exfalso.
  destruct (lw_first _ Hwf id (lrun_of r) (core_run _ _ _ Hr)) as (co & Hk).
  apply list_elem_of_fmap in Hk as (c & Hkey & Hin). injection Hkey as Hct _ Hcr _.
  unfold live_join in Hj.
  assert ((id, r, c) ∈ (p ← matching (λ _ r0, bool_decide (rn_thread r0 = t) && is_live (rn_state r0)) (runs s);
     c0 ← filter (λ c0, cm_run c0 = p.1) (commands s); [(p, c0)])) as Hin'.
  { apply list_elem_of_bind. exists (id, r). split.
    - apply list_elem_of_bind. exists c. split; [apply list_elem_of_here|].
      apply list_elem_of_filter. done.
    - apply elem_of_matching. split; [done|]. by rewrite bool_decide_eq_true_2, Hlive. }
  destruct (mbind _ _) as [|x l]; [by apply elem_of_nil in Hin'|done].
Qed.

Lemma live_join_Some t s id r c : live_join t s = Some (id, r, c) →
  s.(runs) !! id = Some r ∧ r.(rn_thread) = t ∧ is_live r.(rn_state) = true ∧ c ∈ s.(commands) ∧ c.(cm_run) = id.
Proof.
  unfold live_join. intros Hj.
  assert ((id, r, c) ∈ (p ← matching (λ _ r0, bool_decide (rn_thread r0 = t) && is_live (rn_state r0)) (runs s);
     c0 ← filter (λ c0, cm_run c0 = p.1) (commands s); [(p, c0)])) as Hin.
  { destruct (mbind _ _) as [|x l]; [done|]. injection Hj as ->. apply list_elem_of_here. }
  apply list_elem_of_bind in Hin as ([id' r'] & Hin & Hm).
  apply list_elem_of_bind in Hin as (c' & [= -> -> ->]%list_elem_of_singleton & [Hc Hin']%list_elem_of_filter).
  apply elem_of_matching in Hm as [Hr [Ht Hl]%andb_true_iff]. by apply bool_decide_eq_true in Ht.
Qed.

Section sims.
Context {codec : Codec} (now : Z).

Lemma sim_admitNew c : sim c.(c_ThreadID) (admitNew now c).
Proof.
  unfold admitNew. set (t := c_ThreadID c).
  apply sim_bind; [intros s a s' _; apply interruptExpired_sim|intros _].
  apply sim_bind; [intros s a s'; apply expireInteractions_sim|intros _].
  intros s a s' Hinv H. tx_get H busy. tx_guard H Hb. apply negb_true_iff, waiting_false in Hb.
  tx_get H live. tx_guard H Htarget. tx_guard H Hrun. tx_guard H Hjson.
  tx_step H u1 s1 H1. apply insert_command_ok in H1 as (Hf & Hconv & ->).
  tx_step H u2 s2 H2. tx_step H u3 s3 H3. apply neutral_appendEvent in H3. txsimpl.
  unfold eq_core in H3. rewrite H3. apply rtc_once.
  destruct (live_join t s) as [[[id r] first]|] eqn:Hj.
  - apply live_join_Some in Hj as (Hr & Ht & Hl & _). txsimpl.
    apply (L_steer _ (core s) _ _ (through_json_command c) id (lrun_of r)); [by apply core_run|done..].
  - apply live_join_None in Hj; [|apply Hinv]. apply insert_run_ok in H2 as [Hn ->]. rewrite core_upd_run.
    apply (L_fresh _ (core s) (c_CommunicationID c) (c_RunID c) (through_json_command c)); [|done|done| |done].
    + simpl. rewrite lookup_fmap, fmap_is_Some. done.
    + simpl. simpl in Hn. by rewrite lookup_fmap, Hn.
Qed.

Lemma insert_conv_sim t p : sim t (insert_conv t p).
Proof.
  unfold insert_conv. intros s a s' _ Hm. injection Hm as _ <-.
  destruct (convs s !! t) as [c|] eqn:E.
  - apply lsteps_refl. unfold core. simpl. by rewrite E.
  - unfold core at 2. simpl. rewrite E, fmap_insert. apply rtc_once.
    apply (L_open _ (core s)). simpl. by rewrite lookup_fmap, E.
Qed.

Lemma replay_neutral c p : neutral (replay c p).
Proof. unfold replay. neutral_tac. Qed.

Lemma sim_BeginFunc {A} t (m : tx A) : sim t m → sim t (BeginFunc m).
Proof.
  intros Hs. unfold BeginFunc. apply sim_bind; [done|]. intros a. apply sim_neutral. neutral_tac.
Qed.

(** The reply's dispositions: an approval's reply is consumed on the spot. *)
Lemma consumed_command t comm c run l :
  (∀ k, k ∈ l → ¬ (k.(cm_thread) = t ∧ k.(cm_comm) = comm)) →
  ((λ k, if bool_decide (k.(cm_thread) = t) && bool_decide (k.(cm_comm) = comm)
         then upd_cm_terminal (λ _, "consumed") k else k) <$> l ++ [mk_command t comm run c run false ""]) =
  l ++ [mk_command t comm run c run false "consumed"].
Proof.
  intros Hl. rewrite fmap_app. f_equal.
  - transitivity (id <$> l); [|apply list_fmap_id]. apply list_fmap_ext. intros i k Hk%list_elem_of_lookup_2.
    destruct (bool_decide _ && _) eqn:E; [|done]. rewrite andb_true_iff, !bool_decide_eq_true in E. by destruct (Hl k).
  - simpl. by rewrite !bool_decide_eq_true_2.
Qed.

(** The columns after the reply's writes, before its command is disposed. *)
Definition replied (c : Command) (i : interaction_row) (r : lrun) (reason : string) (l : lstate) : lstate :=
  mk_l l.(l_epochs)
    (<[i.(in_run) := settle RunCompleted r]> (<[c.(c_RunID) := mk_lrun c.(c_ThreadID) RunPending 0]> l.(l_runs)))
    (<[c.(c_InteractionID) := mk_lint c.(c_ThreadID) i.(in_run) IConsumed (Some c.(c_RunID))]> l.(l_ints))
    (l.(l_cmds) ++ [mk_command c.(c_ThreadID) c.(c_CommunicationID) c.(c_RunID) (through_json_command c) c.(c_RunID) false reason]).

Lemma consumeReply_core c answer i s a s' : linv (core s) → consumeReply now c answer i s = Ok (a, s') →
  s.(interactions) !! c.(c_InteractionID) = Some i → i.(in_thread) = c.(c_ThreadID) →
  ∃ r reason, s.(runs) !! i.(in_run) = Some r ∧ r.(rn_thread) = c.(c_ThreadID) ∧ s.(runs) !! c.(c_RunID) = None ∧
    fresh_command c.(c_ThreadID) c.(c_CommunicationID) c.(c_RunID) (core s) ∧
    a = Ok (receipt c c.(c_RunID), true) ∧ core s' = replied c i (lrun_of r) reason (core s).
Proof.
  unfold consumeReply. cbv zeta. intros Hinv Hm Hi Ht.
  destruct (lw_int _ (proj2 Hinv) _ _ (core_int _ _ _ Hi)) as (lr & Hlr & Hrt).
  apply core_run_inv in Hlr as (r & Hr & ->). simpl in Hr, Hrt. rewrite Ht in Hrt.
  tx_guard Hm Hrun. tx_guard Hm Hjson. tx_step Hm u1 s1 H1. apply insert_command_ok in H1 as (Hf & _ & ->).
  tx_step Hm u2 s2 H2. apply insert_run_ok in H2 as [Hn ->]. simpl in Hn.
  tx_the Hm text Htext.
  tx_step Hm u3 s3 H3. eapply update_interaction_ok in H3; [|done|done]. subst s3.
  tx_step Hm u4 s4 H4. eapply settle_update in H4; [|simpl; rewrite lookup_insert_ne; [done|congruence]|done].
  tx_step Hm u5 s5 H5. apply neutral_appendEvent in H5.
  tx_step Hm u6 s6 H6. apply neutral_appendEvent in H6.
  tx_step Hm u7 s7 H7. txsimpl. unfold eq_core in H5, H6.
  rewrite core_upd_interaction, core_upd_run, core_upd_commands in H4.
  assert (core s6 = replied c i (lrun_of r) "" (core s)) as H6'.
  { rewrite H6, H5, H4. unfold replied, lint_of. simpl. by rewrite Ht. }
  assert (∃ reason, core s' = replied c i (lrun_of r) reason (core s)) as [reason ->]; [|by exists r, reason].
  destruct (bool_decide _ && _); [|txsimpl; by exists ""]. exists "consumed".
  tx_step H7 rows s8 H8. apply update_commands_ok in H8 as [_ ->]. apply neutral_appendEvent in H7.
  unfold eq_core in H7. rewrite H7, core_upd_commands, H6'. unfold replied. cbn [l_cmds l_epochs l_runs l_ints].
  rewrite consumed_command; [done|]. intros k Hk. by apply Hf.
Qed.

Lemma sim_consumeReply c answer i s a s' : linv (core s) → consumeReply now c answer i s = Ok (a, s') →
  s.(interactions) !! c.(c_InteractionID) = Some i → i.(in_thread) = c.(c_ThreadID) → i.(in_state) = IPending →
  lsteps c.(c_ThreadID) (core s) (core s').
Proof.
  intros Hinv Hm Hi Ht Hst.
  destruct (consumeReply_core _ _ _ _ _ _ Hinv Hm Hi Ht) as (r & reason & Hr & Hrt & Hn & Hf & _ & ->).
  apply rtc_once. unfold replied. rewrite <- Ht.
  apply (L_reply _ (core s) c.(c_CommunicationID) c.(c_RunID) (through_json_command c) reason c.(c_InteractionID) (lint_of i) (lrun_of r));
    [by apply core_int|done|done|by apply core_run|simpl; congruence| |by rewrite Ht].
  simpl. by rewrite lookup_fmap, Hn.
Qed.

Lemma sim_replyNew c answer : sim c.(c_ThreadID) (replyNew now c answer).
Proof.
  unfold replyNew. cbv zeta. intros s a s' Hinv Hm. tx_guard Hm Hid. tx_get Hm row. tx_the Hm i Hi.
  apply interaction_of_Some in Hi as [Hi Ht].
  destruct (negb _ && _) eqn:E.
  - tx_step Hm u s1 H1. txsimpl. by eapply expireInteractions_sim.
  - tx_guard Hm H1. tx_guard Hm H2. tx_guard Hm H3. tx_guard Hm H4.
    apply andb_true_iff in H2 as [_ Hs]. apply bool_decide_eq_true in Hs.
    by eapply sim_consumeReply.
Qed.

Lemma sim_reply c : sim c.(c_ThreadID) (reply now c).
Proof.
  unfold reply. apply sim_bind; [apply sim_neutral; neutral_tac|intros _].
  apply sim_bind; [apply sim_neutral; neutral_tac|intros answer]. apply sim_BeginFunc.
  apply sim_bind; [apply sim_neutral; neutral_tac|intros _].
  apply sim_bind; [apply sim_neutral; apply keeps_lockConversation, _|intros _].
  apply sim_bind; [apply sim_neutral; neutral_tac|intros _].
  apply sim_bind; [apply sim_neutral; neutral_tac|intros previous].
  destruct previous; [apply sim_neutral, replay_neutral|apply sim_replyNew].
Qed.

Lemma sim_Admit c : sim c.(c_ThreadID) (Admit now c).
Proof.
  unfold Admit. destruct (nonempty _); [apply sim_reply|].
  apply sim_bind; [apply sim_neutral; neutral_tac|intros _].
  intros s a s' Hinv Hm. unfold unique_is_conflict in Hm.
  match type of Hm with match ?m s with _ => _ end = _ => destruct (m s) as [[a0 s0]|e] eqn:E end;
    [|by destruct e].
  injection Hm as <- <-. revert E. revert s a0 s0 Hinv.
  change (sim c.(c_ThreadID) (BeginFunc (
      _ ← guard_tx (sql_texts [c.(c_ThreadID); c.(c_Principal)]) DbText;
      _ ← insert_conv c.(c_ThreadID) c.(c_Principal);
      _ ← lockConversation c.(c_ThreadID) c.(c_Principal);
      _ ← guard_tx (sql_texts [c.(c_CommunicationID)]) DbText;
      previous ← get (find_command c.(c_ThreadID) c.(c_CommunicationID));
      match previous with Some p => replay c p | None => admitNew now c end))).
  apply sim_BeginFunc. apply sim_bind; [apply sim_neutral; neutral_tac|intros _].
  apply sim_bind; [apply insert_conv_sim|intros _].
  apply sim_bind; [apply sim_neutral; apply keeps_lockConversation, _|intros _].
  apply sim_bind; [apply sim_neutral; neutral_tac|intros _].
  apply sim_bind; [apply sim_neutral; neutral_tac|intros previous].
  destruct previous; [apply sim_neutral, replay_neutral|apply sim_admitNew].
Qed.

(** ** Owners *)

Lemma sim_Claim c id d : sim c.(c_ThreadID) (Claim now c id d).
Proof.
  unfold Claim. cbv zeta. intros s a s' Hinv Hm. tx_guard Hm Hg.
  tx_step Hm u s1 H1. apply keeps_lockForClaim with (R := eq) in H1; [subst s1|apply _].
  tx_get Hm row. tx_the Hm acc Hacc. tx_guard Hm Heq. tx_get Hm row2. tx_the Hm r Hr.
  apply run_of_Some in Hr as [Hr Ht].
  tx_get Hm ok. tx_guard Hm Hok. unfold claimable in Hok. apply andb_true_iff in Hok as [Hst _].
  apply bool_decide_eq_true in Hst.
  tx_step Hm u2 s2 H2. unfold update_conv in H2. tx_get H2 conv.
  destruct (convs s !! c_ThreadID c) as [cv|] eqn:Hcv.
  - tx_guard H2 Hchk. injection H2 as _ <-. tx_get Hm conv. tx_the Hm cv' Hcv'. simpl in Hcv'.
    rewrite lookup_insert_eq in Hcv'. injection Hcv' as <-.
    tx_step Hm n s3 H3. apply update_run_cases in H3 as [(r' & Hr' & _ & _ & _ & ->)|(_ & _ & Hf)];
      [|by specialize (Hf r Hr Ht)].
    simpl in Hr'. simplify_eq.
    tx_step Hm u3 s4 H4. apply neutral_appendEvent in H4. txsimpl. unfold eq_core in H4. rewrite H4.
    apply rtc_once. rewrite core_upd_run. unfold core at 2 3 4 5. simpl. rewrite fmap_insert. simpl.
    rewrite <- Ht. apply (L_claim _ (core s) _ r.(rn_epoch) cv.(cv_owner_epoch)).
    + rewrite <- Hst. by apply core_run.
    + simpl. by rewrite lookup_fmap, Ht, Hcv.
  - injection H2 as _ <-. tx_get Hm conv. rewrite Hcv in Hm. by tx_the Hm cv' Hcv'.
Qed.

Lemma sim_reapOne t run : sim t (reapOne now (t, run)).
Proof.
  unfold reapOne. cbn [fst snd]. apply sim_bind; [apply sim_neutral; neutral_tac|intros conv].
  apply sim_bind; [apply sim_neutral; neutral_tac|intros _].
  apply sim_bind; [intros s a s' _; apply interruptExpired_sim|intros _].
  intros s a s'. apply expireInteractions_sim.
Qed.

(** ** The inbox *)

Lemma neutral_Pending o : neutral (Pending now o).
Proof. unfold Pending. neutral_tac. Qed.

Lemma sim_includeOne t run comm : sim t (includeOne t run comm).
Proof.
  unfold includeOne. intros s a s' Hinv Hm.
  tx_step Hm rows s1 H1. apply update_commands_ok in H1 as [_ ->]. tx_guard Hm Hg.
  apply neutral_appendEvent in Hm. unfold eq_core in Hm. rewrite Hm, core_upd_commands.
  apply rtc_once. apply (L_include _ (core s)).
Qed.

Lemma sim_for_each {A} t (f : A → tx unit) l : (∀ x, sim t (f x)) → sim t (for_each f l).
Proof.
  intros Hf. induction l as [|x l IH]; simpl; [apply sim_neutral; neutral_tac|].
  apply sim_bind; [done|]. by intros _.
Qed.

Lemma sim_Included o l : sim o.(ow_Command).(c_ThreadID) (Included now o l).
Proof.
  unfold Included. apply sim_bind; [apply sim_neutral, neutral_lockOwner|intros _].
  apply sim_for_each. intros x. apply sim_includeOne.
Qed.

(** ** Waiting and finishing *)

Lemma has_pending_false t run s : has_pending t run s = false → no_pending t run (core s).
Proof.
  unfold has_pending. intros Hp c Hin Hc. simpl in Hin. rewrite <- not_true_iff_false, existsb_exists in Hp.
  destruct (pending_command c) eqn:E; [|done]. destruct Hp. exists c. split; [by apply list_elem_of_In|].
  by rewrite Hc, E.
Qed.

Lemma owned_run o s r : owns now o s r →
  (core s).(l_runs) !! o.(ow_Command).(c_RunID) =
  Some (mk_lrun o.(ow_Command).(c_ThreadID) RunRunning r.(rn_epoch)).
Proof. intros [Hr Ht Hst _ _ _ _]. rewrite (core_run _ _ _ Hr). unfold lrun_of. by rewrite Ht, Hst. Qed.

Lemma sim_Wait o i ck h : sim o.(ow_Command).(c_ThreadID) (Wait now o i ck h).
Proof.
  unfold Wait. cbv zeta. intros s a s' Hinv Hm.
  tx_step Hm u0 s0 H0. apply lift_ok in H0 as [_ ->]. tx_guard Hm Hj.
  tx_step Hm u1 s1 H1. apply lockOwner_ok in H1 as (-> & r & Hown).
  tx_get Hm pending. tx_guard Hm Hp. apply negb_true_iff, has_pending_false in Hp. tx_guard Hm Ha.
  tx_step Hm scope s2 H2. apply run_scope_ok in H2 as (-> & r' & conv & pv & df & -> & _).
  tx_step Hm ttl s3 H3. apply lift_ok in H3 as [_ ->]. tx_guard Hm Hb.
  tx_the Hm ckj Hck. tx_the Hm hj Hh.
  tx_step Hm u4 s4 H4. apply insert_interaction_ok in H4 as [Hn ->].
  tx_step Hm u5 s5 H5. apply neutral_update_history in H5. unfold eq_core in H5.
  pose proof (owned_run _ _ _ Hown) as Hrun.
  tx_step Hm n s6 H6. apply neutral_appendEvent in Hm. unfold eq_core in Hm.
  rewrite core_upd_interaction in H5.
  assert ((core s5).(l_runs) !! c_RunID (ow_Command o) = (core s).(l_runs) !! c_RunID (ow_Command o)) as Hsame by by rewrite H5.
  rewrite Hrun in Hsame. apply core_run_inv in Hsame as (r5 & Hr5 & Heq).
  injection Heq as Ht _ He.
  apply update_run_cases in H6 as [(r6 & Hr6 & _ & _ & _ & ->)|(_ & _ & Hf)];
    [|by specialize (Hf r5 Hr5 (eq_sym Ht))].
  rewrite Hr5 in Hr6. injection Hr6 as <-. rewrite Hm, core_upd_run, H5. simpl.
  unfold lrun_of, lint_of. simpl. rewrite <- Ht, <- He. apply rtc_once.
  apply (L_wait _ (core s)); [done|done|]. simpl. by rewrite lookup_fmap, Hn.
Qed.

Lemma core_if_neutral {A} (b : bool) (m m' : tx A) s a s' : neutral m → neutral m' →
  (if b then m else m') s = Ok (a, s') → core s' = core s.
Proof. intros Hm Hm'. destruct b; [apply Hm|apply Hm']. Qed.

(** What the terminal transaction does to runs and commands. *)
Lemma finish_core o st h an cid tl term s a s' : finish now o st h an cid tl term s = Ok (a, s') →
  let t := o.(ow_Command).(c_ThreadID) in let run := o.(ow_Command).(c_RunID) in
  ∃ ep, (core s).(l_runs) !! run = Some (mk_lrun t RunRunning ep) ∧ (st = RunCompleted → no_pending t run (core s)) ∧
    core s' = mk_l (core s).(l_epochs) (<[run := mk_lrun t st ep]> (core s).(l_runs)) (core s).(l_ints)
      (if bool_decide (st = RunCompleted) then (core s).(l_cmds) else dispose t run (state_name st) (core s).(l_cmds)).
Proof.
  unfold finish. cbv zeta. intros Hm.
  tx_step Hm u1 s1 H1. apply lockOwner_ok in H1 as (-> & r & Hown). pose proof (owned_run _ _ _ Hown) as Hrun.
  tx_get Hm row. tx_the Hm r' Hr'. tx_step Hm u2 s2 H2.
  assert (core s2 = mk_l (core s).(l_epochs) (core s).(l_runs) (core s).(l_ints)
    (if bool_decide (st = RunCompleted) then (core s).(l_cmds)
     else dispose o.(ow_Command).(c_ThreadID) o.(ow_Command).(c_RunID) (state_name st) (core s).(l_cmds)) ∧
    (st = RunCompleted → no_pending o.(ow_Command).(c_ThreadID) o.(ow_Command).(c_RunID) (core s))) as [E2 Hnp].
  { case_bool_decide as Hc.
    - tx_get H2 pending. apply guard_tx_ok in H2 as [Hp [= _ ->]]. split; [done|].
      intros _. by apply has_pending_false, negb_true_iff.
    - tx_step H2 v s5 H5. apply neutral_markOperationsUnknown in H5. unfold eq_core in H5.
      apply disposePending_core in H2. rewrite H5 in H2. split; [done|]. intros ?. done. }
  tx_step Hm u3 s3 H3. apply core_if_neutral in H3; [|by neutral_tac|by neutral_tac].
  tx_step Hm u4 s4 H4. apply core_if_neutral in H4; [|by neutral_tac|by neutral_tac].
  tx_step Hm n s5 H5. apply neutral_appendEvent in Hm. unfold eq_core in Hm.
  assert ((core s4).(l_runs) !! c_RunID (ow_Command o) = (core s).(l_runs) !! c_RunID (ow_Command o)) as Hsame
    by by rewrite H4, H3, E2.
  rewrite Hrun in Hsame. apply core_run_inv in Hsame as (r5 & Hr5 & Heq). injection Heq as Ht _ He.
  apply update_run_cases in H5 as [(r6 & Hr6 & _ & _ & _ & ->)|(_ & _ & Hf)];
    [|by specialize (Hf r5 Hr5 (eq_sym Ht))].
  rewrite Hr5 in Hr6. injection Hr6 as <-. eexists. split; [exact Hrun|]. split; [exact Hnp|].
  rewrite Hm, core_upd_run, H4, H3, E2. unfold lrun_of. simpl. by rewrite <- Ht, <- He.
Qed.

Lemma sim_finish o st h an cid tl term : terminal st = true →
  sim o.(ow_Command).(c_ThreadID) (finish now o st h an cid tl term).
Proof.
  intros Hst s a s' _ (ep & Hrun & Hnp & ->)%finish_core. apply rtc_once. by apply (L_finish _ (core s)).
Qed.

Lemma sim_Finish o st h an cid tl : sim o.(ow_Command).(c_ThreadID) (Finish now o st h an cid tl).
Proof.
  unfold Finish. intros s a s' Hinv Hm. tx_guard Hm Hg.
  eapply sim_finish; [|done|done]. by destruct st.
Qed.
Lemma sim_FinishFailed o h reason : sim o.(ow_Command).(c_ThreadID) (FinishFailed now o h reason).
Proof.
  unfold FinishFailed. apply sim_bind; [apply sim_neutral; neutral_tac|intros _]. by apply sim_finish.
Qed.
Lemma sim_FinishLimitExceeded o h k d : sim o.(ow_Command).(c_ThreadID) (FinishLimitExceeded now o h k d).
Proof.
  unfold FinishLimitExceeded. apply sim_bind; [apply sim_neutral; neutral_tac|intros _]. by apply sim_finish.
Qed.
End sims.
