(* ===== verification/Journal.v ===== *)
(** * The journal as a transition system

    All the transactions of [internal/journal] as one step relation, the
    states they reach from an empty database, and what holds of those states:
    each conversation is idle, live or waiting; runs only move along their
    state machine; an owner is exclusive and stays fenced off once its run
    has ended; no admitted command is lost. *)
From S2P Require Import Prelude GoText Db CallBinding Interactions JournalCore Commands Owners Runs.
From S2P Require Import Operations DefinitionStore Records Lifecycle Keeps JournalSim.

(** ** Transactions *)

(** One call of a [Store] method that writes, with its arguments; [Reap] is
    the transactions of its sweep. *)
Inductive op :=
| OpAdmit (c : Command)
| OpClaim (c : Command) (id : string) (duration : Z)
| OpCheck (o : Owner)
| OpRenew (o : Owner) (duration : Z)
| OpReap (thread run : string)
| OpPending (o : Owner)
| OpIncluded (o : Owner) (inputs : list Input)
| OpStart (o : Owner) (journey digest : string)
| OpFinish (o : Owner) (state : RunState) (history answer callID tool : string)
| OpFinishFailed (o : Owner) (history reason : string)
| OpFinishLimitExceeded (o : Owner) (history kind : string) (retryAfter : Z)
| OpWait (o : Owner) (i : Interaction) (checkpoint history : string)
| OpSupersede (o : Owner) (id : string)
| OpHistoryTruncated (o : Owner) (turns messages before after budget : Z)
| OpBeginAttempt (o : Owner) (call : Operation) (attempt : Z) (approval : string)
| OpEndAttempt (o : Owner) (call : Operation) (attempt : Z) (outcome : string)
| OpResolveDefinition (served : option (string → bool)) (o : Owner)
| OpActivate (served : option (string → bool)) (expected candidate : string) (rollback : bool)
| OpPutDefinitionSet (digest : string) (files : gmap string string)
| OpRecordRunScope (o : Owner) (product endpoint settings : string)
| OpRecordServerInfo (o : Owner) (info : string)
| OpCommitSnapshot (o : Owner) (snap : CatalogSnapshot)
| OpRecordRunCatalog (o : Owner) (digest : string)
| OpSetActiveJourneys (o : Owner) (active : list string)
| OpRecordUsage (o : Owner) (u : Usage).

(** The database a transaction commits, if it commits. *)
Definition committed {A} (m : tx A) (s : db) : option db :=
  match m s with Ok (_, s') => Some s' | Err _ => None end.

Section exec.
Context {codec : Codec}.

Definition exec (now : Z) (x : op) (s : db) : option db :=
  match x with
  | OpAdmit c => committed (Admit now c) s
  | OpClaim c id d => committed (Claim now c id d) s
  | OpCheck o => committed (Check now o) s
  | OpRenew o d => committed (Renew now o d) s
  | OpReap t r => committed (reapOne now (t, r)) s
  | OpPending o => committed (Pending now o) s
  | OpIncluded o l => committed (Included now o l) s
  | OpStart o j d => committed (Start now o j d) s
  | OpFinish o st h a c t => committed (Finish now o st h a c t) s
  | OpFinishFailed o h r => committed (FinishFailed now o h r) s
  | OpFinishLimitExceeded o h k d => committed (FinishLimitExceeded now o h k d) s
  | OpWait o i ck h => committed (Wait now o i ck h) s
  | OpSupersede o id => committed (Supersede now o id) s
  | OpHistoryTruncated o a b c d e => committed (HistoryTruncated now o a b c d e) s
  | OpBeginAttempt o c n a => committed (BeginAttempt now o c n a) s
  | OpEndAttempt o c n out => committed (EndAttempt now o c n out) s
  | OpResolveDefinition f o => committed (ResolveDefinition now f o) s
  | OpActivate f e c b => committed (activate now f e c b) s
  | OpPutDefinitionSet d files => committed (PutDefinitionSet d files) s
  | OpRecordRunScope o p e c => committed (RecordRunScope now o p e c) s
  | OpRecordServerInfo o i => committed (RecordServerInfo now o i) s
  | OpCommitSnapshot o c => committed (CommitSnapshot now o c) s
  | OpRecordRunCatalog o d => committed (RecordRunCatalog now o d) s
  | OpSetActiveJourneys o a => committed (SetActiveJourneys now o a) s
  | OpRecordUsage o u => committed (RecordUsage now o u) s
  end.

Definition step (s s' : db) : Prop := ∃ now x, exec now x s = Some s'.
Definition steps : relation db := rtc step.
Definition reachable (s : db) : Prop := steps empty_db s.

(** The database after a list of calls; one that fails changes nothing. *)
Definition run_ops (l : list (Z * op)) (s : db) : db :=
  foldl (λ s x, default s (exec x.1 x.2 s)) s l.

Lemma committed_ok {A} (m : tx A) s s' : committed m s = Some s' → ∃ a, m s = Ok (a, s').
Proof. unfold committed. destruct (m s) as [[a s0]|]; naive_solver. Qed.

Lemma run_ops_steps l s : steps s (run_ops l s).
Proof.
  revert s. induction l as [|[now x] l IH]; intros s; simpl; [apply rtc_refl|].
  destruct (exec now x s) as [s'|] eqn:E; simpl; [|apply IH].
  eapply rtc_l; [by exists now, x|apply IH].
Qed.

(** The conversation a call belongs to (none for the definition store, which
    changes no conversation's life). *)
Definition op_conversation (x : op) : string :=
  match x with
  | OpAdmit c | OpClaim c _ _ => c.(c_ThreadID)
  | OpReap t _ => t
  | OpActivate _ _ _ _ | OpPutDefinitionSet _ _ => ""
  | OpCheck o | OpRenew o _ | OpPending o | OpIncluded o _ | OpStart o _ _ | OpFinish o _ _ _ _ _
  | OpFinishFailed o _ _ | OpFinishLimitExceeded o _ _ _ | OpWait o _ _ _ | OpSupersede o _
  | OpHistoryTruncated o _ _ _ _ _ | OpBeginAttempt o _ _ _ | OpEndAttempt o _ _ _
  | OpResolveDefinition _ o | OpRecordRunScope o _ _ _ | OpRecordServerInfo o _ | OpCommitSnapshot o _
  | OpRecordRunCatalog o _ | OpSetActiveJourneys o _ | OpRecordUsage o _ => o.(ow_Command).(c_ThreadID)
  end.

Lemma sim_apply {A} t (m : tx A) s a s' : sim t m → linv (core s) → m s = Ok (a, s') →
  lsteps t (core s) (core s').
Proof. intros Hs. apply Hs. Qed.

Ltac op_sim :=
  first [ apply sim_Admit | apply sim_Claim | apply sim_reapOne | apply sim_Included | apply sim_Finish
        | apply sim_FinishFailed | apply sim_FinishLimitExceeded | apply sim_Wait
        | apply sim_neutral;
          first [ apply neutral_Check | apply neutral_Renew | apply neutral_Pending | apply neutral_Start
            | apply neutral_Supersede | apply neutral_HistoryTruncated | apply neutral_BeginAttempt
            | apply neutral_EndAttempt | apply neutral_ResolveDefinition | apply neutral_activate
            | apply neutral_PutDefinitionSet | apply neutral_RecordRunScope
            | apply neutral_RecordServerInfo | apply neutral_CommitSnapshot
            | apply neutral_RecordRunCatalog | apply neutral_SetActiveJourneys
            | apply neutral_RecordUsage ] ].

Lemma exec_sim now x s s' : linv (core s) → exec now x s = Some s' →
  lsteps (op_conversation x) (core s) (core s').
Proof.
  intros Hinv Hx. destruct x; simpl in *; apply committed_ok in Hx as [a Hx];
    (refine (sim_apply _ _ _ _ _ _ Hinv Hx); op_sim).
Qed.

Lemma linv_empty : linv (core empty_db).
Proof.
  split; [apply in_phases_empty|]. split; unfold keys; simpl;
    try (intros *; rewrite fmap_empty, lookup_empty; done); try constructor.
  intros th co ru ex Hin. by apply elem_of_nil in Hin.
Qed.

Lemma linv_exec s s' : step s s' → linv (core s) → linv (core s').
Proof. intros (now & x & Hx) Hinv. eapply linv_steps; [by eapply exec_sim|done]. Qed.

Lemma reachable_linv s : reachable s → linv (core s).
Proof.
  unfold reachable, steps. intros Hr. pose proof linv_empty as Hinv. revert Hinv.
  induction Hr; [done|]. eauto using linv_exec.
Qed.

Lemma reachable_steps s s' : reachable s → steps s s' → reachable s'.
Proof. unfold reachable, steps. intros. by etransitivity. Qed.
End exec.

(** ** Facts about several steps *)

Section facts.
Context {codec : Codec}.

Lemma steps_ind_core (P : lstate → lstate → Prop) : PreOrder P →
  (∀ t l l', lstep t l l' → P l l') →
  ∀ s s', reachable s → steps s s' → P (core s) (core s').
Proof.
  intros HP Hstep.
  assert (∀ t l l', lsteps t l l' → P l l') as Hsteps.
  { induction 1; [reflexivity|]. etransitivity; [by eapply Hstep|done]. }
  intros s s' Hr Hs. pose proof (reachable_linv _ Hr) as Hinv. clear Hr.
  induction Hs as [s|s1 s2 s3 (now & x & Hx) Hs IH]; [reflexivity|].
  assert (step s1 s2) as Hst by (exists now, x; exact Hx).
  transitivity (core s2); [|apply IH; by eapply linv_exec].
  eapply Hsteps, exec_sim; done.
Qed.

(** Every run is still there and has moved along its state machine. *)
Definition runs_move (l l' : lstate) : Prop := ∀ id r, l.(l_runs) !! id = Some r →
  ∃ r', l'.(l_runs) !! id = Some r' ∧ r'.(lr_thread) = r.(lr_thread) ∧
    rtc run_move r.(lr_state) r'.(lr_state) ∧
    (r.(lr_state) ≠ RunPending → r'.(lr_epoch) = r.(lr_epoch)).

Lemma not_pending_move st st' : rtc run_move st st' → st ≠ RunPending → st' ≠ RunPending.
Proof. induction 1 as [|x y z Hm _ IH]; [done|]. intros _. apply IH. destruct Hm; try done. by intros ->. Qed.

#[export] Instance runs_move_preorder : PreOrder runs_move.
Proof.
  split.
  - intros l id r Hr. exists r. split_and!; auto using rtc_refl.
  - intros l1 l2 l3 H1 H2 id r Hr. destruct (H1 id r Hr) as (r2 & Hr2 & Ht2 & Hm2 & He2).
    destruct (H2 id r2 Hr2) as (r3 & Hr3 & Ht3 & Hm3 & He3). exists r3.
    split_and!; [done|congruence|by etransitivity|]. intros Hp. rewrite He3, He2; [done|done|].
    by eapply not_pending_move.
Qed.

Lemma lstep_runs_move t l l' : lstep t l l' → runs_move l l'.
Proof.
  intros Hs id r Hr. destruct (lstep_run_aux t l l' id r Hs Hr) as (r' & Hr' & Ht & Hst & He).
  exists r'. split_and!; [done|done| |].
  - destruct Hst as [->|Hm]; [apply rtc_refl|by apply rtc_once].
  - intros Hp. by destruct He as [He|[? _]].
Qed.

Lemma terminal_final st st' : rtc run_move st st' → terminal st = true → st' = st.
Proof. destruct 1 as [|x y z Hm _]; [done|]. by destruct Hm. Qed.

Lemma steps_run s s' id r : reachable s → steps s s' → s.(runs) !! id = Some r →
  ∃ r', s'.(runs) !! id = Some r' ∧ r'.(rn_thread) = r.(rn_thread) ∧
    rtc run_move r.(rn_state) r'.(rn_state) ∧ (r.(rn_state) ≠ RunPending → r'.(rn_epoch) = r.(rn_epoch)).
Proof.
  intros Hr Hs Hl.
  destruct (steps_ind_core runs_move _ lstep_runs_move s s' Hr Hs id (lrun_of r) (core_run _ _ _ Hl))
    as (lr & Hlr & Ht & Hm & He).
  apply core_run_inv in Hlr as (r' & Hr' & ->). by exists r'.
Qed.

(** A running run that is owned now stays its owner's while it runs. *)
Lemma not_running_again st st' : rtc run_move st st' → st ≠ RunPending → st ≠ RunRunning → st' ≠ RunRunning.
Proof.
  induction 1 as [|x y z Hm _ IH]; [done|]. intros Hp Hr. apply IH; destruct Hm; try done; by intros ->.
Qed.

(** ** The theorems *)

(** C19 In every reachable database each conversation is in exactly one phase:
    idle, one live run (to which all its pending commands belong), or one run
    waiting for one open interaction. *)
Theorem conversation_in_one_phase (s : db) (t : string) :
  reachable s → ∃ p, lphase (core s) t p ∧ ∀ p', lphase (core s) t p' → p' = p.
Proof.
  intros Hr. destruct (proj1 (reachable_linv s Hr) t) as [p Hp]. exists p. split; [done|].
  intros p' Hp'. by eapply phase_unique.
Qed.

(** C18 Every transaction of the journal is a sequence of steps of the abstract
    life of its conversation. *)
Theorem journal_refines_lifecycle (now : Z) (x : op) (s s' : db) :
  reachable s → exec now x s = Some s' → lsteps (op_conversation x) (core s) (core s').
Proof. intros Hr. by apply exec_sim, reachable_linv. Qed.

(** A transaction moves its own conversation along the phases (idle to live
    by admission, live to waiting, waiting to live by a reply or to idle by
    expiry, live to idle) and leaves every other conversation where it is. *)
Theorem transactions_follow_phases (now : Z) (x : op) (s s' : db) (t : string) (p : phase) :
  reachable s → exec now x s = Some s' → lphase (core s) t p →
  ∃ p', lphase (core s') t p' ∧
    if decide (t = op_conversation x) then rtc phase_step p p' else p' = p.
Proof.
  intros Hr Hx. pose proof (exec_sim _ _ _ _ (reachable_linv s Hr) Hx) as Hl. clear Hx.
  revert p. induction Hl as [l|l1 l2 l3 H1 H2 IH]; intros p Hp.
  - exists p. split; [done|]. case_decide; [apply rtc_refl|done].
  - case_decide as Ht.
    + subst t. destruct (lstep_phase_aux _ _ _ _ H1 Hp) as (p2 & Hp2 & Hs).
      destruct (IH p2 Hp2) as (p3 & Hp3 & Hs3). exists p3. split; [done|]. by eapply rtc_l.
    + assert (lphase l2 t p) as Hp2 by (eapply lphase_same; [eapply lstep_other; [done|congruence]|done]).
      exact (IH p Hp2).
Qed.

(** A run never disappears, never changes conversation, and its state only
    moves along the state machine; a terminal state is final. *)
Theorem runs_follow_state_machine (s s' : db) (id : string) (r : run_row) :
  reachable s → steps s s' → s.(runs) !! id = Some r →
  ∃ r', s'.(runs) !! id = Some r' ∧ r'.(rn_thread) = r.(rn_thread) ∧
    rtc run_move r.(rn_state) r'.(rn_state) ∧
    (terminal r.(rn_state) = true → r'.(rn_state) = r.(rn_state)).
Proof.
  intros Hr Hs Hl. destruct (steps_run s s' id r Hr Hs Hl) as (r' & Hr' & Ht & Hm & _).
  exists r'. split_and!; [done..|]. by apply terminal_final.
Qed.

(** C21 At any time a conversation has at most one valid owner: two owners that
    both pass [lockOwner] have the same run, the same ID and the same epoch. *)
Theorem owner_exclusive (now : Z) (o1 o2 : Owner) (s : db) :
  reachable s → is_ok (lockOwner now o1 s) = true → is_ok (lockOwner now o2 s) = true →
  o1.(ow_Command).(c_ThreadID) = o2.(ow_Command).(c_ThreadID) →
  o1.(ow_Command).(c_RunID) = o2.(ow_Command).(c_RunID) ∧
  o1.(ow_ID) = o2.(ow_ID) ∧ o1.(ow_Epoch) = o2.(ow_Epoch).
Proof.
  intros Hr H1 H2 Ht.
  destruct (lockOwner now o1 s) as [[u1 s1]|] eqn:E1; [|done].
  destruct (lockOwner now o2 s) as [[u2 s2]|] eqn:E2; [|done].
  apply lockOwner_ok in E1 as (_ & r1 & O1). apply lockOwner_ok in E2 as (_ & r2 & O2).
  destruct (proj1 (reachable_linv s Hr) (c_ThreadID (ow_Command o1))) as [p Hp].
  pose proof (phase_live Hp _ _ (owned_run _ _ _ _ O1) eq_refl eq_refl) as E1.
  pose proof (owned_run _ _ _ _ O2) as Hr2. rewrite <- Ht in Hr2.
  pose proof (phase_live Hp _ _ Hr2 eq_refl eq_refl) as E2. rewrite E1 in E2. injection E2 as E.
  split; [done|]. destruct O1 as [R1 _ _ W1 P1 _ _], O2 as [R2 _ _ W2 P2 _ _]. rewrite E in R1. split; congruence.
Qed.

(** An owner whose run has ended, waits, or was claimed under another epoch. *)
Definition fenced (o : Owner) (s : db) : Prop :=
  ∃ r, s.(runs) !! o.(ow_Command).(c_RunID) = Some r ∧ r.(rn_state) ≠ RunPending ∧
    (r.(rn_state) ≠ RunRunning ∨ r.(rn_epoch) ≠ o.(ow_Epoch)).

(** C20 A fenced owner stays fenced: after any further transactions, at any
    later time, its check still fails. *)
Theorem fenced_forever (o : Owner) (s s' : db) (now : Z) :
  reachable s → fenced o s → steps s s' → is_ok (lockOwner now o s') = false.
Proof.
  intros Hr (r & Hl & Hp & Hf) Hs. destruct (steps_run s s' _ r Hr Hs Hl) as (r' & Hr' & _ & Hm & He).
  destruct (lockOwner now o s') as [[u s1]|] eqn:E; [|done]. exfalso.
  apply lockOwner_ok in E as (_ & r2 & [Hr2 _ Hst _ Hep _ _]). simplify_eq.
  destruct Hf as [Hf|Hf]; [|by rewrite He in Hep].
  by eapply not_running_again.
Qed.

(** C32 No admitted command is lost: in every reachable database each command
    belongs to a run of its conversation, and once that run is no longer live
    the command was included in a provider request or carries the reason it
    was not. *)
Theorem no_command_lost (s : db) (c : command_row) :
  reachable s → c ∈ s.(commands) →
  ∃ r, s.(runs) !! c.(cm_exec) = Some r ∧ r.(rn_thread) = c.(cm_thread) ∧
    (is_live r.(rn_state) = false → c.(cm_included) = true ∨ c.(cm_terminal) ≠ "").
Proof.
  intros Hr Hin. destruct (reachable_linv s Hr) as [Hph Hwf].
  destruct (lw_exec _ Hwf c.(cm_thread) c.(cm_comm) c.(cm_run) c.(cm_exec)) as (lr & Hlr & Ht).
  { apply list_elem_of_fmap. by exists c. }
  apply core_run_inv in Hlr as (r & Hl & ->). exists r. split_and!; [done..|]. intros Hnl.
  destruct (pending_command c) eqn:Hpend.
  - exfalso. destruct (Hph c.(cm_thread)) as [p Hp]. pose proof (lp_cmd _ _ _ Hp c Hin eq_refl Hpend) as ->.
    pose proof (lp_run _ _ _ Hp _ _ (core_run _ _ _ Hl) Ht) as Hst. simpl in Hst.
    destruct (rn_state r); simpl in *; try done; naive_solver.
  - unfold pending_command in Hpend. apply andb_false_iff in Hpend as [H|H]; gosimpl; [by left|by right].
Qed.

(** Commands are an append-only log: their identity, their payload and the
    run they were mapped to never change, and neither does a disposition once
    it is made. *)
Theorem commands_append_only (s s' : db) :
  reachable s → steps s s' → cmds_evolve s.(commands) s'.(commands).
Proof.
  apply (steps_ind_core (λ l l', cmds_evolve l.(l_cmds) l'.(l_cmds))); [|apply lstep_cmds].
  split; [intros l; reflexivity|intros l1 l2 l3; apply transitivity].
Qed.
End facts.
