(* ===== verification/Migrate.v ===== *)
(** * Schema migrations

    [internal/journal/migrate.go]: the forward-only migrations of the database
    and the table that records them.  The effect of a migration's SQL is
    PostgreSQL's ([exec_sql]); the whole of [Migrate] is one transaction under
    an advisory lock, so replicas that start together take turns. *)
From S2P Require Import Prelude GoText Db CallBinding.

#[local] Open Scope Z_scope.
#[local] Set Default Proof Using "Type".

Inductive migrate_error := MNewer | MChecksum (version : nat) | MDatabase.

Section migrate.
Context `{codec : Codec} {T : Type} (exec_sql : string → T → option T).

(** The table [agent_schema_migrations], once it exists, and all others. *)
Record schema := mk_schema { sc_versions : option (gmap nat string); sc_tables : T }.

(** [COALESCE(max(version),0)] *)
Definition max_version (m : gmap nat string) : nat := max_list (fst <$> map_to_list m).
Definition checksum (data : string) : string := hex (sha256 data).

(** The loop, from the migration after the first [i] on. *)
Fixpoint apply_migrations (i : nat) (files : list string) (versions : gmap nat string) (tables : T)
    : result migrate_error (gmap nat string * T) :=
  match files with
  | [] => Ok (versions, tables)
  | data :: files =>
      match versions !! S i with
      | Some existing =>
          if negb (bool_decide (existing = checksum data)) then Err (MChecksum (S i))
          else apply_migrations (S i) files versions tables
      | None =>
          match exec_sql data tables with
          | None => Err MDatabase
          | Some tables => apply_migrations (S i) files (<[S i := checksum data]> versions) tables
          end
      end
  end.

(** [migrateTo], for the texts of the migrations; an error rolls back. *)
Definition migrateTo (files : list string) (n : nat) (s : schema) : result migrate_error schema :=
  let versions := default ∅ s.(sc_versions) in
  let files := take n files in
  if (length files <? max_version versions)%nat then Err MNewer
  else
    '(versions, tables) ← apply_migrations 0 files versions s.(sc_tables);
    Ok (mk_schema (Some versions) tables).
Definition Migrate (files : list string) (s : schema) : result migrate_error schema := migrateTo files (length files) s.

(** ** Lemmas *)

Lemma max_list_le l n : (max_list l ≤ n)%nat ↔ ∀ k, k ∈ l → (k ≤ n)%nat.
Proof.
  induction l as [|x l IH]; simpl; [split; [by intros _ k ?%elem_of_nil|lia]|]. rewrite Nat.max_lub_iff, IH. split.
  - intros [Hx Hl] k [->|Hk]%elem_of_cons; [done|by apply Hl].
  - intros H. split; [apply H; by left|]. intros k Hk. apply H. by right.
Qed.
Lemma max_version_le m n : (max_version m ≤ n)%nat ↔ ∀ k, is_Some (m !! k) → (k ≤ n)%nat.
Proof.
  unfold max_version. rewrite max_list_le. split.
  - intros H k [v Hv]. apply H, list_elem_of_fmap. exists (k, v). split; [done|]. by apply elem_of_map_to_list.
  - intros H k ([k' v] & -> & Hk)%list_elem_of_fmap. apply elem_of_map_to_list in Hk. by apply H; exists v.
Qed.

Lemma apply_app l1 l2 : ∀ i versions tables, apply_migrations i (l1 ++ l2) versions tables =
  ('(versions, tables) ← apply_migrations i l1 versions tables; apply_migrations (i + length l1) l2 versions tables).
Proof.
  induction l1 as [|data l1 IH]; intros i versions tables; cbn [app apply_migrations length].
  { by rewrite Nat.add_0_r. }
  replace (i + S (length l1))%nat with (S i + length l1)%nat by lia.
  destruct (versions !! S i) as [existing|]; [destruct (negb _); [done|by rewrite IH]|].
  destruct (exec_sql data tables) as [tables'|]; [by rewrite IH|done].
Qed.

(** What a run of the loop leaves: the versions there were, and those of its
    files. *)
Lemma apply_result l : ∀ i versions tables versions' tables', apply_migrations i l versions tables = Ok (versions', tables') →
  versions ⊆ versions' ∧ (∀ k data, l !! k = Some data → versions' !! S (i + k) = Some (checksum data)) ∧
  ∀ k, is_Some (versions' !! k) → is_Some (versions !! k) ∨ (k ≤ i + length l)%nat.
Proof.
  induction l as [|data l IH]; intros i versions tables versions' tables'; cbn [apply_migrations length].
  { intros [= <- <-]. by split_and!; [|intros k data ?|left]. }
  destruct (versions !! S i) as [existing|] eqn:V.
  - case_bool_decide as Hc; [|done]. intros (Hsub & Hl & Hk)%IH. cbn [negb] in *. split_and!; [done| |].
    + intros [|k] d; [|intros Hd; replace (i + S k)%nat with (S i + k)%nat by lia; by apply Hl].
      intros [= <-]. rewrite Nat.add_0_r, <- Hc. by eapply lookup_weaken.
    + intros k Hv. apply Hk in Hv as [?|?]; [by left|right; lia].
  - destruct (exec_sql data tables) as [t|]; [|done]. intros (Hsub & Hl & Hk)%IH. split_and!.
    + etransitivity; [|exact Hsub]. by apply insert_subseteq.
    + intros [|k] d; [|intros Hd; replace (i + S k)%nat with (S i + k)%nat by lia; by apply Hl].
      intros [= <-]. rewrite Nat.add_0_r. eapply lookup_weaken; [|exact Hsub]. apply lookup_insert_eq.
    + intros k Hv. apply Hk in Hv as [Hv|?]; [|right; lia]. destruct (decide (k = S i)) as [->|Hne]; [right; lia|].
      left. by rewrite lookup_insert_ne in Hv.
Qed.

(** Files that are applied already change nothing. *)
Lemma apply_applied l : ∀ i versions tables, (∀ k data, l !! k = Some data → versions !! S (i + k) = Some (checksum data)) →
  apply_migrations i l versions tables = Ok (versions, tables).
Proof.
  induction l as [|data l IH]; intros i versions tables Hl; [done|]. cbn [apply_migrations].
  pose proof (Hl 0%nat data eq_refl) as H0. rewrite Nat.add_0_r in H0. rewrite H0, bool_decide_eq_true_2 by done. cbn [negb].
  apply IH. intros k d Hk. replace (S i + k)%nat with (i + S k)%nat by lia. by apply Hl.
Qed.

(** Upgrading in steps is upgrading at once, in every order replicas start
    in: after a binary with [n] migrations has migrated a database, one with
    [m >= n] has exactly the result it would have had without it, the same
    binary changes nothing, and the older binary refuses a database the newer
    one has migrated. *)
Theorem migrations_compose (files : list string) (n m : nat) (s s1 : schema) (Hn : (n <= m <= length files)%nat)
    (Hfirst : migrateTo files n s = Ok s1) :
  migrateTo files m s1 = migrateTo files m s ∧ migrateTo files n s1 = Ok s1 ∧
  ∀ s2, migrateTo files m s1 = Ok s2 → (n < m)%nat → migrateTo files n s2 = Err MNewer.
Proof.
  unfold migrateTo in Hfirst. cbv zeta in Hfirst. destruct (Nat.ltb_spec (length (take n files)) (max_version (default ∅ (sc_versions s)))) as [|Hv]; [done|].
  apply bind_ok in Hfirst as ([versions tables] & Ha & [= <-]). destruct (apply_result _ _ _ _ _ _ Ha) as (Hsub & Hl & Hk).
  assert (∀ k, length (take k files) = k `min` length files)%nat as Hlen by (intros; apply length_take).
  assert (max_version versions ≤ n)%nat as Hmax.
  { apply max_version_le. intros k [Hs|Hle]%Hk; [|rewrite Hlen in Hle; lia]. rewrite max_version_le in Hv. apply Hv in Hs. rewrite Hlen in Hs. lia. }
  assert (∀ tables, apply_migrations 0 (take n files) versions tables = Ok (versions, tables)) as Hdone by (intros; by apply apply_applied).
  assert (take m files = take n files ++ drop n (take m files)) as Hsplit.
  { rewrite <- (take_drop n (take m files)) at 1. by rewrite take_take, Nat.min_l by lia. }
  split_and!.
  - unfold migrateTo. cbn [sc_versions sc_tables default from_option id]. rewrite !Hlen. rewrite Hlen in Hv.
    destruct (Nat.ltb_spec (m `min` length files)%nat (max_version versions)); [lia|].
    destruct (Nat.ltb_spec (m `min` length files)%nat (max_version (default ∅ (sc_versions s)))); [lia|].
    rewrite Hsplit, !apply_app, Ha, Hdone. done.
  - unfold migrateTo. cbn [sc_versions sc_tables default from_option id]. rewrite Hlen.
    destruct (Nat.ltb_spec (n `min` length files)%nat (max_version versions)); [lia|]. by rewrite Hdone.
  - intros s2 H2 Hnm. unfold migrateTo in H2. cbn [sc_versions sc_tables default from_option id] in H2.
    destruct (Nat.ltb_spec (length (take m files)) (max_version versions)); [done|].
    apply bind_ok in H2 as ([versions2 tables2] & Ha2 & [= <-]). destruct (apply_result _ _ _ _ _ _ Ha2) as (_ & Hl2 & _).
    unfold migrateTo. cbn [sc_versions sc_tables default from_option id]. rewrite Hlen.
    destruct (lookup_lt_is_Some_2 (take m files) (m - 1)) as [data Hd]; [rewrite Hlen; lia|].
    apply Hl2 in Hd. replace (S (0 + (m - 1)))%nat with m in Hd by lia.
    destruct (Nat.ltb_spec (n `min` length files)%nat (max_version versions2)) as [|Hle]; [done|].
    rewrite max_version_le in Hle. specialize (Hle m ltac:(by eexists)). lia.
Qed.
End migrate.

Lemma migrations_compose_witness : ∃ s,
  migrateTo (codec := toy_codec) (λ sql t, Some (t ++ [sql])) ["a"; "b"] 2 (mk_schema (Some {[1%nat := checksum (codec := toy_codec) "a"]}) ["a"]) = Ok s ∧ s.(sc_tables) = ["a"; "b"].
Proof.
  destruct (migrations_compose (codec := toy_codec) (λ sql t, Some (t ++ [sql])) ["a"; "b"] 1 2 (mk_schema None [])
              (mk_schema (Some {[1%nat := checksum (codec := toy_codec) "a"]}) ["a"])) as (-> & _).
  - simpl. lia.
  - vm_compute. reflexivity.
  - eexists. vm_compute. split; reflexivity.
Defined.
