(* ===== verification/JournalKeeps.v ===== *)
(** * What every transaction of the journal keeps

    A relation that holds across each kind of write holds across every
    transaction.  It is used for the facts that do not depend on the order of
    the writes: the event log, the conversations' principals, the append-only
    tables. *)
From S2P Require Import Prelude GoText Db CallBinding Interactions JournalCore Commands Owners Runs.
From S2P Require Import Operations DefinitionStore Records Keeps Journal.

(** The columns of a conversation that only its creation and its events set. *)
Definition conv_same (c c' : conv_row) : Prop :=
  c'.(cv_principal) = c.(cv_principal) ∧ c'.(cv_sequence) = c.(cv_sequence) ∧
  (0 <= c'.(cv_owner_epoch) - c.(cv_owner_epoch)).

(** The writes of the journal, as they are made. *)
Class Writes (R : relation db) : Prop := {
  w_preorder :: PreOrder R;
  w_open s t p : s.(convs) !! t = None → R s (upd_convs <[t := new_conv p]> s);
  w_conv s t c c' : s.(convs) !! t = Some c → conv_same c c' → R s (upd_convs <[t := c']> s);
  w_event s t c e r : s.(convs) !! t = Some c → run_of t e.(e_RunID) s = Some r →
    R s (upd_events (λ l, l ++ [(t, with_sequence (c.(cv_sequence) + 1) e)])
          (upd_convs <[t := upd_cv_sequence (λ n, n + 1) c]> s));
  w_runs s f : R s (upd_runs f s);
  w_commands s f : R s (upd_commands f s);
  w_usage s u : R s (upd_usages (λ l, l ++ [u]) s);
  w_current s f : R s (upd_current f s);
  w_put_set s d files : s.(def_sets) !! d = None → R s (upd_def_sets <[d := mk_defset None files]> s);
  w_activated s d now : R s (upd_def_sets (alter (λ r, mk_defset (Some (default now r.(ds_activated))) r.(ds_files)) d) s);
  w_snapshot s d row : s.(snapshots) !! d = None → R s (upd_snapshots <[d := row]> s);
}.

(** The transactions that touch interactions, operations or attempts, each as
    a whole: what they write depends on what they read. *)
Class CallWrites {codec : Codec} (R : relation db) : Prop := {
  cw_unknown t run : keeps R (markOperationsUnknown t run);
  cw_expire now t : keeps R (expireInteractions now t);
  cw_reply now c answer : keeps R (replyNew now c answer);
  cw_wait now o i checkpoint history : keeps R (Wait now o i checkpoint history);
  cw_supersede t run id : keeps R (supersede t run id);
  cw_begin now o op n approval : keeps R (BeginAttempt now o op n approval);
  cw_end now o op n out : keeps R (EndAttempt now o op n out);
}.

(** A relation that does not look at those tables. *)
Class FreeCalls (R : relation db) : Prop := {
  fc_interactions s f : R s (upd_interactions f s);
  fc_operations s f : R s (upd_operations f s);
  fc_attempts s f : R s (upd_attempts f s);
}.

Section keeps_ops.
Context {codec : Codec} (R : relation db) {HW : Writes R} (now : Z).

Lemma k_update_conv t f : (∀ c, conv_same c (f c)) → keeps R (update_conv t f).
Proof using HW. intros Hf. apply keeps_update_conv; [apply _|]. intros s c Hc. by eapply w_conv. Qed.

Lemma k_appendEvent t e : keeps R (appendEvent t e).
Proof using HW.
  intros s a s' Hm. unfold appendEvent in Hm. tx_get Hm row. tx_the Hm c Hc.
  tx_step Hm u s1 H1. unfold update_conv in H1. tx_get H1 row. rewrite Hc in H1. tx_guard H1 Hchk.
  injection H1 as _ <-. tx_get Hm run. tx_guard Hm Hr. injection Hm as _ <-.
  apply bool_decide_eq_true in Hr as [r Hr]. by eapply (w_event s t c e r).
Qed.

Lemma k_insert_conv t p : keeps R (insert_conv t p).
Proof using HW.
  intros s a s' Hm. unfold insert_conv in Hm. injection Hm as _ <-.
  destruct (convs s !! t) as [c|] eqn:E.
  - assert (upd_convs (λ m, match m !! t with Some _ => m | None => <[t := new_conv p]> m end) s = s) as ->
      by (destruct s; unfold upd_convs; simpl in *; by rewrite E). reflexivity.
  - assert (upd_convs (λ m, match m !! t with Some _ => m | None => <[t := new_conv p]> m end) s
      = upd_convs <[t := new_conv p]> s) as -> by (unfold upd_convs; by rewrite E). by apply w_open.
Qed.

Lemma k_insert_snapshot d row : keeps R (insert_snapshot d row).
Proof using HW.
  intros s a s' Hm. unfold insert_snapshot in Hm. tx_guard Hm Hg. injection Hm as _ <-.
  destruct (snapshots s !! d) as [c|] eqn:E.
  - assert (upd_snapshots (λ m, match m !! d with Some _ => m | None => <[d := row]> m end) s = s) as ->
      by (destruct s; unfold upd_snapshots; simpl in *; by rewrite E). reflexivity.
  - assert (upd_snapshots (λ m, match m !! d with Some _ => m | None => <[d := row]> m end) s
      = upd_snapshots <[d := row]> s) as -> by (unfold upd_snapshots; by rewrite E). by apply w_snapshot.
Qed.

Lemma k_PutDefinitionSet d files : keeps R (PutDefinitionSet d files).
Proof using HW.
  intros s a s' Hm. unfold PutDefinitionSet in Hm. tx_guard Hm Hg. tx_get Hm row.
  destruct (def_sets s !! d) eqn:E; [txsimpl; reflexivity|]. injection Hm as _ <-. by apply w_put_set.
Qed.

Lemma conv_same_refl c : conv_same c c.
Proof. split_and!; [done..|lia]. Qed.

Ltac writes :=
  repeat first
    [ progress keeps_walk
    | apply k_appendEvent | apply k_insert_conv | apply k_insert_snapshot
    | (apply keeps_lockOwner; apply _) | (apply keeps_lockConversation; apply _)
    | (apply keeps_lockForClaim; apply _) | (apply keeps_run_scope; apply _)
    | (apply keeps_BeginFunc; [apply _|])
    | (apply k_update_conv; intros; first [apply conv_same_refl | by split_and!; simpl; (done || lia)])
    | (apply keeps_update_run; [apply _|intros; apply w_runs])
    | (apply keeps_put_run; intros; apply w_runs)
    | (apply keeps_modify; intros;
       first [apply w_runs | apply w_commands | apply w_usage | apply w_current | apply w_activated
             | apply fc_interactions | apply fc_operations | apply fc_attempts])
    | (apply keeps_update_interaction; [apply _|intros; apply fc_interactions]) ].

Lemma k_update_history t h : keeps R (update_history t h).
Proof using HW. unfold update_history. writes. Qed.
Lemma k_update_commands cond f : keeps R (update_commands cond f).
Proof using HW. unfold update_commands. writes. Qed.
Lemma k_insert_command t co run c ex : keeps R (insert_command t co run c ex).
Proof using HW. unfold insert_command. writes. Qed.
Lemma k_insert_run id r : keeps R (insert_run id r).
Proof using HW. unfold insert_run. writes. Qed.

Ltac writes2 :=
  repeat first
    [ progress writes | apply k_update_history | apply k_update_commands | apply k_insert_command
    | apply k_insert_run ].

Lemma k_disposePending t run st : keeps R (disposePending t run st).
Proof using HW. unfold disposePending. writes2. Qed.
Lemma k_replay c p : keeps R (replay c p).
Proof using HW. unfold replay. writes. Qed.
Lemma k_Claim c id d : keeps R (Claim now c id d).
Proof using HW. unfold Claim. cbv zeta. writes2. Qed.
Lemma k_Included o l : keeps R (Included now o l).
Proof using HW. unfold Included, includeOne. writes2. Qed.
Lemma k_Start o j d : keeps R (Start now o j d).
Proof using HW. unfold Start, pinConversation. cbv zeta. writes2. Qed.
Lemma k_ResolveDefinition served o : keeps R (ResolveDefinition now served o).
Proof using HW. unfold ResolveDefinition. cbv zeta. writes2. Qed.
Lemma k_activate served e c b : keeps R (activate now served e c b).
Proof using HW. unfold activate, markActivated. writes2. Qed.
Lemma k_CommitSnapshot o c : keeps R (CommitSnapshot now o c).
Proof using HW. unfold CommitSnapshot. cbv zeta. writes2. Qed.
End keeps_ops.

(** The tactics of the section, for the transactions of the classes below. *)
Ltac writes :=
  repeat first
    [ progress keeps_walk
    | match goal with |- Writes _ => apply _ | |- FreeCalls _ => apply _ | |- CallWrites _ => apply _ end
    | apply k_appendEvent | apply k_insert_conv | apply k_insert_snapshot
    | (apply keeps_lockOwner; apply _) | (apply keeps_lockConversation; apply _)
    | (apply keeps_lockForClaim; apply _) | (apply keeps_run_scope; apply _)
    | (apply keeps_BeginFunc; [apply _|])
    | (apply k_update_conv; [apply _|intros; first [apply conv_same_refl | by split_and!; simpl; (done || lia)]])
    | (apply keeps_update_run; [apply _|intros; apply w_runs])
    | (apply keeps_put_run; intros; apply w_runs)
    | apply k_update_history | apply k_update_commands | apply k_insert_command | apply k_insert_run
    | apply k_disposePending | apply k_replay
    | (apply keeps_modify; intros;
       first [apply w_runs | apply w_commands | apply w_usage | apply w_current | apply w_activated
             | apply fc_interactions | apply fc_operations | apply fc_attempts])
    | (apply keeps_update_interaction; [apply _|intros; apply fc_interactions]) ].

(** ** Relations that do not look at calls *)

#[export] Instance free_calls {codec : Codec} (R : relation db) `{!Writes R, !FreeCalls R} : CallWrites R.
Proof.
  assert (∀ now t, keeps R (expireInteractions now t)) as Hexp.
  { intros now t. unfold expireInteractions, expireRun. writes. }
  assert (∀ t run id, keeps R (supersede t run id)) as Hsup.
  { intros t run id. unfold supersede. writes. }
  split; [|done| | |done| |]; intros.
  - unfold markOperationsUnknown. writes.
  - unfold replyNew, consumeReply. cbv zeta. writes; done.
  - unfold Wait, insert_interaction, put_interaction. cbv zeta. writes.
  - unfold BeginAttempt, firstAttempt, takeApproval, retryAttempt, insert_operation, insert_attempt. cbv zeta.
    writes; done.
  - unfold EndAttempt. cbv zeta. writes.
Qed.

(** ** Every transaction *)

Section all_ops.
Context {codec : Codec} (R : relation db) {HW : Writes R} {HC : CallWrites R} (now : Z).

Ltac calls :=
  repeat first
    [ progress writes | apply cw_unknown | apply cw_expire | apply cw_reply | apply cw_supersede ].

Lemma k_interruptExpired t cand : keeps R (interruptExpired now t cand).
Proof using HW HC. unfold interruptExpired. calls. Qed.
Lemma k_reply c : keeps R (reply now c).
Proof using HW HC. unfold reply. cbv zeta. calls. Qed.
Lemma k_admitNew c : keeps R (admitNew now c).
Proof using HW HC. unfold admitNew. cbv zeta. calls; apply k_interruptExpired. Qed.
Lemma k_Admit c : keeps R (Admit now c).
Proof using HW HC.
  unfold Admit. destruct (nonempty _); [apply k_reply|]. calls. apply keeps_unique_is_conflict.
  calls. apply k_admitNew.
Qed.
Lemma k_reapOne p : keeps R (reapOne now p).
Proof using HW HC. unfold reapOne. calls. apply k_interruptExpired. Qed.
Lemma k_finish o st h a c t e : keeps R (finish now o st h a c t e).
Proof using HW HC. unfold finish. cbv zeta. calls. Qed.
Lemma k_Finish o st h a c t : keeps R (Finish now o st h a c t).
Proof using HW HC. unfold Finish. calls; apply k_finish. Qed.
Lemma k_FinishFailed o h r : keeps R (FinishFailed now o h r).
Proof using HW HC. unfold FinishFailed. calls. apply k_finish. Qed.
Lemma k_FinishLimitExceeded o h k d : keeps R (FinishLimitExceeded now o h k d).
Proof using HW HC. unfold FinishLimitExceeded. calls; apply k_finish. Qed.

Lemma exec_keeps x s s' : exec now x s = Some s' → R s s'.
Proof using HW HC.
  intros Hx. destruct x; simpl in Hx; apply committed_ok in Hx as [a Hx]; revert s a s' Hx;
    match goal with |- ∀ s a s', ?m s = Ok (a, s') → _ => change (keeps R m) end;
    first
    [ apply k_Admit | (apply k_Claim; apply _) | apply k_reapOne | (apply k_Included; apply _) | apply k_Finish | apply k_FinishFailed
    | apply k_FinishLimitExceeded | apply cw_wait | apply cw_begin | apply cw_end | (apply k_Start; apply _)
    | (apply k_ResolveDefinition; apply _) | (apply k_activate; apply _) | (apply k_CommitSnapshot; apply _) | (apply k_PutDefinitionSet; apply _)
    | (unfold Check, Renew, Pending, Supersede, HistoryTruncated, RecordRunScope, RecordServerInfo,
         RecordRunCatalog, SetActiveJourneys, RecordUsage; cbv zeta; calls) ].
Qed.
End all_ops.

Lemma steps_keeps {codec : Codec} (R : relation db) `{HW : !Writes R, HC : !CallWrites R} s s' : steps s s' → R s s'.
Proof. induction 1 as [|x y z (now & op & Hx) _ IH]; [reflexivity|]. etransitivity; [by eapply exec_keeps|done]. Qed.
