(* ===== verification/Lease.v ===== *)
(** * What a lease protects

    A running run belongs to its owner until the lease ends: no transaction of
    [internal/journal] at an earlier time touches what makes it so, except
    those of that owner which renew the lease or end the run.  And a sweep
    leaves nothing that is over: runs without a valid lease are interrupted,
    waits that expired are closed. *)
From S2P Require Import Prelude GoText Db CallBinding Interactions JournalCore Commands Owners Runs.
From S2P Require Import Operations DefinitionStore Records Lifecycle Keeps JournalSim Journal JournalKeeps.

(** What of a run says who executes it, and until when. *)
Definition grip (r : run_row) : string * RunState * string * Z * Z :=
  (r.(rn_thread), r.(rn_state), r.(rn_owner), r.(rn_epoch), r.(rn_lease)).
Definition run_grip (id : string) (s : db) : option (string * RunState * string * Z * Z) := grip <$> s.(runs) !! id.

(** The owner of a transaction that writes the lease of its run, or its state. *)
Definition lease_writer (x : op) : option Owner :=
  match x with
  | OpRenew o _ | OpFinish o _ _ _ _ _ | OpFinishFailed o _ _ | OpFinishLimitExceeded o _ _ _ | OpWait o _ _ _ => Some o
  | _ => None
  end.
(** Not the owner [w] of the run [id]. *)
Definition foreign (w id : string) (o : Owner) : Prop := o.(ow_ID) = w → o.(ow_Command).(c_RunID) ≠ id.

Section lease.
Context {codec : Codec} (id thread w : string) (epoch until : Z).
Abbreviation g := (thread, RunRunning, w, epoch, until).

Definition keeps_grip (s s' : db) : Prop := run_grip id s = Some g → run_grip id s' = Some g.

#[local] Instance keeps_grip_preorder : PreOrder keeps_grip.
Proof. split; [by intros s H|]. intros s1 s2 s3 H1 H2 H. by apply H2, H1. Qed.

Lemma grip_free s s' : s'.(runs) = s.(runs) → keeps_grip s s'.
Proof. unfold keeps_grip, run_grip. by intros ->. Qed.

Lemma grip_put s i r : (i = id → run_grip id s = Some g → grip r = g) → keeps_grip s (upd_runs <[i := r]> s).
Proof.
  intros Hr H. unfold run_grip in *. simpl. destruct (decide (i = id)) as [->|Hn].
  - rewrite lookup_insert_eq. simpl. by rewrite Hr.
  - by rewrite lookup_insert_ne.
Qed.

Lemma grip_update_run t i cond f :
  (∀ r, i = id → cond r = true → grip r = g → grip (f r) = g) → keeps keeps_grip (update_run t i cond f).
Proof.
  intros Hf s a s' Hm. unfold update_run in Hm. tx_get Hm row.
  destruct (run_of t i s) as [r|] eqn:E; [|txsimpl; reflexivity].
  destruct (cond r) eqn:Hc; [|txsimpl; reflexivity].
  unfold put_run in Hm. txsimpl. apply run_of_Some in E as [Hr _].
  apply grip_put. intros -> Hg. apply Hf; [done..|]. unfold run_grip in Hg. rewrite Hr in Hg. by apply (inj Some) in Hg.
Qed.

Lemma grip_insert_run i r : keeps keeps_grip (insert_run i r).
Proof.
  intros s a s' Hm. unfold insert_run, put_run in Hm. tx_get Hm old. tx_guard Hm Ho. txsimpl.
  apply bool_decide_eq_true in Ho. apply grip_put. intros -> Hg. unfold run_grip in Hg. by rewrite Ho in Hg.
Qed.

(** Walks over a transaction that writes no lease. *)
Ltac off_grip :=
  repeat first
    [ progress keeps_walk
    | (apply keeps_lockOwner; apply _) | (apply keeps_lockConversation; apply _)
    | (apply keeps_lockForClaim; apply _) | (apply keeps_run_scope; apply _)
    | (apply keeps_BeginFunc; [apply _|]) | apply keeps_unique_is_conflict | apply grip_insert_run
    | (apply grip_update_run; intros; first [assumption | congruence | (gosimpl; unfold grip in *; simplify_eq; congruence)])
    | (apply keeps_update_conv; [apply _|intros; by apply grip_free])
    | (apply keeps_update_interaction; [apply _|intros; by apply grip_free])
    | (apply keeps_modify; intros; by apply grip_free)
    | progress unfold appendEvent, update_history, update_commands, insert_command, insert_conv, insert_snapshot,
        insert_interaction, put_interaction, insert_operation, insert_attempt, as_jsonb ].

Lemma grip_appendEvent t e : keeps keeps_grip (appendEvent t e).
Proof. off_grip. Qed.
Lemma grip_expireInteractions now t : keeps keeps_grip (expireInteractions now t).
Proof. unfold expireInteractions, expireRun. off_grip. Qed.
Lemma grip_markOperationsUnknown t run : keeps keeps_grip (markOperationsUnknown t run).
Proof. unfold markOperationsUnknown. off_grip. Qed.
Lemma grip_disposePending t run st : keeps keeps_grip (disposePending t run st).
Proof. unfold disposePending. cbv zeta. off_grip. Qed.

Section before.
Context (now : Z) (Hnow : now < until).

(** An unexpired run is not interrupted. *)
Lemma grip_interruptExpired t cand : keeps keeps_grip (interruptExpired now t cand).
Proof using Hnow.
  intros s a s' Hm. unfold interruptExpired in Hm. tx_get Hm row.
  destruct (find_row _ (runs s)) as [[run r]|] eqn:E; [|txsimpl; reflexivity].
  tx_get Hm continuation. destruct (negb _ || _) eqn:Hc; [txsimpl; reflexivity|].
  apply orb_false_iff in Hc as [Hc%negb_false_iff%Z.leb_le _].
  apply find_row_Some in E as [Hr _].
  destruct (decide (run = id)) as [->|Hn].
  { intros Hg. unfold run_grip in Hg. rewrite Hr in Hg. apply (inj Some) in Hg. unfold grip in Hg. simplify_eq. lia. }
  match type of Hm with ?m _ = _ => refine ((_ : keeps keeps_grip m) s a s' Hm) end.
  off_grip; (apply grip_markOperationsUnknown || apply grip_disposePending).
Qed.

Ltac off_grip2 :=
  repeat first [ progress off_grip | apply grip_expireInteractions | apply grip_markOperationsUnknown
               | apply grip_disposePending | apply grip_interruptExpired ].

Lemma grip_Admit c : keeps keeps_grip (Admit now c).
Proof using Hnow.
  unfold Admit, reply, replyNew, consumeReply, replay, admitNew. cbv zeta. off_grip2.
Qed.

(** A claimed run is pending before. *)
Lemma grip_Claim c i d : keeps keeps_grip (Claim now c i d).
Proof using Hnow.
  unfold Claim. cbv zeta. intros s a s' Hm. tx_guard Hm Hg.
  tx_step Hm u s1 H1. apply keeps_lockForClaim with (R := eq) in H1; [subst s1|apply _].
  tx_get Hm row. tx_the Hm acc Hacc. tx_guard Hm Heq. tx_get Hm row2. tx_the Hm r Hr.
  apply run_of_Some in Hr as [Hr Ht].
  tx_get Hm ok. tx_guard Hm Hok. unfold claimable in Hok. apply andb_true_iff in Hok as [Hst _].
  apply bool_decide_eq_true in Hst.
  destruct (decide (c.(c_RunID) = id)) as [E|Hn].
  { intros H. rewrite E in Hr. unfold run_grip in H. rewrite Hr in H. apply (inj Some) in H. unfold grip in H. simplify_eq. congruence. }
  match type of Hm with ?m _ = _ => refine ((_ : keeps keeps_grip m) s a s' Hm) end. off_grip2.
Qed.

Lemma grip_reapOne p : keeps keeps_grip (reapOne now p).
Proof using Hnow. unfold reapOne. off_grip2. Qed.

(** A transaction of another owner does not get past the check. *)
Lemma grip_foreign {A} o (m : tx A) : foreign w id o → (o.(ow_Command).(c_RunID) ≠ id → keeps keeps_grip m) →
  keeps keeps_grip (_ ← lockOwner now o; m).
Proof.
  intros Hf Hm s a s' H Hg. apply tx_bind_ok in H as (u & s1 & (-> & r & [])%lockOwner_ok & H).
  destruct (decide (o.(ow_Command).(c_RunID) = id)) as [E|Hn]; [|by eapply Hm].
  unfold run_grip in Hg. rewrite <- E in Hg. rewrite ow_run in Hg. apply (inj Some) in Hg. injection Hg as _ _ Hw _ _.
  exfalso. apply Hf; congruence.
Qed.

(** Up to the check of ownership, and past it. *)
Ltac past_check := repeat first [apply grip_foreign; [done|intros Hne] | apply keeps_bind; [apply _|solve [off_grip2]|intros ?]].

Lemma grip_Renew o d : foreign w id o → keeps keeps_grip (Renew now o d).
Proof. intros Hf. unfold Renew. past_check. off_grip2. Qed.
Lemma grip_finish o st h an c tl e : foreign w id o → keeps keeps_grip (finish now o st h an c tl e).
Proof. intros Hf. unfold finish. cbv zeta. past_check. off_grip2. Qed.
Lemma grip_Wait o i ck h : foreign w id o → keeps keeps_grip (Wait now o i ck h).
Proof. intros Hf. unfold Wait. cbv zeta. past_check. off_grip2. Qed.

Lemma exec_keeps_grip x s s' : (∀ o, lease_writer x = Some o → foreign w id o) → exec now x s = Some s' → keeps_grip s s'.
Proof using Hnow.
  intros Hw Hx. destruct x; simpl in Hx; apply committed_ok in Hx as [a Hx]; revert s a s' Hx;
    match goal with |- ∀ s a s', ?m s = Ok (a, s') → _ => change (keeps keeps_grip m) end;
    try specialize (Hw _ eq_refl);
    first [ apply grip_Admit | apply grip_Claim | apply grip_reapOne | by apply grip_Renew | by apply grip_Wait
          | (apply keeps_bind; [apply _|apply keeps_guard, _|intros _; by apply grip_finish])
          | (unfold Check, Pending, Included, includeOne, Start, pinConversation, Supersede, HistoryTruncated,
               BeginAttempt, firstAttempt, takeApproval, retryAttempt, supersede, EndAttempt, ResolveDefinition, activate, markActivated, PutDefinitionSet,
               RecordRunScope, RecordServerInfo, CommitSnapshot, RecordRunCatalog, SetActiveJourneys, RecordUsage;
             cbv zeta; off_grip2) ].
Qed.
End before.
End lease.

(** C2 A valid lease is exclusive: as long as it lasts, whatever transaction of
    the journal commits, unless it is one by which the owner of the run itself
    renews the lease, stops to wait or ends the run, the run stays running
    under this owner, epoch and lease. *)
Theorem lease_protects {codec : Codec} (id thread w : string) (epoch until now : Z) (x : op) (s s' : db)
    (Hgrip : run_grip id s = Some (thread, RunRunning, w, epoch, until)) (Hnow : now < until)
    (Hforeign : ∀ o, lease_writer x = Some o → foreign w id o) (Hexec : exec now x s = Some s') :
  run_grip id s' = Some (thread, RunRunning, w, epoch, until).
Proof. by eapply exec_keeps_grip. Qed.

(** The lease of a claim, and of a renewal. *)
Lemma Claim_grip {codec : Codec} now c id d s o s' : Claim now c id d s = Ok (o, s') →
  o.(ow_Command) = c ∧ o.(ow_ID) = id ∧
  run_grip c.(c_RunID) s' = Some (c.(c_ThreadID), RunRunning, id, o.(ow_Epoch), now + milliseconds d).
Proof.
  unfold Claim. cbv zeta. intros Hm. tx_guard Hm Hg.
  tx_step Hm u s1 H1. apply keeps_lockForClaim with (R := eq) in H1; [subst s1|apply _].
  tx_get Hm row. tx_the Hm acc Hacc. tx_guard Hm Heq. tx_get Hm row2. tx_the Hm r Hr.
  apply run_of_Some in Hr as [Hr Ht]. tx_get Hm ok. tx_guard Hm Hok.
  tx_step Hm u2 s2 H2. assert (s2.(runs) = s.(runs)) as E2.
  { revert H2. clear. intros H. unfold update_conv in H. tx_get H row. destruct (convs s !! _); txsimpl; reflexivity. }
  tx_get Hm conv. tx_the Hm cv Hcv. tx_step Hm n s3 H3. rewrite <- E2 in Hr.
  apply (update_run_ok _ _ _ _ _ _ _ Hr Ht) in H3 as ->.
  tx_step Hm u3 s4 H4. injection Hm as <- <-. split_and!; [done..|].
  apply (appendEvent_ok _ _ _ _ _ cv) in H4 as (E4 & _); [|done]. unfold run_grip. rewrite E4. simpl.
  rewrite lookup_insert_eq. unfold grip. simpl. by rewrite Ht.
Qed.

Lemma Renew_grip {codec : Codec} now o d s u s' : Renew now o d s = Ok (u, s') →
  ∃ until, run_grip o.(ow_Command).(c_RunID) s = Some (o.(ow_Command).(c_ThreadID), RunRunning, o.(ow_ID), o.(ow_Epoch), until) ∧
  run_grip o.(ow_Command).(c_RunID) s' =
    Some (o.(ow_Command).(c_ThreadID), RunRunning, o.(ow_ID), o.(ow_Epoch), now + milliseconds d).
Proof.
  unfold Renew. intros Hm. tx_guard Hm Hg. tx_step Hm u1 s1 H1. apply lockOwner_ok in H1 as (-> & r & []).
  tx_step Hm n s2 H2. apply (update_run_ok _ _ _ _ _ _ _ ow_run ow_thread) in H2 as ->. injection Hm as _ <-.
  exists r.(rn_lease). unfold run_grip. rewrite ow_run. simpl. rewrite lookup_insert_eq. unfold grip. simpl.
  by rewrite ow_thread, ow_running, ow_owner, ow_epoch.
Qed.

(** ** Sweeping *)

(** Neither a running run nor a pending wait appears. *)
Definition sheds (s s' : db) : Prop :=
  (∀ id r', s'.(runs) !! id = Some r' → r'.(rn_state) = RunRunning → ∃ r, s.(runs) !! id = Some r ∧ grip r = grip r') ∧
  (∀ id i', s'.(interactions) !! id = Some i' → i'.(in_state) = IPending → s.(interactions) !! id = Some i').
#[export] Instance sheds_preorder : PreOrder sheds.
Proof.
  split; [split; eauto|]. intros s1 s2 s3 [Hr Hi] [Hr' Hi']. split; [|eauto].
  intros id r3 H3 Hs. destruct (Hr' id r3 H3 Hs) as (r2 & H2 & Hg2).
  destruct (Hr id r2 H2) as (r1 & H1 & Hg1); [unfold grip in Hg2; congruence|]. exists r1. by rewrite Hg1.
Qed.

Lemma sheds_free s s' : s'.(runs) = s.(runs) → s'.(interactions) = s.(interactions) → sheds s s'.
Proof. intros Er Ei. split; rewrite ?Er, ?Ei; eauto. Qed.

Lemma sheds_run t i cond st : st ≠ RunRunning → keeps sheds (update_run t i cond (upd_rn_state (λ _, st))) .
Proof.
  intros Hst. apply keeps_update_run; [apply _|]. intros s0 r Hr. split; [|eauto]. simpl. intros id r' Hl Hs.
  destruct (decide (i = id)) as [->|Hn]; [rewrite lookup_insert_eq in Hl; injection Hl as <-; done|].
  rewrite lookup_insert_ne in Hl by done. eauto.
Qed.

Ltac shed :=
  repeat first
    [ progress keeps_walk | (apply sheds_run; done)
    | (apply keeps_update_conv; [apply _|intros; by apply sheds_free])
    | (apply keeps_modify; intros; by apply sheds_free)
    | progress unfold appendEvent, update_history, update_commands, as_jsonb ].

Section sweep.
Context {codec : Codec} (now : Z).

Lemma expire_sheds t : keeps sheds (modify (upd_interactions (update_rows (λ _ i, expired_wait now t i) expire_row))).
Proof.
  apply keeps_modify. intros s. split; [eauto|]. simpl. intros id i' Hl Hp. rewrite lookup_update_rows in Hl.
  apply fmap_Some in Hl as (i & Hi & ->). by destruct (expired_wait now t i).
Qed.
Lemma sheds_expireInteractions t : keeps sheds (expireInteractions now t).
Proof. unfold expireInteractions, expireRun. repeat first [apply expire_sheds | progress shed]. Qed.
Lemma sheds_interruptExpired t cand : keeps sheds (interruptExpired now t cand).
Proof. unfold interruptExpired, markOperationsUnknown, disposePending. cbv zeta. shed. Qed.
Lemma sheds_reapOne p : keeps sheds (reapOne now p).
Proof. unfold reapOne. shed; [apply sheds_interruptExpired|apply sheds_expireInteractions]. Qed.

Definition lapsed (r : run_row) : Prop := r.(rn_state) = RunRunning ∧ r.(rn_lease) <= now.

(** The sweep of a run whose lease has ended interrupts it. *)
Lemma interruptExpired_ends t id s u s' r' : reachable s → interruptExpired now t id s = Ok (u, s') →
  s'.(runs) !! id = Some r' → lapsed r' → r'.(rn_thread) = t → False.
Proof.
  intros Hreach Hm Hl' [Hst Hle] Ht. pose proof (sheds_interruptExpired t id s u s' Hm) as [Hsh _].
  destruct (Hsh id r' Hl' Hst) as (r & Hr & Hg). injection Hg as Et Es Eo Ee El.
  assert (r.(rn_thread) = t ∧ r.(rn_state) = RunRunning) as [Ert Ers] by (split; congruence). clear Hsh.
  unfold interruptExpired in Hm. tx_get Hm row.
  destruct (find_row _ (runs s)) as [[run r0]|] eqn:E.
  2:{ rewrite find_row_None in E. specialize (E id r Hr). apply not_true_iff_false in E. apply E.
      rewrite !andb_true_iff, orb_true_iff, !bool_decide_eq_true, Ers. auto. }
  apply find_row_Some in E as [Hr0 HP]. apply andb_true_iff in HP as [[Ht0 Hl0]%andb_true_iff _]. apply bool_decide_eq_true in Ht0.
  assert (run = id) as ->.
  { destruct (proj1 (reachable_linv s Hreach) t) as [p Hp].
    pose proof (phase_live Hp _ _ (core_run s run r0 Hr0) Ht0 Hl0) as E1.
    pose proof (phase_live Hp _ _ (core_run s id r Hr) Ert) as E2. rewrite E1 in E2. simpl in E2. rewrite Ers in E2. by injection (E2 eq_refl). }
  rewrite Hr in Hr0. injection Hr0 as <-. tx_get Hm continuation.
  destruct (negb _ || _) eqn:Hc.
  { apply orb_true_iff in Hc as [Hc%negb_true_iff%Z.leb_gt|Hc]; [lia|]. rewrite Ers in Hc. done. }
  tx_step Hm n s1 H1. apply update_run_cases in H1 as [(r1 & Hr1 & _ & _ & -> & ->)|(-> & -> & Hn)].
  2:{ specialize (Hn r Hr Ert). by rewrite Ers in Hn. }
  cbn in Hm. match type of Hm with ?m ?s1 = _ => assert (sheds s1 s') as [Hsh _] end.
  { match type of Hm with ?m ?s1 = _ => refine ((_ : keeps sheds m) s1 u s' Hm) end.
    unfold markOperationsUnknown, disposePending. cbv zeta. shed. }
  destruct (Hsh id r' Hl' Hst) as (r2 & Hr2 & Hg2). simpl in Hr2. rewrite lookup_insert_eq in Hr2. injection Hr2 as <-.
  injection Hg2 as _ Es2 _ _ _. simpl in Es2. congruence.
Qed.

(** No wait of the conversation that is over stays pending. *)
Lemma expireInteractions_ends t s u s' id i' : expireInteractions now t s = Ok (u, s') →
  s'.(interactions) !! id = Some i' → i'.(in_state) = IPending → i'.(in_thread) = t → now < i'.(in_expires).
Proof.
  intros Hm Hl Hp Ht. unfold expireInteractions in Hm. tx_get Hm rows. tx_step Hm u1 s1 H1.
  match type of Hm with ?m ?s1 = _ => assert (sheds s1 s') as [_ Hsh] end.
  { match type of Hm with ?m ?s1 = _ => refine ((_ : keeps sheds m) s1 u s' Hm) end. unfold expireRun. shed. }
  specialize (Hsh id i' Hl Hp). injection H1 as _ <-. simpl in Hsh. rewrite lookup_update_rows in Hsh.
  apply fmap_Some in Hsh as (i & Hi & E). destruct (expired_wait now t i) eqn:Ex; [by rewrite E in Hp|]. subst i'.
  unfold expired_wait in Ex. rewrite Ht, Hp, !bool_decide_eq_true_2 in Ex by done. simpl in Ex. by apply Z.leb_gt in Ex.
Qed.

(** What a sweep of a work list leaves to do. *)
Definition overdue (l : list (string * string)) (s : db) : Prop :=
  (∀ id r, s.(runs) !! id = Some r → lapsed r → (r.(rn_thread), id) ∈ l) ∧
  (∀ id i, s.(interactions) !! id = Some i → i.(in_state) = IPending → i.(in_expires) <= now → (i.(in_thread), i.(in_run)) ∈ l).

Lemma reapable_overdue s : overdue (reapable now s) s.
Proof.
  unfold reapable. split.
  - intros id r Hr [Hs Hl]. apply elem_of_remove_dups, elem_of_app. left. apply list_elem_of_fmap. exists (id, r). split; [done|].
    apply elem_of_matching. split; [done|]. simpl. rewrite Hs. simpl. by apply Z.leb_le.
  - intros id i Hi Hs Hl. apply elem_of_remove_dups, elem_of_app. right. apply list_elem_of_fmap. exists (id, i). split; [done|].
    apply elem_of_matching. split; [done|]. simpl. rewrite Hs, bool_decide_eq_true_2 by done. by apply Z.leb_le.
Qed.

Lemma reapOne_overdue p l s u s' : reachable s → overdue (p :: l) s → reapOne now p s = Ok (u, s') → overdue l s'.
Proof.
  intros Hreach [Hr Hi] Hm. pose proof (sheds_reapOne p s u s' Hm) as [Hsr Hsi]. destruct p as [t run].
  unfold reapOne in Hm. simpl in Hm. tx_get Hm row. tx_the Hm conv Hc. tx_step Hm u1 s1 H1. split.
  - intros id r' Hl' Hlap. destruct (Hsr id r' Hl' (proj1 Hlap)) as (r & Hl & Hg). injection Hg as Et Es _ _ El.
    assert (lapsed r) as Hlr by (split; [rewrite Es|rewrite El]; apply Hlap).
    rewrite <- Et. pose proof (Hr id r Hl Hlr) as Hin. apply elem_of_cons in Hin as [E|Hin]; [|done].
    injection E as E1 <-. exfalso. destruct (sheds_expireInteractions t s1 u s' Hm) as [Hx _].
    destruct (Hx id r' Hl' (proj1 Hlap)) as (r1 & Hl1 & Hg1). injection Hg1 as Et1 Es1 _ _ El1.
    apply (interruptExpired_ends t id s u1 s1 r1 Hreach H1 Hl1); [|congruence]. split; [rewrite Es1|rewrite El1]; apply Hlap.
  - intros id i' Hl' Hp He. specialize (Hsi id i' Hl' Hp). pose proof (Hi id i' Hsi Hp He) as Hin. apply elem_of_cons in Hin as [E|Hin]; [|done].
    injection E as E1 _. exfalso. pose proof (expireInteractions_ends t s1 u s' id i' Hm Hl' Hp E1). lia.
Qed.

Lemma reapAll_overdue l : ∀ s s', reachable s → overdue l s → reapAll now l s = (None, s') → overdue [] s'.
Proof.
  induction l as [|p l IH]; intros s s' Hreach Ho H; simpl in H; [by injection H as <-|].
  destruct (reapOne now p s) as [[u s1]|e] eqn:E; [|done]. apply (IH s1); [|by eapply reapOne_overdue|done].
  eapply reachable_steps; [done|]. apply rtc_once. exists now, (OpReap p.1 p.2). simpl. unfold committed.
  rewrite <- (surjective_pairing p). by rewrite E.
Qed.
End sweep.

(** C4 Nothing hangs for ever: once a sweep went through with nothing else
    committed meanwhile, no run is running whose lease had ended at its time,
    and no wait is pending that had expired; so the run of a worker that died
    is interrupted by the first sweep after its lease, and not before
    ([lease_protects]). *)
Theorem Reap_recovers {codec : Codec} (now : Z) (s s' : db) (Hreach : reachable s) (Hreap : Reap now s = (None, s')) :
  (∀ id r, s'.(runs) !! id = Some r → r.(rn_state) = RunRunning → now < r.(rn_lease)) ∧
  (∀ id i, s'.(interactions) !! id = Some i → i.(in_state) = IPending → now < i.(in_expires)).
Proof.
  destruct (reapAll_overdue now _ s s' Hreach (reapable_overdue now s) Hreap) as [Hr Hi]. split.
  - intros id r Hl Hs. destruct (Z.lt_ge_cases now (rn_lease r)) as [|Hle]; [done|].
    by destruct (not_elem_of_nil _ (Hr id r Hl (conj Hs Hle))).
  - intros id i Hl Hs. destruct (Z.lt_ge_cases now (in_expires i)) as [|Hle]; [done|].
    by destruct (not_elem_of_nil _ (Hi id i Hl Hs Hle)).
Qed.
