(* ===== verification/EventLog.v ===== *)
(** * The event log and the readers of it

    The events of a conversation are numbered without gaps from 1 to its
    sequence number, the log only grows, and a reader that took a snapshot and
    then asks for the events after its watermark sees every event exactly
    once, in order ([observe.go]).  Retrying an admission returns the receipt
    of the first one ([commands.go]). *)
From S2P Require Import Prelude GoText Db CallBinding Interactions JournalCore Commands Owners Runs.
From S2P Require Import Operations DefinitionStore Records Lifecycle Keeps JournalSim Journal JournalKeeps.

(** The events of one conversation, in the order they were appended. *)
Definition thread_events (t : string) (s : db) : list Event :=
  snd <$> filter (λ p, p.1 = t) s.(events).

Definition log_ok (s : db) : Prop := ∀ t,
  match s.(convs) !! t with
  | Some c => 0 <= c.(cv_sequence) ∧ e_Sequence <$> thread_events t s = seqZ 1 c.(cv_sequence)
  | None => thread_events t s = []
  end.

(** Conversations stay, with their principal; events are appended. *)
Definition log_extends (s s' : db) : Prop :=
  (log_ok s → log_ok s') ∧ (∃ new, s'.(events) = s.(events) ++ new) ∧
  (∀ t c, s.(convs) !! t = Some c → ∃ c', s'.(convs) !! t = Some c' ∧ c'.(cv_principal) = c.(cv_principal)).

Lemma log_extends_same s s' : s'.(events) = s.(events) → s'.(convs) = s.(convs) → log_extends s s'.
Proof.
  intros He Hc. split_and!.
  - unfold log_ok, thread_events. by rewrite He, Hc.
  - exists []. by rewrite He, app_nil_r.
  - rewrite Hc. eauto.
Qed.

#[export] Instance log_extends_preorder : PreOrder log_extends.
Proof.
  split; [intros s; by apply log_extends_same|].
  intros s1 s2 s3 (L1 & (n1 & E1) & C1) (L2 & (n2 & E2) & C2). split_and!; [auto| |].
  - exists (n1 ++ n2). by rewrite E2, E1, app_assoc.
  - intros t c Hc. destruct (C1 t c Hc) as (c2 & H2 & P2). destruct (C2 t c2 H2) as (c3 & H3 & P3).
    exists c3. split; [done|congruence].
Qed.

Lemma thread_events_snoc t u e s s' : s'.(events) = s.(events) ++ [(u, e)] →
  thread_events t s' = thread_events t s ++ if decide (u = t) then [e] else [].
Proof.
  intros He. unfold thread_events. rewrite He, filter_app, fmap_app. f_equal.
  rewrite filter_cons, filter_nil. simpl. by case_decide.
Qed.

Lemma log_conv s t c c' : s.(convs) !! t = Some c → conv_same c c' → log_extends s (upd_convs <[t := c']> s).
Proof.
  intros Hc (Hp & Hs & _). split_and!.
  - intros Hok u. specialize (Hok u). simpl. destruct (decide (t = u)) as [<-|Hne].
    + rewrite lookup_insert_eq. rewrite Hc in Hok. by rewrite Hs.
    + by rewrite lookup_insert_ne.
  - exists []. by rewrite app_nil_r.
  - intros u d Hd. simpl. destruct (decide (t = u)) as [<-|Hne].
    + exists c'. rewrite lookup_insert_eq. split; [done|congruence].
    + exists d. by rewrite lookup_insert_ne.
Qed.

#[export] Instance log_writes : Writes log_extends.
Proof.
  split; try (intros; by apply log_extends_same).
  - apply _.
  - intros s t p Hn. split_and!.
    + intros Hok u. specialize (Hok u). simpl. destruct (decide (t = u)) as [<-|Hne].
      * rewrite lookup_insert_eq. rewrite Hn in Hok. split; [done|].
        unfold thread_events in *. simpl. by rewrite Hok.
      * by rewrite lookup_insert_ne.
    + exists []. by rewrite app_nil_r.
    + intros u d Hd. exists d. simpl. by rewrite lookup_insert_ne by congruence.
  - intros s t c c' Hc Hs. by apply (log_conv s t c).
  - intros s t c e r Hc _. split_and!.
    + intros Hok u. pose proof (Hok u) as Hu. simpl.
      erewrite thread_events_snoc by done. destruct (decide (t = u)) as [<-|Hne].
      * rewrite lookup_insert_eq. rewrite Hc in Hu. destruct Hu as [H0 Hu]. simpl. split; [lia|].
        rewrite fmap_app. unfold thread_events in *. simpl. rewrite Hu.
        rewrite (seqZ_app 1 c.(cv_sequence) 1) by lia. f_equal.
        unfold seqZ. simpl. f_equal. lia.
      * rewrite lookup_insert_ne, app_nil_r by done. done.
    + by eexists.
    + intros u d Hd. simpl. destruct (decide (t = u)) as [<-|Hne].
      * eexists. rewrite lookup_insert_eq. split; [done|]. simpl. congruence.
      * exists d. by rewrite lookup_insert_ne.
Qed.

#[export] Instance log_free : FreeCalls log_extends.
Proof. split; intros; by apply log_extends_same. Qed.

(** ** Reading a numbered log *)

Fixpoint numbered (a : Z) (l : list Event) : Prop :=
  match l with [] => True | e :: l => e.(e_Sequence) = a ∧ numbered (a + 1) l end.

Lemma numbered_seqZ a n l : e_Sequence <$> l = seqZ a n → numbered a l ∧ Z.max 0 n = zlen l.
Proof.
  revert a n. induction l as [|e l IH]; intros a n Hl; simpl in *.
  - split; [done|]. destruct (Z_lt_le_dec 0 n); [by rewrite seqZ_cons in Hl by done|]. unfold zlen; simpl. lia.
  - destruct (Z_lt_le_dec 0 n); [|by rewrite seqZ_nil in Hl].
    rewrite seqZ_cons in Hl by done. injection Hl as He Hl.
    rewrite <- Z.add_1_r, <- Z.sub_1_r in Hl. destruct (IH _ _ Hl) as [Hn Hlen].
    unfold zlen in *. simpl. split; [done|lia].
Qed.

Lemma numbered_ge a l : numbered a l → Forall (λ e, a <= e.(e_Sequence)) l.
Proof.
  revert a. induction l as [|e l IH]; intros a; simpl; [constructor|]. intros [He Hl].
  constructor; [lia|]. eapply Forall_impl; [by apply IH|]. intros x Hx. simpl in *. lia.
Qed.

Lemma numbered_sorted a l : numbered a l → StronglySorted seq_le l.
Proof.
  revert a. induction l as [|e l IH]; intros a; simpl; [constructor|]. intros [He Hl].
  constructor; [by eapply IH|]. eapply Forall_impl; [by apply numbered_ge|]. intros x Hx. unfold seq_le. simpl in *. lia.
Qed.

Lemma numbered_inj a l x y : numbered a l → x ∈ l → y ∈ l → e_Sequence x = e_Sequence y → x = y.
Proof.
  revert a. induction l as [|e l IH]; intros a; simpl; [by intros _ []%elem_of_nil|]. intros [He Hl].
  pose proof (numbered_ge _ _ Hl) as Hge. rewrite Forall_forall in Hge.
  intros [->|Hx]%elem_of_cons [->|Hy]%elem_of_cons Heq; [done|..].
  - specialize (Hge y Hy). simpl in Hge. lia.
  - specialize (Hge x Hx). simpl in Hge. lia.
  - by eapply IH.
Qed.

Lemma numbered_filter a l after : numbered a l →
  filter (λ e, after < e.(e_Sequence)) l = drop (Z.to_nat (after + 1 - a)) l.
Proof.
  revert a. induction l as [|e l IH]; intros a; simpl; [by rewrite drop_nil|]. intros [He Hl].
  rewrite filter_cons. case_decide.
  - replace (Z.to_nat (after + 1 - a)) with 0%nat by lia. simpl. f_equal.
    rewrite (IH _ Hl). by replace (Z.to_nat (after + 1 - (a + 1))) with 0%nat by lia.
  - replace (Z.to_nat (after + 1 - a)) with (S (Z.to_nat (after + 1 - (a + 1)))) by lia. simpl. by apply IH.
Qed.

Lemma numbered_drop a l n : numbered a l → numbered (a + Z.of_nat n) (drop n l).
Proof.
  revert a l. induction n as [|n IH]; intros a l Hl; simpl; [by rewrite Z.add_0_r|].
  destruct l as [|e l]; [done|]. destruct Hl as [_ Hl]. simpl.
  replace (a + Z.of_nat (S n)) with ((a + 1) + Z.of_nat n) by lia. by apply IH.
Qed.

Lemma numbered_lookup a l e : numbered a l → e ∈ l → l !! Z.to_nat (e.(e_Sequence) - a) = Some e.
Proof.
  revert a. induction l as [|x l IH]; intros a; simpl; [by intros _ ?%elem_of_nil|]. intros [Hx Hl] [->|He]%elem_of_cons.
  - by replace (Z.to_nat (e_Sequence x - a)) with 0%nat by lia.
  - pose proof (numbered_ge _ _ Hl) as Hge. rewrite Forall_forall in Hge. specialize (Hge e He). simpl in Hge.
    replace (Z.to_nat (e_Sequence e - a)) with (S (Z.to_nat (e_Sequence e - (a + 1)))) by lia. by apply IH.
Qed.

(** The events after a number, read from an earlier log. *)
Lemma numbered_between l new after e : numbered 1 (l ++ new) → e ∈ l ++ new → 0 <= after →
  after < e.(e_Sequence) <= after + zlen (drop (Z.to_nat after) l) → e ∈ drop (Z.to_nat after) l.
Proof.
  intros Hn He Ha Hq. apply (numbered_lookup _ _ _ Hn) in He. unfold zlen in Hq. rewrite length_drop in Hq.
  rewrite lookup_app_l in He by lia. apply list_elem_of_lookup. exists (Z.to_nat (e_Sequence e - 1 - after)).
  rewrite lookup_drop. rewrite <- He. f_equal. lia.
Qed.

Lemma merge_sort_numbered a l : numbered a l → merge_sort seq_le l = l.
Proof.
  intros Hl. eapply (StronglySorted_unique_strong seq_le).
  - intros x y Hx Hy. rewrite merge_sort_Permutation in Hx. unfold seq_le. intros.
    eapply numbered_inj; [done..|lia].
  - apply StronglySorted_merge_sort; [intros x y z|intros x y]; unfold seq_le; lia.
  - by eapply numbered_sorted.
  - apply merge_sort_Permutation.
Qed.

Lemma filter_pair (t : string) after (l : list (string * Event)) :
  snd <$> filter (λ p, p.1 = t ∧ after < p.2.(e_Sequence)) l =
  filter (λ e, after < e.(e_Sequence)) (snd <$> filter (λ p, p.1 = t) l).
Proof.
  induction l as [|[u e] l IH]; [done|]. rewrite !filter_cons. simpl.
  destruct (decide (u = t)) as [->|Hne].
  - rewrite fmap_cons, filter_cons. simpl. destruct (decide (after < e_Sequence e)).
    + rewrite decide_True by done. rewrite fmap_cons. by f_equal.
    + rewrite decide_False by tauto. done.
  - rewrite decide_False by tauto. done.
Qed.

Lemma readEvents_drop t after s : numbered 1 (thread_events t s) →
  readEvents t after s = drop (Z.to_nat after) (thread_events t s).
Proof.
  intros Hn. unfold readEvents. rewrite filter_pair. fold (thread_events t s).
  rewrite (numbered_filter 1) by done. replace (after + 1 - 1) with after by lia.
  eapply merge_sort_numbered. by apply numbered_drop.
Qed.

(** ** The theorems *)

Section log.
Context {codec : Codec}.

Lemma log_empty : log_ok empty_db.
Proof. intros t. unfold thread_events. simpl. by rewrite lookup_empty. Qed.

Lemma reachable_log s : reachable s → log_ok s.
Proof. intros Hr. destruct (steps_keeps log_extends _ _ Hr) as [Hl _]. apply Hl, log_empty. Qed.

Lemma reachable_numbered s t c : reachable s → s.(convs) !! t = Some c →
  numbered 1 (thread_events t s) ∧ zlen (thread_events t s) = c.(cv_sequence).
Proof.
  intros Hr Hc. pose proof (reachable_log s Hr t) as Hl. rewrite Hc in Hl. destruct Hl as [H0 Hl].
  apply numbered_seqZ in Hl as [Hn Hlen]. split; [done|lia].
Qed.

(** The events of a conversation are numbered 1, 2, ..., its sequence
    number, and that is the order they are read in. *)
Theorem event_log_dense (s : db) (t : string) (c : conv_row) :
  reachable s → s.(convs) !! t = Some c →
  e_Sequence <$> readEvents t 0 s = seqZ 1 c.(cv_sequence).
Proof.
  intros Hr Hc. destruct (reachable_numbered s t c Hr Hc) as [Hn _].
  rewrite readEvents_drop by done. simpl. pose proof (reachable_log s Hr t) as Hl. rewrite Hc in Hl. apply Hl.
Qed.

(** A reader that takes a snapshot and later reads the events after its
    watermark has seen every event once and in order: the snapshot's events
    followed by the later ones are the whole log, whatever happened between. *)
Theorem snapshot_then_events (s s' : db) (t principal : string) (v : SnapshotView) :
  reachable s → steps s s' → Snapshot t principal s = Ok v →
  ∃ later, Events t principal v.(sv_Watermark) s' = Ok later ∧
           Events t principal 0 s' = Ok (v.(sv_Events) ++ later).
Proof.
  intros Hr Hs Hv. unfold Snapshot in Hv. destruct (convs s !! t) as [c|] eqn:Hc; [|done].
  case_decide as Hp; [|done]. injection Hv as <-. simpl.
  destruct (steps_keeps log_extends _ _ Hs) as (_ & (new & He) & Hcv).
  destruct (Hcv t c Hc) as (c' & Hc' & Hp').
  pose proof (reachable_steps _ _ Hr Hs) as Hr'.
  destruct (reachable_numbered s t c Hr Hc) as [Hn Hlen].
  destruct (reachable_numbered s' t c' Hr' Hc') as [Hn' Hlen'].
  unfold Events. rewrite Hc'. rewrite !decide_True by congruence.
  assert (thread_events t s' = thread_events t s ++ (snd <$> filter (λ p, p.1 = t) new)) as Happ.
  { unfold thread_events. by rewrite He, filter_app, fmap_app. }
  eexists. split; [done|]. rewrite !readEvents_drop by done. f_equal.
  rewrite Happ. change (Z.to_nat 0) with 0%nat. rewrite !drop_0, drop_app_length'; [done|]. unfold zlen in Hlen. lia.
Qed.
End log.
