(* ===== verification/Retry.v ===== *)
(** * Retried admissions

    Admission is idempotent: a communication ID that was accepted once answers
    every retry of the same command with the first receipt and changes
    nothing, at any later time and whatever happened to the run meanwhile;
    the same ID with another command is a conflict. *)
From S2P Require Import Prelude GoText Db CallBinding Interactions JournalCore Commands Owners Runs.
From S2P Require Import Operations DefinitionStore Records Lifecycle Keeps JournalSim Journal JournalKeeps EventLog.

Section retry.
Context {codec : Codec}.

Lemma core_commands s s' : core s' = core s → s'.(commands) = s.(commands).
Proof. intros Hc. apply (f_equal l_cmds) in Hc. exact Hc. Qed.

Lemma find_command_Some t co s p : find_command t co s = Some p →
  p ∈ s.(commands) ∧ p.(cm_thread) = t ∧ p.(cm_comm) = co.
Proof.
  unfold find_command. intros Hf.
  assert (p ∈ filter (λ c, cm_thread c = t ∧ cm_comm c = co) (commands s)) as Hin.
  { destruct (filter _ _); [done|]. injection Hf as ->. apply list_elem_of_here. }
  apply list_elem_of_filter in Hin. tauto.
Qed.

Lemma find_command_unique t co s p : lwf (core s) → p ∈ s.(commands) → p.(cm_thread) = t → p.(cm_comm) = co →
  find_command t co s = Some p.
Proof.
  intros Hwf Hin Ht Hc.
  destruct (find_command t co s) as [q|] eqn:E.
  - apply find_command_Some in E as (Hq & Htq & Hcq). f_equal.
    pose proof (lw_comm_ids _ Hwf) as Hnd. unfold keys in Hnd. simpl in Hnd. rewrite <- list_fmap_compose in Hnd.
    apply list_elem_of_lookup_1 in Hin as [i Hi]. apply list_elem_of_lookup_1 in Hq as [j Hj].
    assert (i = j) as ->; [|congruence].
    eapply NoDup_lookup; [exact Hnd|rewrite list_lookup_fmap, Hi; reflexivity|].
    rewrite list_lookup_fmap, Hj. simpl. unfold cmd_key. simpl. congruence.
  - unfold find_command in E.
    assert (p ∈ filter (λ c, cm_thread c = t ∧ cm_comm c = co) (commands s)) as Hin' by (by apply list_elem_of_filter).
    destruct (filter _ _); [by apply elem_of_nil in Hin'|done].
Qed.

(** What a successful admission leaves: the receipt names the command's row. *)
Lemma admitNew_accepted now c s r fresh s' : admitNew now c s = Ok (Ok (r, fresh), s') →
  ∃ execution, r = receipt c execution ∧ ∃ row, row ∈ s'.(commands) ∧ row.(cm_thread) = c.(c_ThreadID) ∧
    row.(cm_comm) = c.(c_CommunicationID) ∧ row.(cm_exec) = execution ∧ row.(cm_payload) = through_json_command c.
Proof.
  unfold admitNew. cbv zeta. intros Hm. tx_step Hm u0 s0 H0. tx_step Hm u1 s1 H1.
  tx_get Hm busy. tx_guard Hm Hb. tx_get Hm live. tx_guard Hm Ht. tx_guard Hm Hrun. tx_guard Hm Hjson. tx_step Hm u2 s2 H2.
  apply insert_command_ok in H2 as (_ & _ & ->). tx_step Hm u3 s3 H3. tx_step Hm u4 s4 H4.
  apply neutral_appendEvent in H4. apply core_commands in H4. injection Hm as <- <- <-.
  assert (commands s3 = commands (upd_commands (λ l, l ++ [mk_command (c_ThreadID c) (c_CommunicationID c) (c_RunID c) (through_json_command c)
    match live_join (c_ThreadID c) s1 with Some (id, _, _) => id | None => c_RunID c end false ""]) s1)) as E3.
  { destruct (live_join (c_ThreadID c) s1) as [[[id r0] first]|]; [by injection H3 as _ <-|].
    by apply insert_run_ok in H3 as [_ ->]. }
  eexists. split; [done|]. eexists. split; [rewrite H4, E3; simpl; apply elem_of_app; right; apply list_elem_of_here|].
  done.
Qed.

Lemma replyNew_accepted now c answer s r fresh s' : linv (core s) → replyNew now c answer s = Ok (Ok (r, fresh), s') →
  ∃ execution, r = receipt c execution ∧ ∃ row, row ∈ s'.(commands) ∧ row.(cm_thread) = c.(c_ThreadID) ∧
    row.(cm_comm) = c.(c_CommunicationID) ∧ row.(cm_exec) = execution ∧ row.(cm_payload) = through_json_command c.
Proof.
  unfold replyNew. cbv zeta. intros Hinv Hm. tx_guard Hm Hid. tx_get Hm row. tx_the Hm i Hi.
  apply interaction_of_Some in Hi as [Hi Ht].
  destruct (negb _ && _) eqn:E; [tx_step Hm u s1 H1; discriminate Hm|].
  tx_guard Hm H1. tx_guard Hm H2. tx_guard Hm H3. tx_guard Hm H4.
  destruct (consumeReply_core _ _ _ _ _ _ _ Hinv Hm Hi Ht) as (r0 & reason & _ & _ & _ & _ & Ha & Hc).
  injection Ha as -> ->. exists c.(c_RunID). split; [done|].
  exists (mk_command c.(c_ThreadID) c.(c_CommunicationID) c.(c_RunID) (through_json_command c) c.(c_RunID) false reason).
  split; [|done]. apply (f_equal l_cmds) in Hc. simpl in Hc. rewrite Hc.
  apply elem_of_app. right. apply list_elem_of_here.
Qed.

(** The payload of an accepted command: what JSON leaves of a new one, and the
    command itself when it was accepted before. *)
Definition recorded (c : Command) (s : db) : Command :=
  match find_command c.(c_ThreadID) c.(c_CommunicationID) s with Some _ => c | None => through_json_command c end.

(** The part of an admission that runs under the conversation's lock. *)
Definition under_lock (c : Command) (fresh_part : tx (result error (Receipt * bool))) : tx (result error (Receipt * bool)) :=
  _ ← lockConversation c.(c_ThreadID) c.(c_Principal);
  _ ← guard_tx (sql_texts [c.(c_CommunicationID)]) DbText;
  previous ← get (find_command c.(c_ThreadID) c.(c_CommunicationID));
  match previous with Some p => replay c p | None => fresh_part end.

Lemma locked_accepted c (fresh_part : tx (result error (Receipt * bool))) s r fresh s' :
  keeps log_extends fresh_part →
  (∀ s r fresh s', linv (core s) → fresh_part s = Ok (Ok (r, fresh), s') →
    ∃ execution, r = receipt c execution ∧ ∃ row, row ∈ s'.(commands) ∧ row.(cm_thread) = c.(c_ThreadID) ∧
      row.(cm_comm) = c.(c_CommunicationID) ∧ row.(cm_exec) = execution ∧ row.(cm_payload) = through_json_command c) →
  linv (core s) → under_lock c fresh_part s = Ok (Ok (r, fresh), s') →
  sql_texts [c.(c_CommunicationID)] = true ∧
  ∃ execution, r = receipt c execution ∧ ∃ row cv, row ∈ s'.(commands) ∧ row.(cm_thread) = c.(c_ThreadID) ∧
    row.(cm_comm) = c.(c_CommunicationID) ∧ row.(cm_exec) = execution ∧ row.(cm_payload) = recorded c s ∧
    s'.(convs) !! c.(c_ThreadID) = Some cv ∧ cv.(cv_principal) = c.(c_Principal).
Proof.
  unfold under_lock, recorded. intros Hk Hfresh Hinv Hm. tx_step Hm u s1 H1. apply lockConversation_ok in H1 as (-> & cv & Hcv & Hp).
  tx_guard Hm Htext. split; [done|]. tx_get Hm previous. destruct (find_command _ _ s) as [p|] eqn:E.
  - apply find_command_Some in E as (Hin & Ht & Hc). unfold replay in Hm. tx_guard Hm Heq.
    apply bool_decide_eq_true in Heq. injection Hm as <- <- <-.
    exists p.(cm_exec). split; [done|]. by exists p, cv.
  - destruct (Hfresh _ _ _ _ Hinv Hm) as (ex & Hr & row & Hin & Hrow).
    destruct (Hk _ _ _ Hm) as (_ & _ & Hcv'). destruct (Hcv' _ _ Hcv) as (cv' & Hcv2 & Hp').
    exists ex. split; [done|]. exists row, cv'. destruct Hrow as (? & ? & ? & ?).
    split_and!; try done. congruence.
Qed.

Lemma BeginFunc_ok {A} (m : tx A) s a s' : BeginFunc m s = Ok (a, s') →
  m s = Ok (a, s') ∧ check_commands s' = true.
Proof.
  unfold BeginFunc. intros Hm. tx_step Hm b s1 H1. tx_get Hm ok. tx_guard Hm Hok. by injection Hm as -> ->.
Qed.

(** The guards that do not depend on the database. *)
Definition reply_given (c : Command) : bool :=
  nonempty c.(c_ThreadID) && nonempty c.(c_RunID) && nonempty c.(c_Principal)
    && nonempty c.(c_CommunicationID) && bool_decide (c.(c_Text) = "").
Definition text_given (c : Command) : bool :=
  nonempty c.(c_ThreadID) && nonempty c.(c_RunID) && nonempty c.(c_CommunicationID)
    && nonempty c.(c_Principal) && nonempty c.(c_Text).
Definition admissible (c : Command) : bool :=
  sql_texts [c.(c_CommunicationID)] &&
  if nonempty c.(c_InteractionID)
  then sql_texts [c.(c_ThreadID)] && (reply_given c && bool_decide (is_Some (decode_reply c.(c_ReplyJSON))))
  else sql_texts [c.(c_ThreadID); c.(c_Principal)] && text_given c.

Lemma unique_is_conflict_ok {A} (m : tx A) s r : unique_is_conflict m s = Ok r → m s = Ok r.
Proof. unfold unique_is_conflict. destruct (m s) as [|[]]; congruence. Qed.

Lemma Admit_accepted now c s r fresh s' : linv (core s) → Admit now c s = Ok (Ok (r, fresh), s') →
  admissible c = true ∧ ∃ execution, r = receipt c execution ∧ ∃ row cv, row ∈ s'.(commands) ∧
    row.(cm_thread) = c.(c_ThreadID) ∧ row.(cm_comm) = c.(c_CommunicationID) ∧ row.(cm_exec) = execution ∧
    row.(cm_payload) = recorded c s ∧ s'.(convs) !! c.(c_ThreadID) = Some cv ∧ cv.(cv_principal) = c.(c_Principal).
Proof.
  unfold Admit, admissible. intros Hinv Hm. destruct (nonempty (c_InteractionID c)) eqn:Hi.
  - unfold reply in Hm. tx_guard Hm Hg. tx_the Hm answer Hans. apply BeginFunc_ok in Hm as [Hm _]. tx_guard Hm Ht.
    destruct (locked_accepted c (replyNew now c answer) s r fresh s') as [Hc Hrest]; [apply (cw_reply _)| |done|exact Hm|].
    + intros s0 r0 f0 s1. apply replyNew_accepted.
    + split; [|done]. rewrite Hc, Ht, Hans. unfold reply_given. by rewrite Hg.
  - tx_guard Hm Hg. apply unique_is_conflict_ok in Hm.
    apply BeginFunc_ok in Hm as [Hm _]. tx_guard Hm Ht. tx_step Hm u s1 H1.
    destruct (locked_accepted c (admitNew now c) s1 r fresh s') as [Hc Hrest];
      [|intros s0 r0 f0 s2 _; apply admitNew_accepted|eapply linv_steps; [by eapply insert_conv_sim|done]|exact Hm|].
    + apply k_admitNew; apply _.
    + split; [rewrite Hc, Ht; exact Hg|]. injection H1 as _ <-. exact Hrest.
Qed.

Lemma check_commands_true s : lwf (core s) → check_commands s = true.
Proof.
  intros Hwf. unfold check_commands. apply forallb_forall. intros c Hc%list_elem_of_In.
  apply bool_decide_eq_true.
  destruct (lw_exec _ Hwf c.(cm_thread) c.(cm_comm) c.(cm_run) c.(cm_exec)) as (lr & Hlr & Ht).
  { apply list_elem_of_fmap. by exists c. }
  apply core_run_inv in Hlr as (r & Hr & ->). exists r. by apply run_of_Some.
Qed.

Lemma insert_conv_again t p s cv : s.(convs) !! t = Some cv → insert_conv t p s = Ok (tt, s).
Proof.
  intros Hc. unfold insert_conv, modify. do 2 f_equal. destruct s. unfold upd_convs. simpl in *. by rewrite Hc.
Qed.

Lemma lockConversation_again t p s cv : s.(convs) !! t = Some cv → cv.(cv_principal) = p →
  lockConversation t p s = Ok (tt, s).
Proof.
  intros Hc Hp. unfold lockConversation, get, mbind, tx_bind. rewrite Hc. unfold guard_tx.
  by rewrite bool_decide_eq_true_2.
Qed.

(** The conversation's command table answers the retry. *)
Lemma locked_again c f s cv row : sql_texts [c.(c_CommunicationID)] = true →
  s.(convs) !! c.(c_ThreadID) = Some cv → cv.(cv_principal) = c.(c_Principal) →
  find_command c.(c_ThreadID) c.(c_CommunicationID) s = Some row → under_lock c f s = replay c row s.
Proof.
  intros Ht Hc Hp Hf. unfold under_lock. rewrite (bind_run _ _ _ _ _ (lockConversation_again _ _ _ _ Hc Hp)).
  rewrite guard_run, get_run by done. by rewrite Hf.
Qed.

Lemma BeginFunc_eq {A} (m : tx A) s a : lwf (core s) → m s = Ok (a, s) → BeginFunc m s = Ok (a, s).
Proof.
  intros Hwf Hm. unfold BeginFunc, mbind, tx_bind. rewrite Hm. unfold get. by rewrite check_commands_true.
Qed.

(** An accepted communication ID, asked again. *)
Lemma Admit_again now c s cv row : lwf (core s) → admissible c = true →
  s.(convs) !! c.(c_ThreadID) = Some cv → cv.(cv_principal) = c.(c_Principal) →
  find_command c.(c_ThreadID) c.(c_CommunicationID) s = Some row →
  Admit now c s = if bool_decide (row.(cm_payload) = c)
                  then Ok (Ok (receipt c row.(cm_exec), false), s) else Err ErrConflict.
Proof.
  intros Hwf Hadm Hcv Hp Hf.
  assert (∀ (m : tx (result error (Receipt * bool))), m s = (if bool_decide (row.(cm_payload) = c)
     then Ok (Ok (receipt c row.(cm_exec), false), s) else Err ErrConflict) → BeginFunc m s = m s) as HB.
  { intros m Hm. destruct (bool_decide _); [rewrite Hm; by apply BeginFunc_eq|].
    unfold BeginFunc, mbind, tx_bind. by rewrite Hm. }
  assert (replay c row s = if bool_decide (row.(cm_payload) = c)
     then Ok (Ok (receipt c row.(cm_exec), false), s) else Err ErrConflict) as HR.
  { unfold replay, guard_tx. by destruct (bool_decide _). }
  unfold Admit, admissible in *. apply andb_true_iff in Hadm as [Hct Hadm].
  assert (∀ f, under_lock c f s = replay c row s) as HU by (intros f; by eapply locked_again).
  destruct (nonempty (c_InteractionID c)).
  - unfold reply. apply andb_true_iff in Hadm as [Ht [Hg [answer Ha]%bool_decide_eq_true]%andb_true_iff].
    rewrite guard_run, (the_run _ _ answer) by done. pose proof (HU (replyNew now c answer)) as HU1. unfold under_lock in HU1.
    rewrite HB; rewrite guard_run, HU1 by done; exact HR.
  - apply andb_true_iff in Hadm as [Ht Hadm]. rewrite guard_run by done.
    pose proof (HU (admitNew now c)) as HU1. unfold under_lock in HU1. unfold unique_is_conflict.
    rewrite HB; rewrite guard_run, (bind_run _ _ _ _ _ (insert_conv_again _ _ _ cv Hcv)) by done;
      rewrite HU1, HR; [by destruct (bool_decide _)|done].
Qed.

Lemma evolved_row l l' row : cmds_evolve l l' → row ∈ l →
  ∃ row', row' ∈ l' ∧ cmd_key row' = cmd_key row ∧ row'.(cm_payload) = row.(cm_payload).
Proof.
  intros (old & new & -> & HF) Hin. apply list_elem_of_lookup_1 in Hin as [i Hi].
  destruct (Forall2_lookup_l _ _ _ _ _ HF Hi) as (row' & Hi' & Hk & Hp & _).
  exists row'. split; [|done]. apply elem_of_app. left. by apply list_elem_of_lookup_2 in Hi'.
Qed.

(** What is found at any time after the admission. *)
Lemma accepted_later now c s s1 s2 r fresh : reachable s → Admit now c s = Ok (Ok (r, fresh), s1) → steps s1 s2 →
  admissible c = true ∧ lwf (core s2) ∧ ∃ row cv, r = receipt c row.(cm_exec) ∧ row.(cm_payload) = recorded c s ∧
    find_command c.(c_ThreadID) c.(c_CommunicationID) s2 = Some row ∧
    s2.(convs) !! c.(c_ThreadID) = Some cv ∧ cv.(cv_principal) = c.(c_Principal).
Proof.
  intros Hr Hm Hs. pose proof (reachable_linv _ Hr) as Hinv.
  destruct (Admit_accepted _ _ _ _ _ _ Hinv Hm) as (Hadm & ex & -> & row & cv & Hin & Ht & Hc & <- & Hpl & Hcv & Hp).
  assert (reachable s1) as Hr1.
  { eapply reachable_steps; [done|]. apply rtc_once. exists now, (OpAdmit c). simpl. unfold committed. by rewrite Hm. }
  pose proof (reachable_linv _ (reachable_steps _ _ Hr1 Hs)) as [_ Hwf].
  destruct (steps_ind_core (λ l l', cmds_evolve l.(l_cmds) l'.(l_cmds))) with (s := s1) (s' := s2) as (old & new & Heq & HF);
    [|by apply lstep_cmds|done|done|].
  { split; [intros l; reflexivity|intros l1 l2 l3; apply transitivity]. }
  destruct (evolved_row (commands s1) (commands s2) row) as (row' & Hin' & Hk & Hpl'); [by exists old, new|done|].
  injection Hk as Ht' Hc' _ He'.
  destruct (steps_keeps log_extends _ _ Hs) as (_ & _ & Hcv'). destruct (Hcv' _ _ Hcv) as (cv' & Hcv2 & Hp').
  split; [done|]. split; [done|]. exists row', cv'. split_and!; [by rewrite He'|congruence| |done|congruence].
  apply find_command_unique; [done|done|congruence|congruence].
Qed.

(** C34 Admission is idempotent: once a command was accepted, admitting the same
    command again, at any later time and whatever happened to its run, returns
    the same receipt as not fresh and leaves the database as it is, when every
    string of the command is valid UTF-8. When one is not, the payload that was
    recorded has U+FFFD in it: the retry of a command that was new is refused as
    a conflict. *)
Theorem Admit_idempotent (now now' : Z) (c : Command) (s s1 s2 : db) (r : Receipt) (fresh : bool) :
  reachable s → Admit now c s = Ok (Ok (r, fresh), s1) → steps s1 s2 →
  (forallb valid_utf8 (command_strings c) = true → Admit now' c s2 = Ok (Ok (r, false), s2)) ∧
  (find_command c.(c_ThreadID) c.(c_CommunicationID) s = None → through_json_command c ≠ c →
    Admit now' c s2 = Err ErrConflict).
Proof.
  intros Hr Hm Hs. destruct (accepted_later _ _ _ _ _ _ _ Hr Hm Hs) as (Ha & Hwf & row & cv & -> & Hpl & Hf & Hcv & Hp).
  rewrite (Admit_again _ _ _ cv row) by done. unfold recorded in Hpl. split.
  - intros Hv%through_json_command_valid. rewrite bool_decide_eq_true_2; [done|]. by destruct (find_command _ _ s); congruence.
  - intros Hn Hne. rewrite Hn in Hpl. rewrite bool_decide_eq_false_2; [done|congruence].
Qed.

(** A communication ID names one command for ever: another command of the
    same principal that reuses the ID of an accepted one is refused as a
    conflict. *)
Theorem Admit_conflict (now now' : Z) (c c' : Command) (s s1 s2 : db) (r : Receipt) (fresh : bool) :
  reachable s → Admit now c s = Ok (Ok (r, fresh), s1) → steps s1 s2 →
  c'.(c_ThreadID) = c.(c_ThreadID) → c'.(c_CommunicationID) = c.(c_CommunicationID) →
  c'.(c_Principal) = c.(c_Principal) → admissible c' = true → c' ≠ recorded c s →
  Admit now' c' s2 = Err ErrConflict.
Proof.
  intros Hr Hm Hs Ht Hc Hp Hadm Hne.
  destruct (accepted_later _ _ _ _ _ _ _ Hr Hm Hs) as (_ & Hwf & row & cv & _ & Hpl & Hf & Hcv & Hpr).
  rewrite (Admit_again _ _ _ cv row); [|done|done|congruence|congruence|congruence].
  rewrite bool_decide_eq_false_2; [done|congruence].
Qed.
End retry.
