(* ===== verification/Calls.v ===== *)
(** * Approvals and effects

    What the journal promises about tool calls ([operations.go] and the
    approval half of [interactions.go]): an approval moves along its markers
    and is spent at most once, an effect happens only under the approval of
    exactly that call, an effectful call is dispatched once, and while one
    call's outcome is open no other call of its conversation starts. *)
From S2P Require Import Prelude GoText Db CallBinding Interactions JournalCore Commands Owners Runs.
From S2P Require Import Operations DefinitionStore Records Keeps Journal JournalKeeps.

(** ** Lives of rows *)

(** The writes an interaction row sees after it is inserted. *)
Inductive interaction_move (i : interaction_row) : interaction_row → Prop :=
| I_expire : i.(in_state) = IPending → interaction_move i (expire_row i)
| I_consume c answer text : i.(in_state) = IPending →
    is_ok (ValidateReply i.(in_artifact) answer) = true → interaction_move i (consumed c answer text i)
| I_mark m : i.(in_state) = IConsumed → i.(in_marker) = Some MDecided → m = MDispatched ∨ m = MSuperseded →
    interaction_move i (upd_in_marker (λ _, Some m) i).

(** What an approval's marker goes through. *)
Inductive marker_move : option Marker → option Marker → Prop :=
| M_decide : marker_move (Some MRequested) (Some MDecided)
| M_deny : marker_move (Some MRequested) (Some MDenied)
| M_dispatch : marker_move (Some MDecided) (Some MDispatched)
| M_supersede : marker_move (Some MDecided) (Some MSuperseded).

(** An operation's outcome: an open call ends once; only a call that may be
    repeated is opened again. *)
Inductive operation_move (o : operation_row) : operation_row → Prop :=
| O_end r : o.(op_outcome) = ODispatching → operation_move o (upd_op_outcome (λ _, r) o)
| O_retry : o.(op_policy) ≠ "effectful" → o.(op_outcome) = ORejected ∨ o.(op_outcome) = OUnknown →
    operation_move o (upd_op_outcome (λ _, ODispatching) o).

(** ** The invariant *)

(** The call an approval row describes, for the principal that was bound. *)
Definition wait_call (principal : string) (i : interaction_row) : CallBinding :=
  mk_CallBinding (default "" i.(in_journey)) (default "" i.(in_operation)) (default "" i.(in_name))
    (default "" i.(in_schema)) i.(in_artifact).(i_Call).(pc_Arguments) (default "" i.(in_product))
    principal i.(in_thread) i.(in_definition).

Definition marker_ok (i : interaction_row) : Prop :=
  if decide (i.(in_kind) = "approval") then
    match i.(in_state) with
    | IPending => i.(in_marker) = Some MRequested
    | IExpired => i.(in_marker) = Some MDenied
    | IConsumed => i.(in_marker) ≠ None ∧ i.(in_marker) ≠ Some MRequested
    end
  else i.(in_marker) = None.

Record wait_ok `{Codec} (i : interaction_row) : Prop := {
  wk_kind : i.(in_kind) = i.(in_artifact).(i_Kind);
  wk_marker : marker_ok i;
  wk_binding : i.(in_kind) = "approval" →
    ∃ principal, BindCall (wait_call principal i) = Ok i.(in_artifact).(i_Call).(pc_Binding);
}.

(** [i] is the spent approval of operation [o] with call ID [k]. *)
Record spent_on `{Codec} (i : interaction_row) (k : string) (o : operation_row) : Prop := {
  sp_thread : i.(in_thread) = o.(op_thread);
  sp_kind : i.(in_kind) = "approval";
  sp_state : i.(in_state) = IConsumed;
  sp_marker : i.(in_marker) = Some MDispatched;
  sp_call : i.(in_artifact).(i_Call).(pc_CallID) = k;
  sp_name : i.(in_artifact).(i_Call).(pc_Name) = o.(op_alias);
  sp_binding : i.(in_artifact).(i_Call).(pc_Binding) = o.(op_binding);
  sp_reply : ∃ text answer, i.(in_reply) = Some text ∧ unmarshal_reply text = Some answer ∧
               answer.(r_Decision) = "approve";
}.

(** The binding inputs of a dispatched call, with those the row does not keep. *)
Definition dispatched_call (journey name schema product principal definition : string) (o : operation_row)
    : CallBinding :=
  mk_CallBinding journey o.(op_key) name schema o.(op_args) product principal o.(op_thread) definition.

Record calls_ok `{Codec} (s : db) : Prop := {
  co_wait : ∀ id i, s.(interactions) !! id = Some i → wait_ok i;
  co_check : ∀ k o, s.(operations) !! k = Some o → operation_check o = true;
  co_bound : ∀ k o, s.(operations) !! k = Some o →
    ∃ j n sc p pr d, BindCall (dispatched_call j n sc p pr d o) = Ok o.(op_binding);
  co_spent : ∀ k o, s.(operations) !! k = Some o → o.(op_approval) = true →
    ∃ id i, s.(interactions) !! id = Some i ∧ spent_on i k o;
  co_open : ∀ k1 k2 o1 o2, s.(operations) !! k1 = Some o1 → s.(operations) !! k2 = Some o2 →
    o1.(op_thread) = o2.(op_thread) → unresolved o1.(op_outcome) = true → unresolved o2.(op_outcome) = true →
    k1 = k2;
  co_attempt : ∀ k n x, s.(attempts) !! (k, n) = Some x →
    ∃ o, s.(operations) !! k = Some o ∧ 1 <= n <= 2 ∧ (n = 2 → o.(op_policy) ≠ "effectful");
}.

Definition rows_live (s s' : db) : Prop :=
  (∀ id i, s.(interactions) !! id = Some i →
     ∃ i', s'.(interactions) !! id = Some i' ∧ rtc interaction_move i i') ∧
  (∀ k o, s.(operations) !! k = Some o →
     ∃ o', s'.(operations) !! k = Some o' ∧ rtc operation_move o o').

Definition calls_kept `{Codec} (s s' : db) : Prop := calls_ok s → calls_ok s' ∧ rows_live s s'.

(** ** Moves *)

Lemma interaction_move_same i i' : interaction_move i i' →
  i'.(in_thread) = i.(in_thread) ∧ i'.(in_run) = i.(in_run) ∧ i'.(in_kind) = i.(in_kind) ∧
  i'.(in_artifact) = i.(in_artifact) ∧ i'.(in_definition) = i.(in_definition) ∧
  (∀ principal, wait_call principal i' = wait_call principal i).
Proof. by destruct 1. Qed.

Lemma interaction_moves_same i i' : rtc interaction_move i i' →
  i'.(in_thread) = i.(in_thread) ∧ i'.(in_run) = i.(in_run) ∧ i'.(in_kind) = i.(in_kind) ∧
  i'.(in_artifact) = i.(in_artifact) ∧ i'.(in_definition) = i.(in_definition) ∧
  (∀ principal, wait_call principal i' = wait_call principal i).
Proof.
  induction 1 as [|x y z (H1 & H2 & H3 & H4 & H5 & H6)%interaction_move_same _ (? & ? & ? & ? & ? & H7)]; [done|].
  split_and!; congruence.
Qed.

Lemma interaction_move_ok `{Codec} i i' : interaction_move i i' → wait_ok i → wait_ok i'.
Proof.
  intros Hm [Hk Hmk Hb]. pose proof (interaction_move_same _ _ Hm) as (_ & _ & Ek & Ea & _ & Ec).
  split; [congruence| |intros Hap; rewrite Ek in Hap; destruct (Hb Hap) as [p Hp]; exists p; by rewrite Ec, Ea].
  destruct Hm as [Hs|c answer text Hs Hv|m Hs Hd Hmm]; unfold marker_ok in *; simpl in *.
  - case_decide as E; [by rewrite bool_decide_eq_true_2|by rewrite bool_decide_eq_false_2].
  - rewrite <- Hk. case_decide as E; [|by rewrite bool_decide_eq_false_2].
    rewrite bool_decide_eq_true_2 by done. by destruct (bool_decide _).
  - case_decide as E; [|congruence]. rewrite Hs. by destruct Hmm as [->| ->].
Qed.

Lemma interaction_moves_ok `{Codec} i i' : rtc interaction_move i i' → wait_ok i → wait_ok i'.
Proof. induction 1; eauto using interaction_move_ok. Qed.

Lemma spent_final i i' : rtc interaction_move i i' → i.(in_state) = IConsumed →
  i.(in_marker) = Some MDispatched → i' = i.
Proof. destruct 1 as [|x y z Hm _]; [done|]. intros Hs Hd. destruct Hm; congruence. Qed.

Lemma operation_move_same o o' : operation_move o o' →
  o' = upd_op_outcome (λ _, o'.(op_outcome)) o.
Proof. by destruct 1. Qed.

Lemma operation_moves_same o o' : rtc operation_move o o' →
  o' = upd_op_outcome (λ _, o'.(op_outcome)) o.
Proof.
  induction 1 as [x|x y z Hm%operation_move_same _ IH]; [by destruct x|]. rewrite Hm in IH. exact IH.
Qed.

Lemma spent_on_moves `{Codec} i k o o' : spent_on i k o → rtc operation_move o o' → spent_on i k o'.
Proof. intros [] ->%operation_moves_same. by split. Qed.

#[export] Instance calls_kept_preorder `{Codec} : PreOrder calls_kept.
Proof.
  split.
  - intros s Hok. split; [done|]. split; intros; eexists; (split; [done|apply rtc_refl]).
  - intros s1 s2 s3 H1 H2 Hok. destruct (H1 Hok) as [Hok2 [I1 O1]]. destruct (H2 Hok2) as [Hok3 [I2 O2]].
    split; [done|]. split.
    + intros id i Hi. destruct (I1 id i Hi) as (i2 & Hi2 & M1). destruct (I2 id i2 Hi2) as (i3 & Hi3 & M2).
      exists i3. split; [done|by etransitivity].
    + intros k o Ho. destruct (O1 k o Ho) as (o2 & Ho2 & M1). destruct (O2 k o2 Ho2) as (o3 & Ho3 & M2).
      exists o3. split; [done|by etransitivity].
Qed.

(** ** What a write keeps *)

Section writes.
Context {codec : Codec}.

Lemma calls_same s s' : s'.(interactions) = s.(interactions) → s'.(operations) = s.(operations) →
  s'.(attempts) = s.(attempts) → calls_kept s s'.
Proof.
  intros Hi Ho Ha [H1 H2 H3 H4 H5 H6]. split; [split; rewrite ?Hi, ?Ho, ?Ha; done|].
  unfold rows_live. rewrite Hi, Ho. split; intros; eexists; (split; [done|apply rtc_refl]).
Qed.

#[export] Instance calls_writes : Writes calls_kept.
Proof. split; [apply _|intros; by apply calls_same..]. Qed.

(** Interactions moved or were inserted. *)
Lemma calls_interactions s s' : s'.(operations) = s.(operations) → s'.(attempts) = s.(attempts) →
  (∀ id i', s'.(interactions) !! id = Some i' →
     (∃ i, s.(interactions) !! id = Some i ∧ rtc interaction_move i i') ∨ wait_ok i') →
  (∀ id i, s.(interactions) !! id = Some i →
     ∃ i', s'.(interactions) !! id = Some i' ∧ rtc interaction_move i i') →
  calls_kept s s'.
Proof.
  intros Ho Ha Hnew Hold [H1 H2 H3 H4 H5 H6]. split.
  - split; rewrite ?Ho, ?Ha; try done.
    + intros id i' Hi'. destruct (Hnew id i' Hi') as [(i & Hi & Hm)|]; [|done].
      eapply interaction_moves_ok; [done|by eapply H1].
    + intros k o Hk Hap. destruct (H4 k o Hk Hap) as (id & i & Hi & Hsp).
      destruct (Hold id i Hi) as (i' & Hi' & Hm). exists id, i'. split; [done|].
      by rewrite (spent_final i i') by (done || apply Hsp).
  - split; [done|]. intros k o Hk. exists o. rewrite Ho. split; [done|apply rtc_refl].
Qed.

Lemma calls_interaction s id i i' : s.(interactions) !! id = Some i → interaction_move i i' →
  calls_kept s (upd_interactions <[id := i']> s).
Proof.
  intros Hi Hm. apply calls_interactions; try done; intros id' j; simpl;
    (destruct (decide (id = id')) as [<-|Hne];
      [rewrite lookup_insert_eq|rewrite lookup_insert_ne by done]); intros Hj; simplify_eq.
  - left. exists i. split; [done|by apply rtc_once].
  - left. exists j. split; [done|apply rtc_refl].
  - exists i'. split; [done|by apply rtc_once].
  - exists j. split; [done|apply rtc_refl].
Qed.

Lemma calls_new_interaction s id i : s.(interactions) !! id = None → wait_ok i →
  calls_kept s (upd_interactions <[id := i]> s).
Proof.
  intros Hi Hok. apply calls_interactions; try done; intros id' j; simpl;
    (destruct (decide (id = id')) as [<-|Hne];
      [rewrite lookup_insert_eq|rewrite lookup_insert_ne by done]); intros Hj; simplify_eq.
  - by right.
  - left. exists j. split; [done|apply rtc_refl].
  - exists j. split; [done|apply rtc_refl].
Qed.

(** One operation moved, with no other open in its conversation if it is open
    now. *)
Definition only_open (k : string) (o : operation_row) (s : db) : Prop :=
  ∀ k' o', s.(operations) !! k' = Some o' → o'.(op_thread) = o.(op_thread) →
    unresolved o'.(op_outcome) = true → k' = k.

Lemma calls_operation s k o o' : s.(operations) !! k = Some o → operation_move o o' →
  (unresolved o.(op_outcome) = true ∨ unresolved o'.(op_outcome) = true → only_open k o s) →
  calls_kept s (upd_operations <[k := o']> s).
Proof.
  intros Hk Hm Hopen [H1 H2 H3 H4 H5 H6]. pose proof (operation_move_same _ _ Hm) as E.
  assert (∀ k' o1, <[k := o']> s.(operations) !! k' = Some o1 →
    ∃ o0, s.(operations) !! k' = Some o0 ∧ rtc operation_move o0 o1 ∧ (k' ≠ k → o1 = o0)) as Hold.
  { intros k' o1. destruct (decide (k = k')) as [<-|Hne].
    - rewrite lookup_insert_eq. intros [= <-]. exists o. split_and!; [done|by apply rtc_once|done].
    - rewrite lookup_insert_ne by done. intros Ho1. exists o1. split_and!; [done|apply rtc_refl|done]. }
  split.
  - split; simpl; [done|..].
    + intros k' o1 (o0 & Ho & Hm1 & _)%Hold. rewrite (operation_moves_same _ _ Hm1). exact (H2 k' o0 Ho).
    + intros k' o1 (o0 & Ho & Hm1 & _)%Hold. rewrite (operation_moves_same _ _ Hm1). exact (H3 k' o0 Ho).
    + intros k' o1 (o0 & Ho & Hm1 & _)%Hold Hap.
      rewrite (operation_moves_same _ _ Hm1) in Hap. destruct (H4 k' o0 Ho Hap) as (id & i & Hi & Hsp).
      exists id, i. split; [done|by eapply spent_on_moves].
    + assert (∀ k1 o1, <[k := o']> s.(operations) !! k1 = Some o1 → o1.(op_thread) = o'.(op_thread) →
        unresolved o1.(op_outcome) = true → unresolved o'.(op_outcome) = true → k1 = k) as Hc.
      { intros k1 o1 H Ht Hu Hu'. destruct (decide (k1 = k)) as [|Hne]; [done|].
        destruct (Hold k1 o1 H) as (o0 & Ho & _ & Heq). rewrite (Heq Hne) in *.
        apply (Hopen (or_intror Hu') k1 o0); [done| |done]. by rewrite Ht, E. }
      intros k1 k2 o1 o2 Hk1 Hk2 Ht Hu1 Hu2.
      destruct (decide (k1 = k)) as [->|Hn1].
      * rewrite lookup_insert_eq in Hk1. injection Hk1 as <-. symmetry. by apply (Hc k2 o2).
      * destruct (decide (k2 = k)) as [->|Hn2].
        -- rewrite lookup_insert_eq in Hk2. injection Hk2 as <-. by apply (Hc k1 o1).
        -- rewrite lookup_insert_ne in Hk1, Hk2 by done. by apply (H5 k1 k2 o1 o2).
    + intros k' n x Hx. destruct (H6 k' n x Hx) as (o0 & Ho & Hn & Hp).
      destruct (decide (k = k')) as [<-|Hne].
      * rewrite Hk in Ho. injection Ho as <-. exists o'. rewrite lookup_insert_eq. split; [done|].
        split; [done|]. rewrite E. done.
      * exists o0. by rewrite lookup_insert_ne.
  - split; [intros id i Hi; exists i; split; [done|apply rtc_refl]|].
    intros k' o0 Ho. simpl. destruct (decide (k = k')) as [<-|Hne].
    + rewrite Hk in Ho. injection Ho as <-. exists o'. rewrite lookup_insert_eq. split; [done|by apply rtc_once].
    + exists o0. rewrite lookup_insert_ne by done. split; [done|apply rtc_refl].
Qed.

Lemma calls_attempts s f : (∀ k n x, f s.(attempts) !! (k, n) = Some x →
    (∃ y, s.(attempts) !! (k, n) = Some y) ∨
    ∃ o, s.(operations) !! k = Some o ∧ 1 <= n <= 2 ∧ (n = 2 → o.(op_policy) ≠ "effectful")) →
  calls_kept s (upd_attempts f s).
Proof.
  intros Hf [H1 H2 H3 H4 H5 H6]. split.
  - split; try done. intros k n x Hx. simpl in *. destruct (Hf k n x Hx) as [[y Hy]|]; [by eapply H6|done].
  - split; intros; eexists; (split; [done|apply rtc_refl]).
Qed.

(** A new operation: bound, checked, approved if it must be, and alone. *)
Lemma calls_new_operation s k o : s.(operations) !! k = None → operation_check o = true →
  (∃ j n sc p pr d, BindCall (dispatched_call j n sc p pr d o) = Ok o.(op_binding)) →
  (o.(op_approval) = true → ∃ id i, s.(interactions) !! id = Some i ∧ spent_on i k o) →
  only_open k o s → calls_kept s (upd_operations <[k := o]> s).
Proof.
  intros Hk Hc Hb Hsp Hopen [H1 H2 H3 H4 H5 H6]. split.
  - split; simpl; [done|..].
    + intros k' o'. destruct (decide (k = k')) as [<-|Hne]; [rewrite lookup_insert_eq|rewrite lookup_insert_ne by done; apply H2]. by intros [= <-].
    + intros k' o'. destruct (decide (k = k')) as [<-|Hne]; [rewrite lookup_insert_eq|rewrite lookup_insert_ne by done; apply H3]. by intros [= <-].
    + intros k' o'. destruct (decide (k = k')) as [<-|Hne]; [rewrite lookup_insert_eq|rewrite lookup_insert_ne by done; apply H4]. by intros [= <-].
    + intros k1 k2 o1 o2. destruct (decide (k = k1)) as [<-|Hn1], (decide (k = k2)) as [<-|Hn2];
        rewrite ?lookup_insert_eq, ?lookup_insert_ne by done; intros Hk1 Hk2 Ht Hu1 Hu2; simplify_eq; [done|..].
      * symmetry. by eapply Hopen.
      * by eapply Hopen.
      * by eapply H5.
    + intros k' n x Hx. destruct (H6 k' n x Hx) as (o0 & Ho & Hn). exists o0.
      rewrite lookup_insert_ne by congruence. done.
  - split; intros id x Hx; exists x; (split; [|apply rtc_refl]); [done|]. simpl. by rewrite lookup_insert_ne by congruence.
Qed.
End writes.

(** ** What the transactions keep *)

(** The three tables as they were. *)
Definition same_calls (s s' : db) : Prop :=
  s'.(interactions) = s.(interactions) ∧ s'.(operations) = s.(operations) ∧ s'.(attempts) = s.(attempts).
#[export] Instance same_calls_preorder : PreOrder same_calls.
Proof. split; [done|]. intros s1 s2 s3 (? & ? & ?) (? & ? & ?). split_and!; congruence. Qed.
#[export] Instance same_calls_writes : Writes same_calls.
Proof. split; [apply _|done..]. Qed.

(** Turns the rest of a transaction into what it keeps. *)
Ltac tx_rest H R :=
  match type of H with
  | ?m ?s = Ok (_, ?s') => let Hk := fresh "Hk" in assert (keeps R m) as Hk; [|apply Hk in H; clear Hk]
  end.

Section transactions.
Context {codec : Codec}.

Lemma same_calls_kept s s' : same_calls s s' → calls_kept s s'.
Proof. intros (? & ? & ?). by apply calls_same. Qed.

Lemma calls_ok_kept s s' : calls_ok s → calls_kept s s' → calls_ok s'.
Proof. intros Hok Hk. apply (Hk Hok). Qed.

Lemma unknown_kept P s : (∀ k o, P k o = true → o.(op_outcome) = ODispatching) →
  (∃ t, ∀ k o, P k o = true → o.(op_thread) = t) →
  calls_kept s (upd_operations (update_rows P (upd_op_outcome (λ _, OUnknown))) s).
Proof.
  intros HP [t Ht] Hok. revert Hok.
  destruct (matching_cases P s.(operations)) as [[Hn _]|(k & o & l & _ & Hk & Hp)]; intros Hok.
  - unfold upd_operations. rewrite update_rows_none by done. apply calls_same; done.
  - assert (only_open k o s) as Hopen.
    { intros k' o' Hk' Hth Hu. eapply (co_open _ Hok); [done..|]. by rewrite (HP _ _ Hp). }
    assert (upd_operations (update_rows P (upd_op_outcome (λ _, OUnknown))) s
      = upd_operations <[k := upd_op_outcome (λ _, OUnknown) o]> s) as ->.
    { unfold upd_operations. f_equal. apply update_rows_one; [done..|]. intros k' o' Hk' Hp'.
      apply (Hopen k' o'); [done| |by rewrite (HP _ _ Hp')]. rewrite (Ht _ _ Hp'), (Ht _ _ Hp). done. }
    apply calls_operation with (o := o); [done|apply O_end; by eapply HP|done|done].
Qed.

Lemma unknown_writes t run : keeps calls_kept (markOperationsUnknown t run).
Proof.
  unfold markOperationsUnknown. apply keeps_bind; [apply _| |intros _].
  { apply keeps_modify. intros s. apply calls_attempts. intros k n x. rewrite lookup_update_rows.
    destruct (attempts s !! (k, n)); [|done]. left. eauto. }
  apply keeps_bind; [apply _|apply keeps_get, _|intros rows].
  apply keeps_bind; [apply _| |intros _; writes].
  apply keeps_modify. intros s. apply unknown_kept.
  - intros k o [_ H]%andb_true_iff. by apply bool_decide_eq_true in H.
  - exists t. intros k o [H _]%andb_true_iff. apply andb_true_iff in H as [H _]. by apply bool_decide_eq_true in H.
Qed.

Lemma expire_writes now t : keeps calls_kept (expireInteractions now t).
Proof.
  unfold expireInteractions. apply keeps_bind; [apply _|apply keeps_get, _|intros rows].
  apply keeps_bind; [apply _| |intros _; unfold expireRun; writes].
  apply keeps_modify. intros s.
  assert (∀ i, expired_wait now t i = true → interaction_move i (expire_row i)) as He.
  { intros i H. apply I_expire. unfold expired_wait in H. by gosimpl. }
  apply calls_interactions; [done..| |]; simpl; intros id i; rewrite lookup_update_rows.
  - destruct (interactions s !! id) as [i0|]; [|done]. intros [= <-]. left. exists i0. split; [done|].
    destruct (expired_wait now t i0) eqn:E; [by apply rtc_once, He|apply rtc_refl].
  - intros Hi. rewrite Hi. eexists. split; [done|].
    destruct (expired_wait now t i) eqn:E; [by apply rtc_once, He|apply rtc_refl].
Qed.

Lemma update_found t id f s a s' i : update_interaction t id f s = Ok (a, s') →
  interaction_of t id s = Some i → s' = upd_interactions <[id := f i]> s.
Proof.
  intros Hm Hi. unfold update_interaction in Hm. tx_get Hm row. rewrite Hi in Hm.
  unfold put_interaction in Hm. by txsimpl.
Qed.

Lemma interaction_of_same t id s s' : same_calls s s' → interaction_of t id s' = interaction_of t id s.
Proof. intros [E _]. unfold interaction_of. by rewrite E. Qed.

Lemma reply_writes now c answer : keeps calls_kept (replyNew now c answer).
Proof.
  intros s a s' Hm. unfold replyNew in Hm. cbv zeta in Hm. tx_guard Hm Hid. tx_get Hm row. tx_the Hm i Hi.
  destruct (_ && _) eqn:Hx.
  { tx_rest Hm calls_kept; [|done]. apply keeps_bind; [apply _|apply expire_writes|intros _; writes]. }
  tx_guard Hm G1. tx_guard Hm G2. tx_guard Hm G3. tx_guard Hm G4. clear Hx G1 G3.
  apply andb_true_iff in G2 as [_ Hst%bool_decide_eq_true].
  unfold consumeReply in Hm. cbv zeta in Hm. tx_guard Hm Hrun. tx_guard Hm Hjson.
  tx_step Hm u1 s1 H1. tx_rest H1 same_calls; [apply k_insert_command, _|].
  tx_step Hm u2 s2 H2. tx_rest H2 same_calls; [apply k_insert_run, _|].
  unfold as_jsonb in Hm. tx_the Hm text Ht. tx_step Hm u3 s3 H3.
  assert (same_calls s s2) as Hs by (by etransitivity).
  rewrite <- (interaction_of_same _ _ _ _ Hs) in Hi.
  rewrite (update_found _ _ _ _ _ _ _ H3 Hi) in Hm. apply interaction_of_Some in Hi as [Hi _].
  tx_rest Hm calls_kept; [writes|].
  etransitivity; [by apply same_calls_kept|]. etransitivity; [|exact Hm].
  apply calls_interaction with (i := i); [done|by apply I_consume].
Qed.

Lemma supersede_writes t run id : keeps calls_kept (supersede t run id).
Proof.
  intros s a s' Hm. unfold supersede in Hm. tx_get Hm row. tx_the Hm i Hi.
  case_bool_decide as Hmk; [injection Hm as _ <-; reflexivity|].
  tx_guard Hm Hd. apply bool_decide_eq_true in Hd. tx_step Hm u s1 H1.
  unfold approval_of in Hi. apply bind_Some in Hi as (i' & Hi & Hc).
  destruct (continues t run i' && _) eqn:Hco; [|done]. injection Hc as ->.
  rewrite (update_found _ _ _ _ _ _ _ H1 Hi) in Hm. apply interaction_of_Some in Hi as [Hi _].
  tx_rest Hm calls_kept; [writes|]. etransitivity; [|exact Hm].
  apply calls_interaction with (i := i); [done|]. apply I_mark; [|done|by right].
  unfold continues in Hco. by gosimpl.
Qed.
End transactions.

Section transactions2.
Context {codec : Codec}.

Lemma wait_writes now o i ck h : keeps calls_kept (Wait now o i ck h).
Proof.
  intros s a s' Hm. unfold Wait in Hm. cbv zeta in Hm.
  tx_step Hm v s1 H1. apply lift_ok in H1 as [_ ->]. tx_guard Hm G1.
  tx_step Hm u s2 H2. apply lockOwner_ok in H2 as [-> _].
  tx_get Hm pending. tx_guard Hm G2. tx_guard Hm Hap.
  tx_step Hm scope s3 H3. apply run_scope_ok in H3 as (-> & r & conv & product & definition & -> & _ & _ & _ & Hp & _).
  tx_step Hm ttl s4 H4. apply lift_ok in H4 as [_ ->]. tx_guard Hm Hb. apply bool_decide_eq_true in Hb.
  unfold as_jsonb in Hm. tx_the Hm ck' Hck. tx_the Hm h' Hh.
  tx_step Hm u5 s5 H5. apply insert_interaction_ok in H5 as [Hnew ->].
  tx_rest Hm calls_kept; [writes|]. etransitivity; [|exact Hm]. apply calls_new_interaction; [done|].
  split; [done| |].
  - unfold marker_ok. simpl. case_decide as E; [by rewrite bool_decide_eq_true_2|by rewrite bool_decide_eq_false_2].
  - simpl. intros E. exists conv.(cv_principal). rewrite <- Hb. f_equal. unfold wait_call, binding_of. simpl.
    rewrite E, Hp in *. simpl in Hap. apply andb_true_iff in Hap as [Hj _]. unfold nonempty in Hj.
    unfold or_else. by destruct (bool_decide (i_JourneyID i = "")).
Qed.

Lemma calls_end s k o r : s.(operations) !! k = Some o → o.(op_outcome) = ODispatching →
  calls_kept s (upd_operations <[k := upd_op_outcome (λ _, r) o]> s).
Proof.
  intros Hk Hd Hok. revert Hok. intros Hok. eapply calls_operation; [done|by apply O_end| |done].
  intros _ k' o' Hk' Ht Hu. eapply (co_open _ Hok); [done..|]. by rewrite Hd.
Qed.

Lemma end_writes now o op n out : keeps calls_kept (EndAttempt now o op n out).
Proof.
  intros s a s' Hm. unfold EndAttempt in Hm. cbv zeta in Hm. tx_the Hm result Hr.
  tx_step Hm u s2 H2. apply lockOwner_ok in H2 as [-> _]. tx_get Hm row. tx_the Hm r Hk. tx_guard Hm Hg.
  apply andb_true_iff in Hg as [_ Hd%bool_decide_eq_true].
  tx_step Hm u3 s3 H3. injection H3 as _ <-.
  tx_get Hm old. tx_guard Hm Hold. apply bool_decide_eq_true in Hold.
  tx_step Hm u4 s4 H4. injection H4 as _ <-. tx_rest Hm calls_kept; [writes|].
  etransitivity; [by apply calls_end|]. etransitivity; [|exact Hm]. apply calls_attempts.
  intros k m x. destruct (decide ((o_CallID op, n) = (k, m))) as [[= <- <-]|Hne].
  - intros _. left. eauto.
  - rewrite lookup_insert_ne by done. left. eauto.
Qed.

Lemma insert_attempt_ok call n x s a s' : insert_attempt call n x s = Ok (a, s') →
  is_Some (s.(operations) !! call) ∧ s' = upd_attempts <[(call, n) := x]> s.
Proof. unfold insert_attempt. intros Hm. txsimpl. by gosimpl. Qed.

Lemma attempt_kept s call n o x : s.(operations) !! call = Some o → 1 <= n <= 2 →
  (n = 2 → o.(op_policy) ≠ "effectful") → calls_kept s (upd_attempts <[(call, n) := x]> s).
Proof.
  intros Ho Hn Hp. apply calls_attempts. intros k m y.
  destruct (decide ((call, n) = (k, m))) as [[= <- <-]|Hne].
  - intros _. right. eauto.
  - rewrite lookup_insert_ne by done. left. eauto.
Qed.

(** No other operation of the conversation is open. *)
Definition alone (t k : string) (s : db) : Prop :=
  ∀ k' o', s.(operations) !! k' = Some o' → o'.(op_thread) = t → unresolved o'.(op_outcome) = true → k' = k.

Lemma retry_writes t run op s a s' : alone t op.(o_CallID) s → retryAttempt t run op s = Ok (a, s') →
  calls_kept s s' ∧ ∃ o, s'.(operations) !! op.(o_CallID) = Some o ∧ o.(op_policy) ≠ "effectful".
Proof.
  intros Hal Hm. unfold retryAttempt in Hm. tx_get Hm row. tx_the Hm o Hk. tx_guard Hm Hop. tx_guard Hm Hg.
  injection Hm as _ <-. unfold operation_of in Hop. gosimpl. split.
  - apply calls_operation with (o := o); [done|apply O_retry; [congruence|]|].
    { by rename select (_ || _ = true) into Ho; apply orb_true_iff in Ho as [?%bool_decide_eq_true|?%bool_decide_eq_true]; [left|right]. }
    intros _ k' o' Hk' Ht Hu. apply (Hal k' o'); [done|congruence|done].
  - eexists. simpl. rewrite lookup_insert_eq. split; [done|]. simpl. congruence.
Qed.

(** What a first attempt needs to know before it writes. *)
Record starts (t : string) (op : Operation) (s : db) : Prop := {
  st_bound : ∃ product principal definition,
    BindCall (binding_inputs op product principal t definition) = Ok op.(o_Binding);
  st_policy : valid_policy op.(o_Policy) = true ∧ (op.(o_Policy) = "read_only" ∨ op.(o_RequiresApproval) = true);
  st_alone : alone t op.(o_CallID) s;
}.

Lemma takeApproval_ok now t run op ex ap s b s' : takeApproval now t run op ex ap s = Ok (b, s') →
  (b = true ∧ calls_kept s s') ∨
  (b = false ∧ s' = s ∧ ∃ i, interaction_of t ap s = Some i ∧ i.(in_kind) = "approval" ∧ i.(in_state) = IConsumed ∧
     i.(in_marker) = Some MDecided ∧ i.(in_artifact).(i_Call).(pc_CallID) = op.(o_CallID) ∧
     i.(in_artifact).(i_Call).(pc_Name) = op.(o_Name) ∧ i.(in_artifact).(i_Call).(pc_Binding) = ex ∧
     ∃ text answer, i.(in_reply) = Some text ∧ unmarshal_reply text = Some answer ∧ answer.(r_Decision) = "approve").
Proof.
  unfold takeApproval. intros Hm. tx_get Hm row. tx_the Hm i Hi. cbv zeta in Hm. tx_the Hm answer Ha.
  tx_guard Hm G1. tx_guard Hm G2. apply bind_Some in Hi as (i0 & Hi & Hx).
  destruct (now <? in_expires i0); [|done]. injection Hx as ->.
  unfold approval_of in Hi. apply bind_Some in Hi as (i1 & Hi & Hc).
  destruct (continues t run i1 && _) eqn:Hco; [|done]. injection Hc as ->.
  destruct (_ || _) eqn:Hd.
  - left. tx_step Hm u s1 H1. apply supersede_writes in H1. by injection Hm as <- <-.
  - right. injection Hm as <- <-. apply orb_false_iff in Hd as [_ Hd]. unfold continues in Hco. gosimpl.
    split; [done|]. split; [done|]. exists i. split_and!; try done. apply bind_Some in Ha as (text & Ht & Ha). eauto.
Qed.

Lemma insert_operation_ok id o s a s' : insert_operation id o s = Ok (a, s') →
  s.(operations) !! id = None ∧ operation_check o = true ∧ s' = upd_operations <[id := o]> s.
Proof. unfold insert_operation. intros Hm. txsimpl. by gosimpl. Qed.

Lemma started_kept t op run journey s : starts t op s → s.(operations) !! op.(o_CallID) = None →
  let o := operation_row_of t run op journey in
  (op.(o_RequiresApproval) = true → ∃ id i, s.(interactions) !! id = Some i ∧ spent_on i op.(o_CallID) o) →
  operation_check o = true → calls_kept s (upd_operations <[op.(o_CallID) := o]> s).
Proof.
  intros [(pr & p & d & Hb) _ Hal] Hn o Hsp Hc. apply calls_new_operation; try done.
  exists op.(o_JourneyID), op.(o_NameDigest), op.(o_SchemaDigest), pr, p, d. exact Hb.
Qed.

Lemma first_writes now t run op ap s b s' : starts t op s →
  firstAttempt now t run op op.(o_Binding) ap s = Ok (b, s') →
  calls_kept s s' ∧ (b = false → is_Some (s'.(operations) !! op.(o_CallID))).
Proof.
  intros Hst Hm. unfold firstAttempt in Hm. tx_step Hm sup s1 H1.
  destruct op.(o_RequiresApproval) eqn:Hreq.
  - apply takeApproval_ok in H1 as [(-> & Hk)|(-> & -> & i & Hi & Hkind & Hs & Hmk & Hcall & Hname & Hbind & Hans)].
    { injection Hm as <- <-. by split. }
    tx_get Hm row. tx_step Hm u2 s2 H2. apply insert_operation_ok in H2 as (Hnew & Hc & ->).
    tx_step Hm u3 s3 H3. injection Hm as <- <-.
    assert (∀ f, interaction_of t ap (upd_operations f s) = Some i) as Hi' by done.
    rewrite (update_found _ _ _ _ _ _ _ H3 (Hi' _)).
    apply interaction_of_Some in Hi as [Hi Hth]. split; [|intros _; simpl; rewrite lookup_insert_eq; eauto].
    set (o := operation_row_of t run op _) in *. set (i' := upd_in_marker _ i).
    transitivity (upd_interactions <[ap := i']> s).
    { apply calls_interaction with (i := i); [done|]. apply I_mark; [done..|by left]. }
    change (calls_kept (upd_interactions <[ap := i']> s)
      (upd_operations <[op.(o_CallID) := o]> (upd_interactions <[ap := i']> s))).
    apply started_kept; [|done| |done].
    + destruct Hst as [Hb Hp Hal]. by split.
    + intros _. exists ap, i'. simpl. rewrite lookup_insert_eq. by split.
  - injection H1 as <- <-. tx_get Hm row. tx_step Hm u2 s2 H2. apply insert_operation_ok in H2 as (Hnew & Hc & ->).
    tx_step Hm u3 s3 H3. injection H3 as _ <-. injection Hm as <- <-. split.
    + apply started_kept; [done..|by rewrite Hreq|done].
    + intros _. simpl. rewrite lookup_insert_eq. eauto.
Qed.

Lemma begin_writes now o op n ap : keeps calls_kept (BeginAttempt now o op n ap).
Proof.
  intros s a s' Hm. unfold BeginAttempt in Hm. cbv zeta in Hm. tx_guard Hm Hok.
  tx_step Hm u s1 H1. apply lockOwner_ok in H1 as [-> _].
  tx_step Hm scope s2 H2. apply run_scope_ok in H2 as (-> & r & conv & product & definition & -> & _).
  tx_the Hm expected He. tx_guard Hm Hb. apply bool_decide_eq_true in Hb as ->. tx_get Hm unknown.
  tx_guard Hm Hun. apply negb_true_iff in Hun. rewrite exists_row_false in Hun.
  unfold attempt_ok in Hok. rewrite !andb_true_iff, orb_true_iff, bool_decide_eq_true, !Z.leb_le in Hok.
  destruct Hok as ((((_ & Hlo) & Hhi) & Hpol) & Hreq). set (t := c_ThreadID (ow_Command o)) in *.
  assert (starts t op s) as Hst.
  { split; [|done|].
    - exists product, conv.(cv_principal), definition. destruct (BindCall _) as [d|]; congruence.
    - intros k' o' Hk' Ht Hu. specialize (Hun k' o' Hk'). rewrite Hu, (bool_decide_eq_true_2 _ Ht) in Hun. simpl in Hun. by gosimpl. }
  tx_step Hm sup s3 H3. destruct sup.
  { injection Hm as _ <-. destruct (n =? 1).
    - by apply (first_writes _ _ _ _ _ _ _ _ Hst) in H3 as [Hk _].
    - tx_step H3 u4 s4 H4. by injection H3. }
  tx_step Hm u5 s5 H5. apply insert_attempt_ok in H5 as [[oo Hop] ->].
  tx_rest Hm calls_kept; [writes|]. etransitivity; [|exact Hm].
  destruct (n =? 1) eqn:Hn.
  - apply (first_writes _ _ _ _ _ _ _ _ Hst) in H3 as [Hk _]. etransitivity; [exact Hk|].
    eapply attempt_kept; [done|lia|lia].
  - tx_step H3 u4 s4 H4. injection H3 as <-.
    apply (retry_writes _ _ _ _ _ _ (st_alone _ _ _ Hst)) in H4 as [Hk (o' & Ho' & Hp)].
    etransitivity; [exact Hk|]. eapply attempt_kept; [exact Ho'|lia|by intros _].
Qed.

#[export] Instance calls_call_writes : CallWrites calls_kept.
Proof.
  split; [apply unknown_writes|apply expire_writes|apply reply_writes|apply wait_writes|apply supersede_writes
         |apply begin_writes|apply end_writes].
Qed.

Lemma calls_empty : calls_ok empty_db.
Proof.
  split; simpl; intros *; rewrite ?lookup_empty; try done.
Qed.

Lemma reachable_calls s : reachable s → calls_ok s.
Proof. intros Hr. apply (steps_keeps calls_kept _ _ Hr), calls_empty. Qed.

Lemma steps_calls s s' : reachable s → steps s s' → rows_live s s'.
Proof. intros Hr Hs. apply (steps_keeps calls_kept _ _ Hs). by apply reachable_calls. Qed.
End transactions2.

(** ** The theorems *)

Lemma marker_of_move `{Codec} i i' : interaction_move i i' → wait_ok i → i.(in_kind) = "approval" →
  marker_move i.(in_marker) i'.(in_marker).
Proof.
  intros Hm [Hk Hmk _] Ha. unfold marker_ok in Hmk. rewrite decide_True in Hmk by done.
  destruct Hm as [Hs|c answer text Hs _|m Hs Hd Hmm]; simpl.
  - rewrite Hs in Hmk. rewrite Hmk, bool_decide_eq_true_2 by done. constructor.
  - rewrite Hs in Hmk. rewrite Hmk, <- Hk, bool_decide_eq_true_2 by done. destruct (bool_decide _); constructor.
  - rewrite Hd. destruct Hmm as [->| ->]; constructor.
Qed.

Lemma markers_of_moves `{Codec} i i' : rtc interaction_move i i' → wait_ok i → i.(in_kind) = "approval" →
  rtc marker_move i.(in_marker) i'.(in_marker).
Proof.
  induction 1 as [x|x y z Hm _ IH]; intros Hok Ha; [apply rtc_refl|].
  eapply rtc_l; [by eapply marker_of_move|]. apply IH; [by eapply interaction_move_ok|].
  by destruct (interaction_move_same _ _ Hm) as (_ & _ & -> & _).
Qed.

Lemma effectful_ends o o' : rtc operation_move o o' → o.(op_policy) = "effectful" →
  o.(op_outcome) ≠ ODispatching → o' = o.
Proof. destruct 1 as [|x y z Hm _]; [done|]. intros Hp Ho. destruct Hm; congruence. Qed.

Section theorems.
Context {codec : Codec}.

(** C1 No effect without its approval: every call of the operations table that
    is not read-only was let through by an approval of its own conversation
    which a principal answered with "approve", which names this call ID and
    tool, which is spent, and whose binding is the binding of the dispatched
    call; unless SHA-256 collides, what was approved and what was dispatched
    are the same journey, operation, schema, JSON arguments, product version,
    principal, conversation and definition set. *)
Theorem effects_are_approved {Hcodec : CodecOk} (s : db) (k : string) (o : operation_row) :
  reachable s → s.(operations) !! k = Some o → o.(op_policy) ≠ "read_only" →
  ∃ id i principal j n sc p pr d, s.(interactions) !! id = Some i ∧ spent_on i k o ∧
    let approved := wait_call principal i in
    let dispatched := dispatched_call j n sc p pr d o in
    BindCall approved = Ok o.(op_binding) ∧ BindCall dispatched = Ok o.(op_binding) ∧
    (utf8_binding approved = true → utf8_binding dispatched = true →
     no_collision (binding_preimage approved) (binding_preimage dispatched) → same_call approved dispatched).
Proof.
  intros Hr Ho Hp. destruct (reachable_calls s Hr) as [Hw Hc Hb Hs _ _].
  assert (o.(op_approval) = true) as Hap.
  { specialize (Hc k o Ho). unfold operation_check in Hc. apply andb_true_iff in Hc as [_ Hc].
    by apply orb_true_iff in Hc as [E%bool_decide_eq_true|E]. }
  destruct (Hs k o Ho Hap) as (id & i & Hi & Hsp). destruct (Hw id i Hi) as [_ _ Hbind].
  destruct (Hbind (sp_kind _ _ _ Hsp)) as [principal HA]. rewrite (sp_binding _ _ _ Hsp) in HA.
  destruct (Hb k o Ho) as (j & n & sc & p & pr & d & HB).
  exists id, i, principal, j, n, sc, p, pr, d. split; [done|]. split; [done|]. split; [exact HA|]. split; [exact HB|].
  intros H1 H2 H3. by eapply binding_determines_call.
Qed.

(** C31 Dispatches are bounded: a call is attempted at most twice, and an
    effectful call at most once. *)
Theorem attempts_bounded (s : db) (k : string) (n : Z) (x : Outcome) :
  reachable s → s.(attempts) !! (k, n) = Some x →
  ∃ o, s.(operations) !! k = Some o ∧ 1 <= n <= 2 ∧ (o.(op_policy) = "effectful" → n = 1).
Proof.
  intros Hr Hx. destruct (co_attempt _ (reachable_calls s Hr) k n x Hx) as (o & Ho & Hn & Hp).
  exists o. split; [done|]. split; [done|]. intros He. destruct (decide (n = 2)) as [E|]; [|lia].
  by destruct (Hp E).
Qed.

(** While a call is dispatching or its outcome is unknown, no other call of
    its conversation is. *)
Theorem one_open_call (s : db) (k1 k2 : string) (o1 o2 : operation_row) :
  reachable s → s.(operations) !! k1 = Some o1 → s.(operations) !! k2 = Some o2 →
  o1.(op_thread) = o2.(op_thread) → unresolved o1.(op_outcome) = true → unresolved o2.(op_outcome) = true →
  k1 = k2.
Proof. intros Hr. apply (co_open _ (reachable_calls s Hr)). Qed.

(** C22 An approval never disappears, its planned call never changes, and its
    marker only moves requested, then decided or denied, then from decided to
    dispatched or superseded: a denied, expired, superseded or spent approval
    is never decided again. *)
Theorem approvals_follow_markers (s s' : db) (id : string) (i : interaction_row) :
  reachable s → steps s s' → s.(interactions) !! id = Some i → i.(in_kind) = "approval" →
  ∃ i', s'.(interactions) !! id = Some i' ∧ i'.(in_artifact) = i.(in_artifact) ∧
    i'.(in_thread) = i.(in_thread) ∧ i'.(in_run) = i.(in_run) ∧
    rtc marker_move i.(in_marker) i'.(in_marker).
Proof.
  intros Hr Hs Hi Ha. destruct (proj1 (steps_calls s s' Hr Hs) id i Hi) as (i' & Hi' & Hm).
  destruct (interaction_moves_same _ _ Hm) as (Ht & Hrn & _ & Hart & _). exists i'. split_and!; try done.
  apply markers_of_moves; [done| |done]. by apply (co_wait _ (reachable_calls s Hr) id).
Qed.

(** An operation never disappears and only its outcome changes: an open one
    ends, one that was rejected or is unknown may be opened again unless it is
    effectful, and the outcome of an effectful one is final. *)
Theorem operations_follow_outcomes (s s' : db) (k : string) (o : operation_row) :
  reachable s → steps s s' → s.(operations) !! k = Some o →
  ∃ o', s'.(operations) !! k = Some o' ∧ o' = upd_op_outcome (λ _, o'.(op_outcome)) o ∧
    rtc operation_move o o' ∧
    (o.(op_policy) = "effectful" → o.(op_outcome) ≠ ODispatching → o' = o).
Proof.
  intros Hr Hs Ho. destruct (proj2 (steps_calls s s' Hr Hs) k o Ho) as (o' & Ho' & Hm).
  exists o'. split_and!; [done|by apply operation_moves_same|done|by apply effectful_ends].
Qed.
End theorems.
