(* ===== verification/Rollout.v ===== *)
(** * Rolling definition sets out

    What [internal/journal/definitions.go] promises: the stored sets are
    append-only, the current set moves forward only and only to a set that
    leaves no conversation behind, a conversation in the middle of something
    keeps the set it is pinned to, and a ready replica can serve every run. *)
From S2P Require Import Prelude GoText Db CallBinding Interactions JournalCore Commands Owners Runs.
From S2P Require Import Operations DefinitionStore Records Keeps Journal JournalKeeps.

(** ** The stored sets *)

(** Sets stay, with their files and their first activation time. *)
Definition sets_extend (s s' : db) : Prop := ∀ d r, s.(def_sets) !! d = Some r →
  ∃ r', s'.(def_sets) !! d = Some r' ∧ r'.(ds_files) = r.(ds_files) ∧
    (is_Some r.(ds_activated) → r'.(ds_activated) = r.(ds_activated)).

Lemma sets_extend_same s s' : s'.(def_sets) = s.(def_sets) → sets_extend s s'.
Proof. intros E d r Hr. exists r. by rewrite E. Qed.

#[export] Instance sets_extend_preorder : PreOrder sets_extend.
Proof.
  split; [intros s; by apply sets_extend_same|]. intros s1 s2 s3 H1 H2 d r Hr.
  destruct (H1 d r Hr) as (r2 & Hr2 & Hf2 & Ha2). destruct (H2 d r2 Hr2) as (r3 & Hr3 & Hf3 & Ha3).
  exists r3. split_and!; [done|congruence|]. intros Ha. rewrite Ha3, Ha2; [done..|]. by rewrite Ha2.
Qed.

#[export] Instance sets_writes : Writes sets_extend.
Proof.
  split; try (intros; by apply sets_extend_same).
  - apply _.
  - intros s d files Hn e r Hr. exists r. simpl. rewrite lookup_insert_ne by congruence. done.
  - intros s d now e r Hr. simpl. destruct (decide (d = e)) as [<-|Hne].
    + rewrite lookup_alter_eq, Hr. simpl. eexists. split; [done|]. split; [done|]. simpl.
      by intros [t ->].
    + rewrite lookup_alter_ne by done. by exists r.
Qed.
#[export] Instance sets_free : FreeCalls sets_extend.
Proof. split; intros; by apply sets_extend_same. Qed.

(** ** Moving the current set *)

(** The database after the current set is [d]. *)
Definition with_current (now : Z) (d : string) (s : db) : db :=
  upd_def_sets (alter (λ r, mk_defset (Some (default now r.(ds_activated))) r.(ds_files)) d)
    (upd_current (λ _, Some d) s).

(** What an activation needs when the candidate is not the current set. *)
Definition may_move (served : option (string → bool)) (expected candidate : string) (rollback : bool) (s : db)
    : Prop :=
  (rollback = true ∨ activated_before candidate s = false) ∧
  (∀ d, d ∈ referencedDigests s → serves served d = true) ∧
  match s.(current) with None => expected = "" | Some cur => cur = expected end.

Lemma current_referenced s d : s.(current) = Some d → d ∈ referencedDigests s.
Proof. intros E. unfold referencedDigests. rewrite elem_of_remove_dups, E. simpl. apply list_elem_of_here. Qed.

Lemma serves_has served d : serves served d = true → has_served served = true.
Proof. unfold serves, has_served. by destruct served; [intros _; apply bool_decide_eq_true_2; eauto|]. Qed.

Lemma forallb_serves served l :
  forallb (serves served) l = true ↔ ∀ d, d ∈ l → serves served d = true.
Proof. rewrite forallb_forall. setoid_rewrite list_elem_of_In. done. Qed.

Lemma expected_guard served expected s : (∀ d, d ∈ referencedDigests s → serves served d = true) →
  match s.(current) with None => expected = "" | Some cur => cur = expected end →
  match s.(current) with
  | None => guard_tx (bool_decide (expected = "")) ErrDefinition
  | Some c => guard_tx (serves served c && bool_decide (c = expected)) ErrDefinition
  end s = Ok (tt, s).
Proof.
  intros Hr He. destruct (current s) as [c|] eqn:E; subst; unfold guard_tx.
  - rewrite (Hr expected) by (by apply current_referenced). by rewrite bool_decide_eq_true_2.
  - done.
Qed.

Lemma activate_ok_iff (now : Z) (served : option (string → bool)) (expected candidate : string)
    (rollback : bool) (s s' : db) :
  activate now served expected candidate rollback s = Ok (tt, s') ↔
  slen candidate = 64 ∧ serves served candidate = true ∧ s' = with_current now candidate s ∧
  (s.(current) = Some candidate ∨ s.(current) ≠ Some candidate ∧ may_move served expected candidate rollback s).
Proof.
  assert (∀ s, s.(current) = Some candidate → upd_current (λ _, Some candidate) s = s) as Hid.
  { intros [] Hc. unfold upd_current. simpl in *. by rewrite Hc. }
  split.
  - unfold activate. intros Hm. tx_guard Hm Hg. rewrite !andb_true_iff, Z.eqb_eq in Hg. destruct Hg as [[Hl _] Hs].
    split; [done|]. split; [done|]. tx_get Hm cur. case_bool_decide as Hc.
    { injection Hm as <-. unfold with_current. rewrite Hid by done. eauto. }
    tx_get Hm before. tx_guard Hm Hb. tx_get Hm pins. tx_guard Hm Hp. tx_step Hm u s1 H1.
    rewrite forallb_serves in Hp.
    assert (s1 = s ∧ match s.(current) with None => expected = "" | Some cur => cur = expected end) as [-> He].
    { destruct (current s) as [c|]; apply guard_tx_ok in H1 as [H1 [= ->]]; gosimpl; done. }
    tx_step Hm u2 s2 H2. injection H2 as _ <-. injection Hm as <-. split; [done|]. right. split; [done|].
    split; [|done]. apply orb_true_iff in Hb as [->|Hb%negb_true_iff]; auto.
  - intros (Hl & Hs & -> & Hor). unfold activate.
    rewrite guard_run by (by rewrite Hl, Hs, (serves_has _ _ Hs)). rewrite get_run.
    destruct Hor as [Hc|(Hc & Hb & Hp & He)].
    { rewrite bool_decide_eq_true_2 by done. unfold with_current. by rewrite Hid. }
    rewrite bool_decide_eq_false_2, get_run by done.
    rewrite guard_run by (destruct Hb as [->| ->]; [done|by rewrite orb_true_r]).
    rewrite get_run, guard_run by (by apply forallb_serves).
    by erewrite bind_run by (by apply expected_guard).
Qed.

(** An activation succeeds exactly when the candidate is a digest this
    replica serves and either it is current already, or it never was (unless
    rolling back), every referenced digest is served and the caller's
    expectation of the current set is right; it then makes the candidate
    current, records a first activation and changes nothing else. *)
Theorem activate_iff (now : Z) (served : option (string → bool)) (expected candidate : string)
    (rollback : bool) (s s' : db) :
  activate now served expected candidate rollback s = Ok (tt, s') ↔
  slen candidate = 64 ∧ serves served candidate = true ∧ s' = with_current now candidate s ∧
  (s.(current) = Some candidate ∨ s.(current) ≠ Some candidate ∧ may_move served expected candidate rollback s).
Proof. apply activate_ok_iff. Qed.

Section store.
Context {codec : Codec}.

(** The definition store is append-only: the files of a stored set are read
    back unchanged after any transactions, and a set's first activation is
    never forgotten, so that only a rollback can make it current again. *)
Theorem definition_sets_append_only (s s' : db) (d : string) :
  steps s s' →
  (∀ files, DefinitionSet d s = Ok files → DefinitionSet d s' = Ok files) ∧
  (DefinitionActivated d s = true → DefinitionActivated d s' = true ∧
    ∀ now served expected, slen d = 64 → serves served d = true → s'.(current) ≠ Some d →
      ActivateDefinition now served expected d s' = Err ErrDefinitionSuperseded).
Proof.
  intros Hs. pose proof (steps_keeps sets_extend _ _ Hs) as He. split.
  - unfold DefinitionSet. intros files Hf. destruct (def_sets s !! d) as [r|] eqn:E; [|done].
    destruct (He d r E) as (r' & -> & Hfiles & _). injection Hf as <-. by rewrite Hfiles.
  - intros Ha. assert (activated_before d s' = true) as Ha'.
    { unfold DefinitionActivated, activated_before in *. destruct (def_sets s !! d) as [r|] eqn:E; [|done].
      destruct (He d r E) as (r' & -> & _ & Hact). apply bool_decide_eq_true in Ha.
      apply bool_decide_eq_true. by rewrite Hact. }
    split; [done|]. intros now served expected Hl Hsv Hc. unfold ActivateDefinition, activate.
    rewrite guard_run by (by rewrite Hl, Hsv, (serves_has _ _ Hsv)). rewrite get_run.
    rewrite bool_decide_eq_false_2 by done. by rewrite get_run, guard_stop by (by rewrite Ha').
Qed.
End store.

(** ** What a run resolves to *)

(** The set the conversation's next run uses: the current one when the
    conversation is unpinned or idle, its pin otherwise. *)
Definition next_definition (o : Owner) (s : db) : option string :=
  conv ← s.(convs) !! o.(ow_Command).(c_ThreadID);
  match conv.(cv_definition), s.(current) with
  | Some pin, Some cur => Some (if conversationIdle o s then cur else pin)
  | Some pin, None => Some pin
  | None, cur => cur
  end.

Definition pinned_to (t : string) (s : db) : option string := s.(convs) !! t ≫= cv_definition.

(** A run start resolves to a set this replica serves and leaves the
    conversation pinned to it: the current set for an unpinned or idle
    conversation, the pin it already had for one that is waiting, continuing
    or unsure of an effect; a re-pin is told by a definition_changed event. *)
Theorem ResolveDefinition_spec (now : Z) (served : option (string → bool)) (o : Owner) (s s' : db) (d : string) :
  let t := o.(ow_Command).(c_ThreadID) in
  ResolveDefinition now served o s = Ok (d, s') →
  next_definition o s = Some d ∧ serves served d = true ∧ pinned_to t s' = Some d ∧
  ∃ sequence, s'.(events) = s.(events) ++
    match pinned_to t s with
    | Some pin => if decide (pin = d) then [] else
        [(t, with_sequence sequence (detail_event "definition_changed" o.(ow_Command).(c_RunID) "" (DDefinition pin d)))]
    | None => []
    end.
Proof.
  intros t Hm. unfold ResolveDefinition in Hm. cbv zeta in Hm. fold t in Hm. tx_guard Hm Hg.
  tx_step Hm u s1 H1. apply lockOwner_ok in H1 as [-> _]. tx_get Hm row. tx_the Hm conv Hc. tx_get Hm cur.
  unfold next_definition, pinned_to. fold t. rewrite Hc. simpl.
  destruct (cv_definition conv) as [pin|] eqn:Hpin.
  - tx_get Hm idle. destruct (current s) as [c|] eqn:Hcur.
    + destruct (negb (bool_decide (c = pin)) && conversationIdle o s) eqn:Hsw.
      * gosimpl. tx_guard Hm Hs. tx_step Hm u2 s2 H2. eapply update_conv_ok in H2; [|done]; subst.
        tx_step Hm u3 s3 H3. injection Hm as <- <-.
        eapply appendEvent_ok in H3 as (_ & -> & ->); [|apply lookup_insert_eq].
        rename select (conversationIdle o s = true) into Hi. rewrite Hi, lookup_insert_eq. simpl.
        split_and!; [done..|]. eexists. by rewrite decide_False by done.
      * tx_guard Hm Hs. injection Hm as <- <-. rewrite Hc. simpl. rewrite Hpin.
        split_and!; [|done..|exists 0; by rewrite decide_True, app_nil_r].
        apply andb_false_iff in Hsw as [Hsw| ->]; [|done]. gosimpl. by destruct (conversationIdle o s).
    + tx_guard Hm Hs. injection Hm as <- <-. rewrite Hc. simpl. rewrite Hpin.
      split_and!; [done..|exists 0; by rewrite decide_True, app_nil_r].
  - tx_the Hm cur' Hcur. tx_guard Hm Hs. tx_step Hm u2 s2 H2.
    eapply update_conv_ok in H2; [|done]; subst. injection Hm as <- <-. simpl.
    rewrite lookup_insert_eq. split_and!; [done..|exists 0; by rewrite app_nil_r].
Qed.

(** A run that continues its conversation's interaction, as an admitted reply
    makes it. *)
Definition starts_properly (o : Owner) (s : db) : Prop :=
  let c := o.(ow_Command) in
  c.(c_InteractionID) = "" ∨
  ∃ i, s.(interactions) !! c.(c_InteractionID) = Some i ∧ continues c.(c_ThreadID) c.(c_RunID) i = true.

(** Readiness is what run starts need: on a replica that reports ready, no
    run of an owner is refused for its definition set. *)
Theorem ready_never_refuses (now : Z) (served : option (string → bool)) (o : Owner) (s : db) :
  DefinitionsReady served s = Ok true → starts_properly o s →
  ResolveDefinition now served o s ≠ Err ErrDefinition.
Proof.
  unfold DefinitionsReady. intros Hr Hst. destruct (has_served served) eqn:Hh; [|done].
  injection Hr as Hr. apply andb_true_iff in Hr as [Hcur Hall]. rewrite forallb_serves in Hall.
  apply bool_decide_eq_true in Hcur as [cur Hcur].
  assert (serves served cur = true) as Hsc by (by apply Hall, current_referenced).
  unfold ResolveDefinition. cbv zeta. set (t := c_ThreadID (ow_Command o)). rewrite guard_run by done.
  destruct (lockOwner now o s) as [[u s1]|e] eqn:Hl.
  2:{ erewrite bind_stop by done. intros [= ->]. revert Hl. unfold lockOwner, lockConversation.
      unfold get, the, guard_tx, fail, mret, tx_ret, mbind, tx_bind. repeat case_match; congruence. }
  pose proof (lockOwner_ok _ _ _ _ _ Hl) as [-> (r & [Hr1 Ht Hrun _ _ _ (conv & Hc & _)])].
  erewrite bind_run by done. rewrite get_run. erewrite the_run by done. rewrite get_run.
  assert (∀ pin, cv_definition conv = Some pin → conversationIdle o s = false → serves served pin = true) as Hpin.
  { intros pin Hp Hi. apply Hall. unfold referencedDigests. rewrite elem_of_remove_dups, elem_of_app. right.
    apply list_elem_of_omap. exists (t, conv). split; [by apply elem_of_map_to_list|]. simpl. rewrite Hp. simpl.
    assert (pin_in_use t s = true) as ->; [|done].
    unfold conversationIdle in Hi. fold t in Hi. unfold pin_in_use. rewrite !orb_true_iff.
    apply andb_false_iff in Hi as [Hi%bool_decide_eq_false|Hi%negb_false_iff%orb_true_iff]; [|naive_solver].
    destruct Hst as [|(i & Hin & Hco)]; [done|]. left. right. apply exists_row_true.
    exists (c_InteractionID (ow_Command o)), i. split; [done|]. unfold continues in Hco. gosimpl.
    rename select (in_continuation i = _) into Hcont. rewrite Hcont.
    rewrite (proj2 (run_of_Some _ _ _ r)), Hrun by done. rewrite !bool_decide_eq_true_2 by done. done. }
  destruct (cv_definition conv) as [pin|] eqn:Hp.
  - rewrite get_run, Hcur. destruct (negb (bool_decide (cur = pin)) && conversationIdle o s) eqn:Hsw.
    + rewrite guard_run by done.
      unfold appendEvent, update_conv, get, the, guard_tx, fail, modify, mret, tx_ret, mbind, tx_bind.
      repeat case_match; congruence.
    + rewrite guard_run; [done|]. apply andb_false_iff in Hsw as [Hsw|Hi]; [gosimpl; by simplify_eq|by apply Hpin].
  - rewrite Hcur. erewrite the_run by done. rewrite guard_run by done.
    unfold update_conv, get, the, guard_tx, fail, modify, mret, tx_ret, mbind, tx_bind.
    repeat case_match; congruence.
Qed.
