(* ===== verification/Scenario.v ===== *)
(** * A conversation, played

    One run of the journal on concrete values: a command is admitted and
    claimed, its run pins a definition and waits for an approval, the approval
    is given, the continuation dispatches the call and finishes.  The theorems
    about reachable databases are applied to the databases it passes. *)
From S2P Require Import Prelude GoText Db CallBinding Interactions JournalCore Commands Owners Runs.
From S2P Require Import Operations DefinitionStore Records Lifecycle Keeps JournalSim Journal JournalKeeps.
From S2P Require Import EventLog Retry Calls Rollout.

(** ** The calls *)

Definition demo_digest : string := "0123456789abcdef0123456789abcdef0123456789abcdef0123456789abcdef".
Definition demo_command : Command := mk_Command "t1" "r1" "m1" "alice" "acme" "pay the invoice" "" "" "" "".
Definition demo_owner : Owner := mk_Owner demo_command "w1" 1.
Definition demo_binding : string :=
  match BindCall (mk_CallBinding "billing" "invoices.pay" "n" "s" "{}" "1.2" "alice" "t1" demo_digest) with
  | Ok b => b | Err _ => "" end.
Definition demo_wait : Interaction :=
  mk_Interaction "i1" "approval" [] (mk_Call "call1" "p1" "pay" "{}" demo_binding) 0
    "billing" "invoices.pay" "n" "s".
Definition demo_reply : Command :=
  mk_Command "t1" "r2" "m2" "alice" "acme" "" "" "i1" "approval" ("approve:" +:+ demo_binding).
Definition demo_owner2 : Owner := mk_Owner demo_reply "w2" 2.
Definition demo_operation : Operation :=
  mk_Operation "call1" "pay" "{}" demo_binding "effectful" "invoices.pay" "n" "s" true "billing".

Definition demo_claimed : list (Z * op) :=
  [(0, OpAdmit demo_command); (1, OpClaim demo_command "w1" 15000000000)].
Definition demo_waiting : list (Z * op) :=
  [(2, OpRecordRunScope demo_owner "1.2" "https://api" "{}"); (3, OpStart demo_owner "billing" demo_digest);
   (4, OpIncluded demo_owner [mk_Input "m1" "" "" "" true]);
   (5, OpWait demo_owner demo_wait "{}" "[]")].
Definition demo_answered : list (Z * op) :=
  [(6, OpAdmit demo_reply); (7, OpClaim demo_reply "w2" 15000000000);
   (8, OpRecordRunScope demo_owner2 "1.2" "https://api" "{}"); (9, OpStart demo_owner2 "billing" demo_digest);
   (10, OpBeginAttempt demo_owner2 demo_operation 1 "i1")].
Definition demo_done : list (Z * op) :=
  [(11, OpEndAttempt demo_owner2 demo_operation 1 "completed");
   (12, OpFinish demo_owner2 RunCompleted "[]" "paid" "" "")].

Definition db_claimed : db := Eval vm_compute in run_ops demo_claimed empty_db.
Definition db_waiting : db := Eval vm_compute in run_ops demo_waiting db_claimed.
Definition db_dispatched : db := Eval vm_compute in run_ops demo_answered db_waiting.
Definition db_done : db := Eval vm_compute in run_ops demo_done db_dispatched.

(** Every call of the scenario commits. *)
Definition all_commit (l : list (Z * op)) (s : db) : bool :=
  is_ok (foldl (λ r x, s ← r; match exec x.1 x.2 s with Some s' => Ok s' | None => Err tt end)
           (Ok s : result unit db) l).
Example demo_commits :
  all_commit (demo_claimed ++ demo_waiting ++ demo_answered ++ demo_done) empty_db = true.
Proof. vm_compute. reflexivity. Qed.
Example demo_run_state :
  rn_state <$> (db_done.(runs) !! "r1") = Some RunCompleted ∧
  rn_state <$> (db_done.(runs) !! "r2") = Some RunCompleted.
Proof. split; vm_compute; reflexivity. Qed.

Lemma run_ops_to l s s' : run_ops l s = s' → steps s s'.
Proof. intros <-. apply run_ops_steps. Qed.

Lemma steps_claimed : steps empty_db db_claimed.
Proof. apply (run_ops_to demo_claimed). vm_compute. reflexivity. Qed.
Lemma steps_waiting : steps db_claimed db_waiting.
Proof. apply (run_ops_to demo_waiting). vm_compute. reflexivity. Qed.
Lemma steps_dispatched : steps db_waiting db_dispatched.
Proof. apply (run_ops_to demo_answered). vm_compute. reflexivity. Qed.
Lemma steps_done : steps db_dispatched db_done.
Proof. apply (run_ops_to demo_done). vm_compute. reflexivity. Qed.

Lemma reachable_claimed : reachable db_claimed.
Proof. apply steps_claimed. Qed.
Lemma reachable_waiting : reachable db_waiting.
Proof. exact (reachable_steps _ _ reachable_claimed steps_waiting). Qed.
Lemma reachable_dispatched : reachable db_dispatched.
Proof. exact (reachable_steps _ _ reachable_waiting steps_dispatched). Qed.
Lemma reachable_done : reachable db_done.
Proof. exact (reachable_steps _ _ reachable_dispatched steps_done). Qed.

(** ** The theorems applied *)

Lemma conversation_in_one_phase_witness :
  reachable db_waiting ∧ ∃ p, lphase (core db_waiting) "t1" p ∧ ∀ p', lphase (core db_waiting) "t1" p' → p' = p.
Proof. split; [apply reachable_waiting|apply (conversation_in_one_phase db_waiting "t1"), reachable_waiting]. Defined.

Definition db_admitted : db := Eval vm_compute in run_ops [(0, OpAdmit demo_command)] empty_db.
Lemma reachable_admitted : reachable db_admitted.
Proof. apply (run_ops_to [(0, OpAdmit demo_command)]). vm_compute. reflexivity. Qed.

Lemma journal_refines_lifecycle_witness :
  exec 1 (OpClaim demo_command "w1" 15000000000) db_admitted = Some db_claimed ∧
  lsteps "t1" (core db_admitted) (core db_claimed).
Proof.
  assert (exec 1 (OpClaim demo_command "w1" 15000000000) db_admitted = Some db_claimed) as Hx by (vm_compute; reflexivity).
  split; [exact Hx|]. exact (journal_refines_lifecycle _ _ _ _ reachable_admitted Hx).
Defined.

Lemma transactions_follow_phases_witness :
  ∃ p p', lphase (core db_admitted) "t1" p ∧ lphase (core db_claimed) "t1" p' ∧ rtc phase_step p p'.
Proof.
  assert (exec 1 (OpClaim demo_command "w1" 15000000000) db_admitted = Some db_claimed) as Hx by (vm_compute; reflexivity).
  destruct (proj1 (reachable_linv _ reachable_admitted) "t1") as [p Hp]. exists p.
  destruct (transactions_follow_phases _ _ _ _ _ p reachable_admitted Hx Hp) as (p' & Hp' & Hs).
  exists p'. split; [exact Hp|]. split; [exact Hp'|]. exact Hs.
Defined.

Lemma runs_follow_state_machine_witness :
  ∃ r r', db_claimed.(runs) !! "r1" = Some r ∧ db_waiting.(runs) !! "r1" = Some r' ∧
    r.(rn_state) = RunRunning ∧ r'.(rn_state) = RunAwaitingInput ∧ rtc run_move r.(rn_state) r'.(rn_state).
Proof.
  destruct (db_claimed.(runs) !! "r1") as [r|] eqn:E; [|vm_compute in E; discriminate E].
  destruct (runs_follow_state_machine _ _ _ _ reachable_claimed steps_waiting E) as (r' & Hr' & _ & Hm & _).
  exists r, r'. vm_compute in E. injection E as <-. pose proof Hr' as Hr. vm_compute in Hr. injection Hr as <-.
  split_and!; try reflexivity; assumption.
Defined.

Lemma owner_exclusive_witness :
  is_ok (lockOwner 2 demo_owner db_claimed) = true ∧
  demo_owner.(ow_ID) = demo_owner.(ow_ID) ∧ demo_owner.(ow_Epoch) = demo_owner.(ow_Epoch).
Proof.
  assert (is_ok (lockOwner 2 demo_owner db_claimed) = true) as Hl by (vm_compute; reflexivity).
  split; [exact Hl|].
  destruct (owner_exclusive 2 demo_owner demo_owner _ reachable_claimed Hl Hl eq_refl) as (_ & H1 & H2).
  split; assumption.
Defined.

Lemma fenced_forever_witness :
  fenced demo_owner db_waiting ∧ is_ok (lockOwner 13 demo_owner db_done) = false.
Proof.
  assert (fenced demo_owner db_waiting) as Hf.
  { destruct (db_waiting.(runs) !! "r1") as [r|] eqn:E; [|vm_compute in E; discriminate E]. exists r. split; [exact E|].
    vm_compute in E. injection E as <-. split; [done|by left]. }
  split; [exact Hf|]. apply (fenced_forever _ _ _ _ reachable_waiting Hf).
  exact (transitivity steps_dispatched steps_done).
Defined.

Lemma no_command_lost_witness : ∃ c r, c ∈ db_done.(commands) ∧ db_done.(runs) !! "r2" = Some r ∧
  is_live r.(rn_state) = false ∧ (c.(cm_included) = true ∨ c.(cm_terminal) ≠ "").
Proof.
  destruct (db_done.(commands) !! 1%nat) as [c|] eqn:E; [|vm_compute in E; discriminate E].
  destruct (no_command_lost _ c reachable_done (list_elem_of_lookup_2 _ _ _ E)) as (r & Hr & _ & Hd).
  exists c, r. split; [exact (list_elem_of_lookup_2 _ _ _ E)|].
  vm_compute in E. injection E as <-. split; [exact Hr|].
  vm_compute in Hr. injection Hr as <-. split; [reflexivity|]. apply Hd. reflexivity.
Defined.

Lemma commands_append_only_witness :
  length db_claimed.(commands) = 1%nat ∧ length db_done.(commands) = 2%nat ∧
  cmds_evolve db_claimed.(commands) db_done.(commands).
Proof.
  split; [reflexivity|]. split; [reflexivity|]. apply (commands_append_only _ _ reachable_claimed).
  exact (transitivity steps_waiting (transitivity steps_dispatched steps_done)).
Defined.

Lemma event_log_dense_witness : ∃ c, db_done.(convs) !! "t1" = Some c ∧ c.(cv_sequence) = 12 ∧
  e_Sequence <$> readEvents "t1" 0 db_done = seqZ 1 c.(cv_sequence).
Proof.
  destruct (db_done.(convs) !! "t1") as [c|] eqn:E; [|vm_compute in E; discriminate E]. exists c. split; [reflexivity|].
  pose proof (event_log_dense _ _ _ reachable_done E) as Hd. vm_compute in E. injection E as <-.
  split; [reflexivity|exact Hd].
Defined.

Lemma snapshot_then_events_witness : ∃ v later, Snapshot "t1" "alice" db_waiting = Ok v ∧
  Events "t1" "alice" v.(sv_Watermark) db_done = Ok later ∧
  Events "t1" "alice" 0 db_done = Ok (v.(sv_Events) ++ later).
Proof.
  destruct (Snapshot "t1" "alice" db_waiting) as [v|] eqn:E; [|vm_compute in E; discriminate E]. exists v.
  destruct (snapshot_then_events _ _ _ _ _ reachable_waiting (transitivity steps_dispatched steps_done) E)
    as (later & H1 & H2).
  exists later. split; [reflexivity|]. split; assumption.
Defined.

Definition demo_conflict : Command := mk_Command "t1" "r9" "m1" "alice" "acme" "something else" "" "" "" "".

(** A text of one byte that is no UTF-8. *)
Definition garbled_command : Command := mk_Command "t1" "r1" "m1" "alice" "acme" (String (Ascii.ascii_of_N 255) "") "" "" "" "".
Definition db_garbled : db := Eval vm_compute in match Admit 0 garbled_command empty_db with Ok (_, s) => s | Err _ => empty_db end.

Lemma Admit_idempotent_witness :
  (∃ r, Admit 0 demo_command empty_db = Ok (Ok (r, true), db_admitted) ∧ Admit 99 demo_command db_admitted = Ok (Ok (r, false), db_admitted)) ∧
  ∃ r, Admit 0 garbled_command empty_db = Ok (Ok (r, true), db_garbled) ∧ Admit 99 garbled_command db_garbled = Err ErrConflict.
Proof.
  split.
  - destruct (Admit 0 demo_command empty_db) as [[[[r fresh]|] s]|] eqn:E; try (vm_compute in E; discriminate E).
    pose proof (λ s2 Hs, proj1 (Admit_idempotent 0 99 demo_command empty_db s s2 r fresh (rtc_refl _ _) E Hs)) as Hi.
    exists r. vm_compute in E. injection E as <- <- <-. split; [reflexivity|]. apply Hi; [apply rtc_refl|vm_compute; reflexivity].
  - destruct (Admit 0 garbled_command empty_db) as [[[[r fresh]|] s]|] eqn:E; try (vm_compute in E; discriminate E).
    pose proof (λ s2 Hs, proj2 (Admit_idempotent 0 99 garbled_command empty_db s s2 r fresh (rtc_refl _ _) E Hs)) as Hi.
    exists r. vm_compute in E. injection E as <- <- <-. split; [reflexivity|]. apply Hi; [apply rtc_refl|reflexivity|].
    intros H. vm_compute in H. discriminate H.
Defined.

Lemma Admit_conflict_witness : admissible demo_conflict = true ∧
  Admit 99 demo_conflict db_admitted = Err ErrConflict.
Proof.
  split; [vm_compute; reflexivity|].
  destruct (Admit 0 demo_command empty_db) as [[[[r fresh]|] s]|] eqn:E; try (vm_compute in E; discriminate E).
  pose proof (λ s2 Hs, Admit_conflict 0 99 demo_command demo_conflict empty_db s s2 r fresh (rtc_refl _ _) E Hs
    eq_refl eq_refl eq_refl) as Hi.
  vm_compute in E. injection E as <- <- <-.
  apply Hi; [apply rtc_refl|vm_compute; reflexivity|intros H; vm_compute in H; discriminate H].
Defined.

(** *** Calls *)

Lemma effects_are_approved_witness : ∃ o id i, db_done.(operations) !! "call1" = Some o ∧
  o.(op_policy) = "effectful" ∧ db_done.(interactions) !! id = Some i ∧ spent_on i "call1" o.
Proof.
  destruct (db_done.(operations) !! "call1") as [o|] eqn:E; [|vm_compute in E; discriminate E].
  assert (o.(op_policy) = "effectful") as Hp by (vm_compute in E; injection E as <-; reflexivity).
  destruct (effects_are_approved db_done "call1" o reachable_done E) as (id & i & _ & _ & _ & _ & _ & _ & _ & Hi & Hs & _).
  { rewrite Hp. discriminate. }
  exists o, id, i. split; [reflexivity|]. split; [exact Hp|]. split; [exact Hi|exact Hs].
Defined.

Lemma attempts_bounded_witness : db_done.(attempts) !! ("call1", 1) = Some OCompleted ∧
  ∃ o, db_done.(operations) !! "call1" = Some o ∧ 1 <= 1 <= 2 ∧ (o.(op_policy) = "effectful" → 1 = 1).
Proof.
  assert (db_done.(attempts) !! ("call1", 1) = Some OCompleted) as E by (vm_compute; reflexivity).
  split; [exact E|]. exact (attempts_bounded db_done "call1" 1 OCompleted reachable_done E).
Defined.

Lemma one_open_call_witness : ∃ o, db_dispatched.(operations) !! "call1" = Some o ∧
  unresolved o.(op_outcome) = true ∧ "call1" = "call1".
Proof.
  destruct (db_dispatched.(operations) !! "call1") as [o|] eqn:E; [|vm_compute in E; discriminate E].
  assert (unresolved o.(op_outcome) = true) as Hu by (vm_compute in E; injection E as <-; reflexivity).
  exists o. split; [reflexivity|]. split; [exact Hu|].
  exact (one_open_call db_dispatched "call1" "call1" o o reachable_dispatched E E eq_refl Hu Hu).
Defined.

Lemma approvals_follow_markers_witness : ∃ i i', db_waiting.(interactions) !! "i1" = Some i ∧
  db_done.(interactions) !! "i1" = Some i' ∧ i.(in_marker) = Some MRequested ∧
  i'.(in_marker) = Some MDispatched ∧ rtc marker_move i.(in_marker) i'.(in_marker).
Proof.
  destruct (db_waiting.(interactions) !! "i1") as [i|] eqn:E; [|vm_compute in E; discriminate E].
  destruct (approvals_follow_markers db_waiting db_done "i1" i reachable_waiting
    (transitivity steps_dispatched steps_done) E) as (i' & Hi' & _ & _ & _ & Hm).
  { vm_compute in E. injection E as <-. reflexivity. }
  exists i, i'. split; [reflexivity|]. split; [exact Hi'|].
  split; [vm_compute in E; injection E as <-; reflexivity|].
  split; [vm_compute in Hi'; injection Hi' as <-; reflexivity|exact Hm].
Defined.

Lemma operations_follow_outcomes_witness : ∃ o o', db_dispatched.(operations) !! "call1" = Some o ∧
  db_done.(operations) !! "call1" = Some o' ∧ rtc operation_move o o'.
Proof.
  destruct (db_dispatched.(operations) !! "call1") as [o|] eqn:E; [|vm_compute in E; discriminate E].
  destruct (operations_follow_outcomes _ _ _ _ reachable_dispatched steps_done E) as (o' & Ho' & _ & Hm & _).
  exists o, o'. split; [reflexivity|]. split; assumption.
Defined.

(** *** Definition sets *)

Definition demo_digest2 : string := "fedcba9876543210fedcba9876543210fedcba9876543210fedcba9876543210".
Definition demo_files : gmap string string := {[ "set.yaml" := "version: 1" ]}.
Definition serve_both : option (string → bool) :=
  Some (λ d, bool_decide (d = demo_digest) || bool_decide (d = demo_digest2)).
Definition demo_rollout : list (Z * op) :=
  [(20, OpPutDefinitionSet demo_digest demo_files); (21, OpPutDefinitionSet demo_digest2 demo_files);
   (22, OpActivate serve_both "" demo_digest false)].
Definition db_stored : db := Eval vm_compute in run_ops demo_rollout empty_db.
Definition db_moved : db :=
  Eval vm_compute in run_ops [(23, OpActivate serve_both demo_digest demo_digest2 false)] db_stored.

Lemma steps_moved : steps db_stored db_moved.
Proof. apply (run_ops_to [(23, OpActivate serve_both demo_digest demo_digest2 false)]). vm_compute. reflexivity. Qed.

Lemma definition_sets_append_only_witness :
  DefinitionSet demo_digest db_moved = Ok demo_files ∧ db_moved.(current) = Some demo_digest2 ∧
  ActivateDefinition 24 serve_both demo_digest2 demo_digest db_moved = Err ErrDefinitionSuperseded.
Proof.
  destruct (definition_sets_append_only _ _ demo_digest steps_moved) as [Hf Ha].
  split; [apply Hf; vm_compute; reflexivity|]. split; [reflexivity|].
  apply Ha; [vm_compute; reflexivity|vm_compute; reflexivity|vm_compute; reflexivity|vm_compute; discriminate].
Defined.

Lemma ResolveDefinition_spec_witness : ∃ d s', ResolveDefinition 13 serve_both demo_owner2
    (upd_current (λ _, Some demo_digest2) db_dispatched) = Ok (d, s') ∧
  d = demo_digest ∧ pinned_to "t1" s' = Some d.
Proof.
  destruct (ResolveDefinition 13 serve_both demo_owner2 (upd_current (λ _, Some demo_digest2) db_dispatched))
    as [[d s']|] eqn:E; [|vm_compute in E; discriminate E].
  destruct (ResolveDefinition_spec _ _ _ _ _ _ E) as (_ & _ & Hp & _).
  exists d, s'. split; [reflexivity|]. split; [|exact Hp]. vm_compute in E. injection E as <- _. reflexivity.
Defined.

Lemma ready_never_refuses_witness : DefinitionsReady serve_both db_dispatched = Ok true ∧
  ResolveDefinition 13 serve_both demo_owner2 db_dispatched ≠ Err ErrDefinition.
Proof.
  assert (DefinitionsReady serve_both db_dispatched = Ok true) as Hr by (vm_compute; reflexivity).
  split; [exact Hr|]. apply (ready_never_refuses _ _ _ _ Hr). right.
  destruct (db_dispatched.(interactions) !! "i1") as [i|] eqn:E; [|vm_compute in E; discriminate E].
  exists i. split; [exact E|]. vm_compute in E. injection E as <-. vm_compute. reflexivity.
Defined.
