(* ===== verification/ActiveSet.v ===== *)
(** * The active journey set

    The pure logic of [src/internal/journeys]: the least-recently-used set of
    active journeys with pinning and a limit ([journeys.go]).  The Go struct
    has the one field [ids], so the model is the list itself, least recently
    used first.  A method with a pointer receiver returns the new set next to
    its results. *)
From S2P Require Import Prelude.

Inductive error := ErrInvalid | ErrRefused.

#[export] Instance error_eq_dec : EqDecision error.
Proof. solve_decision. Defined.

Abbreviation ActiveSet := (list string) (only parsing).

Definition NewActiveSet (ids : list string) : ActiveSet :=
  fold_left (λ a id,
    if bool_decide (id = "") || contains id a then a else a ++ [id]) ids [].

(** [Remove] returns the kept set and the removed journeys, both in set order. *)
Fixpoint Remove (ids : list string) (a : ActiveSet) : ActiveSet * list string :=
  match a with
  | [] => ([], [])
  | id :: a =>
      let '(kept, removed) := Remove ids a in
      if contains id ids then (kept, id :: removed) else (id :: kept, removed)
  end.

(** [Touch] moves a present journey that is not already last to the end. *)
Definition Touch (id : string) (a : ActiveSet) : ActiveSet * bool :=
  match index_of id a with
  | None => (a, false)
  | Some i =>
      if decide (Z.of_nat i = zlen a - 1) then (a, false)
      else (delete i a ++ [id], true)
  end.

(** The loop of [victims]: [victims] accumulates in set order and the loop
    stops as soon as it holds [excess] journeys. *)
Fixpoint victims_loop (excess : Z) (pinned victims : list string) (ids : list string)
    : list string :=
  match ids with
  | [] => victims
  | id :: ids =>
      if decide (excess <= zlen victims) then victims
      else victims_loop excess pinned
             (if contains id pinned then victims else victims ++ [id]) ids
  end.

Definition victims (max : Z) (pinned : list string) (a : ActiveSet) : list string * bool :=
  let excess := zlen a - max in
  let v := victims_loop excess pinned [] a in
  (v, bool_decide (excess <= zlen v)).

Definition Activate (id : string) (limit : Z) (pinned : list string) (a : ActiveSet)
    : ActiveSet * result error (list string) :=
  if decide (id = "" ∨ limit < 1) then (a, Err ErrInvalid)
  else match index_of id a with
  | Some i => (delete i a ++ [id], Ok [])
  | None =>
      let '(evicted, enough) := victims (limit - 1) pinned a in
      if enough then ((Remove evicted a).1 ++ [id], Ok evicted)
      else (a, Err ErrRefused)
  end.

Definition Fit (limit : Z) (pinned : list string) (a : ActiveSet)
    : ActiveSet * result error (list string) :=
  if decide (limit < 1) then (a, Err ErrInvalid)
  else
    let evicted := (victims limit pinned a).1 in
    ((Remove evicted a).1, Ok evicted).

(** ** Specification of eviction

    [lru_victims k pinned a] is what eviction promises: the [k] least recently
    used journeys of [a] that are not pinned. *)
Definition lru_victims (k : nat) (pinned : list string) (a : ActiveSet) : list string :=
  take k (filter (λ id, id ∉ pinned) a).

(** The well-formedness every operation keeps: no empty and no repeated ID. *)
Definition wf (a : ActiveSet) : Prop := NoDup a ∧ "" ∉ a.

(** ** Lemmas *)

Lemma Remove_spec ids a :
  Remove ids a = (filter (λ x, x ∉ ids) a, filter (λ x, x ∈ ids) a).
Proof.
  induction a as [|x a IH]; simpl; [done|].
  rewrite IH, !filter_cons. unfold contains.
  destruct (decide (x ∈ ids)) as [Hin|Hin]; repeat case_decide; repeat case_bool_decide; done.
Qed.

Lemma victims_loop_spec excess pinned v a :
  0 <= excess →
  zlen v <= excess →
  victims_loop excess pinned v a =
    v ++ take (Z.to_nat excess - length v) (filter (λ id, id ∉ pinned) a).
Proof.
  intros H0. revert v. induction a as [|x a IH]; intros v Hv; simpl.
  - by rewrite filter_nil, take_nil, app_nil_r.
  - unfold zlen in *. case_decide as Hd.
    + replace (Z.to_nat excess - length v)%nat with 0%nat by lia.
      by rewrite take_0, app_nil_r.
    + rewrite filter_cons. unfold contains. case_decide; case_bool_decide; try done.
      * rewrite IH by (rewrite length_app; simpl; lia).
        rewrite <- app_assoc. f_equal. rewrite length_app; simpl.
        destruct (Z.to_nat excess - length v)%nat eqn:E; [lia|].
        simpl. do 2 f_equal. lia.
      * by apply IH.
Qed.

Lemma victims_spec max pinned a :
  0 <= max →
  let k := (length a - Z.to_nat max)%nat in
  victims max pinned a =
    (lru_victims k pinned a,
     bool_decide (k <= length (filter (λ id, id ∉ pinned) a))%nat).
Proof.
  intros Hpos k. unfold victims, lru_victims, zlen. simpl. subst k.
  destruct (decide (0 <= Z.of_nat (length a) - max)) as [Hex|Hex].
  - rewrite victims_loop_spec by (unfold zlen; simpl; lia). simpl.
    replace (Z.to_nat (Z.of_nat (length a) - max) - 0)%nat
      with (length a - Z.to_nat max)%nat by lia.
    f_equal. rewrite length_take. apply bool_decide_ext. lia.
  - replace (length a - Z.to_nat max)%nat with 0%nat by lia. rewrite take_0.
    assert (victims_loop (Z.of_nat (length a) - max) pinned [] a = []) as ->.
    { destruct a; simpl; [done|]. case_decide; [done|]. unfold zlen in *; simpl in *; lia. }
    f_equal. rewrite !bool_decide_eq_true_2; simpl; [done|lia|lia].
Qed.

Lemma length_filter_split (P : string → Prop) `{!∀ x, Decision (P x)} (a : list string) :
  (length (filter P a) + length (filter (λ x, ¬ P x) a) = length a)%nat.
Proof.
  induction a as [|x a IH]; [done|].
  rewrite !filter_cons. destruct (decide (P x)); repeat case_decide; simpl; try done; lia.
Qed.

Lemma enough_iff_pinned limit (pinned : list string) (a : ActiveSet) :
  1 <= limit →
  (length a - Z.to_nat (limit - 1) <= length (filter (λ id, id ∉ pinned) a))%nat ↔
  zlen (filter (λ id, id ∈ pinned) a) < limit.
Proof.
  intros Hl. pose proof (length_filter_split (λ id, id ∈ pinned) a) as H.
  cbv beta in H. unfold zlen. set (u := length (filter (λ id, id ∉ pinned) a)) in *.
  lia.
Qed.

Lemma elem_of_lru_victims k (pinned : list string) (a : ActiveSet) x :
  x ∈ lru_victims k pinned a → x ∈ a ∧ x ∉ pinned.
Proof.
  intros Hx. apply elem_of_take in Hx as (i & Hx & _).
  apply list_elem_of_lookup_2, list_elem_of_filter in Hx. naive_solver.
Qed.

Lemma NoDup_lru_victims k (pinned : list string) (a : ActiveSet) : NoDup a → NoDup (lru_victims k pinned a).
Proof.
  intros Ha. eapply sublist_NoDup; [|apply sublist_take]. by apply NoDup_filter.
Qed.

(** Dropping [v ⊆ a] from a duplicate-free [a] shrinks it by exactly [length v]. *)
Lemma length_filter_out (v a : list string) :
  NoDup a → NoDup v → (∀ x, x ∈ v → x ∈ a) →
  (length (filter (λ x, x ∉ v) a) + length v = length a)%nat.
Proof.
  intros Ha Hv Hsub.
  rewrite <- (length_filter_split (λ x, x ∈ v) a), Nat.add_comm. f_equal.
  apply Permutation_length, NoDup_Permutation; [done|by apply NoDup_filter|].
  intros x. rewrite list_elem_of_filter. naive_solver.
Qed.

Lemma wf_filter (P : string → Prop) `{!∀ x, Decision (P x)} a : wf a → wf (filter P a).
Proof.
  intros [Hnd Hne]. split; [by apply NoDup_filter|].
  rewrite list_elem_of_filter. naive_solver.
Qed.

Lemma wf_snoc id a : wf a → id ≠ "" → id ∉ a → wf (a ++ [id]).
Proof.
  intros [Hnd Hne] Hid Hni. split.
  - apply NoDup_app. split_and!; [done|set_solver|apply NoDup_singleton].
  - set_solver.
Qed.

(** Removing the one occurrence that [index_of] found is filtering it out. *)
Lemma delete_index (id : string) (a : ActiveSet) (i : nat) :
  NoDup a → index_of id a = Some i → delete i a = filter (λ x, x ≠ id) a.
Proof.
  intros Hnd Hi. apply index_of_Some in Hi as (l1 & l2 & -> & Hni & <-).
  apply NoDup_app in Hnd as (_ & Hdis & Hnd). apply NoDup_cons in Hnd as [Hni2 _].
  rewrite delete_middle, filter_app, filter_cons.
  case_decide; [done|]. by rewrite !filter_neq_id.
Qed.
#[export] Hint Resolve wf_filter wf_snoc NoDup_lru_victims : go.

(** [Activate] as its documentation states it. *)
Definition activate_spec (id : string) (limit : Z) (pinned : list string) (a : ActiveSet)
    : ActiveSet * result error (list string) :=
  if decide (id ∈ a) then (filter (λ x, x ≠ id) a ++ [id], Ok [])
  else if decide (limit <= zlen (filter (λ x, x ∈ pinned) a)) then (a, Err ErrRefused)
  else
    let evicted := lru_victims (length a - Z.to_nat (limit - 1)) pinned a in
    (filter (λ x, x ∉ evicted) a ++ [id], Ok evicted).

Lemma Activate_is_spec id limit pinned a :
  NoDup a → id ≠ "" → 1 <= limit →
  Activate id limit pinned a = activate_spec id limit pinned a.
Proof.
  intros Hnd Hid Hl. unfold Activate, activate_spec.
  rewrite decide_False by (intros [?|?]; [done|lia]).
  destruct (index_of id a) as [i|] eqn:Hi.
  - assert (id ∈ a) by (apply index_of_Some in Hi as (?&?&->&_); set_solver).
    rewrite decide_True by done. by rewrite (delete_index id).
  - apply index_of_None in Hi. rewrite decide_False by done.
    rewrite victims_spec by lia. simpl. case_bool_decide as He.
    + apply enough_iff_pinned in He; [|lia]. rewrite decide_False by lia.
      by rewrite Remove_spec.
    + rewrite enough_iff_pinned in He by lia. by rewrite decide_True by lia.
Qed.

Lemma activate_spec_wf id limit pinned a a' ev :
  wf a → id ≠ "" → activate_spec id limit pinned a = (a', Ok ev) → wf a'.
Proof.
  intros Hwf Hid. unfold activate_spec. intros H. repeat case_decide; simplify_eq.
  - apply wf_snoc; [by apply wf_filter|done|]. rewrite list_elem_of_filter. naive_solver.
  - apply wf_snoc; [by apply wf_filter|done|]. rewrite list_elem_of_filter. naive_solver.
Qed.

Lemma activate_spec_bound id limit pinned a a' ev :
  wf a → 1 <= limit → id ∉ a →
  activate_spec id limit pinned a = (a', Ok ev) → zlen a' <= limit.
Proof.
  intros [Hnd _] Hl Hid. unfold activate_spec. rewrite decide_False by done.
  intros H. case_decide as Hp; simplify_eq.
  pose proof (enough_iff_pinned limit pinned a Hl) as [_ He].
  specialize (He ltac:(lia)).
  set (v := lru_victims _ _ _) in *.
  assert (length (filter (λ x, x ∉ v) a) + length v = length a)%nat as Hlen.
  { apply length_filter_out; [done|by apply NoDup_lru_victims|].
    intros x Hx. by apply elem_of_lru_victims in Hx as [? _]. }
  assert (length v = (length a - Z.to_nat (limit - 1)))%nat as Hv.
  { unfold v, lru_victims. rewrite length_take. lia. }
  unfold zlen. rewrite length_app; simpl. lia.
Qed.

(** ** Properties *)

(** C38 [Activate] is the documented LRU activation: an active journey only
    moves to most recently used; otherwise it is refused, with the set
    unchanged, exactly when [limit] or more active journeys are pinned, and in
    every other case the journeys evicted are the least recently used unpinned
    ones, as many as needed for the result to fit. *)
Theorem Activate_refines_lru (id : string) (limit : Z) (pinned : list string) (a : ActiveSet) :
  NoDup a → id ≠ "" → 1 <= limit →
  Activate id limit pinned a = activate_spec id limit pinned a.
Proof. apply Activate_is_spec. Qed.

Lemma Activate_refines_lru_witness :
  Activate "d" 3 ["a"] ["a"; "b"; "c"] = (["a"; "c"; "d"], Ok ["b"]).
Proof.
  rewrite (Activate_refines_lru "d" 3 ["a"] ["a"; "b"; "c"]);
    [vm_compute; reflexivity|apply no_dup_b_true; reflexivity|discriminate|lia].
Defined.

(** A successful activation keeps the set well formed (no empty and no
    repeated ID), leaves the activated journey most recently used, keeps every
    pinned journey active, and never exceeds the limit unless the journey was
    already active. *)
Theorem Activate_preserves (id : string) (limit : Z) (pinned : list string) (a a' : ActiveSet)
    (ev : list string) :
  wf a → Activate id limit pinned a = (a', Ok ev) →
  wf a' ∧ last a' = Some id ∧ (∀ x, x ∈ a → x ∈ pinned → x ∈ a') ∧
  (id ∉ a → zlen a' <= limit).
Proof.
  intros Hwf H. assert (id ≠ "" ∧ 1 <= limit) as [Hid Hl].
  { unfold Activate in H. case_decide; [done|]. split; [naive_solver|lia]. }
  rewrite Activate_is_spec in H by (naive_solver || apply Hwf).
  split_and!; [by eapply activate_spec_wf| | |intros; by eapply activate_spec_bound].
  - unfold activate_spec in H. repeat case_decide; simplify_eq; by rewrite last_snoc.
  - intros x Hx Hp. unfold activate_spec in H. repeat case_decide; simplify_eq;
      apply elem_of_app; [destruct (decide (x = id)) as [->|]; [set_solver|]|]; left.
    + by apply list_elem_of_filter.
    + apply list_elem_of_filter. split; [|done].
      intros Hv. apply elem_of_lru_victims in Hv. naive_solver.
Qed.

Lemma Activate_preserves_witness :
  wf ["a"; "c"; "d"] ∧ last ["a"; "c"; "d"] = Some "d".
Proof.
  assert (wf ["a"; "b"; "c"]) as Hwf.
  { split; [apply no_dup_b_true; reflexivity|apply contains_false; reflexivity]. }
  destruct (Activate_preserves "d" 3 ["a"] ["a"; "b"; "c"] ["a"; "c"; "d"] ["b"] Hwf
              ltac:(vm_compute; reflexivity)) as (H1 & H2 & _).
  split; [exact H1|exact H2].
Defined.

(** [Fit] keeps the recency order of what stays (the result is a sublist),
    never evicts a pinned journey, and ends within the limit unless every
    journey that is left is pinned. *)
Theorem Fit_evicts_unpinned_only (limit : Z) (pinned : list string) (a a' : ActiveSet)
    (ev : list string) :
  NoDup a → Fit limit pinned a = (a', Ok ev) →
  a' `sublist_of` a ∧ (∀ x, x ∈ a → x ∈ pinned → x ∈ a') ∧
  (zlen a' <= limit ∨ ∀ x, x ∈ a' → x ∈ pinned).
Proof.
  intros Hnd. unfold Fit. case_decide as Hl; [done|]. rewrite victims_spec by lia. simpl.
  rewrite Remove_spec. intros [= <- <-]. set (v := lru_victims _ _ _).
  split_and!.
  - apply sublist_filter.
  - intros x Hx Hp. apply list_elem_of_filter. split; [|done].
    intros Hv. apply elem_of_lru_victims in Hv. naive_solver.
  - destruct (decide (length a - Z.to_nat limit <=
                      length (filter (λ id, id ∉ pinned) a))%nat) as [Hk|Hk]; [left|right].
    + assert (length (filter (λ x, x ∉ v) a) + length v = length a)%nat as Hlen.
      { apply length_filter_out; [done|by apply NoDup_lru_victims|].
        intros x Hx. by apply elem_of_lru_victims in Hx as [? _]. }
      assert (length v = (length a - Z.to_nat limit))%nat as Hv.
      { unfold v, lru_victims. rewrite length_take. lia. }
      unfold zlen in *. lia.
    + intros x Hx. apply list_elem_of_filter in Hx as [Hv Hx].
      destruct (decide (x ∈ pinned)) as [|Hp]; [done|]. destruct Hv.
      unfold v, lru_victims. rewrite take_ge by lia. by apply list_elem_of_filter.
Qed.

Lemma Fit_evicts_unpinned_only_witness :
  Fit 1 ["a"] ["a"; "b"; "c"] = (["a"], Ok ["b"; "c"]) ∧
  (zlen ["a"] <= 1 ∨ ∀ x, x ∈ ["a"] → x ∈ ["a"]).
Proof.
  split; [vm_compute; reflexivity|].
  apply (Fit_evicts_unpinned_only 1 ["a"] ["a"; "b"; "c"] ["a"] ["b"; "c"]);
    [apply no_dup_b_true; reflexivity|vm_compute; reflexivity].
Defined.
