(* ===== verification/Selectors.v ===== *)
(** * Selectors, versions and aliases

    [src/internal/definitions/selectors.go]: the selector and version-range
    data, the product-version order and the model-facing tool aliases. *)
From S2P Require Import Prelude GoText.
From Stdlib Require Import Ascii.

(** The Go [Class] is a string type with three named values; [""] means
    unclassified. *)
Abbreviation PolicyClass := string (only parsing).
Definition ClassReadOnly : PolicyClass := "read_only".
Definition ClassIdempotent : PolicyClass := "idempotent".
Definition ClassEffectful : PolicyClass := "effectful".

Record CatalogConfig := {
  OperationMetaKey : string;
  CallIDHeader : string;
}.

Record Selector := {
  Ops : list string;
  Tags : list string;
  Alias : string;
  ReadOnlyHint : bool;
  SelClass : PolicyClass;
  ApprovalRequired : bool;
}.

Record VersionRange := { Min : string; MaxExclusive : string }.

#[export] Instance CatalogConfig_eq_dec : EqDecision CatalogConfig.
Proof. solve_decision. Defined.
#[export] Instance Selector_eq_dec : EqDecision Selector.
Proof. solve_decision. Defined.
#[export] Instance VersionRange_eq_dec : EqDecision VersionRange.
Proof. solve_decision. Defined.

(** ** Versions *)

Definition isNumeric (s : string) : bool :=
  if decide (s = "") then false else all_bytes is_digit s.

Definition compareSegment (a b : string) : Z :=
  match isNumeric a, isNumeric b with
  | true, true =>
      let a := trim_left (λ c, bool_decide (c = "0"%char)) a in
      let b := trim_left (λ c, bool_decide (c = "0"%char)) b in
      if decide (slen a = slen b) then compare_str a b
      else if decide (slen a < slen b) then -1 else 1
  | true, false => -1
  | false, true => 1
  | false, false => compare_str a b
  end.

(** The index loop of [CompareVersions] over the two segment lists. *)
Fixpoint compare_segments (l k : list string) : Z :=
  match l, k with
  | [], [] => 0
  | [], _ :: _ => -1
  | _ :: _, [] => 1
  | a :: l, b :: k =>
      let c := compareSegment a b in
      if decide (c = 0) then compare_segments l k else c
  end.

Definition CompareVersions (a b : string) : Z :=
  compare_segments (split "." a) (split "." b).

Definition IsZero (r : VersionRange) : bool :=
  bool_decide (r.(Min) = "") && bool_decide (r.(MaxExclusive) = "").

Definition Contains (r : VersionRange) (v : string) : bool :=
  if negb (bool_decide (r.(Min) = "")) && (CompareVersions v r.(Min) <? 0) then false
  else if negb (bool_decide (r.(MaxExclusive) = "")) && (0 <=? CompareVersions v r.(MaxExclusive))
  then false
  else true.

(** ** Aliases *)

Definition word_byte (c : ascii) : bool :=
  is_lower c || is_upper c || is_digit c || bool_decide (c = "_"%char).

(** The byte loop of [ValidAlias]; [i] is the index of the first byte left. *)
Fixpoint valid_alias_bytes (i : nat) (s : string) : bool :=
  match s with
  | "" => true
  | String c s =>
      if is_lower c || is_upper c || bool_decide (c = "_"%char) then valid_alias_bytes (S i) s
      else if is_digit c && (0 <? Z.of_nat i) then valid_alias_bytes (S i) s
      else false
  end.

Definition ValidAlias (s : string) : bool :=
  if (slen s <? 1) || (64 <? slen s) then false else valid_alias_bytes 0 s.

Definition AliasFor (op : string) : string * bool :=
  let alias := map_bytes (λ c, if word_byte c then c else "_"%char) op in
  (alias, ValidAlias alias).

Definition IsReservedToolName (name : string) : bool :=
  bool_decide (name ∈ ["request_user_input"; "read_skill_resource"; "activate_journey"]).

(** The regular expression the comments give: [^[A-Za-z_][A-Za-z0-9_]{0,63}$]. *)
Definition alias_language (s : string) : Prop :=
  ∃ c t, s = String c t ∧ (is_lower c || is_upper c || bool_decide (c = "_"%char)) = true ∧
         all_bytes word_byte t = true ∧ slen t <= 63.

(** ** Lemmas *)

(** Segments compare through a key: the kind (numeric first), then for numeric
    segments the length without leading zeros, then the bytes. *)
Definition segment_key (s : string) : Z * Z * string :=
  if isNumeric s then
    let t := trim_left (λ c, bool_decide (c = "0"%char)) s in (0, slen t, t)
  else (1, 0, s).

Definition key_compare : Z * Z * string → Z * Z * string → Z :=
  lex (λ x y, cmp_z (x.1.1 ?= y.1.1))
      (lex (λ x y, cmp_z (x.1.2 ?= y.1.2)) (λ x y, compare_str x.2 y.2)).

#[export] Instance key_compare_ok : CompareOk key_compare.
Proof.
  apply lex_ok; [|apply lex_ok].
  - exact (pull_ok (λ x y, cmp_z (x ?= y)) (λ p : Z * Z * string, p.1.1)).
  - exact (pull_ok (λ x y, cmp_z (x ?= y)) (λ p : Z * Z * string, p.1.2)).
  - exact (pull_ok compare_str (λ p : Z * Z * string, p.2)).
Qed.

Lemma compareSegment_key a b :
  compareSegment a b = key_compare (segment_key a) (segment_key b).
Proof.
  unfold compareSegment, key_compare, segment_key, lex.
  destruct (isNumeric a), (isNumeric b); simpl; try done.
  set (x := trim_left _ a). set (y := trim_left _ b).
  destruct (Z.compare_spec (slen x) (slen y)) as [Hc|Hc|Hc]; simpl;
    repeat case_decide; lia || done.
Qed.

#[export] Instance compareSegment_ok : CompareOk compareSegment.
Proof.
  destruct (pull_ok key_compare segment_key) as [Has Htr].
  split; intros *; rewrite !compareSegment_key; [apply Has|apply Htr].
Qed.

Lemma compare_segments_lex l k : compare_segments l k = lex_list compareSegment l k.
Proof.
  revert k. induction l as [|a l IH]; intros [|b k]; simpl; try done. by rewrite IH.
Qed.

#[export] Instance CompareVersions_ok : CompareOk CompareVersions.
Proof.
  destruct (pull_ok (lex_list compareSegment) (split ".")) as [Has Htr].
  unfold CompareVersions.
  split; intros *; rewrite !compare_segments_lex; [apply Has|apply Htr].
Qed.

Lemma Contains_true r v :
  Contains r v = true ↔
  (r.(Min) ≠ "" → CompareVersions r.(Min) v <= 0) ∧
  (r.(MaxExclusive) ≠ "" → CompareVersions v r.(MaxExclusive) < 0).
Proof.
  unfold Contains. pose proof (cmp_antisym CompareVersions v r.(Min)).
  repeat case_bool_decide; simpl; repeat case_match; naive_solver lia.
Qed.

Lemma valid_alias_bytes_S i s : valid_alias_bytes (S i) s = all_bytes word_byte s.
Proof.
  revert i. induction s as [|c s IH]; intros i; simpl; [done|].
  rewrite !IH. unfold word_byte.
  destruct (is_lower c), (is_upper c), (is_digit c), (bool_decide (c = "_"%char)); done.
Qed.

Lemma ValidAlias_language s : ValidAlias s = true ↔ alias_language s.
Proof.
  unfold ValidAlias, alias_language, slen. destruct s as [|c s]; simpl.
  - split; [done|]. by intros (?&?&?&_).
  - rewrite valid_alias_bytes_S.
    destruct (Z.ltb_spec 64 (Z.of_nat (S (String.length s)))) as [Hl|Hl].
    + rewrite orb_true_r. split; [done|]. intros (?&?&[= <- <-]&_&_&?). lia.
    + rewrite orb_false_r. destruct (Z.ltb_spec (Z.of_nat (S (String.length s))) 1); [lia|].
      rewrite andb_false_r. split.
      * case_match; [|done]. intros Ha. exists c, s. split_and!; try done. lia.
      * intros (?&?&[= <- <-]&->&?&_). done.
Qed.

Lemma map_bytes_id f s : (∀ c, word_byte c = true → f c = c) →
  all_bytes word_byte s = true → map_bytes f s = s.
Proof.
  intros Hf. induction s as [|c s IH]; simpl; [done|].
  intros [Hc Hs]%andb_true_iff. by rewrite Hf, IH.
Qed.

Lemma ValidAlias_word s : ValidAlias s = true → all_bytes word_byte s = true.
Proof.
  intros (c&t&->&Hc&Ht&_)%ValidAlias_language. simpl. rewrite Ht. unfold word_byte.
  destruct (is_lower c), (is_upper c), (bool_decide (c = "_"%char)); try done.
  by rewrite orb_true_r.
Qed.

Lemma AliasFor_valid_id s : ValidAlias s = true → AliasFor s = (s, true).
Proof.
  intros Hv. unfold AliasFor. rewrite map_bytes_id.
  - by rewrite Hv.
  - intros c Hc. by rewrite Hc.
  - by apply ValidAlias_word.
Qed.

(** ** Properties *)

(** [CompareVersions] is a total preorder on versions: swapping the
    arguments negates the result and "at most" is transitive, so the ranges
    built on it are intervals.  (It is not antisymmetric: [1.01] and [1.1]
    compare equal.) *)
Theorem CompareVersions_preorder (a b c : string) :
  CompareVersions b a = - CompareVersions a b ∧
  (CompareVersions a b <= 0 → CompareVersions b c <= 0 → CompareVersions a c <= 0).
Proof.
  split; [apply (cmp_antisym CompareVersions)|apply (cmp_trans CompareVersions)].
Qed.

(** A version range is a half-open interval of that order: it contains
    every version between two versions it contains, its own lower bound when
    the bounds are in order, and never its upper bound. *)
Theorem Contains_half_open (r : VersionRange) (lo v hi : string) :
  (Contains r lo = true → Contains r hi = true →
   CompareVersions lo v <= 0 → CompareVersions v hi <= 0 → Contains r v = true) ∧
  (Contains r r.(Min) = true ∨ r.(Min) = "" ∨ 0 <= CompareVersions r.(Min) r.(MaxExclusive)) ∧
  (r.(MaxExclusive) ≠ "" → Contains r r.(MaxExclusive) = false).
Proof.
  rewrite !Contains_true. split_and!.
  - intros [Hlo _] [_ Hhi] H1 H2. split; intros Hne.
    + eapply (cmp_trans CompareVersions); eauto.
    + eapply (cmp_le_lt CompareVersions); eauto.
  - destruct (decide (r.(Min) = "")); [naive_solver|].
    destruct (decide (0 <= CompareVersions r.(Min) r.(MaxExclusive))); [naive_solver|].
    left. rewrite (cmp_refl CompareVersions). naive_solver lia.
  - intros Hne. apply not_true_iff_false. rewrite Contains_true.
    rewrite (cmp_refl CompareVersions). naive_solver lia.
Qed.

Lemma Contains_half_open_witness :
  Contains {| Min := "2026.2"; MaxExclusive := "2027.1" |} "2026.10" = true.
Proof.
  apply (Contains_half_open {| Min := "2026.2"; MaxExclusive := "2027.1" |}
           "2026.2" "2026.10" "2026.11"); [reflexivity|reflexivity| |];
    vm_compute; discriminate.
Defined.

(** [ValidAlias] accepts exactly the documented regular expression, and
    [AliasFor] is the identity on valid aliases: deriving an alias twice
    changes nothing. *)
Theorem ValidAlias_is_regexp (s : string) :
  (ValidAlias s = true ↔ alias_language s) ∧
  (∀ alias, AliasFor s = (alias, true) → AliasFor alias = (alias, true)).
Proof.
  split; [apply ValidAlias_language|].
  intros alias Ha. apply AliasFor_valid_id. unfold AliasFor in Ha. by simplify_eq.
Qed.
