(* ===== verification/Journey.v ===== *)
(** * Compiled journeys and definition sets

    The data of [src/internal/definitions]: skill packages ([skill.go]),
    journeys ([journey.go]) and the compiled set with its accessors
    ([set.go]).  Values are immutable here, so the defensive clones of the Go
    accessors are the identity. *)
From S2P Require Import Prelude GoText Selectors.

Definition MaxPromptBytes : Z := 256 * 2 ^ 10.
Definition MaxConfigBytes : Z := 2 ^ 20.
Definition MaxSkillBytes : Z := 256 * 2 ^ 10.
Definition MaxSkillMetadata : Z := 8 * 2 ^ 10.
Definition MaxSupportingBytes : Z := 2 ^ 20.
Definition MaxCompiledSkillBytes : Z := 8 * 2 ^ 20.
Definition MaxCompiledSkillFiles : Z := 256.

Record SkillFile := { sf_Name : string; sf_Digest : string; sf_Data : string }.

Record SkillPackage := {
  sp_Name : string;
  sp_Description : string;
  sp_Disabled : bool;
  sp_AllowSupportingFiles : bool;
  sp_Instructions : SkillFile;
  sp_Supporting : gmap string SkillFile;
  sp_Digest : string;
}.

Record Journey := {
  j_ID : string;
  j_Description : string;
  j_Prompt : string;
  j_Skills : list SkillPackage;
  j_Digest : string;
  j_Tools : list Selector;
  j_Deny : list string;
  j_MaxTools : Z;
  j_ProductVersions : VersionRange;
  j_Catalog : CatalogConfig;
  j_Skill : string;
}.

Definition zeroJourney : Journey := {|
  j_ID := ""; j_Description := ""; j_Prompt := ""; j_Skills := []; j_Digest := "";
  j_Tools := []; j_Deny := []; j_MaxTools := 0;
  j_ProductVersions := {| Min := ""; MaxExclusive := "" |};
  j_Catalog := {| OperationMetaKey := ""; CallIDHeader := "" |}; j_Skill := "" |}.

Record DefSet := {
  set_catalog : CatalogConfig;
  set_conversationPrompt : string;
  set_digest : string;
  set_order : list string;
  set_journeys : gmap string Journey;
  set_canonical : gmap string string;
  set_skillBytes : Z;
  set_skillFiles : Z;
  set_bundle : gmap string string;
}.

(** Indexing the Go map: the zero journey for an absent ID. *)
Definition journey_at (s : DefSet) (id : string) : Journey :=
  default zeroJourney (s.(set_journeys) !! id).

(** [Set.Journeys]: the journeys in configuration order. *)
Definition Journeys (s : DefSet) : list Journey := journey_at s <$> s.(set_order).

(** [Set.Journey] *)
Definition FindJourney (s : DefSet) (id : string) : option Journey := s.(set_journeys) !! id.

(** What the set's journeys look like when it was compiled: the order lists
    each journey once, under its own ID. *)
Definition set_wf (s : DefSet) : Prop :=
  NoDup s.(set_order) ∧ "" ∉ s.(set_order) ∧
  (∀ id, id ∈ s.(set_order) ↔ is_Some (s.(set_journeys) !! id)) ∧
  (∀ id j, s.(set_journeys) !! id = Some j → j.(j_ID) = id).

Lemma journey_at_order s id : set_wf s → id ∈ s.(set_order) →
  s.(set_journeys) !! id = Some (journey_at s id).
Proof.
  intros (_ & _ & Hdom & _) Hid. apply Hdom in Hid as [j Hj]. unfold journey_at. by rewrite Hj.
Qed.
