(* ===== verification/Compile.v ===== *)
(** * Compiling journey definitions

    The pure checks of [src/internal/definitions/compile.go] on decoded raw
    journeys: catalog configuration, version ranges, tool selectors, and the
    set-wide alias and policy consistency checks.  YAML decoding is library
    code; its results are the [raw*] records.  Errors carry the message's
    identity, not its text. *)
From S2P Require Import Prelude GoText Selectors Journey.
From Stdlib Require Import Ascii.

Definition defaultMaxTools : Z := 15.
Definition maxMaxTools : Z := 64.
Definition maxJourneyID : Z := 64.

Record rawCatalog := { rc_OperationMetaKey : string; rc_CallIDHeader : string }.

(** [Op] is [opList]: [None] when the field is not present.  [RTags] is [None]
    for a nil slice. *)
Record rawTool := {
  rt_Op : option (list string);
  rt_Tags : option (list string);
  rt_Alias : string;
  rt_ReadOnly : bool;
  rt_Class : string;
  rt_Approval : string;
}.

Record rawJourney := {
  rj_ID : string;
  rj_Skill : string;
  rj_Versions : VersionRange;
  rj_Tools : list rawTool;
  rj_Deny : list string;
  rj_MaxTools : option Z;
}.

Inductive tool_error :=
| OneOfOpTags | InvalidClass | IdempotentNeedsHeader | InvalidApproval | EmptyOp
| EmptyAlternative | OpSelectedTwice | OpDenied | AliasRequired | AliasInvalid
| AliasTaken | TagClass | TagAlias | EmptyTags | TagInvalid.

Inductive compile_error :=
| MetaKeyRequired | HeaderInvalid
| IDInvalid | VersionWhitespace | VersionEmptySegment | VersionOrder | MaxToolsRange
| ToolsEmpty | DenyInvalid | ToolError (i : nat) (e : tool_error)
| AliasConflict (alias first id : string)
| PolicyConflict (key first id : string).

(** ** Header names *)

Definition token_punct : string := "!#$%&'*+-.^_`|~".

Definition validHeaderToken (s : string) : bool :=
  all_bytes (λ c, is_lower c || is_upper c || is_digit c || in_set token_punct c) s
  && negb (bool_decide (s = "")).

Definition to_upper (c : ascii) : ascii :=
  if is_lower c then ascii_of_N (N_of_ascii c - 32) else c.
Definition to_lower (c : ascii) : ascii :=
  if is_upper c then ascii_of_N (N_of_ascii c + 32) else c.

(** [textproto.CanonicalMIMEHeaderKey] on a valid header token: upper case at
    the start and after each hyphen, lower case elsewhere. *)
Fixpoint canonical_from (upper : bool) (s : string) : string :=
  match s with
  | "" => ""
  | String c s =>
      let c' := if upper then to_upper c else to_lower c in
      String c' (canonical_from (bool_decide (c' = "-"%char)) s)
  end.
Definition CanonicalMIMEHeaderKey (s : string) : string :=
  if all_bytes (λ c, is_alnum c || in_set token_punct c) s then canonical_from true s else s.

Definition compileCatalog (raw : rawCatalog) : result compile_error CatalogConfig :=
  if bool_decide (raw.(rc_OperationMetaKey) = "")
     || bool_decide (trim_space raw.(rc_OperationMetaKey) = "")
  then Err MetaKeyRequired
  else if decide (raw.(rc_CallIDHeader) = "") then
    Ok {| OperationMetaKey := raw.(rc_OperationMetaKey); CallIDHeader := "" |}
  else if negb (validHeaderToken raw.(rc_CallIDHeader)) then Err HeaderInvalid
  else Ok {| OperationMetaKey := raw.(rc_OperationMetaKey);
             CallIDHeader := CanonicalMIMEHeaderKey raw.(rc_CallIDHeader) |}.

(** ** Journey-level checks *)

Definition check_bound (v : string) : result compile_error unit :=
  if decide (v = "") then Ok tt
  else if any_rune is_space_rune v then Err VersionWhitespace
  else ensure (negb (contains "" (split "." v))) VersionEmptySegment.

Definition validateVersionRange (r : VersionRange) : result compile_error unit :=
  check_bound r.(Min);; check_bound r.(MaxExclusive);;
  if negb (bool_decide (r.(Min) = "")) && negb (bool_decide (r.(MaxExclusive) = ""))
     && (0 <=? CompareVersions r.(Min) r.(MaxExclusive))
  then Err VersionOrder else Ok tt.

Definition validJourneyID (id : string) : bool :=
  negb (bool_decide (id = "") || (maxJourneyID <? slen id)
        || any_rune (λ r, is_space_rune r || is_control_rune r) id).

Definition compileMaxTools (m : option Z) : result compile_error Z :=
  match m with
  | None => Ok defaultMaxTools
  | Some n => if (n <? 1) || (maxMaxTools <? n) then Err MaxToolsRange else Ok n
  end.

(** ** Tool selectors *)

(** The deny loop: [denied] and [deny] hold the same keys, so one list models
    both. *)
Fixpoint compileDeny (deny : list string) (keys : list string)
    : result compile_error (list string) :=
  match keys with
  | [] => Ok deny
  | key :: keys =>
      if bool_decide (key = "") || contains key deny then Err DenyInvalid
      else compileDeny (deny ++ [key]) keys
  end.

(** The loop over the alternatives of one [op]: returns the new [seenOps]. *)
Fixpoint checkOps (denied seen : list string) (keys : list string)
    : result tool_error (list string) :=
  match keys with
  | [] => Ok seen
  | key :: keys =>
      if decide (key = "") then Err EmptyAlternative
      else if contains key seen then Err OpSelectedTwice
      else if contains key denied then Err OpDenied
      else checkOps denied (seen ++ [key]) keys
  end.

Fixpoint checkTags (seen : list string) (tags : list string) : result tool_error unit :=
  match tags with
  | [] => Ok tt
  | tag :: tags =>
      if bool_decide (tag = "") || contains tag seen then Err TagInvalid
      else checkTags (seen ++ [tag]) tags
  end.

Definition compileClass (catalog : CatalogConfig) (class : string)
    : result tool_error PolicyClass :=
  if negb (contains class [""; ClassReadOnly; ClassIdempotent; ClassEffectful])
  then Err InvalidClass
  else if bool_decide (class = ClassIdempotent)
          && bool_decide (catalog.(CallIDHeader) = "")
  then Err IdempotentNeedsHeader
  else Ok class.

Definition compileApproval (approval : string) : result tool_error bool :=
  if decide (approval = "") then Ok false
  else if decide (approval = "required") then Ok true
  else Err InvalidApproval.

(** The accumulators of the tool loop: [seenOps], [aliases] and [tools]. *)
Record tool_state := {
  seenOps : list string;
  aliases : list string;
  selectors : list Selector;
}.

Definition compileOpTool (denied : list string) (rt : rawTool) (values : list string)
    (class : PolicyClass) (approval : bool) (st : tool_state) : result tool_error tool_state :=
  ensure (negb (bool_decide (values = []))) EmptyOp;;
  seen ← checkOps denied st.(seenOps) values;
  alias ← (if decide (rt.(rt_Alias) = "") then
             ensure (bool_decide (length values <= 1)%nat) AliasRequired;;
             Ok (AliasFor (hd "" values)).1
           else Ok rt.(rt_Alias));
  ensure (ValidAlias alias) AliasInvalid;;
  ensure (negb (IsReservedToolName alias || contains alias st.(aliases))) AliasTaken;;
  Ok {| seenOps := seen; aliases := alias :: st.(aliases);
        selectors := st.(selectors) ++
          [{| Ops := values; Tags := []; Alias := alias; ReadOnlyHint := rt.(rt_ReadOnly);
              SelClass := class; ApprovalRequired := approval |}] |}.

Definition compileTagTool (rt : rawTool) (tags : list string) (approval : bool)
    (st : tool_state) : result tool_error tool_state :=
  ensure (bool_decide (rt.(rt_Class) = "")) TagClass;;
  ensure (bool_decide (rt.(rt_Alias) = "")) TagAlias;;
  ensure (negb (bool_decide (tags = []))) EmptyTags;;
  checkTags [] tags;;
  Ok {| seenOps := st.(seenOps); aliases := st.(aliases);
        selectors := st.(selectors) ++
          [{| Ops := []; Tags := tags; Alias := ""; ReadOnlyHint := rt.(rt_ReadOnly);
              SelClass := ""; ApprovalRequired := approval |}] |}.

Definition compileTool (catalog : CatalogConfig) (denied : list string) (rt : rawTool)
    (st : tool_state) : result tool_error tool_state :=
  ensure (bool_decide (is_Some rt.(rt_Op) ↔ rt.(rt_Tags) = None)) OneOfOpTags;;
  class ← compileClass catalog rt.(rt_Class);
  approval ← compileApproval rt.(rt_Approval);
  match rt.(rt_Op), rt.(rt_Tags) with
  | Some values, _ => compileOpTool denied rt values class approval st
  | None, Some tags => compileTagTool rt tags approval st
  | None, None => Err OneOfOpTags
  end.

Fixpoint compileToolList (catalog : CatalogConfig) (denied : list string) (i : nat)
    (rts : list rawTool) (st : tool_state) : result compile_error tool_state :=
  match rts with
  | [] => Ok st
  | rt :: rts =>
      match compileTool catalog denied rt st with
      | Err e => Err (ToolError i e)
      | Ok st => compileToolList catalog denied (S i) rts st
      end
  end.

Definition compileTools (catalog : CatalogConfig) (rj : rawJourney)
    : result compile_error (list Selector * list string) :=
  if decide (rj.(rj_Tools) = []) then Err ToolsEmpty
  else
    deny ← compileDeny [] rj.(rj_Deny);
    st ← compileToolList catalog deny 1 rj.(rj_Tools)
           {| seenOps := []; aliases := []; selectors := [] |};
    Ok (st.(selectors), deny).

(** ** Set-wide consistency *)

Record effectivePolicy := { ep_class : PolicyClass; ep_approval : bool }.

#[export] Instance effectivePolicy_eq_dec : EqDecision effectivePolicy.
Proof. solve_decision. Defined.

Definition policyClassRank (c : PolicyClass) : Z :=
  if decide (c = ClassReadOnly) then 0
  else if decide (c = ClassIdempotent) then 1
  else 2.

(** What one selector says about one of its keys, merged with what earlier
    selectors said: strictest class, approval OR-ed. *)
Definition mergePolicy (s : Selector) (out : gmap string effectivePolicy) (key : string)
    : gmap string effectivePolicy :=
  let class := if decide (s.(SelClass) = "") then ClassEffectful else s.(SelClass) in
  let next :=
    match out !! key with
    | Some prev =>
        {| ep_class := if policyClassRank class <? policyClassRank prev.(ep_class)
                       then prev.(ep_class) else class;
           ep_approval := s.(ApprovalRequired) || prev.(ep_approval) |}
    | None => {| ep_class := class; ep_approval := s.(ApprovalRequired) |}
    end in
  <[key := next]> out.

Definition closePolicy (p : effectivePolicy) : effectivePolicy :=
  {| ep_class := p.(ep_class);
     ep_approval := p.(ep_approval) || negb (bool_decide (p.(ep_class) = ClassReadOnly)) |}.

Definition journeyPolicies (j : Journey) : gmap string effectivePolicy :=
  closePolicy <$>
    fold_left (λ out s, fold_left (mergePolicy s) s.(Ops) out) j.(j_Tools) ∅.

(** The ordered operation list as [checkAliasOps] encodes it. *)
Definition nul : string := String "000"%char "".
Definition encodeOps (ops : list string) : string := join nul ops.

(** The alias loop: [first] and [ops] map an alias to the journey that first
    used it and to that use's encoded operations. *)
Fixpoint aliasSelectors (id : string) (sels : list Selector)
    (st : gmap string (string * string)) : result compile_error (gmap string (string * string)) :=
  match sels with
  | [] => Ok st
  | s :: sels =>
      if decide (s.(Alias) = "") then aliasSelectors id sels st
      else
        let enc := encodeOps s.(Ops) in
        match st !! s.(Alias) with
        | None => aliasSelectors id sels (<[s.(Alias) := (id, enc)]> st)
        | Some (first, prev) =>
            if decide (prev = enc) then aliasSelectors id sels st
            else Err (AliasConflict s.(Alias) first id)
        end
  end.

Fixpoint aliasJourneys (set : DefSet) (ids : list string)
    (st : gmap string (string * string)) : result compile_error unit :=
  match ids with
  | [] => Ok tt
  | id :: ids =>
      st ← aliasSelectors id (journey_at set id).(j_Tools) st;
      aliasJourneys set ids st
  end.

Definition checkAliasOps (set : DefSet) : result compile_error unit :=
  aliasJourneys set (sort_strings set.(set_order)) ∅.

(** [byKey[key][id]] of [checkPolicyConflicts]. *)
Definition policyOf (set : DefSet) (key id : string) : option effectivePolicy :=
  journeyPolicies (journey_at set id) !! key.

Fixpoint conflictIn (set : DefSet) (key first : string) (ids : list string)
    : result compile_error unit :=
  match ids with
  | [] => Ok tt
  | id :: ids =>
      match policyOf set key id with
      | None => conflictIn set key first ids
      | Some p =>
          if decide (first = "") then conflictIn set key id ids
          else if decide (Some p = policyOf set key first) then conflictIn set key first ids
          else Err (PolicyConflict key first id)
      end
  end.

Definition policyKeys (set : DefSet) (ids : list string) : list string :=
  sort_strings (elements (⋃ ((λ id, dom (journeyPolicies (journey_at set id))) <$> ids)
                          : gset string)).

Fixpoint conflictKeys (set : DefSet) (ids keys : list string) : result compile_error unit :=
  match keys with
  | [] => Ok tt
  | key :: keys => conflictIn set key "" ids;; conflictKeys set ids keys
  end.

Definition checkPolicyConflicts (set : DefSet) : result compile_error unit :=
  let ids := sort_strings set.(set_order) in
  conflictKeys set ids (policyKeys set ids).

(** ** What a compiled tool list promises *)

Definition selector_ok (catalog : CatalogConfig) (s : Selector) : Prop :=
  s.(SelClass) ∈ [""; ClassReadOnly; ClassIdempotent; ClassEffectful] ∧
  (s.(SelClass) = ClassIdempotent → catalog.(CallIDHeader) ≠ "") ∧
  ((s.(Ops) ≠ [] ∧ s.(Tags) = [] ∧ ValidAlias s.(Alias) = true ∧
    IsReservedToolName s.(Alias) = false) ∨
   (s.(Ops) = [] ∧ s.(Tags) ≠ [] ∧ NoDup s.(Tags) ∧ "" ∉ s.(Tags) ∧
    s.(Alias) = "" ∧ s.(SelClass) = "")).

Definition allOps (sels : list Selector) : list string := sels ≫= Ops.
Definition opAliases (sels : list Selector) : list string :=
  filter (λ a, a ≠ "") (Alias <$> sels).

Definition tools_ok (catalog : CatalogConfig) (deny : list string) (sels : list Selector)
    : Prop :=
  Forall (selector_ok catalog) sels ∧
  NoDup (allOps sels) ∧ "" ∉ allOps sels ∧ (∀ key, key ∈ allOps sels → key ∉ deny) ∧
  NoDup (opAliases sels).

Definition state_ok (catalog : CatalogConfig) (deny : list string) (st : tool_state) : Prop :=
  tools_ok catalog deny st.(selectors) ∧ st.(seenOps) = allOps st.(selectors) ∧
  st.(aliases) ≡ₚ opAliases st.(selectors).

Lemma compileDeny_ok deny keys d :
  compileDeny deny keys = Ok d → NoDup deny → "" ∉ deny →
  d = deny ++ keys ∧ NoDup d ∧ "" ∉ d.
Proof.
  revert deny. induction keys as [|k keys IH]; simpl; intros deny H Hnd Hne.
  - gosimpl. by rewrite app_nil_r.
  - destruct (bool_decide (k = "") || contains k deny) eqn:E; [done|].
    apply orb_false_iff in E as [Hk Hc]. apply bool_decide_eq_false in Hk.
    apply contains_false in Hc. apply IH in H as (-> & ? & ?).
    + split; [by rewrite <- app_assoc|done].
    + apply NoDup_app. split_and!; [done|set_solver|apply NoDup_singleton].
    + set_solver.
Qed.

Lemma checkOps_ok denied seen keys seen' :
  checkOps denied seen keys = Ok seen' → NoDup seen →
  seen' = seen ++ keys ∧ NoDup seen' ∧ "" ∉ keys ∧ (∀ key, key ∈ keys → key ∉ denied).
Proof.
  revert seen. induction keys as [|k keys IH]; simpl; intros seen H Hnd.
  - gosimpl. rewrite app_nil_r. split_and!; try done; set_solver.
  - case_decide as Hk; [done|].
    destruct (contains k seen) eqn:Hc; [done|]. destruct (contains k denied) eqn:Hd; [done|].
    apply contains_false in Hc, Hd. apply IH in H as (-> & ? & ? & ?).
    + rewrite <- app_assoc in *. split_and!; try done; set_solver.
    + apply NoDup_app. split_and!; [done|set_solver|apply NoDup_singleton].
Qed.

Lemma checkTags_ok seen tags :
  checkTags seen tags = Ok tt → NoDup tags ∧ "" ∉ tags ∧ (∀ t, t ∈ tags → t ∉ seen).
Proof.
  revert seen. induction tags as [|t tags IH]; simpl; intros seen H.
  - split_and!; [constructor|set_solver|set_solver].
  - destruct (bool_decide (t = "") || contains t seen) eqn:E; [done|].
    apply orb_false_iff in E as [Ht Hc]. apply bool_decide_eq_false in Ht.
    apply contains_false in Hc. apply IH in H as (? & ? & ?). rewrite NoDup_cons. set_solver.
Qed.

Lemma compileClass_ok catalog class c :
  compileClass catalog class = Ok c →
  c = class ∧ class ∈ [""; ClassReadOnly; ClassIdempotent; ClassEffectful] ∧
  (class = ClassIdempotent → catalog.(CallIDHeader) ≠ "").
Proof.
  unfold compileClass. destruct (negb _) eqn:E; [done|]. gosimpl. apply contains_true in E.
  case_match eqn:E'; [done|]. intros H. gosimpl. split_and!; [done..|].
  apply andb_false_iff in E' as [E'|E']; apply bool_decide_eq_false in E'; naive_solver.
Qed.

Lemma allOps_snoc sels s : allOps (sels ++ [s]) = allOps sels ++ s.(Ops).
Proof. unfold allOps. by rewrite bind_app, bind_singleton. Qed.

Lemma opAliases_snoc sels s :
  opAliases (sels ++ [s]) = opAliases sels ++ (if decide (s.(Alias) = "") then [] else [s.(Alias)]).
Proof.
  unfold opAliases. rewrite fmap_app, filter_app. f_equal. simpl.
  rewrite filter_cons, filter_nil. repeat case_decide; naive_solver.
Qed.

Lemma ValidAlias_nonempty a : ValidAlias a = true → a ≠ "".
Proof. by intros H ->. Qed.

Lemma compileOpTool_ok catalog denied rt values class approval st st' :
  state_ok catalog denied st →
  class ∈ [""; ClassReadOnly; ClassIdempotent; ClassEffectful] →
  (class = ClassIdempotent → catalog.(CallIDHeader) ≠ "") →
  compileOpTool denied rt values class approval st = Ok st' →
  state_ok catalog denied st'.
Proof.
  intros ((Hf & Hnd & Hne & Hden & Hal) & Hseen & Hals) Hc Hi H.
  unfold compileOpTool in H. gosimpl.
  apply orb_false_iff in H4 as [Hres Hfresh]. apply contains_false in Hfresh.
  apply ValidAlias_nonempty in H3 as Hane.
  apply checkOps_ok in H1 as (-> & Hnd' & Hne' & Hden'); [|by rewrite Hseen].
  rewrite Hseen in Hnd'. rewrite Hals in Hfresh.
  unfold state_ok, tools_ok; simpl. rewrite allOps_snoc, opAliases_snoc. simpl.
  rewrite decide_False by done. split_and!.
  - apply Forall_app. split; [done|]. apply Forall_singleton.
    split_and!; [done..|]. left. done.
  - done.
  - set_solver.
  - set_solver.
  - apply NoDup_app. split_and!; [done|set_solver|apply NoDup_singleton].
  - by rewrite Hseen.
  - rewrite Hals. apply Permutation_cons_append.
Qed.

Lemma compileTagTool_ok catalog denied rt tags approval st st' :
  state_ok catalog denied st → compileTagTool rt tags approval st = Ok st' →
  state_ok catalog denied st'.
Proof.
  intros ((Hf & Hnd & Hne & Hden & Hal) & Hseen & Hals) H. unfold compileTagTool in H. gosimpl.
  match goal with H : checkTags _ _ = Ok _ |- _ => apply checkTags_ok in H as (? & ? & _) end.
  unfold state_ok, tools_ok; simpl.
  rewrite allOps_snoc, opAliases_snoc, decide_True, !app_nil_r by done. simpl.
  split_and!; try done.
  apply Forall_app. split; [done|]. apply Forall_singleton.
  split_and!; simpl; [set_solver|done|]. right. done.
Qed.

Lemma compileTool_ok catalog denied rt st st' :
  state_ok catalog denied st → compileTool catalog denied rt st = Ok st' →
  state_ok catalog denied st' ∧
  length st'.(selectors) = S (length st.(selectors)).
Proof.
  intros Hst H. unfold compileTool in H. gosimpl. apply compileClass_ok in H1 as (-> & ? & ?).
  assert (∀ l (x : Selector), length (l ++ [x]) = S (length l)) as Hlen.
  { intros. rewrite length_app; simpl. lia. }
  destruct (rt_Op rt) as [values|]; [|destruct (rt_Tags rt) as [tags|]; [|done]]; split.
  - by eapply compileOpTool_ok.
  - unfold compileOpTool in H; gosimpl; apply Hlen.
  - by eapply compileTagTool_ok.
  - unfold compileTagTool in H; gosimpl; apply Hlen.
Qed.

Lemma compileToolList_ok catalog denied i rts st st' :
  state_ok catalog denied st → compileToolList catalog denied i rts st = Ok st' →
  state_ok catalog denied st' ∧
  length st'.(selectors) = (length st.(selectors) + length rts)%nat.
Proof.
  revert i st. induction rts as [|rt rts IH]; simpl; intros i st Hst H.
  - gosimpl. split; [done|lia].
  - destruct (compileTool catalog denied rt st) as [st1|] eqn:E; [|done].
    apply compileTool_ok in E as [Hst1 Hlen]; [|done].
    apply IH in H as [? ->]; [|done]. split; [done|lia].
Qed.

Lemma state_ok_empty catalog denied :
  state_ok catalog denied {| seenOps := []; aliases := []; selectors := [] |}.
Proof.
  unfold state_ok, tools_ok; simpl.
  split_and!; try done; try constructor; intros; set_solver.
Qed.

(** [compileTools] accepts only well-formed tool lists: every selector is
    either an op selector with a valid, unreserved alias or a tag selector with
    neither alias nor class; no operation key is selected twice or denied; no
    two selectors share an alias; [idempotent] is used only with a call-ID
    header; and every declared tool and deny key is kept. *)
Theorem compileTools_well_formed (catalog : CatalogConfig) (rj : rawJourney)
    (sels : list Selector) (deny : list string) :
  compileTools catalog rj = Ok (sels, deny) →
  tools_ok catalog deny sels ∧ length sels = length rj.(rj_Tools) ∧
  deny = rj.(rj_Deny) ∧ NoDup deny ∧ "" ∉ deny.
Proof.
  unfold compileTools. case_decide as Hne; [done|]. intros H. gosimpl.
  apply compileDeny_ok in H0 as (-> & ? & ?); [|constructor|set_solver].
  apply compileToolList_ok in H1 as [[Htools _] Hlen]; [|apply state_ok_empty].
  done.
Qed.

Definition example_raw_journey : rawJourney := {|
  rj_ID := "vacation-planning"; rj_Skill := "skills/vacation-planning";
  rj_Versions := {| Min := "2026.2"; MaxExclusive := "2027.1" |};
  rj_Tools :=
    [ {| rt_Op := Some ["leave.balance"]; rt_Tags := None; rt_Alias := "";
         rt_ReadOnly := false; rt_Class := "read_only"; rt_Approval := "" |};
      {| rt_Op := Some ["leave.request.v2"; "leave.request"]; rt_Tags := None;
         rt_Alias := "leave_request"; rt_ReadOnly := false; rt_Class := "";
         rt_Approval := "required" |};
      {| rt_Op := None; rt_Tags := Some ["leave"]; rt_Alias := ""; rt_ReadOnly := true;
         rt_Class := ""; rt_Approval := "" |} ];
  rj_Deny := ["leave.cancel"]; rj_MaxTools := None |}.

Definition example_catalog : CatalogConfig :=
  {| OperationMetaKey := "operation_key"; CallIDHeader := "X-Platform-Call-Id" |}.

Lemma compileTools_well_formed_witness :
  ∃ sels, compileTools example_catalog example_raw_journey = Ok (sels, ["leave.cancel"]) ∧
          length sels = 3%nat.
Proof.
  eexists. split; [vm_compute; reflexivity|].
  apply (compileTools_well_formed example_catalog example_raw_journey _ ["leave.cancel"]).
  vm_compute. reflexivity.
Defined.

(** ** Set-wide consistency: lemmas *)

(** Every aliased selector of the listed journeys. *)
Definition aliased (set : DefSet) (ids : list string) (s : Selector) : Prop :=
  ∃ id, id ∈ ids ∧ s ∈ (journey_at set id).(j_Tools) ∧ s.(Alias) ≠ "".

Lemma aliasSelectors_ok id sels st st' :
  aliasSelectors id sels st = Ok st' →
  (∀ a v, st !! a = Some v → st' !! a = Some v) ∧
  (∀ s, s ∈ sels → s.(Alias) ≠ "" →
     ∃ f, st' !! s.(Alias) = Some (f, encodeOps s.(Ops))).
Proof.
  revert st. induction sels as [|s sels IH]; simpl; intros st H.
  - gosimpl. split; [done|set_solver].
  - case_decide as Ha.
    { destruct (IH _ H) as [Hst Hs]. split; [done|].
      intros s' [->|Hs']%elem_of_cons; [done|eauto]. }
    destruct (st !! Alias s) as [[first prev]|] eqn:E.
    + case_decide as Hp; [|done]. subst prev.
      destruct (IH _ H) as [Hst Hs]. split; [done|].
      intros s' [->|Hs']%elem_of_cons; eauto.
    + destruct (IH _ H) as [Hst Hs]. split.
      * intros a v Hv. apply Hst. rewrite lookup_insert_ne; [done|congruence].
      * intros s' [->|Hs']%elem_of_cons; [|eauto].
        intros _. exists id. apply Hst. apply lookup_insert_eq.
Qed.

Lemma aliasJourneys_ok set ids st :
  aliasJourneys set ids st = Ok tt →
  ∃ st' : gmap string (string * string), (∀ a v, st !! a = Some v → st' !! a = Some v) ∧
    ∀ s, aliased set ids s → ∃ f, st' !! s.(Alias) = Some (f, encodeOps s.(Ops)).
Proof.
  revert st. induction ids as [|id ids IH]; simpl; intros st H.
  - exists st. split; [done|]. intros s (? & ? & _); set_solver.
  - gosimpl. apply aliasSelectors_ok in H0 as [Hst Hs].
    destruct (IH _ H) as (st' & Hst' & Hs'). exists st'. split; [eauto|].
    intros s (id' & [->|Hid]%elem_of_cons & Hin & Ha).
    + destruct (Hs s Hin Ha) as [f Hf]. eauto.
    + apply Hs'. by exists id'.
Qed.

(** The entries of the alias map all come from selectors satisfying [P]. *)
Definition alias_entries (P : Selector → Prop) (st : gmap string (string * string)) : Prop :=
  ∀ a f e, st !! a = Some (f, e) → ∃ s, P s ∧ s.(Alias) = a ∧ e = encodeOps s.(Ops).

Lemma aliasSelectors_complete (P : Selector → Prop) id sels st :
  (∀ s1 s2, P s1 → P s2 → s1.(Alias) = s2.(Alias) →
     encodeOps s1.(Ops) = encodeOps s2.(Ops)) →
  (∀ s, s ∈ sels → s.(Alias) ≠ "" → P s) →
  alias_entries P st →
  ∃ st', aliasSelectors id sels st = Ok st' ∧ alias_entries P st'.
Proof.
  intros HP. revert st. induction sels as [|s sels IH]; simpl; intros st Hs Hst; [eauto|].
  assert (∀ s', s' ∈ sels → Alias s' ≠ "" → P s') as Hs' by set_solver.
  case_decide as Ha; [by apply IH|].
  assert (P s) as HPs by set_solver.
  destruct (st !! Alias s) as [[first prev]|] eqn:E.
  - destruct (Hst _ _ _ E) as (s0 & Hs0 & Ha0 & ->).
    rewrite decide_True by (by apply HP). by apply IH.
  - apply IH; [done|]. intros a f e He.
    destruct (decide (a = Alias s)) as [->|Hne].
    + rewrite lookup_insert_eq in He. simplify_eq. eauto.
    + rewrite lookup_insert_ne in He by done. eauto.
Qed.

Lemma aliasJourneys_complete (P : Selector → Prop) set ids st :
  (∀ s1 s2, P s1 → P s2 → s1.(Alias) = s2.(Alias) →
     encodeOps s1.(Ops) = encodeOps s2.(Ops)) →
  (∀ s, aliased set ids s → P s) → alias_entries P st →
  aliasJourneys set ids st = Ok tt.
Proof.
  intros HP. revert st. induction ids as [|id ids IH]; simpl; intros st Hs Hst; [done|].
  destruct (aliasSelectors_complete P id (journey_at set id).(j_Tools) st HP)
    as (st' & -> & Hst'); [|done|].
  - intros s Hin Ha. apply Hs. exists id. set_solver.
  - simpl. apply IH; [|done]. intros s (id' & ? & ?). apply Hs. exists id'. set_solver.
Qed.

Lemma aliased_sorted set s :
  aliased set (sort_strings set.(set_order)) s ↔ aliased set set.(set_order) s.
Proof. unfold aliased. by setoid_rewrite elem_of_sort_strings. Qed.

Lemma checkAliasOps_iff_aux set :
  checkAliasOps set = Ok tt ↔
  ∀ s1 s2, aliased set set.(set_order) s1 → aliased set set.(set_order) s2 →
    s1.(Alias) = s2.(Alias) → encodeOps s1.(Ops) = encodeOps s2.(Ops).
Proof.
  unfold checkAliasOps. split.
  - intros (st & _ & Hst)%aliasJourneys_ok s1 s2 H1 H2 Ha.
    apply aliased_sorted in H1, H2.
    apply Hst in H1 as [f1 E1], H2 as [f2 E2]. congruence.
  - intros H. eapply (aliasJourneys_complete (aliased set set.(set_order))); [done| |].
    + intros s. apply aliased_sorted.
    + intros a f e He. by rewrite lookup_empty in He.
Qed.

Lemma conflictIn_first set key first ids p :
  first ≠ "" → policyOf set key first = Some p →
  conflictIn set key first ids = Ok tt ↔
  ∀ id q, id ∈ ids → policyOf set key id = Some q → q = p.
Proof.
  intros Hf Hp. induction ids as [|id ids IH]; simpl; [set_solver|].
  destruct (policyOf set key id) as [q|] eqn:Eq.
  - rewrite decide_False by done. rewrite Hp. case_decide as Hd.
    + rewrite IH. simplify_eq. set_unfold. naive_solver.
    + split; [done|]. intros H. destruct Hd. f_equal. apply (H id); [set_solver|done].
  - rewrite IH. set_unfold. naive_solver.
Qed.

Lemma conflictIn_start set key ids :
  "" ∉ ids →
  conflictIn set key "" ids = Ok tt ↔
  ∀ id1 id2 p1 p2, id1 ∈ ids → id2 ∈ ids → policyOf set key id1 = Some p1 →
    policyOf set key id2 = Some p2 → p1 = p2.
Proof.
  induction ids as [|id ids IH]; simpl; intros Hne; [set_solver|].
  apply not_elem_of_cons in Hne as [Hid Hne].
  destruct (policyOf set key id) as [q|] eqn:Eq.
  - rewrite (conflictIn_first _ _ _ _ q) by done. split.
    + intros H id1 id2 p1 p2 [->|H1]%elem_of_cons [->|H2]%elem_of_cons E1 E2; simplify_eq;
        [done|symmetry; eauto|eauto|].
      transitivity q; [|symmetry]; eauto.
    + intros H id' q' Hid' Eq'. eapply (H id' id); set_solver.
  - rewrite IH by done. set_unfold. split; [|naive_solver].
    intros H id1 id2 p1 p2 [->|H1] [->|H2]; try congruence. eauto.
Qed.

Lemma conflictKeys_ok set ids keys :
  conflictKeys set ids keys = Ok tt ↔
  ∀ key, key ∈ keys → conflictIn set key "" ids = Ok tt.
Proof.
  induction keys as [|k keys IH]; simpl; [set_solver|].
  rewrite bind_ok. split.
  - intros ([] & H1 & H2) key [->|Hk]%elem_of_cons; [done|]. by apply IH.
  - intros H. exists tt. split; [set_solver|]. apply IH. set_solver.
Qed.

Lemma elem_of_policyKeys set ids key :
  key ∈ policyKeys set ids ↔ ∃ id, id ∈ ids ∧ is_Some (policyOf set key id).
Proof.
  unfold policyKeys. rewrite elem_of_sort_strings, elem_of_elements.
  rewrite elem_of_union_list. unfold policyOf. setoid_rewrite list_elem_of_fmap.
  setoid_rewrite <- elem_of_dom. naive_solver.
Qed.

Lemma checkPolicyConflicts_iff_aux set :
  "" ∉ set.(set_order) →
  checkPolicyConflicts set = Ok tt ↔
  ∀ key id1 id2 p1 p2, id1 ∈ set.(set_order) → id2 ∈ set.(set_order) →
    policyOf set key id1 = Some p1 → policyOf set key id2 = Some p2 → p1 = p2.
Proof.
  intros Hne. unfold checkPolicyConflicts. rewrite conflictKeys_ok. split.
  - intros H key id1 id2 p1 p2 H1 H2 E1 E2.
    assert (conflictIn set key "" (sort_strings set.(set_order)) = Ok tt) as Hk.
    { apply H, elem_of_policyKeys. exists id1. rewrite elem_of_sort_strings. eauto. }
    rewrite conflictIn_start in Hk by (by rewrite elem_of_sort_strings).
    by eapply (Hk id1 id2); rewrite ?elem_of_sort_strings.
  - intros H key _. apply conflictIn_start; [by rewrite elem_of_sort_strings|].
    intros id1 id2 p1 p2. rewrite !elem_of_sort_strings. apply H.
Qed.

(** The policy a single selector gives each of its keys. *)
Definition rawPolicy (s : Selector) : effectivePolicy :=
  {| ep_class := if decide (s.(SelClass) = "") then ClassEffectful else s.(SelClass);
     ep_approval := s.(ApprovalRequired) |}.
Definition selectorPolicy (s : Selector) : effectivePolicy := closePolicy (rawPolicy s).

Lemma mergeOps_lookup s ops out key :
  NoDup ops → (∀ k, k ∈ ops → out !! k = None) →
  fold_left (mergePolicy s) ops out !! key =
    if decide (key ∈ ops) then Some (rawPolicy s) else out !! key.
Proof.
  revert out. induction ops as [|k ops IH]; simpl; intros out Hnd Hout; [done|].
  apply NoDup_cons in Hnd as [Hk Hnd].
  assert (mergePolicy s out k = <[k := rawPolicy s]> out) as ->.
  { unfold mergePolicy. rewrite Hout by set_solver. done. }
  rewrite IH; [|done|].
  - destruct (decide (key = k)) as [->|Hne].
    + rewrite decide_False, decide_True, lookup_insert_eq by set_solver. done.
    + rewrite lookup_insert_ne by done. repeat case_decide; set_solver.
  - intros k' Hk'. rewrite lookup_insert_ne by set_solver. apply Hout. set_solver.
Qed.

Lemma mergeAll_lookup sels out key :
  NoDup (allOps sels) → (∀ k, k ∈ allOps sels → out !! k = None) →
  let m := fold_left (λ out s, fold_left (mergePolicy s) s.(Ops) out) sels out in
  (∀ s, s ∈ sels → key ∈ s.(Ops) → m !! key = Some (rawPolicy s)) ∧
  (key ∉ allOps sels → m !! key = out !! key).
Proof.
  simpl. revert out. induction sels as [|s sels IH]; intros out Hnd Hout; simpl.
  { split; [set_solver|done]. }
  unfold allOps in Hnd, Hout |- *. rewrite bind_cons in *. fold (allOps sels) in *.
  apply NoDup_app in Hnd as (Hnd1 & Hdis & Hnd2).
  destruct (IH (fold_left (mergePolicy s) s.(Ops) out) Hnd2) as [Hs Hn].
  { intros k Hk. rewrite mergeOps_lookup by set_solver.
    rewrite decide_False by set_solver. set_solver. }
  split.
  - intros s' [->|Hs']%elem_of_cons Hkey; [|eauto].
    rewrite Hn by set_solver. rewrite mergeOps_lookup by set_solver. by rewrite decide_True.
  - intros Hkey. rewrite Hn by set_solver. rewrite mergeOps_lookup by set_solver.
    by rewrite decide_False by set_solver.
Qed.

Lemma journeyPolicies_lookup j s key :
  NoDup (allOps j.(j_Tools)) → s ∈ j.(j_Tools) → key ∈ s.(Ops) →
  journeyPolicies j !! key = Some (selectorPolicy s).
Proof.
  intros Hnd Hs Hkey. unfold journeyPolicies. rewrite lookup_fmap.
  destruct (mergeAll_lookup j.(j_Tools) ∅ key Hnd) as [H _].
  { intros. apply lookup_empty. }
  by rewrite (H s Hs Hkey).
Qed.

(** ** Set-wide consistency: properties *)

(** [checkAliasOps] accepts a set exactly when any two selectors of its
    journeys with the same alias have the same encoded operation list. *)
Theorem checkAliasOps_iff (set : DefSet) :
  checkAliasOps set = Ok tt ↔
  ∀ s1 s2, aliased set set.(set_order) s1 → aliased set set.(set_order) s2 →
    s1.(Alias) = s2.(Alias) → encodeOps s1.(Ops) = encodeOps s2.(Ops).
Proof. apply checkAliasOps_iff_aux. Qed.

(** [checkPolicyConflicts] accepts a set exactly when every operation key
    has one effective policy (class and approval requirement) in all the
    journeys that select it with an op selector. *)
Theorem checkPolicyConflicts_iff (set : DefSet) :
  "" ∉ set.(set_order) →
  checkPolicyConflicts set = Ok tt ↔
  ∀ key id1 id2 p1 p2, id1 ∈ set.(set_order) → id2 ∈ set.(set_order) →
    policyOf set key id1 = Some p1 → policyOf set key id2 = Some p2 → p1 = p2.
Proof. apply checkPolicyConflicts_iff_aux. Qed.

Definition op_selector (alias class : string) (ops : list string) (approval : bool) : Selector :=
  {| Ops := ops; Tags := []; Alias := alias; ReadOnlyHint := false; SelClass := class;
     ApprovalRequired := approval |}.
Definition journey_with (id : string) (tools : list Selector) : Journey :=
  {| j_ID := id; j_Description := ""; j_Prompt := ""; j_Skills := []; j_Digest := "";
     j_Tools := tools; j_Deny := []; j_MaxTools := 15;
     j_ProductVersions := {| Min := ""; MaxExclusive := "" |};
     j_Catalog := example_catalog; j_Skill := "" |}.
Definition set_of (js : list Journey) : DefSet := {|
  set_catalog := example_catalog; set_conversationPrompt := ""; set_digest := "";
  set_order := j_ID <$> js; set_journeys := list_to_map ((λ j, (j.(j_ID), j)) <$> js);
  set_canonical := ∅; set_skillBytes := 0; set_skillFiles := 0; set_bundle := ∅ |}.

Definition agreeing_set : DefSet :=
  set_of [journey_with "b" [op_selector "x" "read_only" ["k1"; "k2"] false];
          journey_with "a" [op_selector "x" "read_only" ["k1"; "k2"] false]].
Definition conflicting_set : DefSet :=
  set_of [journey_with "b" [op_selector "x" "read_only" ["k1"] false];
          journey_with "a" [op_selector "y" "idempotent" ["k1"] false]].

Lemma checkPolicyConflicts_iff_witness :
  checkPolicyConflicts agreeing_set = Ok tt ∧
  checkPolicyConflicts conflicting_set = Err (PolicyConflict "k1" "a" "b") ∧
  ∀ p1 p2, policyOf agreeing_set "k1" "a" = Some p1 → policyOf agreeing_set "k1" "b" = Some p2 →
    p1 = p2.
Proof.
  split; [vm_compute; reflexivity|]. split; [vm_compute; reflexivity|].
  intros p1 p2.
  apply (proj1 (checkPolicyConflicts_iff agreeing_set
                  ltac:(apply contains_false; reflexivity))
               ltac:(vm_compute; reflexivity) "k1" "a" "b" p1 p2);
    apply contains_true; reflexivity.
Defined.

(** Operation keys without the byte [checkAliasOps] joins them with. *)
Definition ops_nul_free (set : DefSet) : Prop :=
  ∀ s, aliased set set.(set_order) s → Forall (λ op, lacks "000" op = true) s.(Ops).

(** What the comment on [checkPolicyConflicts] claims: in a set that passes
    both checks, one alias means one ordered operation list and one effective
    policy everywhere, so an alias conflict is always an operation-key
    conflict (for compiled tool lists whose keys contain no NUL byte). *)
Theorem alias_determines_policy (set : DefSet) (id1 id2 : string) (s1 s2 : Selector) :
  set_wf set → ops_nul_free set →
  (∀ id, id ∈ set.(set_order) →
     tools_ok set.(set_catalog) (journey_at set id).(j_Deny) (journey_at set id).(j_Tools)) →
  checkAliasOps set = Ok tt → checkPolicyConflicts set = Ok tt →
  id1 ∈ set.(set_order) → id2 ∈ set.(set_order) →
  s1 ∈ (journey_at set id1).(j_Tools) → s2 ∈ (journey_at set id2).(j_Tools) →
  s1.(Alias) ≠ "" → s1.(Alias) = s2.(Alias) →
  s1.(Ops) = s2.(Ops) ∧ selectorPolicy s1 = selectorPolicy s2.
Proof.
  intros (_ & Hne & _) Hnul Htools Hal Hpol Hid1 Hid2 Hs1 Hs2 Ha Heq.
  assert (∀ id s, id ∈ set.(set_order) → s ∈ (journey_at set id).(j_Tools) →
            s.(Alias) ≠ "" → s.(Ops) ≠ []) as Hops.
  { intros id s Hid Hs Has. destruct (Htools id Hid) as (Hf & _).
    rewrite Forall_forall in Hf. destruct (Hf s Hs) as (_ & _ & [(?&_)|(_&_&_&_&?&_)]); done. }
  assert (aliased set set.(set_order) s1) as A1 by (exists id1; done).
  assert (aliased set set.(set_order) s2) as A2.
  { exists id2. split_and!; [done|done|by rewrite <- Heq]. }
  assert (s1.(Ops) = s2.(Ops)) as Heo.
  { eapply (join_inj "000"%char); [..|by apply (checkAliasOps_iff_aux set)]; eauto.
    by eapply Hops; [| |rewrite <- Heq]. }
  split; [done|].
  destruct s1.(Ops) as [|key ops] eqn:E; [by destruct (Hops id1 s1)|].
  destruct (Htools id1 Hid1) as (_ & Hnd1 & _), (Htools id2 Hid2) as (_ & Hnd2 & _).
  eapply (proj1 (checkPolicyConflicts_iff_aux set Hne) Hpol key id1 id2); [done|done|..];
    apply journeyPolicies_lookup; rewrite <- ?Heo, ?E; set_solver.
Qed.

Lemma agreeing_set_wf : set_wf agreeing_set.
Proof.
  split; [apply no_dup_b_true; reflexivity|]. split; [apply contains_false; reflexivity|].
  split.
  - intros id. split.
    + intros Hid. apply elem_of_cons in Hid as [->|Hid]; [by eexists|].
      apply elem_of_cons in Hid as [->|Hid]; [by eexists|]. by apply elem_of_nil in Hid.
    + intros [j Hj]. apply elem_of_list_to_map_2 in Hj. set_unfold in Hj.
      destruct Hj as (x & [= -> _] & [->|[->|[]]]); apply contains_true; reflexivity.
  - intros id j Hj. apply elem_of_list_to_map_2 in Hj. set_unfold in Hj.
    destruct Hj as (x & [= -> ->] & _); done.
Qed.

Lemma alias_determines_policy_witness :
  selectorPolicy (op_selector "x" "read_only" ["k1"; "k2"] false) =
  selectorPolicy (op_selector "x" "read_only" ["k1"; "k2"] false).
Proof.
  apply (alias_determines_policy agreeing_set "a" "b").
  - exact agreeing_set_wf.
  - intros s (id & Hid & Hs & _).
    repeat (apply elem_of_cons in Hid as [->|Hid]); try (by apply elem_of_nil in Hid);
      apply elem_of_cons in Hs as [->|Hs]; try (by apply elem_of_nil in Hs); repeat constructor.
  - intros id Hid. repeat (apply elem_of_cons in Hid as [->|Hid]); try (by apply elem_of_nil in Hid);
      (split; [apply Forall_singleton; split; [apply contains_true; reflexivity|];
               split; [done|]; left; split_and!; done|];
       split; [apply no_dup_b_true; reflexivity|]; split; [apply contains_false; reflexivity|];
       split; [intros key _ Hk; by apply elem_of_nil in Hk|apply no_dup_b_true; reflexivity]).
  - vm_compute. reflexivity.
  - vm_compute. reflexivity.
  - apply contains_true; reflexivity.
  - apply contains_true; reflexivity.
  - apply list_elem_of_here.
  - apply list_elem_of_here.
  - discriminate.
  - reflexivity.
Defined.

(** The NUL hypothesis above is needed: the separator of [checkAliasOps] is
    not escaped, so an alias may name the single operation [x<NUL>y] in one
    journey and the alternatives [x], [y] in another and still be accepted. *)
Theorem checkAliasOps_nul_confusion :
  let s1 := op_selector "a" "" [("x" +:+ nul +:+ "y")%string] false in
  let s2 := op_selector "a" "" ["x"; "y"] false in
  let set := set_of [journey_with "one" [s1]; journey_with "two" [s2]] in
  checkAliasOps set = Ok tt ∧ s1.(Alias) = s2.(Alias) ∧ s1.(Ops) ≠ s2.(Ops).
Proof. split; [vm_compute; reflexivity|]. split; [reflexivity|discriminate]. Qed.
