(* ===== verification/History.v ===== *)
(** * Trimming the history sent to a provider

    [internal/runtime/history.go]: before a provider request the oldest whole
    turns of the conversation are dropped until the estimate fits the budget.
    The theorem says what survives: the latest turn, every protected turn and
    never one half of a call and its result. *)
From S2P Require Import Prelude GoText Db.

(** ** Messages

    What the runtime reads and writes of the agent framework's messages; what
    it does neither with is one opaque text. *)
Record FunctionCall := mk_FunctionCall { fc_Name : string; fc_Arguments : string; fc_InformationalOnly : bool }.

(** The results the runtime puts into a history: the texts and error objects it
    makes itself, a reply of the user, a tool's answer; [VDecoded] is a result
    read back from a stored history. *)
Inductive value :=
| VText (text : string)
| VError (error message : string)
| VActivated (journey : string) (evicted : list string)
| VReply (reply : Reply)
| VAnswer (answer : string)
| VDecoded (text : string).

Inductive Content :=
| FunctionCallContent (CallID : string) (call : FunctionCall)
| FunctionResultContent (CallID : string) (result : value)
| TextContent (Text : string)
| OtherContent (rest : string).
Record Message := mk_Message { m_Role : string; m_Contents : list Content; m_rest : string }.
Definition RoleUser : string := "user".

Definition bytesPerToken : Z := 4.

Record Truncation := mk_Truncation {
  TurnsDropped : Z; MessagesDropped : Z; EstimateBefore : Z; EstimateAfter : Z; Budget : Z;
}.
Definition no_truncation : Truncation := mk_Truncation 0 0 0 0 0.

#[local] Set Default Proof Using "Type".

Section history.
(** [json.Marshal] of the framework's messages. *)
Context (marshal : list Message → option string).

Definition estimateTokens (history : list Message) : Z :=
  match marshal history with
  | None => 0
  | Some data => (slen data + bytesPerToken - 1) / bytesPerToken
  end.

(** ** Turns and units *)

(** [turnOf]: message [i] starts a turn when it is a user message and not the
    first message. *)
Fixpoint turns_from (first : bool) (turn : nat) (l : list Message) : list nat :=
  match l with
  | [] => []
  | m :: l =>
      let turn := if bool_decide (m.(m_Role) = RoleUser) && negb first then S turn else turn in
      turn :: turns_from false turn l
  end.
Definition turnOf (history : list Message) : list nat := turns_from true 0 history.
Definition turn_count (history : list Message) : nat := S (default 0%nat (last (turnOf history))).

(** [unit], [callTurn] and [keep]. *)
Record scan := mk_scan { sc_unit : list nat; sc_call : gmap string nat; sc_keep : list bool }.

(** [for t := from + 1; t <= turn; t++ { unit[t] = unit[from] }] *)
Definition join_turns (from turn : nat) (unit : list nat) : list nat :=
  imap (λ t u, if bool_decide (from < t ∧ t ≤ turn)%nat then unit !!! from else u) unit.

Definition scan_content (protected : string → bool) (turn : nat) (s : scan) (c : Content) : scan :=
  match c with
  | FunctionCallContent id _ =>
      mk_scan s.(sc_unit) (<[id := turn]> s.(sc_call))
        (if protected id then <[turn := true]> s.(sc_keep) else s.(sc_keep))
  | FunctionResultContent id _ =>
      match s.(sc_call) !! id with
      | Some from =>
          if bool_decide (from < turn)%nat
          then mk_scan (join_turns from turn s.(sc_unit)) s.(sc_call) s.(sc_keep) else s
      | None => s
      end
  | TextContent _ | OtherContent _ => s
  end.

Definition scan_message (protected : string → bool) (s : scan) (p : nat * Message) : scan :=
  foldl (scan_content protected p.1) s p.2.(m_Contents).

Definition scan_start (turns : nat) : scan :=
  mk_scan (seq 0 turns) ∅ (<[(turns - 1)%nat := true]> (replicate turns false)).

Definition scan_history (protected : string → bool) (history : list Message) : scan :=
  foldl (scan_message protected) (scan_start (turn_count history)) (zip (turnOf history) history).

(** [unitKept[u]] *)
Definition unit_kept (s : scan) (u : nat) : bool :=
  existsb (λ p, p.2 && bool_decide (p.1 = u)) (zip s.(sc_unit) s.(sc_keep)).

(** ** Dropping *)

(** [end] of the unit that starts at [start]. *)
Fixpoint unit_end (fuel : nat) (unit : list nat) (start e : nat) : nat :=
  match fuel with
  | O => e
  | S fuel =>
      if bool_decide (S e < length unit)%nat && bool_decide (unit !!! (S e) = unit !!! start)
      then unit_end fuel unit start (S e) else e
  end.

(** The messages that are not dropped. *)
Definition survivors (dropped : list bool) (history : list Message) : list Message :=
  snd <$> filter (λ p, p.1 = false) (zip dropped history).

Record progress := mk_progress {
  pr_dropped : list bool; pr_current : list Message; pr_estimate : Z; pr_turns : Z; pr_messages : Z;
}.

Definition drop_turns (turns_of : list nat) (start e : nat) (dropped : list bool) : list bool :=
  zip_with (λ t d, bool_decide (start ≤ t ∧ t ≤ e)%nat || d) turns_of dropped.
Definition turn_messages (turns_of : list nat) (start e : nat) : Z :=
  zlen (filter (λ t, start ≤ t ∧ t ≤ e)%nat turns_of).

(** The loop over units; [turns] iterations are enough, as every one ends at
    least one turn. *)
Fixpoint drop_loop (fuel : nat) (history : list Message) (budget : Z) (s : scan) (start : nat)
    (p : progress) : progress :=
  match fuel with
  | O => p
  | S fuel =>
      let turns := length s.(sc_unit) in
      if bool_decide (start < turns)%nat && (budget <? p.(pr_estimate)) then
        let e := unit_end turns s.(sc_unit) start start in
        let p :=
          if unit_kept s (s.(sc_unit) !!! start) then p
          else
            let dropped := drop_turns (turnOf history) start e p.(pr_dropped) in
            let current := survivors dropped history in
            mk_progress dropped current (estimateTokens current)
              (p.(pr_turns) + (Z.of_nat e - Z.of_nat start + 1))
              (p.(pr_messages) + turn_messages (turnOf history) start e) in
        drop_loop fuel history budget s (S e) p
      else p
  end.

Definition trimHistory (history : list Message) (budget : Z) (protected : string → bool)
    : list Message * Truncation :=
  if (budget <=? 0) || bool_decide (history = []) then (history, no_truncation)
  else
    let before := estimateTokens history in
    if before <=? budget then (history, no_truncation)
    else
      let s := scan_history protected history in
      let p := drop_loop (turn_count history) history budget s 0
                 (mk_progress (replicate (length history) false) history before 0 0) in
      if p.(pr_turns) =? 0 then (history, no_truncation)
      else (p.(pr_current), mk_Truncation p.(pr_turns) p.(pr_messages) before p.(pr_estimate) budget).

(** Which messages that call leaves out, by position: the caller compares the
    messages by identity. *)
Definition trim_dropped (history : list Message) (budget : Z) (protected : string → bool) : list bool :=
  let none := replicate (length history) false in
  if (budget <=? 0) || bool_decide (history = []) then none
  else
    let before := estimateTokens history in
    if before <=? budget then none
    else (drop_loop (turn_count history) history budget (scan_history protected history) 0
            (mk_progress none history before 0 0)).(pr_dropped).

(** ** Turns *)

Lemma length_turns f t l : length (turns_from f t l) = length l.
Proof. revert f t. induction l as [|m l IH]; intros f t; [done|]. simpl. by rewrite IH. Qed.

Lemma turns_ge f t l x : x ∈ turns_from f t l → (t ≤ x)%nat.
Proof.
  revert f t. induction l as [|m l IH]; intros f t; simpl; [by intros ?%elem_of_nil|].
  intros [->|Hx]%elem_of_cons; [|apply IH in Hx]; destruct (_ && _); lia.
Qed.

Lemma turns_mono f t l i j a b : turns_from f t l !! i = Some a → turns_from f t l !! j = Some b →
  (i ≤ j)%nat → (a ≤ b)%nat.
Proof.
  revert f t i j. induction l as [|m l IH]; intros f t [|i] [|j]; simpl; try done; try lia.
  - intros [= ->] [= ->]. lia.
  - intros [= <-] Hb _. by apply list_elem_of_lookup_2, turns_ge in Hb.
  - intros Ha Hb Hij. eapply IH; [exact Ha|exact Hb|lia].
Qed.

Lemma turn_bound history i t : turnOf history !! i = Some t → (t < turn_count history)%nat.
Proof.
  intros Ht. unfold turn_count. destruct (last (turnOf history)) as [x|] eqn:E.
  - simpl. rewrite last_lookup in E. assert (t ≤ x)%nat; [|lia].
    eapply (turns_mono _ _ _ i); [exact Ht|exact E|]. apply lookup_lt_Some in Ht. unfold turnOf in *. lia.
  - apply last_None in E. by rewrite E in Ht.
Qed.

(** ** The scan *)

(** The contents of the messages with their turns, in order. *)
Definition contents_of (p : nat * Message) : list (nat * Content) := (λ c, (p.1, c)) <$> p.2.(m_Contents).
Definition scan_event (protected : string → bool) (s : scan) (e : nat * Content) : scan :=
  scan_content protected e.1 s e.2.

Lemma scan_events protected s l :
  foldl (scan_message protected) s l = foldl (scan_event protected) s (l ≫= contents_of).
Proof.
  revert s. induction l as [|[t m] l IH]; intros s; [done|]. simpl. rewrite foldl_app, IH. f_equal.
  unfold scan_message, contents_of. simpl. clear. revert s.
  induction (m_Contents m) as [|c k IH]; intros s; [done|]. simpl. by rewrite IH.
Qed.

(** The state while turn [cur] is read. *)
Record scan_ok (n cur : nat) (s : scan) : Prop := {
  so_units : length s.(sc_unit) = n;
  so_keeps : length s.(sc_keep) = n;
  so_low : ∀ t, (t < n)%nat → (s.(sc_unit) !!! t ≤ t)%nat;
  so_mono : ∀ a b, (a ≤ b)%nat → (b < n)%nat → (s.(sc_unit) !!! a ≤ s.(sc_unit) !!! b)%nat;
  so_later : ∀ t, (cur < t)%nat → (t < n)%nat → s.(sc_unit) !!! t = t;
  so_calls : ∀ id f, s.(sc_call) !! id = Some f → (f ≤ cur)%nat;
}.

(** Turns that are joined stay joined, kept turns stay kept. *)
Definition joined (n : nat) (s s' : scan) : Prop :=
  (∀ a b, (a < n)%nat → (b < n)%nat → s.(sc_unit) !!! a = s.(sc_unit) !!! b →
     s'.(sc_unit) !!! a = s'.(sc_unit) !!! b) ∧
  (∀ t, s.(sc_keep) !! t = Some true → s'.(sc_keep) !! t = Some true).

#[export] Instance joined_preorder n : PreOrder (joined n).
Proof.
  split; [by split; auto|]. intros s1 s2 s3 [A1 B1] [A2 B2]. split; auto.
Qed.

Lemma join_lookup from turn l t : (t < length l)%nat →
  join_turns from turn l !!! t = if bool_decide (from < t ∧ t ≤ turn)%nat then l !!! from else l !!! t.
Proof.
  intros Ht. unfold join_turns. rewrite list_lookup_total_alt, list_lookup_imap.
  destruct (lookup_lt_is_Some_2 l t Ht) as [u Hu]. rewrite Hu. simpl.
  case_bool_decide; [done|]. by rewrite list_lookup_total_alt, Hu.
Qed.

Lemma scan_ok_later n cur t s : scan_ok n cur s → (cur ≤ t)%nat → scan_ok n t s.
Proof.
  intros [] Ht. split; try done.
  - intros x Hx. apply so_later0. lia.
  - intros id f Hf. specialize (so_calls0 id f Hf). lia.
Qed.

Lemma join_ok n t from s : scan_ok n t s → (from < t)%nat → (t < n)%nat →
  let s' := mk_scan (join_turns from t s.(sc_unit)) s.(sc_call) s.(sc_keep) in
  scan_ok n t s' ∧ joined n s s' ∧ s'.(sc_unit) !!! from = s'.(sc_unit) !!! t.
Proof.
  intros [Hu Hk Hlow Hm Hl Hc] Hf Ht s'.
  assert (∀ x, (x < n)%nat → s'.(sc_unit) !!! x =
    if bool_decide (from < x ∧ x ≤ t)%nat then s.(sc_unit) !!! from else s.(sc_unit) !!! x) as E.
  { intros x Hx. apply join_lookup. lia. }
  pose proof (Hlow from ltac:(lia)) as Hlf.
  split; [split|split]; simpl; try done.
  - unfold join_turns. by rewrite length_imap.
  - intros x Hx. change (join_turns from t (sc_unit s)) with (sc_unit s'). rewrite E by done.
    pose proof (Hlow x Hx). case_bool_decide; lia.
  - intros a b Hab Hb. change (join_turns from t (sc_unit s)) with (sc_unit s'). rewrite !E by lia.
    pose proof (Hm a b Hab Hb). do 2 case_bool_decide; try lia.
    + pose proof (Hm from b). lia.
    + pose proof (Hm a from). lia.
  - intros x Hx Hxn. change (join_turns from t (sc_unit s)) with (sc_unit s'). rewrite E by done.
    case_bool_decide; [lia|]. by apply Hl.
  - split; [|done]. intros a b Ha Hb Hab.
    change (join_turns from t (sc_unit s)) with (sc_unit s'). rewrite !E by done.
    assert (∀ x y, (x < n)%nat → (y < n)%nat → sc_unit s !!! x = sc_unit s !!! y → (from < y ∧ y ≤ t)%nat →
      ¬ (from < x ∧ x ≤ t)%nat → sc_unit s !!! x = sc_unit s !!! from) as Hin.
    { intros x y Hx Hy Hxy Hyr Hxr. destruct (decide (x ≤ from)%nat).
      - pose proof (Hm x from). pose proof (Hm from y). lia.
      - pose proof (Hl x). pose proof (Hlow y). lia. }
    do 2 case_bool_decide; [done| | |done].
    + symmetry. by apply (Hin b a).
    + by apply (Hin a b).
  - change (join_turns from t (sc_unit s)) with (sc_unit s'). rewrite !E by lia.
    rewrite bool_decide_eq_false_2, bool_decide_eq_true_2 by lia. done.
Qed.

Lemma scan_event_ok protected n cur s t c : scan_ok n cur s → (cur ≤ t)%nat → (t < n)%nat →
  let s' := scan_event protected s (t, c) in scan_ok n t s' ∧ joined n s s'.
Proof.
  intros Hs Ht Hn. apply (scan_ok_later _ _ t) in Hs; [|done]. unfold scan_event. simpl.
  destruct c as [id r|id r|r|r]; simpl.
  - destruct Hs as [Hu Hk Hlow Hm Hl Hc]. split; [split; simpl; try done|split; [done|]].
    + destruct (protected id); [by rewrite length_insert|done].
    + intros id' f. destruct (decide (id = id')) as [<-|Hne];
        [rewrite lookup_insert_eq; by intros [= <-]|rewrite lookup_insert_ne by done; apply Hc].
    + intros x Hx. simpl. destruct (protected id); [|done].
      destruct (decide (t = x)) as [<-|Hne]; [apply list_lookup_insert_eq; lia|by rewrite list_lookup_insert_ne].
  - destruct (sc_call s !! id) as [from|] eqn:E; [|by split].
    case_bool_decide; [|by split]. by destruct (join_ok n t from s) as (? & ? & _).
  - by split.
  - by split.
Qed.

(** Events in the order of their turns, all from [cur] on. *)
Fixpoint ordered (cur n : nat) (l : list (nat * Content)) : Prop :=
  match l with [] => True | e :: l => (cur ≤ e.1)%nat ∧ (e.1 < n)%nat ∧ ordered e.1 n l end.

Lemma scan_fold_ok protected n l : ∀ cur s, scan_ok n cur s → ordered cur n l →
  let s' := foldl (scan_event protected) s l in
  (∃ cur', scan_ok n cur' s' ∧ (∀ r, ordered cur n (l ++ r) → ordered cur' n r)) ∧ joined n s s'.
Proof.
  induction l as [|[t c] l IH]; intros cur s Hs Ho; simpl in *.
  - split; [by exists cur|reflexivity].
  - destruct Ho as (Hct & Htn & Ho). destruct (scan_event_ok protected n cur s t c Hs Hct Htn) as [Hs' Hj].
    destruct (IH t _ Hs' Ho) as [(cur' & Hok & Hr) Hj']. split; [|by etransitivity].
    exists cur'. split; [done|]. intros r (_ & _ & Hrest). by apply Hr.
Qed.

Lemma scan_start_ok n : (0 < n)%nat → scan_ok n 0 (scan_start n).
Proof.
  intros Hn. assert (∀ t, (t < n)%nat → seq 0 n !!! t = t) as E.
  { intros t Ht. rewrite list_lookup_total_alt, lookup_seq_lt by done. done. }
  split; simpl.
  - apply length_seq.
  - by rewrite length_insert, length_replicate.
  - intros t Ht. by rewrite E.
  - intros a b Hab Hb. rewrite !E by lia. lia.
  - intros t _ Ht. by apply E.
  - intros id f. by rewrite lookup_empty.
Qed.

Definition events_of (history : list Message) : list (nat * Content) :=
  zip (turnOf history) history ≫= contents_of.

Lemma ordered_weaken cur cur' n l : (cur ≤ cur')%nat → ordered cur' n l → ordered cur n l.
Proof. destruct l; simpl; [done|]. intros ? (? & ? & ?). split; [lia|done]. Qed.

Lemma ordered_contents t n m l : ordered t n l → (t < n)%nat → ordered t n (contents_of (t, m) ++ l).
Proof.
  intros Hl Ht. unfold contents_of. simpl. induction (m_Contents m) as [|c k IH]; [done|]. simpl. done.
Qed.

Lemma ordered_events f t0 n l : (∀ t, t ∈ turns_from f t0 l → (t < n)%nat) →
  ordered t0 n (zip (turns_from f t0 l) l ≫= contents_of).
Proof.
  revert f t0. induction l as [|m l IH]; intros f t0 Hb; [done|]. simpl in *.
  set (t := if (_ : bool) then S t0 else t0) in *.
  apply (ordered_weaken _ t); [unfold t; destruct (_ && _); lia|].
  apply ordered_contents; [|apply Hb, list_elem_of_here]. apply IH. intros x Hx. by apply Hb, elem_of_cons; right.
Qed.

Lemma events_ordered history : ordered 0 (turn_count history) (events_of history).
Proof.
  apply ordered_events. intros t [i Hi]%list_elem_of_lookup_1. by eapply turn_bound.
Qed.

Definition is_call (id : string) (c : Content) : bool :=
  match c with FunctionCallContent id' _ => bool_decide (id' = id) | _ => false end.
Definition is_result (id : string) (c : Content) : bool :=
  match c with FunctionResultContent id' _ => bool_decide (id' = id) | _ => false end.

Lemma call_kept protected id f s l : s.(sc_call) !! id = Some f → (∀ e, e ∈ l → is_call id e.2 = false) →
  (foldl (scan_event protected) s l).(sc_call) !! id = Some f.
Proof.
  revert s. induction l as [|[t c] l IH]; intros s Hf Hl; [done|]. simpl. apply IH.
  - specialize (Hl (t, c) (list_elem_of_here _ _)). unfold scan_event. simpl in *.
    destruct c as [id' r|id' r|r|r]; simpl in *.
    + gosimpl. by rewrite lookup_insert_ne.
    + destruct (sc_call s !! id'); [|done]. by case_bool_decide.
    + done.
    + done.
  - intros e He. apply Hl. by apply elem_of_cons; right.
Qed.

(** A call and the first result after it, with no other call of the same ID in
    between, end in one unit. *)
Lemma scan_pair protected n l1 ti c l2 tj d l3 id s0 :
  scan_ok n 0 s0 → ordered 0 n (l1 ++ (ti, c) :: l2 ++ (tj, d) :: l3) →
  is_call id c = true → is_result id d = true → (∀ e, e ∈ l2 → is_call id e.2 = false) →
  let s := foldl (scan_event protected) s0 (l1 ++ (ti, c) :: l2 ++ (tj, d) :: l3) in
  s.(sc_unit) !!! ti = s.(sc_unit) !!! tj.
Proof.
  intros Hs0 Ho Hc Hd Hl2 s.
  assert (s = foldl (scan_event protected)
    (scan_event protected (foldl (scan_event protected) s0 (l1 ++ (ti, c) :: l2)) (tj, d)) l3) as ->.
  { unfold s. by rewrite foldl_app; simpl; rewrite !foldl_app. }
  replace (l1 ++ (ti, c) :: l2 ++ (tj, d) :: l3) with ((l1 ++ (ti, c) :: l2) ++ (tj, d) :: l3) in Ho
    by (by rewrite <- app_assoc).
  assert (ordered 0 n (l1 ++ (ti, c) :: l2)) as Ho1.
  { clear -Ho. revert Ho. generalize (l1 ++ (ti, c) :: l2). intros l. generalize 0%nat.
    induction l as [|e l IH]; intros k; [done|]. simpl. naive_solver. }
  destruct (scan_fold_ok protected n _ _ _ Hs0 Ho1) as [(cur & Hs1 & Hr) _].
  destruct (Hr _ Ho) as (Hct & Htn & Ho3). set (s1 := foldl _ _ _) in *.
  assert (sc_call s1 !! id = Some ti) as Hcall.
  { unfold s1. rewrite foldl_app. simpl. apply call_kept; [|done]. unfold scan_event. simpl.
    destruct c as [id' r|id' r|r|r]; try done. simpl in Hc. gosimpl. apply lookup_insert_eq. }
  destruct (scan_event_ok protected n cur s1 tj d Hs1 Hct Htn) as [Hs2 _].
  destruct (scan_fold_ok protected n _ _ _ Hs2 Ho3) as [_ [Hj _]].
  pose proof (so_calls _ _ _ Hs1 _ _ Hcall) as Hti. simpl in Hct, Htn.
  apply Hj; [lia|lia|]. unfold scan_event. simpl. destruct d as [id' r|id' r|r|r]; try done. simpl in Hd. gosimpl. simpl.
  rewrite Hcall. case_bool_decide; [|by replace ti with tj by lia].
  apply (join_ok n tj ti s1); [by eapply scan_ok_later|done|done].
Qed.

(** ** What is kept *)

Lemma keep_protected protected n l1 t id r l2 s0 :
  scan_ok n 0 s0 → ordered 0 n (l1 ++ (t, FunctionCallContent id r) :: l2) → protected id = true →
  let s := foldl (scan_event protected) s0 (l1 ++ (t, FunctionCallContent id r) :: l2) in
  s.(sc_keep) !! t = Some true.
Proof.
  intros Hs0 Ho Hp s. assert (ordered 0 n l1) as Ho1.
  { clear -Ho. revert Ho. generalize 0%nat. induction l1 as [|e l IH]; intros k; [done|]. simpl. naive_solver. }
  destruct (scan_fold_ok protected n _ _ _ Hs0 Ho1) as [(cur & Hs1 & Hr) _].
  destruct (Hr _ Ho) as (Hct & Htn & Ho2).
  destruct (scan_event_ok protected n cur _ t (FunctionCallContent id r) Hs1 Hct Htn) as [Hs2 _].
  destruct (scan_fold_ok protected n _ _ _ Hs2 Ho2) as [_ [_ Hk]].
  unfold s. rewrite foldl_app. simpl. set (s1 := foldl _ s0 l1) in *. apply Hk. unfold scan_event. simpl. rewrite Hp.
  apply list_lookup_insert_eq. pose proof (so_keeps _ _ _ Hs1). simpl in *. lia.
Qed.

Lemma unit_kept_true s t u : s.(sc_unit) !! t = Some u → s.(sc_keep) !! t = Some true → unit_kept s u = true.
Proof.
  intros Hu Hk. unfold unit_kept. apply existsb_exists. exists (u, true). split.
  - apply list_elem_of_In, (list_elem_of_lookup_2 _ t). rewrite lookup_zip_with. by rewrite Hu; simpl; rewrite Hk.
  - simpl. by apply bool_decide_eq_true.
Qed.

(** ** The loop *)

Lemma unit_end_spec fuel U start e : (start ≤ e)%nat → (e < length U)%nat → (length U ≤ fuel + S e)%nat →
  (∀ t, (start ≤ t ∧ t ≤ e)%nat → U !!! t = U !!! start) →
  let e' := unit_end fuel U start e in
  (start ≤ e')%nat ∧ (e' < length U)%nat ∧ (∀ t, (start ≤ t ∧ t ≤ e')%nat → U !!! t = U !!! start) ∧
  (S e' = length U ∨ U !!! (S e') ≠ U !!! start).
Proof.
  revert e. induction fuel as [|fuel IH]; intros e He Hel Hf Heq; simpl.
  - split_and!; [done..|]. left. lia.
  - destruct (bool_decide _ && bool_decide _) eqn:E.
    + gosimpl. apply IH; [lia|done|lia|]. intros t Ht. destruct (decide (t = S e)) as [->|]; [done|].
      apply Heq. lia.
    + split_and!; [done..|]. apply andb_false_iff in E as [E|E]; gosimpl; [left; lia|by right].
Qed.

(** Before unit boundary [start] what can be dropped is dropped, and nothing
    from there on. *)
Definition dropped_before (s : scan) (start t : nat) : bool :=
  bool_decide (t < start)%nat && negb (unit_kept s (s.(sc_unit) !!! t)).

Definition boundary (s : scan) (start : nat) : Prop :=
  ∀ a b, (a < start)%nat → (start ≤ b)%nat → (b < length s.(sc_unit))%nat → s.(sc_unit) !!! a ≠ s.(sc_unit) !!! b.

Definition count_true (l : list bool) : Z := foldr (λ (b : bool) n, if b then n + 1 else n) 0 l.

Record loop_ok (history : list Message) (s : scan) (start : nat) (p : progress) : Prop := {
  lo_boundary : boundary s start;
  lo_dropped : p.(pr_dropped) = dropped_before s start <$> turnOf history;
  lo_current : p.(pr_current) = survivors p.(pr_dropped) history;
  lo_estimate : p.(pr_estimate) = estimateTokens p.(pr_current);
  lo_messages : p.(pr_messages) = count_true p.(pr_dropped);
  lo_turns : 0 <= p.(pr_turns) ∧ (p.(pr_turns) = 0 → p.(pr_dropped) = replicate (length history) false);
}.

Lemma count_drop (P : nat → bool) (lo hi : nat) (l : list nat) :
  (∀ t, (lo ≤ t ∧ t ≤ hi)%nat → P t = false) →
  count_true ((λ t, bool_decide (lo ≤ t ∧ t ≤ hi)%nat || P t) <$> l) =
  count_true (P <$> l) + zlen (filter (λ t, lo ≤ t ∧ t ≤ hi)%nat l).
Proof.
  intros HP. unfold count_true, zlen. induction l as [|t l IH]; [done|].
  rewrite !fmap_cons, filter_cons. cbn [foldr]. rewrite IH. case_bool_decide as Ht.
  - rewrite (HP t Ht), decide_True by done. cbn [orb length]. lia.
  - rewrite decide_False by done. cbn [orb]. destruct (P t); lia.
Qed.

Lemma drop_step s start e t : (start ≤ e)%nat →
  (∀ x, (start ≤ x ∧ x ≤ e)%nat → s.(sc_unit) !!! x = s.(sc_unit) !!! start) →
  dropped_before s (S e) t =
  if unit_kept s (s.(sc_unit) !!! start) then dropped_before s start t
  else bool_decide (start ≤ t ∧ t ≤ e)%nat || dropped_before s start t.
Proof.
  intros He Heq. unfold dropped_before. destruct (decide (start ≤ t ∧ t ≤ e)%nat) as [Ht|Ht].
  - rewrite (Heq t Ht). rewrite (bool_decide_eq_true_2 (t < S e)%nat) by lia.
    rewrite (bool_decide_eq_false_2 (t < start)%nat) by lia. rewrite (bool_decide_eq_true_2 (_ ∧ _)) by done.
    by destruct (unit_kept _ _).
  - rewrite (bool_decide_eq_false_2 (_ ∧ _)) by done.
    assert (bool_decide (t < S e)%nat = bool_decide (t < start)%nat) as -> by (apply bool_decide_ext; lia).
    by destruct (unit_kept s (sc_unit s !!! start)).
Qed.

Lemma drop_loop_ok fuel history budget s n cur start p : scan_ok n cur s → (start ≤ n)%nat →
  (n ≤ fuel + start)%nat → loop_ok history s start p →
  ∃ stop, loop_ok history s stop (drop_loop fuel history budget s start p) ∧
    (stop = n ∨ (drop_loop fuel history budget s start p).(pr_estimate) <= budget).
Proof.
  intros Hs. revert start p. induction fuel as [|fuel IH]; intros start p Hn Hf Hp; simpl.
  - exists start. split; [done|]. left. lia.
  - rewrite (so_units _ _ _ Hs). destruct (bool_decide _ && _) eqn:Hgo.
    2:{ exists start. split; [done|]. apply andb_false_iff in Hgo as [Hgo|Hgo]; gosimpl; [left; lia|right; lia]. }
    gosimpl. rename select (start < n)%nat into Hlt.
    destruct (unit_end_spec n (sc_unit s) start start) as (He1 & He2 & Heq & Hend);
      [lia|by rewrite (so_units _ _ _ Hs)|rewrite (so_units _ _ _ Hs); lia|intros t Ht; by replace t with start by lia|].
    rewrite (so_units _ _ _ Hs) in He2, Hend. set (e := unit_end n (sc_unit s) start start) in *.
    assert (boundary s (S e)) as Hb.
    { intros a b Ha Hb Hbn Hab. rewrite (so_units _ _ _ Hs) in Hbn.
      destruct Hend as [|Hend]; [lia|]. apply Hend.
      pose proof (so_mono _ _ _ Hs a e ltac:(lia) ltac:(lia)) as M1.
      pose proof (so_mono _ _ _ Hs e (S e) ltac:(lia) ltac:(lia)) as M2.
      pose proof (so_mono _ _ _ Hs (S e) b ltac:(lia) ltac:(lia)) as M3.
      rewrite <- (Heq e) by lia. lia. }
    assert (∀ t, dropped_before s (S e) t =
      if unit_kept s (sc_unit s !!! start) then dropped_before s start t
      else bool_decide (start ≤ t ∧ t ≤ e)%nat || dropped_before s start t) as Hd by (intros t; by apply drop_step).
    apply IH; [lia|lia|]. destruct Hp as [_ Hdr Hcu Hes Hme Htu].
    destruct (unit_kept s (sc_unit s !!! start)) eqn:Hk.
    + split; try done. rewrite Hdr. apply list_fmap_ext. intros i t _. by rewrite Hd.
    + assert (drop_turns (turnOf history) start e (pr_dropped p) = dropped_before s (S e) <$> turnOf history) as E.
      { rewrite Hdr. unfold drop_turns. rewrite zip_with_fmap_r, zip_with_diag.
        apply list_fmap_ext. intros i t _. by rewrite Hd. }
      split; simpl; try done.
      * rewrite E, Hme, Hdr. unfold turn_messages. rewrite <- count_drop.
        -- f_equal. apply list_fmap_ext. intros i t _. by rewrite Hd.
        -- intros t Ht. unfold dropped_before. by rewrite bool_decide_eq_false_2 by lia.
      * destruct Htu as [Hz _]. split; [lia|]. intros. lia.
Qed.

Lemma survivors_none l : survivors (replicate (length l) false) l = l.
Proof.
  unfold survivors. induction l as [|m l IH]; [done|]. simpl. f_equal. exact IH.
Qed.

Lemma loop_start history s : loop_ok history s 0
  (mk_progress (replicate (length history) false) history (estimateTokens history) 0 0).
Proof.
  assert (dropped_before s 0 <$> turnOf history = replicate (length history) false) as E.
  { rewrite <- (length_turns true 0 history). unfold turnOf.
    induction (turns_from true 0 history) as [|t l IH]; [done|]. simpl. f_equal. exact IH. }
  split; simpl.
  - intros a b Ha. lia.
  - by rewrite E.
  - by rewrite survivors_none.
  - done.
  - unfold count_true. clear E. induction (length history) as [|k IH]; [done|exact IH].
  - done.
Qed.

(** ** The theorem *)

(** The two halves of one exchange: the call of [id] in message [i] and its
    result in the later message [j], with no other call of that ID up to there. *)
Definition exchange (history : list Message) (i j : nat) (id : string) : Prop :=
  ∃ h1 m1 h2 m2 h3, history = h1 ++ m1 :: h2 ++ m2 :: h3 ∧ i = length h1 ∧ j = (length h1 + S (length h2))%nat ∧
    (∃ c, c ∈ m1.(m_Contents) ∧ is_call id c = true) ∧
    (∃ d, d ∈ m2.(m_Contents) ∧ is_result id d = true) ∧
    (∀ m c, m ∈ h2 ++ [m2] → c ∈ m.(m_Contents) → is_call id c = false).

(** Message [i] lies in the unit of the latest turn or of a turn with a
    protected call. *)
Definition held (protected : string → bool) (history : list Message) (i : nat) : bool :=
  match turnOf history !! i with
  | Some t => let s := scan_history protected history in unit_kept s (s.(sc_unit) !!! t)
  | None => false
  end.

Lemma last_call id (l : list Content) c : c ∈ l → is_call id c = true →
  ∃ x c' y, l = x ++ c' :: y ∧ is_call id c' = true ∧ ∀ d, d ∈ y → is_call id d = false.
Proof.
  intros Hin Hc. induction l as [|a l IH] using rev_ind; [by apply elem_of_nil in Hin|].
  destruct (is_call id a) eqn:Ha.
  - exists l, a, []. split_and!; [done|done|]. by intros d ?%elem_of_nil.
  - apply elem_of_app in Hin as [Hin|Hin%list_elem_of_singleton]; [|congruence].
    destruct (IH Hin) as (x & c' & y & -> & Hc' & Hy). exists x, c', (y ++ [a]).
    split_and!; [by rewrite <- app_assoc|done|]. intros d [Hd|Hd%list_elem_of_singleton]%elem_of_app; [by apply Hy|congruence].
Qed.

Lemma zip_split {A B} (l : list A) (k1 : list B) y k2 : length l = length (k1 ++ y :: k2) →
  ∃ l1 x l2, l = l1 ++ x :: l2 ∧ length l1 = length k1 ∧ zip l (k1 ++ y :: k2) = zip l1 k1 ++ (x, y) :: zip l2 k2.
Proof.
  revert l. induction k1 as [|z k1 IH]; intros [|x l] Hl; try done.
  - by exists [], x, l.
  - injection Hl as Hl. destruct (IH l Hl) as (l1 & x' & l2 & -> & H1 & H2). exists (x :: l1), x', l2.
    simpl. by rewrite H1, H2.
Qed.

Lemma scan_history_events protected history :
  scan_history protected history = foldl (scan_event protected) (scan_start (turn_count history)) (events_of history).
Proof. apply scan_events. Qed.

Lemma turn_count_pos history : (0 < turn_count history)%nat.
Proof. unfold turn_count. lia. Qed.

Lemma scan_history_ok protected history : ∃ cur, scan_ok (turn_count history) cur (scan_history protected history).
Proof.
  rewrite scan_history_events.
  destruct (scan_fold_ok protected _ _ _ _ (scan_start_ok _ (turn_count_pos history)) (events_ordered history))
    as [(cur & Hok & _) _]. by exists cur.
Qed.

Lemma contents_split (t : nat) m x c y : m.(m_Contents) = x ++ c :: y →
  contents_of (t, m) = (pair t <$> x) ++ (t, c) :: (pair t <$> y).
Proof. intros E. unfold contents_of. simpl. by rewrite E, fmap_app. Qed.

Lemma exchange_unit protected history i j id ti tj : exchange history i j id →
  turnOf history !! i = Some ti → turnOf history !! j = Some tj →
  (scan_history protected history).(sc_unit) !!! ti = (scan_history protected history).(sc_unit) !!! tj.
Proof.
  clear marshal.
  intros (h1 & m1 & h2 & m2 & h3 & E & Ei & Ej & (c & Hc & Hcall) & (d & Hd & Hres) & Hno) Hti Htj.
  destruct (last_call id _ c Hc Hcall) as (x1 & c' & y1 & E1 & Hc' & Hy1).
  apply list_elem_of_split in Hd as (x2 & y2 & E2).
  pose proof (events_ordered history) as Ho. rewrite scan_history_events. unfold events_of in *.
  destruct (zip_split (turnOf history) h1 m1 (h2 ++ m2 :: h3)) as (t1 & u1 & r & Et & Hl1 & Hz).
  { unfold turnOf. by rewrite length_turns, E. }
  rewrite Et in Hti, Htj. rewrite E, Hz in *.
  destruct (zip_split r h2 m2 h3) as (t2 & u2 & t3 & -> & Hl2 & Hz2).
  { assert (length (turnOf (h1 ++ m1 :: h2 ++ m2 :: h3)) = length (h1 ++ m1 :: h2 ++ m2 :: h3)) as L
      by apply length_turns. rewrite Et, !length_app in L. simpl in L. lia. }
  rewrite Hz2 in *. subst i j. rewrite <- Hl1 in Hti, Htj. rewrite list_lookup_middle in Hti by done.
  injection Hti as ->. rewrite lookup_app_r, <- Hl2 in Htj by lia.
  replace (length t1 + S (length t2) - length t1)%nat with (S (length t2)) in Htj by lia. simpl in Htj.
  rewrite list_lookup_middle in Htj by done. injection Htj as ->.
  assert ((zip t1 h1 ++ (ti, m1) :: zip t2 h2 ++ (tj, m2) :: zip t3 h3) ≫= contents_of =
    ((zip t1 h1 ≫= contents_of) ++ (pair ti <$> x1)) ++ (ti, c') ::
    ((pair ti <$> y1) ++ (zip t2 h2 ≫= contents_of) ++ (pair tj <$> x2)) ++ (tj, d) ::
    ((pair tj <$> y2) ++ (zip t3 h3 ≫= contents_of))) as Eev.
  { rewrite bind_app, bind_cons, bind_app, bind_cons, (contents_split ti m1 _ _ _ E1), (contents_split tj m2 _ _ _ E2).
    repeat (rewrite <- app_assoc; simpl). done. }
  rewrite Eev in *. eapply (scan_pair protected _ _ _ _ _ _ _ _ id); [apply scan_start_ok, turn_count_pos|exact Ho|done|done|].
  intros e He. apply elem_of_app in He as [He|He%elem_of_app].
  - apply list_elem_of_fmap in He as (x & -> & Hx). by apply Hy1.
  - destruct He as [He|He].
    + apply list_elem_of_bind in He as ((t & m) & He & Hm). unfold contents_of in He. simpl in He.
      apply list_elem_of_fmap in He as (x & -> & Hx). apply list_elem_of_lookup_1 in Hm as [k Hk].
      apply lookup_zip_with_Some in Hk as (? & ? & [= <- <-] & _ & Hm).
      eapply Hno; [apply elem_of_app; left; by eapply list_elem_of_lookup_2|exact Hx].
    + apply list_elem_of_fmap in He as (x & -> & Hx). apply (Hno m2); [set_solver|]. rewrite E2. set_solver.
Qed.

(** A mask that drops what lies before unit boundary [stop] and is not held. *)
Section mask.
Context (protected : string → bool) (history : list Message) (stop : nat).
Let s : scan := scan_history protected history.
Let mask : list bool := dropped_before s stop <$> turnOf history.
Hypothesis Hb : boundary s stop.

Lemma mask_lookup i t : turnOf history !! i = Some t → mask !! i = Some (dropped_before s stop t).
Proof using. intros Ht. unfold mask. by rewrite list_lookup_fmap, Ht. Qed.

Lemma mask_held i t : turnOf history !! i = Some t → held protected history i = true → mask !! i = Some false.
Proof using.
  intros Ht Hh. rewrite (mask_lookup i t Ht). unfold held in Hh. rewrite Ht in Hh. unfold dropped_before.
  fold s in Hh. cbv zeta in Hh. by rewrite Hh, andb_false_r.
Qed.

Lemma unit_lookup t : (t < turn_count history)%nat → s.(sc_unit) !! t = Some (s.(sc_unit) !!! t).
Proof using.
  intros Ht. destruct (scan_history_ok protected history) as [cur Hok].
  apply list_lookup_lookup_total_lt. unfold s. by rewrite (so_units _ _ _ Hok).
Qed.

Lemma held_turn i t : turnOf history !! i = Some t → s.(sc_keep) !! t = Some true → held protected history i = true.
Proof using.
  intros Ht Hk. unfold held. rewrite Ht. eapply unit_kept_true; [|exact Hk].
  by eapply unit_lookup, turn_bound.
Qed.

Lemma held_last i t : turnOf history !! i = Some t → S t = turn_count history → held protected history i = true.
Proof using.
  intros Ht Hl. apply (held_turn i t Ht). unfold s. rewrite scan_history_events.
  destruct (scan_fold_ok protected _ _ _ _ (scan_start_ok _ (turn_count_pos history)) (events_ordered history))
    as [_ [_ Hk]]. apply Hk. unfold scan_start. cbn [sc_keep]. rewrite <- Hl.
  replace (S t - 1)%nat with t by lia. apply list_lookup_insert_eq. rewrite length_replicate. lia.
Qed.

Lemma held_protected i j m id r : history !! j = Some m → FunctionCallContent id r ∈ m.(m_Contents) →
  protected id = true → turnOf history !! i = turnOf history !! j → held protected history i = true.
Proof using.
  intros Hj Hin Hp Hij. assert (is_Some (turnOf history !! j)) as [t Ht].
  { apply lookup_lt_is_Some. unfold turnOf. rewrite length_turns. by eapply lookup_lt_Some. }
  apply (held_turn i t); [by rewrite Hij|]. unfold s. rewrite scan_history_events.
  assert ((t, FunctionCallContent id r) ∈ events_of history) as (l1 & l2 & E)%list_elem_of_split.
  { apply list_elem_of_bind. exists (t, m). split; [unfold contents_of; by apply list_elem_of_fmap_2|].
    apply (list_elem_of_lookup_2 _ j). by rewrite lookup_zip_with, Ht, Hj. }
  pose proof (events_ordered history) as Ho. rewrite E in *.
  by apply keep_protected with (n := turn_count history) (r := r); [apply scan_start_ok, turn_count_pos|..].
Qed.

Lemma mask_unit i j ti tj : turnOf history !! i = Some ti → turnOf history !! j = Some tj →
  s.(sc_unit) !!! ti = s.(sc_unit) !!! tj → mask !! i = mask !! j.
Proof using Hb.
  intros Hi Hj Hu. rewrite (mask_lookup i ti Hi), (mask_lookup j tj Hj). unfold dropped_before. rewrite Hu.
  destruct (scan_history_ok protected history) as [cur Hok].
  apply turn_bound in Hi, Hj. rewrite <- (so_units _ _ _ Hok) in Hi, Hj. fold s in Hi, Hj.
  destruct (decide (ti < stop)%nat), (decide (tj < stop)%nat).
  - by rewrite !bool_decide_eq_true_2.
  - destruct (Hb ti tj); [done|lia|done|done].
  - destruct (Hb tj ti); [done|lia|done|done].
  - by rewrite !bool_decide_eq_false_2.
Qed.

Lemma mask_oldest i j : (j ≤ i)%nat → mask !! i = Some true → mask !! j = Some true ∨ held protected history j = true.
Proof using.
  intros Hji Hi. unfold mask in Hi. rewrite list_lookup_fmap in Hi.
  destruct (turnOf history !! i) as [ti|] eqn:Hti; [|done]. injection Hi as Hi.
  assert (is_Some (turnOf history !! j)) as [tj Htj].
  { apply lookup_lt_is_Some. apply lookup_lt_Some in Hti. lia. }
  assert (tj ≤ ti)%nat as Hle by (eapply turns_mono; [exact Htj|exact Hti|done]).
  unfold dropped_before in Hi. gosimpl. rewrite (mask_lookup j tj Htj). unfold held. rewrite Htj. fold s. cbv zeta.
  unfold dropped_before. rewrite bool_decide_eq_true_2 by lia.
  destruct (unit_kept s (sc_unit s !!! tj)); [by right|by left].
Qed.

Lemma mask_all i : stop = turn_count history → mask !! i = Some false → held protected history i = true.
Proof using.
  intros Hst Hi. unfold mask in Hi. rewrite list_lookup_fmap in Hi.
  destruct (turnOf history !! i) as [t|] eqn:Ht; [|done]. injection Hi as Hi. unfold held. rewrite Ht. fold s. cbv zeta.
  unfold dropped_before in Hi. rewrite bool_decide_eq_true_2 in Hi by (rewrite Hst; by eapply turn_bound).
  by destruct (unit_kept s (sc_unit s !!! t)).
Qed.
End mask.
End history.

(** What a trim must respect: which messages are dropped, from which history,
    for which budget. *)
Record respects (protected : string → bool) (history : list Message) (dropped : list bool) : Prop := {
  rs_length : length dropped = length history;
  rs_latest : ∀ i t, turnOf history !! i = Some t → S t = turn_count history → dropped !! i = Some false;
  rs_protected : ∀ i j m id r, history !! j = Some m → FunctionCallContent id r ∈ m.(m_Contents) →
    protected id = true → (i < length history)%nat → turnOf history !! i = turnOf history !! j →
    dropped !! i = Some false;
  rs_whole : ∀ i j, turnOf history !! i = turnOf history !! j → dropped !! i = dropped !! j;
  rs_exchange : ∀ i j id, exchange history i j id → dropped !! i = dropped !! j;
  rs_oldest : ∀ i j, (j ≤ i)%nat → dropped !! i = Some true →
    dropped !! j = Some true ∨ held protected history j = true;
}.

Lemma mask_respects protected history stop : boundary (scan_history protected history) stop →
  respects protected history (dropped_before (scan_history protected history) stop <$> turnOf history).
Proof.
  intros Hb. split.
  - rewrite length_fmap. apply length_turns.
  - intros i t Ht Hl. eapply mask_held; [exact Ht|]. by eapply held_last.
  - intros i j m id r Hj Hin Hp Hi Hij.
    assert (is_Some (turnOf history !! i)) as [t Ht].
    { apply lookup_lt_is_Some. unfold turnOf. by rewrite length_turns. }
    eapply mask_held; [exact Ht|]. by eapply held_protected.
  - intros i j Hij. by rewrite !list_lookup_fmap, Hij.
  - intros i j id Hx. pose proof Hx as (h1 & m1 & h2 & m2 & h3 & E & Ei & Ej & _).
    assert (∀ k, (k < length history)%nat → is_Some (turnOf history !! k)) as Hs.
    { intros k Hk. apply lookup_lt_is_Some. unfold turnOf. by rewrite length_turns. }
    assert (length history = (length h1 + S (length h2 + S (length h3)))%nat) as L.
    { rewrite E, length_app. simpl. rewrite length_app. simpl. lia. }
    destruct (Hs i) as [ti Hti]; [lia|]. destruct (Hs j) as [tj Htj]; [lia|].
    eapply mask_unit; [exact Hb|exact Hti|exact Htj|]. exact (exchange_unit _ _ _ _ _ _ _ Hx Hti Htj).
  - intros i j. apply mask_oldest.
Qed.

(** C39 Trimming drops whole turns, oldest first: never the latest turn, never a
    turn with a protected call, never one half of a call and its result.  What
    it returns fits the budget unless everything left is held by the latest
    turn or a protected call, and the counts it reports are right. *)
Theorem trimHistory_keeps (marshal : list Message → option string) (history : list Message) (budget : Z)
    (protected : string → bool) (out : list Message) (tr : Truncation) :
  0 < budget → trimHistory marshal history budget protected = (out, tr) →
  ∃ dropped, out = survivors dropped history ∧ respects protected history dropped ∧
    (estimateTokens marshal out <= budget ∨
     ∀ i, dropped !! i = Some false → held protected history i = true) ∧
    tr.(MessagesDropped) = count_true dropped ∧
    (tr ≠ no_truncation → tr.(EstimateBefore) = estimateTokens marshal history ∧
       tr.(EstimateAfter) = estimateTokens marshal out ∧ tr.(Budget) = budget).
Proof.
  intros Hpos. unfold trimHistory. rewrite (proj2 (Z.leb_gt _ _)) by lia. cbn [orb].
  set (s := scan_history protected history).
  assert (∀ p stop, loop_ok marshal history s stop p → p.(pr_turns) = 0 →
    p.(pr_current) = history ∧ count_true p.(pr_dropped) = 0) as Hnone.
  { intros p stop [_ _ Hc _ _ [_ Ht]] Hz. specialize (Ht Hz). rewrite Hc, Ht, survivors_none.
    split; [done|]. unfold count_true. clear. by induction (length history). }
  assert (respects protected history (dropped_before s 0 <$> turnOf history) ∧
    survivors (dropped_before s 0 <$> turnOf history) history = history ∧
    count_true (dropped_before s 0 <$> turnOf history) = 0) as (Hr0 & Hs0 & Hc0).
  { pose proof (loop_start marshal history s) as L. split; [apply mask_respects, (lo_boundary _ _ _ _ _ L)|].
    rewrite <- (lo_dropped _ _ _ _ _ L), <- (lo_current _ _ _ _ _ L). simpl. by apply (Hnone _ 0%nat L). }
  destruct (bool_decide (history = [])) eqn:Hnil.
  { intros [= <- <-]. exists (dropped_before s 0 <$> turnOf history).
    split_and!; try done. right. gosimpl. done. }
  destruct (Z.leb_spec (estimateTokens marshal history) budget) as [Hfit|Hbig].
  { intros [= <- <-]. exists (dropped_before s 0 <$> turnOf history). split_and!; try done. by left. }
  destruct (scan_history_ok protected history) as [cur Hok].
  destruct (drop_loop_ok marshal (turn_count history) history budget s (turn_count history) cur 0
    (mk_progress (replicate (length history) false) history (estimateTokens marshal history) 0 0) Hok)
    as (stop & Hp & Hstop); [lia|lia|apply loop_start|].
  set (p := drop_loop _ _ _ _ _ _ _) in *. pose proof Hp as [Hb Hd Hc He Hm Ht].
  assert (respects protected history p.(pr_dropped) ∧
    (estimateTokens marshal p.(pr_current) <= budget ∨
     ∀ i, p.(pr_dropped) !! i = Some false → held protected history i = true)) as [Hr Hfit].
  { rewrite Hd at 1. split; [by apply mask_respects|]. destruct Hstop as [Hstop|Hstop].
    - right. intros i. rewrite Hd. by apply mask_all.
    - left. by rewrite <- He. }
  destruct (Z.eqb_spec p.(pr_turns) 0) as [Hz|Hz]; intros [= <- <-]; exists p.(pr_dropped).
  - destruct (Hnone p stop Hp Hz) as [Hcur Hcnt]. rewrite <- Hc, Hcur in *. by split_and!.
  - by split_and!.
Qed.

(** A history of two turns, of which a budget of four tokens admits one. *)
Definition demo_history : list Message :=
  [ mk_Message "user" [TextContent "list the invoices"] "";
    mk_Message "assistant" [FunctionCallContent "c1" (mk_FunctionCall "list" "{}" false)] "";
    mk_Message "tool" [FunctionResultContent "c1" (VAnswer "none")] "";
    mk_Message "user" [TextContent "thanks"] "" ].
Definition demo_marshal (l : list Message) : option string :=
  Some (String.concat "" ((λ m, m.(m_Role) +:+ "--------")%string <$> l)).

Lemma trimHistory_keeps_witness :
  trimHistory demo_marshal demo_history 4 (λ _, false) =
    (drop 3 demo_history, mk_Truncation 1 3 14 3 4) ∧
  ∃ dropped, drop 3 demo_history = survivors dropped demo_history ∧
    respects (λ _, false) demo_history dropped.
Proof.
  assert (trimHistory demo_marshal demo_history 4 (λ _, false) =
    (drop 3 demo_history, mk_Truncation 1 3 14 3 4)) as E by (vm_compute; reflexivity).
  split; [exact E|].
  destruct (trimHistory_keeps demo_marshal demo_history 4 (λ _, false) _ _ eq_refl E) as (dropped & H1 & H2 & _).
  exists dropped. split; assumption.
Defined.
