(* ===== verification/Resolve.v ===== *)
(** * Resolving a journey against a tool snapshot

    [internal/catalog/resolve.go]: which of the tools an endpoint advertised a
    journey may use, under which alias and class and with which approval
    requirement, and why a journey cannot be served at all.  The file holds the
    model and the declarative reading of it; [ResolveSpec] proves that the two
    agree. *)
From S2P Require Import Prelude GoText.
From S2P Require Import Selectors Journey.

(** A decoded JSON value ([any]), as far as the code tells values apart. *)
Inductive any :=
| AString (s : string)
| AList (l : list any)
| ABool (b : bool)
| AOther.

Record Descriptor := mk_Descriptor {
  d_Name : string; d_Description : string; d_InputSchema : string;
  d_Meta : gmap string any; d_ReadOnlyHint : bool; d_Raw : string;
}.

Record Snapshot := mk_Snapshot {
  sn_Digest : string; sn_ProductVersion : string; sn_EndpointID : string; sn_ServerVersion : string;
  sn_Tools : list Descriptor;
}.

Inductive Reason :=
| ReasonMissing
| ReasonAmbiguous
| ReasonCollision
| ReasonInvalidAlias
| ReasonMaxTools
| ReasonVersion
| ReasonPolicyConflict.

Record Unavailable := mk_Unavailable { u_Reason : Reason; u_Operation : string }.

#[export] Instance Reason_eq_dec : EqDecision Reason.
Proof. solve_decision. Defined.
#[export] Instance Unavailable_eq_dec : EqDecision Unavailable.
Proof. solve_decision. Defined.

Record Tool := mk_Tool {
  t_Alias : string; t_OperationKey : string; t_RemoteName : string;
  t_Description : string; t_InputSchema : string;
  t_Class : PolicyClass; t_RequiresApproval : bool;
}.

Record Resolution := mk_Resolution {
  r_JourneyID : string; r_Tools : list Tool; r_Unavailable : list Unavailable;
}.

#[export] Instance Tool_eq_dec : EqDecision Tool.
Proof. solve_decision. Defined.

Definition Available (r : Resolution) : bool := bool_decide (r.(r_Unavailable) = []).

Definition defaultMaxTools : Z := 15.

(** ** Selections *)

Record selection := mk_selection {
  opClass : PolicyClass; opAlias : string; fromOp : bool; approval : bool;
}.
Definition zero_selection : selection := mk_selection "" "" false false.

(** [selection.alias] and [selection.class]. *)
Definition sel_alias (s : selection) (key : string) : string :=
  if s.(fromOp) && negb (bool_decide (s.(opAlias) = "")) then s.(opAlias) else (AliasFor key).1.
Definition sel_class (s : selection) : PolicyClass :=
  if s.(fromOp) && negb (bool_decide (s.(opClass) = "")) then s.(opClass) else ClassEffectful.

(** What a matching selector adds to a tool's selection. *)
Definition merge_selection (s : Selector) (next : selection) : selection :=
  let approval := next.(approval) || s.(ApprovalRequired) in
  if negb (bool_decide (s.(Ops) = [])) then mk_selection s.(SelClass) s.(Alias) true approval
  else mk_selection next.(opClass) next.(opAlias) next.(fromOp) approval.

Definition hasAllTags (meta : gmap string any) (want : list string) : bool :=
  let have := match meta !! "tags" with
    | Some (AList l) => omap (λ v, match v with AString t => Some t | _ => None end) l
    | _ => [] end in
  forallb (λ t, contains t have) want.

(** ** The resolution *)

(** [selected], [keyTools] and [unavailable] while the selectors are read. *)
Record choice := mk_choice {
  ch_selected : gmap nat selection;
  ch_keyTools : gmap string (gset nat);
  ch_unavailable : list Unavailable;
}.

Definition add_reason (reason : Reason) (operation : string) (l : list Unavailable) : list Unavailable :=
  let u := mk_Unavailable reason operation in if contains u l then l else l ++ [u].

Definition add_choice (reason : Reason) (operation : string) (c : choice) : choice :=
  mk_choice c.(ch_selected) c.(ch_keyTools) (add_reason reason operation c.(ch_unavailable)).

(** The key under which a tool can be selected: a non-empty string that is not
    denied; [""] otherwise. *)
Definition tool_key (deny : list string) (metaKey : string) (d : Descriptor) : string :=
  match d.(d_Meta) !! metaKey with
  | Some (AString key) => if negb (bool_decide (key = "")) && negb (contains key deny) then key else ""
  | _ => ""
  end.

(** [byKey] *)
Definition index_keys (keys : list string) : gmap string (list nat) :=
  foldl (λ m p, if bool_decide (p.2 = "") then m else <[p.2 := default [] (m !! p.2) ++ [p.1]]> m)
    ∅ (imap pair keys).

Definition hint_ok (s : Selector) (d : Descriptor) : bool := negb s.(ReadOnlyHint) || d.(d_ReadOnlyHint).

Definition choose (keys : list string) (index : nat) (s : Selector) (c : choice) : choice :=
  let key := keys !!! index in
  mk_choice
    (<[index := merge_selection s (default zero_selection (c.(ch_selected) !! index))]> c.(ch_selected))
    (<[key := {[index]} ∪ default ∅ (c.(ch_keyTools) !! key)]> c.(ch_keyTools))
    c.(ch_unavailable).

Definition hint_at (tools : list Descriptor) (s : Selector) (index : nat) : bool :=
  from_option (hint_ok s) false (tools !! index).

(** The indexes of the tools an alternative of an operation selector offers. *)
Definition op_candidates (tools : list Descriptor) (byKey : gmap string (list nat)) (s : Selector)
    (op : string) : list nat :=
  filter (λ i, hint_at tools s i = true) (default [] (byKey !! op)).

(** The first alternative with a candidate; [None] when there is none. *)
Fixpoint op_alternatives (tools : list Descriptor) (keys : list string) (byKey : gmap string (list nat))
    (s : Selector) (ops : list string) (c : choice) : option choice :=
  match ops with
  | [] => None
  | op :: ops =>
      match op_candidates tools byKey s op with
      | [] => op_alternatives tools keys byKey s ops c
      | [index] => Some (choose keys index s c)
      | _ => Some (add_choice ReasonAmbiguous op c)
      end
  end.

Definition op_selector (tools : list Descriptor) (keys : list string) (byKey : gmap string (list nat))
    (c : choice) (s : Selector) : choice :=
  if bool_decide (s.(Ops) = []) then c
  else match op_alternatives tools keys byKey s s.(Ops) c with
       | Some c' => c'
       | None => add_choice ReasonMissing (hd "" s.(Ops)) c
       end.

Definition tag_matches (keys : list string) (s : Selector) (index : nat) (d : Descriptor) : bool :=
  negb (bool_decide (keys !!! index = "")) && hint_ok s d && hasAllTags d.(d_Meta) s.(Tags).

Definition tag_selector (tools : list Descriptor) (keys : list string) (c : choice) (s : Selector) : choice :=
  if negb (bool_decide (s.(Ops) = [])) || bool_decide (s.(Tags) = []) then c
  else foldl (λ c p, if tag_matches keys s p.1 p.2 then choose keys p.1 s c else c) c (imap pair tools).

(** The loops over [selectedKeys]. *)
Definition ambiguous_keys (keyTools : gmap string (gset nat)) (selectedKeys : list string)
    (l : list Unavailable) : list Unavailable :=
  foldl (λ l key, if (1 <? Z.of_nat (size (default ∅ (keyTools !! key)))) then add_reason ReasonAmbiguous key l else l)
    l selectedKeys.

Definition alias_step (selected : gmap nat selection) (key : string)
    (st : gmap string string * list Unavailable) (index : nat) : gmap string string * list Unavailable :=
  let '(aliasOwner, l) := st in
  let alias := sel_alias (default zero_selection (selected !! index)) key in
  if negb (ValidAlias alias) then (aliasOwner, add_reason ReasonInvalidAlias key l)
  else if IsReservedToolName alias then (aliasOwner, add_reason ReasonCollision alias l)
  else
    (<[alias := key]> aliasOwner,
     match aliasOwner !! alias with
     | Some owner => if bool_decide (owner = key) then l else add_reason ReasonCollision alias l
     | None => l
     end).

Definition sort_ints (X : gset nat) : list nat := merge_sort le (elements X).

Definition check_aliases (selected : gmap nat selection) (keyTools : gmap string (gset nat))
    (selectedKeys : list string) (l : list Unavailable) : list Unavailable :=
  (foldl (λ st key, foldl (alias_step selected key) st (sort_ints (default ∅ (keyTools !! key))))
    (∅, l) selectedKeys).2.

Definition max_tools (journey : Journey) : Z :=
  if journey.(j_MaxTools) <=? 0 then defaultMaxTools else journey.(j_MaxTools).

Definition make_tool (key : string) (d : Descriptor) (sel : selection) : Tool :=
  mk_Tool (sel_alias sel key) key d.(d_Name) d.(d_Description) d.(d_InputSchema) (sel_class sel)
    (negb (bool_decide (sel_class sel = ClassReadOnly)) || sel.(approval)).

Definition alias_le (a b : Tool) : Prop := String.le a.(t_Alias) b.(t_Alias).
#[export] Instance alias_le_dec a b : Decision (alias_le a b).
Proof. unfold alias_le. apply _. Defined.

(** [range selected]: Go visits a map in any order; the sort by alias that
    follows makes the order irrelevant. *)
Definition selected_tools (tools : list Descriptor) (keys : list string) (selected : gmap nat selection)
    : list Tool :=
  omap (λ p, d ← tools !! p.1; Some (make_tool (keys !!! p.1) d p.2)) (map_to_list selected).

Definition Resolve (journey : Journey) (snapshot : Snapshot) (metaKey : string) : Resolution :=
  if negb (IsZero journey.(j_ProductVersions)) &&
     negb (Contains journey.(j_ProductVersions) snapshot.(sn_ProductVersion))
  then mk_Resolution journey.(j_ID) [] [mk_Unavailable ReasonVersion ""]
  else
    let tools := snapshot.(sn_Tools) in
    let keys := tool_key journey.(j_Deny) metaKey <$> tools in
    let byKey := index_keys keys in
    let c := foldl (op_selector tools keys byKey) (mk_choice ∅ ∅ []) journey.(j_Tools) in
    let c := foldl (tag_selector tools keys) c journey.(j_Tools) in
    let selectedKeys := sort_strings (elements (dom c.(ch_keyTools))) in
    let l := ambiguous_keys c.(ch_keyTools) selectedKeys c.(ch_unavailable) in
    let l := check_aliases c.(ch_selected) c.(ch_keyTools) selectedKeys l in
    let l := if max_tools journey <? Z.of_nat (size c.(ch_selected)) then add_reason ReasonMaxTools "" l else l in
    match l with
    | [] => mk_Resolution journey.(j_ID) (merge_sort alias_le (selected_tools tools keys c.(ch_selected))) []
    | _ => mk_Resolution journey.(j_ID) [] l
    end.

(** ** Policies across journeys *)

(** [policy] is the pair of a class and an approval requirement. *)
Definition policy_of (t : Tool) : string * bool := (t.(t_Class), t.(t_RequiresApproval)).

Definition note_policy (m : gmap string (gset (string * bool))) (name : string) (p : string * bool)
    : gmap string (gset (string * bool)) :=
  <[name := {[p]} ∪ default ∅ (m !! name)]> m.

(** [keyPolicies] and [aliasPolicies], for one way of naming a tool. *)
Definition collect_policies (name : Tool → string) (rs : list Resolution) : gmap string (gset (string * bool)) :=
  foldl (λ m r, if Available r then foldl (λ m t, note_policy m (name t) (policy_of t)) m r.(r_Tools) else m) ∅ rs.

Definition disagree (m : gmap string (gset (string * bool))) (name : string) : bool :=
  1 <? Z.of_nat (size (default ∅ (m !! name))).

Definition conflict_name (keyPolicies aliasPolicies : gmap string (gset (string * bool))) (t : Tool) : string :=
  if disagree keyPolicies t.(t_OperationKey) then t.(t_OperationKey)
  else if disagree aliasPolicies t.(t_Alias) then t.(t_Alias) else "".

Definition conflicts (keyPolicies aliasPolicies : gmap string (gset (string * bool))) (tools : list Tool)
    : list string :=
  foldl (λ l t, let name := conflict_name keyPolicies aliasPolicies t in
    if negb (bool_decide (name = "")) && negb (contains name l) then l ++ [name] else l) [] tools.

Definition check_policy (keyPolicies aliasPolicies : gmap string (gset (string * bool))) (r : Resolution) : Resolution :=
  if negb (Available r) then r
  else match conflicts keyPolicies aliasPolicies r.(r_Tools) with
       | [] => r
       | cs => mk_Resolution r.(r_JourneyID) [] (mk_Unavailable ReasonPolicyConflict <$> sort_strings cs)
       end.

Definition CheckPolicies (rs : list Resolution) : list Resolution :=
  check_policy (collect_policies t_OperationKey rs) (collect_policies t_Alias rs) <$> rs.

(** ** The declarative reading

    Which selectors take a tool, said without indexes, accumulators and order
    of evaluation. *)
Section reading.
Context (journey : Journey) (metaKey : string).
Abbreviation key_of := (tool_key journey.(j_Deny) metaKey).

(** The tools an alternative offers, and the first alternative that offers one. *)
Definition offers (tools : list Descriptor) (s : Selector) (op : string) : list Descriptor :=
  filter (λ d, op ≠ "" ∧ key_of d = op ∧ hint_ok s d = true) tools.
Definition winner (tools : list Descriptor) (s : Selector) : option string :=
  head (filter (λ op, offers tools s op ≠ []) s.(Ops)).

Definition takes (tools : list Descriptor) (s : Selector) (d : Descriptor) : bool :=
  match s.(Ops) with
  | [] => negb (bool_decide (s.(Tags) = [])) && negb (bool_decide (key_of d = "")) && hint_ok s d
            && hasAllTags d.(d_Meta) s.(Tags)
  | _ => match winner tools s with
         | Some op => bool_decide (key_of d = op) && hint_ok s d && bool_decide (length (offers tools s op) = 1%nat)
         | None => false
         end
  end.

(** Operation selectors are read before tag selectors. *)
Definition reading_order (l : list Selector) : list Selector :=
  filter (λ s, s.(Ops) ≠ []) l ++ filter (λ s, s.(Ops) = []) l.

Definition selection_step (tools : list Descriptor) (d : Descriptor) (o : option selection) (s : Selector)
    : option selection :=
  if takes tools s d then Some (merge_selection s (default zero_selection o)) else o.
Definition selection_of (tools : list Descriptor) (d : Descriptor) : option selection :=
  foldl (selection_step tools d) None (reading_order journey.(j_Tools)).

(** The tools of an available journey, in any order. *)
Definition chosen_tools (tools : list Descriptor) : list Tool :=
  omap (λ d, make_tool (key_of d) d <$> selection_of tools d) tools.

Definition alias_at (tools : list Descriptor) (d : Descriptor) (alias : string) : Prop :=
  ∃ sel, selection_of tools d = Some sel ∧ alias = sel_alias sel (key_of d).

(** Everything that can be wrong with a journey whose version is in range. *)
Inductive problem (tools : list Descriptor) : Unavailable → Prop :=
| problem_missing s : s ∈ journey.(j_Tools) → s.(Ops) ≠ [] → winner tools s = None →
    problem tools (mk_Unavailable ReasonMissing (hd "" s.(Ops)))
| problem_alternative s op : s ∈ journey.(j_Tools) → winner tools s = Some op →
    (1 < length (offers tools s op))%nat → problem tools (mk_Unavailable ReasonAmbiguous op)
| problem_key key :
    (1 < length (filter (λ d, is_Some (selection_of tools d) ∧ key_of d = key) tools))%nat →
    problem tools (mk_Unavailable ReasonAmbiguous key)
| problem_alias d alias : d ∈ tools → alias_at tools d alias → ValidAlias alias = false →
    problem tools (mk_Unavailable ReasonInvalidAlias (key_of d))
| problem_reserved d alias : d ∈ tools → alias_at tools d alias → ValidAlias alias = true →
    IsReservedToolName alias = true → problem tools (mk_Unavailable ReasonCollision alias)
| problem_collision d d' alias : d ∈ tools → d' ∈ tools → alias_at tools d alias → alias_at tools d' alias →
    key_of d ≠ key_of d' → ValidAlias alias = true → IsReservedToolName alias = false →
    problem tools (mk_Unavailable ReasonCollision alias)
| problem_many : max_tools journey < Z.of_nat (length (filter (λ d, is_Some (selection_of tools d)) tools)) →
    problem tools (mk_Unavailable ReasonMaxTools "").
End reading.
