(* ===== verification/ResolveSpec.v ===== *)
(** * Resolution does what its declarative reading says

    The loops of [Resolve] and [CheckPolicies] against the reading at the end
    of [Resolve.v]: what an available journey gets, exactly which problems make
    one unavailable, and that the order in which a server lists its tools
    changes neither. *)
From S2P Require Import Prelude GoText.
From S2P Require Import Selectors Journey Resolve.

#[local] Set Default Proof Using "Type".

(** ** Lists with their indexes *)

Lemma filter_ext_in {A} (P Q : A → Prop) `{∀ x, Decision (P x), ∀ x, Decision (Q x)} (l : list A) :
  (∀ x, x ∈ l → P x ↔ Q x) → filter P l = filter Q l.
Proof.
  induction l as [|x l IH]; intros Hl; [done|]. rewrite !filter_cons.
  assert (P x ↔ Q x) by (apply Hl, list_elem_of_here).
  rewrite IH by (intros; apply Hl; by apply elem_of_cons; right). repeat case_decide; naive_solver.
Qed.

Lemma filter_fmap_list {A B} (f : A → B) (P : B → Prop) `{∀ x, Decision (P x)} (l : list A) :
  filter P (f <$> l) = f <$> filter (λ x, P (f x)) l.
Proof.
  induction l as [|x l IH]; [done|]. rewrite fmap_cons, !filter_cons, IH. by destruct (decide (P (f x))).
Qed.

Lemma filter_filter_list {A} (P Q : A → Prop) `{∀ x, Decision (P x), ∀ x, Decision (Q x)} (l : list A) :
  filter P (filter Q l) = filter (λ x, P x ∧ Q x) l.
Proof.
  induction l as [|x l IH]; [done|]. rewrite (filter_cons Q), (filter_cons (λ x, P x ∧ Q x)).
  destruct (decide (Q x)); [rewrite filter_cons, IH; repeat case_decide; naive_solver|].
  rewrite IH. case_decide; naive_solver.
Qed.

Lemma imap_pair_seq {A} (l : list A) : fst <$> imap pair l = seq 0 (length l).
Proof.
  rewrite fmap_imap. apply list_eq. intros i. rewrite list_lookup_imap. unfold compose. simpl.
  destruct (l !! i) as [x|] eqn:E; simpl; symmetry.
  - apply lookup_seq. apply lookup_lt_Some in E. lia.
  - apply lookup_ge_None in E. apply lookup_seq_ge. lia.
Qed.

Lemma imap_pair_snd {A} (l : list A) : snd <$> imap pair l = l.
Proof.
  rewrite fmap_imap. apply list_eq. intros i. rewrite list_lookup_imap. unfold compose. simpl. by destruct (l !! i).
Qed.

Lemma elem_of_imap_pair {A} (l : list A) i x : (i, x) ∈ imap pair l ↔ l !! i = Some x.
Proof.
  rewrite elem_of_lookup_imap. split; [by intros (j & y & [= -> ->] & H)|]. intros H. by exists i, x.
Qed.

Lemma filter_imap_pair {A} (P : A → Prop) `{∀ x, Decision (P x)} (l : list A) :
  snd <$> filter (λ p, P p.2) (imap pair l) = filter P l.
Proof. by rewrite <- (imap_pair_snd l) at 2; rewrite filter_fmap_list. Qed.

Lemma filter_imap_NoDup {A} (P : nat * A → Prop) `{∀ x, Decision (P x)} (l : list A) :
  NoDup (fst <$> filter P (imap pair l)).
Proof.
  apply (sublist_NoDup _ (fst <$> imap pair l)); [rewrite imap_pair_seq; apply NoDup_seq|].
  by apply fmap_sublist, sublist_filter.
Qed.

Lemma elem_of_filter_imap {A} (P : nat * A → Prop) `{∀ x, Decision (P x)} (l : list A) i :
  i ∈ fst <$> filter P (imap pair l) ↔ ∃ x, l !! i = Some x ∧ P (i, x).
Proof.
  rewrite list_elem_of_fmap. split.
  - intros ([j x] & -> & [HP Hj]%list_elem_of_filter). exists x. split; [by apply elem_of_imap_pair|done].
  - intros (x & Hx & HP). exists (i, x). split; [done|]. apply list_elem_of_filter. split; [done|].
    by apply elem_of_imap_pair.
Qed.

Lemma foldl_skip {A B} (f : B → A → B) (P : A → Prop) `{∀ x, Decision (P x)} (l : list A) b :
  (∀ b x, ¬ P x → f b x = b) → foldl f b l = foldl f b (filter P l).
Proof.
  intros Hf. revert b. induction l as [|x l IH]; intros b; [done|]. simpl. rewrite filter_cons, IH.
  case_decide; [done|]. by rewrite Hf.
Qed.

(** ** Reasons *)

Lemma elem_of_add_reason u r o l : u ∈ add_reason r o l ↔ u = mk_Unavailable r o ∨ u ∈ l.
Proof.
  unfold add_reason. destruct (contains _ l) eqn:E.
  - apply contains_true in E. naive_solver.
  - rewrite elem_of_app, list_elem_of_singleton. naive_solver.
Qed.

Lemma NoDup_add_reason r o l : NoDup l → NoDup (add_reason r o l).
Proof.
  intros Hl. unfold add_reason. destruct (contains _ l) eqn:E; [done|]. apply contains_false in E.
  apply NoDup_app. split_and!; [done| |apply NoDup_singleton]. intros x Hx ->%list_elem_of_singleton. done.
Qed.

(** Folding in reasons for some elements adds exactly those. *)
Lemma fold_reasons {A} (b : A → bool) (r : Reason) (o : A → string) ks l : NoDup l →
  let l' := foldl (λ l k, if b k then add_reason r (o k) l else l) l ks in
  NoDup l' ∧ ∀ u, u ∈ l' ↔ u ∈ l ∨ ∃ k, k ∈ ks ∧ b k = true ∧ u = mk_Unavailable r (o k).
Proof.
  revert l. induction ks as [|k ks IH]; intros l Hl; cbn [foldl]; [split; [done|set_solver]|].
  destruct (IH (if b k then add_reason r (o k) l else l)) as [HN He]; [destruct (b k); [by apply NoDup_add_reason|done]|].
  split; [exact HN|]. intros u. rewrite He. clear. setoid_rewrite elem_of_cons.
  destruct (b k) eqn:E; [rewrite elem_of_add_reason|].
  - split.
    + intros [[->|?]|(k0 & ? & ? & ->)]; [right; exists k; by auto|by left|right; exists k0; by auto].
    + intros [?|(k0 & [->|?] & ? & ->)]; [left; by right|left; by left|right; exists k0; by auto].
  - split.
    + intros [?|(k0 & ? & ? & ->)]; [by left|right; exists k0; by auto].
    + intros [?|(k0 & [->|?] & ? & ->)]; [by left|congruence|right; exists k0; by auto].
Qed.

Section resolve.
Context (journey : Journey) (metaKey : string) (tools : list Descriptor).
Abbreviation key_of := (tool_key journey.(j_Deny) metaKey).
Abbreviation keys := (tool_key journey.(j_Deny) metaKey <$> tools).
Abbreviation byKey := (index_keys (tool_key journey.(j_Deny) metaKey <$> tools)).

(** ** Candidates *)

Lemma index_keys_fold (l : list (nat * string)) (m : gmap string (list nat)) (op : string) :
  default [] (foldl (λ m p, if bool_decide (p.2 = "") then m
    else <[p.2 := default [] (m !! p.2) ++ [p.1]]> m) m l !! op) =
  default [] (m !! op) ++ (fst <$> filter (λ p, op ≠ "" ∧ p.2 = op) l).
Proof.
  clear. revert m. induction l as [|[i k] l IH]; intros m; [by rewrite app_nil_r|]. cbn [foldl]. rewrite IH, filter_cons.
  simpl. case_bool_decide as Hk.
  - rewrite decide_False; [done|]. naive_solver.
  - destruct (decide (k = op)) as [->|Hne].
    + rewrite decide_True by done. rewrite lookup_insert_eq. simpl. by rewrite <- app_assoc.
    + rewrite decide_False by naive_solver. by rewrite lookup_insert_ne.
Qed.

Lemma keys_at i d : tools !! i = Some d → keys !!! i = key_of d.
Proof. intros Hd. by rewrite list_lookup_total_alt, list_lookup_fmap, Hd. Qed.

Lemma op_candidates_eq s op : op_candidates tools byKey s op =
  fst <$> filter (λ p, op ≠ "" ∧ key_of p.2 = op ∧ hint_ok s p.2 = true) (imap pair tools).
Proof.
  unfold op_candidates, index_keys. rewrite index_keys_fold, lookup_empty. simpl.
  assert (imap pair keys = (λ p, (p.1, key_of p.2)) <$> imap pair tools) as ->
    by (rewrite imap_fmap, fmap_imap; done).
  rewrite (filter_fmap_list (λ p : nat * Descriptor, (p.1, key_of p.2))), <- list_fmap_compose, filter_fmap_list.
  rewrite filter_filter_list. apply (f_equal (fmap fst)). apply filter_ext_in. intros [i d] Hd. simpl.
  apply elem_of_imap_pair in Hd. unfold hint_at. rewrite Hd. simpl. naive_solver.
Qed.

Lemma op_candidates_length s op :
  length (op_candidates tools byKey s op) = length (offers journey metaKey tools s op).
Proof.
  rewrite op_candidates_eq, length_fmap. unfold offers.
  rewrite <- (filter_imap_pair (λ d, op ≠ "" ∧ key_of d = op ∧ hint_ok s d = true)). by rewrite length_fmap.
Qed.

(** ** Choosing tools *)

Lemma choose_list s L c : NoDup L →
  let c' := foldl (λ c i, choose keys i s c) c L in
  (∀ i, c'.(ch_selected) !! i = if bool_decide (i ∈ L)
     then Some (merge_selection s (default zero_selection (c.(ch_selected) !! i))) else c.(ch_selected) !! i) ∧
  (∀ k i, i ∈ default ∅ (c'.(ch_keyTools) !! k) ↔ i ∈ default ∅ (c.(ch_keyTools) !! k) ∨ (i ∈ L ∧ keys !!! i = k)) ∧
  ((∀ k X, c.(ch_keyTools) !! k = Some X → X ≠ ∅) → ∀ k X, c'.(ch_keyTools) !! k = Some X → X ≠ ∅) ∧
  c'.(ch_unavailable) = c.(ch_unavailable).
Proof.
  revert c. induction L as [|j L IH]; intros c HN; cbn [foldl].
  { split_and!; [|set_solver|done|done]. intros i. rewrite bool_decide_eq_false_2; [done|apply not_elem_of_nil]. }
  apply NoDup_cons in HN as [Hj HN]. destruct (IH (choose keys j s c) HN) as (Hs & Hk & Hn & Hu).
  split_and!.
  - intros i. rewrite Hs. simpl. destruct (decide (i = j)) as [->|Hne].
    + rewrite bool_decide_eq_false_2 by done. rewrite bool_decide_eq_true_2 by apply list_elem_of_here.
      by rewrite lookup_insert_eq.
    + rewrite lookup_insert_ne by done. assert (i ∈ j :: L ↔ i ∈ L) as E by (rewrite elem_of_cons; naive_solver).
      by rewrite (bool_decide_ext _ _ E).
  - intros k i. rewrite Hk. simpl. destruct (decide (keys !!! j = k)) as [<-|Hne].
    + rewrite lookup_insert_eq. simpl. rewrite elem_of_union, elem_of_singleton, elem_of_cons. naive_solver.
    + rewrite lookup_insert_ne by done. rewrite elem_of_cons. naive_solver.
  - intros H0. apply Hn. intros k X. simpl. destruct (decide (keys !!! j = k)) as [<-|Hne].
    + rewrite lookup_insert_eq. intros [= <-]. set_solver.
    + rewrite lookup_insert_ne by done. apply H0.
  - by rewrite Hu.
Qed.

(** What has been chosen once the selectors [seen] were read. *)
Record choice_ok (seen : list Selector) (c : choice) : Prop := {
  co_selected : ∀ i, c.(ch_selected) !! i =
    (d ← tools !! i; foldl (selection_step journey metaKey tools d) None seen);
  co_keyTools : ∀ k i, i ∈ default ∅ (c.(ch_keyTools) !! k) ↔
    ∃ d, tools !! i = Some d ∧ key_of d = k ∧ is_Some (foldl (selection_step journey metaKey tools d) None seen);
  co_nonempty : ∀ k X, c.(ch_keyTools) !! k = Some X → X ≠ ∅;
}.

Lemma choose_ok seen s L c : choice_ok seen c → NoDup L →
  (∀ i, i ∈ L ↔ ∃ d, tools !! i = Some d ∧ takes journey metaKey tools s d = true) →
  choice_ok (seen ++ [s]) (foldl (λ c i, choose keys i s c) c L).
Proof.
  intros [Hs Hk Hn] HN HL. destruct (choose_list s L c HN) as (Hs' & Hk' & Hn' & _). split; [..|by apply Hn'].
  - intros i. rewrite Hs', Hs. case_bool_decide as Hi.
    + apply HL in Hi as (d & Hd & Ht). rewrite Hd. simpl. rewrite foldl_app. simpl. unfold selection_step at 2. by rewrite Ht.
    + destruct (tools !! i) as [d|] eqn:Hd; [|done]. simpl. rewrite foldl_app. simpl. unfold selection_step at 2.
      destruct (takes _ _ _ s d) eqn:Ht; [|done]. destruct Hi. apply HL. by exists d.
  - intros k i. rewrite Hk', Hk, HL. split.
    + intros [(d & Hd & Hkd & Hsel)|[(d & Hd & Ht) Hki]]; exists d; (split; [done|]); rewrite foldl_app; simpl;
        unfold selection_step at 1; [by destruct (takes _ _ _ s d)|]. rewrite Ht. split; [|done].
      by rewrite <- Hki, (keys_at _ _ Hd).
    + intros (d & Hd & Hkd & Hsel). rewrite foldl_app in Hsel. simpl in Hsel. unfold selection_step at 1 in Hsel.
      destruct (takes _ _ _ s d) eqn:Ht; [right|left; eauto]. split; [eauto|]. by rewrite (keys_at _ _ Hd).
Qed.

Lemma choice_ok_none seen s c : choice_ok seen c → (∀ d, d ∈ tools → takes journey metaKey tools s d = false) →
  choice_ok (seen ++ [s]) c.
Proof.
  intros Hc Ht. apply (choose_ok seen s [] c Hc); [constructor|]. intros i. split; [by intros ?%not_elem_of_nil|].
  intros (d & Hd & E). apply list_elem_of_lookup_2, Ht in Hd. congruence.
Qed.

Lemma choice_ok_add seen r o c : choice_ok seen c → choice_ok seen (add_choice r o c).
Proof. by intros [??]. Qed.

(** ** Operation selectors *)

(** What is wrong with one operation selector. *)
Inductive selector_problem (s : Selector) : Unavailable → Prop :=
| sp_missing : s.(Ops) ≠ [] → winner journey metaKey tools s = None →
    selector_problem s (mk_Unavailable ReasonMissing (hd "" s.(Ops)))
| sp_alternative op : winner journey metaKey tools s = Some op →
    (1 < length (offers journey metaKey tools s op))%nat →
    selector_problem s (mk_Unavailable ReasonAmbiguous op).

Lemma op_alternatives_eq s ops c : op_alternatives tools keys byKey s ops c =
  op ← head (filter (λ op, offers journey metaKey tools s op ≠ []) ops);
  Some (match op_candidates tools byKey s op with
        | [i] => choose keys i s c | _ => add_choice ReasonAmbiguous op c end).
Proof.
  induction ops as [|op ops IH]; [done|]. simpl. rewrite filter_cons.
  pose proof (op_candidates_length s op) as HL.
  destruct (op_candidates tools byKey s op) as [|i [|j L]] eqn:E.
  - symmetry in HL. apply nil_length_inv in HL. rewrite decide_False by naive_solver. exact IH.
  - rewrite decide_True; [simpl; by rewrite E|]. intros H0. by rewrite H0 in HL.
  - rewrite decide_True; [simpl; by rewrite E|]. intros H0. by rewrite H0 in HL.
Qed.

Lemma op_selector_ok seen s c : s.(Ops) ≠ [] → choice_ok seen c → NoDup c.(ch_unavailable) →
  let c' := op_selector tools keys byKey c s in
  choice_ok (seen ++ [s]) c' ∧ NoDup c'.(ch_unavailable) ∧
  ∀ u, u ∈ c'.(ch_unavailable) ↔ u ∈ c.(ch_unavailable) ∨ selector_problem s u.
Proof.
  intros Hne Hc HN. unfold op_selector. rewrite bool_decide_eq_false_2 by done. rewrite op_alternatives_eq.
  change (head (filter _ (Ops s))) with (winner journey metaKey tools s).
  assert (∀ d, takes journey metaKey tools s d = match winner journey metaKey tools s with
    | Some op => bool_decide (key_of d = op) && hint_ok s d && bool_decide (length (offers journey metaKey tools s op) = 1%nat)
    | None => false end) as Ht by (intros d; unfold takes; by destruct (Ops s)).
  destruct (winner journey metaKey tools s) as [op|] eqn:W; simpl.
  2:{ split_and!; [by apply choice_ok_add, choice_ok_none|by apply NoDup_add_reason|].
      intros u. rewrite elem_of_add_reason. split; [intros [->|?]; [right; by constructor|by left]|].
      intros [?|[]]; [by right|by left|congruence]. }
  pose proof (op_candidates_length s op) as HL.
  assert (op ∈ s.(Ops) ∧ offers journey metaKey tools s op ≠ []) as [_ Hoff].
  { unfold winner in W. apply head_Some_elem_of, list_elem_of_filter in W. naive_solver. }
  assert (∀ i, i ∈ op_candidates tools byKey s op ↔ ∃ d, tools !! i = Some d ∧ op ≠ "" ∧ key_of d = op ∧ hint_ok s d = true)
    as Hin by (intros i; rewrite op_candidates_eq; apply elem_of_filter_imap).
  destruct (op_candidates tools byKey s op) as [|i [|j L]].
  - symmetry in HL. by apply nil_length_inv in HL.
  - split_and!; [|done|].
    + apply (choose_ok seen s [i] c Hc); [apply NoDup_singleton|]. intros j. rewrite Hin.
      apply exist_proper. intros d. rewrite Ht, <- HL.
      rewrite !andb_true_iff, !bool_decide_eq_true. simpl. split; [naive_solver|].
      intros (Hd & (Hkd & Hh) & _). split_and!; [done| |done|done]. intros ->.
      destruct (proj1 (Hin i) (list_elem_of_here _ _)) as (? & _ & ? & _). done.
    + intros u. simpl. split; [by left|]. intros [?|[? W'|op' W' Hlt]]; [done|congruence|].
      rewrite W in W'. injection W' as <-. rewrite <- HL in Hlt. simpl in Hlt. lia.
  - split_and!; [apply choice_ok_add, choice_ok_none; [done|]|by apply NoDup_add_reason|].
    + intros d _. rewrite Ht, <- HL. simpl. by rewrite andb_false_r.
    + intros u. simpl. rewrite elem_of_add_reason. split.
      * intros [->|?]; [right|by left]. apply sp_alternative; [done|]. rewrite <- HL. simpl. lia.
      * intros [?|[? W'|op' W' Hlt]]; [by right|congruence|]. rewrite W in W'. injection W' as <-. by left.
Qed.

Lemma op_selectors_ok l : ∀ seen c, Forall (λ s, s.(Ops) ≠ []) l → choice_ok seen c → NoDup c.(ch_unavailable) →
  let c' := foldl (op_selector tools keys byKey) c l in
  choice_ok (seen ++ l) c' ∧ NoDup c'.(ch_unavailable) ∧
  ∀ u, u ∈ c'.(ch_unavailable) ↔ u ∈ c.(ch_unavailable) ∨ ∃ s, s ∈ l ∧ selector_problem s u.
Proof.
  induction l as [|s l IH]; intros seen c Hl Hc HN; cbn [foldl].
  { rewrite app_nil_r. split_and!; [done..|]. set_solver. }
  apply Forall_cons in Hl as [Hs Hl]. destruct (op_selector_ok seen s c Hs Hc HN) as (Hc1 & HN1 & Hu1).
  destruct (IH (seen ++ [s]) _ Hl Hc1 HN1) as (Hc2 & HN2 & Hu2). rewrite <- app_assoc in Hc2. split_and!; [done..|].
  intros u. rewrite Hu2, Hu1. setoid_rewrite elem_of_cons. naive_solver.
Qed.

(** ** Tag selectors *)

Lemma tag_fold s l c : foldl (λ c p, if tag_matches keys s p.1 p.2 then choose keys p.1 s c else c) c l =
  foldl (λ c i, choose keys i s c) c (fst <$> filter (λ p, tag_matches keys s p.1 p.2 = true) l).
Proof.
  revert c. induction l as [|[i d] l IH]; intros c; [done|]. cbn [foldl]. rewrite filter_cons, IH.
  simpl. destruct (tag_matches keys s i d); [rewrite decide_True by done|rewrite decide_False by done]; done.
Qed.

Lemma tag_selector_ok seen s c : s.(Ops) = [] → choice_ok seen c →
  let c' := tag_selector tools keys c s in
  choice_ok (seen ++ [s]) c' ∧ c'.(ch_unavailable) = c.(ch_unavailable).
Proof.
  intros He Hc. unfold tag_selector. rewrite (bool_decide_eq_true_2 _ He). simpl. case_bool_decide as Htags.
  - split; [|done]. apply choice_ok_none; [done|]. intros d _. unfold takes. by rewrite He, (bool_decide_eq_true_2 _ Htags).
  - rewrite tag_fold. set (L := fst <$> _). assert (NoDup L) as HN by apply filter_imap_NoDup.
    split; [|apply (choose_list s L c HN)]. apply choose_ok; [done..|]. intros i. unfold L.
    rewrite elem_of_filter_imap. apply exist_proper. intros d. unfold takes, tag_matches.
    rewrite He, (bool_decide_eq_false_2 _ Htags). simpl. split; intros [Hd H1]; (split; [done|]).
    + by rewrite (keys_at _ _ Hd) in H1.
    + by rewrite (keys_at _ _ Hd).
Qed.

Lemma tag_selectors_ok l : ∀ seen c, Forall (λ s, s.(Ops) = []) l → choice_ok seen c →
  let c' := foldl (tag_selector tools keys) c l in
  choice_ok (seen ++ l) c' ∧ c'.(ch_unavailable) = c.(ch_unavailable).
Proof.
  induction l as [|s l IH]; intros seen c Hl Hc; cbn [foldl]; [by rewrite app_nil_r|].
  apply Forall_cons in Hl as [Hs Hl]. destruct (tag_selector_ok seen s c Hs Hc) as [Hc1 E1].
  destruct (IH (seen ++ [s]) _ Hl Hc1) as [Hc2 E2]. rewrite <- app_assoc in Hc2. by rewrite E2.
Qed.

(** Both passes over the selectors. *)
Definition read_selectors : choice :=
  foldl (tag_selector tools keys) (foldl (op_selector tools keys byKey) (mk_choice ∅ ∅ []) journey.(j_Tools))
    journey.(j_Tools).

Lemma read_selectors_ok : choice_ok (reading_order journey.(j_Tools)) read_selectors ∧
  NoDup read_selectors.(ch_unavailable) ∧
  ∀ u, u ∈ read_selectors.(ch_unavailable) ↔ ∃ s, s ∈ journey.(j_Tools) ∧ s.(Ops) ≠ [] ∧ selector_problem s u.
Proof.
  unfold read_selectors.
  rewrite (foldl_skip (op_selector tools keys byKey) (λ s, s.(Ops) ≠ []))
    by (intros b s Hs; unfold op_selector; rewrite bool_decide_eq_true_2; [done|]; destruct (decide (Ops s = [])); naive_solver).
  rewrite (foldl_skip (tag_selector tools keys) (λ s, s.(Ops) = []))
    by (intros b s Hs; unfold tag_selector; by rewrite (bool_decide_eq_false_2 _ Hs)).
  destruct (op_selectors_ok (filter (λ s, s.(Ops) ≠ []) journey.(j_Tools)) [] (mk_choice ∅ ∅ [])) as (Hc & HN & Hu).
  - apply Forall_forall. intros s [? _]%list_elem_of_filter. done.
  - split; simpl.
    + intros i. rewrite lookup_empty. by destruct (tools !! i).
    + intros k i. rewrite lookup_empty. simpl. split; [set_solver|]. by intros (d & _ & _ & [? ?]).
    + intros k X. by rewrite lookup_empty.
  - constructor.
  - destruct (tag_selectors_ok (filter (λ s, s.(Ops) = []) journey.(j_Tools)) _ _
      ltac:(apply Forall_forall; intros s [? _]%list_elem_of_filter; done) Hc) as [Hc' E].
    split_and!; [exact Hc'|by rewrite E|]. intros u. rewrite E, Hu. cbn [ch_unavailable].
    setoid_rewrite list_elem_of_filter. split; [|naive_solver]. intros [?%not_elem_of_nil|(s & [? ?] & ?)]; naive_solver.
Qed.

(** ** What was chosen, as lists *)

Abbreviation sel_of := (selection_of journey metaKey tools).

Section chosen.
Context (c : choice) (Hc : choice_ok (reading_order journey.(j_Tools)) c).

Lemma selected_at i : c.(ch_selected) !! i = (d ← tools !! i; sel_of d).
Proof using Hc. apply (co_selected _ _ Hc). Qed.

Lemma selected_list : map_to_list c.(ch_selected) ≡ₚ
  omap (λ p, (λ s, (p.1, s)) <$> sel_of p.2) (imap pair tools).
Proof using Hc.
  apply NoDup_Permutation; [apply NoDup_map_to_list| |].
  - apply NoDup_fmap_1 with (f := fst).
    assert (∀ l : list (nat * Descriptor), (omap (λ p, (λ s, (p.1, s)) <$> sel_of p.2) l).*1 =
      fst <$> filter (λ p, is_Some (sel_of p.2)) l) as ->; [|apply filter_imap_NoDup].
    induction l as [|p l IH]; [done|]. simpl. rewrite filter_cons.
    destruct (sel_of p.2); simpl; [f_equal|]; exact IH.
  - intros [i s]. rewrite elem_of_map_to_list, selected_at, list_elem_of_omap. split.
    + intros (d & Hd & Hs)%bind_Some. exists (i, d). rewrite elem_of_imap_pair. simpl. by rewrite Hs.
    + intros ([j d] & Hd%elem_of_imap_pair & (s' & Hs & [= -> ->])%fmap_Some). simpl in *. by rewrite Hd.
Qed.

Lemma selected_size : size c.(ch_selected) = length (filter (λ d, is_Some (sel_of d)) tools).
Proof using Hc.
  rewrite <- length_map_to_list, selected_list.
  rewrite <- (filter_imap_pair (λ d, is_Some (sel_of d))), length_fmap.
  induction (imap pair tools) as [|p l IH]; [done|]. simpl. rewrite filter_cons.
  destruct (sel_of p.2); simpl; [f_equal|]; exact IH.
Qed.

Lemma selected_tools_perm : selected_tools tools keys c.(ch_selected) ≡ₚ chosen_tools journey metaKey tools.
Proof using Hc.
  unfold selected_tools. rewrite selected_list.
  assert (∀ l : list (nat * Descriptor), (∀ p, p ∈ l → tools !! p.1 = Some p.2) →
    omap (M := list) (λ p, d ← tools !! p.1; Some (make_tool (keys !!! p.1) d p.2))
      (omap (λ p, (λ s, (p.1, s)) <$> sel_of p.2) l) =
    omap (λ d, make_tool (key_of d) d <$> sel_of d) (snd <$> l)) as E.
  { induction l as [|[i d] l IH]; intros Hl; [done|]. simpl.
    assert (tools !! i = Some d) as Hd by exact (Hl (i, d) (list_elem_of_here _ _)).
    assert (∀ p, p ∈ l → tools !! p.1 = Some p.2) as Hl' by (intros p Hp; apply Hl; by apply elem_of_cons; right).
    specialize (IH Hl'). destruct (sel_of d); simpl; [|exact IH]. rewrite Hd. simpl.
    rewrite (keys_at _ _ Hd). f_equal. exact IH. }
  rewrite E; [by rewrite imap_pair_snd|]. intros [i d]. apply elem_of_imap_pair.
Qed.

Lemma key_members k i : i ∈ default ∅ (c.(ch_keyTools) !! k) ↔
  ∃ d, tools !! i = Some d ∧ key_of d = k ∧ is_Some (sel_of d).
Proof using Hc. apply (co_keyTools _ _ Hc). Qed.

Lemma key_size k : size (default ∅ (c.(ch_keyTools) !! k)) =
  length (filter (λ d, is_Some (sel_of d) ∧ key_of d = k) tools).
Proof using Hc.
  rewrite <- (filter_imap_pair (λ d, is_Some (sel_of d) ∧ key_of d = k)), length_fmap.
  rewrite <- (length_fmap fst). rewrite <- (size_list_to_set (C := gset nat)) by apply filter_imap_NoDup.
  f_equal. apply set_eq. intros i. rewrite key_members, elem_of_list_to_set, elem_of_filter_imap. naive_solver.
Qed.

Abbreviation selectedKeys := (sort_strings (elements (dom c.(ch_keyTools)))).

Lemma selected_keys k : k ∈ selectedKeys ↔ ∃ d, d ∈ tools ∧ key_of d = k ∧ is_Some (sel_of d).
Proof using Hc.
  rewrite elem_of_sort_strings, elem_of_elements, elem_of_dom. split.
  - intros [X HX]. pose proof (co_nonempty _ _ Hc k X HX) as Hne. apply set_choose_L in Hne as [i Hi].
    destruct (proj1 (key_members k i)) as (d & Hd & ?); [by rewrite HX|]. exists d.
    split; [by eapply list_elem_of_lookup_2|done].
  - intros (d & [i Hd]%list_elem_of_lookup_1 & Hk & Hs).
    assert (i ∈ default ∅ (c.(ch_keyTools) !! k)) as Hi by (apply key_members; eauto).
    destruct (c.(ch_keyTools) !! k); [by eexists|]. simpl in Hi. set_solver.
Qed.

Lemma ambiguous_keys_ok l : NoDup l → let l' := ambiguous_keys c.(ch_keyTools) selectedKeys l in
  NoDup l' ∧ ∀ u, u ∈ l' ↔ u ∈ l ∨ ∃ key,
    (1 < length (filter (λ d, is_Some (sel_of d) ∧ key_of d = key) tools))%nat ∧ u = mk_Unavailable ReasonAmbiguous key.
Proof using Hc.
  intros Hl. destruct (fold_reasons (λ key, 1 <? Z.of_nat (size (default ∅ (c.(ch_keyTools) !! key))))
    ReasonAmbiguous id selectedKeys l Hl) as [HN Hu]. split; [exact HN|]. intros u. etransitivity; [apply Hu|].
  apply or_iff_compat_l, exist_proper. intros key. rewrite key_size, Z.ltb_lt. unfold id.
  split; [intros (_ & ? & ->); split; [lia|done]|]. intros [Hlt ->]. split_and!; [|lia|done].
  apply selected_keys. destruct (filter _ tools) as [|d k] eqn:E; [simpl in Hlt; lia|].
  assert (d ∈ filter (λ d, is_Some (sel_of d) ∧ key_of d = key) tools) as [[? ?] ?]%list_elem_of_filter
    by (rewrite E; apply list_elem_of_here). eauto.
Qed.

(** ** Aliases *)

(** The pairs [check_aliases] visits, and the alias it reads for each. *)
Definition alias_pairs : list (string * nat) :=
  selectedKeys ≫= λ k, (λ i, (k, i)) <$> sort_ints (default ∅ (c.(ch_keyTools) !! k)).
Definition pair_alias (p : string * nat) : string :=
  sel_alias (default zero_selection (c.(ch_selected) !! p.2)) p.1.

Lemma elem_of_sort_ints X i : i ∈ sort_ints X ↔ i ∈ X.
Proof. unfold sort_ints. by rewrite merge_sort_Permutation, elem_of_elements. Qed.

Lemma elem_of_alias_pairs k i : (k, i) ∈ alias_pairs ↔
  ∃ d, tools !! i = Some d ∧ key_of d = k ∧ is_Some (sel_of d).
Proof using Hc.
  unfold alias_pairs. rewrite list_elem_of_bind. setoid_rewrite list_elem_of_fmap. split.
  - intros (k' & (i' & [= <- <-] & Hi%elem_of_sort_ints) & _). by apply key_members.
  - intros Hd. exists k. split; [|apply selected_keys; destruct Hd as (d & ?%list_elem_of_lookup_2 & ?); eauto].
    exists i. split; [done|]. by apply elem_of_sort_ints, key_members.
Qed.

Lemma check_aliases_flat l : check_aliases c.(ch_selected) c.(ch_keyTools) selectedKeys l =
  (foldl (λ st p, alias_step c.(ch_selected) p.1 st p.2) (∅, l) alias_pairs).2.
Proof using.
  unfold check_aliases, alias_pairs. f_equal. generalize (∅ : gmap string string, l).
  induction selectedKeys as [|k ks IH]; intros st; [done|]. cbn [foldl]. rewrite IH. simpl. rewrite foldl_app. f_equal.
  generalize (sort_ints (default ∅ (ch_keyTools c !! k))). intros il. revert st.
  induction il as [|i il IHi]; intros st; [done|]. simpl. apply IHi.
Qed.

Definition good_alias (a : string) : bool := ValidAlias a && negb (IsReservedToolName a).

(** The problems the pairs [P] show. *)
Inductive alias_problem (P : list (string * nat)) : Unavailable → Prop :=
| ap_alias p : p ∈ P → ValidAlias (pair_alias p) = false → alias_problem P (mk_Unavailable ReasonInvalidAlias p.1)
| ap_reserved p : p ∈ P → ValidAlias (pair_alias p) = true → IsReservedToolName (pair_alias p) = true →
    alias_problem P (mk_Unavailable ReasonCollision (pair_alias p))
| ap_collision p q : p ∈ P → q ∈ P → p.1 ≠ q.1 → pair_alias p = pair_alias q → good_alias (pair_alias p) = true →
    alias_problem P (mk_Unavailable ReasonCollision (pair_alias p)).

Record alias_ok (l : list Unavailable) (P : list (string * nat)) (st : gmap string string * list Unavailable) : Prop := {
  ao_none : ∀ p, p ∈ P → good_alias (pair_alias p) = true → st.1 !! pair_alias p ≠ None;
  ao_some : ∀ a k, st.1 !! a = Some k → good_alias a = true ∧ ∃ p, p ∈ P ∧ p.1 = k ∧ pair_alias p = a;
  ao_same : ∀ p k, p ∈ P → st.1 !! pair_alias p = Some k → p.1 ≠ k →
    mk_Unavailable ReasonCollision (pair_alias p) ∈ st.2;
  ao_sound : ∀ u, u ∈ st.2 → u ∈ l ∨ alias_problem P u;
  ao_kept : ∀ u, u ∈ l → u ∈ st.2;
  ao_alias : ∀ p, p ∈ P → ValidAlias (pair_alias p) = false → mk_Unavailable ReasonInvalidAlias p.1 ∈ st.2;
  ao_reserved : ∀ p, p ∈ P → ValidAlias (pair_alias p) = true → IsReservedToolName (pair_alias p) = true →
    mk_Unavailable ReasonCollision (pair_alias p) ∈ st.2;
  ao_NoDup : NoDup st.2;
}.

Lemma alias_problem_mono P Q u : (∀ p, p ∈ P → p ∈ Q) → alias_problem P u → alias_problem Q u.
Proof.
  intros H [p ? ?|p ? ? ?|p q ? ? ? ? ?]; [apply ap_alias|apply ap_reserved|apply (ap_collision _ p q)]; auto.
Qed.

Lemma alias_step_ok l P p st : alias_ok l P st → alias_ok l (P ++ [p]) (alias_step c.(ch_selected) p.1 st p.2).
Proof using.
  intros [Hn Hs Hsame Hsound Hkept Ha Hr HN]. destruct st as [owner out]. simpl in *.
  assert (∀ q, q ∈ P ++ [p] ↔ q ∈ P ∨ q = p) as Hin by (intros q; by rewrite elem_of_app, list_elem_of_singleton).
  assert (∀ u, u ∈ l ∨ alias_problem P u → u ∈ l ∨ alias_problem (P ++ [p]) u) as Hmono.
  { intros u [?|Hu]; [by left|right]. apply (alias_problem_mono P); [|done]. intros q ?. apply Hin. by left. }
  fold (pair_alias p). destruct (ValidAlias (pair_alias p)) eqn:V; simpl.
  2:{ split; simpl.
      - intros q [Hq| ->]%Hin Hg; [by apply Hn|]. unfold good_alias in Hg. by rewrite V in Hg.
      - intros a k Hk. destruct (Hs a k Hk) as (? & q & ? & ?). split; [done|]. exists q. rewrite Hin. by auto.
      - intros q k [Hq| ->]%Hin Hk Hne; [apply elem_of_add_reason; right; by eapply Hsame|].
        destruct (Hs _ _ Hk) as [Hg _]. unfold good_alias in Hg. by rewrite V in Hg.
      - intros u [->|Hu]%elem_of_add_reason; [right; apply ap_alias; [apply Hin; by right|done]|by apply Hmono, Hsound].
      - intros u Hu. apply elem_of_add_reason. right. by apply Hkept.
      - intros q [Hq| ->]%Hin Hv; apply elem_of_add_reason; [right; by apply Ha|by left].
      - intros q [Hq| ->]%Hin Hv ?; [apply elem_of_add_reason; right; by apply Hr|congruence].
      - by apply NoDup_add_reason. }
  destruct (IsReservedToolName (pair_alias p)) eqn:R.
  { split; simpl.
    - intros q [Hq| ->]%Hin Hg; [by apply Hn|]. unfold good_alias in Hg. by rewrite R, andb_false_r in Hg.
    - intros a k Hk. destruct (Hs a k Hk) as (? & q & ? & ?). split; [done|]. exists q. rewrite Hin. by auto.
    - intros q k [Hq| ->]%Hin Hk Hne; [apply elem_of_add_reason; right; by eapply Hsame|].
      apply elem_of_add_reason. by left.
    - intros u [->|Hu]%elem_of_add_reason; [right; apply ap_reserved; [apply Hin; by right|done..]|by apply Hmono, Hsound].
    - intros u Hu. apply elem_of_add_reason. right. by apply Hkept.
    - intros q [Hq| ->]%Hin Hv; [apply elem_of_add_reason; right; by apply Ha|congruence].
    - intros q [Hq| ->]%Hin Hv ?; apply elem_of_add_reason; [right; by apply Hr|by left].
    - by apply NoDup_add_reason. }
  assert (good_alias (pair_alias p) = true) as G by (unfold good_alias; by rewrite V, R).
  set (out' := match owner !! pair_alias p with Some o => _ | None => _ end).
  assert (∀ u, u ∈ out → u ∈ out') as Hsub.
  { intros u Hu. unfold out'. destruct (owner !! pair_alias p); [case_bool_decide; [done|]|done].
    apply elem_of_add_reason. by right. }
  split; simpl.
  - intros q Hq%Hin Hg. destruct (decide (pair_alias p = pair_alias q)) as [->|Hne]; [by rewrite lookup_insert_eq|].
    rewrite lookup_insert_ne by done. destruct Hq as [Hq| ->]; [by apply Hn|done].
  - intros a k. destruct (decide (pair_alias p = a)) as [<-|Hne].
    + rewrite lookup_insert_eq. intros [= <-]. split; [done|]. exists p. rewrite Hin. by auto.
    + rewrite lookup_insert_ne by done. intros Hk. destruct (Hs a k Hk) as (? & q & ? & ?).
      split; [done|]. exists q. rewrite Hin. by auto.
  - intros q k Hq%Hin. destruct (decide (pair_alias p = pair_alias q)) as [E|Hne].
    + rewrite <- E, lookup_insert_eq. intros [= <-] Hne. destruct Hq as [Hq| ->]; [|done]. unfold out'.
      destruct (owner !! pair_alias p) as [o|] eqn:O; [case_bool_decide as Ho; [|apply elem_of_add_reason; by left]|].
      * rewrite E. apply (Hsame q o); [done|by rewrite <- E|congruence].
      * destruct (Hn q Hq); rewrite <- E; done.
    + rewrite lookup_insert_ne by done. intros Hk Hk'. apply Hsub. destruct Hq as [Hq| ->]; [by apply (Hsame q k)|done].
  - intros u Hu. unfold out' in Hu. destruct (owner !! pair_alias p) as [o|] eqn:O; [case_bool_decide|]; try by apply Hmono, Hsound.
    apply elem_of_add_reason in Hu as [->|Hu]; [|by apply Hmono, Hsound]. right.
    destruct (Hs _ _ O) as (_ & q & Hq & <- & Eq). apply (ap_collision _ p q); [apply Hin; by right|apply Hin; by left|done..].
  - intros u Hu. by apply Hsub, Hkept.
  - intros q [Hq| ->]%Hin Hv; [by apply Hsub, Ha|congruence].
  - intros q [Hq| ->]%Hin Hv ?; [by apply Hsub, Hr|congruence].
  - unfold out'. destruct (owner !! pair_alias p); [case_bool_decide; [done|]|done]. by apply NoDup_add_reason.
Qed.

Lemma check_aliases_ok l : NoDup l → let l' := check_aliases c.(ch_selected) c.(ch_keyTools) selectedKeys l in
  NoDup l' ∧ ∀ u, u ∈ l' ↔ u ∈ l ∨ alias_problem alias_pairs u.
Proof using.
  intros Hl. rewrite check_aliases_flat.
  assert (∀ Q P st, alias_ok l P st →
    alias_ok l (P ++ Q) (foldl (λ st p, alias_step c.(ch_selected) p.1 st p.2) st Q)) as H.
  { induction Q as [|p Q IH]; intros P st Hst; [by rewrite app_nil_r|]. cbn [foldl].
    change (p :: Q) with ([p] ++ Q). rewrite app_assoc. by apply IH, alias_step_ok. }
  specialize (H alias_pairs [] (∅, l)). simpl in H. set (st := foldl _ _ _) in *.
  destruct H as [Hn Hs Hsame Hsound Hkept Ha Hr HN].
  { split; simpl; [by intros ? ?%not_elem_of_nil|by intros ??| |by left|done|..|done]; by intros ? ? ?%not_elem_of_nil || intros ? ?%not_elem_of_nil. }
  split; [exact HN|]. intros u. split; [apply Hsound|].
  intros [Hu|[p Hp V|p Hp V R|p q Hp Hq Hpq E G]]; [by apply Hkept|by apply Ha|by apply Hr|].
  destruct (st.1 !! pair_alias p) as [k|] eqn:O; [|by destruct (Hn p Hp G)].
  destruct (decide (p.1 = k)) as [<-|Hne]; [|by apply (Hsame p k)].
  rewrite E. apply (Hsame q p.1); [done|by rewrite <- E|done].
Qed.

Lemma pair_alias_at k i d sel : tools !! i = Some d → sel_of d = Some sel → pair_alias (k, i) = sel_alias sel k.
Proof using Hc. intros Hd Hs. unfold pair_alias. simpl. rewrite selected_at, Hd. simpl. by rewrite Hs. Qed.
End chosen.

(** ** The whole resolution *)

Abbreviation wrong := (problem journey metaKey tools).

(** What the loops of [Resolve] leave in [unavailable]. *)
Definition reasons : list Unavailable :=
  let c := read_selectors in
  let selectedKeys := sort_strings (elements (dom c.(ch_keyTools))) in
  let l := ambiguous_keys c.(ch_keyTools) selectedKeys c.(ch_unavailable) in
  let l := check_aliases c.(ch_selected) c.(ch_keyTools) selectedKeys l in
  if max_tools journey <? Z.of_nat (size c.(ch_selected)) then add_reason ReasonMaxTools "" l else l.

Lemma reasons_problems : NoDup reasons ∧ ∀ u, u ∈ reasons ↔ wrong u.
Proof.
  destruct read_selectors_ok as (Hc & HN & Hu). unfold reasons. set (c := read_selectors) in *.
  destruct (ambiguous_keys_ok c Hc _ HN) as [HN1 Hu1]. destruct (check_aliases_ok c _ HN1) as [HN2 Hu2].
  split; [destruct (_ <? _); [by apply NoDup_add_reason|done]|]. intros u.
  assert (u ∈ (if max_tools journey <? Z.of_nat (size c.(ch_selected))
     then add_reason ReasonMaxTools "" (check_aliases c.(ch_selected) c.(ch_keyTools) (sort_strings (elements (dom c.(ch_keyTools))))
       (ambiguous_keys c.(ch_keyTools) (sort_strings (elements (dom c.(ch_keyTools)))) c.(ch_unavailable)))
     else check_aliases c.(ch_selected) c.(ch_keyTools) (sort_strings (elements (dom c.(ch_keyTools))))
       (ambiguous_keys c.(ch_keyTools) (sort_strings (elements (dom c.(ch_keyTools)))) c.(ch_unavailable))) ↔
    (max_tools journey < Z.of_nat (length (filter (λ d, is_Some (sel_of d)) tools)) ∧ u = mk_Unavailable ReasonMaxTools "") ∨
    alias_problem c (alias_pairs c) u ∨
    (∃ key, (1 < length (filter (λ d, is_Some (sel_of d) ∧ key_of d = key) tools))%nat ∧ u = mk_Unavailable ReasonAmbiguous key) ∨
    ∃ s, s ∈ journey.(j_Tools) ∧ s.(Ops) ≠ [] ∧ selector_problem s u) as ->.
  { rewrite <- (selected_size c Hc). destruct (Z.ltb_spec (max_tools journey) (Z.of_nat (size c.(ch_selected))));
      rewrite ?elem_of_add_reason, Hu2, Hu1, Hu; intuition lia. }
  split.
  - intros [[H ->]|[H|[(key & H & ->)|(s & Hs & Hne & [_ W|op W H])]]].
    + by apply problem_many.
    + destruct H as [[k i] Hp V|[k i] Hp V R|[k i] [k' i'] Hp Hq Hpq E G]; simpl in *.
      * apply (elem_of_alias_pairs c Hc) in Hp as (d & Hd & <- & [sel Hs]). rewrite (pair_alias_at c Hc _ i d sel Hd Hs) in V.
        apply (problem_alias _ _ _ d (sel_alias sel (key_of d))); [by eapply list_elem_of_lookup_2|by exists sel|done].
      * apply (elem_of_alias_pairs c Hc) in Hp as (d & Hd & <- & [sel Hs]).
        rewrite (pair_alias_at c Hc _ i d sel Hd Hs) in *.
        apply (problem_reserved _ _ _ d); [by eapply list_elem_of_lookup_2|by exists sel|done..].
      * apply (elem_of_alias_pairs c Hc) in Hp as (d & Hd & <- & [sel Hs]), Hq as (d' & Hd' & <- & [sel' Hs']).
        rewrite (pair_alias_at c Hc _ i d sel Hd Hs), ?(pair_alias_at c Hc _ i' d' sel' Hd' Hs') in *.
        apply andb_true_iff in G as [V R%negb_true_iff].
        apply (problem_collision _ _ _ d d'); try done; [by eapply list_elem_of_lookup_2..|by exists sel|by exists sel'].
    + by apply problem_key.
    + by apply problem_missing.
    + by apply (problem_alternative _ _ _ s).
  - assert (∀ d alias, d ∈ tools → alias_at journey metaKey tools d alias →
      ∃ i, (key_of d, i) ∈ alias_pairs c ∧ pair_alias c (key_of d, i) = alias) as Hpair.
    { intros d alias [i Hd]%list_elem_of_lookup_1 (sel & Hs & ->). exists i. split; [|by eapply pair_alias_at].
      apply (elem_of_alias_pairs c Hc). eauto. }
    intros [s Hs Hne W|s op Hs W H|key H|d alias Hd Ha V|d alias Hd Ha V R|d d' alias Hd Hd' Ha Ha' Hk V R|H].
    + right; right; right. exists s. split_and!; [done..|by constructor].
    + right; right; right. exists s. split_and!; [done| |by apply sp_alternative].
      intros E. unfold winner in W. by rewrite E in W.
    + right; right; left. eauto.
    + right; left. destruct (Hpair _ _ Hd Ha) as (i & Hp & <-). exact (ap_alias c _ (key_of d, i) Hp V).
    + right; left. destruct (Hpair _ _ Hd Ha) as (i & Hp & <-). exact (ap_reserved c _ (key_of d, i) Hp V R).
    + right; left. destruct (Hpair _ _ Hd Ha) as (i & Hp & <-), (Hpair _ _ Hd' Ha') as (i' & Hp' & E).
      apply (ap_collision c _ (key_of d, i) (key_of d', i')); try done. unfold good_alias. by rewrite V, R.
    + by left.
Qed.
End resolve.

(** ** Readings of a selection *)

Section readings.
Context (journey : Journey) (metaKey : string) (tools : list Descriptor).
Abbreviation key_of := (tool_key journey.(j_Deny) metaKey).
Abbreviation sel_of := (selection_of journey metaKey tools).

Lemma tool_key_sound d : key_of d ≠ "" →
  d.(d_Meta) !! metaKey = Some (AString (key_of d)) ∧ key_of d ∉ journey.(j_Deny).
Proof.
  unfold tool_key. destruct (d.(d_Meta) !! metaKey) as [[k| | |]|]; try done.
  destruct (_ && _) eqn:E; [|done]. gosimpl. by rewrite <- contains_false.
Qed.

Lemma winner_elem s op : winner journey metaKey tools s = Some op →
  op ∈ s.(Ops) ∧ op ≠ "" ∧ offers journey metaKey tools s op ≠ [].
Proof.
  intros H%head_Some_elem_of. apply list_elem_of_filter in H as [Hne Hin]. split_and!; try done.
  intros ->. destruct (offers journey metaKey tools s "") as [|d l] eqn:E; [done|].
  assert (d ∈ offers journey metaKey tools s "") as [? _]%list_elem_of_filter by (rewrite E; apply list_elem_of_here).
  naive_solver.
Qed.

Lemma takes_key s d : takes journey metaKey tools s d = true → key_of d ≠ "".
Proof.
  unfold takes. destruct (Ops s) as [|op ops]; [by intros ?; gosimpl|].
  destruct (winner journey metaKey tools s) as [op'|] eqn:W; [|done].
  apply winner_elem in W as (_ & ? & _). intros ?. gosimpl. done.
Qed.

Lemma elem_of_reading_order s l : s ∈ reading_order l ↔ s ∈ l.
Proof.
  unfold reading_order. rewrite elem_of_app, !list_elem_of_filter. destruct (decide (Ops s = [])); naive_solver.
Qed.

(** Where each part of a selection comes from. *)
Record selection_from (seen : list Selector) (d : Descriptor) (sel : selection) : Prop := {
  sf_taken : ∃ s, s ∈ seen ∧ takes journey metaKey tools s d = true;
  sf_approval : sel.(approval) = true ↔
    ∃ s, s ∈ seen ∧ takes journey metaKey tools s d = true ∧ s.(ApprovalRequired) = true;
  sf_op : sel.(fromOp) = true → ∃ s, s ∈ seen ∧ s.(Ops) ≠ [] ∧ takes journey metaKey tools s d = true ∧
    sel.(opClass) = s.(SelClass) ∧ sel.(opAlias) = s.(Alias);
}.

Lemma selection_fold seen d : match foldl (selection_step journey metaKey tools d) None seen with
  | Some sel => selection_from seen d sel
  | None => ∀ s, s ∈ seen → takes journey metaKey tools s d = false
  end.
Proof.
  induction seen as [|s seen IH] using rev_ind; [by intros ? ?%not_elem_of_nil|].
  rewrite foldl_app. simpl. unfold selection_step at 1.
  assert (∀ P : Selector → Prop, (∃ x, x ∈ seen ++ [s] ∧ P x) ↔ (∃ x, x ∈ seen ∧ P x) ∨ P s) as Hex.
  { intros P. setoid_rewrite elem_of_app. setoid_rewrite list_elem_of_singleton. naive_solver. }
  destruct (takes journey metaKey tools s d) eqn:T; destruct (foldl _ None seen) as [sel|] eqn:F; simpl.
  - destruct IH as [It Ia Io]. split; rewrite ?Hex; clear Hex; [by right| |].
    + unfold merge_selection. destruct (negb _); simpl; rewrite orb_true_iff, Ia; tauto.
    + unfold merge_selection. destruct (bool_decide (Ops s = [])) eqn:O; gosimpl; simpl.
      * intros Hf. left. by apply Io.
      * intros _. right. by split_and!.
  - split; rewrite ?Hex; clear Hex; [by right| |].
    + assert (¬ ∃ x, x ∈ seen ∧ takes journey metaKey tools x d = true ∧ ApprovalRequired x = true) as Hno.
      { intros (x & Hx & Ht & _). apply IH in Hx. congruence. }
      unfold merge_selection. destruct (negb _); simpl; tauto.
    + unfold merge_selection. destruct (bool_decide (Ops s = [])) eqn:O; gosimpl; simpl; [done|].
      intros _. right. by split_and!.
  - destruct IH as [It Ia Io]. split; rewrite ?Hex; clear Hex; [by left| |intros Hf; left; by apply Io].
    rewrite Ia, T. split; [by left|by intros [?|[? _]]].
  - intros x [Hx| ->%list_elem_of_singleton]%elem_of_app; [by apply IH|done].
Qed.

Lemma selection_of_from d sel : sel_of d = Some sel → selection_from journey.(j_Tools) d sel.
Proof.
  intros Hs. pose proof (selection_fold (reading_order journey.(j_Tools)) d) as H.
  unfold selection_of in Hs. rewrite Hs in H. destruct H as [Ht Ha Ho].
  setoid_rewrite elem_of_reading_order in Ht. setoid_rewrite elem_of_reading_order in Ha.
  setoid_rewrite elem_of_reading_order in Ho. by split.
Qed.

Lemma selection_of_taken d : is_Some (sel_of d) ↔ ∃ s, s ∈ journey.(j_Tools) ∧ takes journey metaKey tools s d = true.
Proof.
  split; [intros [sel Hs]; by apply selection_of_from in Hs as [? _ _]|]. intros (s & Hs & Ht).
  pose proof (selection_fold (reading_order journey.(j_Tools)) d) as H. unfold selection_of.
  destruct (foldl _ _ _); [done|]. specialize (H s (proj2 (elem_of_reading_order _ _) Hs)). congruence.
Qed.

Lemma selected_key d : is_Some (sel_of d) → key_of d ≠ "".
Proof. intros (s & _ & Ht)%selection_of_taken. by eapply takes_key. Qed.

Lemma elem_of_chosen t : t ∈ chosen_tools journey metaKey tools ↔
  ∃ d sel, d ∈ tools ∧ sel_of d = Some sel ∧ t = make_tool (key_of d) d sel.
Proof.
  unfold chosen_tools. rewrite list_elem_of_omap. split.
  - intros (d & Hd & (sel & Hs & ->)%fmap_Some). eauto.
  - intros (d & sel & Hd & Hs & ->). exists d. by rewrite Hs.
Qed.

(** Without a problem keys and aliases are unique. *)
Lemma chosen_keys_NoDup : (∀ u, ¬ problem journey metaKey tools u) →
  NoDup (t_OperationKey <$> chosen_tools journey metaKey tools).
Proof.
  intros Hno.
  assert (∀ key, (length (filter (λ d, is_Some (sel_of d) ∧ key_of d = key) tools) ≤ 1)%nat) as H.
  { intros key. destruct (decide (length (filter (λ d, is_Some (sel_of d) ∧ key_of d = key) tools) ≤ 1)%nat); [done|].
    destruct (Hno (mk_Unavailable ReasonAmbiguous key)). apply problem_key. lia. }
  unfold chosen_tools. clear Hno. generalize dependent (sel_of). intros f H.
  induction tools as [|d l IH]; [constructor|]. simpl.
  assert (NoDup (t_OperationKey <$> omap (λ d, make_tool (key_of d) d <$> f d) l)) as HN.
  { apply IH. intros key. specialize (H key). rewrite filter_cons in H. case_decide; simpl in *; lia. }
  destruct (f d) as [sel|] eqn:E; [|exact HN]. simpl. apply NoDup_cons. split; [|exact HN].
  intros (t & Hk & (d' & Hd' & (sel' & Hs' & ->)%fmap_Some)%list_elem_of_omap)%list_elem_of_fmap. simpl in Hk.
  specialize (H (key_of d)). rewrite filter_cons in H. rewrite decide_True in H by (rewrite E; by eauto).
  simpl in H. destruct (filter _ l) as [|x k] eqn:F; [|simpl in H; lia].
  apply (filter_nil_not_elem_of (λ d0, is_Some (f d0) ∧ key_of d0 = key_of d) l d') in F; [done|]. by rewrite Hs'.
Qed.

Lemma chosen_alias_inj t t' : (∀ u, ¬ problem journey metaKey tools u) →
  t ∈ chosen_tools journey metaKey tools → t' ∈ chosen_tools journey metaKey tools →
  t.(t_Alias) = t'.(t_Alias) → t.(t_OperationKey) = t'.(t_OperationKey).
Proof.
  intros Hno (d & sel & Hd & Hs & ->)%elem_of_chosen (d' & sel' & Hd' & Hs' & ->)%elem_of_chosen Ha. simpl in *.
  destruct (decide (key_of d = key_of d')) as [|Hne]; [done|]. exfalso.
  assert (alias_at journey metaKey tools d (sel_alias sel (key_of d))) as A by (by exists sel).
  destruct (ValidAlias (sel_alias sel (key_of d))) eqn:V; [|by apply (Hno _ (problem_alias _ _ _ d _ Hd A V))].
  destruct (IsReservedToolName (sel_alias sel (key_of d))) eqn:R;
    [by apply (Hno _ (problem_reserved _ _ _ d _ Hd A V R))|].
  apply (Hno _ (problem_collision _ _ _ d d' _ Hd Hd' A (ltac:(by exists sel')) Hne V R)).
Qed.

Lemma NoDup_inj_key {A B C} (f : A → B) (g : A → C) (l : list A) : NoDup (f <$> l) →
  (∀ x y, x ∈ l → y ∈ l → g x = g y → f x = f y) → NoDup (g <$> l).
Proof.
  clear. induction l as [|x l IH]; [constructor|]. rewrite !fmap_cons, !NoDup_cons. intros [Hx HN] Hi. split.
  - intros (y & Hy & Hin)%list_elem_of_fmap. apply Hx. rewrite (Hi x y); [by apply list_elem_of_fmap_2| | |done].
    + apply list_elem_of_here.
    + apply elem_of_cons. by right.
  - apply IH; [done|]. intros a b Ha Hb. apply Hi; apply elem_of_cons; by right.
Qed.
End readings.

#[export] Instance alias_le_trans : Transitive alias_le.
Proof. intros a b c. unfold alias_le. apply transitivity. Qed.
#[export] Instance alias_le_total : Total alias_le.
Proof. intros a b. apply (total String.le). Qed.

(** Sorting tools with distinct aliases has one outcome. *)
Lemma sort_alias_unique l k : NoDup (t_Alias <$> l) → l ≡ₚ k → merge_sort alias_le l = merge_sort alias_le k.
Proof.
  intros HN Hp. apply (StronglySorted_unique_strong alias_le); [|apply StronglySorted_merge_sort; apply _..|].
  - intros x y. rewrite !merge_sort_Permutation, <- Hp. intros Hx Hy Hxy Hyx.
    assert (t_Alias x = t_Alias y) as E by (by apply (anti_symm String.le)).
    apply list_elem_of_lookup_1 in Hx as [i Hi]. apply list_elem_of_lookup_1 in Hy as [j Hj].
    assert (i = j) as ->; [|congruence]. eapply (NoDup_lookup _ _ _ x.(t_Alias) HN); rewrite list_lookup_fmap;
      [by rewrite Hi|by rewrite Hj, E].
  - by rewrite !merge_sort_Permutation.
Qed.

(** ** Results *)

Definition in_range (journey : Journey) (snapshot : Snapshot) : bool :=
  IsZero journey.(j_ProductVersions) || Contains journey.(j_ProductVersions) snapshot.(sn_ProductVersion).

Section results.
Context (journey : Journey) (snapshot : Snapshot) (metaKey : string).
Abbreviation tools := snapshot.(sn_Tools).
Abbreviation chosen := (chosen_tools journey metaKey snapshot.(sn_Tools)).
Abbreviation wrong := (problem journey metaKey snapshot.(sn_Tools)).

Lemma chosen_aliases_NoDup : (∀ u, ¬ wrong u) → NoDup (t_Alias <$> chosen).
Proof.
  intros Hno. apply (NoDup_inj_key t_OperationKey); [by apply chosen_keys_NoDup|].
  intros t t' Ht Ht'. by apply (chosen_alias_inj _ _ _ t t' Hno).
Qed.

(** [Resolve] reduces to the list of reasons its loops leave. *)
Lemma Resolve_reasons : in_range journey snapshot = true → Resolve journey snapshot metaKey =
  match reasons journey metaKey tools with
  | [] => mk_Resolution journey.(j_ID) (merge_sort alias_le (selected_tools tools
            (tool_key journey.(j_Deny) metaKey <$> tools) (read_selectors journey metaKey tools).(ch_selected))) []
  | l => mk_Resolution journey.(j_ID) [] l
  end.
Proof.
  intros Hr. transitivity (let l := reasons journey metaKey tools in match l with
    | [] => mk_Resolution journey.(j_ID) (merge_sort alias_le (selected_tools tools
            (tool_key journey.(j_Deny) metaKey <$> tools) (read_selectors journey metaKey tools).(ch_selected))) []
    | _ => mk_Resolution journey.(j_ID) [] l end).
  - unfold Resolve. unfold in_range in Hr. by destruct (IsZero _), (Contains _ _).
  - cbv zeta. by destruct (reasons journey metaKey tools).
Qed.

Lemma Resolve_available : in_range journey snapshot = true → (∀ u, ¬ wrong u) →
  Resolve journey snapshot metaKey = mk_Resolution journey.(j_ID) (merge_sort alias_le chosen) [].
Proof.
  intros Hr Hno. rewrite (Resolve_reasons Hr). destruct (reasons_problems journey metaKey tools) as [_ Hu].
  destruct (reasons journey metaKey tools) as [|u l]; [|destruct (Hno u); apply Hu, list_elem_of_here].
  f_equal. symmetry. apply sort_alias_unique; [by apply chosen_aliases_NoDup|]. symmetry.
  apply selected_tools_perm, read_selectors_ok.
Qed.

Lemma Resolve_unavailable u : in_range journey snapshot = true → wrong u →
  (Resolve journey snapshot metaKey).(r_Tools) = [] ∧
  NoDup (Resolve journey snapshot metaKey).(r_Unavailable) ∧
  ∀ u, u ∈ (Resolve journey snapshot metaKey).(r_Unavailable) ↔ wrong u.
Proof.
  intros Hr Hw. rewrite (Resolve_reasons Hr). destruct (reasons_problems journey metaKey tools) as [HN Hu].
  apply Hu in Hw. destruct (reasons journey metaKey tools); [by apply not_elem_of_nil in Hw|by split_and!].
Qed.

Lemma reasons_dec : (∀ u, ¬ wrong u) ∨ ∃ u, wrong u.
Proof.
  destruct (reasons_problems journey metaKey tools) as [_ Hu].
  destruct (reasons journey metaKey tools) as [|u l]; [left|right].
  - intros u Hw%Hu. by apply not_elem_of_nil in Hw.
  - exists u. apply Hu, list_elem_of_here.
Qed.

(** An available resolution, taken apart. *)
Lemma Available_inv : Available (Resolve journey snapshot metaKey) = true →
  in_range journey snapshot = true ∧ (∀ u, ¬ wrong u) ∧
  (Resolve journey snapshot metaKey).(r_Tools) = merge_sort alias_le chosen.
Proof.
  unfold Available. intros Ha%bool_decide_eq_true.
  assert (in_range journey snapshot = true) as Hr.
  { revert Ha. unfold in_range, Resolve. by destruct (IsZero _), (Contains _ _). }
  destruct reasons_dec as [Hno|[u Hw]].
  - rewrite (Resolve_available Hr Hno). by split_and!.
  - destruct (Resolve_unavailable u Hr Hw) as (_ & _ & Hu). apply Hu in Hw. rewrite Ha in Hw. by apply not_elem_of_nil in Hw.
Qed.
End results.

(** C40 [Resolve] computes its declarative reading.  A version out of range is
    the only reason given; otherwise the reasons are, each once, exactly the
    [problem]s of the snapshot, and when there is none the journey gets exactly
    the chosen tools in the strict order of their aliases. *)
Theorem Resolve_spec (journey : Journey) (snapshot : Snapshot) (metaKey : string) :
  let res := Resolve journey snapshot metaKey in
  let chosen := chosen_tools journey metaKey snapshot.(sn_Tools) in
  res.(r_JourneyID) = journey.(j_ID) ∧
  (Available res = false → res.(r_Tools) = []) ∧
  (in_range journey snapshot = false → res.(r_Unavailable) = [mk_Unavailable ReasonVersion ""]) ∧
  (in_range journey snapshot = true →
     NoDup res.(r_Unavailable) ∧
     (∀ u, u ∈ res.(r_Unavailable) ↔ problem journey metaKey snapshot.(sn_Tools) u) ∧
     (Available res = true → res.(r_Tools) ≡ₚ chosen ∧
        StronglySorted alias_le res.(r_Tools) ∧ NoDup (t_Alias <$> res.(r_Tools)))).
Proof.
  intros res chosen. split_and!.
  - unfold res, Resolve. destruct (_ && _); [done|]. cbv zeta. by case_match.
  - unfold res, Available, Resolve. intros Hb%bool_decide_eq_false. revert Hb. destruct (_ && _); [done|]. cbv zeta.
    by case_match.
  - unfold in_range, res, Resolve. by destruct (IsZero _), (Contains _ _).
  - intros Hr. destruct (reasons_dec journey snapshot metaKey) as [Hno|[u Hw]].
    + unfold res. rewrite (Resolve_available journey snapshot metaKey Hr Hno). simpl. split_and!; [constructor| |].
      * intros u. split; [by intros ?%not_elem_of_nil|intros Hw; by destruct (Hno u)].
      * intros _. split_and!; [apply merge_sort_Permutation|apply StronglySorted_merge_sort; apply _|].
        rewrite merge_sort_Permutation. by apply chosen_aliases_NoDup.
    + destruct (Resolve_unavailable journey snapshot metaKey u Hr Hw) as (_ & HN & Hu). split_and!; [done..|].
      unfold res, Available. intros Ha%bool_decide_eq_true. apply Hu in Hw. rewrite Ha in Hw. by apply not_elem_of_nil in Hw.
Qed.

Lemma takes_op journey metaKey tools s d : s.(Ops) ≠ [] → takes journey metaKey tools s d = true →
  tool_key journey.(j_Deny) metaKey d ∈ s.(Ops).
Proof.
  intros Hne. unfold takes. destruct (Ops s) as [|o ops] eqn:E; [done|].
  destruct (winner journey metaKey tools s) as [op|] eqn:W; [|done].
  apply winner_elem in W as (Hin & _ & _). rewrite E in Hin. intros ?. gosimpl. done.
Qed.

(** An operation selector of a journey without problems takes a tool. *)
Lemma op_selector_served journey metaKey tools s : (∀ u, ¬ problem journey metaKey tools u) →
  s ∈ journey.(j_Tools) → s.(Ops) ≠ [] → ∃ d, d ∈ tools ∧ takes journey metaKey tools s d = true.
Proof.
  intros Hno Hs Hne. destruct (winner journey metaKey tools s) as [op|] eqn:W;
    [|by destruct (Hno _ (problem_missing _ _ _ s Hs Hne W))].
  destruct (winner_elem _ _ _ _ _ W) as (_ & _ & Hoff).
  destruct (offers journey metaKey tools s op) as [|d l] eqn:E; [done|]. exists d.
  assert (d ∈ offers journey metaKey tools s op) as [(_ & Hk & Hh) Hd]%list_elem_of_filter
    by (rewrite E; apply list_elem_of_here).
  split; [done|]. unfold takes. destruct (Ops s); [done|]. rewrite W, Hk, Hh, E, bool_decide_eq_true_2 by done.
  destruct l as [|d' l]; [done|]. destruct (Hno (mk_Unavailable ReasonAmbiguous op)).
  apply (problem_alternative _ _ _ s op Hs W). rewrite E. simpl. lia.
Qed.

(** What the tools of an available journey may be. *)
Record sound_tool (journey : Journey) (metaKey : string) (tools : list Descriptor) (t : Tool) : Prop := {
  st_advertised : ∃ d, d ∈ tools ∧ t.(t_RemoteName) = d.(d_Name) ∧
    d.(d_Meta) !! metaKey = Some (AString t.(t_OperationKey)) ∧
    ∀ s, s ∈ journey.(j_Tools) → takes journey metaKey tools s d = true → s.(ApprovalRequired) = true →
      t.(t_RequiresApproval) = true;
  st_allowed : t.(t_OperationKey) ∉ journey.(j_Deny);
  st_alias : ValidAlias t.(t_Alias) = true ∧ IsReservedToolName t.(t_Alias) = false;
  st_effect : t.(t_Class) ≠ ClassReadOnly → t.(t_RequiresApproval) = true;
  st_read_only : t.(t_Class) = ClassReadOnly →
    ∃ s, s ∈ journey.(j_Tools) ∧ t.(t_OperationKey) ∈ s.(Ops) ∧ s.(SelClass) = ClassReadOnly;
}.

Lemma chosen_sound journey metaKey tools t : (∀ u, ¬ problem journey metaKey tools u) →
  t ∈ chosen_tools journey metaKey tools → sound_tool journey metaKey tools t.
Proof.
  intros Hno (d & sel & Hd & Hs & ->)%elem_of_chosen.
  assert (tool_key (j_Deny journey) metaKey d ≠ "") as Hk by (apply (selected_key _ _ tools); by rewrite Hs).
  destruct (tool_key_sound journey metaKey d Hk) as [Hm Hdeny].
  destruct (selection_of_from _ _ _ _ _ Hs) as [_ Hap Hop]. split; simpl.
  - exists d. split_and!; try done. intros s Hin Ht Hr. apply orb_true_iff. right. apply Hap. eauto.
  - done.
  - set (alias := sel_alias sel _). assert (alias_at journey metaKey tools d alias) as A by (by exists sel).
    destruct (ValidAlias alias) eqn:V; [|by destruct (Hno _ (problem_alias _ _ _ d alias Hd A V))].
    destruct (IsReservedToolName alias) eqn:R; [|done].
    by destruct (Hno _ (problem_reserved _ _ _ d alias Hd A V R)).
  - intros Hc. by rewrite bool_decide_eq_false_2.
  - unfold sel_class. destruct (fromOp sel && _) eqn:F; [|done]. intros Hc. gosimpl.
    destruct (Hop H) as (s & Hin & Hne & Ht & Hcl & _). exists s. split_and!; [done|by eapply takes_op|congruence].
Qed.

(** A journey that resolves is safe to serve: every tool was advertised
    under its operation key, none is denied, every alias is valid and not
    reserved, every tool that is not read-only needs approval, and one is
    read-only only if a reviewed operation selector for its key says so.  Keys
    are unique, there are at most as many tools as the journey allows, and
    every operation selector got its tool. *)
Theorem Resolve_sound (journey : Journey) (snapshot : Snapshot) (metaKey : string) :
  let res := Resolve journey snapshot metaKey in
  Available res = true →
  in_range journey snapshot = true ∧
  Forall (sound_tool journey metaKey snapshot.(sn_Tools)) res.(r_Tools) ∧
  NoDup (t_OperationKey <$> res.(r_Tools)) ∧
  zlen res.(r_Tools) <= max_tools journey ∧
  ∀ s, s ∈ journey.(j_Tools) → s.(Ops) ≠ [] → ∃ t, t ∈ res.(r_Tools) ∧ t.(t_OperationKey) ∈ s.(Ops).
Proof.
  intros res Ha. destruct (Available_inv journey snapshot metaKey Ha) as (Hr & Hno & E). fold res in E.
  set (tools := snapshot.(sn_Tools)) in *. assert (res.(r_Tools) ≡ₚ chosen_tools journey metaKey tools) as Hp
    by (rewrite E; apply merge_sort_Permutation).
  split_and!; [done| | | |].
  - rewrite Hp. apply Forall_forall. intros t. by apply chosen_sound.
  - rewrite Hp. by apply chosen_keys_NoDup.
  - unfold zlen. rewrite Hp.
    assert (length (chosen_tools journey metaKey tools) =
      length (filter (λ d, is_Some (selection_of journey metaKey tools d)) tools)) as ->.
    { unfold chosen_tools. clear. generalize (selection_of journey metaKey tools). intros f.
      induction tools as [|d l IH]; [done|]. simpl. rewrite filter_cons.
      destruct (f d); simpl; [f_equal|]; exact IH. }
    destruct (Z.le_gt_cases (Z.of_nat (length (filter (λ d, is_Some (selection_of journey metaKey tools d)) tools)))
      (max_tools journey)); [done|]. destruct (Hno (mk_Unavailable ReasonMaxTools "")). by apply problem_many.
  - intros s Hs Hne. destruct (op_selector_served _ _ _ s Hno Hs Hne) as (d & Hd & Ht).
    assert (is_Some (selection_of journey metaKey tools d)) as [sel Hsel] by (apply selection_of_taken; eauto).
    exists (make_tool (tool_key journey.(j_Deny) metaKey d) d sel). rewrite Hp.
    split; [apply elem_of_chosen; eauto|]. by eapply takes_op.
Qed.

(** ** The order of the advertised tools *)

Section order.
Context (journey : Journey) (metaKey : string) (l k : list Descriptor) (Hlk : l ≡ₚ k).

Lemma offers_order s op : offers journey metaKey l s op ≡ₚ offers journey metaKey k s op.
Proof using Hlk. unfold offers. by rewrite Hlk. Qed.

Lemma winner_order s : winner journey metaKey l s = winner journey metaKey k s.
Proof using Hlk.
  unfold winner. f_equal. apply filter_ext_in. intros op _.
  pose proof (offers_order s op) as H. split; intros Hne E; rewrite E in H;
    [by apply Permutation_nil_r in H|by apply Permutation_nil_l in H].
Qed.

Lemma takes_order s d : takes journey metaKey l s d = takes journey metaKey k s d.
Proof using Hlk.
  unfold takes. destruct (Ops s); [done|]. rewrite winner_order.
  destruct (winner journey metaKey k s) as [op|]; [|done]. by rewrite (Permutation_length (offers_order s op)).
Qed.

Lemma selection_order d : selection_of journey metaKey l d = selection_of journey metaKey k d.
Proof using Hlk.
  unfold selection_of. generalize (None (A := selection)).
  induction (reading_order journey.(j_Tools)) as [|s r IH]; intros o; [done|]. simpl.
  unfold selection_step at 2 4. by rewrite takes_order.
Qed.

Lemma chosen_order : chosen_tools journey metaKey l ≡ₚ chosen_tools journey metaKey k.
Proof using Hlk.
  unfold chosen_tools. transitivity (omap (M := list) (λ d, make_tool (tool_key (j_Deny journey) metaKey d) d <$>
    selection_of journey metaKey k d) l); [|by rewrite Hlk].
  apply reflexive_eq, list_omap_ext. apply Forall2_same_length_lookup_2; [done|]. intros i d d' Hd Hd'.
  rewrite Hd in Hd'. injection Hd' as <-. by rewrite selection_order.
Qed.

Lemma filter_order (P Q : Descriptor → Prop) `{∀ d, Decision (P d), ∀ d, Decision (Q d)} :
  (∀ d, P d ↔ Q d) → length (filter P l) = length (filter Q k).
Proof using Hlk. intros H'. rewrite (filter_ext_in P Q l) by (intros d _; apply H'). by rewrite Hlk. Qed.

Lemma problem_order u : problem journey metaKey l u → problem journey metaKey k u.
Proof using Hlk.
  assert (∀ d alias, alias_at journey metaKey l d alias → alias_at journey metaKey k d alias) as Halias
    by (intros d alias (sel & Hs & ->); exists sel; by rewrite <- selection_order).
  assert (∀ d, d ∈ l → d ∈ k) as Hin by (intros d; by rewrite Hlk).
  intros [s Hs Hne W|s op Hs W H|key H|d alias Hd A V|d alias Hd A V R|d d' alias Hd Hd' A A' Hk V R|H].
  - apply problem_missing; [done..|by rewrite <- winner_order].
  - apply (problem_alternative _ _ _ s); [done|by rewrite <- winner_order|by rewrite <- offers_order].
  - apply problem_key. erewrite <- filter_order; [exact H|]. intros d. simpl. by rewrite selection_order.
  - apply (problem_alias _ _ _ d alias); auto.
  - apply (problem_reserved _ _ _ d alias); auto.
  - apply (problem_collision _ _ _ d d' alias); auto.
  - apply problem_many. erewrite <- filter_order; [exact H|]. intros d. simpl. by rewrite selection_order.
Qed.
End order.

(** The order in which the server lists its tools does not matter: two
    snapshots of one version with the same tools resolve to the same tools, or
    to the same reasons (which may be listed in another order). *)
Theorem Resolve_order (journey : Journey) (a b : Snapshot) (metaKey : string) :
  a.(sn_ProductVersion) = b.(sn_ProductVersion) → a.(sn_Tools) ≡ₚ b.(sn_Tools) →
  (Resolve journey a metaKey).(r_Tools) = (Resolve journey b metaKey).(r_Tools) ∧
  (Resolve journey a metaKey).(r_Unavailable) ≡ₚ (Resolve journey b metaKey).(r_Unavailable).
Proof.
  intros Hv Hp. assert (in_range journey a = in_range journey b) as Hr by (unfold in_range; by rewrite Hv).
  destruct (in_range journey a) eqn:Ra.
  2:{ unfold Resolve. revert Ra Hr. unfold in_range. by destruct (IsZero _), (Contains _ a.(sn_ProductVersion)),
        (Contains _ b.(sn_ProductVersion)). }
  destruct (reasons_dec journey a metaKey) as [Ha|[u Hu]].
  - assert (∀ u, ¬ problem journey metaKey b.(sn_Tools) u) as Hb
      by (intros u Hu; apply (Ha u); by apply (problem_order journey metaKey _ _ (symmetry Hp))).
    rewrite (Resolve_available journey a metaKey Ra Ha), (Resolve_available journey b metaKey (eq_sym Hr) Hb). simpl.
    split; [|done]. apply sort_alias_unique; [by apply chosen_aliases_NoDup|by apply chosen_order].
  - destruct (Resolve_unavailable journey a metaKey u Ra Hu) as (Ta & Na & Ma).
    destruct (Resolve_unavailable journey b metaKey u (eq_sym Hr) (problem_order journey metaKey _ _ Hp u Hu)) as (Tb & Nb & Mb).
    split; [by rewrite Ta, Tb|]. apply NoDup_Permutation; [done..|]. intros x. rewrite Ma, Mb.
    split; apply problem_order; [done|by symmetry].
Qed.

(** ** Policies across journeys *)

(** The tools of the available resolutions. *)
Definition served (rs : list Resolution) (t : Tool) : Prop :=
  ∃ r, r ∈ rs ∧ Available r = true ∧ t ∈ r.(r_Tools).

(** Two tools a model or the journal would take for the same operation. *)
Definition same_name (t t' : Tool) : Prop :=
  t.(t_OperationKey) = t'.(t_OperationKey) ∨ t.(t_Alias) = t'.(t_Alias).

(** Every served tool of the same name has the same policy. *)
Definition agrees (rs : list Resolution) (r : Resolution) : Prop :=
  ∀ t t', t ∈ r.(r_Tools) → served rs t' → same_name t t' → policy_of t = policy_of t'.

Definition named (rs : list Resolution) : Prop :=
  ∀ r t, r ∈ rs → t ∈ r.(r_Tools) → t.(t_OperationKey) ≠ "" ∧ t.(t_Alias) ≠ "".

Section policies.
Context (name : Tool → string).

Lemma note_policy_elem m n p n' p' : p' ∈ default ∅ (note_policy m n p !! n') ↔
  p' ∈ default ∅ (m !! n') ∨ (n' = n ∧ p' = p).
Proof.
  unfold note_policy. destruct (decide (n = n')) as [<-|Hne].
  - rewrite lookup_insert_eq. simpl. set_solver.
  - rewrite lookup_insert_ne by done. naive_solver.
Qed.

Lemma note_tools ts m n p : p ∈ default ∅ (foldl (λ m t, note_policy m (name t) (policy_of t)) m ts !! n) ↔
  p ∈ default ∅ (m !! n) ∨ ∃ t, t ∈ ts ∧ name t = n ∧ policy_of t = p.
Proof.
  revert m. induction ts as [|t ts IH]; intros m; cbn [foldl].
  - split; [by left|]. intros [?|(t & Ht%not_elem_of_nil & _)]; done.
  - rewrite IH, note_policy_elem. setoid_rewrite elem_of_cons. clear. split.
    + intros [[?|[-> ->]]|(t' & ? & ? & ?)]; [by left|right; exists t; by auto|right; exists t'; by auto].
    + intros [?|(t' & [->|?] & ? & ?)]; [by left; left|left; by right|right; exists t'; by auto].
Qed.

Lemma collect_elem rs n p : p ∈ default ∅ (collect_policies name rs !! n) ↔
  ∃ t, served rs t ∧ name t = n ∧ policy_of t = p.
Proof.
  unfold collect_policies.
  assert (∀ m, p ∈ default ∅ (foldl (λ m r, if Available r then foldl (λ m t, note_policy m (name t) (policy_of t)) m
    r.(r_Tools) else m) m rs !! n) ↔ p ∈ default ∅ (m !! n) ∨ ∃ t, served rs t ∧ name t = n ∧ policy_of t = p) as ->;
    [|rewrite lookup_empty; simpl; set_solver].
  induction rs as [|r rs IH]; intros m; cbn [foldl].
  - split; [by left|]. intros [?|(t & (r & Hr%not_elem_of_nil & _) & _)]; done.
  - rewrite IH. unfold served. setoid_rewrite elem_of_cons. destruct (Available r) eqn:A.
    + rewrite note_tools. clear -A. split.
      * intros [[?|(t & ? & ?)]|(t & (r' & ? & ?) & ?)]; [by left|right; exists t..]; (split; [|done]); eauto.
      * intros [?|(t & (r' & [->|?] & ? & ?) & ?)]; [by left; left|left; right; by exists t|right; exists t; eauto].
    + clear -A. split; [intros [?|(t & (r' & ? & ?) & ?)]; [by left|right; exists t; eauto]|].
      intros [?|(t & (r' & [->|?] & ? & ?) & ?)]; [by left|congruence|right; exists t; eauto].
Qed.

Lemma disagree_true rs n : disagree (collect_policies name rs) n = true ↔
  ∃ t t', served rs t ∧ served rs t' ∧ name t = n ∧ name t' = n ∧ policy_of t ≠ policy_of t'.
Proof.
  unfold disagree. rewrite Z.ltb_lt. pose proof (collect_elem rs n) as He.
  set (X := default ∅ (collect_policies name rs !! n)) in *. split.
  - intros Hs. pose proof (NoDup_elements X) as HN. unfold size, set_size in Hs. simpl in Hs.
    destruct (elements X) as [|p [|q l]] eqn:E; simpl in Hs; [lia..|].
    assert (p ∈ X ∧ q ∈ X) as [Hp Hq] by (rewrite <- !elem_of_elements, E; set_solver).
    apply He in Hp as (t & ? & ? & <-), Hq as (t' & ? & ? & <-). exists t, t'. split_and!; try done.
    apply NoDup_cons in HN as [HN _]. intros Heq. apply HN. rewrite Heq. apply list_elem_of_here.
  - intros (t & t' & Ht & Ht' & Hn & Hn' & Hne).
    assert (policy_of t ∈ X ∧ policy_of t' ∈ X) as [Hp Hq] by (rewrite !He; eauto 10).
    assert ({[policy_of t; policy_of t']} ⊆ X) as Hsub%subseteq_size by set_solver.
    rewrite size_union, !size_singleton in Hsub by set_solver. lia.
Qed.
End policies.

Lemma elem_of_conflicts kp ap ts n : n ∈ conflicts kp ap ts ↔ n ≠ "" ∧ ∃ t, t ∈ ts ∧ conflict_name kp ap t = n.
Proof.
  unfold conflicts. assert (∀ l, n ∈ foldl (λ l t, let name := conflict_name kp ap t in
    if negb (bool_decide (name = "")) && negb (contains name l) then l ++ [name] else l) l ts ↔
    n ∈ l ∨ (n ≠ "" ∧ ∃ t, t ∈ ts ∧ conflict_name kp ap t = n)) as ->; [|set_solver].
  induction ts as [|t ts IH]; intros l; cbn [foldl].
  - split; [by left|]. intros [?|(_ & t & Ht%not_elem_of_nil & _)]; done.
  - rewrite IH. cbv zeta. setoid_rewrite elem_of_cons. destruct (negb _ && negb _) eqn:B; gosimpl.
    + rewrite elem_of_app, list_elem_of_singleton. clear -H. split.
      * intros [[?| ->]|(? & t' & ? & ?)]; [by left|right..]; (split; [done|]); [exists t|exists t']; by auto.
      * intros [?|(? & t' & [->|?] & ?)]; [by left; left|left; by right|right; split; [done|by exists t']].
    + split; [intros [?|(? & t' & ? & ?)]; [by left|right; split; [done|exists t'; by auto]]|].
      intros [?|(? & t' & [->|?] & Hn)]; [by left|left|right; split; [done|by exists t']]. subst n.
      apply andb_false_iff in B as [B|B]; gosimpl; [done|]. by apply contains_true.
Qed.

Lemma check_policy_cases rs r : named rs → r ∈ rs → Available r = true →
  let r' := check_policy (collect_policies t_OperationKey rs) (collect_policies t_Alias rs) r in
  (agrees rs r ∧ r' = r) ∨
  (¬ agrees rs r ∧ Available r' = false ∧ r'.(r_JourneyID) = r.(r_JourneyID) ∧ r'.(r_Tools) = [] ∧
   ∀ u, u ∈ r'.(r_Unavailable) → u.(u_Reason) = ReasonPolicyConflict).
Proof.
  intros Hn Hr Ha r'. unfold r', check_policy. rewrite Ha. cbn [negb].
  set (kp := collect_policies t_OperationKey rs). set (ap := collect_policies t_Alias rs).
  assert (∀ t t', t ∈ r.(r_Tools) → served rs t' → same_name t t' → policy_of t ≠ policy_of t' →
    conflict_name kp ap t ∈ conflicts kp ap r.(r_Tools)) as Hin.
  { intros t t' Ht Ht' Hs Hp. apply elem_of_conflicts. split; [|by exists t].
    destruct (Hn r t Hr Ht) as [Hk Hal]. unfold conflict_name.
    destruct (disagree kp (t_OperationKey t)) eqn:K; [done|]. destruct Hs as [Hs|Hs].
    - exfalso. apply not_true_iff_false in K. apply K, disagree_true. exists t, t'.
      split_and!; try done. by exists r.
    - assert (disagree ap (t_Alias t) = true) as ->; [|done]. apply disagree_true. exists t, t'.
      split_and!; try done. by exists r. }
  destruct (conflicts kp ap r.(r_Tools)) as [|c cs] eqn:E; [left|right].
  - split; [|done]. intros t t' Ht Ht' Hs. destruct (decide (policy_of t = policy_of t')) as [|Hne]; [done|].
    specialize (Hin t t' Ht Ht' Hs Hne). by apply not_elem_of_nil in Hin.
  - assert (c ∈ conflicts kp ap r.(r_Tools)) as Hc by (rewrite E; apply list_elem_of_here).
    apply elem_of_conflicts in Hc as (Hne & t & Ht & Hc). split_and!; try done.
    + intros Hag. unfold conflict_name in Hc.
      destruct (disagree kp _) eqn:K; [|destruct (disagree ap _) eqn:K'; [|done]].
      * apply disagree_true in K as (a & b & Sa & Sb & Na & Nb & Hp). apply Hp.
        rewrite <- (Hag t a Ht Sa), <- (Hag t b Ht Sb); [done|left..]; congruence.
      * apply disagree_true in K' as (a & b & Sa & Sb & Na & Nb & Hp). apply Hp.
        rewrite <- (Hag t a Ht Sa), <- (Hag t b Ht Sb); [done|right..]; congruence.
    + unfold Available. cbn [r_Unavailable]. apply bool_decide_eq_false. intros H%fmap_nil_inv.
      pose proof (sort_strings_perm (c :: cs)) as Hp. rewrite H in Hp. by apply Permutation_nil_l in Hp.
    + cbn [r_Unavailable]. by intros u (n & -> & _)%list_elem_of_fmap.
Qed.

(** [CheckPolicies] keeps the resolutions in order and changes only
    available ones that clash: a resolution stays available exactly when every
    tool any available journey serves under one of its keys or aliases has the
    same policy.  Whatever is still available afterwards agrees, and checking
    again changes nothing. *)
Theorem CheckPolicies_spec (rs : list Resolution) : named rs →
  let out := CheckPolicies rs in
  length out = length rs ∧
  (∀ i r r', rs !! i = Some r → out !! i = Some r' →
     (Available r = false → r' = r) ∧
     (Available r = true → (Available r' = true ↔ agrees rs r) ∧ (Available r' = true → r' = r) ∧
        (Available r' = false → r'.(r_JourneyID) = r.(r_JourneyID) ∧ r'.(r_Tools) = [] ∧
           ∀ u, u ∈ r'.(r_Unavailable) → u.(u_Reason) = ReasonPolicyConflict))) ∧
  (∀ t t', served out t → served out t' → same_name t t' → policy_of t = policy_of t') ∧
  CheckPolicies out = out.
Proof.
  intros Hn out. unfold out, CheckPolicies.
  set (f := check_policy (collect_policies t_OperationKey rs) (collect_policies t_Alias rs)).
  assert (∀ r, Available r = false → f r = r) as Hoff by (intros r Hr; unfold f, check_policy; by rewrite Hr).
  assert (∀ t, served (f <$> rs) t → ∃ r, r ∈ rs ∧ f r = r ∧ Available r = true ∧ t ∈ r.(r_Tools) ∧ agrees rs r) as Hsv.
  { intros t (r' & (r & -> & Hr)%list_elem_of_fmap & Ha & Ht). exists r.
    destruct (Available r) eqn:A; [|by rewrite (Hoff r A), A in Ha].
    destruct (check_policy_cases rs r Hn Hr A) as [[Hag E]|(_ & E & _)]; fold f in E; [|congruence].
    rewrite E in *. by split_and!. }
  assert (∀ t t', served (f <$> rs) t → served (f <$> rs) t' → same_name t t' → policy_of t = policy_of t') as Hag.
  { intros t t' (r & Hr & _ & _ & Ht & Hag)%Hsv (r' & Hr' & _ & Ha' & Ht' & _)%Hsv Hs.
    apply Hag; [done|by exists r'|done]. }
  split_and!; [apply length_fmap| |exact Hag|].
  - intros i r r' Hi. rewrite list_lookup_fmap, Hi. intros [= <-]. split; [apply Hoff|]. intros A.
    apply list_elem_of_lookup_2 in Hi.
    destruct (check_policy_cases rs r Hn Hi A) as [[H E]|(H & E & ? & ? & ?)]; fold f in E.
    + rewrite E, A. by split_and!.
    + rewrite E. split; [by split|]. by split.
  - assert (named (f <$> rs)) as Hn'.
    { intros r' t (r & -> & Hr)%list_elem_of_fmap. destruct (Available r) eqn:A; [|rewrite (Hoff r A); by apply Hn].
      destruct (check_policy_cases rs r Hn Hr A) as [[_ E]|(_ & _ & _ & E & _)]; fold f in E; rewrite E;
        [by apply Hn|by intros ?%not_elem_of_nil]. }
    set (g := check_policy _ _). apply list_eq. intros i. rewrite list_lookup_fmap.
    destruct ((f <$> rs) !! i) as [r|] eqn:E; [|done]. simpl. f_equal. apply list_elem_of_lookup_2 in E.
    destruct (Available r) eqn:A; [|unfold g, check_policy; by rewrite A].
    destruct (check_policy_cases (f <$> rs) r Hn' E A) as [[_ Hg]|[H _]]; [exact Hg|]. destruct H.
    intros t t' Ht Ht'. apply Hag; [by exists r|done].
Qed.

(** Resolving names every tool it serves. *)
Lemma Resolve_named journey snapshot metaKey : named [Resolve journey snapshot metaKey].
Proof.
  intros r t ->%list_elem_of_singleton Ht.
  destruct (Available (Resolve journey snapshot metaKey)) eqn:A.
  - destruct (Available_inv _ _ _ A) as (_ & Hno & E). rewrite E, merge_sort_Permutation in Ht.
    pose proof (chosen_sound _ _ _ _ Hno Ht) as [_ _ [V _] _ _].
    apply elem_of_chosen in Ht as (d & sel & _ & Hs & ->). simpl in *. split; [|by intros E0; rewrite E0 in V].
    eapply selected_key. by rewrite Hs.
  - exfalso. revert Ht. assert ((Resolve journey snapshot metaKey).(r_Tools) = []) as ->; [|apply not_elem_of_nil].
    revert A. unfold Available. intros Hb%bool_decide_eq_false. revert Hb. unfold Resolve.
    destruct (_ && _); [done|]. cbv zeta. by case_match.
Qed.
