(* ===== verification/Service.v ===== *)
(** * Programs that call the journal

    Code outside [internal/journal] runs one transaction after another; each
    commits or rolls back on its own, and an error stops the program but undoes
    nothing that was committed before.  [prog S] is the monad of such programs
    over a state [S], the state after the program and its result; [svc] is the
    instance where the state is the database alone. *)
From S2P Require Import Prelude GoText Db.

Definition prog (S E A : Type) : Type := S → S * result E A.
Abbreviation svc := (prog db).

#[export] Instance prog_ret S E : MRet (prog S E) := λ A a s, (s, Ok a).
#[export] Instance prog_bind S E : MBind (prog S E) := λ A B f m s,
  match m s with
  | (s', Ok a) => f a s'
  | (s', Err e) => (s', Err e)
  end.

Definition throw {S E A} (e : E) : prog S E A := λ s, (s, Err e).
Definition lift_result {S E A} (r : result E A) : prog S E A := λ s, (s, r).
Definition unless {S E} (b : bool) (e : E) : prog S E unit := if b then mret tt else throw e.
Definition asks {S E A} (f : S → A) : prog S E A := λ s, (s, Ok (f s)).
Definition update {S E} (f : S → S) : prog S E unit := λ s, (f s, Ok tt).
(** The error of a call as a value; what the call did stays done. *)
Definition try {S E F A} (m : prog S E A) : prog S F (result E A) := λ s, let '(s', r) := m s in (s', Ok r).

(** One transaction; [wrap] is what the caller makes of the journal's error. *)
Definition run_tx {E A} (wrap : error → E) (t : tx A) : svc E A := λ s,
  match t s with
  | Ok (a, s') => (s', Ok a)
  | Err e => (s, Err (wrap e))
  end.

(** What one call of the database meets: the time of its transaction, what
    others committed before it, and whether the database fails, before the
    transaction took effect or after.  The error is then not the journal's. *)
Inductive fault := NoFault | Lost | LostAfterCommit.
Inductive store_error := SJournal (e : error) | SDatabase.
Record moment := mk_moment { m_now : Z; m_others : db → db; m_fault : fault }.

Definition transact {A} (m : moment) (t : Z → tx A) : svc store_error A := λ s,
  let s := m.(m_others) s in
  match m.(m_fault), t m.(m_now) s with
  | Lost, _ => (s, Err SDatabase)
  | _, Err e => (s, Err (SJournal e))
  | NoFault, Ok (a, s') => (s', Ok a)
  | LostAfterCommit, Ok (_, s') => (s', Err SDatabase)
  end.
#[global] Arguments transact {A} _ _ _ : simpl never.
(** The same with an error type of the caller's. *)
Definition at_moment {E A} (wrap : store_error → E) (m : moment) (t : Z → tx A) : svc E A := λ s,
  let '(s, r) := transact m t s in (s, match r with Ok a => Ok a | Err e => Err (wrap e) end).

(** ** Taking a program apart *)

Lemma svc_bind_ok {S E A B} (m : prog S E A) (f : A → prog S E B) s s' b :
  (m ≫= f) s = (s', Ok b) ↔ ∃ a s1, m s = (s1, Ok a) ∧ f a s1 = (s', Ok b).
Proof.
  unfold mbind, prog_bind. destruct (m s) as [s1 [a|e]]; split.
  - eauto.
  - by intros (? & ? & [= <- <-] & ?).
  - done.
  - by intros (? & ? & ? & ?).
Qed.

Lemma asks_bind {S E A B} (g : S → A) (f : A → prog S E B) s : (asks g ≫= f) s = f (g s) s.
Proof. done. Qed.
Lemma update_bind {S E B} (g : S → S) (f : unit → prog S E B) s : (update g ≫= f) s = f tt (g s).
Proof. done. Qed.

Lemma run_tx_ok {E A} (wrap : error → E) (t : tx A) s s' a : run_tx wrap t s = (s', Ok a) ↔ t s = Ok (a, s').
Proof. unfold run_tx. destruct (t s) as [[b s1]|e]; naive_solver. Qed.

Lemma run_tx_err {E A} (wrap : error → E) (t : tx A) s s' e :
  run_tx wrap t s = (s', Err e) → s' = s ∧ ∃ e', t s = Err e' ∧ e = wrap e'.
Proof. unfold run_tx. destruct (t s) as [[b s1]|e']; naive_solver. Qed.

(** A transaction the caller saw commit; one it saw fail; and, whatever it saw,
    that it committed or did not. *)
Lemma transact_ok {A} m (t : Z → tx A) s s' a : transact m t s = (s', Ok a) → t m.(m_now) (m.(m_others) s) = Ok (a, s').
Proof. unfold transact. cbv zeta. destruct (m_fault m), (t _ _) as [[b s1]|e]; naive_solver. Qed.
Lemma transact_journal {A} m (t : Z → tx A) s s' e : transact m t s = (s', Err (SJournal e)) →
  s' = m.(m_others) s ∧ t m.(m_now) (m.(m_others) s) = Err e.
Proof. unfold transact. cbv zeta. destruct (m_fault m), (t _ _) as [[b s1]|e']; naive_solver. Qed.
Lemma transact_committed {A} m (t : Z → tx A) s s' r : transact m t s = (s', r) →
  s' = m.(m_others) s ∨ ∃ a, t m.(m_now) (m.(m_others) s) = Ok (a, s').
Proof. unfold transact. cbv zeta. destruct (m_fault m), (t _ _) as [[b s1]|e']; naive_solver. Qed.

Lemma unless_ok {S E} b (e : E) (s s' : S) u : unless b e s = (s', Ok u) ↔ b = true ∧ s' = s.
Proof. destruct u. unfold unless. destruct b; simpl; [|by split; [|intros [? _]]].
  unfold mret, prog_ret. naive_solver. Qed.

Lemma lift_result_ok {S E A} (r : result E A) (s s' : S) a : lift_result r s = (s', Ok a) ↔ r = Ok a ∧ s' = s.
Proof. unfold lift_result. naive_solver. Qed.

(** Takes apart a program that returned normally. *)
Ltac svcsimpl :=
  repeat match goal with
  | H : (_ ≫= _) _ = (_, Ok _) |- _ =>
      let a := fresh "a" in let s := fresh "s" in let H' := fresh H in
      apply svc_bind_ok in H as (a & s & H' & H)
  | H : run_tx _ _ _ = (_, Ok _) |- _ => apply run_tx_ok in H
  | H : unless _ _ _ = (_, Ok _) |- _ => apply unless_ok in H as [H ->]
  | H : lift_result _ _ = (_, Ok _) |- _ => apply lift_result_ok in H as [H ->]
  | H : throw _ _ = (_, Ok _) |- _ => discriminate H
  | H : mret _ _ = (_, Ok _) |- _ => injection H as <- <-
  end.

(** ** Properties of every outcome

    [hoare P m Q]: from a state with [P] the outcome of [m] satisfies [Q], an
    error included. *)
Section hoare.
Context {S E : Type}.

Definition hoare {A} (P : S → Prop) (m : prog S E A) (Q : result E A → S → Prop) : Prop :=
  ∀ s, P s → Q (m s).2 (m s).1.

Lemma hoare_bind {A B} P (m : prog S E A) (f : A → prog S E B) (R : A → S → Prop) Q :
  hoare P m (λ r s, match r with Ok a => R a s | Err e => Q (Err e) s end) →
  (∀ a, hoare (R a) (f a) Q) → hoare P (m ≫= f) Q.
Proof.
  intros Hm Hf s Hs. specialize (Hm s Hs). unfold mbind, prog_bind. destruct (m s) as [s1 [a|e]]; simpl in *; [by apply Hf|done].
Qed.

Lemma hoare_ret {A} (P : S → Prop) (a : A) (Q : result E A → S → Prop) : (∀ s, P s → Q (Ok a) s) → hoare P (mret a) Q.
Proof. intros H s Hs. by apply H. Qed.

Lemma hoare_throw {A} (P : S → Prop) (e : E) (Q : result E A → S → Prop) : (∀ s, P s → Q (Err e) s) → hoare P (throw e) Q.
Proof. intros H s Hs. by apply H. Qed.

Lemma hoare_lift {A} (P : S → Prop) (r : result E A) (Q : result E A → S → Prop) : (∀ s, P s → Q r s) → hoare P (lift_result r) Q.
Proof. intros H s Hs. by apply H. Qed.

Lemma hoare_asks {A} (P : S → Prop) (f : S → A) (Q : result E A → S → Prop) :
  (∀ s, P s → Q (Ok (f s)) s) → hoare P (asks f) Q.
Proof. intros H s Hs. by apply H. Qed.

Lemma hoare_update (P : S → Prop) (f : S → S) (Q : result E unit → S → Prop) :
  (∀ s, P s → Q (Ok tt) (f s)) → hoare P (update f) Q.
Proof. intros H s Hs. by apply H. Qed.

Lemma hoare_weaken {A} (P P' : S → Prop) (m : prog S E A) (Q Q' : result E A → S → Prop) :
  hoare P' m Q' → (∀ s, P s → P' s) → (∀ r s, Q' r s → Q r s) → hoare P m Q.
Proof. intros H HP HQ s Hs. by apply HQ, H, HP. Qed.

Lemma hoare_pure {A} (φ : Prop) (P : S → Prop) (m : prog S E A) (Q : result E A → S → Prop) :
  (φ → hoare P m Q) → hoare (λ s, φ ∧ P s) m Q.
Proof. intros H s [Hφ Hs]. by apply H. Qed.
End hoare.

Lemma hoare_try {S E F A} (P : S → Prop) (m : prog S E A) (Q : result F (result E A) → S → Prop) :
  hoare P m (λ r s, Q (Ok r) s) → hoare P (try m) Q.
Proof. intros H s Hs. specialize (H s Hs). unfold try. by destruct (m s). Qed.

(** [always R m]: [R] relates the states before and after [m], whatever its
    result.  For a reflexive and transitive [R] it is proved by walking over
    the program's text. *)
Section always.
Context {S E : Type} (R : relation S) `{HR : !PreOrder R}.

Definition always {A} (m : prog S E A) : Prop := ∀ s, R s (m s).1.

Lemma always_ret {A} (a : A) : always (mret a).
Proof using HR. intros s. reflexivity. Qed.
Lemma always_throw {A} (e : E) : always (@throw S E A e).
Proof using HR. intros s. reflexivity. Qed.
Lemma always_lift {A} (r : result E A) : always (lift_result r).
Proof using HR. intros s. reflexivity. Qed.
Lemma always_asks {A} (f : S → A) : always (asks f).
Proof using HR. intros s. reflexivity. Qed.
Lemma always_unless b e : always (unless b e).
Proof using HR. intros s. destruct b; reflexivity. Qed.
Lemma always_update f : (∀ s, R s (f s)) → always (update f).
Proof. intros H s. apply H. Qed.
Lemma always_bind {A B} (m : prog S E A) (f : A → prog S E B) : always m → (∀ a, always (f a)) → always (m ≫= f).
Proof using HR.
  intros Hm Hf s. unfold mbind, prog_bind. specialize (Hm s). destruct (m s) as [s1 [a|e]]; simpl in *; [|done].
  etransitivity; [done|apply Hf].
Qed.
End always.

Lemma always_try {S E F A} (R : relation S) (m : prog S E A) : always R m → always (E := F) R (try m).
Proof. intros H s. specialize (H s). unfold try. by destruct (m s). Qed.

Ltac always_walk :=
  repeat match goal with
  | |- always _ (_ ≫= _) => apply always_bind; [apply _| |intros ?]
  | |- always _ (mret _) => apply always_ret, _
  | |- always _ (throw _) => apply always_throw, _
  | |- always _ (lift_result _) => apply always_lift, _
  | |- always _ (asks _) => apply always_asks, _
  | |- always _ (unless _ _) => apply always_unless, _
  | |- always _ (try _) => apply always_try
  | |- always _ (if ?b then _ else _) => destruct b
  | |- always _ (match ?x with _ => _ end) => destruct x
  | |- always _ (let '(_, _) := ?x in _) => destruct x
  end.

(** What a relation [R] keeps, seen from one state: a precondition that [R]
    preserves survives. *)
Lemma hoare_always {S E A} (R : relation S) (P : S → Prop) (m : prog S E A) :
  always R m → (∀ s s', R s s' → P s → P s') → hoare P m (λ _, P).
Proof. intros Hm HP s Hs. by eapply HP. Qed.

Lemma hoare_unless {S E} (P : S → Prop) b (e : E) (Q : result E unit → S → Prop) :
  (∀ s, P s → b = true → Q (Ok tt) s) → (∀ s, P s → b = false → Q (Err e) s) → hoare P (unless b e) Q.
Proof. intros H1 H2 s Hs. destruct b; [by apply H1|by apply H2]. Qed.

(** [ends R RE m]: the same with a relation [RE] for the outcomes that are
    errors.  What a program does before an error counts for [RE]. *)
Class Endings {S} (R RE : relation S) : Prop := {
  en_preorder : PreOrder R;
  en_error s s' : R s s' → RE s s';
  en_trans s1 s2 s3 : R s1 s2 → RE s2 s3 → RE s1 s3;
}.
#[export] Instance endings_same {S} (R : relation S) `{!PreOrder R} : Endings R R.
Proof. split; [done|done|]. intros s1 s2 s3. apply transitivity. Qed.
(** Nothing is said of an error. *)
Definition whatever {S} : relation S := λ _ _, True.
#[export] Instance endings_any {S} (R : relation S) `{!PreOrder R} : Endings R whatever.
Proof. split; done. Qed.

Section ends.
Context {S E : Type} (R RE : relation S) `{HE : !Endings R RE}.
#[local] Instance ends_preorder : PreOrder R := en_preorder.

Definition ends {A} (m : prog S E A) : Prop := ∀ s, match m s with (s', Ok _) => R s s' | (s', Err _) => RE s s' end.

Lemma ends_always {A} (m : prog S E A) : always R m → ends m.
Proof using HE. intros H s. specialize (H s). destruct (m s) as [s' [a|e]]; [done|by apply (en_error (R := R))]. Qed.
Lemma ends_bind {A B} (m : prog S E A) (f : A → prog S E B) : ends m → (∀ a, ends (f a)) → ends (m ≫= f).
Proof using HE.
  intros Hm Hf s. unfold mbind, prog_bind. specialize (Hm s). destruct (m s) as [s1 [a|e]]; [|done].
  specialize (Hf a s1). destruct (f a s1) as [s2 [b|e]]; [by etransitivity|by eapply en_trans].
Qed.
End ends.

Ltac ends_walk :=
  repeat match goal with
  | |- ends _ _ (_ ≫= _) => apply ends_bind; [apply _| |intros ?]
  | |- ends _ _ (mret _) => apply ends_always; [apply _|apply always_ret; apply en_preorder]
  | |- ends _ _ (throw _) => apply ends_always; [apply _|apply always_throw; apply en_preorder]
  | |- ends _ _ (lift_result _) => apply ends_always; [apply _|apply always_lift; apply en_preorder]
  | |- ends _ _ (asks _) => apply ends_always; [apply _|apply always_asks; apply en_preorder]
  | |- ends _ _ (unless _ _) => apply ends_always; [apply _|apply always_unless; apply en_preorder]
  | |- ends _ _ (if ?b then _ else _) => destruct b
  | |- ends _ _ (match ?x with _ => _ end) => destruct x
  | |- ends _ _ (let '(_, _) := ?x in _) => destruct x
  end.
