(* ===== verification/Binding.v ===== *)
(** * Catalog bindings

    [internal/catalog/descriptor.go] and the parts of
    [internal/catalog/binding.go] around the MCP session: decoding the
    advertised tools, reusing or replacing the conversation's pinned snapshot,
    resolving every journey, and the lookups by alias.  The session itself
    (listing and calling tools) and JSON decoding are parameters. *)
From S2P Require Import Prelude GoText.
From S2P Require Import Db CallBinding JournalCore Commands Runs Records Keeps Service.
From S2P Require Import Selectors Journey Resolve ResolveSpec.

(** ** Descriptors *)

(** [rawDescriptor] as [json.Unmarshal] fills it; [raw_Annotations] is the
    [readOnlyHint] of the annotations, when there are any. *)
Record rawDescriptor := mk_rawDescriptor {
  raw_Name : string; raw_Description : string; raw_InputSchema : string;
  raw_Meta : gmap string any; raw_Annotations : option any;
}.

Inductive binding_error :=
| EJournal (e : error)
| EDatabase
| EndpointUnavailable
| EAuthRequired
| EMissing
| EEncode
| EMalformed
| EAliasClash (alias : string).

Section descriptors.
(** [json.Unmarshal] into a slice of raw messages ([None] for an error and for
    [null]) and into a [rawDescriptor]. *)
Context (unmarshal_array : string → option (list string)) (unmarshal_raw : string → option rawDescriptor).

Definition ParseDescriptor (element : string) : result binding_error Descriptor :=
  match unmarshal_raw element with
  | None => Err EMalformed
  | Some d =>
      if bool_decide (d.(raw_Name) = "") then Err EMalformed
      else
        let hint := match d.(raw_Annotations) with Some (ABool true) => true | _ => false end in
        Ok (mk_Descriptor d.(raw_Name) d.(raw_Description) d.(raw_InputSchema) d.(raw_Meta) hint element)
  end.

Fixpoint parse_elements (l : list string) : result binding_error (list Descriptor) :=
  match l with
  | [] => Ok []
  | x :: l => d ← ParseDescriptor x; ds ← parse_elements l; Ok (d :: ds)
  end.

Definition ParseDescriptors (raw : string) : result binding_error (list Descriptor) :=
  match unmarshal_array raw with
  | None => Err EMalformed
  | Some elements => parse_elements elements
  end.
End descriptors.

(** ** The binding *)

Record Binding := mk_Binding {
  b_resolutions : list Resolution; b_byAlias : gmap string Tool;
  b_digest : string; b_productVersion : string; b_serverName : string; b_serverVersion : string;
}.

(** The alias table, over the tools of one resolution and over all of them. *)
Fixpoint bind_aliases (byAlias : gmap string Tool) (ts : list Tool) : result binding_error (gmap string Tool) :=
  match ts with
  | [] => Ok byAlias
  | t :: ts =>
      match byAlias !! t.(t_Alias) with
      | Some prior =>
          if bool_decide (prior.(t_RemoteName) = t.(t_RemoteName)) then bind_aliases byAlias ts
          else Err (EAliasClash t.(t_Alias))
      | None => bind_aliases (<[t.(t_Alias) := t]> byAlias) ts
      end
  end.

Fixpoint bind_resolutions (byAlias : gmap string Tool) (rs : list Resolution)
    : result binding_error (gmap string Tool) :=
  match rs with
  | [] => Ok byAlias
  | r :: rs =>
      if Available r then m ← bind_aliases byAlias r.(r_Tools); bind_resolutions m rs
      else bind_resolutions byAlias rs
  end.

(** [Binding.Resolution], [Binding.Tool] and [Binding.Tools]. *)
Definition Binding_Resolution (b : Binding) (journeyID : string) : option Resolution :=
  head (filter (λ r, r.(r_JourneyID) = journeyID) b.(b_resolutions)).

Definition Binding_Tool (b : Binding) (journeyID alias : string) : option Tool :=
  r ← Binding_Resolution b journeyID;
  if Available r then head (filter (λ t, t.(t_Alias) = alias) r.(r_Tools)) else None.

(** The tools of the listed journeys, one for each alias; the decoded schema is
    the adapter's business. *)
Definition add_tools (seen : list Tool) (ts : list Tool) : list Tool :=
  foldl (λ seen t, if contains t.(t_Alias) (t_Alias <$> seen) then seen else seen ++ [t]) seen ts.
Definition Binding_Tools (b : Binding) (journeyIDs : list string) : list Tool :=
  foldl (λ seen r, if negb (Available r) || negb (contains r.(r_JourneyID) journeyIDs) then seen
                   else add_tools seen r.(r_Tools)) [] b.(b_resolutions).

(** ** Calls *)

(** What [session.CallTool] returns. *)
Inductive call_result :=
| RCompleted (structured : string)
| RToolError
| RAuthRequired
| RNotPermitted
| RError.

Inductive call_error := ErrNotBound | ErrAuthRequired | ErrNotPermitted | ErrBusinessRejected | ErrCall.

(** [Binding.Call]: the result, and [b.broken] afterwards; the remote tool is
    asked only under the name it was advertised with. *)
Definition Binding_Call (call : string → string → call_result) (b : Binding) (broken : bool) (alias arguments : string)
    : result call_error string * bool :=
  match b.(b_byAlias) !! alias with
  | None => (Err ErrNotBound, broken)
  | Some t =>
      if broken then (Err ErrAuthRequired, broken)
      else match call t.(t_RemoteName) arguments with
           | RAuthRequired => (Err ErrAuthRequired, true)
           | RNotPermitted => (Err ErrNotPermitted, broken)
           | RError => (Err ErrCall, broken)
           | RToolError => (Err ErrBusinessRejected, broken)
           | RCompleted v => (Ok v, broken)
           end
  end.

(** ** Opening a binding *)

Record Scope := mk_Scope { sc_ProductVersion : string; sc_Endpoint : string }.

(** Ages and times to live in microseconds, as the journal keeps them. *)
Definition DefaultSnapshotTTL : Z := 10 * 60 * 1000000.

Definition pin_usable (ttl : Z) (scope : Scope) (serverVersion : string) (pin : CatalogPin) : bool :=
  (0 <? ttl) && (pin.(cp_Age) <? ttl)
  && bool_decide (pin.(cp_Snapshot).(cs_ProductVersion) = scope.(sc_ProductVersion))
  && bool_decide (pin.(cp_Snapshot).(cs_EndpointID) = scope.(sc_Endpoint))
  && bool_decide (pin.(cp_Snapshot).(cs_ServerVersion) = serverVersion).

Section open.
Context `{Codec}.
Context (unmarshal_array : string → option (list string)) (unmarshal_raw : string → option rawDescriptor).
(** How a transaction of the journal is run: on which database and when. *)
Context {S : Type} (call : ∀ A, (Z → tx A) → prog S binding_error A).
Arguments call {A} _.

(** The digest and the descriptors a binding works with: the pinned ones while
    they are fresh, else what the session lists now ([listed]; an error when
    listing or encoding failed). *)
Definition capture (owner : Owner) (scope : Scope) (serverVersion : string) (optTTL : Z)
    (listed : prog S binding_error string) : prog S binding_error (string * string) :=
  let ttl := if optTTL =? 0 then DefaultSnapshotTTL else optTTL in
  pin ← call (λ now, ConversationPin now owner);
  let fresh := descriptors ← listed;
    digest ← call (λ now, CommitSnapshot now owner (mk_CatalogSnapshot "" "" "" scope.(sc_ProductVersion)
               scope.(sc_Endpoint) serverVersion descriptors 0));
    mret (digest, descriptors) in
  match pin with
  | Some pin =>
      if pin_usable ttl scope serverVersion pin then
        _ ← call (λ now, RecordRunCatalog now owner pin.(cp_Snapshot).(cs_Digest));
        mret (pin.(cp_Snapshot).(cs_Digest), pin.(cp_Snapshot).(cs_Descriptors))
      else fresh
  | None => fresh
  end.

Definition resolve_set (set : DefSet) (snapshot : Snapshot) : list Resolution :=
  CheckPolicies ((λ j, Resolve j snapshot set.(set_catalog).(OperationMetaKey)) <$> Journeys set).

Definition open (owner : Owner) (scope : Scope) (set : DefSet) (optTTL : Z)
    (serverName serverVersion : string) (listed : prog S binding_error string) : prog S binding_error Binding :=
  let info := json_object [("name", json_string serverName); ("version", json_string serverVersion)] in
  _ ← call (λ now, RecordServerInfo now owner info);
  c ← capture owner scope serverVersion optTTL listed;
  tools ← lift_result (ParseDescriptors unmarshal_array unmarshal_raw c.2);
  let snapshot := mk_Snapshot c.1 scope.(sc_ProductVersion) scope.(sc_Endpoint) serverVersion tools in
  let resolutions := resolve_set set snapshot in
  byAlias ← lift_result (bind_resolutions ∅ resolutions);
  mret (mk_Binding resolutions byAlias c.1 scope.(sc_ProductVersion) serverName serverVersion).
End open.

(** Transactions one after the other, at given times, with no other process in
    between. *)
Definition at_times A (t : Z → tx A) : prog (list Z * db) binding_error A := λ p,
  let '(s, r) := run_tx EJournal (t (hd 0 p.1)) p.2 in ((tl p.1, s), r).

Lemma at_times_ok A (t : Z → tx A) p p' a : at_times A t p = (p', Ok a) ↔ t (hd 0 p.1) p.2 = Ok (a, p'.2) ∧ p'.1 = tl p.1.
Proof.
  unfold at_times, run_tx. destruct p as [ts s], p' as [ts' s']. simpl. destruct (t _ s) as [[b s1]|e]; naive_solver.
Qed.

#[local] Set Default Proof Using "Type".

(** ** The alias table *)

(** A table built over the tools [P] of available resolutions. *)
Record bound (P : list Tool) (m : gmap string Tool) : Prop := {
  bd_from : ∀ a t, m !! a = Some t → t ∈ P ∧ t.(t_Alias) = a;
  bd_all : ∀ t, t ∈ P → ∃ t', m !! t.(t_Alias) = Some t' ∧ t'.(t_RemoteName) = t.(t_RemoteName);
}.

Lemma bind_aliases_ok P m ts m' : bound P m → bind_aliases m ts = Ok m' → bound (P ++ ts) m'.
Proof.
  revert P m. induction ts as [|t ts IH]; intros P m Hb Hm; simpl in Hm.
  { injection Hm as <-. by rewrite app_nil_r. }
  replace (P ++ t :: ts) with ((P ++ [t]) ++ ts) by (by rewrite <- app_assoc). destruct Hb as [Hf Ha].
  destruct (m !! t.(t_Alias)) as [prior|] eqn:E.
  - case_bool_decide as Hr; [|done]. apply (IH (P ++ [t]) m); [|done]. split.
    + intros a x Hx. destruct (Hf a x Hx) as [Hin ?]. split; [|done]. apply elem_of_app. by left.
    + intros x [Hx| ->%list_elem_of_singleton]%elem_of_app; [by apply Ha|]. by exists prior.
  - apply (IH (P ++ [t]) (<[t.(t_Alias) := t]> m)); [|done]. split.
    + intros a x. destruct (decide (t.(t_Alias) = a)) as [<-|Hne].
      * rewrite lookup_insert_eq. intros [= <-]. split; [|done]. apply elem_of_app. right. by apply list_elem_of_singleton.
      * rewrite lookup_insert_ne by done. intros Hx. destruct (Hf a x Hx). split; [|done]. apply elem_of_app. by left.
    + intros x [Hx| ->%list_elem_of_singleton]%elem_of_app.
      * destruct (Ha x Hx) as (x' & Hx' & Hn). exists x'. split; [|done].
        rewrite lookup_insert_ne; [done|]. intros Heq. rewrite Heq in E. congruence.
      * exists t. by rewrite lookup_insert_eq.
Qed.

(** The tools of the available resolutions, in order. *)
Definition served_tools (rs : list Resolution) : list Tool :=
  rs ≫= λ r, if Available r then r.(r_Tools) else [].

Lemma elem_of_served rs t : t ∈ served_tools rs ↔ served rs t.
Proof.
  unfold served_tools, served. rewrite list_elem_of_bind. split.
  - intros (r & Ht & Hr). exists r. destruct (Available r); [done|by apply not_elem_of_nil in Ht].
  - intros (r & Hr & Ha & Ht). exists r. by rewrite Ha.
Qed.

Lemma bind_resolutions_ok P m rs m' : bound P m → bind_resolutions m rs = Ok m' → bound (P ++ served_tools rs) m'.
Proof.
  revert P m. induction rs as [|r rs IH]; intros P m Hb Hm; simpl in Hm.
  { injection Hm as <-. by rewrite app_nil_r. }
  unfold served_tools. rewrite bind_cons. fold (served_tools rs).
  destruct (Available r); [|by apply (IH P m)]. gosimpl. rewrite app_assoc. eapply IH; [|exact Hm].
  by eapply bind_aliases_ok.
Qed.

Lemma bind_empty_ok rs m : bind_resolutions ∅ rs = Ok m → bound (served_tools rs) m.
Proof. apply (bind_resolutions_ok [] ∅). split; [by intros ? ?; rewrite lookup_empty|by intros ? ?%not_elem_of_nil]. Qed.

(** ** Listing tools *)

Lemma add_tools_ok seen ts : NoDup (t_Alias <$> seen) →
  NoDup (t_Alias <$> add_tools seen ts) ∧
  (∀ t, t ∈ add_tools seen ts → t ∈ seen ∨ t ∈ ts) ∧
  (∀ t, t ∈ seen → t ∈ add_tools seen ts) ∧
  (∀ t, t ∈ ts → t.(t_Alias) ∈ t_Alias <$> add_tools seen ts).
Proof.
  unfold add_tools. revert seen. induction ts as [|t ts IH]; intros seen HN; cbn [foldl].
  { split_and!; [done|by left|done|by intros ? ?%not_elem_of_nil]. }
  set (seen' := if contains _ _ then seen else _).
  assert (NoDup (t_Alias <$> seen') ∧ (∀ x, x ∈ seen' → x ∈ seen ∨ x = t) ∧ (∀ x, x ∈ seen → x ∈ seen') ∧
    t.(t_Alias) ∈ t_Alias <$> seen') as (HN' & Hs & Hk & Ht).
  { unfold seen'. destruct (contains _ _) eqn:C; [apply contains_true in C|apply contains_false in C];
      split_and!; try done; [by left| | | |].
    - rewrite fmap_app. apply NoDup_app. split_and!; [done| |apply NoDup_singleton]. intros a Ha ->%list_elem_of_singleton. done.
    - intros x [?| ->%list_elem_of_singleton]%elem_of_app; [by left|by right].
    - intros x Hx. apply elem_of_app. by left.
    - rewrite fmap_app. apply elem_of_app. right. by apply list_elem_of_singleton. }
  destruct (IH seen' HN') as (H1 & H2 & H3 & H4). split_and!; [done| | |].
  - intros x [Hx|Hx]%H2; [apply Hs in Hx as [?| ->]; [by left|right; apply list_elem_of_here]|right].
    apply elem_of_cons. by right.
  - intros x Hx. by apply H3, Hk.
  - intros x [->|Hx]%elem_of_cons; [|by apply H4]. apply list_elem_of_fmap in Ht as (y & Hy & Hin).
    rewrite Hy. apply list_elem_of_fmap_2. by apply H3.
Qed.

Lemma Binding_Tools_ok b ids :
  let out := Binding_Tools b ids in
  let shown r := Available r = true ∧ r.(r_JourneyID) ∈ ids in
  NoDup (t_Alias <$> out) ∧
  (∀ t, t ∈ out → ∃ r, r ∈ b.(b_resolutions) ∧ shown r ∧ t ∈ r.(r_Tools)) ∧
  (∀ r t, r ∈ b.(b_resolutions) → shown r → t ∈ r.(r_Tools) → t.(t_Alias) ∈ t_Alias <$> out).
Proof.
  unfold Binding_Tools. cbv zeta.
  assert (∀ rs seen, NoDup (t_Alias <$> seen) →
    let out := foldl (λ seen r, if negb (Available r) || negb (contains r.(r_JourneyID) ids) then seen
      else add_tools seen r.(r_Tools)) seen rs in
    NoDup (t_Alias <$> out) ∧
    (∀ t, t ∈ out → t ∈ seen ∨ ∃ r, r ∈ rs ∧ (Available r = true ∧ r.(r_JourneyID) ∈ ids) ∧ t ∈ r.(r_Tools)) ∧
    (∀ t, t ∈ seen → t ∈ out) ∧
    (∀ r t, r ∈ rs → Available r = true ∧ r.(r_JourneyID) ∈ ids → t ∈ r.(r_Tools) → t.(t_Alias) ∈ t_Alias <$> out)) as H.
  { induction rs as [|r rs IH]; intros seen HN; cbn [foldl].
    { split_and!; [done|by left|done|by intros ? ? ?%not_elem_of_nil]. }
    destruct (negb (Available r) || negb (contains (r_JourneyID r) ids)) eqn:B.
    - destruct (IH seen HN) as (H1 & H2 & H3 & H4). split_and!; try done.
      + intros t Ht. destruct (H2 t Ht) as [?|(x & ? & ? & ?)]; [by left|right; exists x].
        split; [apply elem_of_cons; by right|by split].
      + intros x t [->|Hx]%elem_of_cons Hs; [|by apply H4]. destruct Hs as [Ha Hid%contains_true].
        by rewrite Ha, Hid in B.
    - apply orb_false_iff in B as [Ha%negb_false_iff Hid%negb_false_iff%contains_true].
      destruct (add_tools_ok seen r.(r_Tools) HN) as (A1 & A2 & A3 & A4).
      destruct (IH _ A1) as (H1 & H2 & H3 & H4). split_and!; try done.
      + intros t Ht. destruct (H2 t Ht) as [[?|?]%A2|(x & ? & ? & ?)]; [by left|right; exists r|right; exists x];
          (split; [|split; [done || by split|done]]); [apply list_elem_of_here|apply elem_of_cons; by right].
      + intros t Ht. by apply H3, A3.
      + intros x t [->|Hx]%elem_of_cons Hs Ht; [|by apply (H4 x)].
        apply A4, list_elem_of_fmap in Ht as (y & -> & Hy). by apply list_elem_of_fmap_2, H3. }
  destruct (H b.(b_resolutions) [] (NoDup_nil_2)) as (H1 & H2 & _ & H4). split_and!; [done| |done].
  intros t Ht. destruct (H2 t Ht) as [Hn%not_elem_of_nil|?]; done.
Qed.

Lemma resolve_set_served set snapshot t : served (resolve_set set snapshot) t →
  ∃ j, j ∈ Journeys set ∧
    sound_tool j set.(set_catalog).(OperationMetaKey) snapshot.(sn_Tools) t.
Proof.
  intros (r & Hr & Ha & Ht). unfold resolve_set, CheckPolicies in Hr.
  apply list_elem_of_fmap in Hr as (r0 & -> & Hr0). revert Ha Ht. unfold check_policy.
  destruct (Available r0) eqn:A0; cbn [negb]; [|congruence].
  destruct (conflicts _ _ _) as [|x l].
  - intros _ Ht. apply list_elem_of_fmap in Hr0 as (j & -> & Hj). exists j. split; [done|].
    destruct (Available_inv _ _ _ A0) as (_ & Hno & E). rewrite E, merge_sort_Permutation in Ht. by apply chosen_sound.
  - intros _. cbn [r_Tools]. by intros ?%not_elem_of_nil.
Qed.

Lemma resolve_set_policies set snapshot t t' : served (resolve_set set snapshot) t →
  served (resolve_set set snapshot) t' → same_name t t' → policy_of t = policy_of t'.
Proof.
  apply CheckPolicies_spec. intros r x (j & -> & _)%list_elem_of_fmap Hx.
  eapply Resolve_named; [by apply list_elem_of_singleton|exact Hx].
Qed.

(** ** Opening *)

Section opening.
Context `{codec : Codec}.
Context (unmarshal_array : string → option (list string)) (unmarshal_raw : string → option rawDescriptor).
Context {S : Type} (call : ∀ A, (Z → tx A) → prog S binding_error A).
Context (owner : Owner) (scope : Scope) (set : DefSet) (ttl : Z) (name version : string)
  (listed : prog S binding_error string).
Abbreviation info := (json_object [("name", json_string name); ("version", json_string version)]).
Abbreviation open_now := (open unmarshal_array unmarshal_raw call owner scope set ttl name version listed).

(** What a binding was made from. *)
Record opened (s s' : S) (b : Binding) (s1 : S) (descriptors : string) (tools : list Descriptor) : Prop := {
  op_info : call _ (λ now, RecordServerInfo now owner info) s = (s1, Ok tt);
  op_capture : capture call owner scope version ttl listed s1 = (s', Ok (b.(b_digest), descriptors));
  op_tools : ParseDescriptors unmarshal_array unmarshal_raw descriptors = Ok tools;
  op_resolutions : b.(b_resolutions) = resolve_set set (mk_Snapshot b.(b_digest) scope.(sc_ProductVersion)
    scope.(sc_Endpoint) version tools);
  op_aliases : bind_resolutions ∅ b.(b_resolutions) = Ok b.(b_byAlias);
  op_rest : b.(b_productVersion) = scope.(sc_ProductVersion) ∧ b.(b_serverName) = name ∧ b.(b_serverVersion) = version;
}.

Lemma open_ok s s' b : open_now s = (s', Ok b) → ∃ s1 descriptors tools, opened s s' b s1 descriptors tools.
Proof.
  intros Ho. unfold open in Ho. svcsimpl. destruct a, a0 as [digest descriptors].
  exists s0, descriptors, a1. by split.
Qed.
End opening.

(** Once a binding is open, what the model is shown can be called: the tools
    listed for a set of journeys have distinct aliases and cover everything
    those journeys serve; each alias is bound to the one remote tool every
    journey that uses it resolved it to, under one policy, and each tool is
    sound for a journey of the set. *)
Theorem open_binds_tools `{Codec} (unmarshal_array : string → option (list string))
    (unmarshal_raw : string → option rawDescriptor) {S : Type} (call : ∀ A, (Z → tx A) → prog S binding_error A)
    (owner : Owner) (scope : Scope) (set : DefSet) (ttl : Z) (name version : string) (listed : prog S binding_error string)
    (s s' : S) (b : Binding) (ids : list string) :
  open unmarshal_array unmarshal_raw call owner scope set ttl name version listed s = (s', Ok b) →
  let out := Binding_Tools b ids in
  let shown r := Available r = true ∧ r.(r_JourneyID) ∈ ids in
  NoDup (t_Alias <$> out) ∧
  (∀ r t, r ∈ b.(b_resolutions) → shown r → t ∈ r.(r_Tools) → t.(t_Alias) ∈ t_Alias <$> out) ∧
  (∀ t, t ∈ out → served b.(b_resolutions) t) ∧
  (∀ t, served b.(b_resolutions) t →
     (∃ t', b.(b_byAlias) !! t.(t_Alias) = Some t' ∧ t'.(t_RemoteName) = t.(t_RemoteName) ∧ policy_of t' = policy_of t) ∧
     ∃ j tools, j ∈ Journeys set ∧ sound_tool j set.(set_catalog).(OperationMetaKey) tools t) ∧
  (∀ a t, b.(b_byAlias) !! a = Some t → served b.(b_resolutions) t ∧ t.(t_Alias) = a).
Proof.
  intros (s1 & descriptors & tools & [_ _ _ Hr Hb _])%open_ok out shown. apply bind_empty_ok in Hb as [Hf Ha].
  destruct (Binding_Tools_ok b ids) as (H1 & H2 & H3). split_and!; [exact H1|exact H3| | |].
  - intros t Ht. destruct (H2 t Ht) as (r & Hin & [Hav _] & Htr). by exists r.
  - intros t Ht. split.
    + destruct (Ha t (proj2 (elem_of_served _ _) Ht)) as (t' & Ht' & Hn). exists t'. split_and!; [done..|].
      destruct (Hf _ _ Ht') as [Hs%elem_of_served Hal]. rewrite Hr in Hs, Ht.
      eapply resolve_set_policies; [exact Hs|exact Ht|by right].
    + rewrite Hr in Ht. apply resolve_set_served in Ht as (j & Hj & Hs). by eexists _, _.
  - intros x t Hx. destruct (Hf x t Hx) as [?%elem_of_served ?]. by split.
Qed.

Lemma RecordServerInfo_ok `{Codec} now o info s a s' : RecordServerInfo now o info s = Ok (a, s') →
  s'.(convs) = s.(convs) ∧ s'.(snapshots) = s.(snapshots).
Proof.
  unfold RecordServerInfo. cbv zeta. intros Ho. tx_guard Ho Hg. tx_step Ho u s1 Hl.
  apply lockOwner_ok in Hl as [-> (r & [Hrun Hthread _ _ _ _ _])]. tx_step Ho text s2 Hj.
  apply the_ok in Hj as (x & _ & [= -> ->]). tx_step Ho n s3 Hu.
  apply (update_run_ok _ _ _ _ _ _ r Hrun Hthread) in Hu as ->. by injection Ho as _ <-.
Qed.

(** The pin after a capture: conversation and run point to its digest. *)
Definition pinned (o : Owner) (digest : string) (s : db) : Prop :=
  (∃ c, s.(convs) !! o.(ow_Command).(c_ThreadID) = Some c ∧ c.(cv_catalog) = Some digest) ∧
  ∃ r, s.(runs) !! o.(ow_Command).(c_RunID) = Some r ∧ r.(rn_catalog) = Some digest.

Lemma CommitSnapshot_ok `{codec : Codec} now o snap s digest s' : CommitSnapshot now o snap s = Ok (digest, s') →
  pinned o digest s' ∧ CatalogDigest (mk_CatalogSnapshot snap.(cs_Digest) o.(ow_Command).(c_Tenant)
    o.(ow_Command).(c_Principal) snap.(cs_ProductVersion) snap.(cs_EndpointID) snap.(cs_ServerVersion)
    snap.(cs_Descriptors) snap.(cs_CapturedAt)) = Ok digest.
Proof.
  unfold CommitSnapshot. cbv zeta. intros Ho. tx_guard Ho Hg1. tx_guard Ho Hg2. tx_step Ho d s1 Hd.
  apply lift_ok in Hd as [Hd ->]. tx_step Ho u s1 Hl.
  apply lockOwner_ok in Hl as [-> (r & [Hrun Hthread _ _ _ _ (c & Hc & _)])].
  tx_get Ho row. tx_the Ho conv Hconv. rewrite Hc in Hconv. injection Hconv as <-.
  tx_step Ho text s2 Hj. apply the_ok in Hj as (x & _ & [= -> ->]). tx_step Ho u1 s2 Hi.
  unfold insert_snapshot in Hi. tx_guard Hi Hs. injection Hi as _ <-. tx_step Ho u2 s3 Hu.
  eapply update_conv_ok in Hu; [|exact Hc]; subst. tx_step Ho n s4 Hu.
  eapply update_run_ok in Hu; [|exact Hrun|exact Hthread]; subst. tx_step Ho u3 s5 Hev. injection Ho as <- <-.
  split; [|exact Hd]. destruct (cv_catalog c) as [previous|]; [case_bool_decide|].
  2:{ eapply appendEvent_ok in Hev as (Hr' & Hc' & _); [|apply lookup_insert_eq]. unfold pinned. rewrite Hr', Hc'.
      split; eexists; (split; [apply lookup_insert_eq|done]). }
  all: injection Hev as _ <-; split; eexists; (split; [apply lookup_insert_eq|done]).
Qed.

Lemma RecordRunCatalog_ok `{Codec} now o digest s a s' : RecordRunCatalog now o digest s = Ok (a, s') → pinned o digest s'.
Proof.
  unfold RecordRunCatalog. cbv zeta. intros Ho. tx_step Ho u s1 Hl.
  apply lockOwner_ok in Hl as [-> (r & [Hrun Hthread _ _ _ _ (c & Hc & _)])].
  tx_get Ho row. tx_the Ho conv Hconv. rewrite Hc in Hconv. injection Hconv as <-. tx_guard Ho Hg.
  tx_step Ho u1 s2 Hu. eapply update_conv_ok in Hu; [|exact Hc]; subst. tx_step Ho n s3 Hu.
  eapply update_run_ok in Hu; [|exact Hrun|exact Hthread]; subst. injection Ho as _ <-. gosimpl.
  split; eexists; (split; [apply lookup_insert_eq|done]).
Qed.

(** A pin [open] may reuse at time [now]. *)
Definition reusable (now ttl : Z) (o : Owner) (scope : Scope) (version : string) (s : db) (digest descriptors : string)
    : Prop :=
  ∃ c row validated, s.(convs) !! o.(ow_Command).(c_ThreadID) = Some c ∧ c.(cv_catalog) = Some digest ∧
    c.(cv_validated) = Some validated ∧ now - validated < ttl ∧ s.(snapshots) !! digest = Some row ∧
    row.(sn_product) = scope.(sc_ProductVersion) ∧ row.(sn_endpoint) = scope.(sc_Endpoint) ∧
    row.(sn_server) = version ∧ row.(sn_descriptors) = descriptors.

(** An opened binding is journaled: conversation and run point to the digest
    it was resolved from, and every journey was resolved, against each other,
    from the descriptors behind that digest.  Those are either the pinned ones,
    which then were validated within the time to live for this very product
    version, endpoint and server version, or what the server lists now, under
    the digest of exactly that snapshot. *)
Theorem open_pins `{Codec} (unmarshal_array : string → option (list string))
    (unmarshal_raw : string → option rawDescriptor) (t0 t1 t2 : Z) (owner : Owner) (scope : Scope) (set : DefSet)
    (optTTL : Z) (name version : string) (listed : result binding_error string) (s s' : db) (ts : list Z) (b : Binding) :
  open unmarshal_array unmarshal_raw at_times owner scope set optTTL name version (lift_result listed) ([t0; t1; t2], s)
    = ((ts, s'), Ok b) →
  let ttl := if optTTL =? 0 then DefaultSnapshotTTL else optTTL in
  pinned owner b.(b_digest) s' ∧
  ∃ descriptors tools, ParseDescriptors unmarshal_array unmarshal_raw descriptors = Ok tools ∧
    b.(b_resolutions) = CheckPolicies ((λ j, Resolve j (mk_Snapshot b.(b_digest) scope.(sc_ProductVersion)
      scope.(sc_Endpoint) version tools) set.(set_catalog).(OperationMetaKey)) <$> Journeys set) ∧
    ((0 < ttl ∧ reusable t1 ttl owner scope version s b.(b_digest) descriptors) ∨
     (listed = Ok descriptors ∧
      CatalogDigest (mk_CatalogSnapshot "" owner.(ow_Command).(c_Tenant) owner.(ow_Command).(c_Principal)
        scope.(sc_ProductVersion) scope.(sc_Endpoint) version descriptors 0) = Ok b.(b_digest))).
Proof.
  intros ([ts1 s1] & descriptors & tools & [Hi Hcap Ht Hr _ _])%open_ok ttl. apply at_times_ok in Hi as [Hi Hts]. cbn [fst snd hd tl] in Hi, Hts. subst ts1.
  apply RecordServerInfo_ok in Hi as [Ec Es]. cbn [fst snd hd tl] in *.
  unfold capture in Hcap. cbv zeta in Hcap. fold ttl in Hcap. apply svc_bind_ok in Hcap as (pin & [ts2 s2] & Hpin & Hcap).
  apply at_times_ok in Hpin as [Hpin Hts]. cbn [fst snd hd tl] in Hpin, Hts. subst ts2. unfold ConversationPin in Hpin. cbn [fst snd hd tl] in *. tx_step Hpin u s3 Hl.
  apply lockOwner_ok in Hl as [-> _]. injection Hpin as Hpin <-.
  assert (∀ s'', (descriptors ← lift_result listed;
    digest ← at_times _ (λ now, CommitSnapshot now owner (mk_CatalogSnapshot "" "" "" scope.(sc_ProductVersion)
               scope.(sc_Endpoint) version descriptors 0));
    mret (digest, descriptors)) ([t2], s1) = ((ts, s''), Ok (b.(b_digest), descriptors)) → pinned owner b.(b_digest) s'' ∧
    listed = Ok descriptors ∧ CatalogDigest (mk_CatalogSnapshot "" owner.(ow_Command).(c_Tenant) owner.(ow_Command).(c_Principal)
        scope.(sc_ProductVersion) scope.(sc_Endpoint) version descriptors 0) = Ok b.(b_digest)) as Hfresh.
  { intros s'' Hf. svcsimpl. rename select (at_times _ _ _ = _) into Hcm. apply at_times_ok in Hcm as [Hcm _].
    injection Hf as -> Hd ->. cbn [fst snd hd tl] in Hcm. rewrite Hd in Hcm. apply CommitSnapshot_ok in Hcm as [? ?].
    by split_and!. }
  destruct pin as [pin|].
  2:{ apply Hfresh in Hcap as (Hp & Hl & Hd). split; [done|]. exists descriptors, tools. split_and!; try done. right. by split. }
  destruct (pin_usable ttl scope version pin) eqn:U.
  2:{ apply Hfresh in Hcap as (Hp & Hl & Hd). split; [done|]. exists descriptors, tools. split_and!; try done. right. by split. }
  apply svc_bind_ok in Hcap as (u1 & s3 & Hrec & Hcap). injection Hcap as -> Hdig Hdesc. apply at_times_ok in Hrec as [Hrec _].
  apply RecordRunCatalog_ok in Hrec. rewrite Hdig in Hrec. split; [done|]. exists descriptors, tools. split_and!; try done.
  left. unfold pin_usable in U. gosimpl. split; [by apply Z.ltb_lt|].
  apply bind_Some in Hpin as (c & Hc & (digest & Hcat & (row & Hrow & (v & Hv & [= <-])%bind_Some)%bind_Some)%bind_Some).
  exists c, row, v. simpl in *. subst. rewrite <- Ec, <- Es. split_and!; try done. by apply Z.ltb_lt.
Qed.
