(* ===== verification/Settings.v ===== *)
(** * Layered settings

    [internal/settings]: built-in defaults, the deploy default, the tenant's and
    the user's layer.  Compilation checks a document once; resolution merges the
    layers of a scope and digests the values applied.  YAML decoding and file
    access are parameters. *)
From stdpp Require Import pretty.
From S2P Require Import Prelude GoText Db CallBinding.
From Stdlib Require Import Ascii.

Definition DefaultMaxActiveJourneys : Z := 2.
Definition MinMaxActiveJourneys : Z := 1.
Definition MaxMaxActiveJourneys : Z := 4.

(** A [time.Duration] in nanoseconds. *)
Definition Minute : Z := 60 * 10 ^ 9.
Definition DefaultInteractionTTL : Z := 5 * Minute.
Definition MinInteractionTTL : Z := Minute.
Definition MaxInteractionTTL : Z := 7 * 24 * 60 * Minute.

(** Which layer an error is about. *)
Inductive LayerName := NDefault | NTenant (t : string) | NUser (t p : string).

Inductive settings_error :=
| SUnavailable
| SMaxActive (name : LayerName) (n : Z)
| STTL (name : LayerName) (d : Z)
| SEmptyTenant
| SEmptyUserTenant
| SEmptyPrincipal (t : string)
| SUserCost (t p : string)
| SDecode
| SEmptyFile
| SExtraDocument
| STooLarge
| SUnreadable.

Record SettingsScope := mk_SettingsScope { sco_Tenant : string; sco_Principal : string }.

Record Settings := mk_Settings {
  s_MaxActiveJourneys : Z; s_Profile : string; s_InteractionTTL : Z; s_Digest : string;
}.

(** [CostLayer] is [Some profile] inside [Some] of a cost layer. *)
Record Layer := mk_Layer {
  l_MaxActiveJourneys : option Z; l_Cost : option (option string); l_InteractionTTL : option Z;
}.
Definition zeroLayer : Layer := mk_Layer None None None.

Record Document := mk_Document {
  doc_Default : Layer; doc_Tenants : gmap string Layer; doc_Users : gmap string (gmap string Layer);
}.

Record Compiled := mk_Compiled {
  co_def : Layer; co_tenants : gmap string Layer; co_users : gmap string (gmap string Layer);
}.

(** ** Compilation *)

Definition out_of (lo hi x : Z) : bool := (x <? lo) || (hi <? x).

Definition checkBounds (name : LayerName) (l : Layer) : result settings_error unit :=
  _ ← match l.(l_MaxActiveJourneys) with
      | Some n => ensure (negb (out_of MinMaxActiveJourneys MaxMaxActiveJourneys n)) (SMaxActive name n)
      | None => Ok tt end;
  match l.(l_InteractionTTL) with
  | Some d => ensure (negb (out_of MinInteractionTTL MaxInteractionTTL d)) (STTL name d)
  | None => Ok tt end.

Definition sortedKeys {V} (m : gmap string V) : list string := sort_strings (elements (dom m)).

(** The three loops of [Compile]: tenants, the principals of a tenant, and the
    tenants that have users. *)
Fixpoint compile_tenants (doc : gmap string Layer) (ts : list string) (out : gmap string Layer)
    : result settings_error (gmap string Layer) :=
  match ts with
  | [] => Ok out
  | t :: ts =>
      _ ← ensure (negb (bool_decide (t = ""))) SEmptyTenant;
      let l := default zeroLayer (doc !! t) in
      _ ← checkBounds (NTenant t) l;
      compile_tenants doc ts (<[t := l]> out)
  end.

Fixpoint compile_principals (t : string) (doc : gmap string Layer) (ps : list string) (out : gmap string Layer)
    : result settings_error (gmap string Layer) :=
  match ps with
  | [] => Ok out
  | p :: ps =>
      _ ← ensure (negb (bool_decide (p = ""))) (SEmptyPrincipal t);
      let l := default zeroLayer (doc !! p) in
      _ ← checkBounds (NUser t p) l;
      _ ← ensure (bool_decide (l.(l_Cost) = None)) (SUserCost t p);
      compile_principals t doc ps (<[p := l]> out)
  end.

Fixpoint compile_users (doc : gmap string (gmap string Layer)) (ts : list string)
    (out : gmap string (gmap string Layer)) : result settings_error (gmap string (gmap string Layer)) :=
  match ts with
  | [] => Ok out
  | t :: ts =>
      _ ← ensure (negb (bool_decide (t = ""))) SEmptyUserTenant;
      let users := default ∅ (doc !! t) in
      byPrincipal ← compile_principals t users (sortedKeys users) ∅;
      compile_users doc ts (<[t := byPrincipal]> out)
  end.

Definition CompileSettings (doc : Document) : result settings_error Compiled :=
  _ ← checkBounds NDefault doc.(doc_Default);
  tenants ← compile_tenants doc.(doc_Tenants) (sortedKeys doc.(doc_Tenants)) ∅;
  users ← compile_users doc.(doc_Users) (sortedKeys doc.(doc_Users)) ∅;
  Ok (mk_Compiled doc.(doc_Default) tenants users).

(** ** Resolution *)

Section resolution.
Context `{codec : Codec}.

(** The canonical JSON that is digested. *)
Definition settings_text (maxActive : Z) (profile : string) (ttl : Z) : string :=
  json_object [("cost", json_object [("profile", json_string profile)]); ("interaction_ttl", pretty ttl);
    ("max_active_journeys", pretty maxActive)].
Definition digestOf (maxActive : Z) (profile : string) (ttl : Z) : string :=
  hex (sha256 (settings_text maxActive profile ttl)).

Definition apply (s : Settings) (l : Layer) : Settings :=
  mk_Settings (default s.(s_MaxActiveJourneys) l.(l_MaxActiveJourneys))
    (match l.(l_Cost) with Some (Some p) => p | _ => s.(s_Profile) end)
    (default s.(s_InteractionTTL) l.(l_InteractionTTL)) s.(s_Digest).

Definition clamp (o : option Z) (x : Z) : Z :=
  match o with Some n => if n <? x then n else x | None => x end.

Definition Merge (def tenant user : Layer) : Settings :=
  let s := apply (apply (mk_Settings DefaultMaxActiveJourneys "" DefaultInteractionTTL "") def) tenant in
  let n := clamp user.(l_MaxActiveJourneys) s.(s_MaxActiveJourneys) in
  let d := clamp user.(l_InteractionTTL) s.(s_InteractionTTL) in
  mk_Settings n s.(s_Profile) d (digestOf n s.(s_Profile) d).

(** Indexing the Go maps: the zero layer when absent. *)
Definition tenant_layer (c : Compiled) (t : string) : Layer := default zeroLayer (c.(co_tenants) !! t).
Definition user_layer (c : Compiled) (t p : string) : Layer :=
  default zeroLayer (default ∅ (c.(co_users) !! t) !! p).

(** [Compiled.Resolve], for a live context. *)
Definition ResolveSettings (c : Compiled) (scope : SettingsScope) : result settings_error Settings :=
  _ ← ensure (negb (bool_decide (scope.(sco_Tenant) = ""))) SUnavailable;
  Ok (Merge c.(co_def) (tenant_layer c scope.(sco_Tenant)) (user_layer c scope.(sco_Tenant) scope.(sco_Principal))).

(** [Settings.Record] *)
Definition RecordSettings (s : Settings) : string :=
  json_object [("max_active_journeys", pretty s.(s_MaxActiveJourneys));
    ("cost", json_object [("profile", json_string s.(s_Profile))]);
    ("interaction_ttl", pretty s.(s_InteractionTTL)); ("digest", json_string s.(s_Digest))].

(** ** Sources *)

(** [Mutable]: the compiled document, and whether resolution is made to fail. *)
Record MutableSettings := mk_MutableSettings { ms_c : Compiled; ms_fail : bool }.
Definition NewMutableSettings (doc : Document) : result settings_error MutableSettings :=
  c ← CompileSettings doc; Ok (mk_MutableSettings c false).
Definition SetSettings (m : MutableSettings) (doc : Document) : MutableSettings * result settings_error unit :=
  match CompileSettings doc with
  | Ok c => (mk_MutableSettings c m.(ms_fail), Ok tt)
  | Err e => (m, Err e)
  end.
Definition FailSettings (m : MutableSettings) (fail : bool) : MutableSettings := mk_MutableSettings m.(ms_c) fail.
Definition ResolveMutable (m : MutableSettings) (scope : SettingsScope) : result settings_error Settings :=
  if m.(ms_fail) then Err SUnavailable else ResolveSettings m.(ms_c) scope.
End resolution.

(** [ParseStatic]: what the first and the second [Decode] of the YAML decoder
    return ([io.EOF], another error, or a document). *)
Inductive decoded (A : Type) := DEOF | DError | DValue (a : A).
Arguments DEOF {A}.
Arguments DError {A}.
Arguments DValue {A} a.

Definition ParseStaticSettings (first : string → decoded Document) (second : string → decoded unit) (data : string)
    : result settings_error Compiled :=
  match first data with
  | DEOF => Err SEmptyFile
  | DError => Err SDecode
  | DValue doc =>
      match second data with
      | DEOF => CompileSettings doc
      | DError => Err SDecode
      | DValue _ => Err SExtraDocument
      end
  end.

Definition maxStaticSize : Z := 2 ^ 20.
(** [LoadStatic]: [read] gives at most [maxStaticSize + 1] bytes of the file. *)
Definition LoadStaticSettings (read : string → option string) (first : string → decoded Document)
    (second : string → decoded unit) (path : string) : result settings_error Compiled :=
  match read path with
  | None => Err SUnreadable
  | Some data => if maxStaticSize <? slen data then Err STooLarge else ParseStaticSettings first second data
  end.

(** ** Which documents compile *)

(** The pattern of the three loops: a checked value for every key. *)
Fixpoint check_all {E V} (check : string → result E V) (ks : list string) (out : gmap string V)
    : result E (gmap string V) :=
  match ks with
  | [] => Ok out
  | k :: ks => v ← check k; check_all check ks (<[k := v]> out)
  end.

Lemma check_all_ok {E V} (check : string → result E V) ks out m : check_all check ks out = Ok m ↔
  (∀ k, k ∈ ks → is_ok (check k) = true) ∧
  m = foldl (λ m k, match check k with Ok v => <[k := v]> m | Err _ => m end) out ks.
Proof.
  revert out. induction ks as [|k ks IH]; intros out; simpl.
  - split; [intros [= <-]; split; [by intros ? ?%not_elem_of_nil|done]|by intros [_ ->]].
  - destruct (check k) as [v|e] eqn:C; simpl.
    + rewrite IH. split; intros [H ->]; (split; [|done]).
      * intros k' [->|Hk]%elem_of_cons; [by rewrite C|by apply H].
      * intros k' Hk. apply H, elem_of_cons. by right.
    + split; [done|]. intros [H _]. specialize (H k (list_elem_of_here _ _)). by rewrite C in H.
Qed.

Lemma check_fold_lookup {E V} (check : string → result E V) ks (out : gmap string V) k :
  (∀ k, k ∈ ks → is_ok (check k) = true) →
  foldl (λ m k, match check k with Ok v => <[k := v]> m | Err _ => m end) out ks !! k =
  if decide (k ∈ ks) then match check k with Ok v => Some v | Err _ => None end else out !! k.
Proof.
  revert out. induction ks as [|x ks IH]; intros out H; cbn [foldl].
  { rewrite decide_False; [done|apply not_elem_of_nil]. }
  rewrite IH by (intros y Hy; apply H, elem_of_cons; by right).
  specialize (H x (list_elem_of_here _ _)). destruct (check x) as [v|e] eqn:C; [|done].
  destruct (decide (k ∈ ks)) as [Hk|Hk].
  - rewrite decide_True by (apply elem_of_cons; by right). done.
  - destruct (decide (k = x)) as [->|Hne].
    + rewrite decide_True by apply list_elem_of_here. by rewrite lookup_insert_eq, C.
    + rewrite decide_False by (rewrite elem_of_cons; tauto). by rewrite lookup_insert_ne.
Qed.

Lemma elem_of_sortedKeys {V} (m : gmap string V) k : k ∈ sortedKeys m ↔ is_Some (m !! k).
Proof. unfold sortedKeys. by rewrite elem_of_sort_strings, elem_of_elements, elem_of_dom. Qed.

(** A check that returns the map's own value copies the map. *)
Lemma check_all_copy {E V} (check : string → result E V) (doc : gmap string V) m :
  (∀ k v v', doc !! k = Some v → check k = Ok v' → v' = v) →
  check_all check (sortedKeys doc) ∅ = Ok m ↔ (∀ k v, doc !! k = Some v → is_ok (check k) = true) ∧ m = doc.
Proof.
  intros Hv. rewrite check_all_ok. split; intros [H Hm].
  - split; [intros k v Hk; apply H, elem_of_sortedKeys; by rewrite Hk|]. subst m. apply map_eq. intros k.
    rewrite check_fold_lookup by done. case_decide as Hk; rewrite elem_of_sortedKeys in Hk.
    + destruct Hk as [v Hk]. rewrite Hk. specialize (H k). rewrite elem_of_sortedKeys, Hk in H.
      destruct (check k) as [v'|] eqn:C; [by rewrite (Hv k v v' Hk C)|]. by discriminate H.
    + rewrite lookup_empty. symmetry. by apply eq_None_not_Some.
  - assert (∀ k, k ∈ sortedKeys doc → is_ok (check k) = true) as H'
      by (intros k [v Hk]%elem_of_sortedKeys; by apply (H k v)).
    split; [done|]. subst m. apply map_eq. intros k. rewrite check_fold_lookup by done.
    case_decide as Hk; rewrite elem_of_sortedKeys in Hk.
    + destruct Hk as [v Hk]. rewrite Hk. specialize (H k v Hk). destruct (check k) as [v'|] eqn:C; [|done].
      by rewrite (Hv k v v' Hk C).
    + rewrite lookup_empty. by apply eq_None_not_Some.
Qed.

Definition layer_ok (l : Layer) : Prop :=
  (∀ n, l.(l_MaxActiveJourneys) = Some n → MinMaxActiveJourneys <= n <= MaxMaxActiveJourneys) ∧
  (∀ d, l.(l_InteractionTTL) = Some d → MinInteractionTTL <= d <= MaxInteractionTTL).

Record doc_ok (doc : Document) : Prop := {
  do_default : layer_ok doc.(doc_Default);
  do_tenants : ∀ t l, doc.(doc_Tenants) !! t = Some l → t ≠ "" ∧ layer_ok l;
  do_users : ∀ t users, doc.(doc_Users) !! t = Some users → t ≠ "" ∧
    ∀ p l, users !! p = Some l → p ≠ "" ∧ layer_ok l ∧ l.(l_Cost) = None;
}.

Lemma out_of_false lo hi x : negb (out_of lo hi x) = true ↔ lo <= x <= hi.
Proof. unfold out_of. rewrite negb_true_iff, orb_false_iff, !Z.ltb_ge. lia. Qed.

Lemma checkBounds_ok name l u : checkBounds name l = Ok u ↔ layer_ok l.
Proof.
  destruct u. unfold checkBounds, layer_ok. rewrite bind_ok. split.
  - intros ([] & H1 & H2). split; intros x Hx; [rewrite Hx in H1; rename H1 into H|rewrite Hx in H2; rename H2 into H];
      by apply ensure_ok, out_of_false in H.
  - intros [H1 H2]. exists tt. split.
    + destruct (l_MaxActiveJourneys l) as [n|]; [|done]. apply ensure_ok, out_of_false. by apply H1.
    + destruct (l_InteractionTTL l) as [d|]; [|done]. apply ensure_ok, out_of_false. by apply H2.
Qed.

Lemma is_ok_true {E A} (r : result E A) : is_ok r = true ↔ ∃ a, r = Ok a.
Proof. destruct r; simpl; naive_solver. Qed.

Section compile_checks.
Context (doc : gmap string Layer).

Definition check_tenant (t : string) : result settings_error Layer :=
  _ ← ensure (negb (bool_decide (t = ""))) SEmptyTenant;
  _ ← checkBounds (NTenant t) (default zeroLayer (doc !! t)); Ok (default zeroLayer (doc !! t)).
Definition check_principal (t p : string) : result settings_error Layer :=
  _ ← ensure (negb (bool_decide (p = ""))) (SEmptyPrincipal t);
  _ ← checkBounds (NUser t p) (default zeroLayer (doc !! p));
  _ ← ensure (bool_decide ((default zeroLayer (doc !! p)).(l_Cost) = None)) (SUserCost t p);
  Ok (default zeroLayer (doc !! p)).

Lemma compile_tenants_eq ts out : compile_tenants doc ts out = check_all check_tenant ts out.
Proof.
  revert out. induction ts as [|t ts IH]; intros out; [done|]. simpl. unfold check_tenant at 2; unfold ensure.
  destruct (negb _); [|done]. simpl. destruct (checkBounds _ _); [|done]. simpl. apply IH.
Qed.

Lemma compile_principals_eq t ps out : compile_principals t doc ps out = check_all (check_principal t) ps out.
Proof.
  revert out. induction ps as [|p ps IH]; intros out; [done|]. simpl. unfold check_principal at 2; unfold ensure.
  destruct (negb _); [|done]. simpl. destruct (checkBounds _ _); [|done]. simpl.
  destruct (bool_decide _); [|done]. simpl. apply IH.
Qed.

Lemma compile_tenants_ok m : compile_tenants doc (sortedKeys doc) ∅ = Ok m ↔
  (∀ t l, doc !! t = Some l → t ≠ "" ∧ layer_ok l) ∧ m = doc.
Proof.
  rewrite compile_tenants_eq, check_all_copy.
  - apply and_iff_compat_r. apply forall_proper. intros t. apply forall_proper. intros l.
    split; intros H Hl; specialize (H Hl); unfold check_tenant in *; rewrite Hl in *; simpl in *.
    + apply is_ok_true in H as [x H]. gosimpl. rename select (checkBounds _ _ = _) into Hb. by apply checkBounds_ok in Hb.
    + destruct H as [Hne Hb]. rewrite bool_decide_eq_false_2 by done. simpl.
      by rewrite (proj2 (checkBounds_ok (NTenant t) l tt) Hb).
  - intros k v v' Hk. unfold check_tenant. rewrite Hk. simpl. intros H. by gosimpl.
Qed.

Lemma compile_principals_ok t m : compile_principals t doc (sortedKeys doc) ∅ = Ok m ↔
  (∀ p l, doc !! p = Some l → p ≠ "" ∧ layer_ok l ∧ l.(l_Cost) = None) ∧ m = doc.
Proof.
  rewrite compile_principals_eq, check_all_copy.
  - apply and_iff_compat_r. apply forall_proper. intros p. apply forall_proper. intros l.
    split; intros H Hl; specialize (H Hl); unfold check_principal in *; rewrite Hl in *; simpl in *.
    + apply is_ok_true in H as [x H]. gosimpl. rename select (checkBounds _ _ = _) into Hb. by apply checkBounds_ok in Hb.
    + destruct H as (Hne & Hb & Hc). rewrite (bool_decide_eq_false_2 (p = "")) by done. simpl.
      rewrite (proj2 (checkBounds_ok (NUser t p) l tt) Hb). simpl. by rewrite bool_decide_eq_true_2.
  - intros k v v' Hk. unfold check_principal. rewrite Hk. simpl. intros H. by gosimpl.
Qed.
End compile_checks.

Definition check_user (doc : gmap string (gmap string Layer)) (t : string) : result settings_error (gmap string Layer) :=
  _ ← ensure (negb (bool_decide (t = ""))) SEmptyUserTenant;
  compile_principals t (default ∅ (doc !! t)) (sortedKeys (default ∅ (doc !! t))) ∅.

Lemma compile_users_ok doc m : compile_users doc (sortedKeys doc) ∅ = Ok m ↔
  (∀ t users, doc !! t = Some users → t ≠ "" ∧ ∀ p l, users !! p = Some l → p ≠ "" ∧ layer_ok l ∧ l.(l_Cost) = None) ∧
  m = doc.
Proof.
  assert (∀ ts out, compile_users doc ts out = check_all (check_user doc) ts out) as E.
  { induction ts as [|t ts IH]; intros out; [done|]. simpl. unfold check_user at 2; unfold ensure.
    destruct (negb _); [|done]. simpl. destruct (compile_principals _ _ _ _); [|done]. simpl. apply IH. }
  rewrite E, check_all_copy.
  - apply and_iff_compat_r. apply forall_proper. intros t. apply forall_proper. intros users.
    split; intros H Hl; specialize (H Hl); unfold check_user in *; rewrite Hl in *; simpl in *.
    + apply is_ok_true in H as [x H]. gosimpl. by apply compile_principals_ok in H as [? _].
    + destruct H as [Hne Hp]. rewrite bool_decide_eq_false_2 by done. simpl.
      apply is_ok_true. exists users. by apply compile_principals_ok.
  - intros k v v' Hk. unfold check_user. rewrite Hk. simpl. intros H. gosimpl. by apply compile_principals_ok in H as [_ ->].
Qed.

(** [Compile] accepts exactly the valid documents and copies them. *)
Lemma CompileSettings_ok doc c : CompileSettings doc = Ok c ↔
  doc_ok doc ∧ c = mk_Compiled doc.(doc_Default) doc.(doc_Tenants) doc.(doc_Users).
Proof.
  unfold CompileSettings. split.
  - intros H. gosimpl. rename select (checkBounds _ _ = _) into Hb. apply checkBounds_ok in Hb.
    rename select (compile_tenants _ _ _ = _) into Ht. apply compile_tenants_ok in Ht as [Ht ->].
    rename select (compile_users _ _ _ = _) into Hu. apply compile_users_ok in Hu as [Hu ->]. by split; [split|].
  - intros [[Hd Ht Hu] ->]. rewrite (proj2 (checkBounds_ok NDefault _ tt) Hd). simpl.
    rewrite (proj2 (compile_tenants_ok _ _) (conj Ht eq_refl)). simpl.
    by rewrite (proj2 (compile_users_ok _ _) (conj Hu eq_refl)).
Qed.

(** ** The digest identifies the values *)

(** A text that ends in a byte it does not contain before. *)
Lemma terminated_inj sep s t x y : lacks sep s = true → lacks sep t = true →
  s +:+ String sep x = t +:+ String sep y → s = t ∧ x = y.
Proof.
  intros Hs Ht E. pose proof (f_equal (split sep) E) as F. rewrite !split_app in F by done. injection F as <- _.
  split; [done|]. apply append_cancel in E. by injection E.
Qed.

Lemma terminated_delimited sep s t : lacks sep s = true → lacks sep t = true →
  delimited (s +:+ String sep "") (t +:+ String sep "").
Proof. intros Hs Ht x y. rewrite !append_assoc. by intros [<- ?]%terminated_inj. Qed.

Lemma settings_text_template n p d : settings_text n p d = render
  [("{" +:+ json_string "cost" +:+ ":{" +:+ json_string "profile" +:+ ":", json_string p);
   ("}," +:+ json_string "interaction_ttl" +:+ ":", pretty d +:+ ",");
   (json_string "max_active_journeys" +:+ ":", pretty n +:+ "}")] "".
Proof.
  unfold settings_text, json_object, json_members, join, render, json_member.
  cbn [fmap list_fmap String.concat foldr fst snd].
  generalize (json_string "cost") (json_string "profile") (json_string "interaction_ttl")
    (json_string "max_active_journeys") (json_string p). intros a b c e f. by rewrite !append_assoc.
Qed.

Lemma settings_text_inj n p d n' p' d' : valid_utf8 p = true → valid_utf8 p' = true →
  settings_text n p d = settings_text n' p' d' → n = n' ∧ p = p' ∧ d = d'.
Proof.
  assert (∀ z : Z, lacks "," (pretty z) = true ∧ lacks "}" (pretty z) = true) as Hl by (intros z; by split; apply pretty_Z_lacks).
  intros Hp Hp'. rewrite !settings_text_template. intros E%render_inj.
  - cbn [fmap list_fmap snd] in E. apply cons_inv in E as [E1 E]. apply cons_inv in E as [E2 E].
    apply cons_inv in E as [E3 _]. apply json_string_delimited in E1; [|done..].
    apply terminated_inj in E2 as [E2%(inj pretty) _]; [|apply Hl..].
    apply terminated_inj in E3 as [E3%(inj pretty) _]; [|apply Hl..]. done.
  - repeat (apply Forall2_cons; split); [| | |by apply Forall2_nil]; cbn [fst snd]; (split; [done|]);
      [by apply json_string_delimited|apply terminated_delimited; apply Hl..].
Qed.

(** ** Properties *)

(** Settings of a compiled document are always within bounds, and a user
    can only narrow them: the user's limits are at most the tenant's, the cost
    profile is the tenant's.  A document compiles exactly when every layer is
    within bounds, no key is empty and no user sets a cost; then every scope
    with a tenant resolves. *)
Theorem settings_bounded `{Codec} (doc : Document) :
  (is_ok (CompileSettings doc) = true ↔ doc_ok doc) ∧
  ∀ c scope, CompileSettings doc = Ok c →
    (scope.(sco_Tenant) ≠ "" → ∃ s, ResolveSettings c scope = Ok s) ∧
    ∀ s, ResolveSettings c scope = Ok s →
      let t := Merge doc.(doc_Default) (default zeroLayer (doc.(doc_Tenants) !! scope.(sco_Tenant))) zeroLayer in
      MinMaxActiveJourneys <= s.(s_MaxActiveJourneys) <= MaxMaxActiveJourneys ∧
      MinInteractionTTL <= s.(s_InteractionTTL) <= MaxInteractionTTL ∧
      s.(s_MaxActiveJourneys) <= t.(s_MaxActiveJourneys) ∧ s.(s_InteractionTTL) <= t.(s_InteractionTTL) ∧
      s.(s_Profile) = t.(s_Profile).
Proof.
  split.
  { rewrite is_ok_true. setoid_rewrite CompileSettings_ok. split; [by intros (c & ? & _)|eauto]. }
  intros c scope [[Hd Ht Hu] ->]%CompileSettings_ok. split.
  { intros Hne. unfold ResolveSettings. rewrite bool_decide_eq_false_2 by done. simpl. eauto. }
  intros s Hs. unfold ResolveSettings in Hs. gosimpl. unfold tenant_layer, user_layer. simpl.
  set (tl := default zeroLayer (doc_Tenants doc !! _)). set (ul := default zeroLayer (default ∅ _ !! _)).
  assert (layer_ok tl) as Htl.
  { unfold tl. destruct (doc_Tenants doc !! _) as [l|] eqn:E; [by apply (Ht _ l E)|by split]. }
  assert (layer_ok ul) as Hul.
  { unfold ul. destruct (doc_Users doc !! _) as [us|] eqn:E; simpl; [|rewrite lookup_empty; by split].
    destruct (us !! _) as [l|] eqn:E'; [by apply (proj2 (Hu _ us E) _ l E')|by split]. }
  unfold Merge, apply, clamp. simpl. destruct Hd as [D1 D2], Htl as [T1 T2], Hul as [U1 U2].
  unfold MinMaxActiveJourneys, MaxMaxActiveJourneys, MinInteractionTTL, MaxInteractionTTL,
    DefaultMaxActiveJourneys, DefaultInteractionTTL, Minute in *.
  set (n := default (default 2 _) (l_MaxActiveJourneys tl)). set (d := default (default _ _) (l_InteractionTTL tl)).
  assert (1 <= n <= 4) as Hn.
  { unfold n. destruct (l_MaxActiveJourneys tl) as [x|]; [by apply T1|]. simpl.
    destruct (l_MaxActiveJourneys (doc_Default doc)) as [x|]; [by apply D1|simpl; lia]. }
  assert (60 * 10 ^ 9 <= d <= 7 * 24 * 60 * (60 * 10 ^ 9)) as Hdd.
  { unfold d. destruct (l_InteractionTTL tl) as [x|]; [by apply T2|]. simpl.
    destruct (l_InteractionTTL (doc_Default doc)) as [x|]; [by apply D2|simpl; lia]. }
  destruct (l_MaxActiveJourneys ul) as [x|], (l_InteractionTTL ul) as [y|];
    try specialize (U1 _ eq_refl); try specialize (U2 _ eq_refl);
    repeat match goal with |- context [if ?a <? ?b then _ else _] => destruct (Z.ltb_spec a b) end;
    split_and!; try lia; done.
Qed.

(** The digest recorded on a run identifies the values applied to it: runs
    with the same digest ran under the same limits and cost profile, unless
    SHA-256 collides on their texts. *)
Theorem settings_digest_identifies `{Codec} (c c' : Compiled) (scope scope' : SettingsScope) (s s' : Settings) :
  ResolveSettings c scope = Ok s → ResolveSettings c' scope' = Ok s' →
  valid_utf8 s.(s_Profile) = true → valid_utf8 s'.(s_Profile) = true →
  no_collision (settings_text s.(s_MaxActiveJourneys) s.(s_Profile) s.(s_InteractionTTL))
    (settings_text s'.(s_MaxActiveJourneys) s'.(s_Profile) s'.(s_InteractionTTL)) →
  s.(s_Digest) = s'.(s_Digest) → s = s'.
Proof.
  intros Hs Hs' Hp Hp' Hsha Hd.
  assert (∀ c scope s, ResolveSettings c scope = Ok s → s.(s_Digest) = hex (sha256
    (settings_text s.(s_MaxActiveJourneys) s.(s_Profile) s.(s_InteractionTTL)))) as Hdig
    by (intros c0 sc0 s0 H0; unfold ResolveSettings in H0; by gosimpl).
  pose proof Hd as E. rewrite (Hdig _ _ _ Hs), (Hdig _ _ _ Hs') in E. apply hex_inj, Hsha in E.
  apply settings_text_inj in E as (E1 & E2 & E3); [|done..]. destruct s, s'. simpl in *. by subst.
Qed.
