(* ===== verification/TenantDir.v ===== *)
(** * Tenants and their endpoints

    [internal/tenantdir]: the directory from tenants to endpoint IDs and the
    allowlist from endpoint IDs to URLs.  [net/url] and YAML decoding are
    parameters; contexts are live unless said otherwise. *)
From S2P Require Import Prelude GoText.
From S2P Require Import Db CallBinding Settings.
From Stdlib Require Import Ascii.

Inductive dir_error :=
| DUnavailable
| DCancelled
| DOther
| DMissingEquals (item : nat)
| DInvalidItemID (item : nat)
| DDuplicateID (id : string)
| DInvalidID
| DURL (id : string)
| DEmptyDirectory
| DBadDirectory
| DExtraDocument
| DNoTenants
| DEmptyTenant
| DNoVersion (tenant : string)
| DBadEndpoint (tenant : string)
| DTooLarge
| DUnreadable.

Record Entry := mk_Entry { en_ProductVersion : string; en_EndpointID : string }.

Definition maxEndpointIDLen : Z := 128.

Definition id_byte (c : ascii) : bool :=
  is_lower c || is_upper c || is_digit c || bool_decide (c = "."%char) || bool_decide (c = "_"%char)
  || bool_decide (c = "-"%char).

Definition ValidEndpointID (id : string) : bool :=
  if bool_decide (id = "") || (maxEndpointIDLen <? slen id) then false else all_bytes id_byte id.

(** ** Directories *)

(** [Mutable]: the entries and an injected failure. *)
Record MutableDir := mk_MutableDir { md_entries : gmap string Entry; md_failure : bool }.
Definition NewMutableDir (entries : gmap string Entry) : MutableDir := mk_MutableDir entries false.
Definition SetEntry (m : MutableDir) (tenant : string) (e : Entry) : MutableDir :=
  mk_MutableDir (<[tenant := e]> m.(md_entries)) m.(md_failure).
Definition DeleteEntry (m : MutableDir) (tenant : string) : MutableDir :=
  mk_MutableDir (delete tenant m.(md_entries)) m.(md_failure).
Definition FailDir (m : MutableDir) (fail : bool) : MutableDir := mk_MutableDir m.(md_entries) fail.

(** [cancelled] is [ctx.Err() != nil]. *)
Definition ResolveMutableDir (cancelled : bool) (m : MutableDir) (tenant : string) : result dir_error Entry :=
  if cancelled then Err DCancelled
  else if m.(md_failure) then Err DUnavailable
  else if bool_decide (tenant = "") then Err DUnavailable
  else match m.(md_entries) !! tenant with
       | None => Err DUnavailable
       | Some e =>
           if bool_decide (e.(en_ProductVersion) = "") || negb (ValidEndpointID e.(en_EndpointID))
           then Err DUnavailable else Ok e
       end.

Definition ResolveStaticDir (cancelled : bool) (entries : gmap string Entry) (tenant : string) : result dir_error Entry :=
  if cancelled then Err DCancelled
  else if bool_decide (tenant = "") then Err DUnavailable
  else match entries !! tenant with None => Err DUnavailable | Some e => Ok e end.

(** [ParseStatic]: the tenants are checked in the order of their names.  Of the
    second [Decode] only [io.EOF] is accepted. *)
Fixpoint check_tenants (doc : gmap string Entry) (names : list string) (out : gmap string Entry)
    : result dir_error (gmap string Entry) :=
  match names with
  | [] => Ok out
  | name :: names =>
      let e := default (mk_Entry "" "") (doc !! name) in
      if bool_decide (name = "") then Err DEmptyTenant
      else if bool_decide (e.(en_ProductVersion) = "") then Err (DNoVersion name)
      else if negb (ValidEndpointID e.(en_EndpointID)) then Err (DBadEndpoint name)
      else check_tenants doc names (<[name := e]> out)
  end.

Definition ParseStaticDir (first : string → decoded (gmap string Entry)) (second : string → decoded unit)
    (data : string) : result dir_error (gmap string Entry) :=
  match first data with
  | DEOF => Err DEmptyDirectory
  | DError => Err DBadDirectory
  | DValue doc =>
      match second data with
      | DEOF => if bool_decide (doc = ∅) then Err DNoTenants else check_tenants doc (sortedKeys doc) ∅
      | _ => Err DExtraDocument
      end
  end.

Definition maxStaticFileSize : Z := 2 ^ 20.
Definition LoadStaticDir (read : string → option string) (first : string → decoded (gmap string Entry))
    (second : string → decoded unit) (path : string) : result dir_error (gmap string Entry) :=
  match read path with
  | None => Err DUnreadable
  | Some data => if maxStaticFileSize <? slen data then Err DTooLarge else ParseStaticDir first second data
  end.

(** ** The allowlist *)

Record Endpoint := mk_Endpoint { ep_id : string; ep_url : string }.
Definition zeroEndpoint : Endpoint := mk_Endpoint "" "".
Definition ValidEndpoint (e : Endpoint) : bool := negb (bool_decide (e.(ep_id) = "")) && negb (bool_decide (e.(ep_url) = "")).

(** What the code reads of a parsed URL. *)
Record URL := mk_URL {
  url_IsAbs : bool; url_Scheme : string; url_Hostname : string; url_HasUser : bool;
  url_Fragment : string; url_RawFragment : string; url_String : string;
}.

Section allowlist.
(** [url.Parse] *)
Context (url_parse : string → option URL).

Definition normalizeURL (id raw : string) : result dir_error string :=
  if negb (ValidEndpointID id) then Err DInvalidID
  else match url_parse raw with
       | None => Err (DURL id)
       | Some u =>
           if negb u.(url_IsAbs) || (negb (bool_decide (u.(url_Scheme) = "http")) && negb (bool_decide (u.(url_Scheme) = "https")))
           then Err (DURL id)
           else if bool_decide (u.(url_Hostname) = "") then Err (DURL id)
           else if u.(url_HasUser) then Err (DURL id)
           else if negb (bool_decide (u.(url_Fragment) = "")) || negb (bool_decide (u.(url_RawFragment) = ""))
                   || negb (lacks "#" raw) then Err (DURL id)
           else Ok u.(url_String)
       end.

(** [NewAllowlist] visits the map in any order; only which of several errors is
    reported depends on it. *)
Fixpoint normalize_all (endpoints : list (string * string)) (urls : gmap string string)
    : result dir_error (gmap string string) :=
  match endpoints with
  | [] => Ok urls
  | (id, raw) :: endpoints => norm ← normalizeURL id raw; normalize_all endpoints (<[id := norm]> urls)
  end.
Definition NewAllowlist (endpoints : gmap string string) : result dir_error (gmap string string) :=
  normalize_all (map_to_list endpoints) ∅.

(** One item of an allowlist, and the loop over them. *)
Fixpoint parse_items (i : nat) (items : list string) (endpoints : gmap string string)
    : result dir_error (gmap string string) :=
  match items with
  | [] => Ok endpoints
  | item :: items =>
      match cut "=" (trim_space item) with
      | None => Err (DMissingEquals (S i))
      | Some (id, raw) =>
          let id := trim_space id in let raw := trim_space raw in
          if negb (ValidEndpointID id) then Err (DInvalidItemID (S i))
          else match endpoints !! id with
               | Some _ => Err (DDuplicateID id)
               | None => parse_items (S i) items (<[id := raw]> endpoints)
               end
      end
  end.

Definition ParseAllowlist (spec : string) : result dir_error (gmap string string) :=
  if bool_decide (trim_space spec = "") then Ok ∅
  else endpoints ← parse_items 0 (split "," spec) ∅; NewAllowlist endpoints.

(** [Allowlist.Endpoint] and [Allowlist.IDs]. *)
Definition AllowlistEndpoint (a : gmap string string) (id : string) : result dir_error Endpoint :=
  match a !! id with None => Err DUnavailable | Some u => Ok (mk_Endpoint id u) end.
Definition AllowlistIDs (a : gmap string string) : list string := sortedKeys a.

(** [Lookup]: the directory's error is made [ErrUnavailable] unless the context
    is done. *)
Definition Lookup (cancelled : bool) (d : option (string → result dir_error Entry)) (a : gmap string string)
    (tenant : string) : result dir_error (Entry * Endpoint) :=
  match d with
  | None => Err DUnavailable
  | Some resolve =>
      match resolve tenant with
      | Err e => Err (match e with
                      | DUnavailable => DUnavailable
                      | e => if cancelled then e else DUnavailable
                      end)
      | Ok e => ep ← AllowlistEndpoint a e.(en_EndpointID); Ok (e, ep)
      end
  end.

(** ** Lemmas *)

Definition good_url (raw norm : string) : Prop :=
  ∃ u, url_parse raw = Some u ∧ norm = u.(url_String) ∧ u.(url_IsAbs) = true ∧
    u.(url_Scheme) ∈ ["http"; "https"] ∧ u.(url_Hostname) ≠ "" ∧ u.(url_HasUser) = false ∧
    u.(url_Fragment) = "" ∧ u.(url_RawFragment) = "" ∧ lacks "#" raw = true.

Lemma normalizeURL_ok id raw norm : normalizeURL id raw = Ok norm ↔ ValidEndpointID id = true ∧ good_url raw norm.
Proof.
  unfold normalizeURL, good_url. destruct (ValidEndpointID id); simpl; [|naive_solver].
  destruct (url_parse raw) as [u|]; [|naive_solver]. split.
  - intros Hn. split; [done|]. exists u. case_match eqn:E1; [done|]. case_match eqn:E2; [done|].
    case_match eqn:E3; [done|]. case_match eqn:E4; [done|]. injection Hn as <-.
    rewrite orb_false_iff in E1. rewrite !orb_false_iff in E4. destruct E1 as [E1 E5], E4 as [[E4 E6] E7].
    apply andb_false_iff in E5. gosimpl. split_and!; try done. destruct E5 as [E5|E5]; gosimpl; set_solver.
  - intros (_ & u' & [= <-] & -> & A & B & C & D & E & F & G). rewrite A, D, E, F, G. simpl.
    rewrite (bool_decide_eq_false_2 (url_Hostname u = "")) by done.
    assert (negb (bool_decide (url_Scheme u = "http")) && negb (bool_decide (url_Scheme u = "https")) = false) as ->; [|done].
    apply andb_false_iff. rewrite !negb_false_iff, !bool_decide_eq_true. set_solver.
Qed.
End allowlist.

#[local] Set Default Proof Using "Type".

(** ** Texts without blanks *)

(** Printable ASCII other than blank. *)
Definition plain_byte (c : ascii) : bool := (33 <=? code c) && (code c <=? 126).
Definition plain (s : string) : bool := all_bytes plain_byte s.

Lemma all_bytes_app p s t : all_bytes p (s +:+ t) = all_bytes p s && all_bytes p t.
Proof.
  induction s as [|c s IH]; [done|]. change (String c s +:+ t) with (String c (s +:+ t)). simpl. by rewrite IH, andb_assoc.
Qed.

Lemma all_bytes_impl (p q : ascii → bool) s : (∀ c, p c = true → q c = true) → all_bytes p s = true → all_bytes q s = true.
Proof. intros H. induction s as [|c s IH]; [done|]. simpl. intros [Hc Hs]%andb_true_iff. by rewrite (H c Hc), IH. Qed.

Fixpoint chars (s : string) : list (Z * string) :=
  match s with "" => [] | String c s => (code c, String c "") :: chars s end.

Lemma substring_one c s : String.substring 0 1 (String c s) = String c "".
Proof. simpl. by destruct s. Qed.

Lemma runes_plain s : plain s = true → runes s = chars s.
Proof.
  unfold runes, plain. assert (∀ n, (String.length s ≤ n)%nat → all_bytes plain_byte s = true →
    runes_fuel n s = chars s) as H; [|by apply H].
  induction s as [|c s IH]; intros n Hn Hp; [by destruct n|]. destruct n as [|n]; [simpl in Hn; lia|].
  simpl in Hp. apply andb_true_iff in Hp as [Hc Hs]. unfold plain_byte in Hc. apply andb_true_iff in Hc as [_ Hc%Z.leb_le].
  cbn [runes_fuel]. unfold decode_rune. rewrite (proj2 (Z.ltb_lt (code c) 128)) by lia.
  rewrite substring_one. cbn [drop_bytes]. simpl in Hn. replace (drop_bytes 0 s) with s by by destruct s.
  rewrite IH by (done || lia). done.
Qed.

Lemma chars_plain s : plain s = true → Forall (λ x, is_space_rune x.1 = false) (chars s).
Proof.
  induction s as [|c s IH]; [constructor|]. unfold plain. simpl. intros [Hc Hs]%andb_true_iff.
  constructor; [|by apply IH]. unfold plain_byte in Hc. apply andb_true_iff in Hc as [H1%Z.leb_le H2%Z.leb_le].
  simpl. unfold is_space_rune. apply not_true_iff_false. rewrite !orb_true_iff, !andb_true_iff, !Z.leb_le, !Z.eqb_eq. lia.
Qed.

Lemma drop_space_none l : Forall (λ x, is_space_rune x.1 = false) l → drop_space l = l.
Proof. intros [|x l' Hx _]; [done|]. simpl. by rewrite Hx. Qed.

Lemma join_chars s : join "" (snd <$> chars s) = s.
Proof.
  unfold join. induction s as [|c s IH]; [done|]. cbn [chars]. rewrite fmap_cons. simpl in *.
  destruct (chars s) as [|x l] eqn:E; [by destruct s|]. rewrite fmap_cons in *. rewrite IH. done.
Qed.

Lemma trim_space_plain s : plain s = true → trim_space s = s.
Proof.
  intros Hp. unfold trim_space. rewrite (runes_plain s Hp). pose proof (chars_plain s Hp) as H.
  rewrite (drop_space_none _ H), drop_space_none, rev_involutive; [by apply join_chars|].
  by apply Forall_rev.
Qed.

Lemma valid_id_bytes id : ValidEndpointID id = true → id ≠ "" ∧ plain id = true ∧ lacks "," id = true ∧ lacks "=" id = true.
Proof.
  unfold ValidEndpointID. destruct (bool_decide (id = "")) eqn:E; [done|]. simpl. destruct (_ <? _); [done|].
  intros Hb. apply bool_decide_eq_false in E. split; [done|].
  assert (∀ p : ascii → bool, forallb (λ n, implb (id_byte (ascii_of_nat n)) (p (ascii_of_nat n))) (seq 0 256) = true →
    all_bytes p id = true) as H.
  { intros p Hp. apply (all_bytes_impl id_byte); [|done]. intros c Hc. rewrite forallb_forall in Hp.
    specialize (Hp (nat_of_ascii c)). rewrite ascii_nat_embedding, Hc in Hp. apply Hp, in_seq.
    pose proof (nat_ascii_bounded c). lia. }
  split_and!; apply H; vm_compute; reflexivity.
Qed.

(** ** What a parsed allowlist holds *)

Section parsed.
Context (url_parse : string → option URL).

Lemma normalize_all_ok l urls a : normalize_all url_parse l urls = Ok a → ∀ id u, a !! id = Some u →
  urls !! id = Some u ∨ ∃ raw, (id, raw) ∈ l ∧ ValidEndpointID id = true ∧ good_url url_parse raw u.
Proof.
  revert urls. induction l as [|[id raw] l IH]; intros urls Ha; simpl in Ha; [injection Ha as <-; by left|].
  gosimpl. rename select (normalizeURL _ _ _ = _) into Hn. apply normalizeURL_ok in Hn as [Hv Hg].
  intros id' u Hu. destruct (IH _ Ha id' u Hu) as [Hin|(raw' & Hin & ?)].
  - destruct (decide (id = id')) as [<-|Hne].
    + rewrite lookup_insert_eq in Hin. injection Hin as <-. right. exists raw. split; [apply list_elem_of_here|done].
    + rewrite lookup_insert_ne in Hin by done. by left.
  - right. exists raw'. split; [apply elem_of_cons; by right|done].
Qed.

(** The items of a specification. *)
Definition has_item (spec id raw : string) : Prop :=
  ∃ item k v, item ∈ split "," spec ∧ cut "=" (trim_space item) = Some (k, v) ∧ id = trim_space k ∧ raw = trim_space v.

Lemma parse_items_ok i items m m' : parse_items i items m = Ok m' → ∀ id raw, m' !! id = Some raw →
  m !! id = Some raw ∨ ∃ item k v, item ∈ items ∧ cut "=" (trim_space item) = Some (k, v) ∧
    id = trim_space k ∧ raw = trim_space v.
Proof.
  revert i m. induction items as [|item items IH]; intros i m Hm; simpl in Hm; [injection Hm as <-; by left|].
  destruct (cut _ _) as [[k v]|] eqn:C; [|done]. destruct (ValidEndpointID _); [|done].
  destruct (m !! trim_space k) eqn:D; [done|]. simpl in Hm. intros id raw Hid.
  destruct (IH _ _ Hm id raw Hid) as [Hin|(item' & k' & v' & Hin & ?)].
  - destruct (decide (trim_space k = id)) as [<-|Hne].
    + rewrite lookup_insert_eq in Hin. injection Hin as <-. right. exists item, k, v.
      split; [apply list_elem_of_here|done].
    + rewrite lookup_insert_ne in Hin by done. by left.
  - right. exists item', k', v'. split; [apply elem_of_cons; by right|done].
Qed.

Lemma ParseAllowlist_ok spec a id u : ParseAllowlist url_parse spec = Ok a → a !! id = Some u →
  ∃ raw, has_item spec id raw ∧ ValidEndpointID id = true ∧ good_url url_parse raw u.
Proof.
  unfold ParseAllowlist. case_bool_decide; [intros [= <-]; by rewrite lookup_empty|]. intros Ha Hu. gosimpl.
  unfold NewAllowlist in Ha. destruct (normalize_all_ok _ _ _ Ha id u Hu) as [He|(raw & Hin & Hv & Hg)];
    [by rewrite lookup_empty in He|]. exists raw. split; [|done].
  apply elem_of_map_to_list in Hin. rename select (parse_items _ _ _ = _) into Hp.
  destruct (parse_items_ok _ _ _ _ Hp id raw Hin) as [He|Hi]; [by rewrite lookup_empty in He|exact Hi].
Qed.
End parsed.

(** [Lookup] reaches only allowlisted endpoints: what it returns for a tenant
    is the directory's entry and the endpoint the operator's specification
    names for that entry's ID, an absolute http or https URL with a host and
    without user or fragment.  Without a directory, on any error of it and for
    every other ID it fails as unavailable. *)
Theorem Lookup_only_allowlisted (url_parse : string → option URL) (spec : string) (a : gmap string string)
    (cancelled : bool) (d : option (string → result dir_error Entry)) (tenant : string) :
  ParseAllowlist url_parse spec = Ok a →
  (∀ e ep, Lookup cancelled d a tenant = Ok (e, ep) ↔
     ∃ resolve, d = Some resolve ∧ resolve tenant = Ok e ∧ a !! e.(en_EndpointID) = Some ep.(ep_url) ∧
       ep.(ep_id) = e.(en_EndpointID)) ∧
  (∀ e ep, Lookup cancelled d a tenant = Ok (e, ep) → ValidEndpointID ep.(ep_id) = true ∧
     ∃ raw, has_item spec ep.(ep_id) raw ∧ good_url url_parse raw ep.(ep_url)) ∧
  (∀ err, Lookup false d a tenant = Err err → err = DUnavailable).
Proof.
  intros Ha.
  assert (∀ e ep, Lookup cancelled d a tenant = Ok (e, ep) ↔
     ∃ resolve, d = Some resolve ∧ resolve tenant = Ok e ∧ a !! e.(en_EndpointID) = Some ep.(ep_url) ∧
       ep.(ep_id) = e.(en_EndpointID)) as Hok.
  { intros e ep. unfold Lookup, AllowlistEndpoint. destruct d as [resolve|]; [|naive_solver]. split.
    - destruct (resolve tenant) as [e'|] eqn:R; [|by destruct (_ : dir_error)]. intros Hl. exists resolve.
      destruct (a !! _) as [u|] eqn:U; [|done]. simpl in Hl. injection Hl as <- <-. by split_and!.
    - intros (r & [= <-] & -> & U & E). rewrite U. simpl. destruct ep. simpl in *. by subst. }
  split_and!; [exact Hok| |].
  - intros e ep (resolve & _ & _ & U & E)%Hok. rewrite E.
    destruct (ParseAllowlist_ok _ _ _ _ _ Ha U) as (raw & ? & ? & ?). eauto.
  - intros err. unfold Lookup, AllowlistEndpoint. destruct d as [resolve|]; [|by intros [= <-]].
    destruct (resolve tenant) as [e|e]; [|by destruct e; intros [= <-]].
    destruct (a !! _); [done|]. by intros [= <-].
Qed.

(** ** Printing and parsing *)

Section printing.
Context (url_parse : string → option URL).

Definition print_item (p : string * string) : string := p.1 +:+ String "="%char p.2.
(** The specification of an allowlist, in the order of the map. *)
Definition print_allowlist (a : gmap string string) : string := join "," (print_item <$> map_to_list a).

(** A URL that can stand in a specification and is its own normal form. *)
Definition printable (id u : string) : Prop :=
  ValidEndpointID id = true ∧ plain u = true ∧ lacks "," u = true ∧ good_url url_parse u u.

Lemma plain_item p : printable p.1 p.2 → plain (print_item p) = true.
Proof.
  intros (Hid & Hu & _). apply valid_id_bytes in Hid as (_ & Hid & _). unfold plain, print_item in *.
  rewrite all_bytes_app, Hid. simpl. by rewrite Hu.
Qed.

Lemma plain_join l : Forall (λ s, plain s = true) l → plain (join "," l) = true.
Proof.
  induction 1 as [|s l Hs Hl IH]; [done|]. destruct l as [|t l]; [done|].
  unfold join in *. rewrite concat_cons. unfold plain in *. rewrite !all_bytes_app, Hs, IH. done.
Qed.

Lemma parse_items_print l i m :
  Forall (λ p, printable p.1 p.2) l → NoDup l.*1 → (∀ p, p ∈ l → m !! p.1 = None) →
  parse_items i (print_item <$> l) m = Ok (foldl (λ m p, <[p.1 := p.2]> m) m l).
Proof.
  revert i m. induction l as [|[id u] l IH]; intros i m Hp HN Hm; [done|].
  apply Forall_cons in Hp as [Hp Hl]. rewrite fmap_cons in *. apply NoDup_cons in HN as [Hni HN]. cbn [parse_items foldl].
  rewrite trim_space_plain by (by apply (plain_item (id, u))). unfold print_item at 1.
  destruct Hp as (Hid & Hu & _ & _). simpl in Hid, Hu. destruct (valid_id_bytes id Hid) as (_ & Hpl & _ & Heq).
  rewrite cut_lacks by done. cbn [fst snd]. rewrite (trim_space_plain id), (trim_space_plain u) by done. rewrite Hid.
  assert (m !! id = None) as -> by exact (Hm (id, u) (list_elem_of_here _ _)). simpl. apply IH; [done..|].
  intros [id' u'] Hin. simpl. rewrite lookup_insert_ne; [apply (Hm (id', u')), elem_of_cons; by right|].
  intros <-. apply Hni. exact (list_elem_of_fmap_2 fst l (id, u') Hin).
Qed.

Lemma normalize_print l m : Forall (λ p, printable p.1 p.2) l →
  normalize_all url_parse l m = Ok (foldl (λ m p, <[p.1 := p.2]> m) m l).
Proof.
  revert m. induction l as [|[id u] l IH]; intros m Hp; [done|]. apply Forall_cons in Hp as [(Hid & _ & _ & Hg) Hl].
  cbn [normalize_all foldl]. rewrite (proj2 (normalizeURL_ok url_parse id u u)) by done. simpl. by apply IH.
Qed.

Lemma fold_insert_map (a : gmap string string) : foldl (λ m p, <[p.1 := p.2]> m) ∅ (map_to_list a) = a.
Proof.
  assert (∀ (l : list (string * string)) (m : gmap string string), NoDup l.*1 → foldl (λ m p, <[p.1 := p.2]> m) m l = (list_to_map l : gmap string string) ∪ m) as H.
  { induction l as [|[k v] l IH]; intros m HN; [cbn; by rewrite map_empty_union|].
    rewrite fmap_cons in HN. apply NoDup_cons in HN as [Hni HN]. cbn [foldl]. rewrite IH by done. simpl.
    rewrite <- insert_union_r, insert_union_l; [done|]. by apply not_elem_of_list_to_map_1. }
  rewrite H by apply NoDup_fst_map_to_list. by rewrite list_to_map_to_list, map_union_empty.
Qed.

Lemma item_lacks p : printable p.1 p.2 → lacks "," (print_item p) = true.
Proof.
  destruct p as [id u]. intros (Hid & _ & Hu & _). apply valid_id_bytes in Hid as (_ & _ & Hid & _).
  unfold print_item. simpl in *. by rewrite lacks_app, lacks_cons, Hid, Hu.
Qed.

Lemma print_nonempty p l : printable p.1 p.2 → join "," (print_item <$> p :: l) ≠ "".
Proof.
  intros (Hid & _). apply valid_id_bytes in Hid as (Hne & _). destruct p as [[|c s] u]; [done|].
  rewrite fmap_cons. by destruct l.
Qed.

(** Printing an allowlist and parsing the text again gives the same
    allowlist. *)
Theorem ParseAllowlist_print (a : gmap string string) :
  (∀ id u, a !! id = Some u → printable id u) → ParseAllowlist url_parse (print_allowlist a) = Ok a.
Proof.
  intros Hp. assert (Forall (λ p, printable p.1 p.2) (map_to_list a)) as HF
    by (apply Forall_forall; intros [id u] Hin%elem_of_map_to_list; by apply Hp).
  assert (Forall (λ s, plain s = true) (print_item <$> map_to_list a)) as Hpl
    by (apply Forall_fmap; eapply Forall_impl; [exact HF|intros x; apply plain_item]).
  assert (Forall (λ s, lacks "," s = true) (print_item <$> map_to_list a)) as HL
    by (apply Forall_fmap; eapply Forall_impl; [exact HF|intros x; apply item_lacks]).
  unfold ParseAllowlist, print_allowlist. rewrite (trim_space_plain _ (plain_join _ Hpl)).
  destruct (decide (a = ∅)) as [->|Hne]; [by rewrite map_to_list_empty|].
  assert (map_to_list a ≠ []) as Hnil by (by rewrite map_to_list_empty_iff).
  rewrite bool_decide_eq_false_2.
  2:{ destruct (map_to_list a) as [|p l]; [done|]. apply Forall_cons in HF as [Hp1 _]. by apply print_nonempty. }
  rewrite (split_join ","); [|by intros ?%fmap_nil_inv|done].
  rewrite (parse_items_print _ 0 ∅); [|done|apply NoDup_fst_map_to_list|intros p _; apply lookup_empty].
  rewrite fold_insert_map. simpl. unfold NewAllowlist. by rewrite normalize_print, fold_insert_map.
Qed.
End printing.
