(* ===== verification/Guard.v ===== *)
(** * Guarded tool calls

    [internal/runtime/tool_policy.go]: the runtime's use of [BeginAttempt] and
    [EndAttempt] around a remote call.  The reply of the remote tool, the
    deadline and what each transaction meets (the clock, what others committed
    while the call was out, a failing database) are parameters; every call that
    leaves the process is recorded with the database as it was then, so that the
    theorem can say what had been committed before. *)
From S2P Require Import Prelude GoText.
From S2P Require Import Db CallBinding Interactions JournalCore Commands Runs Operations Keeps JournalKeeps Calls Service.
From S2P Require Import Binding.

Inductive guard_error :=
| GJournal (e : error)
| GDatabase
| GAuthRequired
| GOutcomeUnknown
| GContext.

(** What the model is given: the tool's result or one of the two errors it can
    repair. *)
Inductive guard_value := GResult (v : string) | GNotPermitted | GBusinessRejected.

(** What the attempts meet: the moments of their two transactions, whether the
    deadline of 30 seconds has passed before they begin, and the reply. *)
Record world := mk_world {
  w_begin : Z → moment; w_end : Z → moment; w_expired : Z → bool; w_reply : Z → result call_error string;
}.
Definition guard_store_error (e : store_error) : guard_error :=
  match e with SJournal e => GJournal e | SDatabase => GDatabase end.

(** The name of the outcome of a reply. *)
Definition outcome_name (r : result call_error string) : string :=
  match r with
  | Ok _ => "completed"
  | Err ErrAuthRequired => "auth_required"
  | Err ErrBusinessRejected | Err ErrNotPermitted => "rejected"
  | Err _ => "outcome_unknown"
  end.

Definition safe (op : Operation) : bool :=
  bool_decide (op.(o_Policy) = "read_only") || bool_decide (op.(o_Policy) = "idempotent").

(** A sent call: the database then, the attempt and the reply. *)
Definition sent : Type := list (db * Z * result call_error string).

Section guard.
Context `{codec : Codec} (w : world) (owner : Owner) (op : Operation) (approval : string).

(** [BeginAttempt], with its superseded marker turned into an error. *)
Definition begin_attempt (attempt : Z) : svc guard_error unit :=
  _ ← unless (negb (w.(w_expired) attempt)) GContext;
  r ← at_moment guard_store_error (w.(w_begin) attempt) (λ now, BeginAttempt now owner op attempt approval);
  match r with Ok _ => mret tt | Err e => throw (GJournal e) end.

Definition end_attempt (attempt : Z) (outcome : string) : svc guard_error unit :=
  at_moment guard_store_error (w.(w_end) attempt) (λ now, EndAttempt now owner op attempt outcome).

(** The loop; [fuel] attempts are left. *)
Fixpoint attempt_loop (fuel : nat) (attempt : Z) (s : db) : db * sent * result guard_error guard_value :=
  match fuel with
  | O => (s, [], Err GOutcomeUnknown)
  | S fuel =>
      match begin_attempt attempt s with
      | (s, Err e) => (s, [], Err e)
      | (s1, Ok _) =>
          let reply := w.(w_reply) attempt in
          let outcome := outcome_name reply in
          let log := [(s1, attempt, reply)] in
          match end_attempt attempt outcome s1 with
          | (s2, Err e) => (s2, log, Err e)
          | (s2, Ok _) =>
              match reply with
              | Ok v => (s2, log, Ok (GResult v))
              | Err ErrAuthRequired => (s2, log, Err GAuthRequired)
              | Err ErrNotPermitted => (s2, log, Ok GNotPermitted)
              | Err _ =>
                  if negb (safe op) || (attempt =? 2) then
                    (s2, log, if bool_decide (outcome = "outcome_unknown") then Err GOutcomeUnknown
                              else Ok GBusinessRejected)
                  else if w.(w_expired) (attempt + 1) then (s2, log, Err GContext)
                  else let '(s3, rest, r) := attempt_loop fuel (attempt + 1) s2 in (s3, log ++ rest, r)
              end
          end
      end
  end.

Definition guardedCall (s : db) : db * sent * result guard_error guard_value := attempt_loop 2 1 s.

(** ** What the transactions leave *)

(** Nothing happened to the calls. *)
Definition quiet (s s' : db) : Prop := s'.(attempts) = s.(attempts) ∧ s'.(operations) = s.(operations).
#[local] Instance quiet_preorder : PreOrder quiet.
Proof. split; [done|]. intros s1 s2 s3 [? ?] [? ?]. split; congruence. Qed.
#[local] Instance quiet_writes : Writes quiet.
Proof. split; [apply _|done..]. Qed.

Lemma quiet_interaction t id f : keeps quiet (update_interaction t id f).
Proof using. apply keeps_update_interaction; [apply _|by split]. Qed.

Lemma quiet_takeApproval now t run ex : keeps quiet (takeApproval now t run op ex approval).
Proof using.
  unfold takeApproval, supersede. cbv zeta.
  repeat first [progress keeps_walk|apply quiet_interaction|apply k_appendEvent; apply _].
Qed.

(** The call [op] in one of its outcomes. *)
Definition op_is (x : Outcome) (s : db) : Prop := ∃ o, s.(operations) !! op.(o_CallID) = Some o ∧ o.(op_outcome) = x.

Lemma firstAttempt_calls now t run ex s b s' : firstAttempt now t run op ex approval s = Ok (b, s') →
  s'.(attempts) = s.(attempts) ∧ (b = false → op_is ODispatching s').
Proof using.
  unfold firstAttempt. intros H. tx_step H sup s1 Ht.
  assert (quiet s s1) as [E1 _] by (destruct (o_RequiresApproval op);
    [by apply quiet_takeApproval in Ht|by injection Ht as _ <-]).
  destruct sup; [by injection H as <- <-|]. tx_get H row. tx_step H u s2 Hi.
  apply insert_operation_ok in Hi as (_ & _ & ->). tx_step H u1 s3 Hu. injection H as <- <-.
  assert (quiet (upd_operations <[o_CallID op := operation_row_of t run op (run_of t run s1 ≫= rn_journey)]> s1) s3) as [E2 E3].
  { destruct (o_RequiresApproval op); [by apply quiet_interaction in Hu|by injection Hu as _ <-]. }
  split; [by rewrite E2|]. intros _. eexists. rewrite E3. simpl. by rewrite lookup_insert_eq.
Qed.

Lemma retryAttempt_calls t run s u s' : retryAttempt t run op s = Ok (u, s') →
  s'.(attempts) = s.(attempts) ∧ op_is ODispatching s'.
Proof using.
  unfold retryAttempt. intros H. tx_get H row. tx_the H o Ho. tx_guard H G1. tx_guard H G2. injection H as _ <-.
  split; [done|]. eexists. simpl. by rewrite lookup_insert_eq.
Qed.

(** A committed intent: the attempt and its operation are dispatching, and no
    other attempt changed.  A superseded approval leaves the attempts alone. *)
Lemma BeginAttempt_calls now attempt s r s' : BeginAttempt now owner op attempt approval s = Ok (r, s') →
  match r with
  | Ok _ => s'.(attempts) = <[(op.(o_CallID), attempt) := ODispatching]> s.(attempts) ∧ op_is ODispatching s'
  | Err _ => s'.(attempts) = s.(attempts)
  end.
Proof using.
  unfold BeginAttempt. cbv zeta. intros H. tx_guard H G1. tx_step H u s1 Hl. apply lockOwner_ok in Hl as [-> _].
  tx_step H scope s2 Hsc. apply run_scope_ok in Hsc as (-> & row & conv & product & definition & -> & _).
  tx_the H expected He. tx_guard H G2. tx_get H unknown. tx_guard H G3. tx_step H sup s3 Hsup.
  assert (s3.(attempts) = s.(attempts) ∧ (sup = false → op_is ODispatching s3)) as [E1 Hop].
  { destruct (attempt =? 1); [by eapply firstAttempt_calls|]. tx_step Hsup u1 s4 Hr. injection Hsup as <- <-.
    apply retryAttempt_calls in Hr as [? ?]. by split. }
  destruct sup; [by injection H as <- <-|]. destruct (Hop eq_refl) as (o & Ho & Hd).
  tx_step H u1 s4 Hi. apply insert_attempt_ok in Hi as [_ ->]. tx_step H u2 s5 Hev.
  apply (k_appendEvent quiet) in Hev as [E2 E3]. injection H as <- <-. split; [by rewrite E2; simpl; rewrite E1|].
  exists o. by rewrite E3.
Qed.

(** The outcome a reply is journaled as. *)
Definition outcome_of (r : result call_error string) : Outcome :=
  default OUnknown (parse_outcome (outcome_name r)).

Lemma EndAttempt_calls now attempt r s u s' : EndAttempt now owner op attempt (outcome_name r) s = Ok (u, s') →
  s'.(attempts) = <[(op.(o_CallID), attempt) := outcome_of r]> s.(attempts) ∧ op_is (outcome_of r) s'.
Proof using.
  unfold EndAttempt. cbv zeta. intros H. tx_the H x Hx. unfold outcome_of. rewrite Hx. cbn [default].
  tx_step H u1 s1 Hl. apply lockOwner_ok in Hl as [-> _]. tx_get H row. tx_the H o Ho. tx_guard H G1.
  tx_step H u2 s2 Hm. injection Hm as _ <-. tx_get H old. tx_guard H G2. tx_step H u3 s3 Hm. injection Hm as _ <-.
  apply (k_appendEvent quiet) in H as [E1 E2]. split; [by rewrite E1|]. eexists. rewrite E2. simpl.
  by rewrite lookup_insert_eq.
Qed.

(** ** The loop *)

(** What the caller learns from a reply that ended the loop. *)
Definition verdict (r : result call_error string) : result guard_error guard_value :=
  match r with
  | Ok v => Ok (GResult v)
  | Err ErrAuthRequired => Err GAuthRequired
  | Err ErrNotPermitted => Ok GNotPermitted
  | Err ErrBusinessRejected => Ok GBusinessRejected
  | Err _ => Err GOutcomeUnknown
  end.

(** Replies after which the same call may be sent again. *)
Definition repeatable (r : result call_error string) : bool :=
  match r with Err ErrBusinessRejected | Err ErrNotBound | Err ErrCall => true | _ => false end.

(** The loop gave its own answer, not the journal's, the database's or the
    context's error. *)
Definition settled (r : result guard_error guard_value) : bool :=
  match r with Ok _ | Err GAuthRequired | Err GOutcomeUnknown => true | _ => false end.

Record loop_result (fuel : nat) (attempt : Z) (s s' : db) (log : sent) (r : result guard_error guard_value) : Prop := {
  lr_length : (length log ≤ fuel)%nat ∧ (safe op = false → (length log ≤ 1)%nat);
  lr_intent : ∀ k s1 n reply, log !! k = Some (s1, n, reply) → n = attempt + Z.of_nat k ∧ reply = w.(w_reply) n ∧
    s1.(attempts) !! (op.(o_CallID), n) = Some ODispatching ∧ op_is ODispatching s1;
  lr_repeat : ∀ e1 e2 rest, log = e1 :: e2 :: rest → repeatable e1.2 = true;
  lr_settled : settled r = true → ∃ s1 n reply, last log = Some (s1, n, reply) ∧ r = verdict reply ∧
    op_is (outcome_of reply) s' ∧ s'.(attempts) !! (op.(o_CallID), n) = Some (outcome_of reply);
}.

Lemma guard_store_unsettled e : settled (Err (guard_store_error e)) = false.
Proof using. by destruct e. Qed.

Lemma begin_attempt_calls attempt s s1 r : begin_attempt attempt s = (s1, r) →
  match r with
  | Ok _ => s1.(attempts) !! (op.(o_CallID), attempt) = Some ODispatching ∧ op_is ODispatching s1
  | Err e => settled (Err e) = false
  end.
Proof using.
  unfold begin_attempt, unless. destruct (negb _); [|by intros [= <- <-]].
  unfold mbind, prog_bind, at_moment, mret, prog_ret. cbv beta.
  match goal with |- context [transact ?m ?t s] => destruct (transact m t s) as [s2 [x|e']] eqn:B end; [|intros [= <- <-]; apply guard_store_unsettled].
  apply transact_ok, BeginAttempt_calls in B. destruct x as [u|e']; intros [= <- <-]; [|done].
  destruct B as [-> B]. split; [apply lookup_insert_eq|done].
Qed.

Lemma end_attempt_calls attempt reply s s2 r : end_attempt attempt (outcome_name reply) s = (s2, r) →
  match r with
  | Ok _ => s2.(attempts) !! (op.(o_CallID), attempt) = Some (outcome_of reply) ∧ op_is (outcome_of reply) s2
  | Err e => settled (Err e) = false
  end.
Proof using.
  unfold end_attempt, at_moment. cbv beta. match goal with |- context [transact ?m ?t s] => destruct (transact m t s) as [s3 [u|e]] eqn:E end; intros [= <- <-]; [|apply guard_store_unsettled].
  apply transact_ok, EndAttempt_calls in E as [-> E]. split; [apply lookup_insert_eq|done].
Qed.

(** One attempt that ends the loop. *)
Lemma loop_single fuel attempt s s1 s2 r :
  s1.(attempts) !! (op.(o_CallID), attempt) = Some ODispatching → op_is ODispatching s1 →
  (settled r = true → r = verdict (w.(w_reply) attempt) ∧ op_is (outcome_of (w.(w_reply) attempt)) s2 ∧
     s2.(attempts) !! (op.(o_CallID), attempt) = Some (outcome_of (w.(w_reply) attempt))) →
  loop_result (S fuel) attempt s s2 [(s1, attempt, w.(w_reply) attempt)] r.
Proof using.
  intros E1 H1 Hs. split.
  - simpl. split; [lia|done].
  - intros [|k] s0 n reply; [|done]. intros [= <- <- <-]. split_and!; [lia|done..].
  - done.
  - intros (Hr & Ho & Ha)%Hs. by eexists _, _, _.
Qed.

Lemma attempt_loop_ok fuel : ∀ attempt s s' log r, Z.of_nat fuel = 3 - attempt → 1 <= attempt → (1 ≤ fuel)%nat →
  attempt_loop fuel attempt s = (s', log, r) → loop_result fuel attempt s s' log r.
Proof using.
  induction fuel as [|fuel IH]; intros attempt s s' log r Hf Ha Hpos; [lia|]. cbn [attempt_loop].
  destruct (begin_attempt attempt s) as [s1 [u|e]] eqn:B; apply begin_attempt_calls in B.
  2:{ intros [= <- <- <-]. split; [split; intros; simpl; lia|done|done|by rewrite B]. }
  destruct B as [E1 H1]. destruct (end_attempt _ _ s1) as [s2 [u2|e]] eqn:E; apply end_attempt_calls in E.
  2:{ intros [= <- <- <-]. apply loop_single; [done..|by rewrite E]. }
  destruct E as [Hat H2].
  assert (∀ r0, r0 = verdict (w.(w_reply) attempt) →
    loop_result (S fuel) attempt s s2 [(s1, attempt, w.(w_reply) attempt)] r0) as Hstop
    by (intros r0 Hr; by apply loop_single).
  assert (repeatable (w.(w_reply) attempt) = true →
    (if negb (safe op) || (attempt =? 2) then
       (s2, [(s1, attempt, w.(w_reply) attempt)],
        if bool_decide (outcome_name (w.(w_reply) attempt) = "outcome_unknown") then Err GOutcomeUnknown
        else Ok GBusinessRejected)
     else if w.(w_expired) (attempt + 1) then (s2, [(s1, attempt, w.(w_reply) attempt)], Err GContext)
     else let '(s3, rest, r) := attempt_loop fuel (attempt + 1) s2 in
          (s3, [(s1, attempt, w.(w_reply) attempt)] ++ rest, r)) = (s', log, r) →
    loop_result (S fuel) attempt s s' log r) as Hgo.
  { intros Hrep. destruct (negb (safe op) || (attempt =? 2)) eqn:St.
    { intros [= <- <- <-]. apply Hstop. by destruct (w.(w_reply) attempt) as [|[]]. }
    apply orb_false_iff in St as [Hsafe%negb_false_iff H2'%Z.eqb_neq].
    destruct (w.(w_expired) (attempt + 1)); [intros [= <- <- <-]; by apply loop_single|].
    destruct (attempt_loop fuel (attempt + 1) s2) as [[s3 rest] r'] eqn:L. intros [= <- <- <-].
    apply IH in L; [|lia..]. destruct L as [[L1 L1'] L2 L3 L4]. split.
    - simpl. split; [lia|congruence].
    - intros [|k] s0 n reply; simpl.
      + intros [= <- <- <-]. split_and!; [lia|done..].
      + intros (Hn & ?)%L2. split; [lia|done].
    - intros e1 e2 l [= <- _]. done.
    - intros (s0 & n & reply & Hl & Hr & Ho & Hall)%L4. exists s0, n, reply. split_and!; [|done..].
      destruct rest; [done|exact Hl]. }
  destruct (w.(w_reply) attempt) as [v|[]] eqn:R; try (by apply Hgo); intros [= <- <- <-]; by apply Hstop.
Qed.

(** C16 A guarded call is journaled around every dispatch, whatever others commit
    and however the database fails in between.  When the call leaves
    the process its intent is committed: the attempt and the operation are
    dispatching.  A call is sent at most twice, one that is not read-only or
    idempotent at most once, and again only after a rejection or an unknown
    outcome.  When the runtime gets an answer, it is that of the last reply, and
    the journal holds its outcome for the attempt and for the operation. *)
Theorem guardedCall_journaled (s s' : db) (log : sent) (r : result guard_error guard_value) :
  guardedCall s = (s', log, r) →
  (length log ≤ 2)%nat ∧ (safe op = false → (length log ≤ 1)%nat) ∧
  (∀ k s1 n reply, log !! k = Some (s1, n, reply) → n = 1 + Z.of_nat k ∧ reply = w.(w_reply) n ∧
     s1.(attempts) !! (op.(o_CallID), n) = Some ODispatching ∧ op_is ODispatching s1) ∧
  (∀ e1 e2, log = [e1; e2] → repeatable e1.2 = true) ∧
  (settled r = true → ∃ s1 n reply, last log = Some (s1, n, reply) ∧ r = verdict reply ∧ op_is (outcome_of reply) s' ∧
     s'.(attempts) !! (op.(o_CallID), n) = Some (outcome_of reply)).
Proof using.
  intros H. destruct (attempt_loop_ok 2 1 s s' log r) as [[L1 L2] L3 L4 L5]; [done|lia|lia|exact H|].
  split_and!; [done|done|exact L3|intros e1 e2 E; by apply (L4 e1 e2 [])|exact L5].
Qed.
End guard.
