(* ===== verification/Dispatch.v ===== *)
(** * Planning a model's tool calls

    [internal/runtime/dispatch.go], [internal/journeys/compose.go] and
    [internal/skills/source.go]: what one provider call is offered, how the
    calls of its response are classified, and how a skill's supporting file is
    read. *)
From S2P Require Import Prelude GoText.
From S2P Require Import Db CallBinding Selectors Journey History Resolve.

Definition toolRequestUserInput : string := "request_user_input".
Definition toolActivateJourney : string := "activate_journey".
Definition toolReadSkillResource : string := "read_skill_resource".

(** ** What is offered *)

Definition resourceSkill (journey : Journey.Journey) : option string :=
  sp_Name <$> List.find (λ s, negb s.(sp_Disabled) && s.(sp_AllowSupportingFiles)) journey.(j_Skills).

Definition offersResources (active : list Journey.Journey) : bool :=
  existsb (λ j, bool_decide (is_Some (resourceSkill j))) active.

(** The tools of one provider call; only [activate_journey] depends on the
    conversation. *)
Inductive OfferedTool :=
| AliasTool (t : Tool)
| QuestionTool
| ActivateTool (available : list string)
| ReadSkillResourceTool.
Definition tool_name (t : OfferedTool) : string :=
  match t with
  | AliasTool t => t.(t_Alias)
  | QuestionTool => toolRequestUserInput
  | ActivateTool _ => toolActivateJourney
  | ReadSkillResourceTool => toolReadSkillResource
  end.

Definition roundTools (aliasTools : list Tool) (available : list string) (active : list Journey.Journey)
    : list OfferedTool :=
  (AliasTool <$> aliasTools) ++ [QuestionTool; ActivateTool available] ++
  (if offersResources active then [ReadSkillResourceTool] else []).

(** ** Instructions *)

Record Metadata := mk_Metadata { md_ID : string; md_Description : string }.
Record Instructions := mk_Instructions { ins_ID : string; ins_Body : string }.

Definition newline : string := String (Ascii.ascii_of_nat 10) "".
Definition available_heading : string := "## Available journeys" +:+ newline +:+
  "Call activate_journey with a journey ID before using that journey's tools.".
Definition available_section (available : list Metadata) : string :=
  foldl (λ s m, s +:+ newline +:+ "- " +:+ m.(md_ID) +:+ ": " +:+ m.(md_Description)) available_heading available.
Definition active_section (i : Instructions) : string :=
  let s := "## Active journey: " +:+ i.(ins_ID) in
  let body := trim_space i.(ins_Body) in
  if bool_decide (body = "") then s else s +:+ newline +:+ body.

Definition Compose (base : string) (available : list Metadata) (active : list Instructions) : string :=
  let b := trim_space base in
  join (newline +:+ newline)
    ((if bool_decide (b = "") then [] else [b]) ++
     (if bool_decide (available = []) then [] else [available_section available]) ++
     (active_section <$> active)).

Definition journeyMetadata (l : list Journey.Journey) : list Metadata := (λ j, mk_Metadata j.(j_ID) j.(j_Description)) <$> l.
Definition composeInstructions (base : string) (available active : list Journey.Journey) : string :=
  Compose base (journeyMetadata available) ((λ j, mk_Instructions j.(j_ID) j.(j_Prompt)) <$> active).

(** ** The plan *)

Record Call := mk_Call { fn_CallID : string; fn_Name : string; fn_Arguments : string }.

Inductive callKind :=
| callInactive | callActivate | callNotExecuted | callAsk | callReadResource
| callAlias (Journey : string).
Record plannedCall := mk_plannedCall { pl_Call : Call; pl_Kind : callKind }.

(** The loop runs from the last active journey, the most recently used, to the
    first. *)
Definition owningJourney (active : list string) (has : string → string → bool) (alias : string) : option string :=
  List.find (λ id, has id alias) (rev active).

Definition plan_call (activating resources : bool) (owner : string → option string) (c : Call) : plannedCall :=
  mk_plannedCall c
    (if bool_decide (c.(fn_Name) = toolActivateJourney) then callActivate
     else if activating then callNotExecuted
     else if bool_decide (c.(fn_Name) = toolRequestUserInput) then callAsk
     else if bool_decide (c.(fn_Name) = toolReadSkillResource) && resources then callReadResource
     else match owner c.(fn_Name) with Some journey => callAlias journey | None => callInactive end).

Definition planCalls (calls : list Call) (resources : bool) (owner : string → option string) : list plannedCall :=
  let activating := existsb (λ c, bool_decide (c.(fn_Name) = toolActivateJourney)) calls in
  plan_call activating resources owner <$> calls.

(** ** Reading a supporting file *)

Inductive skill_error := ErrSkillUnavailable | ErrSkillChanged.

Record Material := mk_Material {
  mt_Name : string; mt_Resource : string; mt_SkillDigest : string; mt_FileDigest : string; mt_Body : string;
}.
Definition SkillSource : Type := gmap string SkillPackage.

(** [New]: the last of several skills of one name stays. *)
Definition NewSkillSource (journey : Journey.Journey) : SkillSource :=
  foldl (λ m s, <[s.(sp_Name) := s]> m) ∅ journey.(j_Skills).

Record SkillMetadata := mk_SkillMetadata { sm_Name : string; sm_Description : string; sm_Digest : string }.
Definition SkillCatalog (source : SkillSource) : list SkillMetadata :=
  omap (M := list) (λ k, s ← source !! k;
      if s.(sp_Disabled) then None else Some (mk_SkillMetadata s.(sp_Name) s.(sp_Description) s.(sp_Digest)))
    (sort_strings (elements (dom source))).

Section read.
Context `{Codec}.

(** The file a resource name means: the instructions, or a declared supporting
    file when the skill allows them. *)
Definition skill_file (skill : SkillPackage) (resource : string) : option SkillFile :=
  if bool_decide (resource = "") || bool_decide (resource = "SKILL.md") then Some skill.(sp_Instructions)
  else if skill.(sp_AllowSupportingFiles) then skill.(sp_Supporting) !! resource
  else None.

Definition ReadSkill (source : SkillSource) (name resource : string) : result skill_error Material :=
  match source !! name with
  | None => Err ErrSkillUnavailable
  | Some skill =>
      if skill.(sp_Disabled) then Err ErrSkillUnavailable
      else match skill_file skill resource with
           | None => Err ErrSkillUnavailable
           | Some file =>
               if bool_decide (hex (sha256 file.(sf_Data)) = file.(sf_Digest)) then
                 Ok (mk_Material skill.(sp_Name) (if bool_decide (resource = "") then "SKILL.md" else resource)
                       skill.(sp_Digest) file.(sf_Digest) file.(sf_Data))
               else Err ErrSkillChanged
           end
  end.
End read.
