(* ===== verification/Harness.v ===== *)
(** * The conversation loop

    [internal/runtime/interactions.go], with the provider call of
    [internal/runtime/run.go]: the loop that alternates provider calls and
    tool calls, between transactions of the journal.  A program of the loop is a
    [prog] over [hstate]: the database, the variables the Go closures share,
    and the log of what left the process (provider requests and tool calls).

    What is outside is the record [outside], asked with the number of steps
    taken so far: the clock, the transactions of other processes before each
    of ours (those around a tool call's two transactions included), the calls
    of the database that fail, random texts, the model and the remote tools.
    The agent framework and the JSON decoders are the record [framework]. *)
From stdpp Require Import pretty.
From S2P Require Import Prelude GoText.
From S2P Require Import Db CallBinding Interactions JournalCore Commands Owners Runs Operations Records Service.
From S2P Require Import Selectors Journey History Resolve Binding Guard Dispatch.
From S2P Require ActiveSet.

(** ** Data *)

Inductive model_error := MStore (e : store_error) | MLimit (kind : string) (retryAfter : Z) | MAuthRequired | MFailed.

Inductive herror :=
| HJournal (e : error)
| HDatabase
| HGuard (e : guard_error)
| HActive (e : ActiveSet.error)
| HSkillChanged
| HModel (e : model_error)
| HCancelled
| HJSON
| HRepairs
| HNoAnswer
| HNotAllowed
| HRounds
| HRequest (e : herror).

(** [errors.Is(err, e)] for an error of the journal. *)
Fixpoint is_journal (e : error) (err : herror) : bool :=
  match err with
  | HJournal e' | HGuard (GJournal e') | HModel (MStore (SJournal e')) => bool_decide (e = e')
  | HGuard GOutcomeUnknown => bool_decide (e = ErrOutcomeUnknown)
  | HRequest err => is_journal e err
  | _ => false
  end.

Record MaterialProvenance := mk_Provenance { mp_ID : string; mp_Digest : string }.
Record RequestProvenance := mk_RequestProvenance {
  rp_Definition : MaterialProvenance; rp_System : MaterialProvenance; rp_Catalog : MaterialProvenance;
  rp_History : MaterialProvenance; rp_Active : list MaterialProvenance; rp_Pending : list MaterialProvenance;
  rp_IncludedInput : list MaterialProvenance; rp_Skills : list MaterialProvenance;
}.
Record ToolResult := mk_ToolResult { tr_CallID : string; tr_Name : string; tr_Value : value }.
Record ModelRequest := mk_ModelRequest {
  mr_History : string; mr_PendingCommands : list Input; mr_Instructions : string; mr_Messages : list string;
  mr_ProviderMessages : list Message; mr_Tools : list OfferedTool; mr_ToolResults : list ToolResult;
  mr_DefinitionDigest : string; mr_ActiveJourneys : list string; mr_Provenance : RequestProvenance;
}.
Record ToolCall := mk_ToolCall { tc_CallID : string; tc_Name : string; tc_Arguments : string }.
Record Tokens := mk_Tokens { tk_Model : string; tk_Input : Z; tk_Output : Z; tk_Cached : Z }.
Record ModelResponse := mk_ModelResponse {
  ms_Text : string; ms_ToolCalls : list ToolCall; ms_ToolCall : option ToolCall; ms_Usage : Tokens;
}.

Record RunInput := mk_RunInput {
  in_Owner : Owner; in_Iteration : Z; in_History : string; in_ThreadID : string; in_RunID : string;
  in_Principal : string; in_TargetJourney : string; in_ProductVersion : string; in_AttributionJourney : string;
}.
Record RunOutput := mk_RunOutput {
  out_Waiting : bool; out_History : string; out_JourneyID : string; out_Answer : string;
}.
Definition zero_output : RunOutput := mk_RunOutput false "" "" "".

Record boundCall := mk_boundCall {
  bc_journeyID : string; bc_operationKey : string; bc_nameDigest : string; bc_schemaDigest : string; bc_binding : string;
}.

(** What leaves the process. *)
Inductive event :=
| EvRequest (request : ModelRequest)
| EvDispatch (op : Operation) (approval : string) (active : list string) (calls : sent).

Record hstate := mk_hstate {
  hs_db : db; hs_tick : nat; hs_active : list string; hs_persisted : list string; hs_history : list Message;
  hs_repairs : Z; hs_number : Z; hs_skills : list MaterialProvenance; hs_log : list event;
}.
Definition set_db (s : db) (h : hstate) : hstate :=
  mk_hstate s (S h.(hs_tick)) h.(hs_active) h.(hs_persisted) h.(hs_history) h.(hs_repairs) h.(hs_number) h.(hs_skills) h.(hs_log).
Definition set_active (a : list string) (h : hstate) : hstate :=
  mk_hstate h.(hs_db) h.(hs_tick) a h.(hs_persisted) h.(hs_history) h.(hs_repairs) h.(hs_number) h.(hs_skills) h.(hs_log).
Definition set_persisted (a : list string) (h : hstate) : hstate :=
  mk_hstate h.(hs_db) h.(hs_tick) h.(hs_active) a h.(hs_history) h.(hs_repairs) h.(hs_number) h.(hs_skills) h.(hs_log).
Definition set_history (l : list Message) (h : hstate) : hstate :=
  mk_hstate h.(hs_db) h.(hs_tick) h.(hs_active) h.(hs_persisted) l h.(hs_repairs) h.(hs_number) h.(hs_skills) h.(hs_log).
Definition set_repairs (n : Z) (h : hstate) : hstate :=
  mk_hstate h.(hs_db) h.(hs_tick) h.(hs_active) h.(hs_persisted) h.(hs_history) n h.(hs_number) h.(hs_skills) h.(hs_log).
Definition set_number (n : Z) (h : hstate) : hstate :=
  mk_hstate h.(hs_db) h.(hs_tick) h.(hs_active) h.(hs_persisted) h.(hs_history) h.(hs_repairs) n h.(hs_skills) h.(hs_log).
Definition add_skill (p : MaterialProvenance) (h : hstate) : hstate :=
  mk_hstate h.(hs_db) h.(hs_tick) h.(hs_active) h.(hs_persisted) h.(hs_history) h.(hs_repairs) h.(hs_number) (h.(hs_skills) ++ [p]) h.(hs_log).
Definition add_event (e : event) (h : hstate) : hstate :=
  mk_hstate h.(hs_db) h.(hs_tick) h.(hs_active) h.(hs_persisted) h.(hs_history) h.(hs_repairs) h.(hs_number) h.(hs_skills) (h.(hs_log) ++ [e]).
Definition set_tick (n : nat) (h : hstate) : hstate :=
  mk_hstate h.(hs_db) n h.(hs_active) h.(hs_persisted) h.(hs_history) h.(hs_repairs) h.(hs_number) h.(hs_skills) h.(hs_log).
Definition add_messages (l : list Message) (h : hstate) : hstate := set_history (h.(hs_history) ++ l) h.

(** ** The outside *)

(** The agent framework and JSON.  [fw_unmarshal] also gives what was decoded
    before an error; [fw_collect] are the messages [agent.Run] makes of one
    update of the provider. *)
Record framework := mk_framework {
  fw_unmarshal : string → list Message * bool;
  fw_marshal : list Message → option string;
  fw_collect : list Content → list Message;
  fw_text : Message → string;
  fw_string : list Message → string;
  fw_activate : string → option string;
  fw_resource : string → option (string * string);
  fw_questions : string → option (list Question);
  fw_checkpoint : string → option (string * Z);
  fw_question_schema : string;
}.

Record outside := mk_outside {
  x_now : nat → Z;
  x_others : nat → db → db;
  x_fault : nat → fault;
  x_random : nat → string;
  x_cancelled : nat → bool;
  x_dispatches : nat → ModelRequest → bool;
  x_complete : nat → ModelRequest → option (result store_error unit) → result model_error ModelResponse;
  x_remote : nat → Z → string → string → call_result;
  x_expired : nat → Z → bool;
}.

Abbreviation hprog := (prog hstate herror).

(** What one run of the loop is given: the immutable part of the Go struct
    [conversation], the input, the limit of the active set and the history
    budget, and what is outside. *)
Class Conversation := mk_Conversation {
  the_framework : framework; the_outside : outside; the_input : RunInput; the_set : DefSet;
  the_catalog : Binding; the_journeys : list Journey.Journey; the_limit : Z; the_budget : Z;
}.

Section harness.
Context `{codec : Codec} `{conversation : Conversation}.
Abbreviation fw := the_framework.
Abbreviation x := the_outside.
Abbreviation input := the_input.
Abbreviation definition := the_set.
Abbreviation cat := the_catalog.
Abbreviation available := the_journeys.
Abbreviation limit := the_limit.
Abbreviation budget := the_budget.
Abbreviation owner := (input.(in_Owner)).

Definition moment_at (n : nat) : moment := mk_moment (x.(x_now) n) (x.(x_others) n) (x.(x_fault) n).
Definition loop_store_error (e : store_error) : herror := match e with SJournal e => HJournal e | SDatabase => HDatabase end.

(** One transaction, after what others committed in the meantime. *)
Definition journal {A} (t : Z → tx A) : hprog A := λ h,
  let '(s, r) := at_moment loop_store_error (moment_at h.(hs_tick)) t h.(hs_db) in (set_db s h, r).

Definition random : hprog string := λ h, (set_db h.(hs_db) h, Ok (x.(x_random) h.(hs_tick))).
Definition cancelled : hprog bool := λ h, (set_db h.(hs_db) h, Ok (x.(x_cancelled) h.(hs_tick))).
Definition decoded {A} (o : option A) : hprog A := match o with Some a => mret a | None => throw HJSON end.
Definition bound {A} (r : result error A) : hprog A := lift_result (match r with Ok a => Ok a | Err e => Err (HJournal e) end).

(** ** The conversation *)

Definition find_journey (id : string) : option Journey.Journey :=
  List.find (λ j, bool_decide (j.(j_ID) = id)) available.
Definition isAvailable (id : string) : bool := bool_decide (is_Some (find_journey id)).
Definition activeJourneys (active : list string) : list Journey.Journey := omap (M := list) find_journey active.
Definition owner_of (active : list string) (alias : string) : option string :=
  owningJourney active (λ journey alias, bool_decide (is_Some (Binding_Tool cat journey alias))) alias.

Definition touch (id : string) : hprog unit := update (λ h, set_active (ActiveSet.Touch id h.(hs_active)).1 h).

Definition flush : hprog unit :=
  order ← asks hs_active;
  persisted ← asks hs_persisted;
  if bool_decide (order = persisted) then mret tt
  else
    _ ← journal (λ now, SetActiveJourneys now owner order);
    update (set_persisted order).

Definition resultMessage (id : string) (v : value) : Message := mk_Message "tool" [FunctionResultContent id v] "".
Definition answer (id : string) (v : value) : hprog unit := update (add_messages [resultMessage id v]).

(** ** Bindings *)

Definition bindCall (journey key remote schema arguments : string) : result error boundCall :=
  schemaDigest ← SchemaDigest schema;
  binding ← BindCall (mk_CallBinding journey key (NameDigest remote) schemaDigest arguments input.(in_ProductVersion)
              input.(in_Principal) input.(in_ThreadID) definition.(set_digest));
  Ok (mk_boundCall journey key (NameDigest remote) schemaDigest binding).
Definition bindTool (journey : string) (t : Tool) (arguments : string) : result error boundCall :=
  bindCall journey t.(t_OperationKey) t.(t_RemoteName) t.(t_InputSchema) arguments.
Definition bindClarification (arguments : string) : result error boundCall :=
  bindCall "" toolRequestUserInput toolRequestUserInput fw.(fw_question_schema) arguments.

Definition interaction (b : boundCall) (kind callID id : string) (c : Call) : Interaction :=
  mk_Interaction ("interaction_" +:+ id) kind []
    (Db.mk_Call callID c.(fn_CallID) c.(fn_Name) c.(fn_Arguments) b.(bc_binding)) 0
    b.(bc_journeyID) b.(bc_operationKey) b.(bc_nameDigest) b.(bc_schemaDigest).

Definition operation (b : boundCall) (callID name arguments : string) (t : Tool) (approval : bool) : Operation :=
  mk_Operation callID name arguments b.(bc_binding) t.(t_Class) b.(bc_operationKey) b.(bc_nameDigest)
    b.(bc_schemaDigest) approval b.(bc_journeyID).

(** [stableCallID] and the counter behind it. *)
Definition stableCallID (thread run : string) : string :=
  let nul := String (Ascii.ascii_of_nat 0) "" in
  "call_" +:+ hex (String.substring 0 8 (sha256 (thread +:+ nul +:+ run +:+ nul +:+ "tool-1"))).
Definition bump : hprog unit := update (λ h, set_number (h.(hs_number) + 1) h).
Definition nextCallID : hprog string :=
  _ ← bump;
  n ← asks hs_number;
  mret (stableCallID input.(in_ThreadID) (input.(in_RunID) +:+ "/" +:+ pretty input.(in_Iteration) +:+ "/" +:+ pretty n)).

(** ** The calls the platform answers itself *)

Definition activate (arguments : string) : hprog value :=
  match fw.(fw_activate) arguments with
  | None => mret (VError "invalid_arguments" "")
  | Some journey =>
      if bool_decide (journey = "") then mret (VError "invalid_arguments" "")
      else if negb (isAvailable journey) then mret (VError "journey_unavailable" "")
      else
        row ← journal (λ now, ActiveJourneys now owner);
        let '(persisted, pinned) := row in
        let set := ActiveSet.NewActiveSet persisted in
        match ActiveSet.Activate journey limit pinned set with
        | (_, Err ActiveSet.ErrRefused) => mret (VError "activation_refused" "all active journeys are pinned")
        | (_, Err e) => throw (HActive e)
        | (next, Ok evicted) =>
            _ ← (if bool_decide (persisted = next) then mret tt
                 else journal (λ now, SetActiveJourneys now owner next));
            _ ← update (λ h, set_persisted next (set_active next h));
            mret (VActivated journey evicted)
        end
  end.

Definition readResource (arguments : string) : hprog value :=
  let unavailable := VError "resource_unavailable" "" in
  match fw.(fw_resource) arguments with
  | None => mret (VError "invalid_arguments" "")
  | Some (id, resource) =>
      active ← asks hs_active;
      if bool_decide (id = "") || bool_decide (resource = "") then mret (VError "invalid_arguments" "")
      else match find_journey id with
      | None => mret unavailable
      | Some journey =>
          if negb (contains id active) || bool_decide (resource = "SKILL.md") then mret unavailable
          else match resourceSkill journey with
          | None => mret unavailable
          | Some name =>
              match ReadSkill (NewSkillSource journey) name resource with
              | Err ErrSkillUnavailable => mret unavailable
              | Err ErrSkillChanged => throw HSkillChanged
              | Ok m =>
                  _ ← touch id;
                  _ ← update (add_skill (mk_Provenance (id +:+ "/" +:+ m.(mt_Resource)) m.(mt_FileDigest)));
                  mret (VText m.(mt_Body))
              end
          end
      end
  end.

(** ** Dispatching *)

(** [guardedCall] with the binding's [Call]; a 401 breaks the binding, but it
    also ends the run, so that no later call meets the broken binding.  Its
    transactions are the next four steps, two to an attempt. *)
Definition dispatch (op : Operation) (approval : string) : hprog (result guard_error guard_value) := λ h,
  let n := h.(hs_tick) in
  let before (attempt : Z) := (n + 2 * (Z.to_nat attempt - 1))%nat in
  let w := mk_world (λ attempt, moment_at (before attempt)) (λ attempt, moment_at (S (before attempt))) (x.(x_expired) n)
    (λ attempt, (Binding_Call (x.(x_remote) n attempt) cat false op.(o_Name) op.(o_Arguments)).1) in
  let '(s, calls, r) := guardedCall w owner op approval h.(hs_db) in
  (add_event (EvDispatch op approval h.(hs_active) calls) (set_tick (n + 4) (set_db s h)), Ok r).

Definition settle (id : string) (v : guard_value) : hprog unit :=
  match v with
  | GBusinessRejected =>
      n ← asks hs_repairs;
      if n =? 0 then throw HRepairs
      else
        _ ← update (set_repairs (n - 1));
        answer id (VError "business_rejected" "")
  | GNotPermitted => answer id (VError "not_permitted" "")
  | GResult r => answer id (VAnswer r)
  end.

(** ** Waiting *)

Definition checkpoint_text (repairs : Z) : string :=
  json_object [("mode", json_string "product_resume_in_place"); ("repairs", pretty repairs)].

Definition wait (i : Interaction) : hprog RunOutput :=
  repairs ← asks hs_repairs;
  history ← asks hs_history;
  serialized ← decoded (fw.(fw_marshal) history);
  _ ← journal (λ now, Wait now owner i (checkpoint_text repairs) serialized);
  mret (mk_RunOutput true serialized input.(in_TargetJourney) "").

(** The caller's handling of [journal.ErrPending]: steering arrived, the call is
    closed and the loop goes on. *)
Definition wait_or_steer (i : Interaction) (id : string) : hprog (option RunOutput) :=
  r ← try (wait i);
  match r with
  | Ok out => mret (Some out)
  | Err e =>
      if is_journal ErrPending e then
        _ ← answer id (VError "superseded_by_steering" "");
        mret None
      else throw e
  end.

(** ** One provider call *)

Definition digestValue (text : string) : string := hex (sha256 text).
Definition metadata_text (l : list Metadata) : string :=
  "[" +:+ join "," ((λ m, json_object [("ID", json_string m.(md_ID)); ("Description", json_string m.(md_Description))]) <$> l) +:+ "]".

(** The function names of the calls in a history, the last of an ID. *)
Definition call_names (l : list Message) : gmap string string :=
  foldl (λ m c, match c with FunctionCallContent id f => <[id := f.(fc_Name)]> m | _ => m end) ∅ (l ≫= m_Contents).
Definition tool_results (l : list Message) : list ToolResult :=
  omap (M := list) (λ c, match c with
    | FunctionResultContent id v => Some (mk_ToolResult id (default "" (call_names l !! id)) v)
    | _ => None end) (l ≫= m_Contents).

(** The request [modelRun] and the [before] hook of [buildAgent] make. *)
Definition model_request (st : hstate) (pending : list Input) (requestHistory : string) (kept : list Message)
    : ModelRequest :=
  let active := activeJourneys st.(hs_active) in
  let ids := j_ID <$> active in
  let instructions := composeInstructions definition.(set_conversationPrompt) available active in
  let included := (λ p, mk_Provenance p.(ip_CommunicationID) p.(ip_Digest)) <$> filter (λ p, p.(ip_Materialized) = true) pending in
  mk_ModelRequest requestHistory pending instructions (filter (λ t, t ≠ "") (fw.(fw_text) <$> kept)) kept
    (roundTools (Binding_Tools cat ids) (j_ID <$> available) active) (tool_results kept) definition.(set_digest) ids
    (mk_RequestProvenance (mk_Provenance "set" definition.(set_digest))
       (mk_Provenance "instructions" (digestValue (json_string instructions)))
       (mk_Provenance "journeys" (digestValue (metadata_text (journeyMetadata available))))
       (mk_Provenance input.(in_ThreadID) (digestValue requestHistory))
       ((λ j, mk_Provenance j.(j_ID) j.(j_Digest)) <$> active) included included st.(hs_skills)).

(** The update of a response; a call without an ID gets one. *)
Definition call_content (index : nat) (id : string) (c : ToolCall) : Content :=
  FunctionCallContent
    (if bool_decide (c.(tc_CallID) = "")
     then stableCallID input.(in_ThreadID) input.(in_RunID) +:+ "-" +:+ pretty index +:+ "-" +:+ id else c.(tc_CallID))
    (mk_FunctionCall c.(tc_Name) c.(tc_Arguments) false).
Fixpoint call_contents (index : nat) (l : list ToolCall) : hprog (list Content) :=
  match l with
  | [] => mret []
  | c :: l => id ← random; rest ← call_contents (S index) l; mret (call_content index id c :: rest)
  end.
Definition response_calls (r : ModelResponse) : list ToolCall :=
  r.(ms_ToolCalls) ++ match r.(ms_ToolCall) with Some c => [c] | None => [] end.

(** [model.Complete]: the model may commit the inclusion of the pending
    commands itself, through [OnDispatch]; otherwise its success does. *)
Definition complete (pending : list Input) (request : ModelRequest) : hprog ModelResponse :=
  _ ← update (add_event (EvRequest request));
  n ← asks hs_tick;
  let include : hprog unit := journal (λ now, Included now owner pending) in
  observed ← (if x.(x_dispatches) n request then r ← try include; mret (Some r) else mret None);
  let told := match observed with
    | Some (Err (HJournal e)) => Some (Err (SJournal e)) | Some (Err _) => Some (Err SDatabase)
    | Some (Ok _) => Some (Ok tt) | None => None end in
  match x.(x_complete) n request told with
  | Err e => throw (HModel e)
  | Ok response =>
      _ ← (match observed with Some (Ok _) => mret tt | _ => include end);
      mret response
  end.

Definition modelRun (pending : list Input) (requestHistory : string) (kept : list Message) : hprog (list Content) :=
  st ← asks (λ st, st);
  _ ← journal (λ now, Check now owner);
  stopped ← cancelled;
  _ ← unless (negb stopped) HCancelled;
  response ← complete pending (model_request st pending requestHistory kept);
  let u := response.(ms_Usage) in
  _ ← journal (λ now, RecordUsage now owner (mk_Usage u.(tk_Model) u.(tk_Input) u.(tk_Output) u.(tk_Cached) input.(in_AttributionJourney)));
  let calls := response_calls response in
  if bool_decide (calls = []) then mret [TextContent response.(ms_Text)] else call_contents 0 calls.

Definition user_message (p : Input) : Message := mk_Message "user" [TextContent p.(ip_Text)] "".

(** The part of [invoke] that may fail after the new messages were added. *)
Definition invoke_request (pending : list Input) (before : list Message) (protected : string → bool) : hprog (list Message) :=
  history ← asks hs_history;
  let '(kept, t) := trimHistory fw.(fw_marshal) history budget protected in
  let dropped := trim_dropped fw.(fw_marshal) history budget protected in
  requestHistory ← decoded (fw.(fw_marshal) (survivors (take (length before) dropped) before));
  _ ← (if 0 <? t.(TurnsDropped) then
         journal (λ now, HistoryTruncated now owner t.(TurnsDropped) t.(MessagesDropped) t.(EstimateBefore) t.(EstimateAfter) t.(Budget))
       else mret tt);
  update' ← modelRun pending requestHistory kept;
  mret (fw.(fw_collect) update').

Definition invoke (protected : string → bool) : hprog (list Message) :=
  pending ← journal (λ now, Pending now owner);
  before ← asks hs_history;
  _ ← update (add_messages (user_message <$> filter (λ p, p.(ip_Text) ≠ "") pending));
  r ← try (invoke_request pending before protected);
  match r with
  | Ok messages => _ ← update (add_messages messages); mret messages
  | Err e => _ ← update (set_history before); throw e
  end.

(** ** Continuing after an interaction *)

(** The approved interaction to carry out, and the provider call to protect
    from trimming. *)
Definition resume : hprog (option Interaction * option string) :=
  continuation ← journal (λ now, Continuation now owner);
  match continuation with
  | None => mret (None, None)
  | Some (i, checkpoint, history, reply, _) =>
      let protected := Some i.(i_Call).(pc_ProviderCallID) in
      if input.(in_Iteration) =? 0 then
        match fw.(fw_checkpoint) checkpoint with
        | Some (mode, repairs) =>
            _ ← unless (bool_decide (mode = "product_resume_in_place")) (HJournal ErrState);
            _ ← update (set_repairs repairs);
            let '(messages, ok) := fw.(fw_unmarshal) history in
            _ ← update (set_history messages);
            _ ← unless ok HJSON;
            if bool_decide (i.(i_Kind) = "approval") && bool_decide (reply.(r_Decision) = "approve") then
              mret (Some i, protected)
            else
              _ ← answer i.(i_Call).(pc_ProviderCallID)
                    (if bool_decide (i.(i_Kind) = "approval") then VError "approval_denied" "" else VReply reply);
              mret (None, protected)
        | None => throw (HJournal ErrState)
        end
      else mret (None, protected)
  end.

(** A new approval for the same action, bound to the current definitions. *)
Definition supersededWait (i : Interaction) (t : Tool) (call : Call) : hprog (option RunOutput) :=
  b ← bound (bindTool i.(i_JourneyID) t call.(fn_Arguments));
  callID ← nextCallID;
  id ← random;
  wait_or_steer (interaction b "approval" callID id call) call.(fn_CallID).

Definition approved_tool (i : Interaction) : option Tool :=
  if isAvailable i.(i_JourneyID) then Binding_Tool cat i.(i_JourneyID) i.(i_Call).(pc_Name) else None.

(** The approved call; [Some out] ends the run. *)
Definition approved_call (i : Interaction) : hprog (option RunOutput) :=
  let call := mk_Call i.(i_Call).(pc_ProviderCallID) i.(i_Call).(pc_Name) i.(i_Call).(pc_Arguments) in
  let supersede := journal (λ now, Supersede now owner i.(i_ID)) in
  match approved_tool i with
  | None =>
      _ ← supersede;
      _ ← answer call.(fn_CallID) (VError "approval_superseded" "the approved action is no longer available");
      mret None
  | Some t =>
      b ← bound (bindTool i.(i_JourneyID) t call.(fn_Arguments));
      if negb (bool_decide (b.(bc_binding) = i.(i_Call).(pc_Binding))) then
        _ ← supersede;
        supersededWait i t call
      else
        _ ← bump;
        _ ← touch i.(i_JourneyID);
        r ← dispatch (operation b i.(i_Call).(pc_CallID) call.(fn_Name) call.(fn_Arguments) t true) i.(i_ID);
        match r with
        | Ok v => _ ← settle call.(fn_CallID) v; mret None
        | Err e =>
            if is_journal ErrSuperseded (HGuard e) then supersededWait i t call else throw (HGuard e)
        end
  end.

Definition continue_approved (i : Interaction) : hprog (option RunOutput) :=
  out ← approved_call i;
  match out with
  | Some out => mret (Some out)
  | None => _ ← flush; mret None
  end.

(** ** One response *)

(** A call that needs a human: its siblings are closed, the interaction is
    made, the set is written and the run waits. *)
Definition deferred (siblings : list plannedCall) : list Message :=
  (λ s, resultMessage s.(pl_Call).(fn_CallID) (VError "deferred_for_human_input" "")) <$> siblings.
Definition ask_human (call : Call) (siblings : list plannedCall) (make : hprog Interaction) : hprog (option RunOutput) :=
  _ ← update (add_messages (deferred siblings));
  i ← make;
  _ ← flush;
  wait_or_steer i call.(fn_CallID).

Definition with_questions (i : Interaction) (kind : string) (q : list Question) : Interaction :=
  mk_Interaction i.(i_ID) kind q i.(i_Call) i.(i_ExpiresAt) i.(i_JourneyID) i.(i_OperationKey) i.(i_NameDigest) i.(i_SchemaDigest).

(** The calls of one response, in order; [Some out] ends the run, and asking a
    human ends the response. *)
Fixpoint run_plan (plan : list plannedCall) : hprog (option RunOutput) :=
  match plan with
  | [] => mret None
  | step :: plan =>
      let call := step.(pl_Call) in
      _ ← bump;
      match step.(pl_Kind) with
      | callNotExecuted =>
          _ ← answer call.(fn_CallID) (VError "not_executed" "not executed; call again after activation");
          run_plan plan
      | callActivate =>
          v ← activate call.(fn_Arguments);
          _ ← answer call.(fn_CallID) v;
          run_plan plan
      | callReadResource =>
          v ← readResource call.(fn_Arguments);
          _ ← answer call.(fn_CallID) v;
          run_plan plan
      | callInactive =>
          _ ← answer call.(fn_CallID) (VError "tool_not_active" "");
          run_plan plan
      | callAsk =>
          callID ← nextCallID;
          b ← bound (bindClarification call.(fn_Arguments));
          ask_human call plan
            (id ← random;
             questions ← decoded (fw.(fw_questions) call.(fn_Arguments));
             mret (with_questions (interaction b "approval" callID id call) "clarification" questions))
      | callAlias journey =>
          callID ← nextCallID;
          match Binding_Tool cat journey call.(fn_Name) with
          | None => throw HNotAllowed
          | Some t =>
              b ← bound (bindTool journey t call.(fn_Arguments));
              if t.(t_RequiresApproval) then
                ask_human call plan (id ← random; mret (interaction b "approval" callID id call))
              else
                _ ← touch journey;
                r ← dispatch (operation b callID call.(fn_Name) call.(fn_Arguments) t t.(t_RequiresApproval)) "";
                match r with
                | Ok v => _ ← settle call.(fn_CallID) v; run_plan plan
                | Err e => throw (HGuard e)
                end
          end
      end
  end.

(** ** The rounds *)

Definition calls_of (l : list Message) : list Call :=
  omap (M := list) (λ c, match c with
    | FunctionCallContent id f => if f.(fc_InformationalOnly) then None else Some (mk_Call id f.(fc_Name) f.(fc_Arguments))
    | _ => None end) (l ≫= m_Contents).

(** A run's output and the error next to it. *)
Definition outcome : Type := RunOutput * option herror.

Definition final_answer (text : string) : hprog outcome :=
  _ ← unless (negb (bool_decide (text = ""))) HNoAnswer;
  _ ← flush;
  history ← asks hs_history;
  let serialized := fw.(fw_marshal) history in
  mret (mk_RunOutput false (default "" serialized) input.(in_TargetJourney) text,
        match serialized with Some _ => None | None => Some HJSON end).

Definition one_round (protected : string → bool) : hprog (option outcome) :=
  r ← try (invoke protected);
  match r with
  | Err e => throw (HRequest e)
  | Ok messages =>
      match calls_of messages with
      | [] => o ← final_answer (fw.(fw_string) messages); mret (Some o)
      | calls =>
          active ← asks hs_active;
          out ← run_plan (planCalls calls (offersResources (activeJourneys active)) (owner_of active));
          match out with
          | Some out => mret (Some (out, None))
          | None => _ ← flush; mret None
          end
      end
  end.

Fixpoint rounds (n : nat) (protected : string → bool) : hprog outcome :=
  match n with
  | O => throw HRounds
  | S n =>
      o ← one_round protected;
      match o with Some o => mret o | None => rounds n protected end
  end.
Definition maxRounds : nat := 16.

Definition converse_loop : hprog outcome :=
  start ← resume;
  let '(approved, protected) := start in
  out ← match approved with Some i => continue_approved i | None => mret None end;
  match out with
  | Some out => mret (out, None)
  | None => rounds maxRounds (λ id, bool_decide (protected = Some id))
  end.

(** ** The whole run *)

(** The calls without a result, in the order of their first call. *)
Definition open_step (p : gset string * list string) (c : Content) : gset string * list string :=
  let '(opened, order) := p in
  match c with
  | FunctionCallContent id _ => ({[id]} ∪ opened, if decide (id ∈ opened) then order else order ++ [id])
  | FunctionResultContent id _ => (opened ∖ {[id]}, order)
  | _ => p
  end.
Definition open_calls (l : list Message) : gset string * list string := foldl open_step (∅, []) (l ≫= m_Contents).

Fixpoint close_calls (order : list string) (opened : gset string) : list Message :=
  match order with
  | [] => []
  | id :: order =>
      if decide (id ∈ opened) then resultMessage id (VError "run_stopped" "") :: close_calls order (opened ∖ {[id]})
      else close_calls order opened
  end.
Definition closed (l : list Message) : list Message :=
  let '(opened, order) := open_calls l in l ++ close_calls order opened.

(** The deferred function: a failed run closes the open calls of its history. *)
Definition settle_history (h : hstate) (o : outcome) : hstate * outcome :=
  match o.2 with
  | None => (h, o)
  | Some e =>
      if bool_decide (h.(hs_history) = []) then (h, o)
      else
        let h := set_history (closed h.(hs_history)) h in
        (h, (mk_RunOutput o.1.(out_Waiting) (default "" (fw.(fw_marshal) h.(hs_history))) o.1.(out_JourneyID)
               o.1.(out_Answer), Some e))
  end.

(** The deferred function is installed once the history of the input is
    decoded. *)
Definition runHarness (active : list string) (tick : nat) (s : db) : hstate * outcome :=
  let '(history, ok) := fw.(fw_unmarshal) input.(in_History) in
  let start := mk_hstate s tick active active history 1 0 [] [] in
  if ok then
    match converse_loop start with
    | (h, Ok o) => settle_history h o
    | (h, Err e) => settle_history h (zero_output, Some e)
    end
  else (start, (zero_output, Some HJSON)).
End harness.
