(* ===== verification/HarnessSpec.v ===== *)
(** * What the conversation loop guarantees

    Theorems about [Harness.v]: the loop acts on the database only through
    transactions of the journal; a run leaves no call without a result but the
    one it waits for; only offered tools are dispatched; the number of provider
    requests is bounded; the active set in the journal is the one in use. *)
From S2P Require Import Prelude GoText.
From S2P Require Import Db CallBinding Interactions JournalCore Commands Owners Runs Operations DefinitionStore Records.
From S2P Require Import Lifecycle Keeps JournalSim Journal JournalKeeps Service.
From S2P Require Import Selectors Journey History Resolve Binding Guard Dispatch Harness.
From S2P Require ActiveSet.

#[local] Set Default Proof Using "Type".

(** ** The database *)

(** Two states, related by their databases. *)
Definition db_rel (R : relation db) : relation hstate := λ h h', R h.(hs_db) h'.(hs_db).
#[export] Instance db_rel_preorder R : PreOrder R → PreOrder (db_rel R).
Proof. intros HR. split; [by intros h; unfold db_rel|]. intros h1 h2 h3. unfold db_rel. apply transitivity. Qed.

(** The same, with the active set last written as it was. *)
Definition calm (R : relation db) : relation hstate := λ h h', R h.(hs_db) h'.(hs_db) ∧ h'.(hs_persisted) = h.(hs_persisted).
#[export] Instance calm_preorder R : PreOrder R → PreOrder (calm R).
Proof.
  intros HR. split; [by intros h; split|]. intros h1 h2 h3 [H1 E1] [H2 E2]. split; [by etransitivity|congruence].
Qed.
Lemma calm_db R {A} (m : hprog A) : always (calm R) m → always (db_rel R) m.
Proof. intros H h. by destruct (H h). Qed.

(** The transactions of the loop. *)
Class LoopCalls `{Codec} (R : relation db) : Prop := {
  lc_preorder :: PreOrder R;
  lc_Pending now o : keeps R (Pending now o);
  lc_Included now o l : keeps R (Included now o l);
  lc_Check now o : keeps R (Check now o);
  lc_RecordUsage now o u : keeps R (RecordUsage now o u);
  lc_HistoryTruncated now o a b c d e : keeps R (HistoryTruncated now o a b c d e);
  lc_Continuation now o : keeps R (Continuation now o);
  lc_Supersede now o id : keeps R (Supersede now o id);
  lc_Wait now o i ck hist : keeps R (Wait now o i ck hist);
  lc_BeginAttempt now o c n a : keeps R (BeginAttempt now o c n a);
  lc_EndAttempt now o c n out : keeps R (EndAttempt now o c n out);
  lc_ActiveJourneys now o : keeps R (ActiveJourneys now o);
}.

(** One call of the database at a moment: others act, then it commits or not. *)
Lemma at_moment_always {E A} (R : relation db) `{!PreOrder R} (wrap : store_error → E) m (t : Z → tx A) :
  (∀ s, R s (m.(m_others) s)) → (∀ now, keeps R (t now)) → always R (at_moment wrap m t).
Proof.
  intros Ho Ht s. unfold at_moment. destruct (transact m t s) as [s' r] eqn:T. simpl.
  apply transact_committed in T as [->|[a T]]; [done|]. etransitivity; [apply Ho|by eapply Ht].
Qed.

Section guard.
Context `{codec : Codec} (R : relation db) `{HR : !LoopCalls R} (w : world) (owner : Owner) (op : Operation) (approval : string).
Context (before : ∀ n s, R s ((w.(w_begin) n).(m_others) s)) (during : ∀ n s, R s ((w.(w_end) n).(m_others) s)).

Lemma begin_attempt_always n : always R (begin_attempt w owner op approval n).
Proof using HR before.
  unfold begin_attempt. always_walk. apply at_moment_always; [apply _|apply before|intros now; apply lc_BeginAttempt].
Qed.
Lemma end_attempt_always n out : always R (end_attempt w owner op n out).
Proof using HR during. apply at_moment_always; [apply _|apply during|intros now; apply lc_EndAttempt]. Qed.

Lemma attempt_loop_always fuel n s : R s (attempt_loop w owner op approval fuel n s).1.1.
Proof using HR before during.
  revert n s. induction fuel as [|fuel IH]; intros n s; simpl; [reflexivity|].
  pose proof (begin_attempt_always n s) as H1. destruct (begin_attempt _ _ _ _ n s) as [s1 [u|e]]; [|done]. simpl in H1.
  pose proof (end_attempt_always n (outcome_name (w_reply w n)) s1) as H2.
  destruct (end_attempt _ _ _ n _ s1) as [s2 [u2|e]]; simpl in H2; [|by etransitivity].
  assert (R s s2) as Hs by (by etransitivity).
  destruct (w_reply w n) as [v|[]]; simpl; try done; case_match; try done; case_match; try done;
    specialize (IH (n + 1) s2); destruct (attempt_loop _ _ _ _ fuel _ s2) as [[s3 rest] r]; by etransitivity.
Qed.

Lemma guardedCall_always s : R s (guardedCall w owner op approval s).1.1.
Proof using HR before during. apply attempt_loop_always. Qed.
End guard.

#[export] Instance steps_preorder `{Codec} : PreOrder steps.
Proof. unfold steps. apply _. Qed.

Lemma exec_step `{Codec} {A} now x (t : tx A) s a s' : t s = Ok (a, s') → exec now x s = committed t s → steps s s'.
Proof. intros Ht E. apply rtc_once. exists now, x. rewrite E. unfold committed. by rewrite Ht. Qed.

(** A relation across the transactions that write no active set is one across
    those of the loop. *)
Lemma loop_calls_exec `{Codec} (R : relation db) `{!PreOrder R} :
  (∀ now x s s', (∀ o a, x ≠ OpSetActiveJourneys o a) → exec now x s = Some s' → R s s') → LoopCalls R.
Proof.
  intros HR. split; [apply _|..]; intros; intros s r s' Ht.
  - apply (HR now (OpPending o)); [done|]. simpl. unfold committed. by rewrite Ht.
  - apply (HR now (OpIncluded o l)); [done|]. simpl. unfold committed. by rewrite Ht.
  - apply (HR now (OpCheck o)); [done|]. simpl. unfold committed. by rewrite Ht.
  - apply (HR now (OpRecordUsage o u)); [done|]. simpl. unfold committed. by rewrite Ht.
  - apply (HR now (OpHistoryTruncated o a b c d e)); [done|]. simpl. unfold committed. by rewrite Ht.
  - assert (s' = s) as ->; [|reflexivity].
    unfold Continuation in Ht. cbv zeta in Ht. case_match; [by injection Ht|].
    tx_step Ht u s1 Hl. apply lockOwner_ok in Hl as [-> _]. tx_get Ht row. tx_the Ht i Hi. tx_the Ht rep Hrep. by injection Ht.
  - apply (HR now (OpSupersede o id)); [done|]. simpl. unfold committed. by rewrite Ht.
  - apply (HR now (OpWait o i ck hist)); [done|]. simpl. unfold committed. by rewrite Ht.
  - apply (HR now (OpBeginAttempt o c n a)); [done|]. simpl. unfold committed. by rewrite Ht.
  - apply (HR now (OpEndAttempt o c n out)); [done|]. simpl. unfold committed. by rewrite Ht.
  - assert (s' = s) as ->; [|reflexivity]. unfold ActiveJourneys in Ht. cbv zeta in Ht.
    tx_step Ht u s1 Hl. apply lockOwner_ok in Hl as [-> _]. tx_get Ht row. tx_the Ht c Hc. tx_get Ht p. by injection Ht.
Qed.

#[export] Instance steps_loop `{Codec} : LoopCalls steps.
Proof. apply loop_calls_exec; [apply _|]. intros now x s s' _ Hx. apply rtc_once. by exists now, x. Qed.

Section database.
Context `{codec : Codec} `{conversation : Conversation} (R : relation db) `{HR : !LoopCalls R}.
Context (others : ∀ n s, R s (the_outside.(x_others) n s)).

Lemma journal_always {A} (t : Z → tx A) : (∀ now, keeps R (t now)) → always (calm R) (journal t).
Proof using HR others.
  intros Ht h. unfold journal, calm. pose proof (at_moment_always R loop_store_error (moment_at (hs_tick h)) t (others _) Ht (hs_db h)) as H.
  by destruct (at_moment _ _ _ _).
Qed.
Lemma random_always : always (calm R) random.
Proof using HR. intros h. by split; simpl. Qed.
Lemma cancelled_always : always (calm R) cancelled.
Proof using HR. intros h. by split; simpl. Qed.
Lemma update_always f : (∀ h, hs_db (f h) = hs_db h ∧ hs_persisted (f h) = hs_persisted h) → always (S := hstate) (E := herror) (calm R) (update f).
Proof using HR. intros Hf. apply always_update. intros h. destruct (Hf h) as [E1 E2]. split; [by rewrite E1|done]. Qed.
Lemma dispatch_always op approval : always (calm R) (dispatch op approval).
Proof using HR others.
  intros h. unfold dispatch, calm. cbv zeta.
  match goal with |- context [guardedCall ?w ?o ?op ?a ?s] =>
    pose proof (guardedCall_always R w o op a (λ n, others _) (λ n, others _) s) as Hg;
    destruct (guardedCall w o op a s) as [[s' calls] r] end.
  by split.
Qed.

Lemma update_db f : (∀ h, hs_db (f h) = hs_db h) → always (S := hstate) (E := herror) (db_rel R) (update f).
Proof using HR. intros Hf h. unfold db_rel. simpl. by rewrite Hf. Qed.

Ltac db_walk :=
  repeat first
    [ progress always_walk
    | progress unfold decoded, bound, answer, bump, touch
    | apply update_always; intros; split; reflexivity
    | apply random_always | apply cancelled_always | apply dispatch_always
    | apply journal_always; intros;
      first [apply lc_Pending|apply lc_Included|apply lc_Check|apply lc_RecordUsage|apply lc_HistoryTruncated
            |apply lc_Continuation|apply lc_Supersede|apply lc_Wait] ].

Lemma call_contents_always n l : always (calm R) (call_contents n l).
Proof using HR. revert n. induction l as [|c l IH]; intros n; simpl; db_walk; apply IH. Qed.
Lemma complete_always p r : always (calm R) (complete p r).
Proof using HR others. unfold complete. cbv zeta. db_walk. Qed.
Lemma modelRun_always p r k : always (calm R) (modelRun p r k).
Proof using HR others. unfold modelRun. cbv zeta. db_walk; [apply complete_always|apply call_contents_always]. Qed.
Lemma invoke_always p : always (calm R) (invoke p).
Proof using HR others. unfold invoke, invoke_request. db_walk; apply modelRun_always. Qed.
Lemma resume_always : always (calm R) resume.
Proof using HR others. unfold resume. cbv zeta. db_walk. Qed.
Lemma wait_or_steer_always i id : always (calm R) (wait_or_steer i id).
Proof using HR others. unfold wait_or_steer, wait. db_walk. Qed.
Lemma settle_always id v : always (calm R) (settle id v).
Proof using HR. unfold settle. db_walk. Qed.
Lemma supersededWait_always i t c : always (calm R) (supersededWait i t c).
Proof using HR others. unfold supersededWait, nextCallID. db_walk; apply wait_or_steer_always. Qed.
Lemma approved_call_always i : always (calm R) (approved_call i).
Proof using HR others.
  unfold approved_call. cbv zeta. db_walk; first [apply supersededWait_always|apply settle_always].
Qed.
Lemma readResource_always a : always (calm R) (readResource a).
Proof using HR. unfold readResource. cbv zeta. db_walk. Qed.

(** The two programs that write the active set, as far as the database goes. *)
Section writes.
Context (HS : ∀ now o a, keeps R (SetActiveJourneys now o a)).

Ltac write_walk :=
  repeat first
    [ progress always_walk
    | apply update_db; intros; reflexivity
    | apply calm_db, journal_always; intros; first [apply HS|apply lc_ActiveJourneys] ].

Lemma flush_db : always (db_rel R) flush.
Proof using HR others HS. unfold flush. write_walk. Qed.
Lemma activate_db a : always (db_rel R) (activate a).
Proof using HR others HS. unfold activate. cbv zeta. write_walk. Qed.
End writes.

(** A relation that everything else keeps is kept by the loop when these two
    keep it; [RE] is what is to hold when the loop ends with an error. *)
Section whole.
Context (RR RE : relation hstate) `{HEnd : !Endings RR RE} (Hcalm : ∀ h h', calm R h h' → RR h h').
Context (Hflush : ends RR RE flush) (Hactivate : ∀ a, ends RR RE (activate a)).

Lemma calm_kept {A} (m : hprog A) : always (calm R) m → ends RR RE m.
Proof using Hcalm HEnd. intros Hm. apply ends_always; [done|]. intros h. apply Hcalm, Hm. Qed.

Ltac whole_walk :=
  repeat first
    [ progress ends_walk
    | apply Hflush | apply Hactivate
    | apply calm_kept;
      first [ apply update_always; intros; split; reflexivity
            | apply random_always | apply dispatch_always
            | apply settle_always | apply approved_call_always | apply readResource_always | apply wait_or_steer_always
            | apply always_try, invoke_always | apply resume_always ] ].

Lemma ask_human_kept c l m : ends RR RE m → ends RR RE (ask_human c l m).
Proof using HR others Hcalm Hflush HEnd. intros Hm. unfold ask_human. whole_walk. done. Qed.
Lemma run_plan_kept plan : ends RR RE (run_plan plan).
Proof using HR others Hcalm Hflush Hactivate HEnd.
  induction plan as [|[c k] plan IH]; simpl; [whole_walk|]. unfold nextCallID, decoded, bound, answer, bump, touch.
  whole_walk; try done; apply ask_human_kept; whole_walk.
Qed.
Lemma one_round_kept p : ends RR RE (one_round p).
Proof using HR others Hcalm Hflush Hactivate HEnd.
  unfold one_round, final_answer. cbv zeta. whole_walk. apply run_plan_kept.
Qed.
Lemma rounds_kept n p : ends RR RE (rounds n p).
Proof using HR others Hcalm Hflush Hactivate HEnd. induction n as [|n IH]; simpl; whole_walk; [apply one_round_kept|done]. Qed.
Lemma converse_loop_kept : ends RR RE converse_loop.
Proof using HR others Hcalm Hflush Hactivate HEnd.
  unfold converse_loop, continue_approved. whole_walk. apply rounds_kept.
Qed.
End whole.
End database.

Lemma runHarness_journal_steps `{Codec} `{Conversation} (active : list string) (tick : nat) (s : db) :
  (∀ n s, steps s (the_outside.(x_others) n s)) → steps s (runHarness active tick s).1.(hs_db).
Proof.
  intros Ho. unfold runHarness. destruct (fw_unmarshal _ _) as [history ok].
  assert (∀ h o, hs_db (settle_history h o).1 = hs_db h) as Hs.
  { intros h [o e]. unfold settle_history. simpl. by repeat case_match. }
  destruct ok; [|apply rtc_refl].
  assert (∀ now o a, keeps steps (SetActiveJourneys now o a)) as HS
    by (intros now o a s1 r s2 Ht; by eapply (exec_step now (OpSetActiveJourneys o a))).
  pose proof (converse_loop_kept steps Ho (db_rel steps) (db_rel steps) (λ h h', @proj1 _ _)
    (ends_always _ _ _ (flush_db steps Ho HS)) (λ a, ends_always _ _ _ (activate_db steps Ho HS a))) as HL.
  specialize (HL (mk_hstate s tick active active history 1 0 [] [])). unfold db_rel in HL.
  destruct (converse_loop _) as [h [o|e]]; rewrite Hs; exact HL.
Qed.

(** Whatever the model, the tools and other processes do, the loop changes
    the database by steps of the journal only. *)
Theorem runHarness_steps `{Codec} `{Conversation} (active : list string) (tick : nat) (s : db) :
  (∀ n s, steps s (the_outside.(x_others) n s)) → steps s (runHarness active tick s).1.(hs_db).
Proof. apply runHarness_journal_steps. Qed.

(** ** The active set *)

Definition journaled_active (t : string) (s : db) : option (list string) := cv_active <$> s.(convs) !! t.

(** The set of a conversation stays as it is. *)
Definition active_stays (t : string) : relation db := λ s s', ∀ a, journaled_active t s = Some a → journaled_active t s' = Some a.
#[export] Instance active_stays_preorder t : PreOrder (active_stays t).
Proof. split; [by intros s a|]. intros s1 s2 s3 H1 H2 a H. by apply H2, H1. Qed.

Section stays.
Context `{codec : Codec} (t : string).

Lemma stays_free s s' : s'.(convs) = s.(convs) → active_stays t s s'.
Proof. unfold active_stays, journaled_active. by intros ->. Qed.

Lemma stays_update_conv u f : (u = t → ∀ c, cv_active (f c) = cv_active c) → keeps (active_stays t) (update_conv u f).
Proof.
  intros Hf. apply keeps_update_conv; [apply _|]. intros s c Hc a. unfold journaled_active. simpl.
  destruct (decide (u = t)) as [->|Hne]; [rewrite lookup_insert_eq, Hc; simpl; by rewrite Hf|by rewrite lookup_insert_ne].
Qed.

Lemma stays_insert_conv u p : keeps (active_stays t) (insert_conv u p).
Proof.
  intros s x s' Hm. unfold insert_conv in Hm. injection Hm as _ <-. intros a. unfold journaled_active. simpl.
  destruct (convs s !! u) eqn:E; [done|]. destruct (decide (u = t)) as [->|Hne]; [by rewrite E|by rewrite lookup_insert_ne].
Qed.

Ltac stays :=
  repeat first
    [ progress keeps_walk
    | (apply keeps_lockOwner; apply _) | (apply keeps_lockConversation; apply _)
    | (apply keeps_lockForClaim; apply _) | (apply keeps_run_scope; apply _)
    | (apply keeps_BeginFunc; [apply _|]) | apply keeps_unique_is_conflict | apply stays_insert_conv
    | (apply stays_update_conv; intros; reflexivity)
    | (apply keeps_update_run; [apply _|intros; by apply stays_free])
    | (apply keeps_put_run; intros; by apply stays_free)
    | (apply keeps_modify; intros; by apply stays_free)
    | (apply keeps_update_interaction; [apply _|intros; by apply stays_free])
    | progress unfold appendEvent, update_history, update_commands, insert_command, insert_run, insert_snapshot,
        insert_interaction, put_interaction, insert_operation, insert_attempt, as_jsonb ].

Lemma stays_event u e : keeps (active_stays t) (appendEvent u e).
Proof. stays. Qed.
Lemma stays_expire now u : keeps (active_stays t) (expireInteractions now u).
Proof. unfold expireInteractions, expireRun. stays. Qed.
Lemma stays_unknown u run : keeps (active_stays t) (markOperationsUnknown u run).
Proof. unfold markOperationsUnknown. stays. Qed.
Lemma stays_dispose u run st : keeps (active_stays t) (disposePending u run st).
Proof. unfold disposePending. cbv zeta. stays. Qed.

Ltac stays2 := repeat first [apply stays_event|apply stays_expire|apply stays_unknown|apply stays_dispose|progress stays].

Lemma stays_interrupt now u c : keeps (active_stays t) (interruptExpired now u c).
Proof. unfold interruptExpired. stays2. Qed.
Lemma stays_finish now o st h a c tl e : keeps (active_stays t) (finish now o st h a c tl e).
Proof. unfold finish. cbv zeta. stays2. Qed.
Lemma stays_Admit now c : keeps (active_stays t) (Admit now c).
Proof.
  unfold Admit, reply, replyNew, consumeReply, replay, admitNew. cbv zeta. repeat first [apply stays_interrupt|progress stays2].
Qed.

(** Only [SetActiveJourneys] writes the set. *)
Lemma exec_active now x s s' : (∀ o a, x = OpSetActiveJourneys o a → o.(ow_Command).(c_ThreadID) ≠ t) →
  exec now x s = Some s' → active_stays t s s'.
Proof.
  intros Hw Hx. destruct x; simpl in Hx; apply committed_ok in Hx as [a Hx]; revert s a s' Hx;
    match goal with |- ∀ s a s', ?m s = Ok (a, s') → _ => change (keeps (active_stays t) m) end;
    first
    [ apply stays_Admit
    | (unfold SetActiveJourneys; stays; apply stays_update_conv; intros Eu; by destruct (Hw _ _ eq_refl))
    | (unfold Claim, Check, Renew, reapOne, Pending, Included, includeOne, Start, pinConversation, Finish, FinishFailed,
         FinishLimitExceeded, Wait, Supersede, supersede, HistoryTruncated, BeginAttempt, firstAttempt, takeApproval, supersede,
         retryAttempt, EndAttempt, ResolveDefinition, DefinitionStore.activate, markActivated, PutDefinitionSet, RecordRunScope, RecordServerInfo,
         CommitSnapshot, RecordRunCatalog, RecordUsage; cbv zeta;
       repeat first [apply stays_interrupt|apply stays_finish|progress stays2]) ].
Qed.
End stays.

(** ** The run that holds its conversation *)

(** The owner's run is running, under the owner's epoch. *)
Definition held (o : Owner) (s : db) : Prop :=
  ∃ r, s.(runs) !! o.(ow_Command).(c_RunID) = Some r ∧ r.(rn_thread) = o.(ow_Command).(c_ThreadID) ∧
       r.(rn_state) = RunRunning ∧ r.(rn_epoch) = o.(ow_Epoch).

(** A write of the active set in the name of this claim of the run. *)
Definition own_write (o : Owner) (x : op) : Prop :=
  ∃ o' a, x = OpSetActiveJourneys o' a ∧ o'.(ow_Command).(c_RunID) = o.(ow_Command).(c_RunID) ∧ o'.(ow_Epoch) = o.(ow_Epoch).
(** What other processes do: any transactions but those. *)
Definition foreign_step `{Codec} (o : Owner) (s s' : db) : Prop := ∃ now x, exec now x s = Some s' ∧ ¬ own_write o x.

(** As long as the run is held, its conversation's set is as it was; once it is
    not, it never is again. *)
Definition tracks `{Codec} (o : Owner) : relation db := λ s s',
  reachable s → held o s ∨ fenced o s →
  reachable s' ∧ (held o s' ∨ fenced o s') ∧
  (held o s' → held o s ∧ active_stays o.(ow_Command).(c_ThreadID) s s').

Section held.
Context `{codec : Codec} (o : Owner).
Abbreviation thread := (o.(ow_Command).(c_ThreadID)).

#[export] Instance tracks_preorder : PreOrder (tracks o).
Proof.
  split; [intros s Hr Hf; by split_and!|]. intros s1 s2 s3 H12 H23 Hr Hf.
  destruct (H12 Hr Hf) as (Hr2 & Hf2 & Hh2). destruct (H23 Hr2 Hf2) as (Hr3 & Hf3 & Hh3). split_and!; [done..|].
  intros Hh. destruct (Hh3 Hh) as [H2 A2]. destruct (Hh2 H2) as [H1 A1]. split; [done|]. by etransitivity.
Qed.

Lemma owned_held now s u s' : lockOwner now o s = Ok (u, s') → held o s.
Proof. intros [_ (r & [R1 R2 R3 _ R5 _ _])]%lockOwner_ok. by exists r. Qed.

(** Held or fenced, the run stays one of them, and fenced it stays fenced. *)
Lemma held_steps s s' : reachable s → held o s ∨ fenced o s → steps s s' →
  (held o s' ∨ fenced o s') ∧ (held o s' → held o s).
Proof.
  intros Hr Hf Hs.
  assert (∃ r, s.(runs) !! o.(ow_Command).(c_RunID) = Some r ∧ r.(rn_state) ≠ RunPending ∧
    ((held o s ∧ r.(rn_thread) = thread ∧ r.(rn_epoch) = o.(ow_Epoch)) ∨ r.(rn_state) ≠ RunRunning ∨ r.(rn_epoch) ≠ o.(ow_Epoch)))
    as (r & Hl & Hp & Hcase).
  { destruct Hf as [(r & R1 & R2 & R3 & R4)|(r & R1 & R2 & R3)]; exists r; split_and!; try done; [by rewrite R3| |by right].
    left. split; [by exists r|done]. }
  destruct (steps_run s s' _ r Hr Hs Hl) as (r' & Hl' & Ht & Hm & He). specialize (He Hp).
  pose proof (not_pending_move _ _ Hm Hp) as Hp'. destruct Hcase as [(Hh & Ht' & He')|Hcase].
  - split; [|done]. destruct (decide (r'.(rn_state) = RunRunning)) as [Hrun|Hrun].
    + left. exists r'. split_and!; [done|congruence..].
    + right. exists r'. split_and!; [done..|by left].
  - assert (r'.(rn_state) ≠ RunRunning ∨ r'.(rn_epoch) ≠ o.(ow_Epoch)) as Hn
      by (destruct Hcase as [Hc|Hc]; [left; by eapply not_running_again|right; congruence]).
    split; [right; by exists r'|]. intros (r2 & Hl2 & _ & Hs2 & He2). rewrite Hl' in Hl2. injection Hl2 as <-. by destruct Hn.
Qed.

(** One owner of a conversation: who may write while the run is held is the
    run, under its epoch. *)
Lemma held_exclusive now o' s u s' : reachable s → held o s → lockOwner now o' s = Ok (u, s') →
  o'.(ow_Command).(c_ThreadID) = thread →
  o'.(ow_Command).(c_RunID) = o.(ow_Command).(c_RunID) ∧ o'.(ow_Epoch) = o.(ow_Epoch).
Proof.
  intros Hr (r & R1 & R2 & R3 & R4) Hl Ht. apply lockOwner_ok in Hl as [_ (r' & O)].
  destruct (proj1 (reachable_linv s Hr) thread) as [p Hp].
  assert (is_live r.(rn_state) = true) as Hlive by (by rewrite R3).
  pose proof (phase_live Hp _ _ (core_run _ _ _ R1) R2 Hlive) as E1.
  pose proof (owned_run _ _ _ _ O) as Hr'. rewrite Ht in Hr'.
  pose proof (phase_live Hp _ _ Hr' eq_refl eq_refl) as E2. rewrite E1 in E2. injection E2 as E.
  split; [done|]. destruct O as [O1 _ _ _ O5 _ _]. rewrite <- E in O1. congruence.
Qed.

Lemma exec_tracks now x s s' : ¬ own_write o x → exec now x s = Some s' → tracks o s s'.
Proof.
  intros Hx He Hr Hf. assert (steps s s') as Hs by (apply rtc_once; by exists now, x).
  destruct (held_steps s s' Hr Hf Hs) as [Hf' Hh']. split_and!; [by eapply reachable_steps|done|].
  intros Hh. pose proof (Hh' Hh) as Hh0. split; [done|]. apply (exec_active thread now x); [|done].
  intros o' a -> Ht. apply Hx. exists o', a. split; [done|].
  simpl in He. apply committed_ok in He as [u He]. unfold SetActiveJourneys in He. tx_guard He Hg. tx_step He u1 s1 Hl.
  by eapply held_exclusive.
Qed.

#[export] Instance tracks_loop : LoopCalls (tracks o).
Proof. apply loop_calls_exec; [apply _|]. intros now x s s' Hx He. apply (exec_tracks now x); [|done]. intros (o' & a & -> & _). by eapply Hx. Qed.

Lemma foreign_tracks s s' : rtc (foreign_step o) s s' → tracks o s s'.
Proof. induction 1 as [|s1 s2 s3 (now & x & He & Hx) _ IH]; [reflexivity|]. etransitivity; [by eapply exec_tracks|done]. Qed.
End held.

Section active.
Context `{codec : Codec} `{conversation : Conversation}.
Abbreviation owner := (the_input.(in_Owner)).
Abbreviation thread := (owner.(ow_Command).(c_ThreadID)).
Context (others : ∀ n s, rtc (foreign_step owner) s (the_outside.(x_others) n s)).

(** The journal has the set last written, if the run is still held. *)
Definition written (h : hstate) : Prop := journaled_active thread h.(hs_db) = Some h.(hs_persisted).
Definition mirrored (h : hstate) : Prop :=
  reachable h.(hs_db) ∧ (held owner h.(hs_db) ∨ fenced owner h.(hs_db)) ∧ (held owner h.(hs_db) → written h).
Definition mirror_rel (h h' : hstate) : Prop := mirrored h → mirrored h'.
#[local] Instance mirror_rel_preorder : PreOrder mirror_rel.
Proof. unfold mirror_rel. split; [by intros h|]. intros h1 h2 h3. tauto. Qed.

Lemma others_track n s : tracks owner s (the_outside.(x_others) n s).
Proof using others. apply foreign_tracks, others. Qed.

Lemma calm_mirror h h' : calm (tracks owner) h h' → mirror_rel h h'.
Proof.
  intros [Hs Hp] (Hr & Hf & Hw). destruct (Hs Hr Hf) as (Hr' & Hf' & Hh). split_and!; [done..|].
  intros H. destruct (Hh H) as [H0 Ha]. unfold written. rewrite Hp. by apply Ha, Hw.
Qed.

Lemma calm_returns {A} (m : hprog A) : always (calm (tracks owner)) m → ends mirror_rel whatever m.
Proof. intros Hm. apply ends_always; [apply _|]. intros h. by apply calm_mirror. Qed.

(** A transaction of the run that committed: the state it committed in. *)
Lemma journal_ok {A} (t : Z → tx A) h h' a : journal t h = (h', Ok a) →
  ∃ s, s = the_outside.(x_others) h.(hs_tick) h.(hs_db) ∧ t (the_outside.(x_now) h.(hs_tick)) s = Ok (a, h'.(hs_db)) ∧
    hs_persisted h' = hs_persisted h ∧ hs_active h' = hs_active h.
Proof.
  unfold journal, at_moment. destruct (transact _ _ _) as [s' [b|e]] eqn:T; intros [= <- H]. subst b.
  apply transact_ok in T. by eexists.
Qed.

Lemma mirrored_others h : mirrored h → let s := the_outside.(x_others) h.(hs_tick) h.(hs_db) in
  reachable s ∧ (held owner s ∨ fenced owner s) ∧ (held owner s → journaled_active thread s = Some h.(hs_persisted)).
Proof using others.
  intros (Hr & Hf & Hw). destruct (others_track h.(hs_tick) h.(hs_db) Hr Hf) as (Hr' & Hf' & Hh). split_and!; [done..|].
  intros H. destruct (Hh H) as [H0 Ha]. by apply Ha, Hw.
Qed.

Lemma SetActiveJourneys_ok now o a s u s' : SetActiveJourneys now o a s = Ok (u, s') →
  journaled_active o.(ow_Command).(c_ThreadID) s' = Some a.
Proof.
  unfold SetActiveJourneys. intros H. tx_guard H Hg. tx_step H u1 s1 Hl.
  apply lockOwner_ok in Hl as [-> (r & [_ _ _ _ _ _ (c & Hc & _)])]. eapply update_conv_ok in H; [|exact Hc]; subst.
  unfold journaled_active. simpl. by rewrite lookup_insert_eq.
Qed.

Lemma write_set a h h' u : mirrored h → journal (λ now, SetActiveJourneys now owner a) h = (h', Ok u) →
  hs_active h' = hs_active h ∧ journaled_active thread h'.(hs_db) = Some a ∧
  reachable h'.(hs_db) ∧ (held owner h'.(hs_db) ∨ fenced owner h'.(hs_db)).
Proof using others.
  intros Hm (s & -> & Ht & _ & Ha)%journal_ok. destruct (mirrored_others h Hm) as (Hr & Hf & _).
  assert (steps (the_outside.(x_others) h.(hs_tick) h.(hs_db)) h'.(hs_db)) as Hs
    by (eapply (exec_step _ (OpSetActiveJourneys owner a)); [exact Ht|done]).
  split_and!; [done|by apply SetActiveJourneys_ok in Ht|by eapply reachable_steps|by eapply held_steps].
Qed.

Lemma flush_written h h' u : mirrored h → flush h = (h', Ok u) →
  mirrored h' ∧ h'.(hs_active) = h'.(hs_persisted) ∧ (held owner h.(hs_db) → written h').
Proof using others.
  intros Hm H. unfold flush in H. rewrite !asks_bind in H. case_bool_decide as E.
  - injection H as <- _. split_and!; [done..|by apply Hm].
  - apply svc_bind_ok in H as (u1 & h1 & Hj & H). injection H as <- _. destruct (write_set _ _ _ _ Hm Hj) as (Ha & Hw & Hr & Hf).
    by split_and!.
Qed.

Lemma flush_mirror : ends mirror_rel whatever flush.
Proof using others.
  intros h. destruct (flush h) as [h' [u|e]] eqn:F; [|done]. intros Hm. by destruct (flush_written h h' u Hm F).
Qed.

Lemma activate_mirror args : ends mirror_rel whatever (activate args).
Proof using others.
  unfold activate. cbv zeta. destruct (fw_activate _ _) as [j|]; [|ends_walk].
  case_match; [ends_walk|]. case_match; [ends_walk|].
  intros h. match goal with |- match ?p with _ => _ end => destruct p as [h' [v|e]] eqn:Hrun; [|done] end.
  intros Hm. apply svc_bind_ok in Hrun as ([persisted pinned] & h1 & Hj & Hrun).
  assert (mirrored h1 ∧ (held owner h1.(hs_db) → journaled_active thread h1.(hs_db) = Some persisted)) as [Hm1 Hp].
  { pose proof (calm_mirror _ _ (journal_always (tracks owner) others_track _ (λ now, lc_ActiveJourneys now owner) h) Hm) as Hm1.
    rewrite Hj in Hm1. split; [done|]. intros _. apply journal_ok in Hj as (s & _ & Ht & _ & _).
    unfold ActiveJourneys in Ht. cbv zeta in Ht. tx_step Ht u s1 Hl. apply lockOwner_ok in Hl as [-> _].
    tx_get Ht row. tx_the Ht c Hc. tx_get Ht p. injection Ht as <- _ <-. unfold journaled_active. by rewrite Hc. }
  cbv beta zeta iota in Hrun. destruct (ActiveSet.Activate _ _ _ _) as [next [ev|[]]]; [|done|by injection Hrun as <- _].
  apply svc_bind_ok in Hrun as (u & h2 & Hw & Hrun). apply svc_bind_ok in Hrun as (u2 & h3 & Hu & Hrun). injection Hrun as <- _. injection Hu as <- _.
  destruct (bool_decide_reflect (persisted = next)) as [<-|En].
  - injection Hw as <- _. destruct Hm1 as (Hr & Hf & _). by split_and!.
  - destruct (write_set _ _ _ _ Hm1 Hw) as (_ & Hj' & Hr & Hf). by split_and!.
Qed.

(** *** The programs that end a run early end it waiting *)

Definition waits (m : hprog (option RunOutput)) : Prop :=
  ∀ h h' out, mirrored h → m h = (h', Ok (Some out)) → out.(out_Waiting) = true ∧ written h'.

Lemma waits_bind {A} (m : hprog A) f : ends mirror_rel whatever m → (∀ a, waits (f a)) → waits (m ≫= f).
Proof.
  intros Hm Hf h h' out Hh H. apply svc_bind_ok in H as (a & h1 & H1 & H). specialize (Hm h). rewrite H1 in Hm.
  eapply Hf; [by apply Hm|done].
Qed.
Lemma waits_none : waits (mret None).
Proof. by intros h h' out _ [=]. Qed.
Lemma waits_throw e : waits (throw e).
Proof. by intros h h' out _ [=]. Qed.

(** [Wait] commits for the owner only, and leaves the set. *)
Lemma Wait_written now i ck hist s u s' : Wait now owner i ck hist s = Ok (u, s') → held owner s ∧ active_stays thread s s'.
Proof.
  intros H. split.
  - unfold Wait in H. cbv zeta in H. tx_step H v s1 Hv. apply lift_ok in Hv as [_ ->]. tx_guard H Hg. tx_step H v2 s2 Hl.
    by eapply owned_held.
  - apply (exec_active thread now (OpWait owner i ck hist)); [done|]. simpl. unfold committed. by rewrite H.
Qed.

Lemma waits_or_steer i id : waits (wait_or_steer i id).
Proof using others.
  intros h h' out Hh H. unfold wait_or_steer in H. apply svc_bind_ok in H as ([out'|e] & h1 & Hw & H).
  - injection H as -> ->. unfold try in Hw. destruct (wait i h) as [h2 r] eqn:E. injection Hw as -> ->.
    unfold wait in E. rewrite !asks_bind in E. apply svc_bind_ok in E as (text & h3 & Hd & E).
    assert (h3 = h) as -> by (unfold decoded in Hd; destruct (fw_marshal _ _); by injection Hd).
    apply svc_bind_ok in E as (u & h4 & (s & -> & Ht & Hp & _)%journal_ok & E). injection E as <- <-. split; [done|].
    apply Wait_written in Ht as [Hheld Ha]. unfold written. rewrite Hp. apply Ha. by apply (mirrored_others h Hh).
  - destruct (is_journal _ _); [|done]. by apply svc_bind_ok in H as (u & h2 & _ & [=]).
Qed.

Ltac calm_walk :=
  first [ apply flush_mirror | apply activate_mirror
        | apply calm_returns; unfold nextCallID, decoded, bound, answer, bump, touch;
          repeat first
            [ progress always_walk
            | apply update_always; intros; split; reflexivity
            | apply random_always | apply dispatch_always | apply settle_always | apply readResource_always
            | apply approved_call_always
            | apply (journal_always _ others_track); intros; apply lc_Supersede
            | apply others_track | apply tracks_loop ] ].
Ltac waits_walk :=
  repeat match goal with
  | |- waits (wait_or_steer _ _) => apply waits_or_steer
  | |- waits (mret None) => apply waits_none
  | |- waits (throw _) => apply waits_throw
  | |- waits (_ ≫= _) => apply waits_bind; [solve [calm_walk]|intros ?]
  | |- waits (if ?b then _ else _) => destruct b
  | |- waits (match ?x with _ => _ end) => destruct x
  end.

Lemma approved_call_waits i : waits (approved_call i).
Proof using others. unfold approved_call, supersededWait. cbv zeta. waits_walk. Qed.
Lemma run_plan_waits plan : waits (run_plan plan).
Proof using others.
  induction plan as [|[c k] plan IH]; simpl; [waits_walk|]. apply waits_bind; [calm_walk|]. intros _. unfold ask_human.
  destruct k; waits_walk; exact IH.
Qed.

(** *** An answer leaves the journal with the set in use *)

Lemma call_contents_db n l : ∀ h, (call_contents n l h).1.(hs_db) = h.(hs_db).
Proof.
  revert n. induction l as [|c l IH]; intros n h; [done|]. simpl. unfold mbind, prog_bind, random. cbv beta iota.
  specialize (IH (S n) (set_db (hs_db h) h)). by destruct (call_contents _ _ _) as [h' [r|e]].
Qed.

Lemma RecordUsage_held now u s n s' : RecordUsage now owner u s = Ok (n, s') → held owner s'.
Proof.
  unfold RecordUsage. cbv zeta. intros H. tx_guard H Hg. tx_step H v s1 Hl. pose proof (owned_held _ _ _ _ _ Hl) as (r & Hr).
  apply lockOwner_ok in Hl as [-> _]. tx_get H rows. tx_guard H Hg2. tx_step H w s2 Hm. injection Hm as _ <-. injection H as _ <-.
  by exists r.
Qed.

(** The run held its conversation when a provider call returned. *)
Lemma modelRun_held p r k h h' c : modelRun p r k h = (h', Ok c) → held owner h'.(hs_db).
Proof.
  unfold modelRun. cbv zeta. rewrite asks_bind. intros (? & h1 & _ & H)%svc_bind_ok. apply svc_bind_ok in H as (? & h2 & _ & H).
  apply svc_bind_ok in H as (? & h3 & _ & H). apply svc_bind_ok in H as (response & h4 & _ & H).
  apply svc_bind_ok in H as (u & h5 & (s & _ & Hu%RecordUsage_held & _)%journal_ok & H).
  case_bool_decide; [by injection H as <- _|]. pose proof (call_contents_db 0 (response_calls response) h5) as Hdb.
  rewrite H in Hdb. cbn [fst] in Hdb. by rewrite Hdb.
Qed.
Lemma invoke_held p h h' m : invoke p h = (h', Ok m) → held owner h'.(hs_db).
Proof.
  unfold invoke. intros (pending & h1 & _ & H)%svc_bind_ok. rewrite asks_bind, update_bind in H.
  apply svc_bind_ok in H as ([l|e] & h2 & Ht & H); [|by apply svc_bind_ok in H as (? & ? & _ & [=])].
  rewrite update_bind in H. injection H as <- _. simpl. unfold try in Ht.
  destruct (invoke_request _ _ _ _) as [h3 r] eqn:E. injection Ht as -> ->. unfold invoke_request in E. rewrite asks_bind in E.
  destruct (trimHistory _ _ _ _) as [kept t]. apply svc_bind_ok in E as (? & h4 & _ & E). apply svc_bind_ok in E as (? & h5 & _ & E).
  apply svc_bind_ok in E as (c & h6 & Hm%modelRun_held & E). by injection E as <- _.
Qed.

Lemma invoke_mirror p : ends mirror_rel whatever (try (F := herror) (invoke p)).
Proof using others. apply calm_returns, always_try, invoke_always; [apply _|apply others_track]. Qed.

(** What a run that returned without an error leaves. *)
Definition left_by (out : RunOutput) (h : hstate) : Prop :=
  written h ∧ (out.(out_Waiting) = false → h.(hs_active) = h.(hs_persisted)).

Lemma one_round_written p h h' out : mirrored h → one_round p h = (h', Ok (Some (out, None))) → left_by out h'.
Proof using others.
  intros Hh H. unfold one_round in H. apply svc_bind_ok in H as ([messages|e] & h1 & Hi & H); [|done].
  pose proof (invoke_mirror p h) as Hm. rewrite Hi in Hm. specialize (Hm Hh).
  assert (held owner h1.(hs_db)) as Hheld.
  { unfold try in Hi. destruct (invoke p h) as [h0 r] eqn:E. injection Hi as -> ->. by eapply invoke_held. }
  destruct (calls_of messages) as [|c l].
  - apply svc_bind_ok in H as (o & h2 & Hf & H). injection H as -> Ho. subst o. unfold final_answer in Hf. cbv zeta in Hf.
    apply svc_bind_ok in Hf as (u & h3 & Hu & Hf). apply unless_ok in Hu as [_ ->].
    apply svc_bind_ok in Hf as (u2 & h4 & Hfl & Hf). rewrite asks_bind in Hf. injection Hf as <- _ _.
    destruct (flush_written _ _ _ Hm Hfl) as (_ & Ha & Hw). split; [by apply Hw|done].
  - rewrite asks_bind in H. apply svc_bind_ok in H as ([out'|] & h2 & Hp & H).
    + injection H as -> ->. apply run_plan_waits in Hp as [Hw Hj]; [|done]. split; [done|]. by rewrite Hw.
    + by apply svc_bind_ok in H as (u & h3 & _ & [=]).
Qed.

Lemma rounds_written n p h h' out : mirrored h → rounds n p h = (h', Ok (out, None)) → left_by out h'.
Proof using others.
  revert h. induction n as [|n IH]; intros h Hh H; simpl in H; [done|].
  apply svc_bind_ok in H as ([o|] & h1 & Ho & H).
  - injection H as -> Eo. subst o. by eapply one_round_written.
  - eapply IH; [|exact H]. pose proof (one_round_kept _ others_track mirror_rel whatever calm_mirror flush_mirror activate_mirror p h) as Hm.
    rewrite Ho in Hm. by apply Hm.
Qed.

Lemma converse_loop_written h h' out : mirrored h → converse_loop h = (h', Ok (out, None)) → left_by out h'.
Proof using others.
  intros Hh E. unfold converse_loop in E. apply svc_bind_ok in E as ([approved protected] & h1 & Hr & E).
  apply svc_bind_ok in E as (o & h2 & Ho & E).
  assert (mirrored h1) as Hh1.
  { pose proof (calm_returns _ (resume_always _ others_track) h) as Hc. rewrite Hr in Hc. by apply Hc. }
  assert (match o with Some out => out_Waiting out = true ∧ written h2 | None => mirrored h2 end) as Ho2.
  { destruct approved as [i|]; [|by injection Ho as <- <-]. unfold continue_approved in Ho.
    apply svc_bind_ok in Ho as ([o1|] & h3 & Ha & Ho).
    - injection Ho as <- <-. by eapply approved_call_waits.
    - apply svc_bind_ok in Ho as (u & h4 & Hf & Ho). injection Ho as <- <-.
      pose proof (calm_returns _ (approved_call_always _ others_track i) h1) as Hc. rewrite Ha in Hc.
      by destruct (flush_written _ _ _ (Hc Hh1) Hf). }
  destruct o as [o|]; [|by eapply rounds_written]. injection E as -> ->. destruct Ho2 as [Hw Hj]. split; [done|]. by rewrite Hw.
Qed.

(** C35 A run that returns without an error leaves the active set it last wrote
    in the journal, and after an answer that is the set in use: whatever other
    processes commit in between (the run's lease may lapse and the conversation
    may be taken over), except writes of the active set in the name of this very
    claim of the run, and whichever calls of the database fail. *)
Theorem runHarness_active_set (active : list string) (tick : nat) (s : db)
    (Hreachable : reachable s) (Hheld : held owner s) (Hstart : journaled_active thread s = Some active) :
  let '(h, (out, err)) := runHarness active tick s in
  err = None →
  journaled_active thread h.(hs_db) = Some h.(hs_persisted) ∧ (out.(out_Waiting) = false → h.(hs_active) = h.(hs_persisted)).
Proof using others.
  unfold runHarness. destruct (fw_unmarshal _ _) as [history ok]. set (start := mk_hstate s tick active active history 1 0 [] []).
  assert (mirrored start) as Hm by (by split_and!; [|left|]).
  destruct ok; [|done]. destruct (converse_loop start) as [h [[out [e|]]|e]] eqn:E; unfold settle_history; simpl;
    try by case_bool_decide.
  intros _. by apply (converse_loop_written start h out).
Qed.
End active.
