(* ===== verification/HarnessHistory.v ===== *)
(** * A run leaves no call without a result

    The histories the conversation loop of [Harness.v] writes: every proposed
    call gets a result, in every way a run can end, except the one call a
    waiting run waits for.  Providers refuse a history that is not closed. *)
From S2P Require Import Prelude GoText.
From S2P Require Import Db CallBinding Interactions JournalCore Commands Owners Runs Operations Records Service.
From S2P Require Import Selectors Journey History Resolve Binding Guard Dispatch Harness HarnessSpec.
From S2P Require ActiveSet.

#[local] Set Default Proof Using "Type".

(** ** Open calls *)

(** A call after which no result for its ID comes. *)
Definition unanswered (id : string) (cs : list Content) : Prop :=
  ∃ before f after, cs = before ++ FunctionCallContent id f :: after ∧ ∀ v, FunctionResultContent id v ∉ after.

Definition opened (l : list Message) : gset string := (open_calls l).1.
Definition open_one (X : gset string) (c : Content) : gset string :=
  match c with
  | FunctionCallContent id _ => {[id]} ∪ X
  | FunctionResultContent id _ => X ∖ {[id]}
  | _ => X
  end.

Lemma open_step_fst cs p : (foldl open_step p cs).1 = foldl open_one p.1 cs.
Proof.
  revert p. induction cs as [|c cs IH]; intros [X order]; [done|]. simpl. rewrite IH. by destruct c.
Qed.
Lemma opened_contents l : opened l = foldl open_one ∅ (l ≫= m_Contents).
Proof. apply open_step_fst. Qed.
Lemma opened_app l l' : opened (l ++ l') = foldl open_one (opened l) (l' ≫= m_Contents).
Proof. by rewrite !opened_contents, bind_app, foldl_app. Qed.

Lemma unanswered_cons id c cs : unanswered id (c :: cs) ↔
  unanswered id cs ∨ ((∃ f, c = FunctionCallContent id f) ∧ ∀ v, FunctionResultContent id v ∉ cs).
Proof.
  split.
  - intros ([|c' b] & f & a & [= -> ->] & Ha); [right; by eauto|left; by exists b, f, a].
  - intros [(b & f & a & -> & Ha)|[[f ->] Ha]]; [by exists (c :: b), f, a|by exists [], f, cs].
Qed.

Lemma elem_of_open_fold id cs X :
  id ∈ foldl open_one X cs ↔ unanswered id cs ∨ (id ∈ X ∧ ∀ v, FunctionResultContent id v ∉ cs).
Proof.
  revert X. induction cs as [|c cs IH]; intros X; simpl.
  - split; [intros H; right; split; [done|intros v; by apply not_elem_of_nil]|].
    intros [([|] & f & a & [=] & _)|[H _]]. done.
  - rewrite IH, unanswered_cons. setoid_rewrite not_elem_of_cons.
    destruct c as [i f|i v|t|r]; simpl; [|destruct (decide (i = id)) as [->|]|..]; [set_solver| |set_solver..].
    split; [set_solver|]. intros [[H|[[f [=]] _]]|[_ Hv]]; [by left|]. by destruct (proj1 (Hv v)).
Qed.

Lemma elem_of_opened id l : id ∈ opened l ↔ unanswered id (l ≫= m_Contents).
Proof. rewrite opened_contents, elem_of_open_fold. set_solver. Qed.

Lemma opened_result l id v : opened (l ++ [resultMessage id v]) = opened l ∖ {[id]}.
Proof. by rewrite opened_app. Qed.

Definition plan_ids (plan : list plannedCall) : gset string := list_to_set (fn_CallID ∘ pl_Call <$> plan).

Lemma opened_deferred l plan : opened (l ++ deferred plan) = opened l ∖ plan_ids plan.
Proof.
  rewrite opened_app. generalize (opened l). induction plan as [|p plan IH]; intros X; [cbn; set_solver|].
  cbn. change (foldl open_one (X ∖ {[fn_CallID (pl_Call p)]}) (deferred plan ≫= m_Contents) = X ∖ plan_ids (p :: plan)).
  rewrite IH. unfold plan_ids. rewrite fmap_cons. set_solver.
Qed.

Lemma opened_texts l msgs : (∀ m, m ∈ msgs → ∃ t, m.(m_Contents) = [TextContent t]) → opened (l ++ msgs) = opened l.
Proof.
  rewrite opened_app. generalize (opened l). induction msgs as [|m msgs IH]; intros X Hm; [done|].
  cbn. destruct (Hm m (list_elem_of_here _ _)) as [t ->]. simpl. apply IH. intros m' Hin. apply Hm. by right.
Qed.

(** [closed] answers every open call. *)
Lemma open_fold_close order X :
  foldl open_one X (close_calls order X ≫= m_Contents) = X ∖ list_to_set order.
Proof.
  revert X. induction order as [|id order IH]; intros X; simpl; [set_solver|].
  case_decide; simpl; [rewrite IH; set_solver|rewrite IH; set_solver].
Qed.

Lemma open_order l : opened l ⊆ list_to_set (open_calls l).2.
Proof.
  unfold opened, open_calls. generalize (l ≫= m_Contents). intros cs.
  assert (∀ p, p.1 ⊆@{gset string} list_to_set p.2 → (foldl open_step p cs).1 ⊆ list_to_set (foldl open_step p cs).2) as H; [|by apply H].
  induction cs as [|c cs IH]; intros [X order] Hp; [done|]. simpl. apply IH. simpl in *.
  destruct c; simpl; try case_decide; try rewrite list_to_set_app_L; set_solver.
Qed.

Lemma opened_closed l : opened (closed l) = ∅.
Proof.
  unfold closed. destruct (open_calls l) as [X order] eqn:E. rewrite opened_app.
  pose proof (open_order l) as H. unfold opened in *. rewrite E in *. simpl in *. rewrite open_fold_close. set_solver.
Qed.

(** ** Programs and the history *)

Definition keep_history (h h' : hstate) : Prop := h'.(hs_history) = h.(hs_history).
#[export] Instance keep_history_preorder : PreOrder keep_history.
Proof. unfold keep_history. split; [done|]. intros a b c. congruence. Qed.

Section history.
Context `{codec : Codec} `{conversation : Conversation}.

Lemma journal_keeps {A} (t : Z → tx A) : always keep_history (journal t).
Proof. intros h. unfold journal, keep_history. by destruct (at_moment _ _ _ _). Qed.
Lemma random_keeps : always keep_history random.
Proof. by intros h. Qed.
Lemma cancelled_keeps : always keep_history cancelled.
Proof. by intros h. Qed.
Lemma dispatch_keeps op a : always keep_history (dispatch op a).
Proof. intros h. unfold dispatch, keep_history. cbv zeta. by destruct (guardedCall _ _ _ _ _) as [[s' calls] r]. Qed.

Ltac history_walk :=
  repeat first
    [ progress always_walk
    | progress unfold decoded, bound, bump, touch
    | apply always_update; intros; reflexivity
    | apply journal_keeps | apply random_keeps | apply cancelled_keeps | apply dispatch_keeps ].

Lemma nextCallID_keeps : always keep_history nextCallID.
Proof. unfold nextCallID. history_walk. Qed.
Lemma flush_keeps : always keep_history flush.
Proof. unfold flush. history_walk. Qed.
Lemma activate_keeps a : always keep_history (activate a).
Proof. unfold activate. cbv zeta. history_walk. Qed.
Lemma readResource_keeps a : always keep_history (readResource a).
Proof. unfold readResource. cbv zeta. history_walk. Qed.
Lemma modelRun_keeps p r k : always keep_history (modelRun p r k).
Proof.
  unfold modelRun, complete. cbv zeta. history_walk. generalize 0%nat.
  induction (response_calls _) as [|c l IH]; intros n; simpl; history_walk. apply IH.
Qed.

(** Rules for an assertion about the history. *)
Lemma on_history {A} (m : hprog A) (P : list Message → Prop) (Q : result herror A → hstate → Prop) :
  always keep_history m → (∀ r h, P h.(hs_history) → Q r h) → hoare (λ h, P h.(hs_history)) m Q.
Proof. intros Hm HQ h Hh. apply HQ. by rewrite (Hm h). Qed.

Lemma kept_then {A B} (m : hprog A) (f : A → hprog B) (P : list Message → Prop) (Q : result herror B → hstate → Prop) :
  always keep_history m → (∀ e h, Q (Err e) h) → (∀ a, hoare (λ h, P h.(hs_history)) (f a) Q) →
  hoare (λ h, P h.(hs_history)) (m ≫= f) Q.
Proof.
  intros Hm He Hf. apply (hoare_bind _ _ _ (λ _ h, P h.(hs_history))); [|done].
  apply on_history; [done|]. intros [a|e] h; [done|by intros _].
Qed.

Lemma answer_then {B} id v (f : unit → hprog B) (P P' : list Message → Prop) (Q : result herror B → hstate → Prop) :
  (∀ l, P l → P' (l ++ [resultMessage id v])) → hoare (λ h, P' h.(hs_history)) (f tt) Q →
  hoare (λ h, P h.(hs_history)) (answer id v ≫= f) Q.
Proof. intros HP Hf h Hh. unfold answer. rewrite update_bind. apply Hf. by apply HP. Qed.

(** ** Waiting *)

(** The database holds the wait for an interaction whose provider call is the
    only one that may be open, with this history as its text. *)
Definition waiting (h : hstate) (out : RunOutput) : Prop :=
  ∃ i now checkpoint s u, Wait now the_input.(in_Owner) i checkpoint out.(out_History) s = Ok (u, h.(hs_db)) ∧
    the_framework.(fw_marshal) h.(hs_history) = Some out.(out_History) ∧
    opened h.(hs_history) ⊆ {[i.(i_Call).(pc_ProviderCallID)]}.

(** What a program that may end the run leaves: no open call if the run goes
    on, a wait if it ends. *)
Definition run_post (r : result herror (option RunOutput)) (h : hstate) : Prop :=
  match r with
  | Ok None => opened h.(hs_history) = ∅
  | Ok (Some out) => out.(out_Waiting) = true ∧ waiting h out
  | Err _ => True
  end.

Lemma wait_post i id : i.(i_Call).(pc_ProviderCallID) = id →
  hoare (λ h, opened h.(hs_history) ⊆ {[id]}) (wait i)
    (λ r h, match r with Ok out => out.(out_Waiting) = true ∧ waiting h out | Err _ => opened h.(hs_history) ⊆ {[id]} end).
Proof.
  intros <- h Hh. unfold wait. rewrite !asks_bind. unfold decoded.
  destruct (fw_marshal _ _) as [text|] eqn:Em; [|done]. unfold mret, mbind, prog_ret, prog_bind. cbv beta iota.
  destruct (journal _ h) as [h' [u|e]] eqn:Ew; [|].
  - pose proof (journal_keeps (λ now, Wait now the_input.(in_Owner) i (checkpoint_text (hs_repairs h)) text) h) as Hk.
    rewrite Ew in Hk. apply journal_ok in Ew as (s & _ & Ew & _). split; [done|]. eexists i, _, _, _, u. split; [exact Ew|].
    unfold keep_history in Hk. simpl in *. by rewrite Hk.
  - pose proof (journal_keeps (λ now, Wait now the_input.(in_Owner) i (checkpoint_text (hs_repairs h)) text) h) as Hk.
    rewrite Ew in Hk. unfold keep_history in Hk. simpl in *. by rewrite Hk.
Qed.

Lemma wait_or_steer_post i id : i.(i_Call).(pc_ProviderCallID) = id →
  hoare (λ h, opened h.(hs_history) ⊆ {[id]}) (wait_or_steer i id) run_post.
Proof.
  intros Hi. unfold wait_or_steer.
  apply (hoare_bind _ _ _ (λ r h, match r with Ok out => out.(out_Waiting) = true ∧ waiting h out | Err _ => opened h.(hs_history) ⊆ {[id]} end)).
  - apply hoare_try. eapply hoare_weaken; [by apply wait_post|done|]. by intros [].
  - intros [out|e]; [by apply hoare_ret|]. destruct (is_journal _ _); [|by apply hoare_throw].
    apply (answer_then _ _ _ (λ l, opened l ⊆ {[id]}) (λ l, opened l = ∅)); [|by apply hoare_ret].
    intros l Hl. rewrite opened_result. set_solver.
Qed.

(** A program that adds one result. *)
Definition answers (id : string) (m : hprog unit) : Prop :=
  ∀ h h' u, m h = (h', Ok u) → ∃ v, h'.(hs_history) = h.(hs_history) ++ [resultMessage id v].

Lemma answer_answers id v : answers id (answer id v).
Proof. intros h h' u H. injection H as <- _. by exists v. Qed.
Lemma settle_answers id v : answers id (settle id v).
Proof.
  intros h h' u H. unfold settle in H. destruct v; try by eapply answer_answers.
  rewrite asks_bind in H. destruct (_ =? _); [done|]. rewrite update_bind in H. by eapply answer_answers in H.
Qed.

Lemma answers_then {B} id m (f : unit → hprog B) (P P' : list Message → Prop) (Q : result herror B → hstate → Prop) :
  answers id m → (∀ e h, Q (Err e) h) → (∀ l v, P l → P' (l ++ [resultMessage id v])) →
  hoare (λ h, P' h.(hs_history)) (f tt) Q → hoare (λ h, P h.(hs_history)) (m ≫= f) Q.
Proof.
  intros Hm He HP Hf h Hh. unfold mbind, prog_bind. destruct (m h) as [h' [[]|e]] eqn:E; [|apply He].
  destruct (Hm _ _ _ E) as [v Hv]. apply Hf. rewrite Hv. by apply HP.
Qed.

(** ** The approved call *)

Lemma supersededWait_post i t call :
  hoare (λ h, opened h.(hs_history) ⊆ {[call.(fn_CallID)]}) (supersededWait i t call) run_post.
Proof.
  unfold supersededWait. apply (kept_then _ _ (λ l, opened l ⊆ _)); [unfold bound; always_walk|done|intros b].
  apply (kept_then _ _ (λ l, opened l ⊆ _)); [apply nextCallID_keeps|done|intros callID].
  apply (kept_then _ _ (λ l, opened l ⊆ _)); [apply random_keeps|done|intros id].
  by apply wait_or_steer_post.
Qed.

Lemma approved_call_post i :
  hoare (λ h, opened h.(hs_history) ⊆ {[i.(i_Call).(pc_ProviderCallID)]}) (approved_call i) run_post.
Proof.
  set (P := λ l, opened l ⊆ {[i.(i_Call).(pc_ProviderCallID)]}).
  assert (∀ l v, P l → opened (l ++ [resultMessage i.(i_Call).(pc_ProviderCallID) v]) = ∅) as Hres.
  { intros l v Hl. unfold P in Hl. rewrite opened_result. set_solver. }
  unfold approved_call. cbv zeta. destruct (approved_tool i) as [t|].
  - apply (kept_then _ _ P); [unfold bound; always_walk|done|intros b].
    destruct (negb _).
    + apply (kept_then _ _ P); [apply journal_keeps|done|intros u]. exact (supersededWait_post i t (mk_Call _ _ _)).
    + apply (kept_then _ _ P); [by apply always_update|done|intros u].
      apply (kept_then _ _ P); [by apply always_update|done|intros u2].
      apply (kept_then _ _ P); [apply dispatch_keeps|done|intros [v|e]].
      * apply (answers_then i.(i_Call).(pc_ProviderCallID) _ _ P (λ l, opened l = ∅)); [apply settle_answers|done|exact Hres|by apply hoare_ret].
      * destruct (is_journal _ _); [exact (supersededWait_post i t (mk_Call _ _ _))|by apply hoare_throw].
  - apply (kept_then _ _ P); [apply journal_keeps|done|intros u].
    apply (answers_then i.(i_Call).(pc_ProviderCallID) _ _ P (λ l, opened l = ∅)); [apply answer_answers|done|exact Hres|by apply hoare_ret].
Qed.

Lemma continue_approved_post i :
  hoare (λ h, opened h.(hs_history) ⊆ {[i.(i_Call).(pc_ProviderCallID)]}) (continue_approved i) run_post.
Proof.
  unfold continue_approved.
  apply (hoare_bind _ _ _ (λ out h, run_post (Ok out) h)); [eapply hoare_weaken; [apply approved_call_post|done|by intros []]|].
  intros [out|]; [by apply hoare_ret|]. apply (kept_then _ _ (λ l, opened l = ∅)); [apply flush_keeps|done|intros u].
  by apply hoare_ret.
Qed.

(** ** The calls of a response *)

Lemma ask_human_post call plan make :
  always keep_history make →
  (∀ h h' i, make h = (h', Ok i) → i.(i_Call).(pc_ProviderCallID) = call.(fn_CallID)) →
  hoare (λ h, opened h.(hs_history) ⊆ {[call.(fn_CallID)]} ∪ plan_ids plan) (ask_human call plan make) run_post.
Proof.
  intros Hk Hmake. unfold ask_human.
  apply (hoare_bind _ _ _ (λ _ h, opened h.(hs_history) ⊆ {[call.(fn_CallID)]})).
  { apply hoare_update. intros h Hh. unfold add_messages. simpl. rewrite opened_deferred. set_solver. }
  intros _. apply (hoare_bind _ _ _ (λ i h, i.(i_Call).(pc_ProviderCallID) = call.(fn_CallID) ∧ opened h.(hs_history) ⊆ {[call.(fn_CallID)]})).
  { intros h Hh. pose proof (Hk h) as Hm. destruct (make h) as [h1 [i|e]] eqn:E; [|done]. simpl in *. rewrite Hm.
    split; [by eapply Hmake|done]. }
  intros i. apply hoare_pure. intros Hi. apply (kept_then _ _ (λ l, opened l ⊆ {[call.(fn_CallID)]})); [apply flush_keeps|done|intros u].
  by apply wait_or_steer_post.
Qed.

Lemma run_plan_post plan : hoare (λ h, opened h.(hs_history) ⊆ plan_ids plan) (run_plan plan) run_post.
Proof.
  induction plan as [|[c k] plan IH]; simpl.
  { apply hoare_ret. intros h Hh. unfold plan_ids in Hh. set_solver. }
  set (P := λ l, opened l ⊆ plan_ids (mk_plannedCall c k :: plan)).
  assert (∀ l v, P l → opened (l ++ [resultMessage c.(fn_CallID) v]) ⊆ plan_ids plan) as Hres.
  { intros l v Hl. rewrite opened_result. unfold P, plan_ids in *. rewrite fmap_cons in Hl. set_solver. }
  assert (∀ m : hprog unit, answers c.(fn_CallID) m → hoare (λ h, P h.(hs_history)) (_ ← m; run_plan plan) run_post) as Hans.
  { intros m Hm. by apply (answers_then c.(fn_CallID) _ _ P (λ l, opened l ⊆ plan_ids plan)). }
  assert (∀ make, always keep_history make → (∀ h h' i, make h = (h', Ok i) → i.(i_Call).(pc_ProviderCallID) = c.(fn_CallID)) →
    hoare (λ h, P h.(hs_history)) (ask_human c plan make) run_post) as Hask.
  { intros make Hk Hm. eapply hoare_weaken; [by apply ask_human_post|intros h Hh|done].
    unfold P, plan_ids in *. rewrite fmap_cons in Hh. set_solver. }
  apply (kept_then _ _ P); [by apply always_update|done|intros _]. destruct k.
  - apply Hans, answer_answers.
  - apply (kept_then _ _ P); [apply activate_keeps|done|intros v]. apply Hans, answer_answers.
  - apply Hans, answer_answers.
  - apply (kept_then _ _ P); [apply nextCallID_keeps|done|intros callID].
    apply (kept_then _ _ P); [unfold bound; always_walk|done|intros b]. apply Hask.
    + unfold decoded. always_walk. apply random_keeps.
    + intros h h' i H. apply svc_bind_ok in H as (id & h1 & _ & H). apply svc_bind_ok in H as (q & h2 & _ & H). by injection H as _ <-.
  - apply (kept_then _ _ P); [apply readResource_keeps|done|intros v]. apply Hans, answer_answers.
  - apply (kept_then _ _ P); [apply nextCallID_keeps|done|intros callID].
    destruct (Binding_Tool _ _ _) as [t|]; [|by apply hoare_throw].
    apply (kept_then _ _ P); [unfold bound; always_walk|done|intros b]. destruct (t_RequiresApproval t).
    + apply Hask; [always_walk; apply random_keeps|].
      intros h h' i H. apply svc_bind_ok in H as (id & h1 & _ & H). by injection H as _ <-.
    + apply (kept_then _ _ P); [by apply always_update|done|intros u].
      apply (kept_then _ _ P); [apply dispatch_keeps|done|intros [v|e]; [|by apply hoare_throw]].
      apply Hans, settle_answers.
Qed.

(** ** A round *)

Definition plain_call (c : Content) : Prop :=
  match c with FunctionCallContent _ f => f.(fc_InformationalOnly) = false | FunctionResultContent _ _ => False | _ => True end.

Lemma call_contents_plain l n h h' cs : call_contents n l h = (h', Ok cs) → Forall plain_call cs.
Proof.
  revert n h h' cs. induction l as [|c l IH]; intros n h h' cs H; simpl in H; [injection H as _ <-; constructor|].
  apply svc_bind_ok in H as (id & h1 & _ & H). apply svc_bind_ok in H as (rest & h2 & Hr & H).
  injection H as _ <-. constructor; [done|exact (IH _ _ _ _ Hr)].
Qed.

Lemma modelRun_plain p r k h h' cs : modelRun p r k h = (h', Ok cs) → Forall plain_call cs.
Proof.
  intros H. unfold modelRun in H. cbv zeta in H. svcsimpl. case_bool_decide.
  - injection H as _ <-. by repeat constructor.
  - by eapply call_contents_plain.
Qed.

Lemma opened_calls (X : gset string) cs : Forall plain_call cs →
  foldl open_one X cs ⊆ X ∪ list_to_set (fn_CallID <$> omap (M := list) (λ c, match c with
    | FunctionCallContent id f => if f.(fc_InformationalOnly) then None else Some (mk_Call id f.(fc_Name) f.(fc_Arguments))
    | _ => None end) cs).
Proof.
  intros Hp. revert X. induction Hp as [|c cs Hc _ IH]; intros X; simpl; [set_solver|].
  etransitivity; [apply IH|]. destruct c; simpl in *; try done; [rewrite Hc; simpl|..]; set_solver.
Qed.

(** The contract of the framework: the messages of a response hold exactly the
    contents of the provider's update. *)
Context (collects : ∀ cs, the_framework.(fw_collect) cs ≫= m_Contents = cs).

Lemma invoke_post p :
  hoare (λ h, opened h.(hs_history) = ∅) (invoke p)
    (λ r h, match r with Ok messages => opened h.(hs_history) ⊆ list_to_set (fn_CallID <$> calls_of messages) | Err _ => True end).
Proof using collects.
  unfold invoke. apply (kept_then _ _ (λ l, opened l = ∅)); [apply journal_keeps|done|intros pending].
  intros h Hh. rewrite asks_bind, update_bind.
  assert (opened (hs_history (add_messages (user_message <$> filter (λ p, ip_Text p ≠ "") pending) h)) = ∅) as Hh1.
  { unfold add_messages. simpl. rewrite opened_texts; [done|]. intros m (q & -> & _)%list_elem_of_fmap. by eexists. }
  revert Hh1. generalize (add_messages (user_message <$> filter (λ p, ip_Text p ≠ "") pending) h). intros h1 Hh1.
  unfold mbind, prog_bind, try.
  destruct (invoke_request pending (hs_history h) p h1) as [h2 [messages|e]] eqn:E; simpl; [|done].
  unfold invoke_request in E. rewrite asks_bind in E. destruct (trimHistory _ _ _ _) as [kept t]. cbv zeta in E.
  apply svc_bind_ok in E as (text & h3 & H3 & E). apply svc_bind_ok in E as (u & h4 & H4 & E).
  apply svc_bind_ok in E as (cs & h5 & H5 & E). injection E as <- <-.
  assert (hs_history h5 = hs_history h1) as ->.
  { pose proof (modelRun_keeps pending text kept h4) as Hm. rewrite H5 in Hm. unfold keep_history in Hm. simpl in Hm. rewrite Hm.
    assert (h3 = h1) as <- by (unfold decoded in H3; destruct (fw_marshal _ _); by injection H3).
    destruct (0 <? _); [|by injection H4 as ->].
    match type of H4 with journal ?t _ = _ => pose proof (journal_keeps t h3) as Hj end. rewrite H4 in Hj. exact Hj. }
  rewrite opened_app, Hh1. unfold calls_of. rewrite collects.
  etransitivity; [apply opened_calls; by eapply modelRun_plain|]. set_solver.
Qed.

(** What a run leaves when it returns without an error. *)
Definition leaves (h : hstate) (out : RunOutput) : Prop :=
  the_framework.(fw_marshal) h.(hs_history) = Some out.(out_History) ∧
  if out.(out_Waiting) then waiting h out else opened h.(hs_history) = ∅.
Definition outcome_post (r : result herror outcome) (h : hstate) : Prop :=
  match r with Ok (out, None) => leaves h out | _ => True end.

Lemma waiting_leaves h out : out.(out_Waiting) = true ∧ waiting h out → leaves h out.
Proof. intros [Hw Hh]. unfold leaves. rewrite Hw. split; [|done]. by destruct Hh as (? & ? & ? & ? & ? & _ & ? & _). Qed.

Lemma final_answer_post text : hoare (λ h, opened h.(hs_history) = ∅) (final_answer text) outcome_post.
Proof.
  unfold final_answer. cbv zeta. apply (kept_then _ _ (λ l, opened l = ∅)); [by always_walk|done|intros u].
  apply (kept_then _ _ (λ l, opened l = ∅)); [apply flush_keeps|done|intros u2].
  intros h Hh. rewrite asks_bind. unfold mret, prog_ret, outcome_post, leaves. simpl.
  by destruct (fw_marshal _ _).
Qed.

Lemma plan_ids_calls calls resources owner : plan_ids (planCalls calls resources owner) = list_to_set (fn_CallID <$> calls).
Proof. unfold plan_ids, planCalls. cbv zeta. rewrite <- list_fmap_compose. done. Qed.

Lemma one_round_post p :
  hoare (λ h, opened h.(hs_history) = ∅) (one_round p)
    (λ r h, match r with Ok None => opened h.(hs_history) = ∅ | Ok (Some o) => outcome_post (Ok o) h | Err _ => True end).
Proof using collects.
  unfold one_round.
  apply (hoare_bind _ _ _ (λ r h, match r with Ok messages => opened h.(hs_history) ⊆ list_to_set (fn_CallID <$> calls_of messages) | Err _ => True end)).
  { apply hoare_try, invoke_post. }
  intros [messages|e]; [|by apply hoare_throw]. destruct (calls_of messages) as [|c l].
  - apply (hoare_bind _ _ _ (λ o h, outcome_post (Ok o) h)); [|intros o; by apply hoare_ret].
    eapply hoare_weaken; [apply final_answer_post|intros h Hh; cbn in Hh; set_solver|by intros []].
  - apply (kept_then _ _ (λ X, opened X ⊆ list_to_set (fn_CallID <$> c :: l))); [by always_walk|done|intros active].
    apply (hoare_bind _ _ _ (λ out h, run_post (Ok out) h)).
    + eapply hoare_weaken; [apply run_plan_post|intros h Hh; by rewrite plan_ids_calls|by intros []].
    + intros [out|]; [apply hoare_ret; intros h Hh; by apply waiting_leaves|].
      apply (kept_then _ _ (λ l, opened l = ∅)); [apply flush_keeps|done|intros u]. by apply hoare_ret.
Qed.

Lemma rounds_post n p : hoare (λ h, opened h.(hs_history) = ∅) (rounds n p) outcome_post.
Proof using collects.
  induction n as [|n IH]; simpl; [by apply hoare_throw|].
  apply (hoare_bind _ _ _ (λ o h, match o with Some o => outcome_post (Ok o) h | None => opened h.(hs_history) = ∅ end)).
  { eapply hoare_weaken; [apply one_round_post|done|]. by intros [[o|]|e]. }
  intros [o|]; [by apply hoare_ret|exact IH].
Qed.

(** ** The start of a run *)

(** The history a run starts from is closed, but for the call of the
    interaction it continues. *)
Definition enters (tick : nat) (s : db) : Prop :=
  let fresh := opened (the_framework.(fw_unmarshal) the_input.(in_History)).1 = ∅ in
  match Continuation (the_outside.(x_now) tick) the_input.(in_Owner) (the_outside.(x_others) tick s) with
  | Ok (Some (i, _, history, _, _), _) =>
      if the_input.(in_Iteration) =? 0 then
        opened (the_framework.(fw_unmarshal) history).1 ⊆ {[i.(i_Call).(pc_ProviderCallID)]}
      else fresh
  | Ok (None, _) => fresh
  | Err _ => True
  end.

Lemma resume_post h0 : enters h0.(hs_tick) h0.(hs_db) →
  h0.(hs_history) = (the_framework.(fw_unmarshal) the_input.(in_History)).1 →
  match resume h0 with
  | (h, Ok (Some i, _)) => opened h.(hs_history) ⊆ {[i.(i_Call).(pc_ProviderCallID)]}
  | (h, Ok (None, _)) => opened h.(hs_history) = ∅
  | (_, Err _) => True
  end.
Proof.
  clear collects. intros He Hh. unfold resume, mbind at 1, prog_bind at 1.
  pose proof (journal_keeps (λ now, Continuation now the_input.(in_Owner)) h0) as Hk.
  destruct (journal _ h0) as [h1 [c|e]] eqn:Ej; [|done]. apply journal_ok in Ej as (s & -> & Ej & _).
  unfold enters in He. rewrite Ej in He. unfold keep_history in Hk. simpl in Hk. rewrite <- Hk in Hh.
  destruct c as [[[[[i ck] hist] reply] m]|]; [|by rewrite <- Hh in He].
  destruct (in_Iteration the_input =? 0); [|by rewrite <- Hh in He].
  destruct (fw_checkpoint _ _) as [[mode repairs]|]; [|done].
  unfold unless at 1. destruct (bool_decide (mode = _)); [|done].
  unfold mbind, prog_bind, update, mret, prog_ret. destruct (fw_unmarshal the_framework hist) as [l []]; [|done]. simpl in He |- *.
  destruct (bool_decide _ && _); [exact He|].
  unfold answer, update, add_messages. simpl. rewrite opened_result. set_solver.
Qed.

Lemma converse_loop_post h h' r : enters h.(hs_tick) h.(hs_db) →
  h.(hs_history) = (the_framework.(fw_unmarshal) the_input.(in_History)).1 →
  converse_loop h = (h', r) → outcome_post r h'.
Proof using collects.
  intros He Hh E. pose proof (resume_post h He Hh) as Hr. unfold converse_loop, mbind, prog_bind in E.
  destruct (resume h) as [h1 [[approved protected]|e]]; [|by injection E as <- <-].
  destruct (match approved with Some i => continue_approved i | None => mret None end h1) as [h2 r2] eqn:E2.
  assert (run_post r2 h2) as H2.
  { destruct approved as [i|]; [|by injection E2 as <- <-]. pose proof (continue_approved_post i h1 Hr) as Hp. by rewrite E2 in Hp. }
  destruct r2 as [[out|]|e]; [injection E as <- <-; by apply waiting_leaves| |by injection E as <- <-].
  pose proof (rounds_post maxRounds (λ id, bool_decide (protected = Some id)) h2 H2) as Hp. by rewrite E in Hp.
Qed.

(** C11: no run leaves a call without a result, but the one it waits for. *)
Theorem runHarness_closes_calls (active : list string) (tick : nat) (s : db) :
  enters tick s → (the_framework.(fw_unmarshal) the_input.(in_History)).2 = true →
  let '(h, (out, err)) := runHarness active tick s in
  match err with
  | Some _ => ∀ id, ¬ unanswered id (h.(hs_history) ≫= m_Contents)
  | None => the_framework.(fw_marshal) h.(hs_history) = Some out.(out_History) ∧
      if out.(out_Waiting) then waiting h out else ∀ id, ¬ unanswered id (h.(hs_history) ≫= m_Contents)
  end.
Proof using collects.
  intros He Hd. assert (∀ l, opened l = ∅ → ∀ id, ¬ unanswered id (l ≫= m_Contents)) as Hun.
  { intros l Hl id Hid. apply elem_of_opened in Hid. by rewrite Hl in Hid. }
  unfold runHarness. destruct (fw_unmarshal _ _) as [history ok] eqn:Eu. simpl in Hd. subst ok.
  set (start := mk_hstate s tick active active history 1 0 [] []).
  assert (∀ h o, outcome_post (Ok o) h → let '(h', (out, err)) := settle_history h o in
    match err with
    | Some _ => ∀ id, ¬ unanswered id (h'.(hs_history) ≫= m_Contents)
    | None => the_framework.(fw_marshal) h'.(hs_history) = Some out.(out_History) ∧
        if out.(out_Waiting) then waiting h' out else ∀ id, ¬ unanswered id (h'.(hs_history) ≫= m_Contents)
    end) as Hset.
  { intros h [out [e|]] Ho; unfold settle_history; simpl.
    - case_bool_decide as E; simpl; apply Hun; [by rewrite E|apply opened_closed].
    - destruct Ho as [Hm Hw]. split; [done|]. destruct (out_Waiting out); [done|by apply Hun]. }
  destruct (converse_loop start) as [h r] eqn:E. pose proof (converse_loop_post start h r He) as Hp.
  rewrite Eu in Hp. specialize (Hp eq_refl E). destruct r as [o|e]; by apply Hset.
Qed.
End history.
