(* ===== verification/HarnessGate.v ===== *)
(** * What a run sends out

    The log of the conversation loop of [Harness.v]: how many requests a run
    sends to the provider, and which tool calls it dispatches. *)
From S2P Require Import Prelude GoText.
From S2P Require Import Db CallBinding Interactions JournalCore Commands Owners Runs Operations Records Service.
From S2P Require Import Selectors Journey History Resolve Binding Guard Dispatch Harness HarnessSpec.
From S2P Require ActiveSet.

#[local] Set Default Proof Using "Type".

Section log.
Context `{codec : Codec} `{conversation : Conversation}.
Abbreviation owner := (the_input.(in_Owner)).

(** ** A relation on logs

    [RR] is kept by everything that adds nothing to the log; [hdispatch] and
    [hcomplete] say what it makes of the two programs that do. *)
Definition same_log (h h' : hstate) : Prop := h'.(hs_log) = h.(hs_log).
#[local] Instance same_log_preorder : PreOrder same_log.
Proof. unfold same_log. split; [done|]. intros a b c. congruence. Qed.

Section walk.
Context (RR : relation hstate) `{!PreOrder RR} (Hsame : ∀ h h', same_log h h' → RR h h').

Lemma same_kept {A} (m : hprog A) : always same_log m → always RR m.
Proof using Hsame. intros Hm h. apply Hsame, Hm. Qed.
Lemma journal_log {A} (t : Z → tx A) : always same_log (journal t).
Proof. intros h. unfold journal, same_log. by destruct (at_moment _ _ _ _). Qed.
Lemma random_log : always same_log random.
Proof. by intros h. Qed.
Lemma cancelled_log : always same_log cancelled.
Proof. by intros h. Qed.

Ltac log_walk :=
  repeat first
    [ progress always_walk
    | progress unfold decoded, bound, answer, bump, touch
    | apply always_update; intros; reflexivity
    | apply journal_log | apply random_log | apply cancelled_log ].

Lemma flush_log : always same_log flush.
Proof. unfold flush. log_walk. Qed.
Lemma activate_log a : always same_log (activate a).
Proof. unfold activate. cbv zeta. log_walk. Qed.
Lemma readResource_log a : always same_log (readResource a).
Proof. unfold readResource. cbv zeta. log_walk. Qed.
Lemma settle_log id v : always same_log (settle id v).
Proof. unfold settle. log_walk. Qed.
Lemma nextCallID_log : always same_log nextCallID.
Proof. unfold nextCallID. log_walk. Qed.
Lemma wait_or_steer_log i id : always same_log (wait_or_steer i id).
Proof. unfold wait_or_steer, wait. log_walk. Qed.
Lemma supersededWait_log i t c : always same_log (supersededWait i t c).
Proof. unfold supersededWait. log_walk; first [apply nextCallID_log|apply wait_or_steer_log]. Qed.
Lemma ask_human_log c l m : always same_log m → always same_log (ask_human c l m).
Proof. intros Hm. unfold ask_human. log_walk; first [done|apply flush_log|apply wait_or_steer_log]. Qed.
Lemma resume_log : always same_log resume.
Proof. unfold resume. cbv zeta. log_walk. Qed.
Lemma final_answer_log t : always same_log (final_answer t).
Proof. unfold final_answer. cbv zeta. log_walk. apply flush_log. Qed.
Lemma call_contents_log n l : always same_log (call_contents n l).
Proof. revert n. induction l as [|c l IH]; intros n; simpl; log_walk. apply IH. Qed.

(** ** Provider requests *)

Context (Hcomplete : ∀ p r, always RR (complete p r)).

Ltac kept_walk :=
  repeat first
    [ progress always_walk
    | progress unfold decoded
    | apply Hcomplete
    | apply same_kept; first [apply journal_log|apply cancelled_log|apply call_contents_log|apply always_update; intros; reflexivity] ].

Lemma modelRun_kept p r k : always RR (modelRun p r k).
Proof using Hcomplete Hsame PreOrder0. unfold modelRun. cbv zeta. kept_walk. Qed.
Lemma invoke_kept p : always RR (invoke p).
Proof using Hcomplete Hsame PreOrder0. unfold invoke, invoke_request. kept_walk; apply modelRun_kept. Qed.
End walk.

(** The number of provider requests so far. *)
Definition requests (h : hstate) : nat :=
  length (omap (M := list) (λ e, match e with EvRequest r => Some r | _ => None end) h.(hs_log)).

Definition same_requests (h h' : hstate) : Prop := requests h' = requests h.
#[local] Instance same_requests_preorder : PreOrder same_requests.
Proof. unfold same_requests. split; [done|]. intros a b c. congruence. Qed.
Lemma log_requests h h' : same_log h h' → same_requests h h'.
Proof. unfold same_log, same_requests, requests. by intros ->. Qed.
Lemma dispatch_requests op a : always same_requests (dispatch op a).
Proof.
  intros h. unfold dispatch, same_requests, requests. cbv zeta. destruct (guardedCall _ _ _ _ _) as [[s' calls] r].
  simpl. rewrite omap_app, length_app. simpl. lia.
Qed.

Lemma complete_requests p r h : requests (complete p r h).1 = S (requests h).
Proof.
  unfold complete. rewrite update_bind. cbv zeta.
  assert (requests (add_event (EvRequest r) h) = S (requests h)) as <-.
  { unfold requests. simpl. rewrite omap_app, length_app. simpl. lia. }
  generalize (add_event (EvRequest r) h). clear h. intros h. symmetry.
  match goal with |- requests ?h = requests (?m ?h).1 => cut (always same_log m); [intros Hm; by rewrite (log_requests _ _ (Hm h))|] end.
  always_walk; apply journal_log.
Qed.

(** [costs k m]: [m] makes at most [k] requests. *)
Definition costs {A} (k : nat) (m : hprog A) : Prop := ∀ h, (requests (m h).1 ≤ requests h + k)%nat.

Lemma costs_bind {A B} k1 k2 (m : hprog A) (f : A → hprog B) :
  costs k1 m → (∀ a, costs k2 (f a)) → costs (k1 + k2) (m ≫= f).
Proof.
  intros Hm Hf h. unfold mbind, prog_bind. specialize (Hm h). destruct (m h) as [h1 [a|e]]; simpl in *; [|lia].
  specialize (Hf a h1). lia.
Qed.
Lemma costs_same {A} (m : hprog A) : always same_requests m → costs 0 m.
Proof. intros Hm h. rewrite (Hm h). lia. Qed.
Lemma costs_log {A} (m : hprog A) : always same_log m → costs 0 m.
Proof. intros Hm. apply costs_same. intros h. apply log_requests, Hm. Qed.

Lemma complete_costs p r : costs 1 (complete p r).
Proof. intros h. rewrite complete_requests. lia. Qed.

Lemma modelRun_costs p r k : costs 1 (modelRun p r k).
Proof.
  unfold modelRun. cbv zeta. do 4 (apply (costs_bind 0); [apply costs_log; always_walk; first [apply journal_log|apply cancelled_log]|intros ?]).
  apply (costs_bind 1 0); [apply complete_costs|intros ?]. apply (costs_bind 0 0); [apply costs_log, journal_log|intros ?].
  apply costs_log. case_bool_decide; [always_walk|apply call_contents_log].
Qed.

Lemma invoke_costs p : costs 1 (invoke p).
Proof.
  unfold invoke. apply (costs_bind 0); [apply costs_log, journal_log|intros pending].
  do 2 (apply (costs_bind 0); [apply costs_log; always_walk; by apply always_update|intros ?]).
  apply (costs_bind 1 0).
  - intros h. unfold try. cut (costs 1 (invoke_request pending a p)); [intros Hc; specialize (Hc h); by destruct (invoke_request _ _ _ h)|].
    unfold invoke_request. apply (costs_bind 0); [apply costs_log; always_walk|intros history].
    destruct (trimHistory _ _ _ _) as [kept t]. cbv zeta.
    do 2 (apply (costs_bind 0); [apply costs_log; unfold decoded; always_walk; apply journal_log|intros ?]).
    apply (costs_bind 1 0); [apply modelRun_costs|intros ?]. apply costs_log. always_walk.
  - intros [m|e]; apply costs_log; always_walk; by apply always_update.
Qed.

(** Tool calls make no request. *)
Lemma log_always {A} (m : hprog A) : always same_log m → always same_requests m.
Proof. intros Hm h. apply log_requests, Hm. Qed.

Ltac request_walk :=
  repeat first
    [ progress always_walk
    | apply dispatch_requests
    | apply log_always;
      first [ apply journal_log | apply flush_log | apply activate_log | apply readResource_log | apply settle_log
            | apply nextCallID_log | apply supersededWait_log | apply resume_log | apply final_answer_log
            | apply ask_human_log; unfold decoded; always_walk; apply random_log
            | apply always_update; intros; reflexivity ] ].

Lemma run_plan_requests plan : always same_requests (run_plan plan).
Proof.
  induction plan as [|[c k] plan IH]; simpl; [request_walk|]. unfold bound, answer, bump, touch. request_walk; exact IH.
Qed.
Lemma continue_approved_requests i : always same_requests (continue_approved i).
Proof. unfold continue_approved, approved_call, bound, answer, bump, touch. cbv zeta. request_walk. Qed.

Lemma one_round_costs p : costs 1 (one_round p).
Proof.
  unfold one_round. apply (costs_bind 1 0).
  - intros h. unfold try. pose proof (invoke_costs p h) as Hc. by destruct (invoke p h).
  - intros [messages|e]; [|apply costs_log; always_walk]. destruct (calls_of messages); apply costs_same.
    + request_walk.
    + request_walk. apply run_plan_requests.
Qed.

Lemma rounds_costs n p : costs n (rounds n p).
Proof.
  induction n as [|n IH]; simpl; [apply costs_log; always_walk|]. apply (costs_bind 1 n); [apply one_round_costs|].
  intros [o|]; [|exact IH]. intros h. cbn. lia.
Qed.

(** The loop makes at most sixteen provider requests, whatever the model
    answers. *)
Lemma runHarness_requests (active : list string) (tick : nat) (s : db) :
  (requests (runHarness active tick s).1 ≤ 16)%nat.
Proof.
  unfold runHarness. destruct (fw_unmarshal _ _) as [history ok].
  assert (∀ h o, requests (settle_history h o).1 = requests h) as Hs.
  { intros h [out e]. unfold settle_history. simpl. by repeat case_match. }
  destruct ok; [|by cbn; lia].
  assert (costs 16 converse_loop) as Hc.
  { unfold converse_loop. apply (costs_bind 0 16); [apply costs_log, resume_log|intros [approved protected]].
    apply (costs_bind 0 16); [apply costs_same; destruct approved; [apply continue_approved_requests|request_walk]|].
    intros [out|]; [intros h; cbn; lia|apply (rounds_costs 16)]. }
  specialize (Hc (mk_hstate s tick active active history 1 0 [] [])).
  destruct (converse_loop _) as [h [o|e]]; rewrite Hs; exact Hc.
Qed.

(** ** Dispatched calls *)

(** The interaction the journal gave the run to continue: an approval that was
    answered with approve. *)
Definition approved (i : Interaction) : Prop :=
  i.(i_Kind) = "approval" ∧ the_input.(in_Iteration) = 0 ∧
  ∃ now s s' checkpoint history reply marker,
    Continuation now owner s = Ok (Some (i, checkpoint, history, reply, marker), s') ∧ reply.(r_Decision) = "approve".

(** A call that may leave the process: the operation is the binding of its
    arguments to the tool its journey resolves the name to; it belongs to an
    active journey and needs no approval, or it is the approved call of an
    available journey, unchanged since it was approved. *)
Definition allowed (op : Operation) (approval : string) (active : list string) : Prop :=
  ∃ journey t b callID,
    Binding_Tool the_catalog journey op.(o_Name) = Some t ∧ bindTool journey t op.(o_Arguments) = Ok b ∧
    op = operation b callID op.(o_Name) op.(o_Arguments) t op.(o_RequiresApproval) ∧
    ((approval = "" ∧ op.(o_RequiresApproval) = false ∧ t.(t_RequiresApproval) = false ∧ journey ∈ active) ∨
     (op.(o_RequiresApproval) = true ∧ isAvailable journey = true ∧ ∃ i, approved i ∧
        approval = i.(i_ID) ∧ journey = i.(i_JourneyID) ∧ callID = i.(i_Call).(pc_CallID) ∧
        op.(o_Name) = i.(i_Call).(pc_Name) ∧ op.(o_Arguments) = i.(i_Call).(pc_Arguments) ∧
        op.(o_Binding) = i.(i_Call).(pc_Binding))).
Definition allowed_event (e : event) : Prop :=
  match e with EvDispatch op approval active _ => allowed op approval active | EvRequest _ => True end.
Definition gated (h : hstate) : Prop := Forall allowed_event h.(hs_log).

Definition gate (h h' : hstate) : Prop := gated h → gated h'.
#[local] Instance gate_preorder : PreOrder gate.
Proof. unfold gate. split; [by intros h|]. intros a b c. tauto. Qed.
Lemma log_gate h h' : same_log h h' → gate h h'.
Proof. unfold same_log, gate, gated. by intros ->. Qed.
Lemma gate_log {A} (m : hprog A) : always same_log m → always gate m.
Proof. intros Hm h. apply log_gate, Hm. Qed.

Lemma complete_gate p r : always gate (complete p r).
Proof.
  unfold complete. cbv zeta. apply always_bind; [apply _| |intros _].
  - apply always_update. intros h Hh. unfold gated in *. simpl. apply Forall_app. split; [done|by constructor].
  - apply gate_log. always_walk; apply journal_log.
Qed.

Lemma dispatch_gate op approval h : allowed op approval h.(hs_active) → gated h → gated (dispatch op approval h).1.
Proof.
  intros Ha Hh. unfold dispatch. cbv zeta. destruct (guardedCall _ _ _ _ _) as [[s' calls] r].
  unfold gated. simpl. apply Forall_app. split; [exact Hh|by constructor].
Qed.

(** Programs from a gated state, with the active set known up to its order. *)
Definition has_active (X : list string) (h : hstate) : Prop := gated h ∧ ∀ j, j ∈ X → j ∈ h.(hs_active).
Definition active_kept (h h' : hstate) : Prop := same_log h h' ∧ ∀ j, j ∈ h.(hs_active) → j ∈ h'.(hs_active).
#[local] Instance active_kept_preorder : PreOrder active_kept.
Proof.
  split; [by intros h|]. intros a b c [H1 H2] [H3 H4]. split; [by etransitivity|]. intros j Hj. by apply H4, H2.
Qed.

Lemma journal_active {A} (t : Z → tx A) : always active_kept (journal t).
Proof. intros h. unfold journal, active_kept, same_log. by destruct (at_moment _ _ _ _). Qed.

Lemma elem_of_Touch id j a : j ∈ a → j ∈ (ActiveSet.Touch id a).1.
Proof.
  unfold ActiveSet.Touch. destruct (index_of id a) as [i|] eqn:E; [|done]. case_decide; [done|]. simpl.
  apply index_of_Some in E as (l1 & l2 & -> & _ & <-). rewrite delete_middle, !elem_of_app, elem_of_cons.
  intros [Hj|[->|Hj]]; [by left; left|by right; left|by left; right].
Qed.

Ltac active_walk :=
  repeat first
    [ progress always_walk
    | progress unfold decoded, bound, answer, bump, touch
    | apply journal_active
    | apply always_update; intros ?; split; [reflexivity|intros ? ?; first [assumption|by apply elem_of_Touch]]
    | match goal with |- always active_kept random => intros ?; split; [reflexivity|intros ? ?; assumption] end ].

Lemma touch_active id : always active_kept (touch id).
Proof. active_walk. Qed.
Lemma flush_active : always active_kept flush.
Proof. unfold flush. active_walk. Qed.
Lemma readResource_active a : always active_kept (readResource a).
Proof. unfold readResource. cbv zeta. active_walk. Qed.
Lemma settle_active id v : always active_kept (settle id v).
Proof. unfold settle. active_walk. Qed.
Lemma nextCallID_active : always active_kept nextCallID.
Proof. unfold nextCallID. active_walk. Qed.
Lemma wait_or_steer_active i id : always active_kept (wait_or_steer i id).
Proof. unfold wait_or_steer, wait. active_walk. Qed.
Lemma ask_human_active c l m : always active_kept m → always active_kept (ask_human c l m).
Proof. intros Hm. unfold ask_human. active_walk; first [done|apply flush_active|apply wait_or_steer_active]. Qed.

Lemma active_then {A B} X (m : hprog A) (f : A → hprog B) :
  always active_kept m → (∀ a, hoare (has_active X) (f a) (λ _, gated)) → hoare (has_active X) (m ≫= f) (λ _, gated).
Proof.
  intros Hm Hf. apply (hoare_bind _ _ _ (λ _, has_active X)); [|done].
  intros h [Hg HX]. destruct (Hm h) as [Hl Ha]. apply log_gate in Hl. specialize (Hl Hg).
  destruct (m h) as [h1 [a|e]]; [|done]. split; [done|]. intros j Hj. by apply Ha, HX.
Qed.
Lemma active_end {A} X (m : hprog A) : always active_kept m → hoare (has_active X) m (λ _, gated).
Proof. intros Hm h [Hg _]. destruct (Hm h) as [Hl _]. by apply (log_gate _ _ Hl). Qed.

(** A plan without alias calls, and one whose alias calls are offered. *)
Definition alias_free (plan : list plannedCall) : Prop := ∀ s j, s ∈ plan → s.(pl_Kind) ≠ callAlias j.
Definition offered (X : list string) (plan : list plannedCall) : Prop :=
  ∀ s, s ∈ plan → match s.(pl_Kind) with callAlias j => j ∈ X | callActivate => False | _ => True end.

Ltac gate_walk :=
  repeat first
    [ progress always_walk
    | apply gate_log;
      first [ apply journal_log | apply flush_log | apply activate_log | apply readResource_log | apply settle_log
            | apply nextCallID_log | apply supersededWait_log | apply resume_log | apply final_answer_log
            | apply ask_human_log; unfold decoded; always_walk; apply random_log
            | apply always_update; intros; reflexivity ] ].

Lemma run_plan_free plan : alias_free plan → always gate (run_plan plan).
Proof.
  induction plan as [|[c k] plan IH]; intros Hp; simpl; [gate_walk|].
  assert (alias_free plan) as Hr by (intros s j Hs; apply Hp; by right). specialize (IH Hr).
  assert (∀ j, k ≠ callAlias j) as Hk by (intros j; apply (Hp (mk_plannedCall c k) j), list_elem_of_here).
  unfold bound, answer, bump. apply always_bind; [apply _|gate_walk|intros _].
  destruct k; try (by destruct (Hk Journey)); gate_walk; exact IH.
Qed.

Lemma run_plan_offered X plan : offered X plan → hoare (has_active X) (run_plan plan) (λ _, gated).
Proof.
  induction plan as [|[c k] plan IH]; intros Hp; simpl; [apply active_end; always_walk|].
  assert (offered X plan) as Hr by (intros s Hs; apply Hp; by right). specialize (IH Hr).
  pose proof (Hp (mk_plannedCall c k) (list_elem_of_here _ _)) as Hk. simpl in Hk.
  apply active_then; [unfold bump; active_walk|intros _]. destruct k; [|done|..].
  - apply active_then; [active_walk|intros _; exact IH].
  - apply active_then; [active_walk|intros _; exact IH].
  - apply active_then; [apply nextCallID_active|intros callID]. apply active_then; [active_walk|intros b].
    apply active_end, ask_human_active. active_walk.
  - apply active_then; [apply readResource_active|intros v]. apply active_then; [active_walk|intros _; exact IH].
  - apply active_then; [apply nextCallID_active|intros callID]. destruct (Binding_Tool _ _ _) as [t|] eqn:Et; [|by apply active_end; always_walk].
    unfold bound. intros h Hh. unfold mbind at 1, prog_bind at 1, lift_result.
    destruct (bindTool Journey t (fn_Arguments c)) as [b|e] eqn:Eb; [|by destruct Hh].
    revert h Hh. change (hoare (has_active X) (if t_RequiresApproval t then ask_human c plan (id ← random; mret (interaction b "approval" callID id c)) else
      (_ ← touch Journey; r ← dispatch (operation b callID (fn_Name c) (fn_Arguments c) t (t_RequiresApproval t)) "";
       match r with Ok v => _ ← settle (fn_CallID c) v; run_plan plan | Err e => throw (HGuard e) end)) (λ _, gated)).
    destruct (t_RequiresApproval t) eqn:Er; [apply active_end, ask_human_active; active_walk|].
    apply active_then; [apply touch_active|intros _].
    apply (hoare_bind _ _ _ (λ _, has_active X)).
    + intros h [Hg HX]. set (op := operation b callID (fn_Name c) (fn_Arguments c) t false).
      assert (gated (dispatch op "" h).1) as Hd.
      { apply dispatch_gate; [|done]. exists Journey, t, b, callID. split_and!; [done..|]. left. split_and!; try done. by apply HX. }
      unfold dispatch in *. cbv zeta in *. destruct (guardedCall _ _ _ _ _) as [[s' calls] r]. split; [exact Hd|exact HX].
    + intros [v|e]; [|by apply active_end; always_walk]. apply active_then; [apply settle_active|intros _; exact IH].
Qed.

(** What [planCalls] makes of the calls of a response is one or the other. *)
Lemma owner_of_active active alias j : owner_of active alias = Some j → j ∈ active.
Proof. unfold owner_of, owningJourney. intros [H _]%find_some. by apply in_rev, list_elem_of_In in H. Qed.

Lemma planCalls_cases calls resources active :
  let plan := planCalls calls resources (owner_of active) in alias_free plan ∨ offered active plan.
Proof.
  unfold planCalls. cbv zeta. destruct (existsb _ calls) eqn:E; [left|right].
  - intros s j (c & -> & Hc)%list_elem_of_fmap. unfold plan_call. simpl. by destruct (bool_decide _).
  - intros s (c & -> & Hc)%list_elem_of_fmap. unfold plan_call. simpl.
    destruct (bool_decide (fn_Name c = toolActivateJourney)) eqn:Ec.
    + assert (existsb (λ c, bool_decide (fn_Name c = toolActivateJourney)) calls = true) as Hx; [|congruence].
      apply existsb_exists. exists c. split; [by apply list_elem_of_In|done].
    + simpl. destruct (bool_decide (fn_Name c = toolRequestUserInput)); [done|]. destruct (_ && _); [done|].
      destruct (owner_of active (fn_Name c)) as [j|] eqn:Eo; [by apply owner_of_active in Eo|done].
Qed.

Lemma run_plan_gate calls resources h : gated h →
  gated (run_plan (planCalls calls resources (owner_of h.(hs_active))) h).1.
Proof.
  intros Hg. destruct (planCalls_cases calls resources h.(hs_active)) as [Hf|Ho].
  - by apply run_plan_free.
  - by eapply run_plan_offered.
Qed.

Lemma one_round_gate p : always gate (one_round p).
Proof.
  unfold one_round. apply always_bind; [apply _| |intros [messages|e]; [|gate_walk]].
  - apply always_try, invoke_kept; [apply _|apply log_gate|apply complete_gate].
  - destruct (calls_of messages) as [|c l]; [gate_walk|].
    intros h Hg. rewrite asks_bind. unfold mbind, prog_bind.
    pose proof (run_plan_gate (c :: l) (offersResources (activeJourneys (hs_active h))) h Hg) as Hp.
    destruct (run_plan _ h) as [h1 [[out|]|e]]; simpl in *; [done| |done].
    pose proof (gate_log flush flush_log h1 Hp) as Hf. by destruct (flush h1) as [h2 [u|e]].
Qed.
Lemma rounds_gate n p : always gate (rounds n p).
Proof. induction n as [|n IH]; simpl; gate_walk; [apply one_round_gate|exact IH]. Qed.

(** ** The approved call *)

Lemma resume_approved h h' i p : resume h = (h', Ok (Some i, p)) → approved i.
Proof.
  intros H. unfold resume in H. apply svc_bind_ok in H as (c & h1 & Hc & H).
  apply journal_ok in Hc as (s & _ & E & _). destruct c as [[[[[i' ck] hist] reply] marker]|]; [|done]. cbv zeta in H.
  destruct (in_Iteration the_input =? 0) eqn:Ei; [|done]. destruct (fw_checkpoint _ _) as [[mode n]|]; [|done].
  apply svc_bind_ok in H as (u & h2 & _ & H). apply svc_bind_ok in H as (u2 & h3 & _ & H).
  destruct (fw_unmarshal _ _) as [l ok]. apply svc_bind_ok in H as (u3 & h4 & _ & H). apply svc_bind_ok in H as (u4 & h5 & _ & H).
  destruct (_ && _) eqn:Ed; [|by apply svc_bind_ok in H as (u5 & h6 & _ & [=])].
  injection H as _ <- _. apply andb_prop in Ed as [Ek%bool_decide_eq_true Ed%bool_decide_eq_true].
  split_and!; [done|lia|]. by do 8 eexists.
Qed.

Lemma approved_call_gate i : approved i → always gate (approved_call i).
Proof.
  intros Hi. unfold approved_call, approved_tool. cbv zeta. destruct (isAvailable _) eqn:Ea; [|unfold answer; gate_walk].
  destruct (Binding_Tool _ _ _) as [t|] eqn:Et; [|unfold answer; gate_walk].
  intros h. unfold mbind at 1, prog_bind at 1, bound, lift_result.
  destruct (bindTool _ t _) as [b|e] eqn:Eb; [|by intros Hg].
  destruct (bool_decide (bc_binding b = _)) eqn:Ec; simpl; [|by apply (gate_log _ (always_bind same_log _ _ (journal_log _) (λ _, supersededWait_log _ _ _)))].
  intros Hg. unfold bump, touch. rewrite !update_bind. apply bool_decide_eq_true in Ec.
  match goal with |- gated ((dispatch ?op ?a ≫= ?f) ?h1).1 => set (st := h1); assert (gated (dispatch op a st).1) as Hd end.
  { apply dispatch_gate; [|exact Hg]. exists i.(i_JourneyID), t, b, i.(i_Call).(pc_CallID). simpl in *.
    split_and!; [done..|]. right. split_and!; [done..|]. by exists i. }
  unfold mbind at 1, prog_bind at 1. destruct (dispatch _ _ st) as [h1 [[v|e]|e]]; simpl in Hd; [| |done].
  - by apply (gate_log _ (always_bind same_log _ _ (settle_log _ _) (λ _, always_ret same_log None))).
  - match goal with |- gated ((if ?c then _ else _) _).1 => destruct c end; [by apply (gate_log _ (supersededWait_log _ _ _))|done].
Qed.

Lemma gate_hoare {A} (m : hprog A) : always gate m → hoare gated m (λ _, gated).
Proof. intros Hm h Hg. by apply Hm. Qed.

Lemma converse_loop_gate : hoare gated converse_loop (λ _, gated).
Proof.
  unfold converse_loop.
  apply (hoare_bind _ _ _ (λ a h, (∀ i, a.1 = Some i → approved i) ∧ gated h)).
  - intros h Hg. pose proof (gate_log _ resume_log h Hg) as H1.
    destruct (resume h) as [h1 [[a p]|e]] eqn:Er; [|done]. split; [|done]. simpl. intros i ->. by eapply resume_approved.
  - intros [a p]. apply hoare_pure. cbn [fst]. intros Ha. apply (hoare_bind _ _ _ (λ _, gated)).
    + apply (hoare_weaken _ gated _ _ (λ _, gated)); [apply gate_hoare|done|by intros []]. destruct a as [i|]; [|gate_walk]. unfold continue_approved.
      gate_walk. apply approved_call_gate. by apply Ha.
    + intros [out|]; apply gate_hoare; [gate_walk|apply rounds_gate].
Qed.

Definition log_of (r : hstate * outcome) : list event := r.1.(hs_log).

(** C10: every call that leaves the process was allowed to. *)
Theorem runHarness_gated (active : list string) (tick : nat) (s : db) (op : Operation) (approval : string) (offered : list string) (calls : sent) :
  EvDispatch op approval offered calls ∈ log_of (runHarness active tick s) → allowed op approval offered.
Proof.
  unfold log_of, runHarness. destruct (fw_unmarshal _ _) as [history ok].
  assert (∀ h o, hs_log (settle_history h o).1 = hs_log h) as Hs.
  { intros h [out e]. unfold settle_history. simpl. by repeat case_match. }
  destruct ok; [|by intros ?%elem_of_nil].
  set (start := mk_hstate s tick active active history 1 0 [] []).
  assert (gated (converse_loop start).1) as Hg by (apply converse_loop_gate; constructor).
  intros Hin. destruct (converse_loop start) as [h [o|e]]; rewrite Hs in Hin;
    exact (proj1 (Forall_forall _ _) Hg _ Hin).
Qed.
End log.
