(* ===== verification/GoPath.v ===== *)
(** * Slash-separated paths

    Go's [path] and [io/fs] on path names, as [internal/definitions/bundle.go]
    uses them: [Clean], [Join], [Dir] and [ValidPath], and the correspondence of
    clean relative names with lists of name components. *)
From S2P Require Import Prelude GoText CallBinding.
From Stdlib Require Import Ascii.

Definition slash : ascii := "/".

(** ** The operations *)

(** One component of [path.Clean]; the kept components are in reverse order. *)
Definition clean_step (rooted : bool) (kept : list string) (p : string) : list string :=
  if bool_decide (p = "") || bool_decide (p = ".") then kept
  else if bool_decide (p = "..") then
    match kept with
    | [] => if rooted then [] else [".."]
    | q :: kept' => if bool_decide (q = "..") then ".." :: kept else kept'
    end
  else p :: kept.

Definition Clean (s : string) : string :=
  let rooted := has_prefix "/" s in
  let kept := rev (foldl (clean_step rooted) [] (split slash s)) in
  if rooted then "/" +:+ join "/" kept
  else if bool_decide (kept = []) then "." else join "/" kept.

(** [path.Join] of two elements. *)
Definition Join (a b : string) : string :=
  if bool_decide (a = "") && bool_decide (b = "") then ""
  else Clean (if bool_decide (a = "") then b else a +:+ "/" +:+ b).

(** [path.Dir]: everything up to the last slash, cleaned. *)
Definition Dir (s : string) : string :=
  Clean (match removelast (split slash s) with [] => "" | l => join "/" l +:+ "/" end).

Definition good_part (p : string) : bool :=
  negb (bool_decide (p = "") || bool_decide (p = ".") || bool_decide (p = "..")).

(** [fs.ValidPath] *)
Definition ValidPath (name : string) : bool :=
  valid_utf8 name && (bool_decide (name = ".") || forallb good_part (split slash name)).

(** [strings.CutPrefix] *)
Definition cut_prefix (p s : string) : option string :=
  if has_prefix p s then Some (drop_bytes (String.length p) s) else None.

(** ** Names as lists of components *)

Lemma split_not_nil sep s : split sep s ≠ [].
Proof. destruct s as [|c s]; simpl; [done|]. case_decide; [done|]. by case_match. Qed.

Lemma join_cons sep s l : l ≠ [] → join sep (s :: l) = s +:+ (sep +:+ join sep l).
Proof. by destruct l. Qed.

Lemma join_split sep s : join (String sep "") (split sep s) = s.
Proof.
  induction s as [|c s IH]; simpl; [done|]. pose proof (split_not_nil sep s) as Hne. case_decide as Hc.
  - subst c. rewrite join_cons by done. by rewrite IH.
  - destruct (split sep s) as [|h t]; [done|]. destruct t as [|h' t].
    + unfold join in *. simpl in *. by subst.
    + rewrite join_cons in IH |- * by done. rewrite <- IH. done.
Qed.

Lemma split_app_sep sep s t : split sep (s +:+ String sep t) = split sep s ++ split sep t.
Proof.
  induction s as [|c s IH]; simpl.
  - unfold String.app. simpl. by rewrite decide_True.
  - change (String c s +:+ String sep t) with (String c (s +:+ String sep t)). simpl. rewrite IH.
    case_decide; [done|]. by destruct (split sep s) as [|h k] eqn:E; [by apply split_not_nil in E|].
Qed.

Lemma split_parts_lack sep s : Forall (λ p, lacks sep p = true) (split sep s).
Proof.
  induction s as [|c s IH]; simpl; [by repeat constructor|]. case_decide as Hc; [by constructor|].
  destruct (split sep s) as [|h t]; [constructor; [|constructor]|inversion IH; subst; constructor; [|done]];
    simpl; apply andb_true_iff; (split; [|done]); by apply negb_true_iff, bool_decide_eq_false.
Qed.

Lemma join_app_sep sep l k : l ≠ [] → k ≠ [] → join sep (l ++ k) = join sep l +:+ (sep +:+ join sep k).
Proof.
  intros Hl Hk. induction l as [|s l IH]; [done|]. destruct l as [|s' l].
  - by rewrite (join_cons _ s k).
  - rewrite <- app_comm_cons. rewrite join_cons by done. rewrite IH by done.
    rewrite (join_cons sep s) by done. by rewrite !append_assoc.
Qed.

Abbreviation parts := (split slash).

(** A list of components that names a path below the root. *)
Definition good (l : list string) : Prop := Forall (λ p, good_part p = true ∧ lacks slash p = true) l.

Lemma good_app l k : good (l ++ k) ↔ good l ∧ good k.
Proof. apply Forall_app. Qed.

Lemma parts_join l : l ≠ [] → good l → parts (join "/" l) = l.
Proof. intros Hne Hl. apply split_join; [done|]. eapply Forall_impl; [exact Hl|]. by intros p []. Qed.

Lemma join_inj_good l k : l ≠ [] → k ≠ [] → good l → good k → join "/" l = join "/" k → l = k.
Proof. intros Hl Hk Gl Gk E. rewrite <- (parts_join l), <- (parts_join k) by done. by rewrite E. Qed.

Lemma parts_inj s t : parts s = parts t → s = t.
Proof. intros E. rewrite <- (join_split slash s), <- (join_split slash t). by rewrite E. Qed.

Lemma has_prefix_app p s : has_prefix p (p +:+ s) = true.
Proof. unfold has_prefix. induction p as [|c p IH]; [by destruct s|]. simpl. by destruct (ascii_dec c c). Qed.

Lemma drop_bytes_app p s : drop_bytes (String.length p) (p +:+ s) = s.
Proof. induction p; [by destruct s|done]. Qed.

Lemma cut_prefix_app p s : cut_prefix p (p +:+ s) = Some s.
Proof. unfold cut_prefix. by rewrite has_prefix_app, drop_bytes_app. Qed.

Lemma has_prefix_split p s : has_prefix p s = true → s = p +:+ drop_bytes (String.length p) s.
Proof.
  unfold has_prefix. revert s. induction p as [|c p IH]; intros s H; [by destruct s|].
  destruct s as [|d s]; [done|]. simpl in H. destruct (ascii_dec c d) as [->|]; [|done]. simpl.
  change (String d p +:+ ?x) with (String d (p +:+ x)). f_equal. by apply IH.
Qed.

Lemma cut_prefix_Some p s t : cut_prefix p s = Some t ↔ s = p +:+ t.
Proof.
  split; [|intros ->; apply cut_prefix_app].
  unfold cut_prefix. destruct (has_prefix p s) eqn:E; [|done]. intros [= <-]. by apply has_prefix_split.
Qed.

(** ** [Clean] on relative names *)

Definition kept_part (p : string) : bool := negb (bool_decide (p = "") || bool_decide (p = ".")).

Lemma foldl_clean rooted kept l : ".." ∉ l → ".." ∉ kept →
  foldl (clean_step rooted) kept l = rev (filter (λ p, kept_part p = true) l) ++ kept.
Proof.
  revert kept. induction l as [|p l IH]; intros kept Hl Hk; [done|]. simpl.
  apply not_elem_of_cons in Hl as [Hp Hl]. unfold clean_step at 2. rewrite (bool_decide_eq_false_2 (p = "..")) by done.
  assert (kept_part p = negb (bool_decide (p = "") || bool_decide (p = "."))) as Ek by done.
  destruct (bool_decide (p = "") || bool_decide (p = ".")); simpl in Ek.
  - rewrite filter_cons_False by (by rewrite Ek). by apply IH.
  - rewrite filter_cons_True by done. simpl. rewrite IH by (try done; apply not_elem_of_cons; by split; [congruence|]). by rewrite <- app_assoc.
Qed.

Lemma good_part_kept p : good_part p = true ↔ kept_part p = true ∧ p ≠ "..".
Proof.
  unfold good_part, kept_part. rewrite negb_orb, andb_true_iff, negb_true_iff, (negb_true_iff (bool_decide _)), bool_decide_eq_false. done.
Qed.

Lemma good_kept s : ".." ∉ parts s → good (filter (λ p, kept_part p = true) (parts s)).
Proof.
  intros Hd. apply Forall_forall. intros p [Hp Hin]%list_elem_of_filter. split.
  - apply good_part_kept. split; [done|congruence].
  - exact (proj1 (Forall_forall _ _) (split_parts_lack slash s) _ Hin).
Qed.

Lemma good_filter l : good l → filter (λ p, kept_part p = true) l = l.
Proof.
  induction 1 as [|p l [Hp _] Hl IH]; [done|]. rewrite filter_cons_True by (by apply good_part_kept). by rewrite IH.
Qed.

Lemma good_no_dots l : good l → ".." ∉ l.
Proof. intros Hl Hin. by destruct (proj1 (Forall_forall _ _) Hl _ Hin). Qed.

Lemma Clean_relative s : has_prefix "/" s = false → ".." ∉ parts s →
  Clean s = let l := filter (λ p, kept_part p = true) (parts s) in if bool_decide (l = []) then "." else join "/" l.
Proof.
  intros Hr Hd. unfold Clean. rewrite Hr, foldl_clean by (try done; apply not_elem_of_nil).
  by rewrite app_nil_r, rev_involutive.
Qed.

Lemma join_head l : l ≠ [] → good l → has_prefix "/" (join "/" l) = false ∧ join "/" l ≠ "".
Proof.
  intros Hne Hl. destruct Hl as [|p l [Hp Hs] Hl]; [done|]. destruct p as [|c p]; [done|].
  assert (c ≠ slash) as Hc.
  { simpl in Hs. apply andb_true_iff in Hs as [Hs _]. by apply negb_true_iff, bool_decide_eq_false in Hs. }
  unfold has_prefix. assert (∃ t, join "/" (String c p :: l) = String c t) as [t ->]
    by (destruct l; by eexists).
  split; [|done]. cbn [String.prefix]. destruct (ascii_dec "/" c) as [E|_]; [by destruct Hc|done].
Qed.

Lemma Clean_good l : l ≠ [] → good l → Clean (join "/" l) = join "/" l.
Proof.
  intros Hne Hl. destruct (join_head l) as [Hr _]; [done..|].
  rewrite Clean_relative by (try done; rewrite parts_join by done; by apply good_no_dots).
  rewrite parts_join, good_filter by done. simpl. by rewrite bool_decide_eq_false_2.
Qed.

Lemma Join_good l k : good l → l ≠ [] → good k → k ≠ [] → Join (join "/" l) (join "/" k) = join "/" (l ++ k).
Proof.
  intros Hl Nl Hk Nk. unfold Join. destruct (join_head l) as [_ H1], (join_head k) as [_ H2]; [done..|].
  rewrite !bool_decide_eq_false_2 by done. simpl. rewrite <- join_app_sep by done. apply Clean_good; [|by apply good_app].
  by destruct l.
Qed.

Lemma Join_empty k : good k → k ≠ [] → Join "" (join "/" k) = join "/" k.
Proof.
  intros Hk Nk. unfold Join. destruct (join_head k) as [_ H]; [done..|]. rewrite bool_decide_eq_true_2, bool_decide_eq_false_2 by done.
  by apply Clean_good.
Qed.

Lemma Join_nothing l : good l → l ≠ [] → Join (join "/" l) "" = join "/" l.
Proof.
  intros Hl Nl. unfold Join. destruct (join_head l) as [Hr He]; [done..|].
  rewrite bool_decide_eq_false_2 by done. simpl.
  assert (parts (join "/" l +:+ "/" +:+ "") = l ++ [""]) as Hp.
  { change ("/" +:+ "") with (String slash ""). rewrite split_app_sep, parts_join by done. done. }
  rewrite Clean_relative; rewrite ?Hp.
  - rewrite filter_app, good_filter by done. simpl. rewrite app_nil_r. by rewrite bool_decide_eq_false_2.
  - destruct (join "/" l) as [|c t]; [done|]. change (String c t +:+ "/" +:+ "") with (String c (t +:+ "/" +:+ "")).
    unfold has_prefix in *. cbn [String.prefix] in *. destruct (ascii_dec "/" c); [|done]. by destruct t.
  - rewrite elem_of_app. intros [H|H%list_elem_of_singleton]; [by apply (good_no_dots l)|done].
Qed.

(** The name of the directory a list of components stands for. *)
Definition dir_name (l : list string) : string := if bool_decide (l = []) then "." else join "/" l.
Definition dir_parts (name : string) : list string := if bool_decide (name = ".") then [] else parts name.

Lemma good_not_dot l : l ≠ [] → good l → join "/" l ≠ ".".
Proof.
  intros Hne Hl E. assert (l = ["."]) as -> by (rewrite <- (parts_join l) by done; by rewrite E).
  apply Forall_singleton in Hl as [H _]. done.
Qed.
Lemma dir_parts_name l : good l → dir_parts (dir_name l) = l.
Proof.
  intros Hl. unfold dir_parts, dir_name. destruct (bool_decide_reflect (l = [])) as [->|Hne]; [done|].
  rewrite bool_decide_eq_false_2 by (by apply good_not_dot). by apply parts_join.
Qed.

Lemma Dir_good l : l ≠ [] → good l → Dir (join "/" l) = dir_name (removelast l).
Proof.
  intros Hne Hl. unfold Dir. rewrite parts_join by done. unfold dir_name.
  destruct (removelast l) as [|p k] eqn:E; [done|]. rewrite bool_decide_eq_false_2 by done.
  assert (good (p :: k)) as Hk.
  { rewrite (app_removelast_last "" Hne) in Hl. rewrite E in Hl. by apply good_app in Hl as [? _]. }
  pose proof (Join_nothing (p :: k) Hk ltac:(done)) as J. unfold Join in J. destruct (join_head (p :: k)) as [_ H]; [done..|].
  by rewrite (bool_decide_eq_false_2 (join _ _ = "")) in J by done.
Qed.
