(* ===== verification/Bundle.v ===== *)
(** * Definition bundles

    [internal/definitions/bundle.go]: the files of a definition set.  A bundle is
    read from a directory, checked, and served to the compiler as an in-memory
    file system, which records the files the compiler reads.

    Go's map iteration order is unspecified: which of several errors
    [validateBundle] reports depends on it, whether it reports one does not. *)
From S2P Require Import Prelude GoText CallBinding GoPath.
From Stdlib Require Import Ascii.

Definition BundleConfig : string := "journeys.yaml".
Definition MaxBundleFiles : Z := 512.
Definition MaxBundleBytes : Z := 16 * 2 ^ 20.
Definition MaxBundleFileBytes : Z := 2 ^ 20.

Abbreviation Bundle := (gmap string string).

Inductive bundle_error :=
| BTooManyFiles | BInvalidPath | BFileBytes | BTotalBytes | BFileAndDir | BNoConfig
| BSymlink | BUnsupported | BReadDir | BReadFile
| BAbsolute | BParent | BEscapes | BInvalid | BNotExist | BNotRegular
| BFuel.

(** ** Checking a bundle *)

(** The loop over the directories above a file; the fuel is the number of the
    name's components. *)
Fixpoint dir_clash (fuel : nat) (b : Bundle) (dir : string) : bool :=
  match fuel with
  | O => false
  | S fuel =>
      if bool_decide (dir = ".") then false
      else if bool_decide (is_Some (b !! dir)) then true
      else dir_clash fuel b (Dir dir)
  end.

Fixpoint validate_files (b : Bundle) (total : Z) (files : list (string * string)) : result bundle_error unit :=
  match files with
  | [] => Ok tt
  | (name, data) :: files =>
      ensure (negb (bool_decide (name = ".")) && ValidPath name) BInvalidPath;;
      ensure (slen data <=? MaxBundleFileBytes) BFileBytes;;
      let total := total + slen data in
      ensure (total <=? MaxBundleBytes) BTotalBytes;;
      ensure (negb (dir_clash (length (parts name)) b (Dir name))) BFileAndDir;;
      validate_files b total files
  end.

Definition validateBundle (b : Bundle) : result bundle_error unit :=
  ensure (Z.of_nat (size b) <=? MaxBundleFiles) BTooManyFiles;;
  validate_files b 0 (map_to_list b).

(** ** The in-memory file system *)

Record memInfo := mk_memInfo { mi_name : string; mi_size : Z; mi_dir : bool }.
Inductive memFile := MemFile (data : string) | MemDir.

(** What one file of the bundle is below a directory. *)
Definition child (prefix key data : string) : option memInfo :=
  rest ← cut_prefix prefix key;
  Some (match cut slash rest with
        | Some (name, _) => mk_memInfo name 0 true
        | None => mk_memInfo rest (slen data) false
        end).
Definition children (prefix : string) (l : list (string * string)) : gmap string memInfo :=
  foldr (λ '(key, data) seen,
    match child prefix key data with Some i => <[i.(mi_name) := i]> seen | None => seen end) ∅ l.

Definition ReadDir (b : Bundle) (name : string) : result bundle_error (list memInfo) :=
  let seen := children (if bool_decide (name = ".") then "" else name +:+ "/") (map_to_list b) in
  if bool_decide (seen = ∅) && negb (bool_decide (name = ".")) then Err BNotExist
  else Ok (omap (M := list) (λ k, seen !! k) (sort_strings (elements (dom seen)))).

Definition Open (b : Bundle) (name : string) : result bundle_error memFile :=
  ensure (ValidPath name) BInvalid;;
  match b !! name with
  | Some data => Ok (MemFile data)
  | None => _ ← ReadDir b name; Ok MemDir
  end.

(** ** The compiler's view *)

(** The walk of [confine]; the in-memory file system has no symbolic links. *)
Fixpoint lstat_walk (b : Bundle) (current : string) (l : list string) : result bundle_error unit :=
  match l with
  | [] => Ok tt
  | part :: l =>
      let current := Join current part in
      _ ← Open b current;
      lstat_walk b current l
  end.

Definition confine (b : Bundle) (base relative : string) : result bundle_error string :=
  ensure (negb (has_prefix "/" relative)) BAbsolute;;
  ensure (negb (contains ".." (split slash relative))) BParent;;
  let clean := Clean relative in
  ensure (negb (bool_decide (clean = "..") || has_prefix "../" clean)) BEscapes;;
  let full := Join base clean in
  lstat_walk b base (split slash clean);;
  Ok full.

Definition readFS (b : Bundle) (name : string) (limit : Z) : result bundle_error string :=
  file ← Open b name;
  match file with
  | MemFile data => ensure (slen data <=? limit) BNotRegular;; Ok data
  | MemDir => Err BNotRegular
  end.

(** [source.read]: the files read so far are the second component. *)
Definition read (b : Bundle) (name : string) (limit : Z) (reads : Bundle) : result bundle_error (string * Bundle) :=
  data ← readFS b name limit;
  Ok (data, <[name := data]> reads).

Definition source_bundle (reads : Bundle) (config : string) : Bundle := <[BundleConfig := config]> reads.

(** ** Reading a directory *)

Inductive fileType := TFile | TDir | TSymlink | TOther.

(** The host's file system, as far as it is asked. *)
Record hostFile := mk_hostFile { hf_regular : bool; hf_size : Z; hf_data : option string }.
Record hostFS := mk_hostFS {
  h_readdir : string → option (list (string * fileType));
  h_open : string → option (option hostFile);
}.

Record bundleReader := mk_bundleReader { br_out : Bundle; br_total : Z; br_entries : Z }.

Section host.
Context (fsys : hostFS).

Definition read_file (full : string) (r : bundleReader) : result bundle_error bundleReader :=
  ensure (Z.of_nat (size r.(br_out)) <? MaxBundleFiles) BTooManyFiles;;
  match fsys.(h_open) full with
  | Some (Some f) =>
      ensure f.(hf_regular) BUnsupported;;
      ensure (f.(hf_size) <=? MaxBundleFileBytes) BFileBytes;;
      let total := r.(br_total) + f.(hf_size) in
      ensure (total <=? MaxBundleBytes) BTotalBytes;;
      match f.(hf_data) with
      | Some data =>
          ensure (slen data <=? MaxBundleFileBytes) BFileBytes;;
          Ok (mk_bundleReader (<[full := data]> r.(br_out)) total r.(br_entries))
      | None => Err BReadFile
      end
  | _ => Err BReadFile
  end.

Section entries.
Context (walk : string → bundleReader → result bundle_error bundleReader) (dir : string).
Fixpoint walk_entries (l : list (string * fileType)) (r : bundleReader) : result bundle_error bundleReader :=
  match l with
  | [] => Ok r
  | (name, typ) :: l =>
      if has_prefix "." name then walk_entries l r
      else
        let r := mk_bundleReader r.(br_out) r.(br_total) (r.(br_entries) + 1) in
        ensure (r.(br_entries) <=? 2 * MaxBundleFiles) BTooManyFiles;;
        let full := Join dir name in
        r ← (match typ with
             | TSymlink => Err BSymlink
             | TDir => walk full r
             | TFile => read_file full r
             | TOther => Err BUnsupported
             end);
        walk_entries l r
  end.
End entries.

Fixpoint walk (fuel : nat) (dir : string) (r : bundleReader) : result bundle_error bundleReader :=
  match fuel with
  | O => Err BFuel
  | S fuel =>
      match fsys.(h_readdir) dir with
      | None => Err BReadDir
      | Some entries => walk_entries (walk fuel) dir entries r
      end
  end.

(** A directory is entered only after its entry was counted, so the limit on
    entries also limits the depth. *)
Definition walk_fuel : nat := Z.to_nat (2 * MaxBundleFiles + 1).

Definition ReadBundle : result bundle_error Bundle :=
  r ← walk walk_fuel "." (mk_bundleReader ∅ 0 0);
  ensure (bool_decide (is_Some (r.(br_out) !! BundleConfig))) BNoConfig;;
  Ok r.(br_out).
End host.
