(* ===== verification/BundleSpec.v ===== *)
(** * What a checked bundle is

    The meaning of [validateBundle], of the in-memory file system over a checked
    bundle, and of [confine], in terms of the components of file names. *)
From S2P Require Import Prelude GoText CallBinding GoPath Bundle.
From Stdlib Require Import Ascii.

(** ** Checked bundles *)

Definition clash_free (b : Bundle) (key : string) : Prop :=
  ∀ k r, parts key = k ++ r → k ≠ [] → r ≠ [] → b !! join "/" k = None.
Definition file_ok (b : Bundle) (key data : string) : Prop :=
  key ≠ "." ∧ ValidPath key = true ∧ slen data <= MaxBundleFileBytes ∧ clash_free b key.
Definition total_bytes (l : list (string * string)) : Z := foldr (λ f n, slen f.2 + n) 0 l.
Definition bundle_ok (b : Bundle) : Prop :=
  Z.of_nat (size b) <= MaxBundleFiles ∧ total_bytes (map_to_list b) <= MaxBundleBytes ∧
  ∀ key data, b !! key = Some data → file_ok b key data.

Lemma valid_good name : ValidPath name = true → name ≠ "." → good (parts name).
Proof.
  unfold ValidPath. intros [_ H]%andb_true_iff Hn. rewrite bool_decide_eq_false_2 in H by done.
  cbn [orb] in H. apply Is_true_true, forallb_True in H. apply Forall_forall. intros p Hp. split.
  - apply Is_true_true. exact (proj1 (Forall_forall _ _) H p Hp).
  - exact (proj1 (Forall_forall _ _) (split_parts_lack slash name) p Hp).
Qed.

Lemma removelast_snoc {A} (l : list A) x : removelast (l ++ [x]) = l.
Proof. apply removelast_last. Qed.

Lemma dir_clash_spec b n k : good k → (length k <= n)%nat →
  dir_clash n b (dir_name k) = false ↔ ∀ k' r, k = k' ++ r → k' ≠ [] → b !! join "/" k' = None.
Proof.
  revert k. induction n as [|n IH]; intros k Hk Hn.
  - destruct k; [|simpl in Hn; lia]. simpl. split; [|done]. intros _ [] r E; by simpl in E.
  - simpl. destruct (decide (k = [])) as [->|Hne].
    + unfold dir_name. simpl. split; [|done]. intros _ [] r E; by simpl in E.
    + assert (dir_name k = join "/" k) as Ek by (unfold dir_name; by rewrite bool_decide_eq_false_2).
      rewrite Ek, (bool_decide_eq_false_2 (join _ _ = ".")), Dir_good by (by try apply good_not_dot).
      destruct (exists_last Hne) as (k0 & x & ->). rewrite removelast_snoc.
      apply good_app in Hk as [Hk0 _]. rewrite length_app in Hn. simpl in Hn.
      case_bool_decide as Hb.
      * split; [done|]. intros H. rewrite (H (k0 ++ [x]) []) in Hb by (by rewrite ?app_nil_r). by destruct Hb.
      * rewrite IH by (done || lia). split.
        -- intros H k' r E Hk'. destruct r as [|y r _] using rev_ind.
           ++ rewrite app_nil_r in E. subst k'. apply eq_None_not_Some. exact Hb.
           ++ rewrite app_assoc in E. apply app_inj_tail in E as [-> _]. by eapply H.
        -- intros H k' r -> Hk'. apply (H k' (r ++ [x])); [by rewrite app_assoc|done].
Qed.

Lemma dir_clash_key b key : good (parts key) →
  dir_clash (length (parts key)) b (Dir key) = false ↔ clash_free b key.
Proof.
  intros Hg. pose proof (split_not_nil slash key) as Hne.
  assert (Dir key = dir_name (removelast (parts key))) as -> by (rewrite <- (join_split slash key) at 1; by apply Dir_good).
  unfold clash_free. destruct (exists_last Hne) as (k & x & E). rewrite E, removelast_snoc in *.
  apply good_app in Hg as [Hk _]. rewrite dir_clash_spec by (done || rewrite length_app; lia). split.
  - intros H k' r E' Hk' Hr. destruct (exists_last Hr) as (r' & y & ->). rewrite app_assoc in E'.
    apply app_inj_tail in E' as [-> _]. by eapply H.
  - intros H k' r -> Hk'. apply (H k' (r ++ [x])); [by rewrite app_assoc|done|by destruct r].
Qed.

Lemma slen_nonneg s : 0 <= slen s.
Proof. unfold slen. lia. Qed.
Lemma total_nonneg l : 0 <= total_bytes l.
Proof. induction l as [|f l IH]; simpl; [lia|]. pose proof (slen_nonneg f.2). lia. Qed.

Lemma validate_files_ok b total l : validate_files b total l = Ok tt ↔
  Forall (λ f, file_ok b f.1 f.2) l ∧ (l = [] ∨ total + total_bytes l <= MaxBundleBytes).
Proof.
  revert total. induction l as [|[key data] l IH]; intros total; simpl; [split; [by repeat constructor|done]|].
  rewrite Forall_cons. simpl. unfold file_ok at 1.
  rewrite !ensure_bind, IH, andb_true_iff, !negb_true_iff, bool_decide_eq_false, !Z.leb_le.
  pose proof (total_nonneg l) as Hl. split.
  - intros ([H0 H1] & H2 & H3 & H4 & H5 & H6). apply dir_clash_key in H4; [|by apply valid_good].
    split_and!; [done..|]. right. destruct H6 as [->|H6]; simpl; lia.
  - intros [[(H1 & H2 & H3 & H4) H5] H6]. destruct H6 as [H6|H6]; [done|].
    split_and!; [done|done|done|lia| |done|right; lia]. apply dir_clash_key; [by apply valid_good|done].
Qed.

Lemma validateBundle_ok b : validateBundle b = Ok tt ↔ bundle_ok b.
Proof.
  unfold validateBundle, bundle_ok. rewrite ensure_bind, validate_files_ok, Z.leb_le. split.
  - intros (H1 & H2 & H3). split_and!; [lia| |].
    + destruct H3 as [->|H3]; [by vm_compute|lia].
    + intros key data Hk. apply elem_of_map_to_list in Hk. exact (proj1 (Forall_forall _ _) H2 _ Hk).
  - intros (H1 & H2 & H3). split_and!; [lia| |right; lia].
    apply Forall_forall. intros [key data] Hk%elem_of_map_to_list. by apply H3.
Qed.

Lemma total_submseteq l l' : l ⊆+ l' → total_bytes l <= total_bytes l'.
Proof.
  induction 1 as [|f l l' _ IH|f g l|f l l' _ IH|l1 l2 l3 _ IH1 _ IH2]; simpl; try lia.
  pose proof (slen_nonneg f.2). lia.
Qed.

(** A part of a checked bundle is a checked bundle. *)
Lemma bundle_ok_sub b b' : bundle_ok b → b' ⊆ b → bundle_ok b'.
Proof.
  intros (H1 & H2 & H3) Hs. split_and!.
  - pose proof (map_subseteq_size _ _ Hs). lia.
  - pose proof (total_submseteq _ _ (map_to_list_submseteq _ _ Hs)). lia.
  - intros key data Hk. pose proof (lookup_weaken _ _ _ _ Hk Hs) as Hk'. destruct (H3 _ _ Hk') as (? & ? & ? & Hc).
    split_and!; [done..|]. intros k r E Hkn Hr. specialize (Hc k r E Hkn Hr).
    destruct (b' !! join "/" k) as [d|] eqn:E'; [|done]. pose proof (lookup_weaken _ _ _ _ E' Hs). congruence.
Qed.

Lemma bundle_ok_key b key data : bundle_ok b → b !! key = Some data → good (parts key) ∧ clash_free b key.
Proof. intros (_ & _ & H) Hk. destruct (H _ _ Hk) as (Hn & Hv & _ & Hc). split; [by apply valid_good|done]. Qed.

(** ** The in-memory file system *)

Lemma cut_split s : cut slash s = match split slash s with
  | [] | [_] => None | p :: l => Some (p, join "/" l) end.
Proof.
  induction s as [|c s IH]; [done|]. simpl. pose proof (split_not_nil slash s) as Hne.
  case_decide as Hc.
  - destruct (split slash s) as [|p l] eqn:E; [done|]. f_equal. f_equal. rewrite <- E. symmetry. apply join_split.
  - rewrite IH. by destruct (split slash s) as [|p [|q l]].
Qed.

(** The prefix [ReadDir] cuts for a directory. *)
Definition dir_prefix (d : list string) : string := if bool_decide (d = []) then "" else join "/" d +:+ "/".

Lemma dir_prefix_name d : good d →
  (if bool_decide (dir_name d = ".") then "" else dir_name d +:+ "/") = dir_prefix d.
Proof.
  intros Hd. unfold dir_prefix, dir_name. destruct (bool_decide_reflect (d = [])) as [->|Hne]; [done|].
  by rewrite bool_decide_eq_false_2 by (by apply good_not_dot).
Qed.

Lemma parts_prefix d rest : good d → parts (dir_prefix d +:+ rest) = d ++ parts rest.
Proof.
  intros Hd. unfold dir_prefix. destruct (bool_decide_reflect (d = [])) as [->|Hne]; [done|].
  rewrite append_assoc. change ("/" +:+ rest) with (String slash rest). by rewrite split_app_sep, parts_join.
Qed.

Definition entry (c : string) (r : list string) (data : string) : memInfo :=
  match r with [] => mk_memInfo c (slen data) false | _ => mk_memInfo c 0 true end.

Lemma child_Some d key data i : good d →
  child (dir_prefix d) key data = Some i ↔ ∃ c r, parts key = d ++ c :: r ∧ i = entry c r data.
Proof.
  intros Hd. unfold child. rewrite bind_Some. setoid_rewrite cut_prefix_Some. split.
  - intros (rest & -> & [= <-]). rewrite parts_prefix, cut_split by done.
    pose proof (split_not_nil slash rest) as Hne. pose proof (join_split slash rest) as Hj.
    destruct (split slash rest) as [|c [|c' r]]; [done|exists c, []|by exists c, (c' :: r)].
    split; [done|]. cbn in Hj. by subst c.
  - intros (c & r & E & ->). exists (join "/" (c :: r)).
    assert (key = dir_prefix d +:+ join "/" (c :: r)) as E'.
    { apply parts_inj. rewrite parts_prefix, E by done. f_equal. symmetry. apply split_join; [done|].
      pose proof (split_parts_lack slash key) as Hl. rewrite E in Hl. by apply Forall_app in Hl as [_ Hl]. }
    split; [done|]. f_equal. rewrite cut_split. rewrite E', parts_prefix in E by done. apply app_inv_head in E.
    rewrite E. by destruct r.
Qed.

Lemma entry_name c r data : (entry c r data).(mi_name) = c.
Proof. by destruct r. Qed.

Lemma children_Some p l c i : children p l !! c = Some i →
  ∃ key data, (key, data) ∈ l ∧ child p key data = Some i ∧ i.(mi_name) = c.
Proof.
  induction l as [|[key data] l IH]; simpl; [by rewrite lookup_empty|]. intros H.
  assert (children p l !! c = Some i → ∃ key0 data0, (key0, data0) ∈ (key, data) :: l ∧ child p key0 data0 = Some i ∧ i.(mi_name) = c) as Hr.
  { intros Hc. destruct (IH Hc) as (k & d & Hin & ?). exists k, d. split; [by right|done]. }
  destruct (child p key data) as [i'|] eqn:Ec; [|by apply Hr].
  apply lookup_insert_Some in H as [[<- <-]|[_ H]]; [|by apply Hr]. exists key, data. split; [by left|done].
Qed.

Lemma children_is_Some p l key data i : (key, data) ∈ l → child p key data = Some i →
  is_Some (children p l !! i.(mi_name)).
Proof.
  induction l as [|[k d] l IH]; intros Hin Hc; [by apply elem_of_nil in Hin|]. simpl.
  apply elem_of_cons in Hin as [[= <- <-]|Hin].
  - rewrite Hc. rewrite lookup_insert_eq. by eexists.
  - specialize (IH Hin Hc). destruct (child p k d) as [i'|]; [|done].
    destruct (decide (mi_name i' = mi_name i)) as [->|]; [by rewrite lookup_insert_eq|by rewrite lookup_insert_ne].
Qed.

(** What a directory of a checked bundle holds. *)
Definition below (b : Bundle) (l : list string) : Prop := ∃ key data, b !! key = Some data ∧ ∃ r, parts key = l ++ r.
Definition listed (b : Bundle) (d : list string) (i : memInfo) : Prop :=
  ∃ key data c r, b !! key = Some data ∧ parts key = d ++ c :: r ∧ i = entry c r data.

Lemma listed_unique b d i i' : bundle_ok b → listed b d i → listed b d i' → i.(mi_name) = i'.(mi_name) → i = i'.
Proof.
  intros Hb (k & da & c & r & Hk & E & ->) (k' & da' & c' & r' & Hk' & E' & ->). rewrite !entry_name. intros <-.
  destruct (bundle_ok_key _ _ _ Hb Hk) as [Hg Hc], (bundle_ok_key _ _ _ Hb Hk') as [Hg' Hc'].
  assert (∀ l, parts k = l → k = join "/" l) as Hj by (intros l <-; symmetry; apply join_split).
  assert (∀ l, parts k' = l → k' = join "/" l) as Hj' by (intros l <-; symmetry; apply join_split).
  destruct r as [|x r], r' as [|x' r']; [|exfalso..|done].
  - assert (k = k') as -> by (rewrite (Hj _ E), (Hj' _ E'); done). congruence.
  - pose proof (Hc' (d ++ [c]) (x' :: r')) as H. rewrite <- app_assoc in H. specialize (H E').
    rewrite <- (Hj _ E) in H. rewrite H in Hk; [done|by destruct d|done].
  - pose proof (Hc (d ++ [c]) (x :: r)) as H. rewrite <- app_assoc in H. specialize (H E).
    rewrite <- (Hj' _ E') in H. rewrite H in Hk'; [done|by destruct d|done].
Qed.

Lemma children_spec b d c i : bundle_ok b → good d →
  children (dir_prefix d) (map_to_list b) !! c = Some i ↔ listed b d i ∧ i.(mi_name) = c.
Proof.
  intros Hb Hd. split.
  - intros (k & data & Hin%elem_of_map_to_list & Hc & Hn)%children_Some. split; [|done].
    apply child_Some in Hc as (c' & r & E & ->); [|done]. by exists k, data, c', r.
  - intros [Hl <-]. pose proof Hl as (k & data & c' & r & Hk & E & Ei).
    apply elem_of_map_to_list in Hk.
    destruct (children_is_Some (dir_prefix d) _ _ _ i Hk) as [i' Hi'].
    { apply child_Some; [done|]. by exists c', r. }
    rewrite Hi'. f_equal. apply children_Some in Hi' as (k2 & d2 & Hin%elem_of_map_to_list & Hc & Hn).
    apply child_Some in Hc as (c2 & r2 & E2 & E3); [|done].
    apply (listed_unique b d); [done| |done|done]. by exists k2, d2, c2, r2.
Qed.

Lemma omap_names (m : gmap string memInfo) ks : (∀ k, k ∈ ks → ∃ i, m !! k = Some i ∧ i.(mi_name) = k) →
  mi_name <$> omap (M := list) (λ k, m !! k) ks = ks.
Proof.
  induction ks as [|k ks IH]; intros H; [done|]. simpl. destruct (H k) as (i & -> & Hi); [by left|]. simpl. rewrite Hi. f_equal.
  apply IH. intros k' Hk'. apply H. by right.
Qed.

Lemma ReadDir_ok b d : bundle_ok b → good d → d = [] ∨ (∃ i, listed b d i) →
  ∃ l, ReadDir b (dir_name d) = Ok l ∧ NoDup (mi_name <$> l) ∧ ∀ i, i ∈ l ↔ listed b d i.
Proof.
  intros Hb Hd Hl. unfold ReadDir. rewrite dir_prefix_name by done.
  pose proof (λ c i, children_spec b d c i Hb Hd) as Hs. set (seen := children _ _) in *.
  assert (bool_decide (seen = ∅) && negb (bool_decide (dir_name d = ".")) = false) as ->.
  { destruct Hl as [->|[i Hi]]; [by rewrite andb_false_r|].
    rewrite bool_decide_eq_false_2; [done|]. intros E. assert (seen !! i.(mi_name) = Some i) as H by (by apply Hs).
    by rewrite E, lookup_empty in H. }
  eexists. split; [done|].
  assert (∀ k, k ∈ sort_strings (elements (dom seen)) → ∃ i, seen !! k = Some i ∧ i.(mi_name) = k) as Hk.
  { intros k. rewrite elem_of_sort_strings, elem_of_elements, elem_of_dom. intros [i Hi]. exists i. split; [done|].
    by apply Hs in Hi as [_ ?]. }
  split.
  - rewrite omap_names by done. rewrite sort_strings_perm. apply NoDup_elements.
  - intros i. rewrite list_elem_of_omap. split.
    + intros (k & _ & Hi). by apply Hs in Hi as [? _].
    + intros Hi. exists i.(mi_name). assert (seen !! i.(mi_name) = Some i) as H by (by apply Hs).
      split; [|done]. rewrite elem_of_sort_strings, elem_of_elements, elem_of_dom. by eexists.
Qed.

Lemma ReadDir_inv b d l : bundle_ok b → good d → ReadDir b (dir_name d) = Ok l → d = [] ∨ ∃ i, listed b d i.
Proof.
  intros Hb Hd. unfold ReadDir. rewrite dir_prefix_name by done.
  pose proof (λ c i, children_spec b d c i Hb Hd) as Hs. set (seen := children _ _) in *.
  destruct (decide (d = [])) as [->|Hne]; [by left|]. rewrite (bool_decide_eq_false_2 (dir_name d = ".")).
  2: { unfold dir_name. rewrite bool_decide_eq_false_2 by done. by apply good_not_dot. }
  destruct (decide (seen = ∅)) as [->|Hs']; [done|]. intros _. right.
  apply map_choose in Hs' as (c & i & Hi). exists i. by apply Hs in Hi as [? _].
Qed.

Lemma below_listed b l r key data x : b !! key = Some data → parts key = l ++ x :: r → listed b l (entry x r data).
Proof. intros H E. by exists key, data, x, r. Qed.

(** A name above a file of the bundle can be opened. *)
Lemma Open_below b l : bundle_ok b → l ≠ [] → good l → ValidPath (join "/" l) = true → below b l →
  ∃ f, Open b (join "/" l) = Ok f.
Proof.
  intros Hb Hne Hl Hv (key & data & Hk & r & E). unfold Open. rewrite Hv. simpl.
  destruct (b !! join "/" l) as [d|] eqn:Ej; [by eexists|]. destruct r as [|x r].
  - rewrite app_nil_r in E. rewrite <- E, join_split in Ej. congruence.
  - destruct (ReadDir_ok b l Hb Hl) as (es & He & _); [right; eexists; by eapply below_listed|].
    unfold dir_name in He. rewrite bool_decide_eq_false_2 in He by done. rewrite He. by eexists.
Qed.

Lemma Open_valid b name f : Open b name = Ok f → ValidPath name = true.
Proof. unfold Open. by intros [? _]%ensure_bind. Qed.

Lemma Open_root b : bundle_ok b → Open b "." = Ok MemDir.
Proof.
  intros Hb. unfold Open. change (ValidPath ".") with true. cbn.
  destruct (b !! ".") as [d|] eqn:E; [destruct Hb as (_ & _ & H); by destruct (H _ _ E)|].
  destruct (ReadDir_ok b [] Hb) as (l & Hl & _); [constructor|by left|]. unfold dir_name in Hl. simpl in Hl. by rewrite Hl.
Qed.

Lemma Open_dir b l : bundle_ok b → l ≠ [] → good l →
  Open b (join "/" l) = Ok MemDir → b !! join "/" l = None ∧ ∃ i, listed b l i.
Proof.
  intros Hb Hne Hl. unfold Open. intros [_ H]%ensure_bind. destruct (b !! join "/" l) as [d|]; [done|].
  split; [done|]. apply bind_ok in H as (es & H & _).
  assert (dir_name l = join "/" l) as E by (unfold dir_name; by rewrite bool_decide_eq_false_2).
  rewrite <- E in H. apply ReadDir_inv in H as [->|?]; [done..|done|done].
Qed.

Lemma Open_file b name data : Open b name = Ok (MemFile data) ↔ ValidPath name = true ∧ b !! name = Some data.
Proof.
  unfold Open. rewrite ensure_bind. apply and_iff_compat_l. destruct (b !! name) as [d|].
  - split; by intros [= ->].
  - split; [|done]. by destruct (ReadDir b name).
Qed.

Lemma readFS_ok b name limit data : readFS b name limit = Ok data ↔
  ValidPath name = true ∧ b !! name = Some data ∧ slen data <= limit.
Proof.
  unfold readFS. rewrite bind_ok. split.
  - intros ([d|] & Ho & H); [|done]. apply ensure_bind in H as [H [= ->]]. apply Open_file in Ho as [? ?]. split_and!; [done|done|lia].
  - intros (Hv & Hb & Hs). exists (MemFile data). split; [by apply Open_file|]. apply ensure_bind. split; [lia|done].
Qed.

(** ** Confined paths *)

Lemma Join_parts bp k : good bp → good k → k ≠ [] → Join (join "/" bp) (join "/" k) = join "/" (bp ++ k).
Proof.
  intros Hb Hk Hn. destruct (decide (bp = [])) as [->|]; [by apply Join_empty|]. by apply Join_good.
Qed.

Lemma lstat_walk_ok b bp l : good bp → good l →
  lstat_walk b (join "/" bp) l = Ok tt ↔
  ∀ k r, l = k ++ r → k ≠ [] → ∃ f, Open b (join "/" (bp ++ k)) = Ok f.
Proof.
  revert bp. induction l as [|p l IH]; intros bp Hb Hl; simpl.
  - split; [|done]. intros _ [] r E Hk; by simpl in E.
  - apply Forall_cons in Hl as [Hp Hl]. assert (good [p]) as Hp1 by (by apply Forall_singleton).
    assert (Join (join "/" bp) p = join "/" (bp ++ [p])) as -> by exact (Join_parts bp [p] Hb Hp1 ltac:(done)).
    rewrite bind_ok. split.
    + intros (f & Ho & H) k r E Hk. destruct k as [|q k]; [done|]. injection E as <- ->.
      destruct k as [|q k]; [by exists f|]. rewrite cons_middle, app_assoc.
      by apply (proj1 (IH (bp ++ [p]) ltac:(by apply good_app) Hl) H (q :: k) r).
    + intros H. destruct (H [p] l) as [f Hf]; [done..|]. exists f. split; [done|].
      apply (IH (bp ++ [p])); [by apply good_app|done|]. intros k r -> Hk. destruct (H (p :: k) r) as [f' Hf']; [done..|].
      exists f'. by rewrite <- app_assoc.
Qed.

(** The components of a confined relative path. *)
Definition rel_parts (relative : string) : list string := filter (λ p, kept_part p = true) (parts relative).
Definition confined (relative : string) : bool :=
  negb (has_prefix "/" relative) && negb (contains ".." (split slash relative)).

Lemma rel_parts_good relative : confined relative = true → good (rel_parts relative).
Proof.
  unfold confined. rewrite andb_true_iff, !negb_true_iff, contains_false. intros [_ H]. by apply good_kept.
Qed.

Lemma Clean_confined relative : confined relative = true →
  Clean relative = dir_name (rel_parts relative).
Proof.
  unfold confined. rewrite andb_true_iff, !negb_true_iff, contains_false. intros [Hr Hd]. by rewrite Clean_relative.
Qed.

Lemma escapes_good l : l ≠ [] → good l → bool_decide (join "/" l = "..") || has_prefix "../" (join "/" l) = false.
Proof.
  intros Hne Hl. assert (∀ t, join "/" l ≠ ".." +:+ t ∨ (t ≠ "" ∧ has_prefix "/" t = false)) as H.
  { intros t. destruct (decide (join "/" l = ".." +:+ t)) as [E|]; [|by left]. right.
    destruct t as [|c t].
    - exfalso. assert (l = [".."]) as -> by (rewrite <- (parts_join l) by done; by rewrite E).
      by apply (good_no_dots [".."]); [|left].
    - split; [done|]. unfold has_prefix. cbn [String.prefix]. destruct (ascii_dec "/" c) as [<-|]; [exfalso|done].
      assert (parts (join "/" l) = ".." :: parts t) as Hp by (rewrite E; apply (split_app_sep slash ".." t)).
      rewrite parts_join in Hp by done. subst l. by apply (good_no_dots _ Hl); left. }
  apply orb_false_iff. split.
  - apply bool_decide_eq_false. intros E. destruct (H "") as [H'|[H' _]]; [|done]. by rewrite E in H'.
  - destruct (has_prefix "../" (join "/" l)) eqn:E; [|done]. apply has_prefix_split in E.
    set (t := drop_bytes _ _) in E. destruct (H ("/" +:+ t)) as [H'|[_ H']]; [by destruct H'|].
    by rewrite has_prefix_app in H'.
Qed.

Lemma confine_ok b bp relative full : good bp → rel_parts relative ≠ [] →
  confine b (join "/" bp) relative = Ok full ↔
  confined relative = true ∧ full = join "/" (bp ++ rel_parts relative) ∧
  ∀ k r, rel_parts relative = k ++ r → k ≠ [] → ∃ f, Open b (join "/" (bp ++ k)) = Ok f.
Proof.
  intros Hb Hne. unfold confine. rewrite !ensure_bind. unfold confined. rewrite (andb_true_iff (negb _)).
  split.
  - intros (H1 & H2 & _ & H3). assert (confined relative = true) as Hc by (unfold confined; by rewrite H1, H2).
    pose proof (rel_parts_good _ Hc) as Hg. rewrite Clean_confined in H3 by done. unfold dir_name in H3.
    rewrite (bool_decide_eq_false_2 (rel_parts relative = [])), parts_join, Join_parts in H3 by done. apply bind_ok in H3 as ([] & Hw & [= <-]).
    split_and!; [done..|]. by apply lstat_walk_ok.
  - intros ((H1 & H2) & -> & H3). assert (confined relative = true) as Hc by (unfold confined; by rewrite H1, H2).
    pose proof (rel_parts_good _ Hc) as Hg. rewrite Clean_confined by done. unfold dir_name.
    rewrite (bool_decide_eq_false_2 (rel_parts relative = [])), escapes_good, parts_join, Join_parts by done. split_and!; [done..|].
    apply bind_ok. exists tt. split; [|done]. by apply lstat_walk_ok.
Qed.

(** Confining a path gives the same name in any bundle with a file there or
    below. *)
Lemma confine_transfer b b' bp relative full : bundle_ok b' → good bp → rel_parts relative ≠ [] →
  confine b (join "/" bp) relative = Ok full → below b' (bp ++ rel_parts relative) →
  confine b' (join "/" bp) relative = Ok full.
Proof.
  intros Hb' Hbp Hne H (key & data & Hk & r & E). apply confine_ok in H as (Hc & Hf & Ho); [|done..].
  apply confine_ok; [done..|]. split_and!; [done..|]. intros k r' Er Hkn. destruct (Ho k r' Er Hkn) as [f Hopen].
  pose proof (rel_parts_good _ Hc) as Hg. rewrite Er in Hg. apply good_app in Hg as [Hg _].
  apply Open_below; [done|by destruct bp| |by eapply Open_valid|].
  - by apply good_app.
  - exists key, data. split; [done|]. exists (r' ++ r). by rewrite E, Er, !app_assoc.
Qed.

(** ** Reading a directory *)

Definition hidden (p : string) : bool := has_prefix "." p.
Definition plain_names (fsys : hostFS) : Prop := ∀ dir l name typ,
  fsys.(h_readdir) dir = Some l → (name, typ) ∈ l → name ≠ "" ∧ lacks slash name = true.
Definition visible (d : list string) : Prop := good d ∧ Forall (λ p, hidden p = false) d.

Lemma not_hidden_good p : hidden p = false → p ≠ "" → lacks slash p = true → good [p].
Proof.
  intros Hh Hn Hl. apply Forall_singleton. split; [|done]. unfold good_part.
  rewrite !bool_decide_eq_false_2; [done|..]; [intros ->; done|intros ->; done|done].
Qed.

Lemma Join_dir_name d p : good d → good [p] → Join (dir_name d) p = join "/" (d ++ [p]).
Proof.
  intros Hd Hp. unfold dir_name. destruct (bool_decide_reflect (d = [])) as [->|Hne].
  - unfold Join. simpl. destruct (join_head [p]) as [_ H]; [done..|]. cbn in H.
    assert (parts ("." +:+ "/" +:+ p) = ["."; p]) as E.
    { change ("." +:+ "/" +:+ p) with ("." +:+ String slash p). rewrite split_app_sep.
      change (parts ".") with ["."]. simpl. f_equal. apply (parts_join [p]); done. }
    rewrite Clean_relative.
    + rewrite E. rewrite filter_cons_False, good_filter by done. done.
    + done.
    + rewrite E. intros [[=]|Hin]%elem_of_cons. by apply (good_no_dots [p]).
  - by apply (Join_parts d [p]).
Qed.

(** The size [Stat] gives of a file, never negative, and the sum over a list of
    files. *)
Definition stat_size (fsys : hostFS) (name : string) : Z :=
  match fsys.(h_open) name with Some (Some f) => f.(hf_size) | _ => 0 end.
Definition sized (fsys : hostFS) : Prop := ∀ name, 0 <= stat_size fsys name.
Definition stat_bytes (fsys : hostFS) (l : list (string * string)) : Z := foldr (λ f n, stat_size fsys f.1 + n) 0 l.

(** [key] is a regular file below the directory [d], and no component of its
    path below [d] starts with a dot. *)
Inductive on_disk (fsys : hostFS) : list string → string → Prop :=
| on_disk_file d l name : fsys.(h_readdir) (dir_name d) = Some l → (name, TFile) ∈ l → hidden name = false →
    on_disk fsys d (join "/" (d ++ [name]))
| on_disk_dir d l name key : fsys.(h_readdir) (dir_name d) = Some l → (name, TDir) ∈ l → hidden name = false →
    on_disk fsys (d ++ [name]) key → on_disk fsys d key.

(** What the reader has collected at any point. *)
Definition collected (fsys : hostFS) (r : bundleReader) : Prop :=
  Z.of_nat (size r.(br_out)) <= MaxBundleFiles ∧ 0 <= r.(br_entries) <= 2 * MaxBundleFiles ∧
  stat_bytes fsys (map_to_list r.(br_out)) <= r.(br_total) <= MaxBundleBytes ∧
  ∀ key data, r.(br_out) !! key = Some data →
    slen data <= MaxBundleFileBytes ∧ visible (parts key) ∧
    ∃ f, fsys.(h_open) key = Some (Some f) ∧ f.(hf_regular) = true ∧ f.(hf_data) = Some data.
Definition count (r : bundleReader) : bundleReader :=
  mk_bundleReader r.(br_out) r.(br_total) (r.(br_entries) + 1).

Lemma collected_count fsys r : collected fsys r → (br_entries (count r) <=? 2 * MaxBundleFiles) = true → collected fsys (count r).
Proof. intros (H1 & H2 & H3 & H4) Hc%Z.leb_le. simpl in Hc. split_and!; simpl; [done|lia|lia|apply H3..|done]. Qed.

Lemma stat_bytes_insert fsys (m : gmap string string) key data : sized fsys →
  stat_bytes fsys (map_to_list (<[key := data]> m)) <= stat_bytes fsys (map_to_list m) + stat_size fsys key.
Proof.
  intros Hs. assert (∀ l l', l ≡ₚ l' → stat_bytes fsys l = stat_bytes fsys l') as Hp.
  { intros l l'. induction 1 as [|[? ?] ? ? _ IH|[? ?] [? ?] ?|? ? ? _ IH1 _ IH2]; cbn; unfold stat_bytes in *; lia. }
  assert (∀ (m : gmap string string) d, m !! key = None →
    stat_bytes fsys (map_to_list (<[key := d]> m)) = stat_size fsys key + stat_bytes fsys (map_to_list m)) as Hi.
  { intros m' d Hm. rewrite (Hp _ _ (map_to_list_insert m' key d Hm)). done. }
  destruct (m !! key) as [d0|] eqn:E; [|rewrite Hi by done; lia].
  rewrite <- insert_delete_eq, Hi by apply lookup_delete_eq.
  pose proof (Hi (delete key m) d0 (lookup_delete_eq m key)) as H0. rewrite insert_delete_id in H0 by done.
  specialize (Hs key). lia.
Qed.

(** With files as long as [Stat] says, the sum is that of the contents. *)
Lemma stat_bytes_total fsys l : (∀ f, f ∈ l → slen f.2 = stat_size fsys f.1) → total_bytes l = stat_bytes fsys l.
Proof.
  induction l as [|f l IH]; intros H; [done|]. cbn. pose proof (H f (list_elem_of_here _ _)). f_equal; [done|].
  apply IH. intros g Hg. apply H. by right.
Qed.

Section reading.
Context (fsys : hostFS) (plain : plain_names fsys) (sizes : sized fsys).

Lemma read_file_collected key r r' : visible (parts key) → collected fsys r → read_file fsys key r = Ok r' →
  collected fsys r' ∧ r'.(br_entries) = r.(br_entries) ∧ dom r'.(br_out) = {[key]} ∪ dom r.(br_out).
Proof using sizes.
  intros Hv (Hs & He & Ht & Hr). unfold read_file. rewrite ensure_bind. intros [Hlt H].
  destruct (h_open fsys key) as [[f|]|] eqn:Ef; [|done..].
  apply ensure_bind in H as [Hreg H]. apply ensure_bind in H as [_ H]. apply ensure_bind in H as [Htot%Z.leb_le H].
  destruct (hf_data f) as [data|] eqn:Ed; [|done]. apply ensure_bind in H as [Hb [= <-]].
  split; [|split; [done|by apply dom_insert_L]]. split_and!; simpl; [|lia|lia| |done|].
  - rewrite map_size_insert. apply Z.ltb_lt in Hlt. destruct (br_out r !! key); simpl; lia.
  - pose proof (stat_bytes_insert fsys (br_out r) key data sizes) as Hi.
    assert (stat_size fsys key = hf_size f) as E by (unfold stat_size; by rewrite Ef). lia.
  - intros k d [[<- <-]|[_ Hk]]%lookup_insert_Some; [|by apply Hr]. split_and!; [by apply Z.leb_le|done|]. by exists f.
Qed.

Lemma visible_snoc d p : visible d → hidden p = false → good [p] → visible (d ++ [p]) ∧ parts (join "/" (d ++ [p])) = d ++ [p].
Proof using.
  intros [Hd Hv] Hh Hp. assert (good (d ++ [p])) as Hg by (by apply good_app). split.
  - split; [done|]. apply Forall_app. split; [done|]. by apply Forall_singleton.
  - apply parts_join; [by destruct d|done].
Qed.

Lemma visible_dir d p : visible d → hidden p = false → good [p] →
  Join (dir_name d) p = dir_name (d ++ [p]) ∧ visible (d ++ [p]) ∧ visible (parts (dir_name (d ++ [p]))).
Proof using.
  intros Hd Hh Hp. destruct (visible_snoc d p Hd Hh Hp) as [Hv E].
  rewrite Join_dir_name by (done || apply Hd). unfold dir_name. rewrite bool_decide_eq_false_2 by (by destruct d).
  by rewrite E.
Qed.

(** [on_disk], through one of the entries [l]. *)
Definition on_disk_in (l : list (string * fileType)) (d : list string) (key : string) : Prop :=
  ∃ name, hidden name = false ∧
    ((name, TFile) ∈ l ∧ key = join "/" (d ++ [name]) ∨ (name, TDir) ∈ l ∧ on_disk fsys (d ++ [name]) key).

Lemma on_disk_iff d l key : fsys.(h_readdir) (dir_name d) = Some l → on_disk fsys d key ↔ on_disk_in l d key.
Proof using.
  intros El. split.
  - destruct 1 as [d l' name El' Hin Hh|d l' name key El' Hin Hh Hl]; assert (l' = l) as -> by congruence; exists name;
      (split; [done|]); [by left|by right].
  - intros (name & Hh & [[Hin ->]|[Hin Hl]]); [by eapply on_disk_file|by eapply on_disk_dir].
Qed.

Lemma on_disk_cons x l d key : on_disk_in (x :: l) d key ↔ on_disk_in [x] d key ∨ on_disk_in l d key.
Proof using. unfold on_disk_in. setoid_rewrite list_elem_of_singleton. setoid_rewrite elem_of_cons. naive_solver. Qed.

Lemma walk_collected fuel d r r' : visible d → collected fsys r → walk fsys fuel (dir_name d) r = Ok r' →
  collected fsys r' ∧ r.(br_entries) <= r'.(br_entries) ∧
  ∀ key, key ∈ dom r'.(br_out) ↔ key ∈ dom r.(br_out) ∨ on_disk fsys d key.
Proof using plain sizes.
  revert d r r'. induction fuel as [|fuel IH]; intros d r r' Hd Hr H; [done|]. simpl in H.
  destruct (h_readdir fsys (dir_name d)) as [l|] eqn:El; [|done].
  assert (∀ name typ, (name, typ) ∈ l → name ≠ "" ∧ lacks slash name = true) as Hp by (intros; by eapply plain).
  enough (collected fsys r' ∧ br_entries r <= br_entries r' ∧
    ∀ key, key ∈ dom r'.(br_out) ↔ key ∈ dom r.(br_out) ∨ on_disk_in l d key) as (H1 & H2 & H3).
  { split_and!; [done..|]. intros key. by rewrite H3, (on_disk_iff d l key El). }
  clear El. revert r Hr H. induction l as [|[name typ] l IHl]; intros r Hr H.
  { injection H as <-. split_and!; [done|lia|]. intros key. split; [by left|]. intros [?|(n & _ & [[Hin _]|[Hin _]])]; [done|by apply elem_of_nil in Hin..]. }
  assert (∀ n t, (n, t) ∈ l → n ≠ "" ∧ lacks slash n = true) as Hl by (intros n t Hin; apply (Hp n t); by right).
  simpl in H. destruct (has_prefix "." name) eqn:Eh.
  { destruct (IHl Hl r Hr H) as (H1 & H2 & H3). split_and!; [done..|]. intros key. rewrite H3, (on_disk_cons (name, typ) l).
    assert (¬ on_disk_in [(name, typ)] d key); [|tauto].
    intros (n & Hn & Hin). unfold hidden in Hn. rewrite !list_elem_of_singleton in Hin.
    destruct Hin as [[[= -> _] _]|[[= -> _] _]]; congruence. }
  fold (count r) in H. apply ensure_bind in H as [Hc H]. apply (collected_count fsys r Hr) in Hc. apply bind_ok in H as (r1 & H1 & H).
  destruct (Hp name typ) as [Hn Hs]; [by left|].
  destruct (visible_dir d name Hd Eh (not_hidden_good name Eh Hn Hs)) as (Ej & Hv & Hv'). rewrite Ej in H1.
  assert (collected fsys r1 ∧ br_entries (count r) <= br_entries r1 ∧
    ∀ key, key ∈ dom r1.(br_out) ↔ key ∈ dom r.(br_out) ∨ on_disk_in [(name, typ)] d key) as (Hr1 & He & Hk).
  { unfold on_disk_in. setoid_rewrite list_elem_of_singleton.
    destruct typ; [| |done|done].
    - apply read_file_collected in H1 as (? & -> & Ed); [|done..]. split_and!; [done..|]. intros key. rewrite Ed. cbn.
      unfold dir_name. rewrite bool_decide_eq_false_2 by (by destruct d). set_solver.
    - destruct (IH (d ++ [name]) (count r) r1 Hv Hc H1) as (? & ? & Ed). split_and!; [done..|]. intros key. rewrite Ed. cbn. naive_solver. }
  destruct (IHl Hl r1 Hr1 H) as (? & ? & Hk'). split_and!; [done|simpl in He; lia|]. intros key.
  rewrite Hk', Hk, (on_disk_cons (name, typ) l). tauto.
Qed.

Lemma read_file_no_fuel key r : read_file fsys key r ≠ Err BFuel.
Proof using.
  unfold read_file, ensure. repeat (case_match; simpl; try done).
Qed.

Lemma walk_fuel_enough fuel d r : visible d → collected fsys r →
  2 * MaxBundleFiles < Z.of_nat fuel + r.(br_entries) → walk fsys fuel (dir_name d) r ≠ Err BFuel.
Proof using plain sizes.
  revert d r. induction fuel as [|fuel IH]; intros d r Hd Hr Hf; [destruct Hr; lia|]. simpl.
  destruct (h_readdir fsys (dir_name d)) as [l|] eqn:El; [|done].
  assert (∀ name typ, (name, typ) ∈ l → name ≠ "" ∧ lacks slash name = true) as Hp by (intros; by eapply plain).
  clear El. revert r Hr Hf. induction l as [|[name typ] l IHl]; intros r Hr Hf; [done|].
  assert (∀ n t, (n, t) ∈ l → n ≠ "" ∧ lacks slash n = true) as Hl by (intros n t Hin; apply (Hp n t); by right).
  simpl. destruct (has_prefix "." name) eqn:Eh; [by apply IHl|]. fold (count r).
  destruct (br_entries r + 1 <=? _) eqn:Hc; [|done]. apply (collected_count fsys r Hr) in Hc. simpl.
  destruct (Hp name typ) as [Hn Hs]; [by left|].
  destruct (visible_dir d name Hd Eh (not_hidden_good name Eh Hn Hs)) as (Ej & Hv & Hv'). rewrite Ej.
  destruct typ; [| |done|done].
  - pose proof (read_file_no_fuel (dir_name (d ++ [name])) (count r)) as Hn'.
    destruct (read_file _ _ _) as [r1|e] eqn:Er; simpl; [|congruence].
    apply read_file_collected in Er as (Hc1 & He1 & _); [|done..]. apply IHl; [done..|]. simpl in He1. lia.
  - pose proof (IH (d ++ [name]) (count r) Hv Hc) as Hw. destruct (walk _ _ _ _) as [r1|e] eqn:Er; simpl.
    + apply walk_collected in Er as (Hc1 & He1 & _); [|done..]. apply IHl; [done..|]. simpl in He1. lia.
    + intros [= ->]. apply Hw; [simpl; lia|done].
Qed.
End reading.

(** C37: reading a bundle directory always ends, within the limit on entries, and
    what it returns are exactly the regular files below the root whose path has
    no component that starts with a dot, each with its content, among them the
    configuration: at most 512 files of at most 1 MiB each, and of at most 16 MiB
    together by the sizes [Stat] gives, so also by their contents when no file
    changes between [Stat] and the read. *)
Theorem ReadBundle_bounded (fsys : hostFS) : plain_names fsys → sized fsys →
  ReadBundle fsys ≠ Err BFuel ∧
  ∀ b, ReadBundle fsys = Ok b →
    (∀ key, is_Some (b !! key) ↔ on_disk fsys [] key) ∧ is_Some (b !! BundleConfig) ∧
    Z.of_nat (size b) <= MaxBundleFiles ∧ stat_bytes fsys (map_to_list b) <= MaxBundleBytes ∧
    ((∀ key data, b !! key = Some data → slen data = stat_size fsys key) → total_bytes (map_to_list b) <= MaxBundleBytes) ∧
    ∀ key data, b !! key = Some data →
      slen data <= MaxBundleFileBytes ∧ Forall (λ p, hidden p = false) (parts key) ∧
      ∃ f, fsys.(h_open) key = Some (Some f) ∧ f.(hf_regular) = true ∧ f.(hf_data) = Some data.
Proof.
  intros Hp Hz. set (r0 := mk_bundleReader ∅ 0 0). assert (collected fsys r0) as H0.
  { split_and!; [by vm_compute..|]. intros key data Hk. unfold r0 in Hk. cbn in Hk. by rewrite lookup_empty in Hk. }
  assert (visible []) as Hv by (by repeat constructor). unfold ReadBundle. change "." with (dir_name []). split.
  - pose proof (walk_fuel_enough fsys Hp Hz walk_fuel [] r0 Hv H0) as Hw. fold r0.
    destruct (walk _ _ _ _) as [r|e]; simpl; [|intros [= ->]; by apply Hw]. by case_bool_decide.
  - intros b H. apply bind_ok in H as (r & Hr & H). apply ensure_bind in H as [Hc [= <-]].
    apply walk_collected in Hr as ((H1 & _ & H2 & H3) & _ & Hk); [|done..]. apply bool_decide_eq_true in Hc.
    assert (stat_bytes fsys (map_to_list r.(br_out)) <= MaxBundleBytes) as Hst by lia.
    split_and!; [|done|done|done| |].
    + intros key. rewrite <- elem_of_dom, Hk. set_solver.
    + intros Hsame. rewrite (stat_bytes_total fsys); [done|]. intros [key data] Hin%elem_of_map_to_list. by apply Hsame.
    + intros key data Hkey. destruct (H3 _ _ Hkey) as (? & [? ?] & ?). done.
Qed.
