(* ===== verification/Skill.v ===== *)
(** * Compiling skill packages

    [internal/definitions/skill.go] and the skill part of [compile.go]: the
    frontmatter of a [SKILL.md], the files of its directory, and the package's
    digest.  A program of the compiler is a [prog] over the files read so far;
    everything is read from the in-memory file system of a bundle. *)
From S2P Require Import Prelude GoText Db CallBinding Service.
From S2P Require Import GoPath Bundle Selectors Journey.
From Stdlib Require Import Ascii.

(** ** [encoding/json] on the values of a package *)

Definition base64_digit (n : Z) : ascii :=
  match String.get (Z.to_nat n) "ABCDEFGHIJKLMNOPQRSTUVWXYZabcdefghijklmnopqrstuvwxyz0123456789+/" with
  | Some c => c | None => "="%char end.
(** The standard encoding, with padding. *)
Fixpoint base64 (s : string) : string :=
  match s with
  | "" => ""
  | String a "" =>
      String (base64_digit (code a / 4)) (String (base64_digit (code a mod 4 * 16)) "==")
  | String a (String b "") =>
      let n := code a * 256 + code b in
      String (base64_digit (n / 1024)) (String (base64_digit (n / 16 mod 64)) (String (base64_digit (n mod 16 * 4)) "="))
  | String a (String b (String c s)) =>
      let n := (code a * 256 + code b) * 256 + code c in
      String (base64_digit (n / 262144)) (String (base64_digit (n / 4096 mod 64))
        (String (base64_digit (n / 64 mod 64)) (String (base64_digit (n mod 64)) (base64 s))))
  end.

Definition json_bytes (s : string) : string := (String dquote (base64 s +:+ String dquote ""))%string.
Definition json_bool (b : bool) : string := if b then "true" else "false".
Definition json_array (l : list string) : string := ("[" +:+ join "," l +:+ "]")%string.

(** ** Errors *)

Inductive package_error :=
| PBundleRoot | PPath (e : bundle_error) | PNotDirectory
| PUnbounded | PFrontmatter | PNameDescription
| PName (name : string) | PSupporting (name : string) | PSupportingPath (name : string) (e : bundle_error)
| PTooManyFiles | PFuel.

(** ** [SKILL.md] *)

Definition newline : ascii := "010".
Definition fence : string := ("---" +:+ String newline "")%string.
Definition close_fence : string := String newline fence.
Definition quotes : string := String dquote "'".

(** One frontmatter line: the last of several equal keys counts. *)
Definition metadata_line (m : string * string) (line : string) : string * string :=
  match cut ":" line with
  | None => m
  | Some (key, value) =>
      let v := trim (in_set quotes) (trim_space value) in
      if bool_decide (trim_space key = "name") then (v, m.2)
      else if bool_decide (trim_space key = "description") then (m.1, v)
      else m
  end.

Definition skillMetadata (data : string) : result package_error (string * string) :=
  ensure ((slen data <=? MaxSkillBytes) && has_prefix fence data) PUnbounded;;
  match index_str close_fence (drop_bytes 4 data) with
  | None => Err PFrontmatter
  | Some i =>
      ensure (Z.of_nat i + 4 <=? MaxSkillMetadata) PFrontmatter;;
      let '(name, description) :=
        foldl metadata_line ("", "") (split newline (String.substring 4 i data)) in
      ensure (negb (bool_decide (name = "") || bool_decide (description = "")
                    || (64 <? slen name) || (1024 <? slen description))) PNameDescription;;
      Ok (name, description)
  end.

Definition skillBody (data : string) : string :=
  match index_str close_fence (drop_bytes 4 data) with
  | Some i => if has_prefix fence data then trim_space (drop_bytes (4 + i + 5) data) else ""
  | None => ""
  end.

(** ** Packages *)

Record skillDeclaration := mk_skillDeclaration {
  sd_Name : string; sd_Root : string; sd_SupportingFiles : list string;
  sd_Disabled : bool; sd_AllowSupportingFiles : bool;
}.

(** Bytes and files of a package. *)
Definition skillFootprint (skill : SkillPackage) : Z * Z :=
  (foldr (λ f n, slen f.2.(sf_Data) + n) (slen skill.(sp_Instructions).(sf_Data)) (map_to_list skill.(sp_Supporting)),
   1 + Z.of_nat (size skill.(sp_Supporting))).

Section compile.
Context `{codec : Codec} (b : Bundle).

Definition snapshot (name data : string) : SkillFile :=
  {| sf_Name := name; sf_Digest := hex (sha256 data); sf_Data := data |}.

(** The text that is digested; the members of a JSON object made of a map are
    in the order of their keys. *)
Definition supporting_text (files : gmap string SkillFile) : string :=
  json_object (omap (M := list) (λ name, f ← files !! name; Some (name, json_bytes f.(sf_Data)))
    (sort_strings (elements (dom files)))).
Definition skill_text (s : SkillPackage) : string :=
  json_object [("Name", json_string s.(sp_Name)); ("Description", json_string s.(sp_Description));
    ("Disabled", json_bool s.(sp_Disabled)); ("AllowSupportingFiles", json_bool s.(sp_AllowSupportingFiles));
    ("Instructions", json_bytes s.(sp_Instructions).(sf_Data)); ("Supporting", supporting_text s.(sp_Supporting))].

Abbreviation reading := (prog Bundle package_error).

Definition confined_path (base relative : string) : reading string :=
  lift_result (match confine b base relative with Ok p => Ok p | Err e => Err (PPath e) end).
(** [source.read] *)
Definition read_source (name : string) (limit : Z) : reading string := λ reads,
  match read b name limit reads with
  | Ok (data, reads) => (reads, Ok data)
  | Err e => (reads, Err (PPath e))
  end.
Definition is_directory (name : string) : bool := match Open b name with Ok MemDir => true | _ => false end.

(** What [compileSkillDir] and [compileSkill] both begin with. *)
Definition skill_file_of (relative : string) : reading (string * string) :=
  root ← confined_path "" relative;
  _ ← unless (is_directory root) PNotDirectory;
  path ← confined_path root "SKILL.md";
  instructions ← read_source path MaxSkillBytes;
  mret (root, instructions).

Definition supporting_error (name : string) (e : package_error) : package_error :=
  match e with PPath e => PSupportingPath name e | e => e end.
(** The loop over the declared files; [compiled.Supporting] has the names
    [seen]. *)
Fixpoint compile_supporting (root : string) (names : list string) (files : gmap string SkillFile)
    : reading (gmap string SkillFile) :=
  match names with
  | [] => mret files
  | name :: names =>
      _ ← unless (negb (bool_decide (name = "") || bool_decide (name = "SKILL.md") || bool_decide (is_Some (files !! name))))
            (PSupporting name);
      r ← try (path ← confined_path root name; read_source path MaxSupportingBytes);
      data ← lift_result (match r with Ok data => Ok data | Err e => Err (supporting_error name e) end);
      compile_supporting root names (<[name := snapshot name data]> files)
  end.

Definition compileSkill (d : skillDeclaration) : reading SkillPackage :=
  start ← skill_file_of d.(sd_Root);
  let '(root, instructions) := start in
  metadata ← lift_result (skillMetadata instructions);
  let '(name, description) := metadata in
  _ ← unless (bool_decide (name = d.(sd_Name))) (PName name);
  files ← compile_supporting root d.(sd_SupportingFiles) ∅;
  let compiled := {| sp_Name := name; sp_Description := description; sp_Disabled := d.(sd_Disabled);
    sp_AllowSupportingFiles := d.(sd_AllowSupportingFiles); sp_Instructions := snapshot "SKILL.md" instructions;
    sp_Supporting := files; sp_Digest := "" |} in
  mret {| sp_Name := name; sp_Description := description; sp_Disabled := d.(sd_Disabled);
    sp_AllowSupportingFiles := d.(sd_AllowSupportingFiles); sp_Instructions := snapshot "SKILL.md" instructions;
    sp_Supporting := files; sp_Digest := hex (sha256 (skill_text compiled)) |}.

(** ** The files of a skill directory *)

Section entries.
Context (enumerate : string → list string → result package_error (list string)) (rel : string).
Fixpoint enumerate_entries (l : list memInfo) (files : list string) : result package_error (list string) :=
  match l with
  | [] => Ok files
  | e :: l =>
      let name := Join rel e.(mi_name) in
      if has_prefix "." e.(mi_name) then enumerate_entries l files
      else if e.(mi_dir) then files ← enumerate name files; enumerate_entries l files
      else if bool_decide (name = "SKILL.md") then enumerate_entries l files
      else
        ensure (zlen files <? MaxCompiledSkillFiles) PTooManyFiles;;
        enumerate_entries l (files ++ [name])
  end.
End entries.

Fixpoint enumerate (fuel : nat) (dir rel : string) (files : list string) : result package_error (list string) :=
  match fuel with
  | O => Err PFuel
  | S fuel =>
      match ReadDir b (Join dir rel) with
      | Err e => Err (PPath e)
      | Ok entries => enumerate_entries (enumerate fuel dir) rel entries files
      end
  end.

(** No directory is deeper than the longest name. *)
Definition bundle_depth : nat := foldr (λ f n, Nat.max (length (parts f.1)) n) 0%nat (map_to_list b).

Definition compileSkillDir (relative : string) : reading SkillPackage :=
  _ ← unless (negb (bool_decide (Clean relative = "."))) PBundleRoot;
  start ← skill_file_of relative;
  let '(root, instructions) := start in
  metadata ← lift_result (skillMetadata instructions);
  supporting ← lift_result (enumerate (S bundle_depth) root "" []);
  let supporting := sort_strings supporting in
  compileSkill (mk_skillDeclaration metadata.1 relative supporting false (negb (bool_decide (supporting = [])))).
End compile.
