(* ===== verification/CompileSet.v ===== *)
(** * Compiling a definition set

    [CompileBundle] of [internal/definitions/compile.go] with the digests of
    [set.go]: from the files of a bundle to a content-addressed set.  The YAML
    decoder is library code; its results are the [yaml*] records, and what it
    calls back, [opList.UnmarshalYAML], is modelled. *)
From stdpp Require Import pretty.
From S2P Require Import Prelude GoText Db CallBinding Service.
From S2P Require Import GoPath Bundle Selectors Journey Compile Skill.
From Stdlib Require Import Ascii.

(** ** Decoding *)

(** A [yaml.Node]: the short tag and the value of a scalar. *)
Inductive yamlNode := YScalar (tag value : string) | YSequence (l : list yamlNode) | YOther.

(** [opList.UnmarshalYAML]; [None] is its [shapeError]. *)
Definition op_scalar (c : yamlNode) : option string :=
  match c with
  | YScalar tag value => if bool_decide (tag = "!!null") then None else Some value
  | _ => None
  end.
Definition UnmarshalYAML (n : yamlNode) : option (list string) :=
  match n with
  | YScalar _ _ => v ← op_scalar n; Some [v]
  | YSequence l => mapM op_scalar l
  | YOther => None
  end.

(** A decoded configuration, before the nodes of its [op] fields are
    unmarshalled; [None] is an [op] the decoder did not hand over. *)
Record yamlTool := { yt_Op : option yamlNode; yt_Tool : rawTool }.
Record yamlJourney := { yj_Journey : rawJourney; yj_Tools : list yamlTool }.
Record yamlConfig := { yc_Catalog : rawCatalog; yc_ConversationPrompt : string; yc_Journeys : list yamlJourney }.

(** The error of a decode: no document, the list of a [yaml.TypeError], or
    another error's text. *)
Inductive yaml_error := YEOF | YTypeError (errors : list string) | YError (text : string).
(** The first document with whether there is more after it. *)
Class Yaml := yaml_decode : string → result yaml_error (yamlConfig * bool).

Record rawConfig := { raw_Catalog : rawCatalog; raw_ConversationPrompt : string; raw_Journeys : list rawJourney }.

Definition decode_tool (t : yamlTool) : option rawTool :=
  op ← (match t.(yt_Op) with None => Some None | Some n => v ← UnmarshalYAML n; Some (Some v) end);
  let r := t.(yt_Tool) in
  Some {| rt_Op := op; rt_Tags := r.(rt_Tags); rt_Alias := r.(rt_Alias); rt_ReadOnly := r.(rt_ReadOnly);
          rt_Class := r.(rt_Class); rt_Approval := r.(rt_Approval) |}.
Definition decode_journey (j : yamlJourney) : option rawJourney :=
  tools ← mapM decode_tool j.(yj_Tools);
  let r := j.(yj_Journey) in
  Some {| rj_ID := r.(rj_ID); rj_Skill := r.(rj_Skill); rj_Versions := r.(rj_Versions); rj_Tools := tools;
          rj_Deny := r.(rj_Deny); rj_MaxTools := r.(rj_MaxTools) |}.
Definition decode_config (c : yamlConfig) : option rawConfig :=
  journeys ← mapM decode_journey c.(yc_Journeys);
  Some {| raw_Catalog := c.(yc_Catalog); raw_ConversationPrompt := c.(yc_ConversationPrompt); raw_Journeys := journeys |}.

(** *** Decode errors

    The texts of the decoder's errors may quote the configuration; what is
    reported is a kind and a line number. *)

Fixpoint take_digits (s : string) : string :=
  match s with
  | "" => ""
  | String c s => if is_digit c then String c (take_digits s) else ""
  end.
(** The first submatch of [line (\d+)]. *)
Fixpoint find_line (s : string) : option string :=
  match s with
  | "" => None
  | String c s' =>
      let digits := take_digits (drop_bytes 5 s) in
      if has_prefix "line " s && negb (bool_decide (digits = "")) then Some digits else find_line s'
  end.
Definition contains_str (sub s : string) : bool := bool_decide (is_Some (index_str sub s)).

Definition type_error_kind (e : string) : string :=
  let kind := if contains_str "not found in type" e then "unknown field"
              else if contains_str "already defined" e then "duplicate key" else "invalid value" in
  match find_line e with Some n => "line " +:+ n +:+ ": " +:+ kind | None => kind end.

Definition shape_text : string := "op must be a string or a list of strings".
Inductive decode_error := DShape | DYaml (e : yaml_error).
Definition sanitizeDecodeError (e : decode_error) : string :=
  match e with
  | DShape => "decode journey config: " +:+ shape_text
  | DYaml (YTypeError errors) => "decode journey config: " +:+ join "; " (type_error_kind <$> take 5 errors)
  | DYaml YEOF => "decode journey config: invalid YAML"
  | DYaml (YError text) =>
      match find_line text with
      | Some n => "decode journey config: YAML syntax error near line " +:+ n
      | None => "decode journey config: invalid YAML"
      end
  end.

(** ** Digests *)

(** A slice of strings that is nil when empty. *)
Definition json_strings (l : list string) : string :=
  if bool_decide (l = []) then "null" else json_array (json_string <$> l).
Definition catalog_text (c : CatalogConfig) : string :=
  json_object [("OperationMetaKey", json_string c.(OperationMetaKey)); ("CallIDHeader", json_string c.(CallIDHeader))].
Definition selector_text (s : Selector) : string :=
  json_object [("Ops", json_strings s.(Ops)); ("Tags", json_strings s.(Tags)); ("Alias", json_string s.(Alias));
    ("ReadOnlyHint", json_bool s.(ReadOnlyHint)); ("Class", json_string s.(SelClass));
    ("ApprovalRequired", json_bool s.(ApprovalRequired))].
Definition identity_text (s : SkillPackage) : string :=
  json_object [("Name", json_string s.(sp_Name)); ("Description", json_string s.(sp_Description));
    ("Digest", json_string s.(sp_Digest)); ("Disabled", json_bool s.(sp_Disabled));
    ("AllowSupportingFiles", json_bool s.(sp_AllowSupportingFiles))].
Definition versions_text (r : VersionRange) : string :=
  json_object [("Min", json_string r.(Min)); ("MaxExclusive", json_string r.(MaxExclusive))].

Definition canonicalBytes (j : Journey) : string :=
  json_object [("ID", json_string j.(j_ID)); ("Description", json_string j.(j_Description));
    ("Prompt", json_string j.(j_Prompt)); ("Skills", json_array (identity_text <$> j.(j_Skills)));
    ("ProductVersions", versions_text j.(j_ProductVersions)); ("Tools", json_array (selector_text <$> j.(j_Tools)));
    ("Deny", json_strings j.(j_Deny)); ("MaxTools", pretty j.(j_MaxTools)); ("Catalog", catalog_text j.(j_Catalog))].

Section compile.
Context `{codec : Codec} `{yaml : Yaml}.

Definition hexDigest (data : string) : string := hex (sha256 data).
Definition set_text (catalog : CatalogConfig) (conversationPrompt : string) (digests : list string) : string :=
  json_object [("Catalog", catalog_text catalog); ("ConversationPrompt", json_string conversationPrompt);
    ("Journeys", json_strings digests)].
Definition setDigest (catalog : CatalogConfig) (conversationPrompt : string) (digests : list string) : string :=
  hexDigest (set_text catalog conversationPrompt digests).

(** ** Journeys *)

Inductive failure :=
| FBundle (e : bundle_error) | FNoConfig | FReadConfig (e : bundle_error) | FEmpty | FDecode (text : string) | FExtra
| FCompile (e : compile_error) | FNoJourneys | FPrompt (e : package_error)
| FJourney (n : nat) (e : compile_error) | FSkillRequired (n : nat) | FSkill (n : nat) (e : package_error)
| FAggregate (n : nat) | FDuplicate (n : nat).

(** What compiling the journeys changes: the files read, the packages compiled
    so far by their directory, and their sizes. *)
Record cstate := mk_cstate {
  cs_reads : Bundle; cs_skills : gmap string SkillPackage; cs_skillBytes : Z; cs_skillFiles : Z;
}.
Abbreviation compiler := (prog cstate failure).

Section bundle.
Context (b : Bundle).

(** A program that only reads files. *)
Definition reads {A} (wrap : package_error → failure) (m : prog Bundle package_error A) : compiler A := λ st,
  let '(r, a) := m st.(cs_reads) in
  (mk_cstate r st.(cs_skills) st.(cs_skillBytes) st.(cs_skillFiles),
   match a with Ok a => Ok a | Err e => Err (wrap e) end).
Definition checked {A} (wrap : compile_error → failure) (r : result compile_error A) : compiler A :=
  lift_result (match r with Ok a => Ok a | Err e => Err (wrap e) end).

(** The skill of a journey, compiled once for each directory. *)
Definition journey_skill (n : nat) (skill : string) : compiler SkillPackage :=
  let key := Clean skill in
  known ← asks (λ st, st.(cs_skills) !! key);
  match known with
  | Some pkg => mret pkg
  | None =>
      pkg ← reads (FSkill n) (compileSkillDir b skill);
      let '(bytes, files) := skillFootprint pkg in
      used ← asks (λ st, (st.(cs_skillBytes), st.(cs_skillFiles)));
      _ ← unless (negb ((MaxCompiledSkillBytes - bytes <? used.1) || (MaxCompiledSkillFiles - files <? used.2)))
            (FAggregate n);
      _ ← update (λ st, mk_cstate st.(cs_reads) (<[key := pkg]> st.(cs_skills)) (used.1 + bytes) (used.2 + files));
      mret pkg
  end.

Definition compileJourney (catalog : CatalogConfig) (n : nat) (rj : rawJourney) : compiler Journey :=
  _ ← unless (validJourneyID rj.(rj_ID)) (FJourney n IDInvalid);
  _ ← checked (FJourney n) (validateVersionRange rj.(rj_Versions));
  maxTools ← checked (FJourney n) (compileMaxTools rj.(rj_MaxTools));
  compiled ← checked (FJourney n) (compileTools catalog rj);
  let '(tools, deny) := compiled in
  _ ← unless (negb (bool_decide (rj.(rj_Skill) = ""))) (FSkillRequired n);
  pkg ← journey_skill n rj.(rj_Skill);
  mret {| j_ID := rj.(rj_ID); j_Description := pkg.(sp_Description); j_Prompt := skillBody pkg.(sp_Instructions).(sf_Data);
          j_Skills := [pkg]; j_Digest := ""; j_Tools := tools; j_Deny := deny; j_MaxTools := maxTools;
          j_ProductVersions := rj.(rj_Versions); j_Catalog := catalog; j_Skill := rj.(rj_Skill) |}.

Definition with_digest (j : Journey) : Journey :=
  {| j_ID := j.(j_ID); j_Description := j.(j_Description); j_Prompt := j.(j_Prompt); j_Skills := j.(j_Skills);
     j_Digest := hexDigest (canonicalBytes j); j_Tools := j.(j_Tools); j_Deny := j.(j_Deny); j_MaxTools := j.(j_MaxTools);
     j_ProductVersions := j.(j_ProductVersions); j_Catalog := j.(j_Catalog); j_Skill := j.(j_Skill) |}.

(** What the loop over the journeys adds to the set. *)
Record built := mk_built { bu_journeys : gmap string Journey; bu_canonical : gmap string string; bu_order : list string; bu_digests : list string }.

Fixpoint compile_journeys (catalog : CatalogConfig) (n : nat) (rjs : list rawJourney) (s : built) : compiler built :=
  match rjs with
  | [] => mret s
  | rj :: rjs =>
      j ← compileJourney catalog n rj;
      _ ← unless (negb (bool_decide (is_Some (s.(bu_journeys) !! j.(j_ID))))) (FDuplicate n);
      let d := with_digest j in
      compile_journeys catalog (S n) rjs
        (mk_built (<[j.(j_ID) := d]> s.(bu_journeys)) (<[d.(j_Digest) := canonicalBytes j]> s.(bu_canonical))
           (s.(bu_order) ++ [j.(j_ID)]) (s.(bu_digests) ++ [d.(j_Digest)]))
  end.

(** ** The set *)

Definition decode (data : string) : result failure rawConfig :=
  match yaml_decode data with
  | Err YEOF => Err FEmpty
  | Err e => Err (FDecode (sanitizeDecodeError (DYaml e)))
  | Ok (config, more) =>
      match decode_config config with
      | None => Err (FDecode (sanitizeDecodeError DShape))
      | Some raw => ensure (negb more) FExtra;; Ok raw
      end
  end.

Definition conversation_prompt (relative : string) : prog Bundle package_error string :=
  if bool_decide (relative = "") then mret ""
  else
    path ← confined_path b "" relative;
    read_source b path MaxPromptBytes.

Definition compileSource : compiler DefSet :=
  data ← lift_result (match readFS b BundleConfig MaxConfigBytes with Ok d => Ok d | Err e => Err (FReadConfig e) end);
  raw ← lift_result (decode data);
  catalog ← checked FCompile (compileCatalog raw.(raw_Catalog));
  _ ← unless (negb (bool_decide (raw.(raw_Journeys) = []))) FNoJourneys;
  prompt ← reads FPrompt (conversation_prompt raw.(raw_ConversationPrompt));
  s ← compile_journeys catalog 1 raw.(raw_Journeys) (mk_built ∅ ∅ [] []);
  st ← asks (λ st, st);
  let set := {| set_catalog := catalog; set_conversationPrompt := prompt;
    set_digest := setDigest catalog prompt s.(bu_digests); set_order := s.(bu_order); set_journeys := s.(bu_journeys);
    set_canonical := s.(bu_canonical); set_skillBytes := st.(cs_skillBytes); set_skillFiles := st.(cs_skillFiles);
    set_bundle := source_bundle st.(cs_reads) data |} in
  _ ← checked FCompile (checkAliasOps set);
  _ ← checked FCompile (checkPolicyConflicts set);
  mret set.
End bundle.

Definition CompileBundle (b : Bundle) : result failure DefSet :=
  match validateBundle b with
  | Err e => Err (FBundle e)
  | Ok _ =>
      ensure (bool_decide (is_Some (b !! BundleConfig))) FNoConfig;;
      (compileSource b (mk_cstate ∅ ∅ 0 0)).2
  end.
End compile.
