(* ===== verification/CompileSpec.v ===== *)
(** * What a compile promises

    The files a skill directory consists of, and the round trip of a set through
    its own bundle. *)
From S2P Require Import Prelude GoText Db CallBinding Service.
From S2P Require Import GoPath Bundle BundleSpec Selectors Journey Compile Skill CompileSet.
From Stdlib Require Import Ascii.

(** ** Enumerating a directory *)

Definition bounded (files new : list string) : result package_error (list string) :=
  if zlen files + zlen new <=? MaxCompiledSkillFiles then Ok (files ++ new) else Err PTooManyFiles.

Lemma zlen_app {A} (l k : list A) : zlen (l ++ k) = zlen l + zlen k.
Proof. unfold zlen. rewrite length_app. lia. Qed.
Lemma zlen_nonneg {A} (l : list A) : 0 <= zlen l.
Proof. unfold zlen. lia. Qed.

Lemma bounded_nil files : zlen files <= MaxCompiledSkillFiles → bounded files [] = Ok files.
Proof. intros H. unfold bounded. rewrite app_nil_r. change (zlen []) with 0. by rewrite (proj2 (Z.leb_le _ _)) by lia. Qed.

Lemma bounded_app files n1 n2 : (bounded files n1 ≫= λ f, bounded f n2) = bounded files (n1 ++ n2).
Proof.
  unfold bounded. rewrite zlen_app. pose proof (zlen_nonneg n1). pose proof (zlen_nonneg n2).
  destruct (Z.leb_spec (zlen files + zlen n1) MaxCompiledSkillFiles) as [H1|H1]; simpl.
  - rewrite zlen_app, <- app_assoc. by rewrite Z.add_assoc.
  - by rewrite (proj2 (Z.leb_gt _ _)) by lia.
Qed.

Lemma bounded_ok files new r : bounded files new = Ok r → r = files ++ new ∧ zlen r <= MaxCompiledSkillFiles.
Proof. unfold bounded. rewrite <- zlen_app. destruct (Z.leb_spec (zlen (files ++ new)) MaxCompiledSkillFiles); [|done]. by intros [= <-]. Qed.

(** A visible file below [root], at a path [l] from there. *)
Definition visible_at (b : Bundle) (root l : list string) : Prop :=
  Forall (λ p, hidden p = false) l ∧ ∃ data, b !! join "/" (root ++ l) = Some data.
(** The supporting files of the directory [root] whose path starts with [rel]. *)
Definition supporting_at (b : Bundle) (root rel : list string) (f : string) : Prop :=
  ∃ l, l ≠ [] ∧ f = join "/" (rel ++ l) ∧ f ≠ "SKILL.md" ∧ good l ∧ Forall (λ p, hidden p = false) l ∧
    ∃ data, b !! join "/" (root ++ rel ++ l) = Some data.

Section enumerate.
Context (b : Bundle) (root : list string).
Context (Hb : bundle_ok b) (Hroot : good root) (Hne : root ≠ []).

Lemma key_of_parts key l : parts key = l → key = join "/" l.
Proof using. intros <-. symmetry. apply join_split. Qed.

Lemma listed_good d i : listed b d i → good [i.(mi_name)].
Proof using Hb Hroot Hne.
  intros (key & data & c & r & Hk & E & ->). rewrite entry_name. destruct (bundle_ok_key _ _ _ Hb Hk) as [Hg _].
  rewrite E in Hg. apply good_app in Hg as [_ Hg]. apply (good_app [c] r) in Hg. by apply Hg.
Qed.

(** The part of [supporting_at] that goes through the entries [es]. *)
Definition through (rel : list string) (es : list memInfo) (f : string) : Prop :=
  ∃ e l, e ∈ es ∧ hidden e.(mi_name) = false ∧ f = join "/" (rel ++ e.(mi_name) :: l) ∧ f ≠ "SKILL.md" ∧
    good l ∧ Forall (λ p, hidden p = false) l ∧ ∃ data, b !! join "/" (root ++ rel ++ e.(mi_name) :: l) = Some data.

Lemma through_cons rel e es f : through rel (e :: es) f ↔ through rel [e] f ∨ through rel es f.
Proof using.
  unfold through. split.
  - intros (e' & l & [->|Hin]%elem_of_cons & H); [left; exists e, l|right; exists e', l]; (split; [|done]); [by left|done].
  - intros [(e' & l & ->%list_elem_of_singleton & H)|(e' & l & Hin & H)]; [exists e, l|exists e', l]; (split; [|done]); [by left|by right].
Qed.

Lemma through_disjoint rel e es f : good rel → (∀ i, i ∈ e :: es → listed b (root ++ rel) i) →
  e.(mi_name) ∉ (mi_name <$> es) → through rel [e] f → through rel es f → False.
Proof using Hb Hroot Hne.
  intros Hr Hl Hn (e1 & l1 & ->%list_elem_of_singleton & _ & -> & _ & G1 & _) (e2 & l2 & H2 & _ & E & _ & G2 & _).
  apply join_inj_good in E.
  - apply app_inv_head in E. injection E as E _. apply Hn. rewrite E. by apply list_elem_of_fmap_2.
  - by destruct rel.
  - by destruct rel.
  - apply good_app. split; [done|]. apply (good_app [_] l1). split; [|done]. eapply listed_good, Hl. by left.
  - apply good_app. split; [done|]. apply (good_app [_] l2). split; [|done]. eapply listed_good, Hl. by right.
Qed.

Lemma through_hidden rel e f : hidden e.(mi_name) = true → through rel [e] f → False.
Proof using. intros Hh (e' & l & ->%list_elem_of_singleton & H & _). congruence. Qed.

Lemma through_dir rel e f : listed b (root ++ rel) e → e.(mi_dir) = true → hidden e.(mi_name) = false →
  through rel [e] f ↔ supporting_at b root (rel ++ [e.(mi_name)]) f.
Proof using Hb Hroot Hne.
  intros Hl Hd Hh. unfold through, supporting_at. split.
  - intros (e' & l & ->%list_elem_of_singleton & _ & -> & Hf & G & Hv & data & Hk). exists l.
    rewrite <- !app_assoc. split_and!; [|done..|by exists data]. intros ->.
    assert (listed b (root ++ rel) (entry (mi_name e) [] data)) as Hl'.
    { exists (join "/" (root ++ rel ++ [mi_name e])), data, e.(mi_name), []. split_and!; [done| |done].
      rewrite <- app_assoc. destruct (bundle_ok_key _ _ _ Hb Hk) as [Hg _].
      pose proof (listed_good _ _ Hl) as Hge. destruct Hl as (k0 & d0 & c0 & r0 & Hk0 & E0 & ->).
      destruct (bundle_ok_key _ _ _ Hb Hk0) as [Hg0 _]. rewrite E0, <- app_assoc in Hg0.
      apply parts_join; [by destruct root, rel|]. apply good_app in Hg0 as [? Hg0]. apply good_app in Hg0 as [? _].
      apply good_app. split; [done|]. by apply good_app. }
    pose proof (listed_unique _ _ _ _ Hb Hl Hl' eq_refl) as E. by rewrite E in Hd.
  - intros (l & Hn & -> & Hf & G & Hv & data & Hk). exists e, l. rewrite <- !app_assoc in *. 
    split_and!; [by left|done..|by exists data].
Qed.

Lemma through_file rel e f : good rel → listed b (root ++ rel) e → e.(mi_dir) = false → hidden e.(mi_name) = false →
  through rel [e] f ↔ f = join "/" (rel ++ [e.(mi_name)]) ∧ f ≠ "SKILL.md".
Proof using Hb Hroot Hne.
  intros Hr Hl Hd Hh. pose proof (listed_good _ _ Hl) as Hge. unfold through. split.
  - intros (e' & l & ->%list_elem_of_singleton & _ & -> & Hf & G & Hv & data & Hk). 
    destruct l as [|x l]; [done|]. exfalso.
    assert (listed b (root ++ rel) (entry (mi_name e) (x :: l) data)) as Hl'.
    { exists (join "/" (root ++ rel ++ mi_name e :: x :: l)), data, e.(mi_name), (x :: l). split_and!; [done| |done].
      rewrite <- app_assoc. destruct Hl as (k0 & d0 & c0 & r0 & Hk0 & E0 & _).
      destruct (bundle_ok_key _ _ _ Hb Hk0) as [Hg0 _]. rewrite E0, <- app_assoc in Hg0.
      apply parts_join; [by destruct root, rel|]. apply good_app in Hg0 as [? _].
      apply good_app. split; [done|]. apply good_app. split; [done|]. by apply (good_app [_] (x :: l)). }
    pose proof (listed_unique _ _ _ _ Hb Hl Hl' eq_refl) as E. by rewrite E in Hd.
  - intros [-> Hf]. exists e, []. split_and!; [by left|done|done|done|constructor|constructor|].
    destruct Hl as (k & data & c & r & Hk & E & Ei). exists data. subst e. rewrite entry_name in *.
    destruct r; [|done]. rewrite <- app_assoc in E. by rewrite <- (key_of_parts _ _ E).
Qed.

Lemma Join_rel rel e d : good rel → listed b d e → Join (join "/" rel) e.(mi_name) = join "/" (rel ++ [e.(mi_name)]).
Proof using Hb Hroot Hne. intros Hr Hl. apply (Join_parts rel [_]); [done|by eapply listed_good|done]. Qed.

Lemma Join_root rel : good rel → Join (join "/" root) (join "/" rel) = join "/" (root ++ rel).
Proof using Hb Hroot Hne.
  intros Hr. destruct (decide (rel = [])) as [->|Hn]; [|by apply Join_parts]. rewrite app_nil_r. by apply Join_nothing.
Qed.

Definition enumerates (fuel : nat) (rel : list string) : Prop := ∀ files, zlen files <= MaxCompiledSkillFiles →
  ∃ new, NoDup new ∧ (∀ f, f ∈ new ↔ supporting_at b root rel f) ∧
    enumerate b fuel (join "/" root) (join "/" rel) files = bounded files new.

Lemma enumerate_entries_ok fuel rel es files : good rel → NoDup (mi_name <$> es) →
  (∀ e, e ∈ es → listed b (root ++ rel) e) →
  (∀ e, e ∈ es → e.(mi_dir) = true → hidden e.(mi_name) = false → enumerates fuel (rel ++ [e.(mi_name)])) →
  zlen files <= MaxCompiledSkillFiles →
  ∃ new, NoDup new ∧ (∀ f, f ∈ new ↔ through rel es f) ∧
    enumerate_entries (enumerate b fuel (join "/" root)) (join "/" rel) es files = bounded files new.
Proof using Hb Hroot Hne.
  intros Hr. revert files. induction es as [|e es IH]; intros files Hnd Hl Hrec Hf.
  - exists []. split; [constructor|]. split; [|by rewrite bounded_nil].
    intros f. split; [by intros ?%elem_of_nil|]. by intros (e & l & ?%elem_of_nil & _).
  - simpl in Hnd. apply NoDup_cons in Hnd as [Hn Hnd].
    assert (∀ e', e' ∈ es → listed b (root ++ rel) e') as Hl' by (intros; apply Hl; by right).
    assert (∀ files, zlen files <= MaxCompiledSkillFiles → ∃ new, NoDup new ∧ (∀ f, f ∈ new ↔ through rel es f) ∧
      enumerate_entries (enumerate b fuel (join "/" root)) (join "/" rel) es files = bounded files new) as IH'
      by (intros; apply IH; [done|done|intros e' He'; apply Hrec; by right|done]). clear IH.
    pose proof (Hl e ltac:(by left)) as He.
    (* what the entry adds, followed by the rest *)
    assert (∃ n1, NoDup n1 ∧ (∀ f, f ∈ n1 ↔ through rel [e] f) ∧
      enumerate_entries (enumerate b fuel (join "/" root)) (join "/" rel) (e :: es) files =
      (bounded files n1 ≫= λ f, enumerate_entries (enumerate b fuel (join "/" root)) (join "/" rel) es f)) as (n1 & Hnd1 & H1 & E1).
    { simpl. fold (hidden e.(mi_name)). destruct (hidden e.(mi_name)) eqn:Eh.
      - exists []. split; [constructor|]. split; [|by rewrite bounded_nil].
        intros f. split; [by intros ?%elem_of_nil|]. intros H. by apply through_hidden in H.
      - rewrite (Join_rel _ _ _ Hr He). destruct (mi_dir e) eqn:Ed.
        + destruct (Hrec e ltac:(by left) Ed Eh files Hf) as (n1 & Hnd1 & Hn1 & E1). exists n1. split; [done|].
          split; [|by rewrite E1]. intros f. rewrite Hn1. symmetry. by apply through_dir.
        + case_bool_decide as Es.
          * exists []. split; [constructor|]. split; [|by rewrite bounded_nil].
            intros f. split; [by intros ?%elem_of_nil|]. intros H. by apply through_file in H as [-> ?].
          * exists [join "/" (rel ++ [mi_name e])]. split; [apply NoDup_singleton|]. split.
            -- intros f. rewrite list_elem_of_singleton, through_file by done. split; [by intros ->|by intros [? _]].
            -- unfold bounded, ensure. change (zlen [_]) with 1.
               destruct (Z.ltb_spec (zlen files) MaxCompiledSkillFiles), (Z.leb_spec (zlen files + 1) MaxCompiledSkillFiles);
                 [done|lia|lia|done]. }
    destruct (bounded files n1) as [files1|e1] eqn:Eb.
    + apply bounded_ok in Eb as E. destruct E as [-> Hlen]. destruct (IH' _ Hlen) as (n2 & Hnd2 & H2 & E2).
      exists (n1 ++ n2). split_and!.
      * apply NoDup_app. split_and!; [done| |done]. intros f Hf1%H1 Hf2%H2.
        by apply (through_disjoint rel e es f).
      * intros f. rewrite elem_of_app, H1, H2. symmetry. apply through_cons.
      * rewrite E1. simpl. rewrite E2, <- bounded_app, Eb. done.
    + destruct (IH' [] ltac:(by vm_compute)) as (n2 & Hnd2 & H2 & _). exists (n1 ++ n2). split_and!.
      * apply NoDup_app. split_and!; [done| |done]. intros f Hf1%H1 Hf2%H2.
        by apply (through_disjoint rel e es f).
      * intros f. rewrite elem_of_app, H1, H2. symmetry. apply through_cons.
      * rewrite E1. rewrite <- bounded_app, Eb. done.
Qed.

Lemma supporting_through rel es f : good rel → (∀ e, e ∈ es ↔ listed b (root ++ rel) e) →
  supporting_at b root rel f ↔ through rel es f.
Proof using Hb Hroot Hne.
  intros Hr Hes. split.
  - intros (l & Hn & -> & Hf & G & Hv & data & Hk). destruct l as [|c l]; [done|].
    apply Forall_cons in Hv as [Hc Hv]. exists (entry c l data), l. rewrite entry_name. split_and!; try done.
    + apply Hes. exists (join "/" (root ++ rel ++ c :: l)), data, c, l. split_and!; [done| |done].
      rewrite <- app_assoc. apply parts_join; [by destruct root|]. by rewrite !good_app.
    + by apply (good_app [c] l) in G as [_ ?].
    + by exists data.
  - intros (e & l & He%Hes & Hh & -> & Hf & G & Hv & data & Hk). exists (e.(mi_name) :: l). split_and!; try done.
    + apply (good_app [_] l). split; [by eapply listed_good|done].
    + by constructor.
    + by exists data.
Qed.

Lemma enumerate_ok fuel rel : good rel → (∃ i, listed b (root ++ rel) i) →
  (∀ key data l, b !! key = Some data → parts key = root ++ rel ++ l → (length l <= fuel)%nat) →
  enumerates (S fuel) rel.
Proof using Hb Hroot Hne.
  revert rel. induction fuel as [|fuel IH]; intros rel Hr Hex Hfuel files Hf.
  { destruct Hex as (i & key & data & c & r & Hk & E & _). rewrite <- app_assoc in E. specialize (Hfuel _ _ _ Hk E). simpl in Hfuel. lia. }
  remember (S fuel) as n. simpl. rewrite Join_root by done.
  assert (good (root ++ rel)) as Hg by (by apply good_app).
  destruct (ReadDir_ok b (root ++ rel) Hb Hg) as (es & Hes & Hnd & Hin); [by right|].
  unfold dir_name in Hes. rewrite bool_decide_eq_false_2 in Hes by (by destruct root). rewrite Hes.
  destruct (enumerate_entries_ok n rel es files Hr Hnd) as (new & Hnew & Hm & E); [intros e He; by apply Hin| |done|].
  - intros e He Hd Hh. subst n. apply IH.
    + apply good_app. split; [done|]. eapply listed_good. by apply Hin.
    + apply Hin in He as (key & data & c & r & Hk & E & ->). destruct r as [|c' r]; [done|].
      exists (entry c' r data), key, data, c', r. split_and!; [done| |done]. simpl. by rewrite E, <- !app_assoc.
    + intros key data l Hk E. specialize (Hfuel key data (e.(mi_name) :: l) Hk). rewrite <- app_assoc in E.
      specialize (Hfuel E). simpl in Hfuel. lia.
  - exists new. split; [done|]. split; [|done]. intros f. rewrite Hm. symmetry. by apply supporting_through.
Qed.
End enumerate.

(** ** Compiling from the files that were read

    Two bundles, the second a part of the first that holds every file the
    compiler read. *)

Lemma confined_path_ok b base rel st st' p : confined_path b base rel st = (st', Ok p) ↔ confine b base rel = Ok p ∧ st' = st.
Proof. unfold confined_path. rewrite lift_result_ok. destruct (confine b base rel) as [q|e]; naive_solver. Qed.

Lemma read_source_ok b name limit st st' data : read_source b name limit st = (st', Ok data) ↔
  readFS b name limit = Ok data ∧ st' = <[name := data]> st.
Proof. unfold read_source, read. destruct (readFS b name limit) as [d|e]; simpl; naive_solver. Qed.

Lemma try_ok {S E F A} (m : prog S E A) s s' (r : result E A) : try (F := F) m s = (s', Ok r) ↔ m s = (s', r).
Proof. unfold try. destruct (m s) as [s1 r1]. naive_solver. Qed.

Lemma rel_parts_join l : l ≠ [] → good l → rel_parts (join "/" l) = l.
Proof. intros Hn Hg. unfold rel_parts. rewrite parts_join by done. by apply good_filter. Qed.

Lemma insert_sub (m b : Bundle) k v : m ⊆ b → b !! k = Some v → m ⊆ <[k := v]> m ∧ <[k := v]> m ⊆ b.
Proof.
  intros Hs Hk. split.
  - apply map_subseteq_spec. intros i x Hi. destruct (decide (i = k)) as [->|]; [|by rewrite lookup_insert_ne].
    rewrite lookup_insert_eq. pose proof (lookup_weaken _ _ _ _ Hi Hs). congruence.
  - by apply insert_subseteq_l.
Qed.

Section stable.
Context `{codec : Codec} (b b' : Bundle).
Context (Hb : bundle_ok b) (Hs : b' ⊆ b).

Lemma sub_ok : bundle_ok b'.
Proof using Hb Hs. by eapply bundle_ok_sub. Qed.

(** Reading a confined file. *)
Lemma confine_read bp relative path limit data : good bp → rel_parts relative ≠ [] →
  confine b (join "/" bp) relative = Ok path → readFS b path limit = Ok data →
  path = join "/" (bp ++ rel_parts relative) ∧ good (rel_parts relative) ∧ b !! path = Some data ∧
  (∀ reads : Bundle, reads !! path = Some data → reads ⊆ b' →
    confine b' (join "/" bp) relative = Ok path ∧ readFS b' path limit = Ok data).
Proof using Hb Hs.
  intros Hbp Hn Hc Hr. pose proof Hc as Hc'. apply confine_ok in Hc' as (Hcf & -> & _); [|done..].
  apply readFS_ok in Hr as (Hv & Hk & Hl). pose proof (rel_parts_good _ Hcf) as Hg. split_and!; [done..|].
  intros reads Hk' Hsub. pose proof (lookup_weaken _ _ _ _ Hk' Hsub) as Hkb. split.
  - eapply confine_transfer; [apply sub_ok|done..|]. eexists _, _. split; [exact Hkb|]. exists [].
    rewrite app_nil_r. apply parts_join; [by destruct bp|by apply good_app].
  - by apply readFS_ok.
Qed.

Lemma compile_supporting_stable bp names files st st' out : good bp → bp ≠ [] → Forall (λ n, rel_parts n ≠ []) names →
  st ⊆ b → compile_supporting b (join "/" bp) names files st = (st', Ok out) →
  st ⊆ st' ∧ st' ⊆ b ∧ (∀ n, n ∈ names → is_Some (st' !! join "/" (bp ++ rel_parts n))) ∧
  (st' ⊆ b' → compile_supporting b' (join "/" bp) names files st = (st', Ok out)).
Proof using Hb Hs.
  intros Hbp Hbn Hnames. revert files st. induction Hnames as [|n names Hn Hnames IH]; intros files st Hst H; simpl in H.
  { injection H as -> ->. split_and!; [done..|by intros n ?%elem_of_nil|done]. }
  apply svc_bind_ok in H as ([] & s1 & H1 & H). pose proof H1 as H1'. apply unless_ok in H1' as [Hu ->].
  apply svc_bind_ok in H as (r & s2 & H2 & H). rewrite try_ok in H2.
  apply svc_bind_ok in H as (data & s3 & H3 & H). apply lift_result_ok in H3 as [H3 ->].
  destruct r as [d|e]; [injection H3 as ->|done].
  apply svc_bind_ok in H2 as (path & s4 & Hp & Hr). apply confined_path_ok in Hp as [Hp ->].
  apply read_source_ok in Hr as [Hr ->].
  destruct (confine_read _ _ _ _ _ Hbp Hn Hp Hr) as (Epath & Hg & Hk & Htr).
  destruct (insert_sub _ _ _ _ Hst Hk) as [Hsub1 Hsub2].
  destruct (IH _ _ Hsub2 H) as (Hm1 & Hm2 & Hall & Hstable).
  assert (st' !! path = Some data) as Hpath by (eapply lookup_weaken; [apply lookup_insert_eq|done]).
  split_and!; [by trans (<[path := data]> st)|done| |].
  - intros m [->|Hin]%elem_of_cons; [rewrite <- Epath; by eexists|by apply Hall].
  - intros Hb'. destruct (Htr st' Hpath Hb') as [Hc Hf]. simpl. apply svc_bind_ok. exists tt, st. split; [done|].
    apply svc_bind_ok. exists (Ok data), (<[path := data]> st). split.
    + rewrite try_ok. apply svc_bind_ok. exists path, st. split; [by apply confined_path_ok|by apply read_source_ok].
    + apply svc_bind_ok. exists data, (<[path := data]> st). split; [done|]. by apply Hstable.
Qed.

Lemma is_directory_dir (c : Bundle) l : bundle_ok c → l ≠ [] → good l →
  is_directory c (join "/" l) = true → ValidPath (join "/" l) = true ∧ c !! join "/" l = None ∧ ∃ i, listed c l i.
Proof using.
  intros Hc Hn Hl. unfold is_directory. destruct (Open c (join "/" l)) as [[d|]|e] eqn:E; [done| |done].
  intros _. split; [by eapply Open_valid|]. by apply Open_dir.
Qed.

Lemma is_directory_below l x r key data : l ≠ [] → good l → ValidPath (join "/" l) = true → b !! join "/" l = None →
  b' !! key = Some data → parts key = l ++ x :: r → is_directory b' (join "/" l) = true.
Proof using Hb Hs.
  intros Hn Hl Hv Hno Hk E. unfold is_directory.
  destruct (Open_below b' l sub_ok Hn Hl Hv) as [f Hf]; [by exists key, data; split; [|exists (x :: r)]|].
  rewrite Hf. destruct f as [d|]; [|done]. apply Open_file in Hf as [_ Hf].
  pose proof (lookup_weaken _ _ _ _ Hf Hs). congruence.
Qed.

Lemma skill_file_of_stable relative st st' root data : Clean relative ≠ "." → st ⊆ b →
  skill_file_of b relative st = (st', Ok (root, data)) →
  let rp := rel_parts relative in
  rp ≠ [] ∧ good rp ∧ root = join "/" rp ∧ st ⊆ st' ∧ st' ⊆ b ∧ (∃ i, listed b rp i) ∧
  st' !! join "/" (rp ++ ["SKILL.md"]) = Some data ∧
  (∀ st2 : Bundle, st' ⊆ st2 → st2 ⊆ b' → skill_file_of b' relative st = (st', Ok (root, data)) ∧ ∃ i, listed b' rp i).
Proof using Hb Hs.
  intros Hcl Hst H rp. unfold skill_file_of in H.
  apply svc_bind_ok in H as (p & s1 & Hp & H). apply confined_path_ok in Hp as [Hp ->].
  assert (confined relative = true) as Hc.
  { unfold confine in Hp. rewrite !ensure_bind in Hp. destruct Hp as (H1 & H2 & _). unfold confined. by rewrite H1, H2. }
  assert (rp ≠ []) as Hn.
  { intros E. apply Hcl. rewrite Clean_confined by done. fold rp. by rewrite E. }
  pose proof (rel_parts_good _ Hc) as Hg. fold rp in Hg. pose proof Hp as Hp'. change "" with (join "/" []) in Hp.
  apply (confine_ok b [] relative p) in Hp' as (_ & Ep & _); [|constructor|done]. simpl in Ep. fold rp in Ep.
  apply svc_bind_ok in H as ([] & s1 & Hd & H). apply unless_ok in Hd as [Hd ->]. rewrite Ep in Hd.
  apply is_directory_dir in Hd as (Hv & Hno & Hl); [|done..].
  apply svc_bind_ok in H as (path & s1 & Hpath & H). apply confined_path_ok in Hpath as [Hpath ->].
  apply svc_bind_ok in H as (d & s1 & Hr & H). apply read_source_ok in Hr as [Hr ->]. injection H as <- <- ->.
  rewrite Ep in Hpath. assert (rel_parts "SKILL.md" = ["SKILL.md"]) as Hsk by reflexivity.
  destruct (confine_read rp "SKILL.md" path MaxSkillBytes data Hg ltac:(by rewrite Hsk) Hpath Hr) as (Epath & _ & Hk & Htr).
  rewrite Hsk in Epath. destruct (insert_sub _ _ _ _ Hst Hk) as [Hs1 Hs2].
  split_and!; [done..|by rewrite <- Epath, lookup_insert_eq|].
  intros st2 Hsub Hb'. assert (st2 !! path = Some data) as Hin by (eapply lookup_weaken; [apply lookup_insert_eq|done]).
  destruct (Htr st2 Hin Hb') as [Hc' Hf']. pose proof (lookup_weaken _ _ _ _ Hin Hb') as Hkb.
  assert (parts path = rp ++ ["SKILL.md"]) as Hparts.
  { rewrite Epath. apply parts_join; [by destruct rp|]. apply good_app. split; [done|]. by repeat constructor. }
  split.
  - unfold skill_file_of. apply svc_bind_ok. exists p, st. split.
    { apply confined_path_ok. split; [|done]. apply (confine_transfer b b' [] relative p); [apply sub_ok|constructor|done|done|].
      exists path, data. split; [done|]. exists ["SKILL.md"]. done. }
    apply svc_bind_ok. exists tt, st. split.
    { apply unless_ok. split; [|done]. rewrite Ep. eapply is_directory_below; [done..|exact Hkb|exact Hparts]. }
    apply svc_bind_ok. exists path, st. split; [apply confined_path_ok; split; [by rewrite Ep|done]|].
    apply svc_bind_ok. exists data, (<[path := data]> st). split; [by apply read_source_ok|]. done.
  - eexists. eapply below_listed; [exact Hkb|exact Hparts].
Qed.

(** The enumeration of a directory gives the same files when all of them were
    read. *)
Lemma bundle_depth_enough c key data : c !! key = Some data → (length (parts key) <= bundle_depth c)%nat.
Proof using.
  intros Hk. apply elem_of_map_to_list in Hk. unfold bundle_depth.
  induction (map_to_list c) as [|f l IH]; [by apply elem_of_nil in Hk|].
  apply elem_of_cons in Hk as [<-|Hk]; simpl; [lia|]. specialize (IH Hk). lia.
Qed.

Lemma enumerate_all (c : Bundle) l : bundle_ok c → good l → l ≠ [] → (∃ i, listed c l i) →
  ∃ new, NoDup new ∧ (∀ f, f ∈ new ↔ supporting_at c l [] f) ∧
    enumerate c (S (bundle_depth c)) (join "/" l) "" [] = bounded [] new.
Proof using.
  intros Hc Hg Hn Hl. apply (enumerate_ok c l Hc Hg Hn (bundle_depth c) []); [constructor|by rewrite app_nil_r| |by vm_compute].
  intros key data k Hk E. apply bundle_depth_enough in Hk. rewrite E, !length_app in Hk. simpl in Hk. lia.
Qed.

Lemma supporting_rel (c : Bundle) l f : supporting_at c l [] f → rel_parts f ≠ [] ∧ ∃ data, c !! join "/" (l ++ rel_parts f) = Some data.
Proof using. intros (k & Hn & -> & _ & G & _ & data & Hk). simpl in *. rewrite rel_parts_join by done. split; [done|]. by exists data. Qed.

Lemma enumerate_stable rp sup (st : Bundle) : good rp → rp ≠ [] → (∃ i, listed b rp i) → (∃ i, listed b' rp i) →
  st ⊆ b' → (∀ f, f ∈ sup → is_Some (st !! join "/" (rp ++ rel_parts f))) →
  enumerate b (S (bundle_depth b)) (join "/" rp) "" [] = Ok sup →
  ∃ sup', sup' ≡ₚ sup ∧ enumerate b' (S (bundle_depth b')) (join "/" rp) "" [] = Ok sup'.
Proof using Hb Hs.
  intros Hg Hn Hl Hl' Hst Hread E.
  destruct (enumerate_all b rp Hb Hg Hn Hl) as (new & Hnd & Hm & E1).
  destruct (enumerate_all b' rp sub_ok Hg Hn Hl') as (new' & Hnd' & Hm' & E2).
  rewrite E1 in E. apply bounded_ok in E as [-> Hlen]. simpl in *.
  assert (new' ≡ₚ new) as Hp.
  { apply NoDup_Permutation; [done..|]. intros f. rewrite Hm'. split.
    - intros (k & ? & ? & ? & ? & ? & data & Hk). apply Hm. exists k. split_and!; [done..|].
      exists data. by eapply lookup_weaken.
    - intros Hf. pose proof (Hread f Hf) as [data Hd]. apply Hm in Hf as (k & ? & -> & ? & ? & ? & d & Hk).
      exists k. split_and!; [done..|]. simpl in Hd. rewrite rel_parts_join in Hd by done.
      exists data. by eapply lookup_weaken. }
  exists new'. split; [done|]. rewrite E2. unfold bounded, zlen in *. simpl.
  rewrite (Permutation_length Hp). by rewrite (proj2 (Z.leb_le _ _)) by done.
Qed.

Lemma compileSkill_inv (c : Bundle) d st st' pkg : compileSkill c d st = (st', Ok pkg) → ∃ s1 root data description files,
  skill_file_of c d.(sd_Root) st = (s1, Ok (root, data)) ∧ skillMetadata data = Ok (d.(sd_Name), description) ∧
  compile_supporting c root d.(sd_SupportingFiles) ∅ s1 = (st', Ok files).
Proof using.
  intros H. apply svc_bind_ok in H as ([root data] & s1 & H1 & H). apply svc_bind_ok in H as ([name desc] & s2 & H2 & H).
  apply lift_result_ok in H2 as [H2 ->]. apply svc_bind_ok in H as ([] & s2 & H3 & H). apply unless_ok in H3 as [H3 ->].
  apply bool_decide_eq_true in H3. apply svc_bind_ok in H as (files & s2 & H4 & H). injection H as -> _.
  exists s1, root, data, desc, files. by rewrite <- H3.
Qed.

Lemma compileSkill_same (c c' : Bundle) d st st' pkg s1 r files :
  compileSkill c d st = (st', Ok pkg) →
  skill_file_of c d.(sd_Root) st = (s1, Ok r) → skill_file_of c' d.(sd_Root) st = (s1, Ok r) →
  compile_supporting c r.1 d.(sd_SupportingFiles) ∅ s1 = (st', Ok files) →
  compile_supporting c' r.1 d.(sd_SupportingFiles) ∅ s1 = (st', Ok files) →
  compileSkill c' d st = (st', Ok pkg).
Proof using.
  intros H H1 H1' H2 H2'. rewrite <- H. unfold compileSkill, mbind, prog_bind. rewrite H1, H1'. destruct r as [root data].
  unfold lift_result. destruct (skillMetadata data) as [[name desc]|e]; [|done]. unfold unless.
  destruct (bool_decide _); [|done]. unfold mret, prog_ret. simpl in *. by rewrite H2, H2'.
Qed.

Lemma compileSkillDir_stable relative st st' pkg : st ⊆ b → compileSkillDir b relative st = (st', Ok pkg) →
  st ⊆ st' ∧ st' ⊆ b ∧ (st' ⊆ b' → compileSkillDir b' relative st = (st', Ok pkg)).
Proof using Hb Hs.
  intros Hst H. unfold compileSkillDir in H. apply svc_bind_ok in H as ([] & s0 & Hu & H). pose proof Hu as Hu'.
  apply unless_ok in Hu' as [Hcl ->]. apply negb_true_iff, bool_decide_eq_false in Hcl.
  apply svc_bind_ok in H as ([root data] & s1 & H1 & H). apply svc_bind_ok in H as (m & s2 & H2 & H).
  apply lift_result_ok in H2 as [H2 ->]. apply svc_bind_ok in H as (sup & s2 & H3 & H). apply lift_result_ok in H3 as [H3 ->].
  destruct (skill_file_of_stable _ _ _ _ _ Hcl Hst H1) as (Hn & Hg & -> & Hm1 & Hm2 & Hl & Hsk & Hfile).
  set (rp := rel_parts relative) in *.
  set (d := mk_skillDeclaration _ _ _ _ _) in H. pose proof H as Hinv.
  apply compileSkill_inv in Hinv as (s3 & root2 & data2 & desc & files & H4 & _ & H5).
  destruct (skill_file_of_stable _ _ _ _ _ Hcl Hm2 H4) as (_ & _ & -> & Hm3 & Hm4 & _ & _ & Hfile2).
  change (sd_SupportingFiles d) with (sort_strings sup) in H5.
  assert (Forall (λ n, rel_parts n ≠ []) (sort_strings sup)) as Hrel.
  { apply Forall_forall. intros f. rewrite elem_of_sort_strings. intros Hf.
    destruct (enumerate_all b rp Hb Hg Hn Hl) as (new & _ & Hm & E1). rewrite E1 in H3. apply bounded_ok in H3 as [-> _].
    apply Hm in Hf. by apply supporting_rel in Hf as [? _]. }
  destruct (compile_supporting_stable _ _ _ _ _ _ Hg Hn Hrel Hm4 H5) as (Hm5 & Hm6 & Hall & Hstable).
  split_and!; [by trans s1; [|trans s3]|done|]. intros Hb'.
  destruct (Hfile st' ltac:(by trans s3) Hb') as [Hf1 Hl']. destruct (Hfile2 st' Hm5 Hb') as [Hf2 _].
  assert (∀ f, f ∈ sup → is_Some (st' !! join "/" (rp ++ rel_parts f))) as Hread by (intros f Hf; apply Hall; by apply elem_of_sort_strings).
  destruct (enumerate_stable rp sup st' Hg Hn Hl Hl' Hb' Hread H3) as (sup' & Hp & E').
  unfold compileSkillDir. apply svc_bind_ok. exists tt, st. split; [done|]. apply svc_bind_ok. exists (join "/" rp, data), s1. split; [done|].
  apply svc_bind_ok. exists m, s1. split; [by apply lift_result_ok|]. apply svc_bind_ok. exists sup', s1. split; [by apply lift_result_ok|].
  rewrite (sort_strings_unique _ _ Hp). fold d.
  by eapply (compileSkill_same b b' d s1 st' pkg s3 (join "/" rp, data2) files); [done|done|done|done|apply Hstable].
Qed.
End stable.

(** ** The whole compile *)

Section transfer.
Context `{codec : Codec} `{yaml : Yaml} (b b' : Bundle).
Context (Hb : bundle_ok b) (Hs : b' ⊆ b).

(** [m'] on the smaller bundle does what [m] did, when all that was read is
    there. *)
Definition transfers {A} (m m' : prog cstate failure A) : Prop := ∀ st st' a,
  cs_reads st ⊆ b → m st = (st', Ok a) →
  cs_reads st ⊆ cs_reads st' ∧ cs_reads st' ⊆ b ∧ (cs_reads st' ⊆ b' → m' st = (st', Ok a)).

Lemma transfers_bind {A B} (m m' : prog cstate failure A) (f f' : A → prog cstate failure B) :
  transfers m m' → (∀ a, transfers (f a) (f' a)) → transfers (m ≫= f) (m' ≫= f').
Proof using.
  intros Hm Hf st st' c Hst H. apply svc_bind_ok in H as (a & s1 & H1 & H2).
  destruct (Hm _ _ _ Hst H1) as (M1 & M2 & M3). destruct (Hf a _ _ _ M2 H2) as (F1 & F2 & F3).
  split_and!; [by trans (cs_reads s1)|done|]. intros Hsub. apply svc_bind_ok. exists a, s1.
  split; [apply M3; by trans (cs_reads st')|by apply F3].
Qed.

(** A program that reads nothing. *)
Lemma transfers_quiet {A} (m : prog cstate failure A) : (∀ st, cs_reads (m st).1 = cs_reads st) → transfers m m.
Proof using. intros Hq st st' a Hst H. specialize (Hq st). rewrite H in Hq. simpl in Hq. by rewrite Hq. Qed.

Lemma transfers_reads {A} (wrap : package_error → failure) (m m' : prog Bundle package_error A) :
  (∀ st st' a, st ⊆ b → m st = (st', Ok a) → st ⊆ st' ∧ st' ⊆ b ∧ (st' ⊆ b' → m' st = (st', Ok a))) →
  transfers (reads wrap m) (reads wrap m').
Proof using.
  intros Hm st st' a Hst H. unfold reads in H. destruct (m (cs_reads st)) as [r [x|e]] eqn:E; [|done].
  injection H as <- <-. destruct (Hm _ _ _ Hst E) as (? & ? & Hm'). split_and!; [done..|]. simpl. intros Hsub.
  unfold reads. by rewrite Hm'.
Qed.

Lemma journey_skill_transfers n skill : transfers (journey_skill b n skill) (journey_skill b' n skill).
Proof using Hb Hs.
  apply transfers_bind; [by apply transfers_quiet|]. intros [pkg|]; [by apply transfers_quiet|].
  apply transfers_bind; [apply transfers_reads; intros; by eapply compileSkillDir_stable|].
  intros pkg. destruct (skillFootprint pkg) as [bytes files]. apply transfers_quiet. intros st.
  unfold mbind, prog_bind, asks, unless. by destruct (negb _).
Qed.

Lemma compileJourney_transfers catalog n rj : transfers (compileJourney b catalog n rj) (compileJourney b' catalog n rj).
Proof using Hb Hs.
  unfold compileJourney. repeat (apply transfers_bind; [first [apply journey_skill_transfers|
    apply transfers_quiet; intros st; unfold checked, lift_result, unless; by repeat case_match]|intros ?]).
  destruct a2. apply transfers_bind; [apply transfers_quiet; intros st; unfold unless; by case_match|intros ?].
  apply transfers_bind; [apply journey_skill_transfers|intros ?]. by apply transfers_quiet.
Qed.

Lemma compile_journeys_transfers catalog n rjs s :
  transfers (compile_journeys b catalog n rjs s) (compile_journeys b' catalog n rjs s).
Proof using Hb Hs.
  revert n s. induction rjs as [|rj rjs IH]; intros n s; simpl; [by apply transfers_quiet|].
  apply transfers_bind; [apply compileJourney_transfers|intros j].
  apply transfers_bind; [apply transfers_quiet; intros st; unfold unless; by case_match|intros ?]. apply IH.
Qed.

Lemma conversation_prompt_stable relative st st' a : st ⊆ b → conversation_prompt b relative st = (st', Ok a) →
  st ⊆ st' ∧ st' ⊆ b ∧ (st' ⊆ b' → conversation_prompt b' relative st = (st', Ok a)).
Proof using Hb Hs.
  intros Hst. unfold conversation_prompt. case_bool_decide as Er; [by intros [= <- <-]|]. intros H.
  apply svc_bind_ok in H as (path & s1 & Hp & H). apply confined_path_ok in Hp as [Hp ->].
  apply read_source_ok in H as [Hr ->].
  destruct (decide (rel_parts relative = [])) as [Hn|Hn].
  - exfalso. assert (confined relative = true) as Hc.
    { unfold confine in Hp. rewrite !ensure_bind in Hp. destruct Hp as (H1 & H2 & _). unfold confined. by rewrite H1, H2. }
    unfold confine in Hp. rewrite !ensure_bind in Hp. destruct Hp as (_ & _ & _ & Hp).
    rewrite Clean_confined, Hn in Hp by done. apply bind_ok in Hp as ([] & _ & [= <-]).
    apply readFS_ok in Hr as (_ & Hk & _). destruct Hb as (_ & _ & Hf). by destruct (Hf _ _ Hk).
  - destruct (confine_read b b' Hb Hs [] relative path _ _ ltac:(constructor) Hn Hp Hr) as (_ & _ & Hk & Htr).
    destruct (insert_sub _ _ _ _ Hst Hk) as [H1 H2]. split_and!; [done..|]. intros Hsub.
    destruct (Htr (<[path := a]> st)) as [Hc Hf]; [apply lookup_insert_eq|done|].
    apply svc_bind_ok. exists path, st. split; [by apply confined_path_ok|by apply read_source_ok].
Qed.

Lemma compileSource_transfers data : b !! BundleConfig = Some data → b' !! BundleConfig = Some data →
  transfers (compileSource b) (compileSource b').
Proof using Hb Hs.
  intros Hd Hd'. unfold compileSource.
  assert (readFS b' BundleConfig MaxConfigBytes = readFS b BundleConfig MaxConfigBytes) as ->.
  { unfold readFS, Open. by rewrite Hd, Hd'. }
  apply transfers_bind; [apply transfers_quiet; intros st; unfold lift_result; by case_match|intros cfg].
  apply transfers_bind; [by apply transfers_quiet|intros raw].
  apply transfers_bind; [by apply transfers_quiet|intros catalog].
  apply transfers_bind; [apply transfers_quiet; intros st; unfold unless; by case_match|intros ?].
  apply transfers_bind; [apply transfers_reads, conversation_prompt_stable|intros prompt].
  apply transfers_bind; [apply compile_journeys_transfers|intros s].
  apply transfers_quiet. by intros st; unfold mbind, prog_bind, asks, checked, lift_result; repeat case_match.
Qed.
End transfer.

Lemma compileSource_ok `{Codec} `{Yaml} b st0 st set : compileSource b st0 = (st, Ok set) →
  ∃ data raw, readFS b BundleConfig MaxConfigBytes = Ok data ∧ decode data = Ok raw ∧
    set.(set_bundle) = source_bundle (cs_reads st) data.
Proof.
  intros Hc. apply svc_bind_ok in Hc as (data & s1 & H1 & Hc). apply lift_result_ok in H1 as [H1 ->].
  apply svc_bind_ok in Hc as (raw & s1 & H2 & Hc). apply lift_result_ok in H2 as [H2 ->].
  exists data, raw. destruct (readFS _ _ _) as [d|e]; [|done]. injection H1 as ->. split_and!; [done..|]. svcsimpl.
  repeat match goal with H : checked _ _ _ = _ |- _ => apply lift_result_ok in H as [_ ->]
    | H : asks _ _ = _ |- _ => injection H as <- <- end.
  cbv zeta in Hc. svcsimpl. repeat match goal with H : checked _ _ _ = _ |- _ => apply lift_result_ok in H as [_ ->] end. done.
Qed.

Lemma CompileBundle_again `{Codec} `{Yaml} (b : Bundle) (set : DefSet) :
  CompileBundle b = Ok set → CompileBundle set.(set_bundle) = Ok set.
Proof.
  unfold CompileBundle. destruct (validateBundle b) as [[]|e] eqn:Ev; [|done]. apply validateBundle_ok in Ev.
  intros [_ Hc]%ensure_bind. destruct (compileSource b _) as [st r] eqn:E. simpl in Hc. subst r.
  destruct (compileSource_ok _ _ _ _ E) as (data & raw & Hr & _ & Hbun). apply readFS_ok in Hr as (_ & Hd & _).
  set (b' := set_bundle set) in *.
  assert (b' !! BundleConfig = Some data) as Hd' by (rewrite Hbun; apply lookup_insert_eq).
  assert (cs_reads st ⊆ b) as Hrb.
  { destruct (compileSource_transfers b b Ev ltac:(done) data Hd Hd _ _ _ (map_empty_subseteq b) E) as (_ & ? & _). done. }
  assert (b' ⊆ b) as Hsub by (rewrite Hbun; by apply insert_subseteq_l).
  assert (cs_reads st ⊆ b') as Hrb'.
  { rewrite Hbun. by apply (insert_sub _ b). }
  destruct (compileSource_transfers b b' Ev Hsub data Hd Hd' _ _ _ (map_empty_subseteq b) E) as (_ & _ & H').
  rewrite (proj2 (validateBundle_ok b')) by (by eapply bundle_ok_sub). apply ensure_bind. rewrite Hd'. split; [done|].
  by rewrite H'.
Qed.

(** C23: compiling the files a set was compiled from gives the same set: every
    field, the digest and the bundle included.  So the bundle of a set names
    it: the files that are stored for a digest compile to that digest. *)
Theorem CompileBundle_stable `{Codec} `{Yaml} (b : Bundle) (set : DefSet) :
  CompileBundle b = Ok set → CompileBundle set.(set_bundle) = Ok set.
Proof. apply CompileBundle_again. Qed.
