(* ===== verification/CompileWf.v ===== *)
(** * What a compiled set is

    The invariants of a set [CompileBundle] returns, that the rest of the
    platform relies on: the shape of its journeys and tool lists, the sizes and
    digests of its skill material, and the consistency of its journeys. *)
From S2P Require Import Prelude GoText Db CallBinding Service.
From S2P Require Import GoPath Bundle BundleSpec Selectors Journey Compile Skill CompileSet CompileSpec.
From S2P Require Import Dispatch.
From Stdlib Require Import Ascii.

Section wf.
Context `{codec : Codec} `{yaml : Yaml}.

Definition snapshot_ok (f : SkillFile) : Prop := f.(sf_Digest) = hex (sha256 f.(sf_Data)).

(** A compiled package: its files are what their digests say, and it can be
    shown to a model. *)
Definition package_ok (p : SkillPackage) : Prop :=
  skillMetadata p.(sp_Instructions).(sf_Data) = Ok (p.(sp_Name), p.(sp_Description)) ∧
  p.(sp_Disabled) = false ∧ (p.(sp_AllowSupportingFiles) = true ↔ p.(sp_Supporting) ≠ ∅) ∧
  p.(sp_Instructions).(sf_Name) = "SKILL.md" ∧ snapshot_ok p.(sp_Instructions) ∧ map_Forall (λ name f, f.(sf_Name) = name ∧ snapshot_ok f) p.(sp_Supporting) ∧
  p.(sp_Digest) = hex (sha256 (skill_text p)).

Lemma compile_supporting_ok b root names files st st' out :
  map_Forall (λ name f, f.(sf_Name) = name ∧ snapshot_ok f) files →
  compile_supporting b root names files st = (st', Ok out) →
  map_Forall (λ name f, f.(sf_Name) = name ∧ snapshot_ok f) out ∧ dom out = list_to_set names ∪ dom files.
Proof using.
  revert files st. induction names as [|n names IH]; intros files st Hf H; simpl in H.
  { injection H as _ <-. split; [done|]. simpl. set_solver. }
  apply svc_bind_ok in H as ([] & s1 & _ & H). apply svc_bind_ok in H as (r & s2 & _ & H).
  apply svc_bind_ok in H as (data & s3 & _ & H). apply IH in H as [H1 H2].
  - split; [done|]. rewrite H2, dom_insert_L. simpl. set_solver.
  - by apply map_Forall_insert_2.
Qed.

Lemma compileSkillDir_ok b relative st st' p : compileSkillDir b relative st = (st', Ok p) → package_ok p.
Proof using.
  intros H. unfold compileSkillDir in H. apply svc_bind_ok in H as ([] & s0 & _ & H).
  apply svc_bind_ok in H as ([root data] & s1 & _ & H). apply svc_bind_ok in H as (m & s2 & _ & H).
  apply svc_bind_ok in H as (sup & s3 & _ & H). unfold compileSkill in H.
  apply svc_bind_ok in H as ([root2 data2] & s4 & _ & H). apply svc_bind_ok in H as ([name desc] & s5 & Hm & H).
  apply lift_result_ok in Hm as [Hm ->]. apply svc_bind_ok in H as ([] & s6 & Hn & H). apply unless_ok in Hn as [Hn ->].
  apply svc_bind_ok in H as (files & s7 & Hf & H). injection H as -> <-.
  apply compile_supporting_ok in Hf as [Hf Hdom]; [|apply map_Forall_empty]. simpl in Hdom.
  unfold package_ok. simpl. split_and!; try done. rewrite negb_true_iff, bool_decide_eq_false.
  split; intros Hne E; apply Hne.
  - rewrite E in Hdom. destruct (sort_strings sup); [done|]. set_solver.
  - rewrite E in Hdom. apply dom_empty_iff_L. rewrite Hdom. set_solver.
Qed.

(** ** The state of the compile *)

(** What the packages of a map hold together, in bytes and in files. *)
Definition package_bytes (m : gmap string SkillPackage) : Z := map_fold (λ _ p n, (skillFootprint p).1 + n) 0 m.
Definition package_files (m : gmap string SkillPackage) : Z := map_fold (λ _ p n, (skillFootprint p).2 + n) 0 m.

Lemma package_insert m key p : m !! key = None →
  package_bytes (<[key := p]> m) = package_bytes m + (skillFootprint p).1 ∧
  package_files (<[key := p]> m) = package_files m + (skillFootprint p).2.
Proof using.
  intros Hk. unfold package_bytes, package_files. rewrite !map_fold_insert_L by (try done; intros; lia). lia.
Qed.

(** Each package is counted once, whatever number of journeys uses it. *)
Definition cstate_ok (st : cstate) : Prop :=
  map_Forall (λ _ p, package_ok p) st.(cs_skills) ∧
  st.(cs_skillBytes) = package_bytes st.(cs_skills) ∧ st.(cs_skillFiles) = package_files st.(cs_skills) ∧
  st.(cs_skillBytes) <= MaxCompiledSkillBytes ∧ st.(cs_skillFiles) <= MaxCompiledSkillFiles.

(** The packages of a step of the compile: those before it and that of one
    directory. *)
Definition skilled (skill : string) (p : SkillPackage) (st st' : cstate) : Prop :=
  st.(cs_skills) ⊆ st'.(cs_skills) ∧ st'.(cs_skills) !! Clean skill = Some p ∧
  dom st'.(cs_skills) = {[Clean skill]} ∪ dom st.(cs_skills).

Lemma journey_skill_ok b n skill st st' p : cstate_ok st → journey_skill b n skill st = (st', Ok p) →
  cstate_ok st' ∧ package_ok p ∧ skilled skill p st st'.
Proof using.
  intros (H1 & H2 & H3 & H4 & H5) H. apply svc_bind_ok in H as ([q|] & s1 & Hk & H); injection Hk as <- Hk.
  { injection H as <- <-. split; [done|]. split; [by eapply H1|]. split_and!; [done|done|].
    assert (Clean skill ∈ dom st.(cs_skills)) by by eapply elem_of_dom_2. set_solver. }
  apply svc_bind_ok in H as (q & s2 & Hq & H). unfold reads in Hq.
  destruct (compileSkillDir b skill (cs_reads st)) as [r [q'|e]] eqn:E; [|done]. injection Hq as <- <-.
  apply compileSkillDir_ok in E. destruct (skillFootprint q') as [bytes files] eqn:Ef.
  apply svc_bind_ok in H as (used & s3 & Hu & H). injection Hu as <- <-.
  apply svc_bind_ok in H as ([] & s4 & Hl & H). apply unless_ok in Hl as [Hl ->]. simpl in Hl.
  apply svc_bind_ok in H as ([] & s5 & Hi & H). injection Hi as <-. injection H as <- <-.
  apply negb_true_iff, orb_false_iff in Hl as [Hl1 Hl2].
  destruct (package_insert st.(cs_skills) (Clean skill) q' Hk) as [Hb Hf]. rewrite Ef in Hb, Hf. simpl in Hb, Hf.
  split; [|split; [done|]].
  - split_and!; simpl; [|lia..]. by apply map_Forall_insert_2.
  - split_and!; simpl; [by apply insert_subseteq|apply lookup_insert_eq|apply dom_insert_L].
Qed.

(** ** Journeys *)

Definition journey_ok (catalog : CatalogConfig) (j : Journey) : Prop :=
  validJourneyID j.(j_ID) = true ∧ tools_ok catalog j.(j_Deny) j.(j_Tools) ∧ j.(j_Tools) ≠ [] ∧
  1 <= j.(j_MaxTools) <= maxMaxTools ∧ validateVersionRange j.(j_ProductVersions) = Ok tt ∧ j.(j_Catalog) = catalog ∧
  ∃ p, j.(j_Skills) = [p] ∧ package_ok p ∧ j.(j_Description) = p.(sp_Description) ∧
    j.(j_Prompt) = skillBody p.(sp_Instructions).(sf_Data).

Lemma checked_ok {A} wrap (r : result compile_error A) st st' a : checked wrap r st = (st', Ok a) ↔ r = Ok a ∧ st' = st.
Proof using. unfold checked. rewrite lift_result_ok. destruct r; naive_solver. Qed.

Lemma compileMaxTools_ok m n : compileMaxTools m = Ok n → 1 <= n <= maxMaxTools.
Proof using.
  unfold compileMaxTools. destruct m as [k|]; [|by intros [= <-]].
  destruct ((k <? 1) || (maxMaxTools <? k)) eqn:E; [done|]. intros [= <-]. lia.
Qed.

Lemma compileJourney_ok b catalog n rj st st' j : cstate_ok st → compileJourney b catalog n rj st = (st', Ok j) →
  cstate_ok st' ∧ journey_ok catalog j ∧ j.(j_ID) = rj.(rj_ID) ∧ j.(j_Digest) = "" ∧
  ∃ p, j.(j_Skills) = [p] ∧ skilled j.(j_Skill) p st st'.
Proof using.
  intros Hst H. apply svc_bind_ok in H as ([] & s1 & H1 & H). apply unless_ok in H1 as [H1 ->].
  apply svc_bind_ok in H as ([] & s1 & H2 & H). apply checked_ok in H2 as [H2 ->].
  apply svc_bind_ok in H as (m & s1 & H3 & H). apply checked_ok in H3 as [H3 ->].
  apply svc_bind_ok in H as ([tools deny] & s1 & H4 & H). apply checked_ok in H4 as [H4 ->].
  apply svc_bind_ok in H as ([] & s1 & H5 & H). apply unless_ok in H5 as [H5 ->].
  apply svc_bind_ok in H as (p & s1 & H6 & H). apply journey_skill_ok in H6 as (H6 & Hp & Hk); [|done]. injection H as <- <-.
  apply compileMaxTools_ok in H3. pose proof (compileTools_well_formed _ _ _ _ H4) as (Ht & Hlen & _).
  split; [done|]. split; [|split_and!; [done..|by exists p]]. unfold journey_ok. simpl. split; [done|]. split; [done|]. split.
  - unfold compileTools in H4. case_decide as Hne; [done|]. intros ->. by destruct (rj_Tools rj).
  - split; [done|]. split; [done|]. split; [done|]. by exists p.
Qed.

Lemma with_digest_ok catalog j : journey_ok catalog j → journey_ok catalog (with_digest j).
Proof using. done. Qed.

Lemma canonical_with_digest j : canonicalBytes (with_digest j) = canonicalBytes j.
Proof using. done. Qed.

(** What the loop over the journeys has built. *)
Definition built_ok (catalog : CatalogConfig) (s : built) : Prop :=
  NoDup s.(bu_order) ∧ dom s.(bu_journeys) = list_to_set s.(bu_order) ∧
  (∀ id j, s.(bu_journeys) !! id = Some j → j.(j_ID) = id ∧ journey_ok catalog j ∧ j.(j_Digest) = hexDigest (canonicalBytes j)) ∧
  s.(bu_digests) = (λ id, default "" (j_Digest <$> s.(bu_journeys) !! id)) <$> s.(bu_order) ∧
  (∀ d, is_Some (s.(bu_canonical) !! d) ↔ d ∈ s.(bu_digests)) ∧ (∀ d text, s.(bu_canonical) !! d = Some text → d = hexDigest text).

Lemma built_empty catalog : built_ok catalog (mk_built ∅ ∅ [] []).
Proof using.
  split_and!; simpl; [constructor|done|intros ? ?; by rewrite lookup_empty|done| |intros ? ?; by rewrite lookup_empty].
  intros d. rewrite lookup_empty. split; [by intros []|by intros ?%elem_of_nil].
Qed.

Lemma built_snoc catalog s j : built_ok catalog s → journey_ok catalog j → s.(bu_journeys) !! j.(j_ID) = None →
  let d := with_digest j in
  built_ok catalog (mk_built (<[j.(j_ID) := d]> s.(bu_journeys)) (<[d.(j_Digest) := canonicalBytes j]> s.(bu_canonical))
    (s.(bu_order) ++ [j.(j_ID)]) (s.(bu_digests) ++ [d.(j_Digest)])).
Proof using.
  intros (H1 & H2 & H3 & H4 & H5 & H6) Hj Hn d.
  assert (j.(j_ID) ∉ s.(bu_order)) as Hnin.
  { intros Hin. apply not_elem_of_dom in Hn. apply Hn. rewrite H2. by apply elem_of_list_to_set. }
  split_and!; simpl.
  - apply NoDup_app. split_and!; [done| |apply NoDup_singleton]. by intros x Hx ->%list_elem_of_singleton.
  - rewrite dom_insert_L, H2, list_to_set_app_L. simpl. set_solver.
  - intros id j' [[<- <-]|[_ Hl]]%lookup_insert_Some; [|by apply H3]. split_and!; [done|by apply with_digest_ok|done].
  - rewrite fmap_app. simpl. rewrite lookup_insert_eq. f_equal. rewrite H4. apply list_fmap_ext. intros i id Hid.
    rewrite lookup_insert_ne; [done|]. intros <-. apply Hnin. by eapply list_elem_of_lookup_2.
  - intros d'. rewrite elem_of_app, list_elem_of_singleton, <- H5. destruct (decide (d' = d.(j_Digest))) as [->|Hd].
    + rewrite lookup_insert_eq. split; [by right|by eexists].
    + rewrite lookup_insert_ne by done. split; [by left|]. by intros [?|?].
  - intros d' text [[<- <-]|[_ Hl]]%lookup_insert_Some; [done|by apply H6].
Qed.

(** The packages compiled so far are those of the journeys built so far. *)
Definition packaged (skills : gmap string SkillPackage) (journeys : gmap string Journey) : Prop :=
  (∀ id j, journeys !! id = Some j → ∃ p, j.(j_Skills) = [p] ∧ skills !! Clean j.(j_Skill) = Some p) ∧
  ∀ key, key ∈ dom skills → ∃ id j, journeys !! id = Some j ∧ key = Clean j.(j_Skill).

Lemma packaged_insert st st' journeys id j p : packaged st.(cs_skills) journeys → journeys !! id = None →
  j.(j_Skills) = [p] → skilled j.(j_Skill) p st st' → packaged st'.(cs_skills) (<[id := with_digest j]> journeys).
Proof using.
  intros [H1 H2] Hn Hp (Hsub & Hk & Hdom). split.
  - intros id' j' [[<- <-]|[_ Hj]]%lookup_insert_Some; [by exists p|].
    apply H1 in Hj as (q & ? & Hq). exists q. split; [done|]. by eapply lookup_weaken.
  - intros key. rewrite Hdom. intros [->%elem_of_singleton|Hin]%elem_of_union.
    + exists id, (with_digest j). by rewrite lookup_insert_eq.
    + apply H2 in Hin as (id' & j' & Hj & ->). exists id', j'. split; [|done]. rewrite lookup_insert_ne; [done|congruence].
Qed.

Lemma compile_journeys_ok b catalog n rjs s st st' s' : cstate_ok st → built_ok catalog s →
  packaged st.(cs_skills) s.(bu_journeys) → compile_journeys b catalog n rjs s st = (st', Ok s') →
  cstate_ok st' ∧ built_ok catalog s' ∧ packaged st'.(cs_skills) s'.(bu_journeys) ∧
  s'.(bu_order) = s.(bu_order) ++ (rj_ID <$> rjs).
Proof using.
  revert n s st. induction rjs as [|rj rjs IH]; intros n s st Hst Hs Hpk H; simpl in H.
  { injection H as -> ->. by rewrite app_nil_r. }
  apply svc_bind_ok in H as (j & s1 & Hj & H). apply compileJourney_ok in Hj as (Hst1 & Hj & Hid & _ & p & Hp & Hsk); [|done].
  apply svc_bind_ok in H as ([] & s2 & Hd & H). apply unless_ok in Hd as [Hd ->].
  apply negb_true_iff, bool_decide_eq_false, eq_None_not_Some in Hd.
  pose proof (built_snoc catalog s j Hs Hj Hd) as Hs'. pose proof (packaged_insert _ _ _ _ _ _ Hpk Hd Hp Hsk) as Hpk'.
  apply IH in H as (? & ? & ? & E); [|done..]. split_and!; [done..|].
  rewrite E. simpl. by rewrite <- app_assoc, Hid.
Qed.

Definition compiled_ok (set : DefSet) : Prop :=
  set_wf set ∧ set.(set_order) ≠ [] ∧
  (∀ id j, set.(set_journeys) !! id = Some j →
    journey_ok set.(set_catalog) j ∧ j.(j_Digest) = hexDigest (canonicalBytes j) ∧
    ∃ text, set.(set_canonical) !! j.(j_Digest) = Some text ∧ j.(j_Digest) = hexDigest text) ∧
  set.(set_digest) = setDigest set.(set_catalog) set.(set_conversationPrompt) (j_Digest <$> Journeys set) ∧
  (∃ skills, packaged skills set.(set_journeys) ∧
    set.(set_skillBytes) = package_bytes skills ∧ set.(set_skillFiles) = package_files skills) ∧
  set.(set_skillBytes) <= MaxCompiledSkillBytes ∧ set.(set_skillFiles) <= MaxCompiledSkillFiles ∧
  (∀ s1 s2, aliased set set.(set_order) s1 → aliased set set.(set_order) s2 →
    s1.(Alias) = s2.(Alias) → encodeOps s1.(Ops) = encodeOps s2.(Ops)) ∧
  (∀ key id1 id2 p1 p2, id1 ∈ set.(set_order) → id2 ∈ set.(set_order) →
    policyOf set key id1 = Some p1 → policyOf set key id2 = Some p2 → p1 = p2).

Lemma compileSource_built b st0 st set : compileSource b st0 = (st, Ok set) → cstate_ok st0 → st0.(cs_skills) = ∅ →
  ∃ s raws, raws ≠ [] ∧ cstate_ok st ∧ built_ok set.(set_catalog) s ∧ packaged st.(cs_skills) s.(bu_journeys) ∧ s.(bu_order) = rj_ID <$> raws ∧
    set.(set_order) = s.(bu_order) ∧ set.(set_journeys) = s.(bu_journeys) ∧ set.(set_canonical) = s.(bu_canonical) ∧
    set.(set_digest) = setDigest set.(set_catalog) set.(set_conversationPrompt) s.(bu_digests) ∧
    set.(set_skillBytes) = st.(cs_skillBytes) ∧ set.(set_skillFiles) = st.(cs_skillFiles) ∧
    checkAliasOps set = Ok tt ∧ checkPolicyConflicts set = Ok tt.
Proof using.
  intros H H0 H0'. apply svc_bind_ok in H as (data & s1 & H1 & H). apply lift_result_ok in H1 as [H1 ->].
  apply svc_bind_ok in H as (raw & s1 & H2 & H). apply lift_result_ok in H2 as [H2 ->].
  apply svc_bind_ok in H as (catalog & s1 & H3 & H). apply checked_ok in H3 as [H3 ->].
  apply svc_bind_ok in H as ([] & s1 & H4 & H). apply unless_ok in H4 as [H4 ->].
  apply svc_bind_ok in H as (prompt & s1 & H5 & H). unfold reads in H5.
  destruct (conversation_prompt _ _ _) as [r [p|e]]; [|done]. injection H5 as <- <-.
  apply svc_bind_ok in H as (s & s1 & H5 & H). apply compile_journeys_ok in H5 as (Hst & Hs & Hpk & Ho);
    [|done|apply built_empty|simpl; rewrite H0'; by split; [intros ? ?; rewrite lookup_empty|intros ?; rewrite dom_empty_L]].
  apply svc_bind_ok in H as (s2 & s3 & H6 & H). injection H6 as <- <-. cbv zeta in H.
  apply svc_bind_ok in H as ([] & s2 & H6 & H). apply checked_ok in H6 as [H6 ->].
  apply svc_bind_ok in H as ([] & s2 & H7 & H). apply checked_ok in H7 as [H7 ->]. injection H as -> <-.
  exists s, raw.(raw_Journeys). simpl. apply negb_true_iff, bool_decide_eq_false in H4. by split_and!.
Qed.

Lemma CompileBundle_compiled (b : Bundle) (set : DefSet) : CompileBundle b = Ok set → compiled_ok set.
Proof using.
  unfold CompileBundle. destruct (validateBundle b); [|done]. intros [_ H]%ensure_bind.
  destruct (compileSource b _) as [st r] eqn:E. simpl in H. subst r.
  apply compileSource_built in E as (s & raws & Hraws & Hst & (B1 & B2 & B3 & B4 & B5 & B6) & Hpk & Ho & E1 & E2 & E3 & E4 & E5 & E6 & HA & HP);
    [|split_and!; [apply map_Forall_empty|by vm_compute..]|done].
  assert ("" ∉ set.(set_order)) as Hne.
  { rewrite E1. intros Hin. apply (elem_of_list_to_set (C := gset string)) in Hin. rewrite <- B2 in Hin.
    apply elem_of_dom in Hin as [j Hj]. apply B3 in Hj as (Hid & (Hv & _) & _). by rewrite Hid in Hv. }
  destruct Hst as (_ & Hcb & Hcf & Hsb & Hsf). split_and!.
  - split_and!; [by rewrite E1|done| |].
    + intros id. rewrite E1, E2, <- elem_of_dom, B2. symmetry. apply elem_of_list_to_set.
    + intros id j. rewrite E2. intros Hj. by apply B3 in Hj as [? _].
  - rewrite E1, Ho. by destruct raws.
  - intros id j. rewrite E2, E3. intros Hj. pose proof (B3 _ _ Hj) as (Hid & Hok & Hd). split_and!; [done..|].
    assert (j.(j_Digest) ∈ s.(bu_digests)) as Hin.
    { rewrite B4. apply list_elem_of_fmap. exists id. rewrite Hj. split; [done|].
      apply (elem_of_list_to_set (C := gset string)). rewrite <- B2. apply elem_of_dom. by eexists. }
    apply B5 in Hin as [text Ht]. exists text. split; [done|]. by apply B6.
  - rewrite E4, B4. f_equal. unfold Journeys. rewrite E1, <- list_fmap_compose. apply list_fmap_ext. intros i id Hid.
    unfold journey_at. simpl. rewrite E2. assert (is_Some (bu_journeys s !! id)) as [j Hj].
    { apply elem_of_dom. rewrite B2. apply elem_of_list_to_set. by eapply list_elem_of_lookup_2. }
    by rewrite Hj.
  - exists st.(cs_skills). rewrite E2, E5, E6. done.
  - by rewrite E5.
  - by rewrite E6.
  - by apply checkAliasOps_iff_aux.
  - by apply checkPolicyConflicts_iff_aux.
Qed.
(** C24: a set that compiles is well formed: its order lists each journey once
    and under its own valid ID; every journey's tool list, tool limit, version
    range and skill are valid, and its digest is that of its canonical text; the
    set's digest is that of the catalog configuration, the prompt and the
    journeys' digests in order; its counters are the bytes and the files of the
    packages its journeys use, each package counted once, and are within the
    limits; an alias names one operation list and an operation has one policy in all
    journeys. *)
Theorem CompileBundle_well_formed (b : Bundle) (set : DefSet) : CompileBundle b = Ok set → compiled_ok set.
Proof using. apply CompileBundle_compiled. Qed.
End wf.

(** the material of a compiled journey is never refused as changed: reading
    a file of its skill gives the compiled bytes under their own digest, or the
    file was not declared. *)
Theorem compiled_material_readable `{Codec} `{Yaml} (b : Bundle) (set : DefSet) (id : string) (j : Journey) (name resource : string) :
  CompileBundle b = Ok set → FindJourney set id = Some j →
  match ReadSkill (NewSkillSource j) name resource with
  | Ok m => m.(mt_FileDigest) = hex (sha256 m.(mt_Body)) ∧ m.(mt_Name) = name ∧
      ∃ p, j.(j_Skills) = [p] ∧ skill_file p resource = Some {| sf_Name := m.(mt_Resource); sf_Digest := m.(mt_FileDigest); sf_Data := m.(mt_Body) |}
  | Err ErrSkillUnavailable => ∀ p, p ∈ j.(j_Skills) → p.(sp_Name) = name → skill_file p resource = None
  | Err ErrSkillChanged => False
  end.
Proof.
  intros Hc Hj. apply CompileBundle_compiled in Hc as (_ & _ & Hset & _).
  destruct (Hset _ _ Hj) as ((_ & _ & _ & _ & _ & _ & p & Hp & Hok & _) & _). destruct Hok as (_ & Hdis & _ & Hname & Hins & Hsup & _).
  assert (NewSkillSource j = ({[p.(sp_Name) := p]} : gmap string SkillPackage)) as -> by (unfold NewSkillSource; by rewrite Hp).
  unfold ReadSkill, SkillSource. rewrite Hp. destruct (decide (p.(sp_Name) = name)) as [<-|Hn].
  - rewrite lookup_singleton_eq, Hdis. destruct (skill_file p resource) as [f|] eqn:Ef.
    + assert (snapshot_ok f) as Hf.
      { unfold skill_file in Ef. destruct (_ || _); [by injection Ef as <-|].
        destruct (sp_AllowSupportingFiles p); [|done]. by apply Hsup in Ef as [_ ?]. }
      rewrite bool_decide_eq_true_2 by done. simpl. split_and!; [done|done|]. exists p. split; [done|]. rewrite Ef. f_equal.
      unfold skill_file in Ef. destruct f as [n d t]. simpl. f_equal.
      destruct (bool_decide_reflect (resource = "")) as [->|H1]; simpl in Ef; [injection Ef as Ef; by rewrite Ef in Hname|].
      destruct (bool_decide_reflect (resource = "SKILL.md")) as [->|H2]; simpl in Ef; [injection Ef as Ef; by rewrite Ef in Hname|].
      destruct (sp_AllowSupportingFiles p); [|done]. by apply Hsup in Ef as [? _].
    + intros q Hq%list_elem_of_singleton _. by subst q.
  - rewrite lookup_singleton_ne by done. intros q ->%list_elem_of_singleton. done.
Qed.

(** ** Decode errors *)

Definition fixed_words : list string := ["decode journey config: "; shape_text; "line "; ": "; "unknown field"; "duplicate key";
  "invalid value"; "; "; "YAML syntax error near line "; "invalid YAML"].
(** A piece of a message: a fixed word or a number. *)
Definition harmless (w : string) : Prop := w ∈ fixed_words ∨ all_bytes is_digit w = true.
Definition spelled (s : string) : Prop := ∃ l, Forall harmless l ∧ s = foldr String.append "" l.

Lemma spelled_word w : w ∈ fixed_words → spelled w.
Proof. intros Hw. exists [w]. split; [by constructor; [left|]|]. simpl. by rewrite append_nil_r. Qed.
Lemma spelled_digits w : all_bytes is_digit w = true → spelled w.
Proof. intros Hw. exists [w]. split; [by constructor; [right|]|]. simpl. by rewrite append_nil_r. Qed.
Lemma spelled_app s t : spelled s → spelled t → spelled (s +:+ t).
Proof.
  intros (l & Hl & ->) (k & Hk & ->). exists (l ++ k). split; [by apply Forall_app|]. rewrite foldr_app.
  clear. induction l as [|w l IH]; simpl; [done|]. rewrite <- IH. apply append_assoc.
Qed.
Lemma spelled_join sep l : sep ∈ fixed_words → Forall spelled l → spelled (join sep l).
Proof.
  intros Hs. induction 1 as [|s l Hsp Hl IH]; [by exists []|]. destruct l as [|s' l]; [done|].
  rewrite join_cons by done. apply spelled_app; [done|]. apply spelled_app; [by apply spelled_word|done].
Qed.

Lemma take_digits_digits s : all_bytes is_digit (take_digits s) = true.
Proof. induction s as [|c s IH]; simpl; [done|]. destruct (is_digit c) eqn:E; simpl; [by rewrite E|done]. Qed.
Lemma find_line_digits s n : find_line s = Some n → all_bytes is_digit n = true.
Proof.
  induction s as [|c s IH]; [done|]. cbn [find_line]. destruct (_ && _); [|done]. intros [= <-]. apply take_digits_digits.
Qed.

Ltac fixed_word := match goal with |- ?P => apply (bool_decide_eq_true_1 P); vm_compute; reflexivity end.

(** A decode error never quotes the configuration: whatever the decoder's
    texts hold, the message is made of fixed words and digits, and at most five
    errors are reported. *)
Theorem sanitizeDecodeError_quotes_nothing (e : decode_error) :
  spelled (sanitizeDecodeError e) ∧
  ∀ errors, sanitizeDecodeError (DYaml (YTypeError errors)) = sanitizeDecodeError (DYaml (YTypeError (take 5 errors))).
Proof.
  assert (∀ w, bool_decide (w ∈ fixed_words) = true → spelled w) as W by (intros w Hw; by apply spelled_word, (bool_decide_eq_true (w ∈ fixed_words))).
  split; [|intros errors; simpl; by rewrite take_take].
  destruct e as [|[|errors|text]]; simpl.
  - by apply spelled_app; apply W.
  - exists ["decode journey config: "; "invalid YAML"]. split; [|done].
    do 2 (constructor; [left; fixed_word|]). constructor.
  - apply spelled_app; [by apply W|]. apply spelled_join; [fixed_word|]. apply Forall_fmap, Forall_forall.
    intros s _. simpl. unfold type_error_kind.
    assert (∀ b1 b2 : bool, spelled (if b1 then "unknown field" else if b2 then "duplicate key" else "invalid value")) as Hk
      by (intros [] []; by apply W).
    destruct (find_line s) as [n|] eqn:En; [|apply Hk]. apply find_line_digits in En.
    repeat (apply spelled_app; [first [by apply W|by apply spelled_digits]|]). apply Hk.
  - destruct (find_line text) as [n|] eqn:En.
    + change ("decode journey config: YAML syntax error near line " +:+ n) with ("decode journey config: " +:+ ("YAML syntax error near line " +:+ n)).
      apply find_line_digits in En. repeat (apply spelled_app; [by apply W|]). by apply spelled_digits.
    + exists ["decode journey config: "; "invalid YAML"]. split; [|done]. do 2 (constructor; [left; fixed_word|]). constructor.
Qed.
