(* ===== verification/Loader.v ===== *)
(** * Serving and activating definition sets

    [internal/defstore]: the cache of compiled sets over the journal's
    definition store, and [Activate], which reads a bundle directory, stores the
    compiled set and makes it current.  A program is a [prog] over the database,
    the number of calls made so far and the loader's cache.

    A [Replica] is what a program of this process cannot control: the clock, what
    other processes commit between its calls, and the calls that fail because
    the database does (before or after the transaction took effect). *)
From S2P Require Import Prelude GoText Db CallBinding JournalCore DefinitionStore Service.
From S2P Require Import Bundle Journey CompileSet.

Class Replica := mk_Replica { r_now : nat → Z; r_others : nat → db → db; r_fault : nat → fault }.

Record lstate := mk_lstate { ls_db : db; ls_tick : nat; ls_sets : gmap string DefSet }.

Definition with_db (s : db) (st : lstate) : lstate := mk_lstate s (S st.(ls_tick)) st.(ls_sets).
Definition add_set (d : string) (set : DefSet) (st : lstate) : lstate :=
  mk_lstate st.(ls_db) st.(ls_tick) (<[d := set]> st.(ls_sets)).

Section loader.
Context `{codec : Codec} `{yaml : Yaml} `{replica : Replica}.

Abbreviation loading E := (prog lstate E).

(** One call of the store, after what others committed in the meantime. *)
Definition store {A} (t : Z → tx A) : loading store_error A := λ st,
  let n := st.(ls_tick) in
  let '(s, r) := transact (mk_moment (r_now n) (r_others n) (r_fault n)) t st.(ls_db) in (with_db s st, r).
(** A call that only reads. *)
Definition query {A} (q : db → result error A) (_ : Z) : tx A := λ s, match q s with Ok a => Ok (a, s) | Err e => Err e end.

(** ** The loader *)

Definition Load (digest : string) : loading store_error DefSet :=
  known ← asks (λ st, st.(ls_sets) !! digest);
  match known with
  | Some set => mret set
  | None =>
      files ← store (query (DefinitionSet digest));
      match CompileBundle files with
      | Err _ => throw (SJournal ErrDefinition)
      | Ok set =>
          _ ← unless (bool_decide (set.(set_digest) = digest)) (SJournal ErrDefinition);
          _ ← update (add_set digest set);
          mret set
      end
  end.

Definition Served (st : lstate) (digest : string) : bool := bool_decide (is_Some (st.(ls_sets) !! digest)).

(** ** Activation *)

Inductive Outcome := Activated | AlreadyCurrent | Superseded.
Record Result := mk_Result { res_Digest : string; res_Current : string; res_Outcome : Outcome }.

Inductive activate_error :=
| AMigrate | ARead (e : bundle_error) | ACompile (e : failure) | ADatabase | ADefinition (digest : string).

Definition activateAttempts : nat := 5.

(** [ErrDatabase] around any error of a call. *)
Definition database {A} (m : loading store_error A) : loading activate_error A :=
  r ← try m;
  match r with Ok a => mret a | Err _ => throw ADatabase end.

(** [CurrentDefinition]; no current set is the empty digest. *)
Definition current_digest : loading activate_error string :=
  r ← try (store (query CurrentDefinition));
  match r with
  | Ok d => mret d
  | Err (SJournal ErrDefinition) => mret ""
  | Err _ => throw ADatabase
  end.

Fixpoint load_all (l : list string) : loading activate_error unit :=
  match l with
  | [] => mret tt
  | digest :: l =>
      r ← try (Load digest);
      match r with
      | Ok _ => load_all l
      | Err (SJournal ErrDefinition) => throw (ADefinition digest)
      | Err _ => throw ADatabase
      end
  end.

(** One attempt; [None] is a retry. *)
Definition attempt (rollback : bool) (candidate : string) : loading activate_error (option Result) :=
  current ← current_digest;
  if bool_decide (current = candidate) then mret (Some (mk_Result candidate current AlreadyCurrent))
  else
    before ← (if rollback then mret false
              else database (store (query (λ s, Ok (DefinitionActivated candidate s)))));
    if (before : bool) then mret (Some (mk_Result candidate current Superseded))
    else
      referenced ← database (store (query (λ s, Ok (ReferencedDefinitions s))));
      _ ← load_all (candidate :: referenced);
      served ← asks Served;
      r ← try (store (λ now, activate now (Some served) current candidate rollback));
      match r with
      | Ok _ => mret (Some (mk_Result candidate candidate Activated))
      | Err (SJournal ErrDefinitionSuperseded) =>
          current ← current_digest;
          mret (Some (mk_Result candidate current Superseded))
      | Err (SJournal ErrDefinition) => mret None
      | Err _ => throw ADatabase
      end.

Fixpoint attempts (n : nat) (rollback : bool) (candidate : string) : loading activate_error Result :=
  match n with
  | O => throw (ADefinition candidate)
  | S n =>
      r ← attempt rollback candidate;
      match r with Some result => mret result | None => attempts n rollback candidate end
  end.

(** [Activate], with a new loader; [migrated] is whether the migration of the
    database succeeded. *)
Definition Activate (migrated : bool) (fsys : hostFS) (rollback : bool) : loading activate_error Result :=
  _ ← unless migrated AMigrate;
  bundle ← lift_result (match ReadBundle fsys with Ok b => Ok b | Err e => Err (ARead e) end);
  set ← lift_result (match CompileBundle bundle with Ok s => Ok s | Err e => Err (ACompile e) end);
  let candidate := set.(set_digest) in
  _ ← database (store (λ _, PutDefinitionSet candidate set.(set_bundle)));
  _ ← update (λ st, mk_lstate st.(ls_db) st.(ls_tick) ∅);
  attempts activateAttempts rollback candidate.
End loader.
