(* ===== verification/LoaderSpec.v ===== *)
(** * What loading and activating promise

    A replica serves a digest only after the stored files of the digest compiled
    to it, and the files of a stored set never change; so what was served once
    is served for ever.  A store may hold files that compile to nothing, or to
    another digest: activation refuses to move past them. *)
From S2P Require Import Prelude GoText Db CallBinding JournalCore DefinitionStore Service Keeps Journal JournalKeeps Rollout.
From S2P Require Import Bundle BundleSpec GoPath Journey CompileSet CompileSpec CompileWf Loader.
From Stdlib Require Import Ascii.

Section stores.
Context `{codec : Codec} `{yaml : Yaml}.

(** The set the stored files of [d] compile to, if its digest is [d]: what
    [Load] answers. *)
Definition served_set (s : db) (d : string) : option DefSet :=
  match DefinitionSet d s with
  | Ok files =>
      match CompileBundle files with
      | Ok set => if bool_decide (set.(set_digest) = d) then Some set else None
      | Err _ => None
      end
  | Err _ => None
  end.
Definition servable (s : db) (d : string) : bool := bool_decide (is_Some (served_set s d)).

Lemma served_set_iff s d set : served_set s d = Some set ↔
  ∃ files, DefinitionSet d s = Ok files ∧ CompileBundle files = Ok set ∧ set.(set_digest) = d.
Proof using.
  unfold served_set. split.
  - destruct (DefinitionSet d s) as [files|]; [|done]. destruct (CompileBundle files) as [t|] eqn:E; [|done].
    case_bool_decide; [|done]. intros [= <-]. by exists files.
  - intros (files & -> & -> & Hd). by rewrite bool_decide_eq_true_2.
Qed.
Lemma servable_iff s d : servable s d = true ↔ ∃ files set,
  DefinitionSet d s = Ok files ∧ CompileBundle files = Ok set ∧ set.(set_digest) = d.
Proof using.
  unfold servable. rewrite bool_decide_eq_true. split.
  - intros [set (files & H)%served_set_iff]. by exists files, set.
  - intros (files & set & H). exists set. apply served_set_iff. by exists files.
Qed.

Lemma DefinitionSet_extend d s s' files : sets_extend s s' → DefinitionSet d s = Ok files → DefinitionSet d s' = Ok files.
Proof using.
  intros He. unfold DefinitionSet. destruct (def_sets s !! d) as [r|] eqn:E; [|done]. intros [= <-].
  destruct (He d r E) as (r' & -> & -> & _). done.
Qed.
Lemma served_set_extend s s' d set : sets_extend s s' → served_set s d = Some set → served_set s' d = Some set.
Proof using.
  intros He (files & Hf & Hc & Hd)%served_set_iff. apply served_set_iff. exists files. split; [by eapply DefinitionSet_extend|done].
Qed.
Lemma servable_extend s s' d : sets_extend s s' → servable s d = true → servable s' d = true.
Proof using.
  unfold servable. rewrite !bool_decide_eq_true. intros He [set H]. exists set. by eapply served_set_extend.
Qed.
Lemma steps_extend s s' : steps s s' → sets_extend s s'.
Proof using. apply (steps_keeps sets_extend). Qed.

(** Writes that leave the files of all sets alone. *)
Definition same_files (s s' : db) : Prop := ∀ d, DefinitionSet d s' = DefinitionSet d s.
Lemma served_set_same s s' d : same_files s s' → served_set s' d = served_set s d.
Proof using. intros H. unfold served_set. by rewrite H. Qed.

Lemma with_current_same now c s : same_files s (with_current now c s).
Proof using.
  intros d. unfold DefinitionSet. simpl. destruct (decide (c = d)) as [->|Hn].
  - rewrite lookup_alter_eq. by destruct (def_sets s !! d).
  - by rewrite lookup_alter_ne.
Qed.

Lemma with_current_extend now c s : sets_extend s (with_current now c s).
Proof using.
  intros d r Hr. simpl. destruct (decide (c = d)) as [->|Hn].
  - rewrite lookup_alter_eq, Hr. eexists. split; [done|]. split; [done|]. by intros [t Ht]; simpl; rewrite Ht.
  - rewrite lookup_alter_ne by done. by exists r.
Qed.

Lemma PutDefinitionSet_extend d files s a s' : PutDefinitionSet d files s = Ok (a, s') → sets_extend s s'.
Proof using.
  unfold PutDefinitionSet. intros H. tx_guard H Hg. tx_get H row. destruct (def_sets s !! d) as [r|] eqn:E.
  - by injection H as _ <-.
  - injection H as _ <-. by apply w_put_set.
Qed.

(** The cache holds what the store serves. *)
Definition cache_ok (st : lstate) : Prop := ∀ d set, st.(ls_sets) !! d = Some set → served_set st.(ls_db) d = Some set.
Definition keeps_cache (st st' : lstate) : Prop :=
  cache_ok st → cache_ok st' ∧ sets_extend st.(ls_db) st'.(ls_db) ∧ ∀ d, Served st d = true → Served st' d = true.
#[export] Instance keeps_cache_preorder : PreOrder keeps_cache.
Proof using.
  split; [intros st H; split_and!; [done|done|done]|]. intros s1 s2 s3 H12 H23 H1.
  destruct (H12 H1) as (H2 & E12 & S12). destruct (H23 H2) as (H3 & E23 & S23). split_and!; [done|by trans (ls_db s2)|auto].
Qed.

Lemma cache_ok_extend st s : cache_ok st → sets_extend st.(ls_db) s → cache_ok (with_db s st).
Proof using. intros Hc He d set Hd. by eapply served_set_extend, Hc. Qed.
Lemma cache_ok_empty s tick : cache_ok (mk_lstate s tick ∅).
Proof using. by intros d set Hd. Qed.
Lemma Served_servable st d : cache_ok st → Served st d = true → servable st.(ls_db) d = true.
Proof using.
  intros Hc [set Hd]%bool_decide_eq_true. apply bool_decide_eq_true. exists set. by apply Hc.
Qed.

Context `{replica : Replica}.
Context (others : ∀ n s, sets_extend s (r_others n s)).

Lemma store_keeps {A} (t : Z → tx A) :
  (∀ now s a s', t now s = Ok (a, s') → sets_extend s s') → always keeps_cache (store t).
Proof using others.
  intros Ht st Hc. unfold store. set (s := r_others (ls_tick st) (ls_db st)).
  pose proof (others (ls_tick st) (ls_db st)) as He. fold s in He.
  assert (∀ s', sets_extend s s' → cache_ok (with_db s' st) ∧ sets_extend (ls_db st) s' ∧
    ∀ d, Served st d = true → Served (with_db s' st) d = true) as Hw.
  { intros s' He'. assert (sets_extend (ls_db st) s') as E by (by trans s). split; [by apply cache_ok_extend|done]. }
  assert (sets_extend s s) as Hrefl by reflexivity.
  destruct (transact _ t _) as [s1 r] eqn:T. simpl. apply Hw. apply transact_committed in T as [->|[a T]]; [done|by eapply Ht].
Qed.

Lemma query_keeps {A} (q : db → result error A) : always keeps_cache (store (query q)).
Proof using others.
  apply store_keeps. intros now s a s'. unfold query. destruct (q s); [|done]. by intros [= _ <-].
Qed.

Lemma activation_keeps f current candidate rollback :
  always keeps_cache (store (λ now, activate now (Some f) current candidate rollback)).
Proof using others.
  apply store_keeps. intros now s [] s' (_ & _ & -> & _)%activate_ok_iff. apply with_current_extend.
Qed.

Lemma database_keeps {A} (m : prog lstate store_error A) : always keeps_cache m → always keeps_cache (database m).
Proof using. intros Hm. unfold database. always_walk. exact Hm. Qed.

(** Only what compiled to its own digest enters the cache. *)
Lemma Load_keeps d : always keeps_cache (Load d).
Proof using others.
  intros st Hok. unfold Load, mbind, prog_bind, asks. destruct (ls_sets st !! d) as [set|] eqn:Ed; [by split_and!|].
  pose proof (query_keeps (DefinitionSet d) st Hok) as (Hok1 & He & Hserved).
  assert (∀ files st1, store (query (DefinitionSet d)) st = (st1, Ok files) → DefinitionSet d st1.(ls_db) = Ok files) as Hq.
  { intros files st1. unfold store. destruct (transact _ _ _) as [s r] eqn:T. intros [= <- ->].
    apply transact_ok in T. unfold query in T. simpl in T |- *.
    destruct (DefinitionSet d (r_others (ls_tick st) (ls_db st))) as [f|] eqn:E; [|done]. by injection T as <- <-. }
  destruct (store (query (DefinitionSet d)) st) as [st1 [files|e]]; simpl in *; [|by split_and!].
  specialize (Hq files st1 eq_refl). destruct (CompileBundle files) as [set|e] eqn:Ec; simpl; [|by split_and!].
  unfold unless. case_bool_decide as Hd; simpl; [|by split_and!]. split_and!; [|done|].
  - intros d' set'. simpl. intros [[<- <-]|[_ Hl]]%lookup_insert_Some; [|by apply Hok1]. apply served_set_iff. by exists files.
  - intros d' Hs. unfold Served in *. simpl. apply bool_decide_eq_true. apply Hserved, bool_decide_eq_true in Hs.
    destruct (decide (d' = d)) as [->|]; [rewrite lookup_insert_eq; by eexists|by rewrite lookup_insert_ne].
Qed.

Lemma load_all_keeps l : always keeps_cache (load_all l).
Proof using others.
  induction l as [|d l IH]; simpl; [apply always_ret, _|]. apply always_bind; [apply _|apply always_try, Load_keeps|intros r].
  destruct r as [|[[]|]]; try apply always_throw, _. exact IH.
Qed.

Lemma current_digest_keeps : always keeps_cache current_digest.
Proof using others.
  unfold current_digest. apply always_bind; [apply _|apply always_try, query_keeps|intros r].
  destruct r as [|[[]|]]; first [apply always_throw, _|apply always_ret, _].
Qed.

Lemma attempt_keeps rollback c : always keeps_cache (attempt rollback c).
Proof using others.
  unfold attempt. always_walk; first [apply current_digest_keeps|apply database_keeps, query_keeps|apply load_all_keeps|apply activation_keeps].
Qed.

(** The database an activation committed over, and what it knew of it. *)
Definition activated_over (rollback : bool) (c : string) (s0 : db) : Prop :=
  servable s0 c = true ∧
  (s0.(current) = Some c ∨
   (rollback = true ∨ activated_before c s0 = false) ∧ ∀ d, d ∈ referencedDigests s0 → servable s0 d = true).

Lemma activate_call current c rollback st st' : cache_ok st →
  store (λ now, activate now (Some (Served st)) current c rollback) st = (st', Ok tt) →
  ∃ now s0, sets_extend st.(ls_db) s0 ∧ st'.(ls_db) = with_current now c s0 ∧ activated_over rollback c s0.
Proof using others.
  intros Hc H. unfold store in H. destruct (transact _ _ _) as [s' r] eqn:T. injection H as <- ->. apply transact_ok in T.
  simpl in T |- *. set (s0 := r_others (ls_tick st) (ls_db st)) in *.
  assert (∀ d, serves (Some (Served st)) d = true → servable s0 d = true) as Hd.
  { intros d Hd. eapply servable_extend; [apply others|]. by apply Served_servable. }
  apply activate_ok_iff in T as (_ & Hsv & -> & Hor).
  exists (r_now (ls_tick st)), s0. split; [apply others|]. split; [done|].
  split; [by apply Hd|]. destruct Hor as [Hor|(_ & Hb & Hp & _)]; [by left|right]. split; [done|].
    intros d Hin. by apply Hd, Hp.
Qed.

Lemma keeps_bind_inv {A B} (m : prog lstate activate_error A) (f : A → prog lstate activate_error B) st st' b :
  always keeps_cache m → cache_ok st → (m ≫= f) st = (st', Ok b) →
  ∃ a st1, cache_ok st1 ∧ sets_extend st.(ls_db) st1.(ls_db) ∧ f a st1 = (st', Ok b).
Proof using.
  intros Hm Hst H. apply svc_bind_ok in H as (a & st1 & H1 & H2). exists a, st1.
  specialize (Hm st Hst) as (Hok & He & _). by rewrite H1 in Hok, He.
Qed.

Lemma attempt_activated rollback c st st' r : cache_ok st → attempt rollback c st = (st', Ok (Some r)) →
  r.(res_Outcome) = Activated →
  r = mk_Result c c Activated ∧
  ∃ now s0, sets_extend st.(ls_db) s0 ∧ st'.(ls_db) = with_current now c s0 ∧ activated_over rollback c s0.
Proof using others.
  intros Hst H Hr. unfold attempt in H. apply keeps_bind_inv in H as (cur & st1 & H1 & E1 & H); [|by apply current_digest_keeps|done].
  case_bool_decide; [by injection H as <- <-|].
  apply keeps_bind_inv in H as (before & st2 & H2 & E2 & H); [|destruct rollback; [apply always_ret, _|apply database_keeps, query_keeps; done]|done].
  destruct before; [by injection H as <- <-|].
  apply keeps_bind_inv in H as (refs & st3 & H3 & E3 & H); [|apply database_keeps, query_keeps; done|done].
  apply keeps_bind_inv in H as ([] & st4 & H4 & E4 & H); [|by apply load_all_keeps|done].
  rewrite asks_bind in H. apply svc_bind_ok in H as (o & st5 & H5 & H). unfold try in H5.
  destruct (store _ st4) as [st6 r6] eqn:E. injection H5 as -> <-. destruct r6 as [[]|[[]|]]; try discriminate H.
  - injection H as <- <-. split; [done|]. apply activate_call in E as (now & s0 & E5 & Hs); [|done].
    exists now, s0. split; [|done]. by do 4 (etransitivity; [eassumption|]).
  - apply svc_bind_ok in H as (cur' & st7 & _ & H). by injection H as <- <-.
Qed.

Lemma attempts_activated n rollback c st st' r : cache_ok st → attempts n rollback c st = (st', Ok r) →
  r.(res_Outcome) = Activated →
  r = mk_Result c c Activated ∧
  ∃ now s0, sets_extend st.(ls_db) s0 ∧ st'.(ls_db) = with_current now c s0 ∧ activated_over rollback c s0.
Proof using others.
  revert st. induction n as [|n IH]; intros st Hst H Hr; [done|]. simpl in H.
  apply svc_bind_ok in H as ([r1|] & st1 & H1 & H).
  - injection H as <- <-. by eapply attempt_activated.
  - pose proof (attempt_keeps rollback c st Hst) as (Hok & He & _). rewrite H1 in Hok, He. simpl in Hok, He.
    destruct (IH st1 Hok H Hr) as (-> & now & s0 & E & Hs). split; [done|]. exists now, s0. split; [|done]. by trans (ls_db st1).
Qed.
End stores.

(** C25: a successful activation leaves no conversation behind. Whatever the
    store held at the start, whatever other processes commit through the journal
    meanwhile and whichever calls fail: when [Activate] reports [Activated], the
    candidate is the set the bundle compiles to, and its own transaction made it
    current over a database in which it was current already or, unless rolling
    back, had never been; the candidate, and unless it was current every digest
    a conversation may need, is stored with files that compile to just that
    digest, then and for ever. *)
Theorem Activate_servable `{codec : Codec} `{yaml : Yaml} `{replica : Replica} (migrated : bool) (fsys : hostFS) (rollback : bool)
    (s : db) (tick : nat) (st : lstate) (result : Result) (Hothers : ∀ n s, steps s (r_others n s)) :
  Activate migrated fsys rollback (mk_lstate s tick ∅) = (st, Ok result) → result.(res_Outcome) = Activated →
  ∃ b set now s0, ReadBundle fsys = Ok b ∧ CompileBundle b = Ok set ∧
    let c := set.(set_digest) in
    result = mk_Result c c Activated ∧ sets_extend s s0 ∧ st.(ls_db) = with_current now c s0 ∧
    (s0.(current) = Some c ∨ rollback = true ∨ activated_before c s0 = false) ∧
    ∀ d, d = c ∨ s0.(current) ≠ Some c ∧ d ∈ referencedDigests s0 →
      ∀ s', steps st.(ls_db) s' → servable s' d = true.
Proof.
  assert (∀ n s, sets_extend s (r_others n s)) as others by (intros n s'; apply steps_extend, Hothers).
  intros H Hr. unfold Activate in H. apply svc_bind_ok in H as ([] & s1 & H1 & H). apply unless_ok in H1 as [_ ->].
  apply svc_bind_ok in H as (b & s1 & H1 & H). apply lift_result_ok in H1 as [H1 ->].
  apply svc_bind_ok in H as (set & s1 & H2 & H). apply lift_result_ok in H2 as [H2 ->].
  destruct (ReadBundle fsys) as [b'|] eqn:Eb; [|done]. injection H1 as ->.
  destruct (CompileBundle b) as [set'|] eqn:Es; [|done]. injection H2 as ->.
  cbv zeta in H. apply keeps_bind_inv in H as (u & s2 & H3 & E3 & H);
    [|apply database_keeps, store_keeps; [done|]; intros ? ? ? ?; apply PutDefinitionSet_extend|apply cache_ok_empty].
  rewrite update_bind in H. apply attempts_activated in H as (-> & now & s0 & E4 & -> & Hc & Hor); [|done|apply cache_ok_empty|done].
  exists b, set, now, s0. split_and!; [done|done|]. cbv zeta. split_and!; [done|by trans (ls_db s2)|done|tauto|].
  intros d Hd s' Hs'. apply (servable_extend s0); [etransitivity; [apply with_current_extend|by apply steps_extend]|].
  destruct Hd as [->|[Hn Hd]]; [done|]. destruct Hor as [?|[_ Hp]]; [done|by apply Hp].
Qed.

(** ** A replica alone

    Without other writers and database failures what activation does is a
    function of the store and the bundle. *)
Section alone.
Context `{codec : Codec} `{yaml : Yaml} `{replica : Replica}.
Context (sha256_size : ∀ x, String.length (sha256 x) = 32%nat).
Context (alone : ∀ n s, r_others n s = s) (no_fault : ∀ n, r_fault n = NoFault).

Lemma hex_digit_digit n : 0 <= n < 16 → (is_digit (hex_digit n) || byte_between "a"%char "f"%char (hex_digit n)) = true.
Proof using.
  intros Hn. assert (∀ k, (k < 16)%nat → (is_digit (hex_digit (Z.of_nat k)) || byte_between "a"%char "f"%char (hex_digit (Z.of_nat k))) = true) as H.
  { intros k Hk. do 16 (destruct k as [|k]; [vm_compute; reflexivity|]). lia. }
  rewrite <- (Z2Nat.id n) by lia. apply H. lia.
Qed.


Lemma hex_is_digest s : String.length s = 32%nat → is_digest (hex s) = true.
Proof using.
  intros Hl. unfold is_digest. apply andb_true_iff. split.
  - apply Z.eqb_eq. unfold slen. assert (∀ t, String.length (hex t) = (2 * String.length t)%nat) as E.
    { induction t as [|c t IH]; simpl; [done|]. rewrite IH. lia. }
    by rewrite E, Hl.
  - clear Hl. induction s as [|c s IH]; [done|]. pose proof (code_bounds c) as Hc. cbn [hex all_bytes].
    rewrite !hex_digit_digit, IH; [done|apply Z.mod_pos_bound; lia|split; [apply Z.div_pos; lia|apply Z.div_lt_upper_bound; lia]].
Qed.

Lemma store_alone {A} (t : Z → tx A) st : store t st =
  match t (r_now st.(ls_tick)) st.(ls_db) with
  | Ok (a, s') => (with_db s' st, Ok a) | Err e => (with_db st.(ls_db) st, Err (SJournal e)) end.
Proof using alone no_fault. unfold store, transact. simpl. rewrite alone, no_fault. by destruct (t _ _) as [[]|]. Qed.

Lemma query_alone {A} (q : db → result error A) st a : q st.(ls_db) = Ok a →
  store (query q) st = (with_db st.(ls_db) st, Ok a).
Proof using alone no_fault. intros H. rewrite store_alone. unfold query. by rewrite H. Qed.

(** Loading a digest: what the store serves, and nothing changes but the cache. *)
Lemma Load_alone d st : cache_ok st → ∃ st',
  Load d st = (st', match served_set st.(ls_db) d with Some set => Ok set | None => Err (SJournal ErrDefinition) end) ∧
  st'.(ls_db) = st.(ls_db) ∧ cache_ok st' ∧ (∀ e, Served st e = true → Served st' e = true) ∧
  Served st' d = servable st.(ls_db) d.
Proof using alone no_fault.
  intros Hok. assert (∀ n s, sets_extend s (r_others n s)) as HE by (intros n s; by rewrite alone).
  destruct (Load_keeps HE d st Hok) as (Hok' & _ & Hserved). unfold Load in *. rewrite asks_bind in *.
  destruct (ls_sets st !! d) as [set|] eqn:Ed.
  { exists st. rewrite (Hok d set Ed). split_and!; try done. unfold Served, servable. by rewrite Ed, (Hok d set Ed). }
  unfold mbind, prog_bind in *. rewrite store_alone in *. unfold query, servable, served_set in *.
  destruct (DefinitionSet d (ls_db st)) as [files|e] eqn:Ef; simpl in *.
  2:{ exists (with_db st.(ls_db) st). assert (e = ErrDefinition) as -> by (unfold DefinitionSet in Ef; destruct (def_sets _ !! d); congruence).
      split_and!; try done. unfold Served. simpl. by rewrite Ed. }
  destruct (CompileBundle files) as [set|]; simpl in *.
  2:{ exists (with_db st.(ls_db) st). split_and!; try done. unfold Served. simpl. by rewrite Ed. }
  unfold unless in *. case_bool_decide; simpl in *.
  - eexists. split_and!; [done..|]. unfold Served. simpl. by rewrite lookup_insert_eq.
  - exists (with_db st.(ls_db) st). split_and!; try done. unfold Served. simpl. by rewrite Ed.
Qed.

(** The first digest of a list that cannot be served. *)
Definition unserved (s : db) (l : list string) : option string := head (filter (λ d, servable s d = false) l).

Lemma load_all_alone l st : cache_ok st → ∃ st',
  load_all l st = (st', match unserved st.(ls_db) l with None => Ok tt | Some d => Err (ADefinition d) end) ∧
  st'.(ls_db) = st.(ls_db) ∧ cache_ok st' ∧ (∀ e, Served st e = true → Served st' e = true) ∧
  (unserved st.(ls_db) l = None → ∀ d, d ∈ l → Served st' d = true).
Proof using alone no_fault.
  revert st. induction l as [|d l IH]; intros st Hok.
  { exists st. split_and!; try done. by intros _ d ?%elem_of_nil. }
  destruct (Load_alone d st Hok) as (st1 & E & Edb & Hok1 & Hs1 & Hd). cbn [load_all]. unfold unserved. rewrite filter_cons.
  destruct (served_set (ls_db st) d) as [set|] eqn:Es.
  - assert (servable (ls_db st) d = true) as Hsv by (apply bool_decide_eq_true; by exists set).
    rewrite Hsv in *. rewrite decide_False by done. destruct (IH st1 Hok1) as (st2 & E2 & Edb2 & Hok2 & Hs2 & Hl2).
    rewrite Edb in *. fold (unserved (ls_db st) l). exists st2. split_and!; [|done|done|auto|].
    + unfold mbind, prog_bind, try. by rewrite E.
    + intros Hu e [->|He]%elem_of_cons; auto.
  - assert (servable (ls_db st) d = false) as Hsv by (apply bool_decide_eq_false; rewrite Es; by intros []).
    rewrite decide_True by done. exists st1. split_and!; try done. unfold mbind, prog_bind, try. by rewrite E.
Qed.

(** What an attempt does alone. *)
Definition expected (rollback : bool) (c : string) (s : db) : Outcome :=
  if bool_decide (s.(current) = Some c) then AlreadyCurrent
  else if negb rollback && activated_before c s then Superseded else Activated.
Definition verdict (rollback : bool) (c : string) (s : db) : result activate_error Result :=
  match expected rollback c s with
  | Activated =>
      match unserved s (c :: ReferencedDefinitions s) with
      | Some d => Err (ADefinition d)
      | None => Ok (mk_Result c c Activated)
      end
  | o => Ok (mk_Result c (default "" s.(current)) o)
  end.
(** The database next to a verdict: only [Activated] writes. *)
Definition after_verdict (v : result activate_error Result) (c : string) (s s' : db) : Prop :=
  match v with Ok (mk_Result _ _ Activated) => ∃ now, s' = with_current now c s | _ => s' = s end.

Lemma current_digest_alone st : current_digest st = (with_db st.(ls_db) st, Ok (default "" st.(ls_db).(current))).
Proof using alone no_fault.
  unfold current_digest, mbind, prog_bind, try. rewrite store_alone. unfold query, CurrentDefinition.
  by destruct (current (ls_db st)).
Qed.

Lemma attempt_alone rollback c st : cache_ok st → slen c = 64 → ∃ st',
  attempt rollback c st = (st', match verdict rollback c st.(ls_db) with Ok r => Ok (Some r) | Err e => Err e end) ∧
  after_verdict (verdict rollback c st.(ls_db)) c st.(ls_db) st'.(ls_db).
Proof using alone no_fault.
  intros Hok Hlen. set (s := ls_db st) in *. unfold attempt, verdict, expected.
  assert (∀ st1, cache_ok st1 → st1.(ls_db) = s → cache_ok (with_db s st1)) as Hw.
  { intros st1 H1 E. rewrite <- E. exact H1. }
  unfold mbind at 1, prog_bind at 1. rewrite current_digest_alone. fold s. set (st1 := with_db s st).
  assert (cache_ok st1) as Hok1 by (by apply Hw).
  destruct (decide (s.(current) = Some c)) as [Hcur|Hcur].
  { rewrite Hcur. simpl. rewrite !bool_decide_eq_true_2 by done. by exists st1. }
  rewrite (bool_decide_eq_false_2 (s.(current) = Some c)) by done.
  rewrite (bool_decide_eq_false_2 (default "" _ = c)).
  2: { destruct (current s) as [d|]; simpl; [congruence|]. by intros <-. }
  unfold mbind at 1, prog_bind at 1.
  assert (∃ st2, (if rollback then mret false else database (store (query (λ s, Ok (DefinitionActivated c s))))) st1 =
    (st2, Ok (negb rollback && activated_before c s)) ∧ st2.(ls_db) = s ∧ cache_ok st2) as (st2 & -> & E2 & Hok2).
  { destruct rollback; [by exists st1|]. exists (with_db s st1). split; [|split; [done|by apply Hw]].
    unfold database, mbind, prog_bind, try. by rewrite (query_alone _ st1 (activated_before c s)). }
  destruct (negb rollback && activated_before c s) eqn:Eb; [by exists st2|].
  unfold mbind at 1, prog_bind at 1. unfold database at 1, mbind at 1, prog_bind at 1, try at 1.
  rewrite (query_alone _ st2 (ReferencedDefinitions s)) by (by rewrite E2). unfold mret at 1, prog_ret at 1. rewrite E2.
  set (st3 := with_db s st2). assert (cache_ok st3) as Hok3 by (by apply Hw).
  destruct (load_all_alone (c :: ReferencedDefinitions s) st3 Hok3) as (st4 & E4 & Edb4 & Hok4 & _ & Hserved).
  change (ls_db st3) with s in *. unfold mbind at 1, prog_bind at 1. rewrite E4.
  destruct (unserved s (c :: ReferencedDefinitions s)) as [d|] eqn:Eu; [by exists st4|].
  specialize (Hserved eq_refl). rewrite asks_bind. unfold mbind at 1, prog_bind at 1, try at 1. rewrite store_alone, Edb4.
  rewrite (proj2 (activate_ok_iff (r_now (ls_tick st4)) (Some (Served st4)) (default "" (current s)) c rollback s
    (with_current (r_now (ls_tick st4)) c s))).
  - eexists. split; [done|]. by eexists.
  - split_and!; [done|apply Hserved; by left|done|]. right. split; [done|]. split_and!.
    + destruct rollback; [by left|by right].
    + intros d Hd. apply Hserved. right. by apply elem_of_sort_strings.
    + by destruct (current s).
Qed.

(** The database once the candidate is stored. *)
Definition put_set (c : string) (files : Bundle) (s : db) : db :=
  match s.(def_sets) !! c with Some _ => s | None => upd_def_sets <[c := mk_defset None files]> s end.

Lemma put_set_run b set s tick : CompileBundle b = Ok set →
  database (store (λ _, PutDefinitionSet set.(set_digest) set.(set_bundle))) (mk_lstate s tick ∅) =
    (with_db (put_set set.(set_digest) set.(set_bundle) s) (mk_lstate s tick ∅), Ok tt).
Proof using sha256_size alone no_fault.
  intros Hcb. assert (is_digest set.(set_digest) = true) as Hdig.
  { destruct (CompileBundle_compiled b set Hcb) as (_ & _ & _ & Hd & _). rewrite Hd. by apply hex_is_digest. }
  pose proof (CompileBundle_again b set Hcb) as Ha. set (files := set.(set_bundle)) in *.
  assert (files ≠ ∅ ∧ files !! "" = None) as [Hne Hemp].
  { unfold CompileBundle in Ha. destruct (validateBundle files) as [[]|] eqn:Ev; [|done].
    apply validateBundle_ok in Ev as (_ & _ & Hf). apply ensure_bind in Ha as [[x Hx]%bool_decide_eq_true _]. split.
    - intros E. by rewrite E in Hx.
    - destruct (files !! "") as [d|] eqn:E; [|done]. by destruct (Hf _ _ E) as (_ & ? & _). }
  unfold database, mbind, prog_bind, try. rewrite store_alone. simpl. unfold PutDefinitionSet, put_set.
  rewrite guard_run by (by rewrite Hdig, (bool_decide_eq_false_2 (files = ∅)), (bool_decide_eq_true_2 (files !! "" = None))).
  rewrite get_run. by destruct (def_sets s !! _).
Qed.

(** C26: what [Activate] does is decided by the bundle and the store when no
    other process writes and no call fails. A bundle that cannot be read or
    compiled changes nothing. Otherwise its set is stored if its digest is new,
    in which case it can be served; then, if it is current, or was before and
    this is no rollback, nothing else changes and the result says so; if it or a
    set a conversation may need cannot be served, nothing else changes and the
    error names the first such digest; and in every other case it becomes
    current. *)
Theorem Activate_alone (fsys : hostFS) (rollback : bool) (s : db) (tick : nat) :
  let start := mk_lstate s tick ∅ in
  match ReadBundle fsys with
  | Err e => Activate true fsys rollback start = (start, Err (ARead e))
  | Ok b =>
      match CompileBundle b with
      | Err e => Activate true fsys rollback start = (start, Err (ACompile e))
      | Ok set =>
          let c := set.(set_digest) in
          let s1 := put_set c set.(set_bundle) s in
          let v := verdict rollback c s1 in
          ∃ st, Activate true fsys rollback start = (st, v) ∧ after_verdict v c s1 st.(ls_db) ∧
            (s.(def_sets) !! c = None → servable s1 c = true) ∧
            expected rollback c s1 = expected rollback c s ∧ ReferencedDefinitions s1 = ReferencedDefinitions s ∧
            ∀ d files, DefinitionSet d s = Ok files → DefinitionSet d s1 = Ok files
      end
  end.
Proof using sha256_size alone no_fault.
  cbv zeta. unfold Activate. unfold unless, lift_result, mbind at 1, prog_bind at 1, mret at 1, prog_ret at 1.
  destruct (ReadBundle fsys) as [b|e]; [|done]. unfold mbind at 1, prog_bind at 1.
  destruct (CompileBundle b) as [set|e] eqn:Hcb; [|unfold mbind, prog_bind; cbn; by rewrite Hcb]. unfold mbind at 1, prog_bind at 1. unfold mbind at 1, prog_bind at 1.
  rewrite (put_set_run b set s tick Hcb). rewrite update_bind.
  set (c := set.(set_digest)) in *. set (s1 := put_set c set.(set_bundle) s).
  assert (slen c = 64) as Hlen.
  { destruct (CompileBundle_compiled b set Hcb) as (_ & _ & _ & Hd & _). unfold c. rewrite Hd. unfold setDigest, hexDigest.
    match goal with |- slen (hex (sha256 ?t)) = _ => pose proof (hex_is_digest _ (sha256_size t)) as H end.
    by apply andb_true_iff in H as [?%Z.eqb_eq _]. }
  set (st1 := mk_lstate _ _ _). destruct (attempt_alone rollback c st1) as (st2 & E2 & Hdb2); [apply cache_ok_empty|done|].
  simpl in E2, Hdb2. fold s1 in E2, Hdb2. exists st2. split_and!.
  - unfold activateAttempts. cbn [attempts]. unfold mbind, prog_bind. rewrite E2. by destruct (verdict rollback c s1).
  - exact Hdb2.
  - intros Hn. apply servable_iff. exists set.(set_bundle), set. split_and!; [|by eapply CompileBundle_again|done].
    unfold s1, put_set, DefinitionSet. rewrite Hn. simpl. by rewrite lookup_insert_eq.
  - unfold expected, s1, put_set, activated_before. destruct (def_sets s !! c) as [r|] eqn:Er; [by rewrite Er|]. simpl. by rewrite lookup_insert_eq.
  - unfold s1, put_set. by destruct (def_sets s !! c).
  - intros d files. unfold s1, put_set, DefinitionSet. destruct (def_sets s !! c) eqn:Er; [done|]. simpl.
    destruct (decide (c = d)) as [<-|]; [by rewrite Er|by rewrite lookup_insert_ne].
Qed.
End alone.
