(* ===== verification/HttpHeader.v ===== *)
(** * HTTP headers

    What the code uses of [net/http.Header]: a map from canonical names to
    values, its methods, and the RFC 7230 tokens both configuration parsers
    accept as names ([isToken] of [internal/credential] and [internal/cost] is
    the same test as [validHeaderToken] of [internal/definitions]). *)
From S2P Require Import Prelude GoText CallBinding Compile.
From Stdlib Require Import Ascii.

Abbreviation Header := (gmap string (list string)).
Abbreviation CanonicalHeaderKey := CanonicalMIMEHeaderKey.

Definition header_values (key : string) (h : Header) : list string := default [] (h !! CanonicalHeaderKey key).
Definition header_get (key : string) (h : Header) : string := default "" (head (header_values key h)).
Definition header_set (key v : string) (h : Header) : Header := <[CanonicalHeaderKey key := [v]]> h.
Definition header_del (key : string) (h : Header) : Header := delete (CanonicalHeaderKey key) h.
Definition header_add (key v : string) (h : Header) : Header := <[CanonicalHeaderKey key := header_values key h ++ [v]]> h.

(** The names of the transport and the protocol that both packages reserve. *)
Definition transport_names : list string :=
  ["Host"; "Content-Length"; "Content-Type"; "Transfer-Encoding"; "Connection"; "Accept"; "Mcp-Session-Id";
   "Mcp-Protocol-Version"; "Last-Event-Id"; "Traceparent"; "Tracestate"].

(** [strings.Trim(s, ...)] with blanks and tabs. *)
Definition blanks : string := String " " (String "009" "").
Definition trim_blanks (s : string) : string := trim (in_set blanks) s.

#[local] Set Default Proof Using "Type".

(** ** Canonical names *)

Lemma to_upper_idem c : to_upper (to_upper c) = to_upper c.
Proof. destruct c as [[] [] [] [] [] [] [] []]; vm_compute; reflexivity. Qed.
Lemma to_lower_idem c : to_lower (to_lower c) = to_lower c.
Proof. destruct c as [[] [] [] [] [] [] [] []]; vm_compute; reflexivity. Qed.

Definition token_byte (c : ascii) : bool := is_alnum c || in_set token_punct c.

Lemma to_upper_token c : token_byte c = true → token_byte (to_upper c) = true.
Proof. destruct c as [[] [] [] [] [] [] [] []]; vm_compute; congruence. Qed.
Lemma to_lower_token c : token_byte c = true → token_byte (to_lower c) = true.
Proof. destruct c as [[] [] [] [] [] [] [] []]; vm_compute; congruence. Qed.

Lemma canonical_from_idem s : ∀ up, canonical_from up (canonical_from up s) = canonical_from up s.
Proof.
  induction s as [|c s IH]; intros up; [done|]. cbn [canonical_from].
  destruct up; rewrite ?to_upper_idem, ?to_lower_idem; f_equal; apply IH.
Qed.

Lemma canonical_from_tokens s : ∀ up, all_bytes token_byte s = true → all_bytes token_byte (canonical_from up s) = true.
Proof.
  induction s as [|c s IH]; intros up; [done|]. cbn [canonical_from all_bytes]. rewrite !andb_true_iff. intros [Hc Hs].
  split; [destruct up; [by apply to_upper_token|by apply to_lower_token]|by apply IH].
Qed.

Lemma canonical_idem s : CanonicalHeaderKey (CanonicalHeaderKey s) = CanonicalHeaderKey s.
Proof.
  unfold CanonicalMIMEHeaderKey. fold token_byte. change (λ c, is_alnum c || in_set token_punct c) with token_byte.
  destruct (all_bytes token_byte s) eqn:H; [|by rewrite H].
  by rewrite canonical_from_tokens, canonical_from_idem.
Qed.

Lemma canonical_empty s : CanonicalHeaderKey s = "" → s = "".
Proof. unfold CanonicalMIMEHeaderKey. case_match; [|done]. by destruct s. Qed.

(** Names as the parsers leave them. *)
Definition canonical (s : string) : Prop := CanonicalHeaderKey s = s.


(** ** Writing headers *)

Lemma header_add_all k vs : ∀ h, canonical k → foldl (λ h v, header_add k v h) h vs =
  if bool_decide (vs = []) then h else <[k := header_values k h ++ vs]> h.
Proof.
  intros h Hk. revert h. induction vs as [|v vs IH]; intros h; [done|]. cbn [foldl]. rewrite IH. unfold header_add, header_values.
  rewrite Hk, (bool_decide_eq_false_2 (v :: vs = [])) by done. case_bool_decide as E; [by rewrite E|].
  rewrite lookup_insert_eq, insert_insert_eq. simpl. by rewrite <- app_assoc.
Qed.

(** Setting or removing every header of a map, in any order. *)
Lemma foldl_alter {A B} (f : gmap string B → string * A → gmap string B) (g : A → option B) (m : gmap string A)
    (h : gmap string B) k :
  (∀ h k v, m !! k = Some v → f h (k, v) = partial_alter (λ _, g v) k h) →
  foldl f h (map_to_list m) !! k = match m !! k with Some v => g v | None => h !! k end.
Proof.
  intros Hf. assert (H : ∀ l h, NoDup (fst <$> l) → (∀ p, p ∈ l → m !! p.1 = Some p.2) →
    foldl f h l !! k = match (list_to_map l : gmap string A) !! k with Some v => g v | None => h !! k end).
  { induction l as [|[k' v] l IH]; intros h' Hl Hin; [by rewrite list_to_map_nil, lookup_empty|].
    apply NoDup_cons in Hl as [Hk Hl]. cbn [foldl].
    rewrite IH, Hf, list_to_map_cons; [|by apply (Hin (k', v)); left|done|by intros p Hp; apply Hin; right].
    destruct (decide (k' = k)) as [->|Hne].
    - by rewrite lookup_insert_eq, (not_elem_of_list_to_map_1 (M := gmap string)), lookup_partial_alter_eq.
    - by rewrite lookup_insert_ne, lookup_partial_alter_ne. }
  rewrite H, list_to_map_to_list; [done|apply NoDup_fst_map_to_list|].
  intros [k' v] Hp. by apply elem_of_map_to_list in Hp.
Qed.
