(* ===== verification/Credential.v ===== *)
(** * Credentials

    [internal/credential]: the auth headers of the user's request, carried to
    the tool server, and [headerTransport] of [internal/catalog/transport.go],
    which writes them.  A [http.Request] is its header (nil is the empty map);
    the zero [Credential] is [None]. *)
From S2P Require Import Prelude GoText CallBinding Compile HttpHeader.
From Stdlib Require Import Ascii.

(** The forwarded headers. *)
Abbreviation secret := Header (only parsing).
Abbreviation Credential := (option Header) (only parsing).

Fixpoint from_headers (h : Header) (names : list string) (headers : Header) : Header :=
  match names with
  | [] => headers
  | name :: names =>
      let key := CanonicalHeaderKey name in
      let values := header_values key h in
      from_headers h names (if bool_decide (values = []) then headers else <[key := values]> headers)
  end.
Definition FromRequest (r : option Header) (names : list string) : Credential :=
  match r with
  | None => None
  | Some h =>
      let headers := from_headers h names ∅ in
      if bool_decide (headers = ∅) then None else Some headers
  end.

(** One header of the credential: deleted, then added value by value. *)
Definition apply_header (h : Header) (p : string * list string) : Header :=
  foldl (λ h v, header_add p.1 v h) (header_del p.1 h) p.2.
Definition Apply (c : Credential) (req : Header) : Header :=
  match c with
  | None => req
  | Some headers => foldl apply_header req (map_to_list headers)
  end.

(** Every way to print a credential. *)
Definition redacted : string := "[REDACTED]".
Definition Format (c : Credential) : string := redacted.
Definition MarshalJSON (c : Credential) : string := (String dquote redacted +:+ String dquote "")%string.

Definition reserved : list string := transport_names.

Inductive name_error := errInvalidName.

Fixpoint parse_names (parts : list string) (names : list string) : result name_error (list string) :=
  match parts with
  | [] => Ok names
  | part :: parts =>
      let part := trim_blanks part in
      ensure (validHeaderToken part) errInvalidName;;
      let name := CanonicalHeaderKey part in
      ensure (negb (contains name reserved)) errInvalidName;;
      ensure (negb (contains name names)) errInvalidName;;
      parse_names parts (names ++ [name])
  end.
Definition ParseHeaderNames (value : string) : result name_error (list string) :=
  if bool_decide (trim_space value = "") then Ok [] else parse_names (split "," value) [].

(** [headerTransport.RoundTrip]: the headers of the request it sends; the trace
    context is what the propagator injects. *)
Definition round_trip (c : Credential) (callIDHeader : string) (callID : string) (inject : Header → Header)
    (req : Header) : Header :=
  let h := Apply c req in
  inject (if negb (bool_decide (callIDHeader = "")) && negb (bool_decide (callID = ""))
          then header_set callIDHeader callID h else h).

(** What its answer is made of. *)
Inductive transport_error := TAuthRequired | TNotPermitted | TFailed.
Definition round_trip_result (response : option Z) : result transport_error Z :=
  match response with
  | None => Err TFailed
  | Some status =>
      if status =? 401 then Err TAuthRequired
      else if status =? 403 then Err TNotPermitted
      else Ok status
  end.

#[local] Set Default Proof Using "Type".

(** ** Names *)

Definition names_ok (names : list string) : Prop :=
  NoDup names ∧ ∀ n, n ∈ names → canonical n ∧ n ≠ "" ∧ n ∉ reserved.

Lemma parse_names_ok parts : ∀ names out, names_ok names → parse_names parts names = Ok out → names_ok out.
Proof.
  induction parts as [|p parts IH]; intros names out H; [by intros [= <-]|]. cbn [parse_names]. cbv zeta.
  rewrite !ensure_bind. intros (Ht & Hr & Hs & Hp). rewrite negb_true_iff, contains_false in Hr, Hs.
  apply IH in Hp; [done|]. destruct H as [Hn H]. split.
  - apply NoDup_app. split_and!; [done| |apply NoDup_singleton]. by intros x Hx ->%list_elem_of_singleton.
  - intros n [Hx| ->%list_elem_of_singleton]%elem_of_app; [by apply H|]. split_and!; [apply canonical_idem| |done].
    intros E%canonical_empty. by rewrite E in Ht.
Qed.

Lemma ParseHeaderNames_ok value names : ParseHeaderNames value = Ok names → names_ok names.
Proof.
  unfold ParseHeaderNames. case_match; [|by apply parse_names_ok; split; [constructor|set_solver]].
  intros [= <-]. split; [constructor|set_solver].
Qed.

(** ** Forwarding *)

Lemma from_headers_lookup h names : ∀ acc k, from_headers h names acc !! k =
  if bool_decide (k ∈ CanonicalHeaderKey <$> names ∧ header_values k h ≠ []) then Some (header_values k h) else acc !! k.
Proof.
  induction names as [|n names IH]; intros acc k; cbn [from_headers fmap list_fmap]; cbv zeta.
  { rewrite bool_decide_eq_false_2; [done|]. set_solver. }
  rewrite IH. destruct (bool_decide (k ∈ _ <$> names ∧ _)) eqn:E1; [apply bool_decide_eq_true in E1; rewrite bool_decide_eq_true_2 by set_solver; done|].
  destruct (decide (k = CanonicalHeaderKey n)) as [->|Hne].
  - destruct (bool_decide (header_values _ h = [])) eqn:E.
    + apply bool_decide_eq_true in E. by rewrite bool_decide_eq_false_2 by naive_solver.
    + apply bool_decide_eq_false in E. rewrite lookup_insert_eq, bool_decide_eq_true_2; [done|]. split; [by left|done].
  - apply bool_decide_eq_false in E1. rewrite (bool_decide_eq_false_2 (k ∈ _ :: _ ∧ _)) by set_solver. by destruct (bool_decide _); rewrite ?lookup_insert_ne.
Qed.

(** What a request carries after the credential was applied. *)
Lemma Apply_lookup names h req k : (∀ n, n ∈ names → canonical n) →
  Apply (FromRequest (Some h) names) req !! k =
  if bool_decide (k ∈ names ∧ header_values k h ≠ []) then Some (header_values k h) else req !! k.
Proof.
  intros Hn. assert (Hk : CanonicalHeaderKey <$> names = names).
  { rewrite <- (list_fmap_id names) at 2. apply list_fmap_ext. intros i x Hx. by apply Hn, list_elem_of_lookup; exists i. }
  assert (Hm := λ k, from_headers_lookup h names ∅ k). rewrite Hk in Hm.
  unfold FromRequest. case_bool_decide as He.
  - simpl. specialize (Hm k). rewrite He, !lookup_empty in Hm. by destruct (bool_decide _).
  - cbn [Apply]. rewrite (foldl_alter _ Some).
    + rewrite Hm, lookup_empty. by destruct (bool_decide _).
    + intros g k' v. rewrite Hm, lookup_empty. case_bool_decide as Hc; [|done]. destruct Hc as [Hin Hne].
      intros [= <-]. unfold apply_header. cbn [fst snd]. apply Hn in Hin.
      rewrite header_add_all, bool_decide_eq_false_2 by done. unfold header_del, header_values at 1.
      rewrite Hin, lookup_delete_eq. simpl. by rewrite insert_delete_eq.
Qed.

(** The headers of the W3C trace context. *)
Definition trace_context : list string := ["Traceparent"; "Tracestate"].

(** What a tool server gets of the user's request: with accepted names, a
    request carries the values of exactly the named headers the user sent, the
    call identifier under its configured name, the propagator's trace context,
    and otherwise what it carried before; no accepted name is one of the
    transport's. *)
Theorem credentials_forwarded (value : string) (names : list string) (h req : Header) (callIDHeader callID : string)
    (inject : Header → Header)
    (Hnames : ParseHeaderNames value = Ok names)
    (Hinject : ∀ g k, k ∉ trace_context → inject g !! k = g !! k) :
  (∀ k, k ∉ trace_context → round_trip (FromRequest (Some h) names) callIDHeader callID inject req !! k =
    if bool_decide (callIDHeader ≠ "" ∧ callID ≠ "" ∧ k = CanonicalHeaderKey callIDHeader) then Some [callID]
    else if bool_decide (k ∈ names ∧ header_values k h ≠ []) then Some (header_values k h)
    else req !! k) ∧
  ∀ k, k ∈ reserved → k ∉ names.
Proof.
  apply ParseHeaderNames_ok in Hnames as [_ Hok]. split; [|by intros k Hr Hn; apply Hok in Hn as (_ & _ & ?)].
  intros k Hk. unfold round_trip. cbv zeta. rewrite Hinject by done.
  rewrite <- Apply_lookup by (intros n Hn; by apply Hok).
  set (called := callIDHeader ≠ "" ∧ callID ≠ "" ∧ k = CanonicalHeaderKey callIDHeader).
  destruct (negb (bool_decide (callIDHeader = "")) && negb (bool_decide (callID = ""))) eqn:E;
    rewrite ?andb_true_iff, ?andb_false_iff, ?negb_true_iff, ?negb_false_iff, ?bool_decide_eq_true, ?bool_decide_eq_false in E.
  - unfold header_set. destruct (decide (k = CanonicalHeaderKey callIDHeader)) as [Hc|Hc].
    + rewrite (bool_decide_eq_true_2 called) by (by destruct E). rewrite Hc. apply lookup_insert_eq.
    + rewrite (bool_decide_eq_false_2 called) by (by intros (_ & _ & ?)). by rewrite lookup_insert_ne.
  - rewrite (bool_decide_eq_false_2 called); [done|]. intros (H1 & H2 & _). tauto.
Qed.

Lemma credentials_forwarded_witness :
  let h : Header := {["Authorization" := ["Bearer u"]; "Cookie" := ["c"]]} in
  let req : Header := {["Authorization" := ["x"]; "Accept" := ["a"]]} in
  round_trip (FromRequest (Some h) ["Authorization"; "X-Team"]) "X-Call-Id" "call_1" id req !! "Authorization" = Some ["Bearer u"].
Proof.
  intros h req.
  destruct (credentials_forwarded "authorization, x-team" ["Authorization"; "X-Team"] h req "X-Call-Id" "call_1" id) as [H _];
    [by vm_compute|done|].
  rewrite (H "Authorization") by (apply (bool_decide_unpack _); by vm_compute). by vm_compute.
Defined.
