(* ===== verification/Cost.v ===== *)
(** * Cost enforcement

    [internal/cost]: the gate that admits a run and decorates its provider
    requests with attribution headers, the classification of a provider's
    rejection as a limit, and the usage report.  Durations are nanoseconds in
    an [int64]; the settings of a gate are its cost profile. *)
From stdpp Require Import pretty.
From S2P Require Import Prelude GoText Db CallBinding Records Compile HttpHeader.
From Stdlib Require Import Ascii.

Definition MaxInt64 : Z := 2 ^ 63 - 1.
(** Addition on [int64]. *)
Definition add64 (x y : Z) : Z := (x + y + 2 ^ 63) mod 2 ^ 64 - 2 ^ 63.
Definition Millisecond : Z := 10 ^ 6.
Definition Second : Z := 10 ^ 9.

(** ** Limits and decisions *)

Record Attribution := mk_Attribution {
  at_Tenant : string; at_Principal : string; at_Conversation : string; at_Run : string; at_Journey : string;
}.
Definition LimitBudget : string := "budget".
Definition LimitRate : string := "rate".
Record LimitError := mk_LimitError { le_Kind : string; le_RetryAfter : Z }.

Definition limit_text (e : LimitError) : string :=
  ("limit exceeded: " +:+ e.(le_Kind) +:+
   (if (0 <? e.(le_RetryAfter))%Z then " (retry after " +:+ pretty (Z.quot e.(le_RetryAfter) Second) +:+ "s)" else ""))%string.

Record Decision := mk_Decision { d_Allow : bool; d_Kind : string; d_RetryAfter : Z }.
Definition Allow : Decision := mk_Decision true "" 0.
Definition Deny (kind : string) (retryAfter : Z) : Decision := mk_Decision false kind retryAfter.
Definition decision_err (d : Decision) : option LimitError :=
  if d.(d_Allow) then None
  else Some (mk_LimitError (if bool_decide (d.(d_Kind) = "") then LimitBudget else d.(d_Kind)) d.(d_RetryAfter)).

(** ** Classifying a rejection *)

(** A decoded JSON value, as far as it is looked at. *)
#[warnings="-register-all"]
Inductive any := AString (s : string) | AMap (m : gmap string any) | AOther.
(** A finite [float64]: mantissa and binary exponent. *)
Record float := mk_float { f_mant : Z; f_exp : Z }.

(** The decoders: [json.Unmarshal] into a map, [strconv.ParseFloat] (an error,
    an infinity or no number is [None]) and [http.ParseTime]. *)
Class Decoders := mk_Decoders {
  json_map : string → option (gmap string any);
  parse_float : string → option float;
  parse_time : string → option Z;
}.

Definition budgetExceeded : string := "budget_exceeded".
Definition hasBudget (m : gmap string any) : bool :=
  existsb (λ k, match m !! k with Some (AString v) => bool_decide (v = budgetExceeded) | _ => false end) ["code"; "type"].

Definition digit_value (c : ascii) : option Z := if is_digit c then Some (code c - code "0") else None.
Fixpoint digits_from (acc : Z) (s : string) : option Z :=
  match s with
  | "" => Some acc
  | String c s => match digit_value c with Some d => digits_from (acc * 10 + d) s | None => None end
  end.
(** [strconv.ParseInt(s, 10, 64)] *)
Definition ParseInt (s : string) : option Z :=
  let '(neg, s) := match s with
    | String "-" s => (true, s) | String "+" s => (false, s) | _ => (false, s) end in
  if bool_decide (s = "") then None
  else n ← digits_from 0 s;
       let n := if (neg : bool) then - n else n in
       if (- 2 ^ 63 <=? n) && (n <=? MaxInt64) then Some n else None.

(** Rounding a positive integer to the 53 bits of a [float64], half to even. *)
Definition round53 (n : Z) : Z :=
  let s := Z.log2 n - 52 in
  if s <=? 0 then n
  else
    let q := Z.shiftr n s in
    let r := n - Z.shiftl q s in
    let half := 2 ^ (s - 1) in
    Z.shiftl (if (half <? r) || (half =? r) && Z.odd q then q + 1 else q) s.
Definition float_lt (f : float) (n : Z) : bool :=
  if 0 <=? f.(f_exp) then f.(f_mant) * 2 ^ f.(f_exp) <? n else f.(f_mant) <? n * 2 ^ (- f.(f_exp)).
(** [time.Duration(ms * float64(time.Millisecond))] *)
Definition milliseconds (f : float) : Z :=
  let m := round53 (f.(f_mant) * Millisecond) in
  if 0 <=? f.(f_exp) then m * 2 ^ f.(f_exp) else m / 2 ^ (- f.(f_exp)).

(** [t.Sub(u)] saturates. *)
Definition time_sub (t u : Z) : Z := Z.max (- 2 ^ 63) (Z.min MaxInt64 (t - u)).

Section classify.
Context `{decoders : Decoders}.

Definition bodySignalsBudget (body : string) : bool :=
  match json_map body with
  | None => false
  | Some top => hasBudget top || match top !! "error" with Some (AMap inner) => hasBudget inner | _ => false end
  end.

Definition retry_ms (v : string) : option Z :=
  if bool_decide (v = "") then None
  else f ← parse_float v;
       if (0 <? f.(f_mant)) && float_lt f (MaxInt64 / Millisecond) then Some (milliseconds f) else None.
Definition ParseRetryAfter (header : Header) (now : Z) : Z :=
  match retry_ms (trim_space (header_get "Retry-After-Ms" header)) with
  | Some d => d
  | None =>
      let v := trim_space (header_get "Retry-After" header) in
      if bool_decide (v = "") then 0
      else match ParseInt v with
      | Some secs => if (secs <=? 0) || (MaxInt64 / Second <? secs) then 0 else secs * Second
      | None =>
          match parse_time v with
          | Some t => if 0 <? time_sub t now then time_sub t now else 0
          | None => 0
          end
      end
  end.

Definition ClassifyLimit (status : Z) (header : Header) (body : string) (now : Z) : option LimitError :=
  let budget := bodySignalsBudget body in
  let limit kind := Some (mk_LimitError kind (ParseRetryAfter header now)) in
  if (status =? 400) && budget then limit LimitBudget
  else if status =? 429 then limit (if budget then LimitBudget else LimitRate)
  else None.
End classify.

(** ** Attribution headers *)

(** An opaque decoration; the zero [Access] is [None]. *)
Abbreviation Access := (option (gmap string string)) (only parsing).

(** [Access.Apply]: headers to set, or to remove when the value is empty. *)
Definition apply_attribution (h : Header) (p : string * string) : Header :=
  if bool_decide (p.2 = "") then header_del p.1 h else header_set p.1 p.2 h.
Definition ApplyAccess (a : Access) (req : Header) : Header :=
  match a with None => req | Some set => foldl apply_attribution req (map_to_list set) end.

Record HeaderNames := mk_HeaderNames {
  hn_Tenant : string; hn_Principal : string; hn_Conversation : string; hn_Run : string; hn_Journey : string; hn_Profile : string;
}.
Definition DefaultHeaderNames : HeaderNames :=
  mk_HeaderNames "X-Agent-Tenant" "X-Agent-Principal" "X-Agent-Conversation" "X-Agent-Run" "X-Agent-Journey" "X-Agent-Cost-Profile".
Definition noNames : HeaderNames := mk_HeaderNames "" "" "" "" "" "".

Definition reserved : list string :=
  transport_names ++ ["Authorization"; "Proxy-Authorization"; "Cookie"; "Api-Key"; "X-Api-Key"].

Inductive cost_error := errInvalidNames | errUnknownGate.

(** One field in [normalize], with the names seen before. *)
Definition normalize_name (p : string) (seen : list string) : result cost_error (string * list string) :=
  if bool_decide (p = "") then Ok (p, seen)
  else
    ensure (validHeaderToken p) errInvalidNames;;
    let c := CanonicalHeaderKey p in
    ensure (negb (contains c reserved)) errInvalidNames;;
    ensure (negb (contains c seen)) errInvalidNames;;
    Ok (c, seen ++ [c]).
Definition normalize (n : HeaderNames) : result cost_error HeaderNames :=
  t ← normalize_name n.(hn_Tenant) [];
  p ← normalize_name n.(hn_Principal) t.2;
  c ← normalize_name n.(hn_Conversation) p.2;
  r ← normalize_name n.(hn_Run) c.2;
  j ← normalize_name n.(hn_Journey) r.2;
  f ← normalize_name n.(hn_Profile) j.2;
  Ok (mk_HeaderNames t.1 p.1 c.1 r.1 j.1 f.1).

(** The field a key names, set to a header. *)
Definition set_name (key name : string) (n : HeaderNames) : option HeaderNames :=
  let '(mk_HeaderNames t p c r j f) := n in
  if bool_decide (key = "tenant") then Some (mk_HeaderNames name p c r j f)
  else if bool_decide (key = "principal") then Some (mk_HeaderNames t name c r j f)
  else if bool_decide (key = "conversation") then Some (mk_HeaderNames t p name r j f)
  else if bool_decide (key = "run") then Some (mk_HeaderNames t p c name j f)
  else if bool_decide (key = "journey") then Some (mk_HeaderNames t p c r name f)
  else if bool_decide (key = "profile") then Some (mk_HeaderNames t p c r j name)
  else None.
Fixpoint parse_pairs (parts : list string) (seen : list string) (n : HeaderNames) : result cost_error HeaderNames :=
  match parts with
  | [] => Ok n
  | part :: parts =>
      match cut "=" (trim_blanks part) with
      | None => Err errInvalidNames
      | Some (key, name) =>
          let key := trim_blanks key in let name := trim_blanks name in
          ensure (negb (contains key seen)) errInvalidNames;;
          match set_name key name n with
          | None => Err errInvalidNames
          | Some n =>
              ensure (negb (bool_decide (name = ""))) errInvalidNames;;
              parse_pairs parts (key :: seen) n
          end
      end
  end.
Definition ParseCostHeaders (value : string) : result cost_error HeaderNames :=
  if bool_decide (trim_space value = "") then Ok DefaultHeaderNames
  else n ← parse_pairs (split "," value) [] noNames; normalize n.

Definition hasControl (s : string) : bool := any_byte (λ c, (code c <? 32) || (code c =? 127)) s.

(** The fields of the configured names with their values, and the decoration. *)
Definition attribution_fields (n : HeaderNames) (a : Attribution) (profile : string) : list (string * string) :=
  [(n.(hn_Tenant), a.(at_Tenant)); (n.(hn_Principal), a.(at_Principal)); (n.(hn_Conversation), a.(at_Conversation));
   (n.(hn_Run), a.(at_Run)); (n.(hn_Journey), a.(at_Journey)); (n.(hn_Profile), profile)].
Definition decoration_step (set : gmap string string) (f : string * string) : gmap string string :=
  if bool_decide (f.1 = "") then set else <[f.1 := if hasControl f.2 then "" else f.2]> set.
Definition HeadersAccess (n : HeaderNames) (a : Attribution) (profile : string) : Access :=
  let set := foldl decoration_step ∅ (attribution_fields n a profile) in
  if bool_decide (set = ∅) then None else Some set.

(** ** Gates *)

(** The port: whether a run may start, and the decoration of its requests; a
    gate outside the module may fail. *)
Record Gate := mk_Gate {
  g_Admit : Attribution → string → option Decision;
  g_Access : Attribution → string → option Access;
}.
Definition OpenGate : Gate := mk_Gate (λ _ _, Some Allow) (λ _ _, Some None).
Definition HeadersGate (n : HeaderNames) : Gate := mk_Gate (λ _ _, Some Allow) (λ a p, Some (HeadersAccess n a p)).
Definition NewHeaders (n : HeaderNames) : result cost_error Gate := n ← normalize n; Ok (HeadersGate n).
Definition NewGate (kind headerSpec : string) : result cost_error Gate :=
  if bool_decide (kind = "") || bool_decide (kind = "open") then Ok OpenGate
  else if bool_decide (kind = "headers") then names ← ParseCostHeaders headerSpec; NewHeaders names
  else Err errUnknownGate.

(** ** The usage report *)

Record UsageScope := mk_UsageScope { us_Tenant : string; us_Principal : string; us_Conversation : string; us_Journey : string }.
Record Window := mk_Window { wi_From : option Z; wi_To : option Z }.
Record Report := mk_Report { re_Scope : UsageScope; re_Window : Window; re_Total : UsageTotal; re_Models : list UsageTotal }.

Definition add_usage (r m : UsageTotal) : UsageTotal :=
  mk_UsageTotal r.(ut_Model) (add64 r.(ut_Calls) m.(ut_Calls)) (add64 r.(ut_Input) m.(ut_Input))
    (add64 r.(ut_Output) m.(ut_Output)) (add64 r.(ut_Cached) m.(ut_Cached)).
Definition UsageReport (scope : UsageScope) (window : Window) (s : db) : result Db.error Report :=
  totals ← UsageTotals (mk_UsageQuery scope.(us_Tenant) scope.(us_Principal) scope.(us_Conversation) scope.(us_Journey)
             window.(wi_From) window.(wi_To)) s;
  Ok (mk_Report scope window (foldl add_usage (mk_UsageTotal "" 0 0 0 0) totals) totals).
