(* ===== verification/CostSpec.v ===== *)
(** * What cost enforcement guarantees

    The theorems about [Cost]: the range of a retry delay, which is computed in
    floating point and machine integers from what a provider sends, and which
    headers of a provider request the attribution can touch. *)
From S2P Require Import Prelude GoText Db CallBinding Records Compile HttpHeader Cost.
From Stdlib Require Import Ascii.

#[local] Set Default Proof Using "Type".

(** ** The retry delay *)

Lemma round53_nonneg n : 0 <= n → 0 <= round53 n.
Proof.
  intros Hn. unfold round53. case_match; [done|]. cbv zeta. rewrite Z.shiftl_nonneg.
  assert (0 <= Z.shiftr n (Z.log2 n - 52)) by by apply Z.shiftr_nonneg. case_match; lia.
Qed.

(** Rounding is off by at most one unit in 53 bits. *)
Lemma round53_error n : 0 < n → 2 ^ 53 * round53 n <= (2 ^ 53 + 1) * n.
Proof.
  intros Hn. unfold round53. destruct (Z.leb_spec (Z.log2 n - 52) 0) as [|Hs]; [lia|].
  set (s := Z.log2 n - 52) in *. cbv zeta. rewrite !Z.shiftl_mul_pow2, Z.shiftr_div_pow2 by lia.
  assert (Hp : 2 ^ s = 2 * 2 ^ (s - 1)) by (rewrite <- Z.pow_succ_r by lia; f_equal; lia).
  assert (Hl : 2 ^ 52 * 2 ^ s <= n).
  { rewrite <- Z.pow_add_r by lia. replace (52 + s) with (Z.log2 n) by lia. apply Z.log2_spec; lia. }
  assert (Hd := Z.div_mod n (2 ^ s)). assert (Hm := Z.mod_pos_bound n (2 ^ s)).
  assert (0 < 2 ^ (s - 1)) by (apply Z.pow_pos_nonneg; lia).
  destruct (_ || _) eqn:E; [|nia].
  assert (2 ^ (s - 1) <= n - n / 2 ^ s * 2 ^ s).
  { apply orb_true_iff in E as [E%Z.ltb_lt|[E%Z.eqb_eq _]%andb_true_iff]; lia. }
  lia.
Qed.

Lemma milliseconds_range f : 0 < f.(f_mant) → float_lt f (MaxInt64 / Millisecond) = true → 0 <= milliseconds f <= MaxInt64.
Proof.
  intros Hm Hlt. unfold float_lt in Hlt. unfold milliseconds. cbv zeta.
  assert (H0 : 0 <= round53 (f_mant f * Millisecond)) by (apply round53_nonneg; unfold Millisecond; lia).
  assert (He := round53_error (f_mant f * Millisecond) ltac:(unfold Millisecond; lia)).
  change (MaxInt64 / Millisecond) with 9223372036854 in Hlt. unfold Millisecond, MaxInt64 in *.
  destruct (Z.leb_spec 0 (f_exp f)) as [He0|He0]; apply Z.ltb_lt in Hlt.
  - assert (0 < 2 ^ f_exp f) by (apply Z.pow_pos_nonneg; lia). nia.
  - assert (0 < 2 ^ (- f_exp f)) by (apply Z.pow_pos_nonneg; lia).
    split; [by apply Z.div_pos|]. apply Z.div_le_upper_bound; [done|]. nia.
Qed.

Lemma ParseRetryAfter_range `{Decoders} header now : 0 <= ParseRetryAfter header now <= MaxInt64.
Proof.
  unfold ParseRetryAfter. destruct (retry_ms _) as [d|] eqn:E.
  - unfold retry_ms in E. case_bool_decide; [done|]. destruct (parse_float _) as [f|]; [|done]. simpl in E.
    destruct (_ && _) eqn:E'; [|done]. injection E as <-. apply andb_true_iff in E' as [?%Z.ltb_lt ?]. by apply milliseconds_range.
  - unfold MaxInt64, Second. cbv zeta. case_bool_decide; [lia|]. destruct (ParseInt _) as [secs|].
    + destruct (_ || _) eqn:E'; [lia|]. apply orb_false_iff in E' as [?%Z.leb_gt ?%Z.ltb_ge].
      change ((2 ^ 63 - 1) / 10 ^ 9) with 9223372036 in *. lia.
    + destruct (parse_time _) as [t|]; [|lia]. destruct (Z.ltb_spec 0 (time_sub t now)); [|lia].
      unfold time_sub, MaxInt64 in *. lia.
Qed.

(** Which rejections of a provider are limits, and of which kind: status 429
    always, status 400 only with a budget signal in the body, nothing else; and
    whatever the provider sends, the delay is a non-negative [int64]. *)
Theorem ClassifyLimit_spec `{Decoders} (status : Z) (header : Header) (body : string) (now : Z) :
  match ClassifyLimit status header body now with
  | Some e =>
      (status = 429 ∨ status = 400 ∧ bodySignalsBudget body = true) ∧
      e.(le_Kind) = (if bodySignalsBudget body then LimitBudget else LimitRate) ∧
      0 <= e.(le_RetryAfter) <= MaxInt64
  | None => status ≠ 429 ∧ (status = 400 → bodySignalsBudget body = false)
  end.
Proof.
  assert (Hr := ParseRetryAfter_range header now). unfold ClassifyLimit. cbv zeta.
  destruct (Z.eqb_spec status 400) as [->|H4]; [destruct (bodySignalsBudget body); simpl; naive_solver|].
  cbn [andb]. destruct (Z.eqb_spec status 429) as [->|H9]; naive_solver.
Qed.

(** ** Attribution *)

Definition name_fields (n : HeaderNames) : list string :=
  [n.(hn_Tenant); n.(hn_Principal); n.(hn_Conversation); n.(hn_Run); n.(hn_Journey); n.(hn_Profile)].
Definition configured (l : list string) : list string := filter (λ x, x ≠ "") l.

Definition good_names (l : list string) : Prop :=
  NoDup l ∧ ∀ x, x ∈ l → canonical x ∧ x ≠ "" ∧ x ∉ reserved.

Lemma normalize_name_ok p seen out : normalize_name p seen = Ok out → good_names seen →
  out.2 = seen ++ configured [out.1] ∧ good_names out.2.
Proof.
  unfold normalize_name, configured. case_bool_decide as Hp.
  { intros [= <-] ?. simpl. rewrite filter_cons_False by naive_solver. rewrite filter_nil, app_nil_r. done. }
  rewrite !ensure_bind. intros (Ht & Hr & Hs & [= <-]) [Hn Hg]. cbn [fst snd].
  rewrite negb_true_iff, contains_false in Hr, Hs.
  assert (Hne : CanonicalHeaderKey p ≠ "") by (by intros ?%canonical_empty).
  rewrite filter_cons_True, filter_nil by done. split; [done|]. split.
  - apply NoDup_app. split_and!; [done| |apply NoDup_singleton]. by intros x Hx ->%list_elem_of_singleton.
  - intros x [Hx| ->%list_elem_of_singleton]%elem_of_app; [by apply Hg|]. split_and!; [apply canonical_idem|done|done].
Qed.

Lemma normalize_ok n n' : normalize n = Ok n' → good_names (configured (name_fields n')).
Proof.
  unfold normalize. intros H.
  repeat match type of H with
  | (normalize_name ?p ?s ≫= _) = Ok _ =>
      let o := fresh "o" in let E := fresh "E" in destruct (normalize_name p s) as [o|] eqn:E; [simpl in H|done]
  end.
  injection H as <-.
  assert (H0 : good_names []) by (split; [constructor|set_solver]).
  repeat match goal with
  | E : normalize_name _ ?s = Ok ?o, G : good_names ?s |- _ =>
      let A := fresh "A" in let B := fresh "B" in destruct (normalize_name_ok _ _ _ E G) as [A B]; clear E
  end.
  repeat match goal with A : snd _ = _ |- _ => rewrite A in *; clear A end.
  unfold name_fields, configured in *. cbn [hn_Tenant hn_Principal hn_Conversation hn_Run hn_Journey hn_Profile].
  rewrite app_nil_l, <- !app_assoc, <- !filter_app in B4. exact B4.
Qed.

Definition clean (v : string) : string := if hasControl v then "" else v.

Lemma decoration_lookup l : ∀ set, NoDup (configured (fst <$> l)) →
  (∀ k v, (k, v) ∈ l → k ≠ "" → foldl decoration_step set l !! k = Some (clean v)) ∧
  (∀ k, k ∉ configured (fst <$> l) → foldl decoration_step set l !! k = set !! k).
Proof.
  induction l as [|[k v] l IH]; intros set Hn; [split; [set_solver|done]|]. cbn [foldl]. unfold decoration_step at 2 4. cbn [fst snd].
  change (fst <$> (k, v) :: l) with (k :: (fst <$> l)) in *. unfold configured in *. case_bool_decide as Hk.
  - rewrite filter_cons_False in * by naive_solver. destruct (IH set Hn) as [H1 H2]. split; [|done].
    intros k' v' [[= -> ->]|Hin]%elem_of_cons Hk'; [done|by apply H1].
  - rewrite filter_cons_True in * by done. apply NoDup_cons in Hn as [Hnk Hn].
    destruct (IH (<[k := clean v]> set) Hn) as [H1 H2]. split.
    + intros k' v' [[= -> ->]|Hin]%elem_of_cons Hk'; [by rewrite H2, lookup_insert_eq|by apply H1].
    + intros k' Hk'. rewrite H2, lookup_insert_ne; set_solver.
Qed.

Lemma ApplyAccess_lookup (set : gmap string string) req k : (∀ k, is_Some (set !! k) → canonical k) →
  ApplyAccess (Some set) req !! k =
  match set !! k with Some v => if bool_decide (v = "") then None else Some [v] | None => req !! k end.
Proof.
  intros Hc. cbn [ApplyAccess]. rewrite (foldl_alter _ (λ v, if bool_decide (v = "") then None else Some [v])); [done|].
  intros h k' v Hk. assert (E : CanonicalHeaderKey k' = k') by (apply Hc; eauto).
  unfold apply_attribution, header_del, header_set. cbn [fst snd]. rewrite E. by case_bool_decide.
Qed.

(** What attribution does to a provider request: each configured header
    carries its value alone, or is removed when the value is empty or has a
    control byte; every other header, the credentials and the transport's among
    them, stays as it is. *)
Theorem attribution_confined (names configured_names : HeaderNames) (a : Attribution) (profile : string) (req : Header)
    (Hnames : normalize names = Ok configured_names) :
  let sent := ApplyAccess (HeadersAccess configured_names a profile) req in
  (∀ k v, (k, v) ∈ attribution_fields configured_names a profile → k ≠ "" →
     sent !! k = if bool_decide (v = "") || hasControl v then None else Some [v]) ∧
  (∀ k, k ∉ name_fields configured_names → sent !! k = req !! k) ∧
  ∀ k, k ∈ reserved → sent !! k = req !! k.
Proof.
  apply normalize_ok in Hnames as [Hn Hg]. set (n := configured_names) in *. cbv zeta.
  set (set := foldl decoration_step ∅ (attribution_fields n a profile)).
  destruct (decoration_lookup (attribution_fields n a profile) ∅ Hn) as [H1 H2].
  change (configured _) with (configured (name_fields n)) in H2. fold set in H1, H2.
  assert (Hs : ∀ k, ApplyAccess (HeadersAccess n a profile) req !! k =
    match set !! k with Some v => if bool_decide (v = "") then None else Some [v] | None => req !! k end).
  { intros k. unfold HeadersAccess. fold set. case_bool_decide as E; [by rewrite E, lookup_empty|].
    apply ApplyAccess_lookup. intros k' Hk'. destruct (decide (k' ∈ configured (name_fields n))) as [Hin|Hout]; [by apply Hg|].
    apply H2 in Hout. rewrite Hout, lookup_empty in Hk'. by destruct Hk'. }
  assert (Hother : ∀ k, k ∉ configured (name_fields n) → ApplyAccess (HeadersAccess n a profile) req !! k = req !! k).
  { intros k Hk. by rewrite Hs, H2, lookup_empty. }
  split_and!.
  - intros k v Hin Hk. rewrite Hs, (H1 k v) by done. unfold clean. destruct (hasControl v); simpl; [by rewrite orb_true_r|].
    by rewrite orb_false_r.
  - intros k Hk. apply Hother. unfold configured. by intros [_ ?]%list_elem_of_filter.
  - intros k Hk. apply Hother. by intros (_ & _ & ?)%Hg.
Qed.

Lemma attribution_confined_witness :
  let n := mk_HeaderNames "x-tenant" "" "" "x-run" "" "" in
  let a := mk_Attribution "t1" "p" "c" (String "010" "r") "j" in
  let req : Header := {["X-Run" := ["old"]; "Authorization" := ["secret"]]} in
  let sent := ApplyAccess (HeadersAccess (mk_HeaderNames "X-Tenant" "" "" "X-Run" "" "") a "") req in
  sent !! "X-Tenant" = Some ["t1"] ∧ sent !! "X-Run" = None ∧ sent !! "Authorization" = Some ["secret"].
Proof.
  intros n a req.
  destruct (attribution_confined n (mk_HeaderNames "X-Tenant" "" "" "X-Run" "" "") a "" req) as (H1 & _ & H3); [by vm_compute|].
  split_and!.
  - rewrite (H1 "X-Tenant" "t1"); [by vm_compute|by left|done].
  - rewrite (H1 "X-Run" (String "010" "r")); [by vm_compute|by do 3 right; left|done].
  - rewrite H3; [by vm_compute|]. apply (bool_decide_unpack _). by vm_compute.
Defined.
