(* ===== verification/Provider.v ===== *)
(** * Model providers

    [internal/provider/litellm] and [internal/provider/foundry]: the adapters
    that send one request of the conversation loop to a model provider, through
    a vendor's SDK.

    An SDK is a program of its own: what it sends over the transport it is
    given, and what it makes of the answers ([sdk], a tree of its requests).
    The adapters' part is what surrounds it: the input they build, the
    transport that commits the included commands before the first byte leaves
    the process and decorates every request, and what they make of the SDK's
    result and errors. *)
From Stdlib Require Import Ascii.
From S2P Require Import Prelude GoText Db Service HttpHeader Cost Selectors History Dispatch Harness.

#[local] Open Scope Z_scope.
#[local] Set Default Proof Using "Type".

(** ** Transport *)

Record http_request := mk_http_request { hr_Header : Header; hr_Body : string }.
(** A body is read to its end or up to a failure. *)
Record http_body := mk_http_body { hb_data : string; hb_fails : bool }.
Record http_response := mk_http_response { hp_Status : Z; hp_Header : Header; hp_Body : option http_body }.

Section transport.
(** The state [OnDispatch] acts on, and its errors. *)
Context {S E : Type}.

Inductive trip_error := TripObserved (e : E) | TripNetwork.

(** What an SDK does. *)
Inductive sdk (A : Type) : Type :=
| Return (a : A)
| Send (q : http_request) (k : result trip_error http_response → sdk A).

(** [dispatchTransport]: whether the callback has run, its error; with them
    what was sent. *)
Record transport := mk_transport { tr_once : bool; tr_err : option E; tr_sent : list http_request }.
Definition new_transport : transport := mk_transport false None [].

Context (onDispatch : option (S → S * result E unit)) (access : Access)
  (base : list http_request → http_request → option http_response).

Definition observe_once (st : S * transport) : S * transport :=
  let '(s, t) := st in
  match onDispatch with
  | None => (s, t)
  | Some f =>
      if t.(tr_once) then (s, t)
      else let '(s, r) := f s in (s, mk_transport true (match r with Err e => Some e | Ok _ => None end) t.(tr_sent))
  end.

(** [RoundTrip] *)
Definition RoundTrip (q : http_request) : prog (S * transport) trip_error http_response := λ st,
  let '(s, t) := observe_once st in
  match t.(tr_err) with
  | Some e => ((s, t), Err (TripObserved e))
  | None =>
      let q := mk_http_request (ApplyAccess access q.(hr_Header)) q.(hr_Body) in
      ((s, mk_transport t.(tr_once) t.(tr_err) (t.(tr_sent) ++ [q])),
       match base t.(tr_sent) q with Some r => Ok r | None => Err TripNetwork end)
  end.

(** The SDK over this transport. *)
Fixpoint run_sdk {A} (p : sdk A) (st : S * transport) : (S * transport) * A :=
  match p with
  | Return _ a => (st, a)
  | Send _ q k => let '(st, r) := RoundTrip q st in run_sdk (k r) st
  end.
Definition sends {A} (p : sdk A) : bool := match p with Send _ _ _ => true | Return _ _ => false end.
End transport.
Arguments trip_error E : clear implicits.
Arguments sdk E A : clear implicits.
Arguments transport E : clear implicits.
Arguments Return {E A} a.
Arguments Send {E A} q k.

(** ** Errors *)

(** An error of the OpenAI SDK, as far as the adapters look at it. *)
Record api_error := mk_api_error { ae_StatusCode : Z; ae_RawJSON : string; ae_Response : option http_response }.
(** Any error: whether it is a cancelled or expired context's, and the API's
    error in its chain. *)
Record sdk_error := mk_sdk_error { se_cancelled : bool; se_api : option api_error }.

Inductive adapter_error (E : Type) :=
| ACancelled | AUnavailable | AInput | AObserved (e : E) | ALimit (l : LimitError) | AAuthRequired | AFailed.
Arguments ACancelled {E}.
Arguments AUnavailable {E}.
Arguments AInput {E}.
Arguments AObserved {E} e.
Arguments ALimit {E} l.
Arguments AAuthRequired {E}.
Arguments AFailed {E}.

(** What the runtime tells apart. *)
Definition as_model_error (e : adapter_error store_error) : model_error :=
  match e with
  | AObserved e => MStore e
  | ALimit l => MLimit l.(le_Kind) l.(le_RetryAfter)
  | AAuthRequired => MAuthRequired
  | ACancelled | AUnavailable | AInput | AFailed => MFailed
  end.

(** [io.ReadAll] of [io.LimitReader] *)
Definition read_limited (n : Z) (b : http_body) : option string :=
  if n <=? slen b.(hb_data) then Some (String.substring 0 (Z.to_nat n) b.(hb_data))
  else if b.(hb_fails) then None else Some b.(hb_data).

Section errors.
Context `{decoders : Decoders}.

Definition limitError (now : Z) (e : api_error) : option LimitError :=
  if negb (e.(ae_StatusCode) =? 429) && negb (e.(ae_StatusCode) =? 400) then None
  else
    let header := match e.(ae_Response) with Some r => r.(hp_Header) | None => ∅ end in
    let read := r ← e.(ae_Response); b ← r.(hp_Body); read_limited (2 ^ 16) b in
    let body := match read with
                | Some data => if bool_decide (data = "") then e.(ae_RawJSON) else data
                | None => e.(ae_RawJSON)
                end in
    ClassifyLimit e.(ae_StatusCode) header body now.

Definition sanitize {E} (now : Z) (e : sdk_error) : adapter_error E :=
  if e.(se_cancelled) then ACancelled
  else match e.(se_api) with
       | Some api =>
           match limitError now api with
           | Some l => ALimit l
           | None =>
               if (api.(ae_StatusCode) =? 401) || (api.(ae_StatusCode) =? 403) then AAuthRequired else AFailed
           end
       | None => AFailed
       end.
End errors.

(** ** Input *)

Inductive input_item :=
| ItemMessage (role text : string)
| ItemFunctionCall (callID name arguments : string)
| ItemFunctionCallOutput (callID output : string).

Record ModelTool := mk_ModelTool { mt_Name : string; mt_Description : string; mt_Schema : string }.

(** JSON: a result that is a Go string, the JSON of any other result, and the
    object a tool's schema is. *)
Class Wire := {
  value_string : value → option string;
  value_json : value → option string;
  schema_json : string → option string;
  json_object : string → option (option string);
  offered : OfferedTool → ModelTool;
}.

Section input.
Context `{wire : Wire}.

Definition resultString (v : value) : option string :=
  match v with
  | VText t => Some t
  | _ => match value_string v with Some t => Some t | None => value_json v end
  end.

(** One content of a message of a role. *)
Definition input_content (role : string) (c : Content) : option input_item :=
  match c with
  | TextContent text =>
      if contains role ["user"; "assistant"; "system"] then Some (ItemMessage role text) else None
  | FunctionCallContent id call =>
      if negb (bool_decide (role = "assistant")) || bool_decide (id = "") || bool_decide (call.(fc_Name) = "") then None
      else Some (ItemFunctionCall id call.(fc_Name) call.(fc_Arguments))
  | FunctionResultContent id v =>
      if negb (bool_decide (role = "tool")) || bool_decide (id = "") then None
      else output ← resultString v; Some (ItemFunctionCallOutput id output)
  | OtherContent _ => None
  end.
Fixpoint input_contents (role : string) (l : list Content) (input : list input_item) : option (list input_item) :=
  match l with
  | [] => Some input
  | c :: l => i ← input_content role c; input_contents role l (input ++ [i])
  end.
Fixpoint input_messages (l : list Message) (input : list input_item) : option (list input_item) :=
  match l with
  | [] => Some input
  | m :: l =>
      if bool_decide (m.(m_Contents) = []) then None
      else input ← input_contents m.(m_Role) m.(m_Contents) input; input_messages l input
  end.
Definition inputItems (history : list Message) : option (list input_item) :=
  input ← input_messages history [];
  if bool_decide (input = []) then None else Some input.

Definition schema (s : string) : option string := data ← schema_json s; object ← json_object data; object.

(** The tools of a request with their schemas as objects. *)
Fixpoint tool_params (l : list ModelTool) : option (list ModelTool) :=
  match l with
  | [] => Some []
  | t :: l => parameters ← schema t.(mt_Schema); l ← tool_params l; Some (mk_ModelTool t.(mt_Name) t.(mt_Description) parameters :: l)
  end.
End input.

(** ** Configuration *)

(** A parsed URL, as far as the configurations look at it. *)
Record provider_url := mk_provider_url { u_Scheme : string; u_Host : string; u_User : bool; u_RawQuery : string; u_Fragment : string }.
Definition trim_slashes (s : string) : string := trim_right (λ c, bool_decide (c = "/"%char)) s.
