(* ===== verification/Litellm.v ===== *)
(** * The LiteLLM adapter

    [internal/provider/litellm]: a request of the conversation loop to a
    LiteLLM proxy, through the OpenAI SDK ([responses_new]). *)
From S2P Require Import Prelude GoText Db Service HttpHeader Cost Selectors History Dispatch Harness Provider.

#[local] Open Scope Z_scope.
#[local] Set Default Proof Using "Type".

Record Config := mk_Config { c_BaseURL : string; c_APIKey : string; c_Model : string }.
Inductive config_error := ErrBaseURL | ErrKeyModel.

Definition validate (url_parse : string → option provider_url) (c : Config) : result config_error Config :=
  let c := mk_Config (trim_slashes (trim_space c.(c_BaseURL))) (trim_space c.(c_APIKey)) (trim_space c.(c_Model)) in
  match url_parse c.(c_BaseURL) with
  | None => Err ErrBaseURL
  | Some u =>
      if (negb (bool_decide (u.(u_Scheme) = "http")) && negb (bool_decide (u.(u_Scheme) = "https")))
         || bool_decide (u.(u_Host) = "") || u.(u_User) || negb (bool_decide (u.(u_RawQuery) = "")) || negb (bool_decide (u.(u_Fragment) = ""))
      then Err ErrBaseURL
      else if bool_decide (c.(c_APIKey) = "") || bool_decide (c.(c_Model) = "") then Err ErrKeyModel
      else Ok c
  end.
Definition ConfigFromEnv (url_parse : string → option provider_url) (lookup : string → string) : result config_error Config :=
  validate url_parse (mk_Config (lookup "AZ_AGENT_LITELLM_BASE_URL") (lookup "AZ_AGENT_LITELLM_API_KEY") (lookup "AZ_AGENT_LITELLM_MODEL")).

(** What the SDK is asked, and its response. *)
Record params := mk_params { pa_Model : string; pa_Input : list input_item; pa_Instructions : string; pa_Tools : list ModelTool }.
Inductive output_item := OutputCall (c : ToolCall) | OutputOther.
Record response := mk_response {
  re_Status : string; re_Text : string; re_Model : string; re_Input : Z; re_Output : Z; re_Cached : Z; re_Items : list output_item;
}.

Definition tool_calls (l : list output_item) : list ToolCall :=
  omap (M := list) (λ i, match i with OutputCall c => Some c | OutputOther => None end) l.

Section complete.
Context `{decoders : Decoders} `{wire : Wire}.
Context {E : Type} (responses_new : Config → params → sdk E (result sdk_error (option response)))
  (base : list http_request → http_request → option http_response) (now : Z).

(** [Complete], for a callback over any state; with what was sent. *)
Definition Complete {S} (a : option Config) (cancelled : bool) (request : ModelRequest)
    (onDispatch : option (S → S * result E unit)) (access : Access) (s : S)
    : (S * list http_request) * result (adapter_error E) ModelResponse :=
  match a with
  | None => ((s, []), Err AUnavailable)
  | Some config =>
      if cancelled then ((s, []), Err ACancelled)
      else
        match inputItems request.(mr_ProviderMessages) with
        | None => ((s, []), Err AInput)
        | Some input =>
            match tool_params (offered <$> request.(mr_Tools)) with
            | None => ((s, []), Err AInput)
            | Some tools =>
                let '((s, t), r) := run_sdk onDispatch access base
                  (responses_new config (mk_params config.(c_Model) input request.(mr_Instructions) tools)) (s, new_transport) in
                ((s, t.(tr_sent)),
                 match t.(tr_err) with
                 | Some e => Err (AObserved e)
                 | None =>
                     match r with
                     | Err e => Err (sanitize now e)
                     | Ok None => Err AFailed
                     | Ok (Some r) =>
                         if negb (bool_decide (r.(re_Status) = "completed")) then Err AFailed
                         else Ok (mk_ModelResponse r.(re_Text) (tool_calls r.(re_Items)) None
                                    (mk_Tokens r.(re_Model) r.(re_Input) r.(re_Output) r.(re_Cached)))
                     end
                 end)
            end
        end
  end.

(** Whether the callback is asked at all. *)
Definition dispatches (a : option Config) (cancelled : bool) (request : ModelRequest) : bool :=
  match a with
  | None => false
  | Some config =>
      if cancelled then false
      else match inputItems request.(mr_ProviderMessages), tool_params (offered <$> request.(mr_Tools)) with
           | Some input, Some tools => sends (responses_new config (mk_params config.(c_Model) input request.(mr_Instructions) tools))
           | _, _ => false
           end
  end.
End complete.
