(* ===== verification/Foundry.v ===== *)
(** * The Azure AI Foundry adapter

    [internal/provider/foundry]: a request of the conversation loop to a
    Foundry deployment, through the agent framework's provider ([agent_run]).
    Its [sanitize], [limitError] and [dispatchTransport] have the text of the
    LiteLLM adapter's and are its definitions in [Provider.v]. *)
From S2P Require Import Prelude GoText Db Service HttpHeader Cost Selectors History Dispatch Harness Provider.

#[local] Open Scope Z_scope.
#[local] Set Default Proof Using "Type".

Record Config := mk_Config { c_ProjectEndpoint : string; c_Deployment : string; c_Credential : bool }.
Inductive config_error := ErrEndpointMissing | ErrEndpointURL | ErrDeploymentMissing | ErrCredential.

Definition validate (url_parse_request : string → option provider_url) (c : Config) : result config_error Config :=
  let c := mk_Config (trim_slashes (trim_space c.(c_ProjectEndpoint))) (trim_space c.(c_Deployment)) c.(c_Credential) in
  if bool_decide (c.(c_ProjectEndpoint) = "") then Err ErrEndpointMissing
  else match url_parse_request c.(c_ProjectEndpoint) with
       | None => Err ErrEndpointURL
       | Some u =>
           if bool_decide (u.(u_Scheme) = "") || bool_decide (u.(u_Host) = "") then Err ErrEndpointURL
           else if bool_decide (c.(c_Deployment) = "") then Err ErrDeploymentMissing
           else if negb c.(c_Credential) then Err ErrCredential
           else Ok c
       end.
Definition ConfigFromEnv (url_parse_request : string → option provider_url) (lookup : string → string) (credential : bool) : result config_error Config :=
  validate url_parse_request (mk_Config (lookup "AZ_AGENT_FOUNDRY_PROJECT_ENDPOINT") (lookup "AZ_AGENT_FOUNDRY_DEPLOYMENT") credential).

(** What the provider's agent is made of, and its collected response. *)
Record agent := mk_agent { ag_Tools : list ModelTool; ag_Instructions : string; ag_MaximumIterations : Z; ag_MaxRetries : Z }.
Record response := mk_response { re_Text : string; re_Input : Z; re_Output : Z; re_Cached : Z; re_Contents : list Content }.

Definition tool_calls (l : list Content) : list ToolCall :=
  omap (M := list) (λ c, match c with
    | FunctionCallContent id call => Some (mk_ToolCall id call.(fc_Name) call.(fc_Arguments)) | _ => None end) l.

(** The same text as in the LiteLLM adapter. *)
Definition limitError `{decoders : Decoders} (now : Z) (e : api_error) : option LimitError := Provider.limitError now e.
Definition sanitize `{decoders : Decoders} {E} (now : Z) (e : sdk_error) : adapter_error E := Provider.sanitize now e.
Definition RoundTrip {S E} (onDispatch : option (S → S * result E unit)) (access : Access)
    (base : list http_request → http_request → option http_response) (q : http_request) : prog (S * transport E) (trip_error E) http_response :=
  Provider.RoundTrip onDispatch access base q.

Section complete.
Context `{decoders : Decoders} `{wire : Wire}.
Context {E : Type} (agent_run : Config → agent → list Message → sdk E (result sdk_error response))
  (base : list http_request → http_request → option http_response) (now : Z).

Definition the_agent (request : ModelRequest) : agent :=
  mk_agent (offered <$> request.(mr_Tools)) request.(mr_Instructions) 0 0.

(** [Complete] *)
Definition Complete {S} (a : option Config) (cancelled : bool) (request : ModelRequest)
    (onDispatch : option (S → S * result E unit)) (access : Access) (s : S)
    : (S * list http_request) * result (adapter_error E) ModelResponse :=
  if cancelled then ((s, []), Err ACancelled)
  else
    match a with
    | None => ((s, []), Err AUnavailable)
    | Some config =>
        let '((s, t), r) := run_sdk onDispatch access base
          (agent_run config (the_agent request) request.(mr_ProviderMessages)) (s, new_transport) in
        ((s, t.(tr_sent)),
         match r with
         | Err e => Err (sanitize now e)
         | Ok r => Ok (mk_ModelResponse r.(re_Text) (tool_calls r.(re_Contents)) None
                         (mk_Tokens config.(c_Deployment) r.(re_Input) r.(re_Output) r.(re_Cached)))
         end)
    end.

Definition dispatches (a : option Config) (cancelled : bool) (request : ModelRequest) : bool :=
  match a with
  | Some config =>
      if cancelled then false else sends (agent_run config (the_agent request) request.(mr_ProviderMessages))
  | None => false
  end.
End complete.
