(* ===== verification/ProviderSpec.v ===== *)
(** * What the model adapters guarantee

    Nothing leaves the process before the included commands are committed, the
    adapters are what the conversation loop takes a model for, and the input
    they build is the history, content by content. *)
From Stdlib Require Import Ascii.
From S2P Require Import Prelude GoText Db CallBinding Commands Service HttpHeader Cost Selectors History Dispatch Harness Provider.
From S2P Require Litellm Foundry.

#[local] Open Scope Z_scope.
#[local] Set Default Proof Using "Type".

(** ** The transport *)

Section transport.
Context {S E : Type} (f : S → S * result E unit) (access : Access)
  (base : list http_request → http_request → option http_response).
Abbreviation run p st := (run_sdk (Some f) access base p st).

(** A request of the SDK with the run's headers on it. *)
Definition decorated (q : http_request) : Prop := ∃ h, q.(hr_Header) = ApplyAccess access h.

(** Once asked, the callback is not asked again, and its error closes the
    transport. *)
Lemma run_asked {A} (p : sdk E A) : ∀ s t, t.(tr_once) = true →
  ∃ l, (run p (s, t)).1 = (s, mk_transport true t.(tr_err) (t.(tr_sent) ++ l)) ∧ Forall decorated l ∧ (is_Some t.(tr_err) → l = []).
Proof.
  induction p as [a|q k IH]; intros s t Ht.
  { exists []. rewrite app_nil_r. destruct t; simpl in *; subst. by split_and!; [|constructor|]. }
  cbn [run_sdk]. unfold RoundTrip, observe_once. rewrite Ht. destruct (tr_err t) as [e|] eqn:He.
  - destruct (IH (Err (TripObserved e)) s t Ht) as (l & -> & Hl & Hn). exists l. by rewrite He in *.
  - cbv zeta. cbn [tr_once tr_err tr_sent].
    match goal with |- context [run_sdk _ _ _ (k ?r) (s, ?u)] => destruct (IH r s u Ht) as (l & -> & Hl & _) end.
    eexists (_ :: l). cbn [tr_sent tr_err]. rewrite <- app_assoc.
    split_and!; [done| |by intros [? ?]]. constructor; [by eexists|done].
Qed.

(** What one completion leaves: the callback was not asked and nothing was
    sent, or it was asked once, and something was sent only if it agreed. *)
Definition guarded (s : S) (out : S * list http_request) : Prop :=
  out = (s, []) ∨
  ∃ r, f s = (out.1, r) ∧ (out.2 ≠ [] → r = Ok tt) ∧ Forall decorated out.2.

Lemma run_guarded {A} (p : sdk E A) s : let st := (run p (s, new_transport)).1 in guarded s (st.1, st.2.(tr_sent)).
Proof.
  destruct p as [a|q k]; [by left|]. cbv zeta. cbn [run_sdk]. unfold RoundTrip, observe_once. cbn [tr_once new_transport].
  right. destruct (f s) as [s' r] eqn:F. exists r. destruct r as [[]|e]; cbn [tr_err tr_sent];
    match goal with |- context [run_sdk _ _ _ (k ?r) (s', ?u)] => destruct (run_asked (k r) s' u eq_refl) as (l & -> & Hl & Hn) end; cbn in *.
  - split_and!; [done|done|]. constructor; [by eexists|done].
  - rewrite Hn by done. by split_and!; [| |constructor].
Qed.
End transport.

(** The state of an asked transport does not matter. *)
Lemma run_state {S S' E A} (f : S → S * result E unit) (g : S' → S' * result E unit) access base (p : sdk E A) : ∀ s s' t,
  t.(tr_once) = true →
  run_sdk (Some f) access base p (s, t) =
    let '((_, t'), a) := run_sdk (Some g) access base p (s', t) in ((s, t'), a).
Proof.
  induction p as [a|q k IH]; intros s s' t Ht; [done|]. cbn [run_sdk]. unfold RoundTrip, observe_once. rewrite Ht.
  destruct (tr_err t); [by apply IH|]. cbv zeta. by apply IH.
Qed.

(** An SDK sees of the callback only its answer. *)
Lemma run_told {S E A} (f : S → S * result E unit) access base (p : sdk E A) s :
  run_sdk (Some f) access base p (s, new_transport) =
    let '((_, t), a) := run_sdk (Some (λ _ : unit, (tt, if sends p then (f s).2 else Ok tt))) access base p (tt, new_transport) in
    ((if sends p then (f s).1 else s, t), a).
Proof.
  destruct p as [a|q k]; [done|]. cbn [run_sdk sends]. unfold RoundTrip, observe_once. cbn [tr_once new_transport].
  destruct (f s) as [s' r] eqn:F. cbn [fst snd]. destruct r as [[]|e]; cbn [tr_err tr_sent];
    by rewrite (run_state f (λ _ : unit, (tt, (f s).2)) access base _ s' tt), F.
Qed.

(** ** Both adapters *)

(** C9 Nothing leaves the process for a model before the runtime agreed:
    whatever the vendor's SDK does with its transport, a completion asks the
    runtime at most once, sends something only after it answered that the
    included commands are committed, and every request it sends carries the
    run's attribution headers. *)
Theorem sends_after_commit `{decoders : Decoders} `{wire : Wire} {S E : Type} (f : S → S * result E unit) (access : Access)
    (base : list http_request → http_request → option http_response) (now : Z) (cancelled : bool) (request : ModelRequest) (s : S)
    (responses_new : Litellm.Config → Litellm.params → sdk E (result sdk_error (option Litellm.response))) (a : option Litellm.Config)
    (agent_run : Foundry.Config → Foundry.agent → list Message → sdk E (result sdk_error Foundry.response)) (b : option Foundry.Config) :
  guarded f access s (Litellm.Complete responses_new base now a cancelled request (Some f) access s).1 ∧
  guarded f access s (Foundry.Complete agent_run base now b cancelled request (Some f) access s).1.
Proof.
  split.
  - unfold Litellm.Complete. destruct a as [a|]; [|by left]. destruct cancelled; [by left|].
    destruct (inputItems _) as [input|]; [|by left]. destruct (tool_params _) as [tools|]; [|by left].
    match goal with |- context [run_sdk _ _ _ ?p _] => pose proof (run_guarded f access base p s) as H; destruct (run_sdk _ _ _ p _) as [[s' t] r] end.
    exact H.
  - unfold Foundry.Complete. destruct cancelled; [by left|]. destruct b as [b|]; [|by left].
    match goal with |- context [run_sdk _ _ _ ?p _] => pose proof (run_guarded f access base p s) as H; destruct (run_sdk _ _ _ p _) as [[s' t] r] end.
    exact H.
Qed.

Lemma litellm_told `{decoders : Decoders} `{wire : Wire} {S E : Type} responses_new base now a cancelled request
    (f : S → S * result E unit) access s :
  Litellm.Complete responses_new base now a cancelled request (Some f) access s =
    let '((_, sent), r) := Litellm.Complete responses_new base now a cancelled request
      (Some (λ _ : unit, (tt, if Litellm.dispatches responses_new a cancelled request then (f s).2 else Ok tt))) access tt in
    ((if Litellm.dispatches responses_new a cancelled request then (f s).1 else s, sent), r).
Proof.
  unfold Litellm.Complete, Litellm.dispatches. destruct a as [a|]; [|done]. destruct cancelled; [done|].
  destruct (inputItems _) as [input|]; [|done]. destruct (tool_params _) as [tools|]; [|done].
  rewrite run_told. by destruct (run_sdk (Some (λ _ : unit, _)) _ _ _ _) as [[s' t] r].
Qed.

Lemma foundry_told `{decoders : Decoders} `{wire : Wire} {S E : Type} agent_run base now a cancelled request
    (f : S → S * result E unit) access s :
  Foundry.Complete agent_run base now a cancelled request (Some f) access s =
    let '((_, sent), r) := Foundry.Complete agent_run base now a cancelled request
      (Some (λ _ : unit, (tt, if Foundry.dispatches agent_run a cancelled request then (f s).2 else Ok tt))) access tt in
    ((if Foundry.dispatches agent_run a cancelled request then (f s).1 else s, sent), r).
Proof.
  unfold Foundry.Complete, Foundry.dispatches. destruct cancelled; [by destruct a|]. destruct a as [a|]; [|done].
  rewrite run_told. by destruct (run_sdk (Some (λ _ : unit, _)) _ _ _ _) as [[s' t] r].
Qed.

(** ** A model of the conversation loop *)

(** A configured adapter at the n-th step of the loop: a completion, and
    whether it asks its callback. *)
Record adapter := mk_adapter {
  ad_complete : ∀ S : Type, nat → ModelRequest → (S → S * result store_error unit) → S →
    (S * list http_request) * result (adapter_error store_error) ModelResponse;
  ad_dispatches : nat → ModelRequest → bool;
  ad_told : ∀ (S : Type) n request (f : S → S * result store_error unit) s,
    ad_complete S n request f s =
      let '((_, sent), r) := ad_complete unit n request (λ _, (tt, if ad_dispatches n request then (f s).2 else Ok tt)) tt in
      ((if ad_dispatches n request then (f s).1 else s, sent), r);
}.

Definition litellm_adapter `{decoders : Decoders} `{wire : Wire} responses_new base now cancelled a access : adapter :=
  mk_adapter
    (λ S n request f, Litellm.Complete responses_new (base n) (now n) a (cancelled n) request (Some f) access)
    (λ n request, Litellm.dispatches responses_new a (cancelled n) request)
    (λ S n request f s, litellm_told responses_new (base n) (now n) a (cancelled n) request f access s).
Definition foundry_adapter `{decoders : Decoders} `{wire : Wire} agent_run base now cancelled a access : adapter :=
  mk_adapter
    (λ S n request f, Foundry.Complete agent_run (base n) (now n) a (cancelled n) request (Some f) access)
    (λ n request, Foundry.dispatches agent_run a (cancelled n) request)
    (λ S n request f s, foundry_told agent_run (base n) (now n) a (cancelled n) request f access s).

Section loop.
Context `{codec : Codec} `{conversation : Conversation} (a : adapter).
Abbreviation xx := the_outside.

(** The loop's model, made of the adapter. *)
Definition adapter_dispatches (n : nat) (request : ModelRequest) : bool := a.(ad_dispatches) n request.
Definition adapter_complete (n : nat) (request : ModelRequest) (told : option (result store_error unit)) : result model_error ModelResponse :=
  match (a.(ad_complete) unit n request (λ _, (tt, default (Ok tt) told)) tt).2 with
  | Ok r => Ok r
  | Err e => Err (as_model_error e)
  end.

(** [OnDispatch] of [modelRun], with its variable [observedOnce]. *)
Definition on_dispatch (pending : list Input) (st : hstate * bool) : (hstate * bool) * result store_error unit :=
  let '(h, once) := st in
  if once then ((h, true), Ok tt)
  else
    let '(s, r) := transact (moment_at h.(hs_tick)) (λ now, Included now the_input.(in_Owner) pending) h.(hs_db) in
    ((set_db s h, is_ok r), r).

(** [modelRun] from the request to the response, over the adapter itself. *)
Definition complete_with (pending : list Input) (request : ModelRequest) : hprog ModelResponse := λ h,
  let h := add_event (EvRequest request) h in
  let '((st, _), r) := a.(ad_complete) _ h.(hs_tick) request (on_dispatch pending) (h, false) in
  match r with
  | Err e => (st.1, Err (HModel (as_model_error e)))
  | Ok response =>
      match on_dispatch pending st with
      | (st, Ok _) => (st.1, Ok response)
      | (st, Err e) => (st.1, Err (loop_store_error e))
      end
  end.

(** C17 The conversation loop's model is what its adapters implement: with
    [OnDispatch] as the runtime writes it, a completion by either adapter does
    to the state of the loop and returns to it exactly what [complete] says of
    a model that asks its callback when the adapter does. *)
Theorem complete_implemented (pending : list Input) (request : ModelRequest) (h : hstate)
    (Hdispatches : xx.(x_dispatches) = adapter_dispatches) (Hcomplete : xx.(x_complete) = adapter_complete) :
  complete_with pending request h = complete pending request h.
Proof.
  unfold complete_with, complete. cbv zeta. set (h1 := add_event (EvRequest request) h).
  rewrite update_bind. fold h1. rewrite asks_bind, Hdispatches, Hcomplete, a.(ad_told).
  unfold adapter_dispatches, adapter_complete. set (n := h1.(hs_tick)).
  assert (∀ h, journal (λ now, Included now the_input.(in_Owner) pending) h =
    let '((h', _), r) := on_dispatch pending (h, false) in
    (h', match r with Ok u => Ok u | Err e => Err (loop_store_error e) end)) as Hj.
  { intros h0. unfold journal, at_moment, on_dispatch. by destruct (transact _ _ _) as [s r]. }
  assert (∀ h, (on_dispatch pending (h, false)).1.2 = is_ok (on_dispatch pending (h, false)).2) as Honce
    by (intros h0; unfold on_dispatch; by destruct (transact _ _ _)).
  specialize (Honce h1). unfold mbind, prog_bind, try, mret, prog_ret, from_option, id. destruct (ad_dispatches a n request) eqn:D; cbv beta iota.
  - rewrite (Hj h1). destruct (on_dispatch pending (h1, false)) as [[h2 once] r]. cbn [fst snd] in *. subst once.
    destruct r as [[]|[e|]]; cbn [loop_store_error is_ok fst snd];
      destruct (ad_complete a unit _ _ _ tt) as [[u sent] [response|e']]; cbn [fst snd]; cbv beta iota; try done;
      rewrite (Hj h2); by destruct (on_dispatch pending (h2, false)) as [[h3 o] [[]|e'']].
  - destruct (ad_complete a unit _ _ _ tt) as [[u sent] [response|e']]; [|done]. cbn [fst snd].
    rewrite (Hj h1). by destruct (on_dispatch pending (h1, false)) as [[h2 once] [[]|e]].
Qed.
End loop.

(** ** The input of a request *)

Section input.
Context `{wire : Wire}.

(** The item a content of a message of a role becomes. *)
Inductive item_of : string → Content → input_item → Prop :=
| item_text role text : role ∈ ["user"; "assistant"; "system"] → item_of role (TextContent text) (ItemMessage role text)
| item_call id call : id ≠ "" → call.(fc_Name) ≠ "" →
    item_of "assistant" (FunctionCallContent id call) (ItemFunctionCall id call.(fc_Name) call.(fc_Arguments))
| item_result id v output : id ≠ "" → resultString v = Some output →
    item_of "tool" (FunctionResultContent id v) (ItemFunctionCallOutput id output).

(** The contents of a history with the roles of their messages. *)
Definition spoken (history : list Message) : list (string * Content) := history ≫= λ m, pair m.(m_Role) <$> m.(m_Contents).

Lemma input_content_iff role c i : input_content role c = Some i ↔ item_of role c i.
Proof.
  split.
  - destruct c as [id call|id v|text|]; cbn [input_content]; [| | |done].
    + destruct (_ || _) eqn:E; [done|]. rewrite !orb_false_iff, negb_false_iff, bool_decide_eq_true, !bool_decide_eq_false in E.
      destruct E as [[-> Hid] Hn]. intros [= <-]. by constructor.
    + destruct (_ || _) eqn:E; [done|]. rewrite !orb_false_iff, negb_false_iff, bool_decide_eq_true, !bool_decide_eq_false in E.
      destruct E as [-> Hid]. destruct (resultString v) as [output|] eqn:R; [|done]. intros [= <-]. by constructor.
    + destruct (contains role _) eqn:E; [|done]. intros [= <-]. constructor. by apply contains_true in E.
  - intros [role' text Hr|id call Hid Hn|id v output Hid Hr]; cbn [input_content].
    + by apply contains_true in Hr as ->.
    + rewrite (bool_decide_eq_false_2 (id = "")), (bool_decide_eq_false_2 (fc_Name call = "")) by done. done.
    + rewrite (bool_decide_eq_false_2 (id = "")), Hr by done. done.
Qed.

Lemma input_contents_iff role l : ∀ input k, input_contents role l input = Some k ↔
  ∃ items, k = input ++ items ∧ Forall2 (item_of role) l items.
Proof.
  induction l as [|c l IH]; intros input k; cbn [input_contents].
  { split; [intros [= <-]; exists []; by rewrite app_nil_r|]. intros (items & -> & H%Forall2_nil_inv_l). by rewrite H, app_nil_r. }
  split.
  - destruct (input_content role c) as [i|] eqn:E; [|done]. cbn [mbind option_bind]. intros (items & -> & H)%IH.
    exists (i :: items). rewrite <- app_assoc. split; [done|]. constructor; [by apply input_content_iff|done].
  - intros (items & -> & H). apply Forall2_cons_inv_l in H as (i & items' & Hi & H & ->).
    apply input_content_iff in Hi as ->. cbn [mbind option_bind]. apply IH. exists items'. by rewrite <- app_assoc.
Qed.

Lemma spoken_items role l items : Forall2 (item_of role) l items ↔ Forall2 (λ p, item_of p.1 p.2) (pair role <$> l) items.
Proof. by rewrite Forall2_fmap_l. Qed.

Lemma input_messages_iff l : ∀ input k, input_messages l input = Some k ↔
  Forall (λ m, m.(m_Contents) ≠ []) l ∧ ∃ items, k = input ++ items ∧ Forall2 (λ p, item_of p.1 p.2) (spoken l) items.
Proof.
  induction l as [|m l IH]; intros input k; cbn [input_messages].
  { split; [intros [= <-]; split; [constructor|]; exists []; by rewrite app_nil_r|].
    intros (_ & items & -> & H%Forall2_nil_inv_l). by rewrite H, app_nil_r. }
  unfold spoken. cbn [mbind list_bind]. fold (spoken l). rewrite Forall_cons. case_bool_decide as Hm; [by split; [|intros [[? _] _]]|]. split.
  - destruct (input_contents _ _ _) as [k'|] eqn:E; [|done]. cbn [mbind option_bind]. intros (Hl & items & -> & H)%IH.
    apply input_contents_iff in E as (first & -> & Hf). split; [done|]. exists (first ++ items). rewrite <- app_assoc.
    split; [done|]. apply Forall2_app; [by apply spoken_items|done].
  - intros ([_ Hl] & items & -> & H). apply Forall2_app_inv_l in H as (first & rest & Hf & Hr & ->).
    apply spoken_items in Hf. assert (input_contents m.(m_Role) m.(m_Contents) input = Some (input ++ first)) as ->
      by (apply input_contents_iff; by eexists). cbn [mbind option_bind]. apply IH. split; [done|]. exists rest. by rewrite <- app_assoc.
Qed.

(** The input of a LiteLLM request is the history, content by content and in
    order; exactly the histories that have a content, no empty message, and
    only contents a provider understands, in messages of the right role, are
    sent, and any other is an error before anything leaves the process. *)
Theorem inputItems_iff (history : list Message) (input : list input_item) :
  inputItems history = Some input ↔
    input ≠ [] ∧ Forall (λ m, m.(m_Contents) ≠ []) history ∧ Forall2 (λ p, item_of p.1 p.2) (spoken history) input.
Proof.
  unfold inputItems. split.
  - destruct (input_messages history []) as [k|] eqn:E; [|done]. cbn [mbind option_bind]. case_bool_decide as Hk; [done|].
    intros [= ->]. by apply input_messages_iff in E as (Hl & items & -> & H).
  - intros (Hne & Hl & H). assert (input_messages history [] = Some input) as -> by (apply input_messages_iff; split; [done|by eexists]).
    cbn [mbind option_bind]. by rewrite bool_decide_eq_false_2.
Qed.
End input.
