(* ===== verification/GoTime.v ===== *)
(** * Durations and command-line flags

    [time.ParseDuration]: a [time.Duration] is nanoseconds in an [int64]; the
    fraction of a unit is computed in [float64].  [flag.FlagSet.Parse] for sets
    of string and boolean flags. *)
From Stdlib Require Import Ascii SpecFloat.
From S2P Require Import Prelude GoText Cost.

#[local] Open Scope Z_scope.
#[local] Set Default Proof Using "Type".

(** [float64] *)
Definition float_of (n : Z) : spec_float := binary_normalize 53 1024 n 0 false.
Definition float_mul : spec_float → spec_float → spec_float := SFmul 53 1024.
Definition float_div : spec_float → spec_float → spec_float := SFdiv 53 1024.
(** [uint64(x)] of a finite [x] that is not negative *)
Definition float_uint (x : spec_float) : Z :=
  match x with
  | S754_finite false m e => if 0 <=? e then Z.pos m * 2 ^ e else Z.pos m / 2 ^ (- e)
  | _ => 0
  end.

(** [leadingInt]: [None] is an overflow. *)
Fixpoint leadingInt (x : Z) (s : string) : option (Z * string) :=
  match s with
  | String c rest =>
      match digit_value c with
      | Some d =>
          if 2 ^ 63 / 10 <? x then None
          else let x := x * 10 + d in if 2 ^ 63 <? x then None else leadingInt x rest
      | None => Some (x, s)
      end
  | "" => Some (x, s)
  end.

(** [leadingFraction]: digits beyond the range of the numerator are skipped. *)
Fixpoint leadingFraction (x : Z) (scale : spec_float) (overflow : bool) (s : string) : Z * spec_float * string :=
  match s with
  | String c rest =>
      match digit_value c with
      | Some d =>
          if overflow then leadingFraction x scale true rest
          else if (2 ^ 63 - 1) / 10 <? x then leadingFraction x scale true rest
          else
            let y := x * 10 + d in
            if 2 ^ 63 <? y then leadingFraction x scale true rest
            else leadingFraction y (float_mul scale (float_of 10)) false rest
      | None => (x, scale, s)
      end
  | "" => (x, scale, s)
  end.

Definition unit_map : list (string * Z) :=
  [("ns", 1); ("us", 1000); (String "194" (String "181" "s"), 1000); (String "206" (String "188" "s"), 1000);
   ("ms", 10 ^ 6); ("s", 10 ^ 9); ("m", 60 * 10 ^ 9); ("h", 3600 * 10 ^ 9)].
Fixpoint assoc {A} (key : string) (l : list (string * A)) : option A :=
  match l with [] => None | (k, a) :: l => if bool_decide (k = key) then Some a else assoc key l end.

(** The bytes up to a period or a digit, and the rest. *)
Fixpoint unit_name (s : string) : string * string :=
  match s with
  | String c rest =>
      if bool_decide (c = "."%char) || is_digit c then ("", s)
      else let '(u, rest) := unit_name rest in (String c u, rest)
  | "" => ("", "")
  end.

(** One number with its unit: its nanoseconds, and the rest. *)
Definition duration_part (s : string) : option (Z * string) :=
  match s with
  | "" => None
  | String c _ =>
      if negb (bool_decide (c = "."%char) || is_digit c) then None
      else
        '(v, s1) ← leadingInt 0 s;
        let pre := negb (bool_decide (slen s = slen s1)) in
        let '(f, scale, s2, post) :=
          match s1 with
          | String "." s1 =>
              let '(f, scale, s2) := leadingFraction 0 (float_of 1) false s1 in
              (f, scale, s2, negb (bool_decide (slen s1 = slen s2)))
          | _ => (0, float_of 1, s1, false)
          end in
        if negb (pre || post) then None
        else
          let '(u, s3) := unit_name s2 in
          if bool_decide (u = "") then None
          else
            unit ← assoc u unit_map;
            if 2 ^ 63 / unit <? v then None
            else
              let v := v * unit in
              if 0 <? f then
                let v := v + float_uint (float_mul (float_of f) (float_div (float_of unit) scale)) in
                if 2 ^ 63 <? v then None else Some (v, s3)
              else Some (v, s3)
  end.

(** The loop over the parts; each takes at least a byte. *)
Fixpoint duration_parts (fuel : nat) (d : Z) (s : string) : option Z :=
  match fuel with
  | O => None
  | S fuel =>
      if bool_decide (s = "") then Some d
      else
        '(v, s) ← duration_part s;
        let d := (d + v) mod 2 ^ 64 in
        if 2 ^ 63 <? d then None else duration_parts fuel d s
  end.

Definition ParseDuration (s : string) : option Z :=
  let '(neg, s) := match s with String "-" s => (true, s) | String "+" s => (false, s) | _ => (false, s) end in
  if bool_decide (s = "0") then Some 0
  else if bool_decide (s = "") then None
  else
    d ← duration_parts (S (String.length s)) 0 s;
    if (neg : bool) then Some (- d)
    else if 2 ^ 63 - 1 <? d then None else Some d.

Example duration_examples :
  ParseDuration <$> ["30s"; "1h15m30.918273645s"; "-1.5h"; ".5m"; "1"; ""; "0"; "9223372036854775807ns"; "9223372036854775808ns"; "1x"; "100ms"] =
  [Some (30 * 10 ^ 9); Some 4530918273645; Some (-5400 * 10 ^ 9); Some (30 * 10 ^ 9); None; None; Some 0; Some (2 ^ 63 - 1); None; None; Some (10 ^ 8)].
Proof. vm_compute. reflexivity. Qed.

(** ** The fuel is enough *)

Lemma leadingInt_length s : ∀ x y r, leadingInt x s = Some (y, r) → (String.length r ≤ String.length s)%nat.
Proof.
  induction s as [|c s IH]; intros x y r; simpl; [by intros [= <- <-]|].
  destruct (digit_value c); [|by intros [= <- <-]]. destruct (_ <? x); [done|]. destruct (_ <? _); [done|].
  intros H%IH. lia.
Qed.
Lemma leadingFraction_length s : ∀ x scale o, (String.length (leadingFraction x scale o s).2 ≤ String.length s)%nat.
Proof.
  induction s as [|c s IH]; intros x scale o; simpl; [done|].
  destruct (digit_value c); [|done]. destruct o; [etransitivity; [apply IH|lia]|].
  destruct (_ <? x); [etransitivity; [apply IH|lia]|]. destruct (_ <? _); (etransitivity; [apply IH|lia]).
Qed.
Lemma unit_name_length s : (String.length (unit_name s).2 + String.length (unit_name s).1 = String.length s)%nat.
Proof. induction s as [|c s IH]; simpl; [done|]. destruct (_ || _); [simpl; lia|]. destruct (unit_name s). simpl in *. lia. Qed.

Lemma duration_part_shorter s v r : duration_part s = Some (v, r) → (String.length r < String.length s)%nat.
Proof.
  destruct s as [|c s]; [done|]. unfold duration_part. destruct (negb _); [done|].
  destruct (leadingInt 0 (String c s)) as [[x s1]|] eqn:E1; [|done]. apply leadingInt_length in E1. cbn [mbind option_bind].
  set (q := match s1 with String "." s1 => _ | _ => _ end).
  assert (String.length q.1.2 ≤ String.length s1)%nat as Hq.
  { unfold q. destruct s1 as [|c1 s1]; [done|].
    destruct c1 as [[] [] [] [] [] [] [] []]; try done.
    pose proof (leadingFraction_length s1 0 (float_of 1) false). destruct (leadingFraction _ _ _ s1) as [[f scale] s2]. simpl in *. lia. }
  destruct q as [[[f scale] s2] post]. cbn [fst snd] in Hq. destruct (negb _); [done|].
  pose proof (unit_name_length s2) as Hu. destruct (unit_name s2) as [u s3]. cbn [fst snd] in Hu.
  case_bool_decide as Hne; [done|]. destruct (assoc u unit_map) as [w|]; [|done]. cbn [mbind option_bind].
  assert (0 < String.length u)%nat by (destruct u; [done|simpl; lia]).
  destruct (_ <? x); [done|]. destruct (0 <? f); [destruct (_ <? _); [done|]|]; intros [= <- <-]; lia.
Qed.

Lemma duration_parts_enough n : ∀ m d s, (String.length s < n)%nat → (n ≤ m)%nat → duration_parts m d s = duration_parts n d s.
Proof.
  induction n as [|n IH]; intros m d s Hs Hm; [lia|]. destruct m as [|m]; [lia|]. cbn [duration_parts].
  case_bool_decide; [done|]. destruct (duration_part s) as [[v r]|] eqn:E; [|done]. apply duration_part_shorter in E.
  cbn [mbind option_bind]. destruct (_ <? _); [done|]. apply IH; lia.
Qed.

Lemma duration_parts_range n : ∀ d s x, 0 <= d <= 2 ^ 63 → duration_parts n d s = Some x → 0 <= x <= 2 ^ 63.
Proof.
  induction n as [|n IH]; intros d s x Hd; [done|]. cbn [duration_parts]. case_bool_decide; [by intros [= <-]|].
  destruct (duration_part s) as [[v r]|]; [|done]. cbn [mbind option_bind]. destruct (Z.ltb_spec (2 ^ 63) ((d + v) mod 2 ^ 64)); [done|].
  apply IH. split; [|done]. apply Z.mod_pos_bound. lia.
Qed.

(** A duration is an [int64]. *)
Lemma ParseDuration_range s d : ParseDuration s = Some d → - 2 ^ 63 <= d <= MaxInt64.
Proof.
  unfold ParseDuration, MaxInt64. set (q := match s with String "-" s => _ | String "+" s => _ | _ => _ end). destruct q as [neg s'].
  case_bool_decide; [by intros [= <-]|]. case_bool_decide; [done|].
  destruct (duration_parts _ 0 s') as [x|] eqn:E; [|done]. apply duration_parts_range in E; [|lia]. cbn [mbind option_bind].
  destruct neg; [intros [= <-]; lia|]. destruct (Z.ltb_spec (2 ^ 63 - 1) x); [done|]. intros [= <-]. lia.
Qed.

(** ** Flags *)

(** [strconv.ParseBool] *)
Definition parse_bool (s : string) : option bool :=
  if contains s ["1"; "t"; "T"; "TRUE"; "true"; "True"] then Some true
  else if contains s ["0"; "f"; "F"; "FALSE"; "false"; "False"] then Some false
  else None.

(** The name of a flag without its dashes; [None] ends the flags, and the inner
    [None] is bad syntax. *)
Definition flag_name (s : string) : option (option string) :=
  if slen s <? 2 then None
  else match s with
       | String "-" s =>
           let s := match s with String "-" s => s | _ => s end in
           match s with
           | "" => Some None
           | String c _ => if bool_decide (c = "-"%char) || bool_decide (c = "="%char) then Some None else Some (Some s)
           end
       | _ => None
       end.

(** The flags of a set with their values, the last one given first, and what
    is left of the arguments.  [kind name] says whether a flag is boolean;
    [None] is an error (of usage, or asking for help). *)
Fixpoint parse_flags (kind : string → option bool) (args : list string) (set : list (string * string))
    : option (list (string * string) * list string) :=
  match args with
  | [] => Some (set, [])
  | s :: rest =>
      if bool_decide (s = "--") then Some (set, rest)
      else
        match flag_name s with
        | None => Some (set, args)
        | Some None => None
        | Some (Some name) =>
            let '(name, value) := match cut "=" name with Some (n, v) => (n, Some v) | None => (name, None) end in
            match kind name with
            | None => None
            | Some true =>
                match value with
                | Some v => b ← parse_bool v; parse_flags kind rest ((name, if (b : bool) then "true" else "false") :: set)
                | None => parse_flags kind rest ((name, "true") :: set)
                end
            | Some false =>
                match value, rest with
                | Some v, _ => parse_flags kind rest ((name, v) :: set)
                | None, v :: rest => parse_flags kind rest ((name, v) :: set)
                | None, [] => None
                end
            end
        end
  end.

Fixpoint flag_value (name default : string) (set : list (string * string)) : string :=
  match set with [] => default | (k, v) :: set => if bool_decide (k = name) then v else flag_value name default set end.
