(* ===== verification/Auth.v ===== *)
(** * Authentication

    [internal/chat/auth.go] and [internal/chat/keycloak_auth.go]: who a request
    comes from.  The static tokens, the configuration of the token verifier,
    the check for repeated keys, the cache of signing keys and the identity a
    verified token names.

    The class [Jwt] is the part that is not this code's: the token library
    (reading an unverified header, verifying a token under a key) and JSON and
    URL decoding.  The cache of keys is a state [jwks]; its two critical
    sections are [begin_fetch] and [end_fetch], between which the gate is held. *)
From stdpp Require Import pretty.
From Stdlib Require Import Ascii.
From S2P Require Import Prelude GoText CallBinding Compile HttpHeader Cost.
#[local] Open Scope Z_scope.

Record Identity := mk_Identity { id_Tenant : string; id_Principal : string }.

(** [strings.Count] of a byte *)
Fixpoint count_byte (c : ascii) (s : string) : nat :=
  match s with "" => O | String d s => (if decide (d = c) then 1 else 0) + count_byte c s end%nat.
Definition has_byte (c : ascii) (s : string) : bool := any_byte (λ d, bool_decide (d = c)) s.

Definition bearer : string := "Bearer ".

(** ** Static tokens *)

(** [Authenticate] over the entries in the order the map is ranged over. *)
Fixpoint match_token (presented : string) (entries : list (string * string)) : option Identity :=
  match entries with
  | [] => None
  | (token, principal) :: entries =>
      if bool_decide (token = presented) && negb (bool_decide (principal = "")) then
        match cut "/" principal with
        | None => Some (mk_Identity "" principal)
        | Some (tenant, user) =>
            if bool_decide (tenant = "") || bool_decide (user = "") then None else Some (mk_Identity tenant principal)
        end
      else match_token presented entries
  end.
Definition StaticAuthenticate (entries : list (string * string)) (h : Header) : option Identity :=
  let value := header_get "Authorization" h in
  if has_prefix bearer value then match_token (trim_prefix bearer value) entries else None.

(** ** Configuration *)

Inductive JWTSource := JWTSourceAuthorizationBearer | JWTSourceHeader | JWTSourceOther.
Record KeycloakConfig := mk_KeycloakConfig {
  kc_Issuer : string; kc_JWKSURL : string; kc_Audience : string; kc_JWTSource : JWTSource; kc_JWTHeader : string;
  kc_UserClaimPath : string; kc_TenantClaimPath : string; kc_AllowedAlgorithms : list string;
}.
Inductive keycloak_error := KRequired | KIssuer | KJWKSURL | KHeader | KSource | KUserPath | KTenantPath | KNoAlgorithm | KAlgorithm.

Record httpURL := mk_httpURL { hu_Scheme : string; hu_Host : string; hu_User : bool; hu_Fragment : string }.

(** The decoded reference token of one path component; [None] is an invalid
    escape. *)
Fixpoint unescape (s : string) : option string :=
  match s with
  | "" => Some ""
  | String c s =>
      if decide (c = "~"%char) then
        match s with
        | String d s =>
            if decide (d = "0"%char) then String "~" <$> unescape s
            else if decide (d = "1"%char) then String "/" <$> unescape s
            else None
        | "" => None
        end
      else String c <$> unescape s
  end.
Fixpoint unescape_all (l : list string) : option (list string) :=
  match l with
  | [] => Some []
  | s :: l => s ← unescape s; l ← unescape_all l; Some (s :: l)
  end.
Definition parseJSONPointer (path : string) : option (list string) :=
  if has_prefix "/" path then unescape_all (GoText.split "/" (trim_prefix "/" path)) else None.

Definition validHeaderName (h : string) : bool :=
  forallb (λ r, ((97 <=? r) && (r <=? 122)) || ((65 <=? r) && (r <=? 90)) || ((48 <=? r) && (r <=? 57)) || (r =? 45))
    (fst <$> runes h).

Definition signing_algorithms : list string := ["RS256"; "RS384"; "RS512"].

(** ** Keys *)

(** The first tokens of a JSON text, and whether they end it cleanly. *)
Inductive token := TDelim (c : ascii) | TString (s : string) | TValue.

Record rawJWK := mk_rawJWK { rk_Kty : string; rk_Kid : string; rk_Alg : string; rk_Use : string; rk_N : string; rk_E : string }.
Record rsaJWK := mk_rsaJWK { jk_algorithm : string; jk_N : Z; jk_E : Z }.

(** A decoded claim, as far as [stringClaim] tells values apart. *)
#[warnings="-register-all"]
Inductive claim := CString (s : string) | CObject (o : gmap string claim) | COther.

Class Jwt := {
  url_parse : string → option httpURL;
  (** the tokens of [json.Decoder], and whether the text ends after them *)
  json_tokens : string → list token * bool;
  (** the [keys] of a key document *)
  jwks_document : string → option (list rawJWK);
  (** key identifier and algorithm of a token that is not verified yet *)
  jwt_header : string → option (string * string);
  (** the claims of a token whose signature, issuer, audience and times hold *)
  jwt_verify : (string * string) → Z → rsaJWK → string → option (gmap string claim);
}.

Definition maxJWTBytes : Z := 16 * 2 ^ 10.
Definition maxJWKSBytes : Z := 2 ^ 20.
Definition maxJWKSKeys : Z := 128.
Definition jwksCacheLifetime : Z := 5 * 60 * Second.
Definition jwksRefreshMinInterval : Z := 30 * Second.

(** *** Unpadded URL-safe base64 *)

Definition base64_value (c : ascii) : option Z :=
  if is_upper c then Some (code c - 65)
  else if is_lower c then Some (code c - 71)
  else if is_digit c then Some (code c + 4)
  else if decide (c = "-"%char) then Some 62
  else if decide (c = "_"%char) then Some 63
  else None.
Definition byte_of (n : Z) : ascii := ascii_of_N (Z.to_N (n mod 256)).
(** The decoder skips line ends. *)
Definition is_line_end (c : ascii) : bool := in_set (String "010" (String "013" "")) c.
Fixpoint base64_values (s : string) : option (list Z) :=
  match s with
  | "" => Some []
  | String c s => if is_line_end c then base64_values s else v ← base64_value c; l ← base64_values s; Some (v :: l)
  end.
Fixpoint base64_groups (l : list Z) : option string :=
  match l with
  | [] => Some ""
  | [_] => None
  | [a; b] => Some (String (byte_of (a * 4 + b / 16)) "")
  | [a; b; c] => Some (String (byte_of (a * 4 + b / 16)) (String (byte_of (b * 16 + c / 4)) ""))
  | a :: b :: c :: d :: l =>
      s ← base64_groups l;
      Some (String (byte_of (a * 4 + b / 16)) (String (byte_of (b * 16 + c / 4)) (String (byte_of (c * 64 + d)) s)))
  end.
Definition base64_decode (s : string) : option string := base64_values s ≫= base64_groups.

Fixpoint bytes_value (acc : Z) (s : string) : Z :=
  match s with "" => acc | String c s => bytes_value (acc * 256 + code c) s end.
(** The loop over the bytes of the exponent. *)
Fixpoint exponent_value (acc : Z) (s : string) : Z :=
  match s with "" => acc | String c s => exponent_value (Z.lor (Z.shiftl acc 8) (code c)) s end.

Section keys.
Context `{jwt : Jwt}.

Definition validateHTTPSURL (raw : string) : bool :=
  match url_parse raw with
  | Some u => bool_decide (u.(hu_Scheme) = "https") && negb (bool_decide (u.(hu_Host) = "")) && negb u.(hu_User)
              && bool_decide (u.(hu_Fragment) = "")
  | None => false
  end.

Definition validateKeycloakConfig (c : KeycloakConfig) : result keycloak_error unit :=
  _ ← ensure (forallb (λ v, negb (bool_decide (trim_space v = "")))
        [c.(kc_Issuer); c.(kc_JWKSURL); c.(kc_Audience); c.(kc_JWTHeader); c.(kc_UserClaimPath); c.(kc_TenantClaimPath)]) KRequired;
  _ ← ensure (validateHTTPSURL c.(kc_Issuer)) KIssuer;
  _ ← ensure (validateHTTPSURL c.(kc_JWKSURL)) KJWKSURL;
  _ ← ensure (validHeaderName c.(kc_JWTHeader)) KHeader;
  _ ← ensure (match c.(kc_JWTSource) with JWTSourceOther => false | _ => true end) KSource;
  _ ← ensure (bool_decide (is_Some (parseJSONPointer c.(kc_UserClaimPath)))) KUserPath;
  _ ← ensure (bool_decide (is_Some (parseJSONPointer c.(kc_TenantClaimPath)))) KTenantPath;
  _ ← ensure (negb (bool_decide (c.(kc_AllowedAlgorithms) = []))) KNoAlgorithm;
  ensure (forallb (λ a, contains a signing_algorithms) c.(kc_AllowedAlgorithms)) KAlgorithm.

(** The values of a list, each at its first place. *)
Fixpoint first_of (l seen : list string) : list string :=
  match l with
  | [] => []
  | x :: l => if contains x seen then first_of l seen else x :: first_of l (x :: seen)
  end.
Record KeycloakAuthenticator := mk_KeycloakAuthenticator {
  ka_config : KeycloakConfig; ka_userPath : list string; ka_tenantPath : list string; ka_algorithms : list string;
}.
(** [NewKeycloakAuthenticator], up to its HTTP client and its parser. *)
Definition NewKeycloakAuthenticator (c : KeycloakConfig) : result keycloak_error KeycloakAuthenticator :=
  _ ← validateKeycloakConfig c;
  Ok (mk_KeycloakAuthenticator c (default [] (parseJSONPointer c.(kc_UserClaimPath))) (default [] (parseJSONPointer c.(kc_TenantClaimPath)))
        (first_of c.(kc_AllowedAlgorithms) [])).

(** *** The key document *)

(** The loop of [fetchKeys]; [None] is an error. *)
Fixpoint collect_keys (algorithms : list string) (l : list rawJWK) (keys : gmap string rsaJWK) : option (gmap string rsaJWK) :=
  match l with
  | [] => Some keys
  | raw :: l =>
      if negb (bool_decide (raw.(rk_Kty) = "RSA")) || bool_decide (raw.(rk_Kid) = "") || bool_decide (raw.(rk_Alg) = "")
         || (negb (bool_decide (raw.(rk_Use) = "")) && negb (bool_decide (raw.(rk_Use) = "sig")))
      then collect_keys algorithms l keys
      else if negb (contains raw.(rk_Alg) algorithms) then collect_keys algorithms l keys
      else if bool_decide (is_Some (keys !! raw.(rk_Kid))) then None
      else
        n ← base64_decode raw.(rk_N);
        e ← base64_decode raw.(rk_E);
        if (slen e =? 0) || (4 <? slen e) then None
        else
          let exponent := exponent_value 0 e in
          if (exponent <? 3) || (exponent mod 2 =? 0) || (slen n =? 0) then None
          else collect_keys algorithms l (<[raw.(rk_Kid) := mk_rsaJWK raw.(rk_Alg) (bytes_value 0 n) exponent]> keys)
  end.
(** [fetchKeys]; the response is its status and body, as far as it could be
    read up to one byte over the limit. *)
Definition fetchKeys (algorithms : list string) (response : option (Z * string)) : option (gmap string rsaJWK) :=
  '(status, body) ← response;
  if negb (status =? 200) || (maxJWKSBytes <? slen body) then None
  else
    document ← jwks_document body;
    if bool_decide (document = []) || (maxJWKSKeys <? zlen document) then None
    else
      keys ← collect_keys algorithms document ∅;
      if bool_decide (keys = ∅) then None else Some keys.
End keys.

(** *** The cache *)

(** What the holder of the gate fetches for. *)
Record fetch := mk_fetch { f_kid : string; f_algorithm : string; f_keep : bool }.
Record jwks := mk_jwks { jw_keys : gmap string rsaJWK; jw_expiry : Z; jw_refresh : Z; jw_gate : option fetch }.

(** [time.Time{}], the first day of the year 1. *)
Definition zero_time : Z := -62135596800 * Second.
Definition new_jwks : jwks := mk_jwks ∅ zero_time zero_time None.

Definition key_of (keys : gmap string rsaJWK) (kid algorithm : string) : option rsaJWK :=
  match keys !! kid with
  | Some k => if bool_decide (k.(jk_algorithm) = algorithm) then Some k else None
  | None => None
  end.

(** What the cache alone answers: a key, a refusal, or nothing yet. *)
Definition look (now : Z) (kid algorithm : string) (st : jwks) : option (option rsaJWK) :=
  match (if now <? st.(jw_expiry) then key_of st.(jw_keys) kid algorithm else None) with
  | Some k => Some (Some k)
  | None => if now <? st.(jw_refresh) then Some None else None
  end.

(** The section before a fetch: it looks again, then takes the fetch. *)
Definition begin_fetch (now : Z) (kid algorithm : string) (st : jwks) : jwks * option (option rsaJWK) :=
  match look now kid algorithm st with
  | Some r => (st, Some r)
  | None => (mk_jwks st.(jw_keys) st.(jw_expiry) (now + jwksRefreshMinInterval)
               (Some (mk_fetch kid algorithm (now <? st.(jw_expiry)))), None)
  end.
(** The section after it, with what was fetched. *)
Definition end_fetch (now : Z) (fetched : option (gmap string rsaJWK)) (st : jwks) : jwks * option rsaJWK :=
  match st.(jw_gate), fetched with
  | Some f, Some keys =>
      let found := key_of keys f.(f_kid) f.(f_algorithm) in
      (mk_jwks keys (now + jwksCacheLifetime)
         (if bool_decide (is_Some found) && negb f.(f_keep) then zero_time else st.(jw_refresh)) None, found)
  | _, _ => (mk_jwks st.(jw_keys) st.(jw_expiry) st.(jw_refresh) None, None)
  end.

(** [key] on its own: the times of its sections, whether the gate could be
    entered before the context ended, and the answer to its fetch. *)
Record lookup_env := mk_lookup_env { le_t1 : Z; le_t2 : Z; le_t3 : Z; le_gate : bool; le_fetched : option (gmap string rsaJWK) }.
Definition key (algorithms : list string) (env : lookup_env) (kid algorithm : string) (st : jwks) : jwks * option rsaJWK :=
  if contains algorithm algorithms then
    match look env.(le_t1) kid algorithm st with
    | Some r => (st, r)
    | None =>
        if env.(le_gate) then
          match begin_fetch env.(le_t2) kid algorithm st with
          | (st, Some r) => (st, r)
          | (st, None) => end_fetch env.(le_t3) env.(le_fetched) st
          end
        else (st, None)
    end
  else (st, None).

(** ** Repeated keys *)

(** [decoder.More] and [decoder.Token] *)
Definition more (clean : bool) (l : list token) : bool :=
  match l with
  | TDelim c :: _ => negb (bool_decide (c = "]"%char) || bool_decide (c = "}"%char))
  | _ :: _ => true
  | [] => negb clean
  end.

(** [scanJSONValue] with its two loops: what is left of the tokens after one
    value, the members of an object or the elements of an array. *)
Inductive place := AtValue | AtMembers (seen : list string) | AtElements.
Fixpoint scan (fuel : nat) (clean : bool) (p : place) (l : list token) : option (list token) :=
  match fuel with
  | O => None
  | S fuel =>
      match p with
      | AtValue =>
          match l with
          | [] => None
          | TDelim c :: l =>
              if decide (c = "{"%char) then scan fuel clean (AtMembers []) l
              else if decide (c = "["%char) then scan fuel clean AtElements l
              else None
          | _ :: l => Some l
          end
      | AtMembers seen =>
          if more clean l then
            match l with
            | TString name :: l =>
                if contains name seen then None
                else l ← scan fuel clean AtValue l; scan fuel clean (AtMembers (name :: seen)) l
            | _ => None
            end
          else match l with [] => None | _ :: l => Some l end
      | AtElements =>
          if more clean l then l ← scan fuel clean AtValue l; scan fuel clean AtElements l
          else match l with [] => None | _ :: l => Some l end
      end
  end.
(** Every call but the one that ends it reads a token. *)
Definition scan_fuel (l : list token) : nat := S (2 * length l).
Definition accepts_tokens (t : list token * bool) : bool :=
  match scan (scan_fuel t.1) t.2 AtValue t.1 with Some [] => t.2 | _ => false end.

(** ** Authenticating *)

Fixpoint stringClaim (value : claim) (path : list string) : option string :=
  match path with
  | [] => match value with CString s => if bool_decide (s = "") then None else Some s | _ => None end
  | component :: path => match value with CObject o => v ← o !! component; stringClaim v path | _ => None end
  end.

Definition canonicalPrincipal (tenant user : string) : string :=
  pretty (slen tenant) +:+ ":" +:+ tenant +:+ pretty (slen user) +:+ ":" +:+ user.

Section authenticate.
Context `{jwt : Jwt} (c : KeycloakConfig).

Definition rejectDuplicateJSON (data : string) : bool := accepts_tokens (json_tokens data).
Definition rejectDuplicateJWTJSON (token : string) : bool :=
  match GoText.split "." token with
  | [header; claims; _] =>
      forallb (λ part, match base64_decode part with Some data => rejectDuplicateJSON data | None => false end) [header; claims]
  | _ => false
  end.

(** [token] *)
Definition request_token (h : Header) : option string :=
  match header_values c.(kc_JWTHeader) h with
  | [value] =>
      if has_byte "," value then None
      else
        value ← (match c.(kc_JWTSource) with
                 | JWTSourceAuthorizationBearer =>
                     if has_prefix bearer value && bool_decide (count_byte " " value = 1%nat) then Some (trim_prefix bearer value) else None
                 | _ => Some value
                 end);
        if bool_decide (value = "") then None else Some value
  | _ => None
  end.

(** The response to a fetch is looked at only when one is made. *)
Record auth_env := mk_auth_env { ae_t1 : Z; ae_t2 : Z; ae_t3 : Z; ae_gate : bool; ae_response : option (Z * string) }.

Definition Authenticate (env : auth_env) (h : Header) (st : jwks) : jwks * option Identity :=
  let algorithms := c.(kc_AllowedAlgorithms) in
  match request_token h with
  | None => (st, None)
  | Some token =>
      if (maxJWTBytes <? slen token) || negb (rejectDuplicateJWTJSON token) then (st, None)
      else
        match jwt_header token with
        | None => (st, None)
        | Some (kid, algorithm) =>
            if negb (contains algorithm algorithms) || bool_decide (kid = "") then (st, None)
            else
              let '(st, k) := key algorithms (mk_lookup_env env.(ae_t1) env.(ae_t2) env.(ae_t3) env.(ae_gate)
                                (fetchKeys algorithms env.(ae_response))) kid algorithm st in
              (st,
               k ← k;
               claims ← jwt_verify (c.(kc_Issuer), c.(kc_Audience)) env.(ae_t3) k token;
               user ← parseJSONPointer c.(kc_UserClaimPath) ≫= stringClaim (CObject claims);
               tenant ← parseJSONPointer c.(kc_TenantClaimPath) ≫= stringClaim (CObject claims);
               Some (mk_Identity tenant (canonicalPrincipal tenant user)))
        end
  end.
End authenticate.
