(* ===== verification/AuthSpec.v ===== *)
(** * What authentication guarantees

    Distinct users have distinct principals, an identity is only ever one a
    verified token names, tokens that repeat a key are refused, claim paths are
    read back exactly, and however many tokens with unknown keys arrive, the
    key document is rarely fetched. *)
From stdpp Require Import pretty.
From Stdlib Require Import Ascii.
From S2P Require Import Prelude GoText CallBinding Compile GoPath HttpHeader Settings Cost Auth.
#[local] Open Scope Z_scope.
#[local] Set Default Proof Using "Type".

(** ** Principals *)

Lemma app_inj_length s1 : ∀ s2 t1 t2, slen s1 = slen s2 → s1 +:+ t1 = s2 +:+ t2 → s1 = s2 ∧ t1 = t2.
Proof.
  unfold slen. induction s1 as [|c s1 IH]; intros [|d s2] t1 t2 Hl H; simpl in Hl; [by split|lia..|].
  rewrite !str_cons_app in H. injection H as -> H. apply IH in H as [-> ->]; [done|lia].
Qed.

(** A field with its length in front is read back. *)
Lemma field_inj s1 s2 t1 t2 : pretty (slen s1) +:+ ":" +:+ s1 +:+ t1 = pretty (slen s2) +:+ ":" +:+ s2 +:+ t2 → s1 = s2 ∧ t1 = t2.
Proof.
  intros H. assert (∀ s t, cut ":" (pretty (slen s) +:+ ":" +:+ s +:+ t) = Some (pretty (slen s), s +:+ t)) as Hc.
  { intros s t. apply (cut_lacks ":" (pretty (slen s)) (s +:+ t)). by apply pretty_Z_lacks. }
  pose proof (f_equal (cut ":") H) as E. rewrite !Hc in E. injection E as El E.
  apply (inj pretty) in El. by apply app_inj_length.
Qed.

(** Two users never share a principal: the principal of a verified token
    determines its tenant and its user, whatever bytes their names hold. *)
Theorem canonicalPrincipal_injective (t1 u1 t2 u2 : string) :
  canonicalPrincipal t1 u1 = canonicalPrincipal t2 u2 ↔ t1 = t2 ∧ u1 = u2.
Proof.
  split; [|by intros [-> ->]]. unfold canonicalPrincipal. intros [-> H]%field_inj.
  assert (∀ u, pretty (slen u) +:+ ":" +:+ u = pretty (slen u) +:+ ":" +:+ u +:+ "") as E by (intros u; by rewrite append_nil_r).
  rewrite !E in H. by apply field_inj in H as [-> _].
Qed.

(** ** Static tokens *)

Definition principal_identity (principal : string) : option Identity :=
  if bool_decide (principal = "") then None
  else match cut "/" principal with
       | None => Some (mk_Identity "" principal)
       | Some (tenant, user) =>
           if bool_decide (tenant = "") || bool_decide (user = "") then None else Some (mk_Identity tenant principal)
       end.

(** The token table is a map: whatever order it is ranged over in, a token
    stands for the identity of its own entry. *)
Lemma match_token_lookup presented l : NoDup (fst <$> l) →
  match_token presented l = (list_to_map l : gmap string string) !! presented ≫= principal_identity.
Proof.
  induction l as [|[token principal] l IH]; intros Hl; [by rewrite list_to_map_nil, lookup_empty|].
  apply NoDup_cons in Hl as [Hn Hl]. cbn [match_token]. rewrite list_to_map_cons. case_bool_decide as E; subst.
  - rewrite lookup_insert_eq. unfold principal_identity. cbn [mbind option_bind]. case_bool_decide; simpl; [|done].
    rewrite IH by done. by rewrite (not_elem_of_list_to_map_1 (M := gmap string)).
  - rewrite lookup_insert_ne by done. by apply IH.
Qed.
Lemma StaticAuthenticate_order l k h : NoDup (fst <$> l) → l ≡ₚ k → StaticAuthenticate l h = StaticAuthenticate k h.
Proof.
  intros Hl Hp. unfold StaticAuthenticate. destruct (has_prefix _ _); [|done].
  rewrite !match_token_lookup; [by rewrite (list_to_map_proper l k)|by rewrite <- Hp|done].
Qed.

(** ** Claim paths *)

Fixpoint escape (s : string) : string :=
  match s with
  | "" => ""
  | String c s =>
      if decide (c = "~"%char) then String "~" (String "0" (escape s))
      else if decide (c = "/"%char) then String "~" (String "1" (escape s))
      else String c (escape s)
  end.
Definition print_pointer (l : list string) : string := String "/" (join "/" (escape <$> l)).

Lemma unescape_escape s : unescape (escape s) = Some s.
Proof.
  induction s as [|c s IH]; [done|]. cbn [escape]. repeat case_decide; subst; cbn [unescape];
    rewrite ?decide_True, ?decide_False by done; by rewrite ?IH.
Qed.
Lemma escape_lacks s : lacks "/" (escape s) = true.
Proof.
  induction s as [|c s IH]; [done|]. cbn [escape]. repeat case_decide; subst; rewrite ?lacks_cons, ?IH; try done.
  by rewrite (bool_decide_eq_false_2 (c = "/"%char)).
Qed.

(** What reads as [t] is the escape of [t], if no separator is in it. *)
Lemma escape_unescape n : ∀ s t, (String.length s ≤ n)%nat → lacks "/" s = true → unescape s = Some t → s = escape t.
Proof.
  induction n as [|n IH]; intros s t Hn Hl H; (destruct s as [|c s]; [by injection H as <-|simpl in Hn; try lia]).
  rewrite lacks_cons in Hl. apply andb_true_iff in Hl as [Hc Hl]. apply negb_true_iff, bool_decide_eq_false in Hc.
  cbn [unescape] in H. case_decide as E; subst.
  - destruct s as [|d s]; [done|]. rewrite lacks_cons in Hl. apply andb_true_iff in Hl as [_ Hl]. simpl in Hn.
    repeat case_decide; subst; [..|done]; apply fmap_Some in H as (t' & H & ->); apply IH in H; try (done || lia); subst; cbn [escape];
      by rewrite ?decide_True, ?decide_False by done.
  - apply fmap_Some in H as (t' & H & ->). apply IH in H; [|lia|done]. subst. cbn [escape]. by rewrite !decide_False by done.
Qed.

Lemma split_join_id sep s : join (String sep "") (GoText.split sep s) = s ∧ Forall (λ t, lacks sep t = true) (GoText.split sep s).
Proof.
  induction s as [|c s [IH1 IH2]]; [split; [done|by repeat constructor]|]. cbn [GoText.split].
  assert (GoText.split sep s ≠ []) as Hne by (destruct s; simpl; repeat case_match; done).
  destruct (GoText.split sep s) as [|h l] eqn:E; [done|]. case_decide as Hc; subst.
  - split; [|by constructor]. by change (join (String sep "") ("" :: h :: l)) with ("" +:+ String sep "" +:+ join (String sep "") (h :: l)).
  - split.
    + destruct l as [|h' l]; [done|]. unfold join in *. cbn [String.concat] in *. by rewrite str_cons_app.
    + inversion IH2; subst. constructor; [|done]. rewrite lacks_cons. by rewrite (bool_decide_eq_false_2 (c = sep)).
Qed.

Lemma unescape_all_iff l k : Forall (λ t, lacks "/" t = true) l → unescape_all l = Some k ↔ l = escape <$> k.
Proof.
  intros Hl. revert k. induction Hl as [|s l Hs Hl IH]; intros k; simpl; split.
  - by intros [= <-].
  - destruct k; [done|discriminate].
  - destruct (unescape s) as [t|] eqn:E; simpl; [|done]. destruct (unescape_all l) as [k'|] eqn:E'; simpl; [|done].
    intros [= <-]. apply escape_unescape with (n := String.length s) in E; [|lia|done]. subst. simpl. f_equal. by apply IH.
  - destruct k as [|t k]; [discriminate|]. intros [= -> H]. rewrite unescape_escape. simpl. by rewrite (proj2 (IH k) H).
Qed.

Lemma slash_prefix p : has_prefix "/" (String "/" p) = true ∧ trim_prefix "/" (String "/" p) = p.
Proof. unfold trim_prefix, has_prefix. by destruct p. Qed.

Lemma parse_printed p l : parseJSONPointer p = Some l ↔ l ≠ [] ∧ p = print_pointer l.
Proof.
  unfold parseJSONPointer, print_pointer. split.
  - destruct (has_prefix "/" p) eqn:Hp; [|done]. destruct p as [|c p]; [done|].
    unfold has_prefix in Hp. cbn [String.prefix] in Hp. destruct (ascii_dec "/" c) as [<-|]; [|done]. rewrite (proj2 (slash_prefix p)).
    destruct (split_join_id "/" p) as [Hj Hf]. intros H%unescape_all_iff; [|done]. split.
    + intros ->. destruct p; simpl in H; [done|]. repeat case_match; done.
    + by rewrite <- H, Hj.
  - intros [Hne ->]. rewrite (proj1 (slash_prefix _)), (proj2 (slash_prefix _)).
    assert (Forall (λ t, lacks "/" t = true) (escape <$> l)) as Hf by (apply Forall_fmap, Forall_forall; intros; apply escape_lacks).
    rewrite split_join; [|by destruct l|done]. by apply unescape_all_iff.
Qed.

(** A claim path is a JSON pointer: exactly the printed paths of at least one
    component are accepted, and they are read back as the components they were
    printed from. *)
Theorem parseJSONPointer_iff (p : string) (l : list string) :
  parseJSONPointer p = Some l ↔ l ≠ [] ∧ p = print_pointer l.
Proof. apply parse_printed. Qed.

(** ** Repeated keys *)

(** A JSON value, as far as its tokens and its keys go. *)
#[warnings="-register-all"]
Inductive json :=
| JScalar
| JString (s : string)
| JArray (l : list json)
| JObject (l : list (string * json)).

Fixpoint tokens (v : json) : list token :=
  match v with
  | JScalar => [TValue]
  | JString s => [TString s]
  | JArray l => TDelim "[" :: (l ≫= tokens) ++ [TDelim "]"]
  | JObject l => TDelim "{" :: (l ≫= λ m, TString m.1 :: tokens m.2) ++ [TDelim "}"]
  end.
(** No object in the value names a key twice. *)
Fixpoint distinct (v : json) : bool :=
  match v with
  | JScalar | JString _ => true
  | JArray l => forallb distinct l
  | JObject l => no_dup_b (fst <$> l) && forallb (λ m, distinct m.2) l
  end.

Section json_ind.
Context (P : json → Prop) (Hs : P JScalar) (Hn : ∀ s, P (JString s)).
Context (Ha : ∀ l, Forall P l → P (JArray l)) (Ho : ∀ l, Forall (λ m, P m.2) l → P (JObject l)).
Fixpoint json_rec' (v : json) : P v :=
  match v with
  | JScalar => Hs
  | JString s => Hn s
  | JArray l => Ha l ((fix go l := match l return Forall P l with
                                    | [] => List.Forall_nil _ | v :: l => List.Forall_cons _ _ _ (json_rec' v) (go l) end) l)
  | JObject l => Ho l ((fix go (l : list (string * json)) := match l return Forall (λ m, P m.2) l with
                                    | [] => List.Forall_nil _ | m :: l => List.Forall_cons _ _ _ (json_rec' m.2) (go l) end) l)
  end.
End json_ind.

Definition scans (v : json) : Prop := ∀ n rest clean, (2 * length (tokens v) ≤ n)%nat →
  scan n clean AtValue (tokens v ++ rest) = if distinct v then Some rest else None.

Lemma tokens_more v rest clean : more clean (tokens v ++ rest) = true.
Proof. by destruct v. Qed.

Lemma scan_elements l : Forall scans l → ∀ n rest clean, (2 * length (l ≫= tokens) + 1 ≤ n)%nat →
  scan n clean AtElements ((l ≫= tokens) ++ TDelim "]" :: rest) = if forallb distinct l then Some rest else None.
Proof.
  induction 1 as [|v l Hv Hl IH]; intros [|n] rest clean Hn; try (simpl in Hn; lia); [done|].
  cbn [mbind list_bind forallb] in *. rewrite length_app in Hn. rewrite <- app_assoc.
  cbn [scan]. rewrite tokens_more, Hv by lia. destruct (distinct v); [|done]. simpl. apply IH. destruct v; simpl in Hn |- *; lia.
Qed.

Lemma scan_members l : Forall (λ m, scans m.2) l → ∀ n seen rest clean, (2 * length (l ≫= λ m, TString m.1 :: tokens m.2) + 1 ≤ n)%nat →
  scan n clean (AtMembers seen) ((l ≫= λ m, TString m.1 :: tokens m.2) ++ TDelim "}" :: rest) =
  if forallb (λ name, negb (contains name seen)) (fst <$> l) && no_dup_b (fst <$> l) && forallb (λ m, distinct m.2) l
  then Some rest else None.
Proof.
  induction 1 as [|[name v] l Hv Hl IH]; intros [|n] seen rest clean Hn; try (simpl in Hn; lia); [done|].
  cbn [mbind list_bind forallb fmap list_fmap fst snd no_dup_b app] in *. cbn [length] in Hn. rewrite length_app in Hn. rewrite <- app_assoc.
  cbn [scan more]. destruct (contains name seen) eqn:Hs; [done|]. cbn [negb andb]. simpl in Hv. rewrite Hv by lia.
  destruct (distinct v); [|by rewrite !andb_false_r]. cbn [mbind option_bind andb]. rewrite IH by lia.
  assert (forallb (λ n0, negb (contains n0 (name :: seen))) (fst <$> l) =
          forallb (λ n0, negb (contains n0 seen)) (fst <$> l) && negb (contains name (fst <$> l))) as ->; [|by rewrite <- !andb_assoc].
  generalize (fst <$> l). intros k. induction k as [|x k IHk]; [done|]. cbn [forallb]. rewrite IHk.
  unfold contains. apply eq_true_iff_eq. rewrite !andb_true_iff, !negb_true_iff, !bool_decide_eq_false, !not_elem_of_cons. naive_solver.
Qed.

Lemma scans_all v : scans v.
Proof.
  induction v as [|s|l IH|l IH] using json_rec'; intros n rest clean Hn.
  - destruct n; [simpl in Hn; lia|done].
  - destruct n; [simpl in Hn; lia|done].
  - cbn [tokens length] in Hn. rewrite length_app in Hn. simpl in Hn. destruct n as [|n]; [lia|].
    cbn [tokens app scan]. rewrite (decide_False (P := "["%char = "{"%char)), decide_True, <- app_assoc by done.
    cbn [app]. rewrite (scan_elements l IH) by lia. done.
  - cbn [tokens length] in Hn. rewrite length_app in Hn. simpl in Hn. destruct n as [|n]; [lia|].
    cbn [tokens app scan]. rewrite decide_True, <- app_assoc by done.
    cbn [app]. rewrite (scan_members l IH) by lia. cbn [distinct].
    assert (forallb (λ name, negb (contains name [])) (fst <$> l) = true) as ->; [|done].
    apply forallb_forall. intros x _. by apply negb_true_iff, contains_false, not_elem_of_nil.
Qed.

(** A token part is accepted exactly when it is one JSON value, with nothing
    after it, in which no object at any depth names a key twice. *)
Theorem accepts_tokens_iff (v : json) (extra : list token) (clean : bool) :
  accepts_tokens (tokens v ++ extra, clean) = distinct v && bool_decide (extra = []) && clean.
Proof.
  unfold accepts_tokens, scan_fuel. cbn [fst snd]. rewrite scans_all by (rewrite length_app; lia).
  destruct (distinct v); [|done]. by destruct extra.
Qed.

(** ** How often keys are fetched *)

(** The authenticator's life: the clock, the times fetches began at, newest
    first, and the state.  Lookups the cache answers change nothing; while a
    fetch is in flight the gate is held, and any number of requests wait. *)
Inductive life : Z → list Z → jwks → Prop :=
| life_new t : life t [] new_jwks
| life_wait t t' l st : life t l st → t <= t' → life t' l st
| life_begin t l st kid algorithm st' : life t l st → st.(jw_gate) = None →
    begin_fetch t kid algorithm st = (st', None) → life t (t :: l) st'
| life_end t l st fetched : life t l st → st.(jw_gate) ≠ None → life t l (end_fetch t fetched st).1.

(** Apart from the last fetch by the interval. *)
Definition apart (a : Z) (l : list Z) : Prop := match l with b :: _ => b + jwksRefreshMinInterval <= a | [] => True end.
Fixpoint spaced (l : list Z) : Prop :=
  match l with
  | a :: l => match l with b :: l' => b <= a ∧ apart a l' | [] => True end ∧ spaced l
  | [] => True
  end.

Definition paced (t : Z) (l : list Z) (st : jwks) : Prop :=
  spaced l ∧
  match l with
  | [] => st.(jw_gate) = None
  | a :: l =>
      a <= t ∧
      (st.(jw_refresh) = a + jwksRefreshMinInterval ∨
       st.(jw_gate) = None ∧ a + jwksCacheLifetime <= st.(jw_expiry) ∧ apart a l) ∧
      (∀ f, st.(jw_gate) = Some f → st.(jw_refresh) = a + jwksRefreshMinInterval ∧ (f.(f_keep) = false → apart a l))
  end.

Lemma begin_fetch_goes now kid algorithm st st' : begin_fetch now kid algorithm st = (st', None) →
  st.(jw_refresh) <= now ∧ st'.(jw_refresh) = now + jwksRefreshMinInterval ∧
  st'.(jw_gate) = Some (mk_fetch kid algorithm (now <? st.(jw_expiry))).
Proof.
  unfold begin_fetch, look. destruct (if now <? jw_expiry st then _ else _); [done|]. destruct (now <? jw_refresh st) eqn:E; [done|].
  intros [= <-]. split_and!; [lia|done..].
Qed.

Lemma life_paced t l st : life t l st → paced t l st.
Proof.
  assert (0 < jwksRefreshMinInterval ∧ jwksRefreshMinInterval <= jwksCacheLifetime) as [Hpos Hle] by (by vm_compute).
  induction 1 as [t|t t' l st Hl [Hs IH] Ht|t l st kid algorithm st' Hl [Hs IH] Hg Hb|t l st fetched Hl [Hs IH] Hg].
  - by split.
  - split; [done|]. destruct l as [|a l]; [done|]. destruct IH as (H1 & H2 & H3). split_and!; [lia|done..].
  - apply begin_fetch_goes in Hb as (Hr & Hr' & Hg').
    assert (match l with b :: l' => b <= t ∧ apart t l' | [] => True end ∧ (t <? st.(jw_expiry) = false → apart t l)) as [Hlast Hkeep].
    { destruct l as [|a l]; [by split|]. destruct IH as (H1 & H2 & _). simpl in Hs. destruct Hs as [Hs _].
      destruct H2 as [H2|(_ & H2 & H4)].
      - split; [split; [lia|]|intros _; simpl; lia]. destruct l as [|b l]; [done|]. destruct Hs as [Hba _]. simpl. lia.
      - split; [split; [lia|]|intros Hstale; simpl; lia]. destruct l as [|b l]; [done|]. simpl in H4 |- *. lia. }
    split; [by split|]. split_and!; [lia|by left|]. rewrite Hg'. intros f [= <-]. split; [done|]. simpl. auto.
  - split; [done|]. destruct l as [|a l]; [done|]. destruct IH as (H1 & H2 & H3).
    destruct (jw_gate st) as [f|] eqn:G; [|done]. destruct (H3 f eq_refl) as [Hr Hk].
    unfold end_fetch. rewrite G. destruct fetched as [keys|]; simpl; [|split_and!; [done|by left|done]].
    split_and!; [done| |done]. destruct (bool_decide _ && negb (f_keep f)) eqn:E; [|by left]. right.
    apply andb_true_iff in E as [_ E%negb_true_iff]. split_and!; [done|lia|auto].
Qed.

Lemma spaced_old c b l : spaced (c :: b :: l) → ∀ y, y ∈ l → y + jwksRefreshMinInterval <= c.
Proof.
  revert c b. induction l as [|a l IH]; intros c b Hs y Hy; [by apply elem_of_nil in Hy|].
  destruct Hs as [[Hbc Ha] Hs]. apply elem_of_cons in Hy as [->|Hy]; [done|].
  pose proof (IH b a Hs y Hy). lia.
Qed.

(** C30 However many tokens with unknown keys arrive, and in whatever
    interleaving, at most two fetches of the key document begin within any
    thirty seconds. *)
Theorem fetches_limited (t : Z) (l : list Z) (st : jwks) (x : Z) (Hlife : life t l st) :
  (length (filter (λ f, (x <= f < x + jwksRefreshMinInterval)%Z) l) ≤ 2)%nat.
Proof.
  apply life_paced in Hlife as [Hs _]. revert Hs. induction l as [|c l IH]; intros Hs; [simpl; lia|].
  rewrite filter_cons. case_decide as Hc; [|apply IH, Hs]. destruct l as [|b l]; [simpl; lia|].
  pose proof (spaced_old c b l Hs) as Hold. rewrite filter_cons.
  assert (filter (λ f, x <= f < x + jwksRefreshMinInterval) l = []) as ->; [|case_decide; simpl; lia].
  apply elem_of_nil_inv. intros y [Hin Hy]%list_elem_of_filter. specialize (Hold y Hy). lia.
Qed.

Lemma fetches_limited_witness : (length (filter (λ f, (0 <= f < 0 + jwksRefreshMinInterval)%Z) [1; 0]%Z) ≤ 2)%nat.
Proof.
  set (k := mk_rsaJWK "RS256" 15 3). set (found := Some ({["k" := k]} : gmap string rsaJWK)).
  set (st1 := (begin_fetch 0 "k" "RS256" new_jwks).1). set (st2 := (end_fetch 0 found st1).1).
  apply (fetches_limited 1 [1; 0] (begin_fetch 1 "other" "RS256" st2).1 0).
  eapply life_begin with (st := st2) (kid := "other") (algorithm := "RS256"); [|vm_compute; reflexivity|vm_compute; reflexivity].
  apply (life_wait 0); [|lia]. apply life_end; [|discriminate].
  eapply life_begin with (st := new_jwks); [apply life_new|reflexivity|vm_compute; reflexivity].
Defined.

(** ** Whose requests are let in *)

(** A usable signing key. *)
Definition good_key (algorithms : list string) (k : rsaJWK) : Prop :=
  k.(jk_algorithm) ∈ algorithms ∧ 3 <= k.(jk_E) < 2 ^ 32 ∧ k.(jk_E) mod 2 = 1.
Definition good_keys (algorithms : list string) (keys : gmap string rsaJWK) : Prop :=
  ∀ kid k, keys !! kid = Some k → good_key algorithms k.

Lemma exponent_shift acc c : 0 <= acc → Z.lor (Z.shiftl acc 8) (code c) = acc * 256 + code c.
Proof.
  intros Ha. pose proof (code_bounds c) as Hc. rewrite <- Z.add_lor_land.
  - rewrite Z.shiftl_mul_pow2 by lia. change (2 ^ 8) with 256.
    assert (Z.land (acc * 256) (code c) = 0) as ->; [|lia].
    apply Z.bits_inj'. intros n Hn. rewrite Z.land_spec, Z.bits_0. destruct (decide (n < 8)) as [H|H].
    + change 256 with (2 ^ 8). by rewrite Z.mul_pow2_bits_low.
    + rewrite (Z.bits_above_log2 (code c)); [by rewrite andb_false_r|lia|].
      destruct (decide (code c = 0)) as [->|]; [simpl; lia|]. assert (Z.log2 (code c) < 8); [|lia]. apply Z.log2_lt_pow2; lia.
Qed.

Lemma exponent_bound s : ∀ acc, 0 <= acc → 0 <= exponent_value acc s < (acc + 1) * 256 ^ slen s.
Proof.
  induction s as [|c s IH]; intros acc Ha; cbn [exponent_value].
  - change (slen "") with 0. lia.
  - pose proof (code_bounds c) as Hc. rewrite exponent_shift by done. specialize (IH (acc * 256 + code c) ltac:(lia)).
    unfold slen in *. cbn [String.length]. rewrite Nat2Z.inj_succ, Z.pow_succ_r by lia.
    pose proof (Z.pow_pos_nonneg 256 (Z.of_nat (String.length s)) ltac:(lia) ltac:(lia)). nia.
Qed.

Lemma collect_keys_good algorithms l : ∀ keys keys', good_keys algorithms keys →
  collect_keys algorithms l keys = Some keys' → good_keys algorithms keys'.
Proof.
  induction l as [|raw l IH]; intros keys keys' Hk H; cbn [collect_keys] in H; [by injection H as <-|].
  destruct (_ || _); [by eapply IH|]. destruct (negb (contains (rk_Alg raw) algorithms)) eqn:A; [by eapply IH|].
  apply negb_false_iff, contains_true in A. case_bool_decide; [done|].
  destruct (base64_decode (rk_N raw)) as [n|]; [|done]. destruct (base64_decode (rk_E raw)) as [e|]; [|done]. cbn [mbind option_bind] in H.
  destruct (_ || _) eqn:E1; [done|]. destruct ((_ <? 3) || _ || _) eqn:E2; [done|].
  eapply IH; [|exact H]. intros kid k. rewrite lookup_insert_Some. intros [[<- <-]|[_ Hkid]]; [|by eapply Hk].
  apply orb_false_iff in E1 as [_ E1]. rewrite !orb_false_iff in E2. destruct E2 as [[E2 E3] _].
  pose proof (exponent_bound e 0 ltac:(lia)) as Hb. split; [done|]. cbn [jk_E]. split.
  - assert (256 ^ slen e <= 256 ^ 4) as Hp by (apply Z.pow_le_mono_r; lia). change (2 ^ 32) with (256 ^ 4). lia.
  - pose proof (Z.mod_pos_bound (exponent_value 0 e) 2 ltac:(lia)). lia.
Qed.

Section sound.
Context `{jwt : Jwt}.

Lemma fetchKeys_good algorithms response keys : fetchKeys algorithms response = Some keys → good_keys algorithms keys.
Proof.
  unfold fetchKeys. destruct response as [[status body]|]; [|done]. cbn [mbind option_bind]. destruct (_ || _); [done|].
  destruct (jwks_document body) as [l|]; [|done]. cbn [mbind option_bind]. destruct (_ || _); [done|].
  destruct (collect_keys algorithms l ∅) as [keys'|] eqn:E; [|done]. cbn [mbind option_bind].
  case_bool_decide; [done|]. intros [= <-]. eapply collect_keys_good; [|exact E]. by intros kid k.
Qed.

Lemma key_of_Some keys kid algorithm k : key_of keys kid algorithm = Some k ↔ keys !! kid = Some k ∧ k.(jk_algorithm) = algorithm.
Proof. unfold key_of. destruct (keys !! kid) as [k'|]; [|naive_solver]. case_bool_decide; naive_solver. Qed.

Lemma look_key now kid algorithm st k : look now kid algorithm st = Some (Some k) →
  now < st.(jw_expiry) ∧ key_of st.(jw_keys) kid algorithm = Some k.
Proof.
  unfold look. destruct (now <? jw_expiry st) eqn:E.
  - destruct (key_of _ _ _) as [k'|]; [intros [= <-]; split; [lia|done]|]. by destruct (now <? jw_refresh st).
  - by destruct (now <? jw_refresh st).
Qed.

(** Where a key comes from: the cache while it has not expired, or the answer to
    the fetch. *)
Lemma key_source algorithms env kid algorithm st st' r : key algorithms env kid algorithm st = (st', r) →
  (st'.(jw_keys) = st.(jw_keys) ∨ env.(le_fetched) = Some st'.(jw_keys)) ∧
  ∀ k, r = Some k → algorithm ∈ algorithms ∧
    ((env.(le_t1) < st.(jw_expiry) ∨ env.(le_t2) < st.(jw_expiry)) ∧ key_of st.(jw_keys) kid algorithm = Some k ∨
     env.(le_fetched) = Some st'.(jw_keys) ∧ key_of st'.(jw_keys) kid algorithm = Some k).
Proof.
  unfold key. destruct (contains algorithm algorithms) eqn:A; [apply contains_true in A|by intros [= <- <-]; split; [left|]].
  destruct (look (le_t1 env) kid algorithm st) as [r1|] eqn:L.
  { intros [= <- <-]. split; [by left|]. intros k ->. apply look_key in L as [H1 H2]. split; [done|]. left. by split; [left|]. }
  destruct (le_gate env); [|by intros [= <- <-]; split; [left|]]. unfold begin_fetch.
  destruct (look (le_t2 env) kid algorithm st) as [r2|] eqn:L2.
  { intros [= <- <-]. split; [by left|]. intros k ->. apply look_key in L2 as [H1 H2]. split; [done|]. left. by split; [right|]. }
  unfold end_fetch. simpl. destruct (le_fetched env) as [keys|]; intros [= <- <-]; simpl; [|by split; [left|]].
  split; [by right|]. intros k Hk. split; [done|]. by right.
Qed.

Lemma stringClaim_nonempty v path s : stringClaim v path = Some s → s ≠ "".
Proof.
  revert v. induction path as [|x path IH]; intros [t|o|] H; simpl in H; try done.
  - case_bool_decide; [done|]. by injection H as <-.
  - destruct (o !! x) as [v|]; [|done]. by eapply IH.
Qed.

Lemma trim_prefix_app p s : has_prefix p s = true → s = p +:+ trim_prefix p s.
Proof. unfold trim_prefix. intros H. rewrite H. by apply has_prefix_split. Qed.

Lemma request_token_ok c h token : request_token c h = Some token →
  ∃ value, header_values c.(kc_JWTHeader) h = [value] ∧ (value = token ∨ value = bearer +:+ token) ∧ token ≠ "".
Proof.
  unfold request_token. destruct (header_values _ h) as [|value [|]]; [done| |done]. destruct (has_byte _ _); [done|].
  pose proof (trim_prefix_app bearer value) as Htrim.
  destruct (kc_JWTSource c).
  - destruct (has_prefix bearer value) eqn:E; [|done]. destruct (bool_decide (count_byte _ _ = _)); [|done]. cbn [andb mbind option_bind].
    case_bool_decide; [done|]. intros [= <-]. exists value. split_and!; [done|right; by apply Htrim|done].
  - cbn [mbind option_bind]. case_bool_decide; [done|]. intros [= <-]. exists value. by split_and!; [|left|].
  - cbn [mbind option_bind]. case_bool_decide; [done|]. intros [= <-]. exists value. by split_and!; [|left|].
Qed.
End sound.

(** What a request that is let in has shown. *)
Record authenticated `{jwt : Jwt} (c : KeycloakConfig) (env : auth_env) (h : Header) (st st' : jwks) (id : Identity)
    (value token kid algorithm : string) (k : rsaJWK) (claims : gmap string claim) (user : string) : Prop := {
  au_header : header_values c.(kc_JWTHeader) h = [value] ∧ (value = token ∨ value = bearer +:+ token);
  au_size : slen token <= maxJWTBytes;
  au_unambiguous : rejectDuplicateJWTJSON token = true;
  au_key : jwt_header token = Some (kid, algorithm) ∧ k.(jk_algorithm) = algorithm ∧ good_key c.(kc_AllowedAlgorithms) k;
  au_current : (env.(ae_t1) < st.(jw_expiry) ∨ env.(ae_t2) < st.(jw_expiry)) ∧ st.(jw_keys) !! kid = Some k ∨
               fetchKeys c.(kc_AllowedAlgorithms) env.(ae_response) = Some st'.(jw_keys) ∧ st'.(jw_keys) !! kid = Some k;
  au_verified : jwt_verify (c.(kc_Issuer), c.(kc_Audience)) env.(ae_t3) k token = Some claims;
  au_claims : ∃ up tp, parseJSONPointer c.(kc_UserClaimPath) = Some up ∧ parseJSONPointer c.(kc_TenantClaimPath) = Some tp ∧
    stringClaim (CObject claims) up = Some user ∧ stringClaim (CObject claims) tp = Some id.(id_Tenant) ∧
    user ≠ "" ∧ id.(id_Tenant) ≠ "";
  au_principal : id.(id_Principal) = canonicalPrincipal id.(id_Tenant) user;
}.

(** C7 A request is let in only with one token, of bounded size, in which no key
    repeats, verified for the configured issuer and audience under a usable key
    that has the token's identifier and an allowed algorithm and that the key
    document held when it was last read, no longer than its lifetime ago; the
    identity is the tenant and the user the token names, and neither is
    empty.  The cache keeps only usable keys. *)
Theorem Authenticate_sound `{jwt : Jwt} (c : KeycloakConfig) (env : auth_env) (h : Header) (st st' : jwks) (r : option Identity)
    (Hst : good_keys c.(kc_AllowedAlgorithms) st.(jw_keys)) (Hrun : Authenticate c env h st = (st', r)) :
  good_keys c.(kc_AllowedAlgorithms) st'.(jw_keys) ∧
  ∀ id, r = Some id → ∃ value token kid algorithm k claims user,
    authenticated c env h st st' id value token kid algorithm k claims user.
Proof.
  revert Hrun. unfold Authenticate. destruct (request_token c h) as [token|] eqn:T; [|by intros [= <- <-]].
  destruct (_ || _) eqn:Hsize; [by intros [= <- <-]|]. apply orb_false_iff in Hsize as [Hsize Hdup%negb_false_iff].
  destruct (jwt_header token) as [[kid algorithm]|] eqn:Hh; [|by intros [= <- <-]].
  destruct (_ || _); [by intros [= <- <-]|].
  destruct (key _ _ kid algorithm st) as [st1 k] eqn:K. apply key_source in K as [Hkeys Hk]. cbn [le_fetched le_t1 le_t2] in *.
  intros [= -> <-]. assert (good_keys c.(kc_AllowedAlgorithms) st'.(jw_keys)) as Hgood.
  { destruct Hkeys as [->|Hf]; [done|by eapply fetchKeys_good]. }
  split; [done|]. intros id Hid. destruct k as [k|]; [|done]. cbn [mbind option_bind] in Hid.
  destruct (jwt_verify _ _ k token) as [claims|] eqn:V; [|done]. cbn [mbind option_bind] in Hid.
  destruct (parseJSONPointer (kc_UserClaimPath c)) as [up|] eqn:U; [|done]. cbn [mbind option_bind] in Hid.
  destruct (stringClaim _ up) as [user|] eqn:Su; [|done]. cbn [mbind option_bind] in Hid.
  destruct (parseJSONPointer (kc_TenantClaimPath c)) as [tp|] eqn:P; [|done]. cbn [mbind option_bind] in Hid.
  destruct (stringClaim _ tp) as [tenant|] eqn:St; [|done]. cbn [mbind option_bind] in Hid. injection Hid as <-.
  apply request_token_ok in T as (value & Hv & Ht & _). destruct (Hk k eq_refl) as [Ha Hsrc].
  exists value, token, kid, algorithm, k, claims, user. rewrite !key_of_Some in Hsrc.
  split; cbn [id_Tenant id_Principal]; try done.
  - lia.
  - destruct Hsrc as [(_ & Hx & Hal)|(_ & Hx & Hal)]; (split_and!; [done|done|]); first [exact (Hst _ _ Hx)|exact (Hgood _ _ Hx)].
  - destruct Hsrc as [(He & Hx & _)|(He & Hx & _)]; [by left|by right].
  - exists up, tp. split_and!; try done; by eapply stringClaim_nonempty.
Qed.

(** ** One request, played *)

Definition demo_keycloak : KeycloakConfig := mk_KeycloakConfig "https://id.example/r" "https://id.example/keys" "agent"
  JWTSourceAuthorizationBearer "authorization" "/sub" "/org/a~1b" ["RS256"].
Definition demo_claims : gmap string claim :=
  {["sub" := CString "alice"; "org" := CObject {["a/b" := CString "acme"]}; "n" := COther]}.
#[local] Instance demo_jwt : Jwt := {|
  url_parse := λ raw, if has_prefix "https://" raw then Some (mk_httpURL "https" "id.example" false "") else None;
  json_tokens := λ data, if bool_decide (data = "{}") then ([TDelim "{"; TDelim "}"], true) else ([], true);
  jwks_document := λ body, if bool_decide (body = "keys") then Some [mk_rawJWK "RSA" "k" "RS256" "sig" "AQAB" "Aw"; mk_rawJWK "EC" "x" "" "" "" ""] else None;
  jwt_header := λ _, Some ("k", "RS256");
  jwt_verify := λ _ now k token, if bool_decide (token = "e30.e30.c2ln") && (jk_E k =? 3) then Some demo_claims else None |}.
Definition demo_auth_env : auth_env := mk_auth_env 10 11 12 true (Some (200, "keys")).
Definition demo_request : Header := {["Authorization" := ["Bearer e30.e30.c2ln"]]}.

Lemma first_of_seen l : ∀ seen x, x ∈ first_of l seen ↔ x ∈ l ∧ x ∉ seen.
Proof.
  induction l as [|y l IH]; intros seen x; [split; [by intros ?%elem_of_nil|by intros [?%elem_of_nil _]]|].
  simpl. destruct (contains y seen) eqn:E; [apply contains_true in E|apply contains_false in E].
  - rewrite IH, elem_of_cons. naive_solver.
  - rewrite !elem_of_cons, IH, elem_of_cons. destruct (decide (x = y)); naive_solver.
Qed.
Lemma first_of_nodup l : ∀ seen, NoDup (first_of l seen).
Proof.
  induction l as [|y l IH]; intros seen; [apply NoDup_nil_2|]. simpl. destruct (contains y seen); [done|].
  apply NoDup_cons. split; [|done]. rewrite first_of_seen, elem_of_cons. naive_solver.
Qed.

(** An authenticator is made of valid settings only, with both claim paths
    parsed and each allowed algorithm once. *)
Theorem authenticator_valid `{jwt : Jwt} (c : KeycloakConfig) (a : KeycloakAuthenticator)
    (Hnew : NewKeycloakAuthenticator c = Ok a) :
  validateKeycloakConfig c = Ok tt ∧ a.(ka_config) = c ∧ parseJSONPointer c.(kc_UserClaimPath) = Some a.(ka_userPath) ∧
  parseJSONPointer c.(kc_TenantClaimPath) = Some a.(ka_tenantPath) ∧ NoDup a.(ka_algorithms) ∧
  ∀ x, x ∈ a.(ka_algorithms) ↔ x ∈ c.(kc_AllowedAlgorithms).
Proof.
  unfold NewKeycloakAuthenticator in Hnew. apply bind_ok in Hnew as ([] & Hv & Hnew). injection Hnew as <-.
  pose proof Hv as Hv'. unfold validateKeycloakConfig in Hv'. gosimpl.
  split_and!; try done; cbn [ka_userPath ka_tenantPath ka_algorithms].
  - by destruct (parseJSONPointer (kc_UserClaimPath c)); [|match goal with H : is_Some None |- _ => destruct H end].
  - by destruct (parseJSONPointer (kc_TenantClaimPath c)); [|match goal with H : is_Some None |- _ => destruct H end].
  - apply first_of_nodup.
  - intros x. rewrite first_of_seen, elem_of_nil. naive_solver.
Qed.

Example demo_keycloak_valid : validateKeycloakConfig demo_keycloak = Ok tt.
Proof. vm_compute. reflexivity. Qed.
Definition demo_authenticated : jwks * option Identity := Eval vm_compute in Authenticate demo_keycloak demo_auth_env demo_request new_jwks.
Example demo_identity : demo_authenticated.2 = Some (mk_Identity "acme" "4:acme5:alice").
Proof. reflexivity. Qed.

Lemma Authenticate_sound_witness : good_keys ["RS256"] demo_authenticated.1.(jw_keys) ∧
  ∃ user, canonicalPrincipal "acme" user = "4:acme5:alice".
Proof.
  assert (good_keys demo_keycloak.(kc_AllowedAlgorithms) new_jwks.(jw_keys)) as Hst by (intros kid k Hk; discriminate Hk).
  assert (Authenticate demo_keycloak demo_auth_env demo_request new_jwks = (demo_authenticated.1, demo_authenticated.2)) as Hrun
    by (vm_compute; reflexivity).
  destruct (Authenticate_sound demo_keycloak demo_auth_env demo_request new_jwks _ _ Hst Hrun) as [H1 H2].
  split; [exact H1|]. destruct (H2 _ eq_refl) as (value & token & kid & algorithm & k & claims & user & H).
  exists user. symmetry. exact H.(au_principal _ _ _ _ _ _ _ _ _ _ _ _ _).
Defined.
