(* ===== verification/Identity.v ===== *)
(** * External and internal identifiers

    [internal/chat/identity.go]: the tables that map what clients call their
    threads and runs to the identifiers of the journal, and the theorem that
    the two correspond one to one.

    The random identifiers a call draws are arguments of it. *)
From S2P Require Import Prelude GoText.

#[local] Set Default Proof Using "Type".

(** The tables [chat_threads] (by principal and external identifier) and
    [chat_runs] (by thread and external identifier; the identifier and the
    communication identifier of a run). *)
Record idmap := mk_idmap {
  im_threads : gmap (string * string) string;
  im_runs : gmap (string * string) (string * string);
}.
Definition empty_idmap : idmap := mk_idmap ∅ ∅.

Inductive id_error := IdForbidden | IdDatabase.

(** A new row is refused when a [UNIQUE] column has its value already. *)
Definition used {K A B} `{Countable K} `{EqDecision B} (f : A → B) (x : B) (m : gmap K A) : bool :=
  existsb (λ r, bool_decide (f r.2 = x)) (map_to_list m).

Definition insert_thread (principal external id : string) (s : idmap) : result id_error (string * idmap) :=
  match s.(im_threads) !! (principal, external) with
  | Some thread => Ok (thread, s)
  | None =>
      if used (λ t, t) id s.(im_threads) then Err IdDatabase
      else Ok (id, mk_idmap (<[(principal, external) := id]> s.(im_threads)) s.(im_runs))
  end.
Definition insert_run (thread external id communication : string) (s : idmap) : result id_error (string * string * idmap) :=
  match s.(im_runs) !! (thread, external) with
  | Some r => Ok (r, s)
  | None =>
      if used fst id s.(im_runs) || used snd communication s.(im_runs) then Err IdDatabase
      else Ok ((id, communication), mk_idmap s.(im_threads) (<[(thread, external) := (id, communication)]> s.(im_runs)))
  end.

(** The identifiers drawn: of a thread, of a run and of a communication. *)
Record drawn := mk_drawn { dr_thread : string; dr_run : string; dr_communication : string }.
Record ids := mk_ids { id_thread : string; id_run : string; id_communication : string }.

(** [resolve]; a transaction that fails leaves the tables as they were. *)
Definition resolve (principal thread run : string) (create : bool) (d : drawn) (s : idmap) : idmap * result id_error ids :=
  if create then
    match '(t, s1) ← insert_thread principal thread d.(dr_thread) s;
          '(r, s2) ← insert_run t run d.(dr_run) d.(dr_communication) s1;
          Ok (mk_ids t r.1 r.2, s2) with
    | Ok (i, s') => (s', Ok i)
    | Err e => (s, Err e)
    end
  else
    (s, match s.(im_threads) !! (principal, thread) with
        | Some t => match s.(im_runs) !! (t, run) with Some (r, c) => Ok (mk_ids t r c) | None => Err IdForbidden end
        | None => Err IdForbidden
        end).

(** [externalCommands]: the external run of each communication of a thread. *)
Definition externalCommands (principal thread : string) (s : idmap) : gmap string string :=
  if existsb (λ r, bool_decide (r.1.1 = principal) && bool_decide (r.2 = thread)) (map_to_list s.(im_threads)) then
    list_to_map ((λ r, (r.2.2, r.1.2)) <$> filter (λ r, r.1.1 = thread) (map_to_list s.(im_runs)))
  else ∅.

(** ** One to one *)

(** No two rows share a value of a [UNIQUE] column. *)
Definition unique {K A B} `{Countable K} (f : A → B) (m : gmap K A) : Prop :=
  ∀ k1 k2 a1 a2, m !! k1 = Some a1 → m !! k2 = Some a2 → f a1 = f a2 → k1 = k2.
Definition idmap_ok (s : idmap) : Prop :=
  unique (λ t, t) s.(im_threads) ∧ unique fst s.(im_runs) ∧ unique snd s.(im_runs).

(** Any number of calls, of any clients. *)
Inductive id_step : idmap → idmap → Prop :=
| resolve_step p t r create d s : id_step s (resolve p t r create d s).1.
Definition id_extends (s s' : idmap) : Prop := s.(im_threads) ⊆ s'.(im_threads) ∧ s.(im_runs) ⊆ s'.(im_runs).
#[export] Instance id_extends_preorder : PreOrder id_extends.
Proof. split; [by intros s; split|]. intros a b c [H1 H2] [H3 H4]. by split; etransitivity. Qed.

Lemma used_false {K A B} `{Countable K} `{EqDecision B} (f : A → B) x (m : gmap K A) : used f x m = false →
  ∀ k a, m !! k = Some a → f a ≠ x.
Proof.
  unfold used. intros Hu k a Hk E. apply not_true_iff_false in Hu. apply Hu, existsb_exists. exists (k, a).
  split; [by apply list_elem_of_In, elem_of_map_to_list|]. by apply bool_decide_eq_true.
Qed.

Lemma unique_insert {K A B} `{Countable K} `{EqDecision B} (f : A → B) k a (m : gmap K A) :
  unique f m → m !! k = None → used f (f a) m = false → unique f (<[k := a]> m).
Proof.
  intros Hu Hk Hf k1 k2 a1 a2. rewrite !lookup_insert_Some. pose proof (used_false _ _ _ Hf) as Hn.
  intros [[<- <-]|[_ H1]] [[<- <-]|[_ H2]] E; [done|by destruct (Hn _ _ H2)|by destruct (Hn _ _ H1)|by eapply Hu].
Qed.

Lemma insert_thread_ok p x id s t s1 : insert_thread p x id s = Ok (t, s1) → idmap_ok s →
  idmap_ok s1 ∧ id_extends s s1 ∧ s1.(im_threads) !! (p, x) = Some t.
Proof.
  unfold insert_thread. intros H (U1 & U2 & U3). destruct (im_threads s !! _) as [t'|] eqn:E; [by injection H as <- <-|].
  destruct (used _ _ _) eqn:Hu; [done|]. injection H as <- <-. split; [split_and!; simpl; [by apply unique_insert|done..]|].
  split; [split; simpl; [by apply insert_subseteq|done]|]. simpl. by rewrite lookup_insert_eq.
Qed.

Lemma insert_run_keeps t x id c s r s1 : insert_run t x id c s = Ok (r, s1) → idmap_ok s →
  idmap_ok s1 ∧ id_extends s s1 ∧ s1.(im_runs) !! (t, x) = Some r.
Proof.
  unfold insert_run. intros H (U1 & U2 & U3). destruct (im_runs s !! _) as [r'|] eqn:E; [by injection H as <- <-|].
  destruct (_ || _) eqn:Hu; [done|]. apply orb_false_iff in Hu as [Hu1 Hu2]. injection H as <- <-.
  split; [split_and!; simpl; [done|by apply unique_insert..]|].
  split; [split; simpl; [done|by apply insert_subseteq]|]. simpl. by rewrite lookup_insert_eq.
Qed.

(** What a call that succeeds leaves in the tables. *)
Lemma resolve_rows p t r create d s s' res : resolve p t r create d s = (s', res) → idmap_ok s →
  idmap_ok s' ∧ id_extends s s' ∧ ∀ i, res = Ok i →
    s'.(im_threads) !! (p, t) = Some i.(id_thread) ∧ s'.(im_runs) !! (i.(id_thread), r) = Some (i.(id_run), i.(id_communication)).
Proof.
  unfold resolve. intros H Hok. destruct create.
  - destruct (insert_thread p t _ s) as [[th s1]|e] eqn:E1; [|by injection H as <- <-]. cbn [mbind result_bind] in H.
    destruct (insert_run th r _ _ s1) as [[[id c] s2]|e] eqn:E2; [|by injection H as <- <-]. injection H as <- <-.
    destruct (insert_thread_ok _ _ _ _ _ _ E1 Hok) as (Hok1 & X1 & R1).
    destruct (insert_run_keeps _ _ _ _ _ _ _ E2 Hok1) as (Hok2 & X2 & R2).
    split_and!; [done|by etransitivity|]. intros i [= <-]. split; [|done]. by apply (lookup_weaken _ _ _ _ R1), X2.
  - injection H as <- <-. split_and!; [done|done|]. intros i Hi.
    destruct (im_threads s !! _) as [th|] eqn:E1; [|done]. destruct (im_runs s !! _) as [[id c]|] eqn:E2; [|done]. by injection Hi as <-.
Qed.

Lemma id_steps s s' : rtc id_step s s' → idmap_ok s → idmap_ok s' ∧ id_extends s s'.
Proof.
  induction 1 as [s|s sa s2 Hstep _ IH]; intros Hok; [done|]. destruct Hstep as [p t r create d s0].
  destruct (resolve p t r create d s0) as [s1 res] eqn:E. destruct (resolve_rows _ _ _ _ _ _ _ _ E Hok) as (Hok1 & X & _).
  destruct (IH Hok1) as [Hok2 X2]. split; [done|by etransitivity].
Qed.

(** C29 External and internal identifiers correspond one to one, for ever: if a
    call for one external thread and run succeeds and later, after any calls of
    any clients, a call for another succeeds, they get the same thread exactly
    when the principal and the external thread are the same, and the same run,
    and the same communication, exactly when the external run is the same
    too.  So no client can name another principal's thread. *)
Theorem identifiers_one_to_one (s0 s1 s2 s3 : idmap) (p1 t1 r1 p2 t2 r2 : string) (create1 create2 : bool) (d1 d2 : drawn) (i1 i2 : ids)
    (Hok : idmap_ok s0) (Hfirst : resolve p1 t1 r1 create1 d1 s0 = (s1, Ok i1)) (Hsteps : rtc id_step s1 s2)
    (Hsecond : resolve p2 t2 r2 create2 d2 s2 = (s3, Ok i2)) :
  (i1.(id_thread) = i2.(id_thread) ↔ p1 = p2 ∧ t1 = t2) ∧
  (i1.(id_run) = i2.(id_run) ↔ p1 = p2 ∧ t1 = t2 ∧ r1 = r2) ∧
  (i1.(id_communication) = i2.(id_communication) ↔ p1 = p2 ∧ t1 = t2 ∧ r1 = r2).
Proof.
  destruct (resolve_rows _ _ _ _ _ _ _ _ Hfirst Hok) as (Hok1 & _ & Hrows1). destruct (Hrows1 _ eq_refl) as [T1 R1].
  destruct (id_steps _ _ Hsteps Hok1) as [Hok2 [X1 X2]].
  destruct (resolve_rows _ _ _ _ _ _ _ _ Hsecond Hok2) as ((U1 & U2 & U3) & [Y1 Y2] & Hrows2). destruct (Hrows2 _ eq_refl) as [T2 R2].
  pose proof (lookup_weaken _ _ _ _ (lookup_weaken _ _ _ _ T1 X1) Y1) as T1'.
  pose proof (lookup_weaken _ _ _ _ (lookup_weaken _ _ _ _ R1 X2) Y2) as R1'.
  assert (Ht : i1.(id_thread) = i2.(id_thread) ↔ p1 = p2 ∧ t1 = t2).
  { split; [|by intros [-> ->]; simplify_eq]. intros E. pose proof (U1 _ _ _ _ T1' T2 E). by simplify_eq. }
  assert (∀ k1 k2 : string * string, k1 = k2 → k1 = (i1.(id_thread), r1) → k2 = (i2.(id_thread), r2) → p1 = p2 ∧ t1 = t2 ∧ r1 = r2) as Hk.
  { intros k1 k2 -> E1 E2. rewrite E1 in E2. injection E2 as Et ->. apply Ht in Et as [-> ->]. done. }
  split_and!; [done|..]; (split; [intros E; eapply Hk; [|reflexivity|reflexivity]|intros (-> & -> & ->); simplify_eq; congruence]).
  - by eapply U2; [exact R1'|exact R2|].
  - by eapply U3; [exact R1'|exact R2|].
Qed.

Lemma identifiers_one_to_one_witness : let s1 := (resolve "alice" "t" "r" true (mk_drawn "1" "2" "3") empty_idmap).1 in
  match (resolve "bob" "t" "r" true (mk_drawn "4" "5" "6") s1).2 with Ok i => "1" ≠ i.(id_thread) | Err _ => False end.
Proof.
  assert (idmap_ok empty_idmap) as Hok by (split_and!; intros k1 k2 a1 a2 H; discriminate H).
  set (d := mk_drawn "1" "2" "3"). set (s1 := (resolve "alice" "t" "r" true d empty_idmap).1). cbv zeta.
  destruct (resolve "bob" "t" "r" true (mk_drawn "4" "5" "6") s1) as [s3 [i2|e]] eqn:E; [|vm_compute in E; discriminate E].
  cbn [snd]. intros Ht.
  apply (proj1 (identifiers_one_to_one empty_idmap s1 s1 s3 "alice" "t" "r" "bob" "t" "r" true true d _ (mk_ids "1" "2" "3") i2
    Hok eq_refl (rtc_refl _ _) E)) in Ht as [Hp _]. discriminate Hp.
Defined.
