(* ===== verification/Runner.v ===== *)
(** * Runs

    [internal/runtime/run.go]: from the scope of a run over its definition set,
    its admission by the cost gate and its tool binding to the conversation
    loop.  A program is a [prog] over [rstate]: the database with the loader's
    cache, and the log of what left the process.

    The class [Runtime] is what surrounds it: the framework and the outside of
    the conversation loop, the tenancy of the process, and the tool server as
    far as opening a binding sees it. *)
From S2P Require Import Prelude GoText Db CallBinding JournalCore Owners Runs DefinitionStore Records Service.
From S2P Require Import Journey Resolve Binding Settings TenantDir Bundle CompileSet Loader Cost Harness.
From S2P Require ActiveSet.

(** ** Data *)

(** [Tenancy]; the directory and the settings may answer differently each time
    they are asked. *)
Record Tenancy := mk_Tenancy {
  tn_Directory : option (nat → string → result dir_error Entry);
  tn_Endpoints : gmap string string;
  tn_Settings : option (nat → SettingsScope → result settings_error Settings);
  tn_Cost : option Gate;
  tn_HistoryBudget : Z;
}.

Class Runtime := mk_Runtime {
  rt_framework : framework; rt_outside : outside; rt_tenancy : Tenancy;
  rt_connect : nat → Endpoint → result binding_error (string * string);
  rt_list : nat → Endpoint → result binding_error string;
  rt_array : string → option (list string); rt_raw : string → option rawDescriptor;
}.

(** What leaves the process for a run, to its tool server and its model: the
    session is opened, its tools are listed, it is closed; and what the
    conversation loop sends. *)
Inductive output := OutConnect (e : Endpoint) | OutList (e : Endpoint) | OutClose (e : Endpoint) | OutLoop (e : event).

Record rstate := mk_rstate { rs_store : lstate; rs_log : list output }.

(** What an explicit target was refused for. *)
Inductive target_error := ErrJourneyUnavailable | ErrPolicyConflict | ErrActivationRefused.

Inductive run_error :=
| XStore (e : store_error)
| XDependency
| XOther
| XTarget (k : target_error) (reasons : string)
| XLimit (e : LimitError)
| XCatalog (e : binding_error)
| XActive (e : ActiveSet.error)
| XMaxActive (limit : Z)
| XHarness (e : herror).

Record RunScope := mk_RunScope { sc_Entry : Entry; sc_endpoint : Endpoint; sc_Settings : Settings }.

(** [RunInput] (the credential and the decoration are opaque to the model). *)
Record TurnInput := mk_TurnInput {
  ri_Owner : Owner; ri_Iteration : Z; ri_History : string; ri_ThreadID : string; ri_RunID : string;
  ri_Principal : string; ri_Tenant : string; ri_TargetJourney : string; ri_DefinitionDigest : string;
  ri_ProductVersion : string; ri_Endpoint : Endpoint; ri_Settings : Settings; ri_Attribution : Attribution;
}.
Definition harness_input (i : TurnInput) : RunInput :=
  mk_RunInput i.(ri_Owner) i.(ri_Iteration) i.(ri_History) i.(ri_ThreadID) i.(ri_RunID) i.(ri_Principal)
    i.(ri_TargetJourney) i.(ri_ProductVersion) i.(ri_Attribution).(at_Journey).

Section runner.
Context `{codec : Codec} `{yaml : Yaml} `{runtime : Runtime}.

#[local] Instance runtime_replica : Replica :=
  mk_Replica rt_outside.(x_now) rt_outside.(x_others) rt_outside.(x_fault).

Abbreviation running := (prog rstate run_error).

(** A program of the loader, and one transaction of the journal. *)
Definition stored {A} (m : prog lstate store_error A) : running A := λ st,
  let '(s, r) := m st.(rs_store) in
  (mk_rstate s st.(rs_log), match r with Ok a => Ok a | Err e => Err (XStore e) end).
Definition call {A} (t : Z → tx A) : running A := stored (store t).

Definition tick : running nat := λ st,
  let n := st.(rs_store).(ls_tick) in (mk_rstate (with_db st.(rs_store).(ls_db) st.(rs_store)) st.(rs_log), Ok n).
(** [ctx.Err() != nil] *)
Definition is_cancelled : running bool := n ← tick; mret (rt_outside.(x_cancelled) n).
(** The error [unavailable] makes of a dependency's. *)
Definition unavailable {A} : running A :=
  c ← is_cancelled;
  throw (if (c : bool) then XOther else XDependency).

(** ** Scope and admission *)

(** [Runner.Scope] *)
Definition ScopeOf (i : TurnInput) : running RunScope :=
  now ← tick;
  match Lookup (rt_outside.(x_cancelled) now) ((λ d, d now) <$> rt_tenancy.(tn_Directory)) rt_tenancy.(tn_Endpoints) i.(ri_Tenant) with
  | Err _ => unavailable
  | Ok (entry, endpoint) =>
      match rt_tenancy.(tn_Settings) with
      | None => unavailable
      | Some source =>
          match source now (mk_SettingsScope i.(ri_Tenant) i.(ri_Principal)) with
          | Err _ => unavailable
          | Ok resolved =>
              _ ← call (λ now, RecordRunScope now i.(ri_Owner) entry.(en_ProductVersion) entry.(en_EndpointID)
                     (RecordSettings resolved));
              mret (mk_RunScope entry endpoint resolved)
          end
      end
  end.

(** [Runner.Admit]: the attribution, and the decoration of the run's requests. *)
Definition RunAdmit (i : TurnInput) : running (Attribution * option (gmap string string)) :=
  let gate := default OpenGate rt_tenancy.(tn_Cost) in
  let a := mk_Attribution i.(ri_Tenant) i.(ri_Principal) i.(ri_ThreadID) i.(ri_RunID) i.(ri_TargetJourney) in
  let profile := i.(ri_Settings).(s_Profile) in
  match gate.(g_Admit) a profile with
  | None => unavailable
  | Some decision =>
      match decision_err decision with
      | Some e => throw (XLimit e)
      | None =>
          match gate.(g_Access) a profile with
          | None => unavailable
          | Some access => mret (a, access)
          end
      end
  end.

(** ** Definitions *)

(** [Runner.Ready] *)
Fixpoint all_load (l : list string) : running bool :=
  match l with
  | [] => mret true
  | digest :: l =>
      r ← try (stored (Load digest));
      match r with
      | Ok _ => all_load l
      | Err (XStore (SJournal ErrDefinition)) => mret false
      | Err e => throw e
      end
  end.
Definition Ready : running bool :=
  digests ← call (query (λ s, Ok (ReferencedDefinitions s)));
  loaded ← all_load digests;
  if (loaded : bool) then
    served ← asks (λ st, Served st.(rs_store));
    call (query (DefinitionsReady (Some served)))
  else mret false.

(** The digests [ResolveDefinition] asks about before it writes anything. *)
Definition asked (now : Z) (o : Owner) (s : db) : list string :=
  let thread := o.(ow_Command).(c_ThreadID) in
  match lockOwner now o s, s.(convs) !! thread with
  | Ok _, Some conv =>
      match conv.(cv_definition), s.(current) with
      | Some pin, Some d => [if negb (bool_decide (d = pin)) && conversationIdle o s then d else pin]
      | Some pin, None => [pin]
      | None, Some d => [d]
      | None, None => []
      end
  | _, _ => []
  end.
(** [ResolveDefinition] with a predicate that notes what is not served. *)
Definition resolve_noting (served : string → bool) (o : Owner) (now : Z) : tx (result (error * list string) string) := λ s,
  match ResolveDefinition now (Some served) o s with
  | Ok (d, s') => Ok (Ok d, s')
  | Err e => Ok (Err (e, filter (λ d, served d = false) (asked now o s)), s)
  end.

Fixpoint load_missing (l : list string) : running unit :=
  match l with
  | [] => mret tt
  | d :: l => _ ← stored (Load d); load_missing l
  end.

(** The attempts of [Runner.Binding]; [n] are left after this one. *)
Fixpoint resolve_attempts (n : nat) (o : Owner) : running string :=
  served ← asks (λ st, Served st.(rs_store));
  r ← call (resolve_noting served o);
  match r with
  | Ok digest => mret digest
  | Err (e, missing) =>
      match n with
      | S n =>
          if bool_decide (e = ErrDefinition) && negb (bool_decide (missing = [])) then
            _ ← load_missing missing; resolve_attempts n o
          else throw (XStore (SJournal e))
      | O => throw (XStore (SJournal e))
      end
  end.
Definition bindingAttempts : nat := 3.

(** [Runner.Binding]: the target journey and the definition digest. *)
Definition BindingOf (i : TurnInput) : running (string * string) :=
  digest ← resolve_attempts (bindingAttempts - 1) i.(ri_Owner);
  set ← stored (Load digest);
  if bool_decide (i.(ri_TargetJourney) = "") then mret ("", digest)
  else match FindJourney set i.(ri_TargetJourney) with
       | None => throw (XTarget ErrJourneyUnavailable "unknown journey target")
       | Some _ => mret (i.(ri_TargetJourney), digest)
       end.

(** ** The run *)

Definition reason_name (r : Reason) : string :=
  match r with
  | ReasonMissing => "missing_operation" | ReasonAmbiguous => "ambiguous_operation" | ReasonCollision => "alias_collision"
  | ReasonInvalidAlias => "invalid_alias" | ReasonMaxTools => "max_tools_exceeded" | ReasonVersion => "product_version_out_of_range"
  | Resolve.ReasonPolicyConflict => "policy_conflict"
  end.
(** [unavailableJourney] *)
Definition unavailableJourney (l : list Unavailable) : run_error :=
  XTarget (if existsb (λ u, bool_decide (u.(u_Reason) = Resolve.ReasonPolicyConflict)) l then ErrPolicyConflict
           else ErrJourneyUnavailable)
    (join ", " ((λ u, reason_name u.(u_Reason) +:+ " (" +:+ u.(u_Operation) +:+ ")") <$> l)).

Definition available_journeys (set : DefSet) (b : Binding) : list Journey.Journey :=
  filter (λ j, match Binding_Resolution b j.(j_ID) with Some r => Available r | None => false end = true) (Journeys set).

Section turn.
Context (i : TurnInput) (set : DefSet) (b : Binding).
Definition is_available (id : string) : bool := bool_decide (id ∈ j_ID <$> available_journeys set b).

(** The part of [converse] before the loop: the active set of the run. *)
Definition prepare : running (list string) :=
  let limit := i.(ri_Settings).(s_MaxActiveJourneys) in
  let owner := i.(ri_Owner) in
  let target := i.(ri_TargetJourney) in
  _ ← unless (1 <=? limit) (XMaxActive limit);
  row ← call (λ now, ActiveJourneys now owner);
  let '(persisted, pinned) := row in
  let active := ActiveSet.NewActiveSet persisted in
  let active := foldl (λ a id, if is_available id then a else (ActiveSet.Remove [id] a).1) active active in
  match ActiveSet.Fit limit pinned active with
  | (_, Err e) => throw (XActive e)
  | (active, Ok _) =>
      let continuation := negb (bool_decide (owner.(ow_Command).(c_InteractionID) = "")) in
      active ← (
        if negb (bool_decide (target = "")) && negb (continuation && negb (is_available target)) then
          if negb (is_available target) then
            throw (unavailableJourney (match Binding_Resolution b target with Some r => r.(r_Unavailable) | None => [] end))
          else match ActiveSet.Activate target limit pinned active with
               | (active, Ok _) => mret active
               | (_, Err ActiveSet.ErrRefused) => throw (XTarget ErrActivationRefused "")
               | (_, Err e) => throw (XActive e)
               end
        else mret active);
      _ ← (if bool_decide (persisted = active) then mret tt else call (λ now, SetActiveJourneys now owner active));
      _ ← call (λ now, Check now owner);
      mret active
  end.

Definition conversation_of : Conversation :=
  mk_Conversation rt_framework rt_outside (harness_input i) set b (available_journeys set b)
    i.(ri_Settings).(s_MaxActiveJourneys) rt_tenancy.(tn_HistoryBudget).

(** The loop, from the database and the time where [prepare] left them. *)
Definition loop (active : list string) : running (RunOutput * option herror) := λ st,
  let '(h, (out, e)) := @runHarness _ conversation_of active st.(rs_store).(ls_tick) st.(rs_store).(ls_db) in
  (mk_rstate (mk_lstate h.(hs_db) h.(hs_tick) st.(rs_store).(ls_sets)) (st.(rs_log) ++ (OutLoop <$> h.(hs_log))), Ok (out, e)).

Definition converse : running (RunOutput * option run_error) :=
  active ← prepare;
  o ← loop active;
  mret (o.1, XHarness <$> o.2).
End turn.

(** [catalog.Open]: connecting, then the journaled part. *)
Definition binding_call A (t : Z → tx A) : prog rstate binding_error A := λ st,
  let '(st, r) := call t st in
  (st, match r with
       | Ok a => Ok a
       | Err (XStore (SJournal e)) => Err (EJournal e)
       | Err _ => Err EDatabase
       end).
Definition at_tick {A} (f : nat → result binding_error A) : prog rstate binding_error A := λ st,
  let n := st.(rs_store).(ls_tick) in
  (mk_rstate (with_db st.(rs_store).(ls_db) st.(rs_store)) st.(rs_log), f n).
Definition emit {E} (e : output) : prog rstate E unit := update (λ st, mk_rstate st.(rs_store) (st.(rs_log) ++ [e])).
Definition catalog_open (product : string) (endpoint : Endpoint) (owner : Owner) (set : DefSet)
    : prog rstate binding_error Binding :=
  _ ← unless (ValidEndpoint endpoint) EndpointUnavailable;
  _ ← emit (OutConnect endpoint);
  server ← at_tick (λ n, rt_connect n endpoint);
  opened ← try (open rt_array rt_raw binding_call owner (mk_Scope product endpoint.(ep_id)) set 0 server.1 server.2
    (_ ← emit (OutList endpoint); at_tick (λ n, rt_list n endpoint)));
  match opened with
  | Ok b => mret b
  | Err e => _ ← emit (OutClose endpoint); throw e
  end.

(** [Runner.Run]; the error of the loop comes with an output. *)
Definition run_program (i : TurnInput) : running (RunOutput * option run_error) :=
  _ ← unless (ValidEndpoint i.(ri_Endpoint)) XDependency;
  loaded ← try (stored (Load i.(ri_DefinitionDigest)));
  match loaded with
  | Err _ => throw (XStore (SJournal ErrDefinition))
  | Ok set =>
      _ ← unless (bool_decide (i.(ri_TargetJourney) = "") || bool_decide (is_Some (FindJourney set i.(ri_TargetJourney))))
            (XStore (SJournal ErrDefinition));
      _ ← call (λ now, Check now i.(ri_Owner));
      opened ← try (λ st, let '(st, r) := catalog_open i.(ri_ProductVersion) i.(ri_Endpoint) i.(ri_Owner) set st in
                    (st, match r with Ok b => Ok b | Err e => Err (XCatalog e) end));
      match opened with
      | Err (XCatalog EndpointUnavailable) => throw XDependency
      | Err e => throw e
      | Ok b =>
          o ← try (converse i set b);
          _ ← emit (OutClose i.(ri_Endpoint));
          lift_result o
      end
  end.
Definition Run (i : TurnInput) (st : rstate) : rstate * (RunOutput * option run_error) :=
  match run_program i st with
  | (st, Ok o) => (st, o)
  | (st, Err e) => (st, (zero_output, Some e))
  end.
End runner.
