(* ===== verification/Config.v ===== *)
(** * The process configuration

    [cmd/agent-platform/main.go]: the configuration a server starts with, read
    from the environment, and the [activate] command.  What is started with
    them ([run], [service.New]) is wiring.

    Errors are the texts the code returns; a lookup reads an environment
    variable, empty when it is not set. *)
From Stdlib Require Import Ascii.
From S2P Require Import Prelude GoText Db Service Compile HttpHeader Cost Auth TenantDir GoTime Provider Bundle CompileSet Loader.
From S2P Require Credential Litellm.

#[local] Open Scope Z_scope.
#[local] Set Default Proof Using "Type".

(** A parsed request URI, as far as telemetry looks at it. *)
Record request_uri := mk_request_uri { ru_Scheme : string; ru_Host : string; ru_Path : string }.

(** [net/url]: [ParseRequestURI], and [Parse] as the allowlist and the LiteLLM
    adapter look at it. *)
Class Urls := {
  parse_request_uri : string → option request_uri;
  parse_endpoint : string → option URL;
  parse_provider : string → option provider_url;
}.

Record TelemetryConfig := mk_TelemetryConfig {
  te_ServiceName : string; te_ServiceVersion : string; te_Endpoint : string; te_Headers : gmap string string; te_ShutdownTimeout : Z;
}.
Record config := mk_config {
  cf_databaseURL : string; cf_port : Z; cf_grace : Z; cf_keycloak : KeycloakConfig; cf_foundryEndpoint : string;
  cf_foundryDeployment : string; cf_modelProvider : string; cf_litellm : Litellm.Config; cf_telemetry : TelemetryConfig;
  cf_credentialHeaders : list string; cf_costGate : Gate; cf_historyBudget : Z; cf_tenantDirectoryPath : string;
  cf_settingsPath : string; cf_mcpEndpoints : gmap string string;
}.

Definition missing : string := "required configuration is missing".

Section config.
Context `{urls : Urls}.

Definition require (lookup : string → string) (name : string) : result string string :=
  let value := trim_space (lookup name) in
  if bool_decide (value = "") then Err missing else Ok value.

Fixpoint budget_pairs (l : list string) (budgets : gmap string Z) : result string (gmap string Z) :=
  match l with
  | [] => Ok budgets
  | item :: l =>
      let '(name, tokens, ok) := match cut "=" item with Some (name, tokens) => (name, tokens, true) | None => (item, "", false) end in
      let name := trim_space name in
      let tokens := trim_space tokens in
      match ParseInt tokens with
      | Some count =>
          if negb ok || bool_decide (name = "") || (count <? 1) || bool_decide (is_Some (budgets !! name))
          then Err "invalid history budget configuration"
          else budget_pairs l (<[name := count]> budgets)
      | None => Err "invalid history budget configuration"
      end
  end.
Definition parseHistoryBudget (value model : string) : result string Z :=
  if bool_decide (trim_space value = "") then Err "history budget is missing"
  else
    budgets ← budget_pairs (GoText.split "," value) ∅;
    match budgets !! model with
    | Some budget => Ok budget
    | None => Err "history budget is missing for the configured model"
    end.

Definition splitValues (value : string) : list string :=
  filter (λ v, v ≠ "") (trim_space <$> GoText.split "," value).

(** [chat.JWTSource] of a text. *)
Definition jwt_source (s : string) : JWTSource :=
  if bool_decide (s = "authorization_bearer") then JWTSourceAuthorizationBearer
  else if bool_decide (s = "header") then JWTSourceHeader
  else JWTSourceOther.
Definition keycloakConfig (require : string → result string string) : result string KeycloakConfig :=
  issuer ← require "KEYCLOAK_JWT_ISSUER";
  jwksURL ← require "KEYCLOAK_JWKS_URL";
  audience ← require "KEYCLOAK_JWT_AUDIENCE";
  source ← require "KEYCLOAK_JWT_SOURCE";
  header ← require "KEYCLOAK_JWT_HEADER";
  userPath ← require "KEYCLOAK_USER_CLAIM_PATH";
  tenantPath ← require "KEYCLOAK_TENANT_CLAIM_PATH";
  algorithms ← require "KEYCLOAK_JWT_ALLOWED_ALGORITHMS";
  Ok (mk_KeycloakConfig issuer jwksURL audience (jwt_source source) header userPath tenantPath (splitValues algorithms)).

Definition line_breaks : string := String "013" (String "010" "").
Fixpoint header_items (l : list string) (headers : gmap string string) : result string (gmap string string) :=
  match l with
  | [] => Ok headers
  | item :: l =>
      let '(name, value, ok) := match cut "=" item with Some (name, value) => (name, value, true) | None => (item, "", false) end in
      let name := CanonicalHeaderKey (trim_space name) in
      let value := trim_space value in
      if negb ok || bool_decide (name = "") || bool_decide (value = "") || any_byte (in_set (line_breaks +:+ ":")) name
         || any_byte (in_set line_breaks) value
      then Err "invalid telemetry header configuration"
      else if bool_decide (is_Some (headers !! name)) then Err "invalid telemetry header configuration"
      else header_items l (<[name := value]> headers)
  end.
Definition telemetryHeaders (value : string) : result string (gmap string string) :=
  let value := trim_space value in
  if bool_decide (value = "") then Ok ∅ else header_items (GoText.split "," value) ∅.

Definition telemetryConfig (require : string → result string string) (lookup : string → string) (shutdownTimeout : Z)
    : result string TelemetryConfig :=
  serviceName ← require "OTEL_SERVICE_NAME";
  serviceVersion ← require "OTEL_SERVICE_VERSION";
  headers ← telemetryHeaders (lookup "OTEL_EXPORTER_OTLP_HEADERS");
  let endpoint := trim_space (lookup "OTEL_EXPORTER_OTLP_ENDPOINT") in
  _ ← ensure (bool_decide (endpoint = "") ||
              match parse_request_uri endpoint with
              | Some u => contains u.(ru_Scheme) ["http"; "https"] && negb (bool_decide (u.(ru_Host) = ""))
                          && negb (bool_decide (u.(ru_Path) = "")) && negb (bool_decide (u.(ru_Path) = "/"))
              | None => false
              end) "invalid telemetry endpoint configuration";
  Ok (mk_TelemetryConfig serviceName serviceVersion endpoint headers shutdownTimeout).

Definition litellm_text (e : Litellm.config_error) : string :=
  match e with
  | Litellm.ErrBaseURL => "invalid LiteLLM base URL"
  | Litellm.ErrKeyModel => "LiteLLM API key and model are required"
  end.
(** An error of a part, as a fixed text. *)
Definition fixed {E A} (text : string) (r : result E A) : result string A :=
  match r with Ok a => Ok a | Err _ => Err text end.

(** The endpoint and deployment of Foundry, the configuration of LiteLLM. *)
Definition provider_config (require : string → result string string) (lookup : string → string) (provider : string)
    : result string (string * string * Litellm.Config) :=
  let none := Litellm.mk_Config "" "" "" in
  if bool_decide (provider = "foundry") then
    endpoint ← require "AZ_AGENT_FOUNDRY_PROJECT_ENDPOINT";
    deployment ← require "AZ_AGENT_FOUNDRY_DEPLOYMENT";
    Ok (endpoint, deployment, none)
  else if bool_decide (provider = "litellm") then
    match Litellm.ConfigFromEnv parse_provider lookup with
    | Ok c => Ok ("", "", c)
    | Err e => Err (litellm_text e)
    end
  else Err "invalid model provider".

Definition loadConfig (lookup : option (string → string)) : result string config :=
  match lookup with
  | None => Err "configuration unavailable"
  | Some lookup =>
      let require := require lookup in
      databaseURL ← require "DATABASE_URL";
      portText ← require "AGENT_PLATFORM_PORT";
      port ← match ParseInt portText with
             | Some port => if (port <? 1) || (65535 <? port) then Err "invalid listener configuration" else Ok port
             | None => Err "invalid listener configuration"
             end;
      graceText ← require "AGENT_PLATFORM_SHUTDOWN_GRACE";
      grace ← match ParseDuration graceText with
              | Some grace => if grace <=? 0 then Err "invalid shutdown configuration" else Ok grace
              | None => Err "invalid shutdown configuration"
              end;
      keycloak ← keycloakConfig require;
      let provider := trim_space (lookup "AZ_AGENT_MODEL_PROVIDER") in
      let provider := if bool_decide (provider = "") then "foundry" else provider in
      '(foundryEndpoint, foundryDeployment, litellm) ← provider_config require lookup provider;
      telemetry ← telemetryConfig require lookup grace;
      credentialHeaders ← fixed "invalid credential header configuration" (Credential.ParseHeaderNames (lookup "AGENT_PLATFORM_CREDENTIAL_HEADERS"));
      costGate ← fixed "invalid cost gate configuration" (NewGate (trim_space (lookup "AGENT_PLATFORM_COST_GATE")) (lookup "AGENT_PLATFORM_COST_HEADERS"));
      tenantDirectoryPath ← require "AGENT_PLATFORM_TENANT_DIRECTORY";
      endpointSpec ← require "AGENT_PLATFORM_MCP_ENDPOINTS";
      mcpEndpoints ← match ParseAllowlist parse_endpoint endpointSpec with
                     | Ok a => if bool_decide (AllowlistIDs a = []) then Err "invalid MCP endpoint configuration" else Ok a
                     | Err _ => Err "invalid MCP endpoint configuration"
                     end;
      settingsPath ← require "AGENT_PLATFORM_SETTINGS";
      let configuredModel := if bool_decide (provider = "litellm") then litellm.(Litellm.c_Model) else foundryDeployment in
      historyBudget ← parseHistoryBudget (lookup "AGENT_PLATFORM_HISTORY_BUDGET") configuredModel;
      Ok (mk_config databaseURL port grace keycloak foundryEndpoint foundryDeployment provider litellm telemetry
            credentialHeaders costGate historyBudget tenantDirectoryPath settingsPath mcpEndpoints)
  end.
End config.

(** ** The activate command *)

(** The flags of the command: [bundle], and the boolean [rollback]. *)
Definition activate_flags (name : string) : option bool :=
  if bool_decide (name = "bundle") then Some false else if bool_decide (name = "rollback") then Some true else None.

Definition activateCategory (e : activate_error) : string :=
  match e with
  | AMigrate | ADatabase => "database"
  | ARead _ | ACompile _ => "bundle"
  | ADefinition _ => "unavailable definition"
  end.

Record exit := mk_exit { ex_code : Z; ex_stdout : string; ex_stderr : string }.
Definition newline : string := String "010" "".
Definition fail_with (category : string) : exit :=
  mk_exit 1 "" ("agent platform activation failed: " +:+ category +:+ newline).
Definition report (r : Result) : string :=
  match r.(res_Outcome) with
  | AlreadyCurrent => "already current " +:+ r.(res_Digest) +:+ newline
  | Superseded => "not activated " +:+ r.(res_Digest) +:+ ": activated before (use --rollback); current " +:+ r.(res_Current) +:+ newline
  | Activated => "activated " +:+ r.(res_Digest) +:+ newline
  end.

Section activate.
Context `{codec : Codec} `{yaml : Yaml} `{replica : Replica}.

(** [runActivate]; [connected] is whether the pool could be opened and pinged,
    [dir] the directory of a path. *)
Definition runActivate (args : list string) (lookup : string → string) (connected migrated : bool) (dir : string → hostFS)
    (st : lstate) : lstate * exit :=
  match parse_flags activate_flags args [] with
  | None => (st, fail_with "usage")
  | Some (set, rest) =>
      let bundle := flag_value "bundle" "" set in
      let rollback := bool_decide (flag_value "rollback" "false" set = "true") in
      if negb (bool_decide (rest = [])) || bool_decide (trim_space bundle = "") then (st, fail_with "usage")
      else if bool_decide (trim_space (lookup "DATABASE_URL") = "") then (st, fail_with "configuration")
      else if negb connected then (st, fail_with "database")
      else
        let '(st, r) := Activate migrated (dir bundle) rollback st in
        (st, match r with Err e => fail_with (activateCategory e) | Ok r => mk_exit 0 (report r) "" end)
  end.
End activate.
