(* ===== verification/ConfigSpec.v ===== *)
(** * What a configuration promises

    A process starts only with a configuration it can run with, and a refusal
    names a fixed reason: no value of the environment appears in it. *)
From Stdlib Require Import Ascii.
From S2P Require Import Prelude GoText Db Service Compile HttpHeader Cost Auth TenantDir GoTime Provider Journey Bundle CompileSet Loader Config.
From S2P Require Credential Litellm.

#[local] Open Scope Z_scope.
#[local] Set Default Proof Using "Type".

(** ** The history budget *)

(** What one item of the budget says. *)
Definition entry_of (item : string) : option (string * Z) :=
  '(name, tokens) ← cut "=" item;
  count ← ParseInt (trim_space tokens);
  if bool_decide (trim_space name = "") || (count <? 1) then None else Some (trim_space name, count).

Lemma budget_pairs_step item l m : budget_pairs (item :: l) m =
  match entry_of item with
  | Some (name, count) =>
      if bool_decide (is_Some (m !! name)) then Err "invalid history budget configuration" else budget_pairs l (<[name := count]> m)
  | None => Err "invalid history budget configuration"
  end.
Proof.
  cbn [budget_pairs]. unfold entry_of. destruct (cut "=" item) as [[n t]|]; cbn [mbind option_bind].
  - destruct (ParseInt (trim_space t)) as [k|]; [|done]. cbn [mbind option_bind negb orb].
    destruct (bool_decide (trim_space n = "") || (k <? 1)); [done|]. by destruct (bool_decide _).
  - by destruct (ParseInt _).
Qed.

Lemma budget_pairs_iff l : ∀ m out, budget_pairs l m = Ok out ↔
  ∃ entries, Forall2 (λ item e, entry_of item = Some e) l entries ∧ NoDup (fst <$> entries) ∧
    (∀ e, e ∈ entries → m !! e.1 = None) ∧ out = list_to_map entries ∪ m.
Proof.
  induction l as [|item l IH]; intros m out.
  { cbn [budget_pairs]. split.
    - intros [= <-]. exists []. split_and!; [constructor|constructor|by intros e ?%elem_of_nil|]. by rewrite list_to_map_nil, (left_id_L ∅ (∪)).
    - intros (entries & ->%Forall2_nil_inv_l & _ & _ & ->). by rewrite list_to_map_nil, (left_id_L ∅ (∪)). }
  rewrite budget_pairs_step. split.
  - destruct (entry_of item) as [[name count]|] eqn:E; [|done]. case_bool_decide as Hd; [done|]. apply eq_None_not_Some in Hd.
    intros (entries & Hl & Hn & Hm & ->)%IH. exists ((name, count) :: entries).
    assert (∀ e, e ∈ entries → e.1 ≠ name ∧ m !! e.1 = None) as Hm'.
    { intros e He. specialize (Hm e He). by apply lookup_insert_None in Hm as [? ?]. }
    split_and!; [by constructor| | |].
    + cbn. constructor; [|done]. intros (e & -> & He)%list_elem_of_fmap. by destruct (Hm' e He).
    + intros e [->|He]%elem_of_cons; [done|by apply Hm'].
    + rewrite list_to_map_cons. rewrite <- insert_union_l. rewrite insert_union_r; [done|].
      apply (not_elem_of_list_to_map_1 (M := gmap string)). intros (e & Hx & He)%list_elem_of_fmap. by destruct (Hm' e He).
  - intros (entries & Hl & Hn & Hm & ->). apply Forall2_cons_inv_l in Hl as ([name count] & entries' & -> & Hl & ->).
    assert (m !! name = None) as Hname by (apply (Hm (name, count)); by left).
    rewrite bool_decide_eq_false_2 by (rewrite Hname; by intros [? ?]). cbn in Hn. apply NoDup_cons in Hn as [Hnot Hn].
    apply IH. exists entries'. split_and!; [done|done| |].
    + intros e He. rewrite lookup_insert_ne; [apply Hm; by right|]. intros ->. apply Hnot, list_elem_of_fmap. by exists e.
    + rewrite list_to_map_cons, <- insert_union_l. rewrite insert_union_r; [done|].
      by apply (not_elem_of_list_to_map_1 (M := gmap string)).
Qed.

(** A model's history budget is read exactly when every item of the setting
    is a model with a positive number and no model is listed twice, and it is
    the number listed for the model. *)
Theorem parseHistoryBudget_iff (value model : string) (budget : Z) :
  parseHistoryBudget value model = Ok budget ↔
  trim_space value ≠ "" ∧
  ∃ entries, Forall2 (λ item e, entry_of item = Some e) (GoText.split "," value) entries ∧ NoDup (fst <$> entries) ∧
    (model, budget) ∈ entries.
Proof.
  unfold parseHistoryBudget. split.
  - case_bool_decide as Hv; [done|]. intros (m & Hm & H)%bind_ok. apply budget_pairs_iff in Hm as (entries & Hl & Hn & _ & ->).
    split; [done|]. exists entries. split_and!; [done|done|]. rewrite (right_id_L ∅ (∪)) in H.
    destruct (list_to_map entries !! model) as [b|] eqn:E; [|done]. injection H as ->.
    by apply elem_of_list_to_map_2 in E.
  - intros (Hne & entries & Hl & Hn & Hin).
    rewrite bool_decide_eq_false_2 by done. apply bind_ok. exists (list_to_map entries). split.
    + apply budget_pairs_iff. exists entries. split_and!; [done|done|by intros; apply lookup_empty|]. by rewrite (right_id_L ∅ (∪)).
    + by rewrite (elem_of_list_to_map_1 (M := gmap string) _ _ _ Hn Hin).
Qed.

(** ** Every reason is fixed *)

Definition startup_errors : list string :=
  ["configuration unavailable"; missing; "invalid listener configuration"; "invalid shutdown configuration"; "invalid LiteLLM base URL";
   "LiteLLM API key and model are required"; "invalid model provider"; "invalid telemetry header configuration";
   "invalid telemetry endpoint configuration"; "invalid credential header configuration"; "invalid cost gate configuration";
   "invalid MCP endpoint configuration"; "history budget is missing"; "invalid history budget configuration";
   "history budget is missing for the configured model"].

(** What a result says, one way or the other. *)
Definition says {A} (P : A → Prop) (r : result string A) : Prop :=
  match r with Ok a => P a | Err e => e ∈ startup_errors end.

Lemma says_bind {A B} (P : A → Prop) (Q : B → Prop) (r : result string A) (f : A → result string B) :
  says P r → (∀ a, P a → says Q (f a)) → says Q (r ≫= f).
Proof. destruct r; simpl; auto. Qed.
Lemma says_mono {A} (P Q : A → Prop) (r : result string A) : says P r → (∀ a, P a → Q a) → says Q r.
Proof. destruct r; simpl; auto. Qed.

Ltac fixed_text := simpl; apply (bool_decide_unpack _); vm_compute; reflexivity.

Section load.
Context `{urls : Urls} (lookup : string → string).

(** A variable that must be set. *)
Definition is_set (name value : string) : Prop := value = trim_space (lookup name) ∧ value ≠ "".
Lemma require_says name : says (is_set name) (require lookup name).
Proof. unfold require. cbv zeta. case_bool_decide; [fixed_text|done]. Qed.

Definition usable_keycloak (k : KeycloakConfig) : Prop :=
  Forall (λ v, v ≠ "") [k.(kc_Issuer); k.(kc_JWKSURL); k.(kc_Audience); k.(kc_JWTHeader); k.(kc_UserClaimPath); k.(kc_TenantClaimPath)].
Lemma keycloak_says : says usable_keycloak (keycloakConfig (require lookup)).
Proof.
  unfold keycloakConfig. repeat (eapply says_bind; [apply require_says|intros ? [_ ?]]). repeat constructor; done.
Qed.

Definition usable_telemetry (t : TelemetryConfig) : Prop :=
  t.(te_ServiceName) ≠ "" ∧ t.(te_ServiceVersion) ≠ "" ∧
  (t.(te_Endpoint) = "" ∨ ∃ u, parse_request_uri t.(te_Endpoint) = Some u ∧ u.(ru_Scheme) ∈ ["http"; "https"] ∧ u.(ru_Host) ≠ "") ∧
  ∀ name v, t.(te_Headers) !! name = Some v → name ≠ "" ∧ v ≠ "" ∧ any_byte (in_set line_breaks) v = false.

Definition header_ok (name v : string) : Prop := name ≠ "" ∧ v ≠ "" ∧ any_byte (in_set line_breaks) v = false.
Lemma header_items_says l : ∀ m, map_Forall header_ok m → says (map_Forall header_ok) (header_items l m).
Proof.
  induction l as [|item l IH]; intros m Hm; [done|]. cbn [header_items].
  match goal with |- context [let (_, _) := ?q in _] => destruct q as [[name v] ok] end. cbv zeta.
  destruct (_ || any_byte (in_set line_breaks) _) eqn:E; [fixed_text|]. rewrite !orb_false_iff, !bool_decide_eq_false in E. destruct E as [[[[_ Hn] Hv] _] Hb].
  case_bool_decide; [fixed_text|]. apply IH, map_Forall_insert_2; [done|exact Hm].
Qed.

Lemma telemetry_says grace : says usable_telemetry (telemetryConfig (require lookup) lookup grace).
Proof.
  unfold telemetryConfig. eapply says_bind; [apply require_says|intros name [_ Hn]]. eapply says_bind; [apply require_says|intros version [_ Hv]].
  apply (says_bind (map_Forall header_ok)); [|intros headers Hh].
  { unfold telemetryHeaders. cbv zeta. case_bool_decide; [apply map_Forall_empty|]. apply header_items_says, map_Forall_empty. }
  cbv zeta. set (endpoint := trim_space _). unfold ensure. destruct (_ || _) eqn:E; [|fixed_text]. unfold usable_telemetry. cbn. split_and!; [done|done| |exact Hh].
  apply orb_true_iff in E as [E%bool_decide_eq_true|E]; [by left|right]. destruct (parse_request_uri endpoint) as [u|]; [|done].
  exists u. rewrite !andb_true_iff, contains_true, !negb_true_iff, !bool_decide_eq_false in E. naive_solver.
Qed.

Definition usable_litellm (c : Litellm.Config) : Prop :=
  c.(Litellm.c_APIKey) ≠ "" ∧ c.(Litellm.c_Model) ≠ "" ∧
  ∃ u, parse_provider c.(Litellm.c_BaseURL) = Some u ∧ u.(u_Scheme) ∈ ["http"; "https"] ∧ u.(u_Host) ≠ "" ∧ u.(u_User) = false.
Lemma litellm_usable c : Litellm.ConfigFromEnv parse_provider lookup = Ok c → usable_litellm c.
Proof.
  unfold Litellm.ConfigFromEnv, Litellm.validate. cbv zeta. cbn [Litellm.c_BaseURL Litellm.c_APIKey Litellm.c_Model].
  destruct (parse_provider _) as [u|] eqn:U; [|done]. destruct (_ || _) eqn:E1; [done|]. destruct (bool_decide _ || _) eqn:E2; [done|].
  intros [= <-]. unfold usable_litellm. cbn [Litellm.c_BaseURL Litellm.c_APIKey Litellm.c_Model].
  rewrite orb_false_iff, !bool_decide_eq_false in E2. rewrite !orb_false_iff, andb_false_iff, !negb_false_iff, !bool_decide_eq_true, bool_decide_eq_false in E1.
  destruct E1 as [[[[Hs Hh] Hu] _] _], E2 as [? ?]. split_and!; [done|done|]. exists u. split_and!; try done. set_solver.
Qed.

Definition usable_provider (provider : string) (p : string * string * Litellm.Config) : Prop :=
  provider = "foundry" ∧ p.1.1 ≠ "" ∧ p.1.2 ≠ "" ∨ provider = "litellm" ∧ usable_litellm p.2.
Lemma provider_says provider : says (usable_provider provider) (provider_config (require lookup) lookup provider).
Proof.
  unfold provider_config. case_bool_decide as H1.
  { eapply says_bind; [apply require_says|intros endpoint [_ He]]. eapply says_bind; [apply require_says|intros deployment [_ Hd]]. by left. }
  case_bool_decide as H2; [|fixed_text]. destruct (Litellm.ConfigFromEnv _ _) as [c|e] eqn:E; [|destruct e; fixed_text].
  right. split; [done|]. by apply litellm_usable.
Qed.

Lemma budget_pairs_says l : ∀ m, map_Forall (λ _ n, 1 <= n) m → says (map_Forall (λ _ n, 1 <= n)) (budget_pairs l m).
Proof.
  induction l as [|item l IH]; intros m Hm; [done|]. rewrite budget_pairs_step. unfold entry_of.
  destruct (cut "=" item) as [[n t]|]; [|fixed_text]. cbn [mbind option_bind]. destruct (ParseInt _) as [k|]; [|fixed_text]. cbn [mbind option_bind].
  destruct (bool_decide _ || _) eqn:E; [fixed_text|]. case_match; [fixed_text|]. apply orb_false_iff in E as [_ E%Z.ltb_ge].
  by apply IH, map_Forall_insert_2.
Qed.
Lemma budget_says value model : says (λ n, 1 <= n) (parseHistoryBudget value model).
Proof.
  unfold parseHistoryBudget. case_bool_decide; [fixed_text|].
  eapply says_bind; [apply budget_pairs_says, map_Forall_empty|]. intros m Hm. destruct (m !! model) as [b|] eqn:E; [|fixed_text].
  by apply Hm in E.
Qed.

(** What a process starts with. *)
Record usable (c : config) : Prop := {
  us_port : 1 <= c.(cf_port) <= 65535;
  us_grace : 0 < c.(cf_grace) <= MaxInt64;
  us_texts : Forall (λ v, v ≠ "") [c.(cf_databaseURL); c.(cf_tenantDirectoryPath); c.(cf_settingsPath)];
  us_keycloak : usable_keycloak c.(cf_keycloak);
  us_provider : usable_provider c.(cf_modelProvider) (c.(cf_foundryEndpoint), c.(cf_foundryDeployment), c.(cf_litellm));
  us_telemetry : usable_telemetry c.(cf_telemetry);
  us_credentials : Credential.names_ok c.(cf_credentialHeaders);
  us_endpoints : AllowlistIDs c.(cf_mcpEndpoints) ≠ [] ∧ ∀ id u, c.(cf_mcpEndpoints) !! id = Some u →
    ∃ raw, has_item (trim_space (lookup "AGENT_PLATFORM_MCP_ENDPOINTS")) id raw ∧ good_url parse_endpoint raw u;
  us_budget : 1 <= c.(cf_historyBudget);
}.
End load.

Lemma fixed_says {E A} (P : A → Prop) text (r : result E A) : text ∈ startup_errors → (∀ a, r = Ok a → P a) → says P (fixed text r).
Proof. destruct r; simpl; auto. Qed.

Lemma loadConfig_says `{urls : Urls} (lookup : option (string → string)) :
  says (λ c, ∃ env, lookup = Some env ∧ usable env c) (loadConfig lookup).
Proof.
  destruct lookup as [env|]; [|fixed_text]. unfold loadConfig. cbv zeta.
  eapply says_bind; [apply require_says|intros database [_ Hdb]]. eapply says_bind; [apply require_says|intros portText _].
  apply (says_bind (λ port, 1 <= port <= 65535)); [|intros port Hport].
  { destruct (ParseInt portText) as [port|]; [|fixed_text]. destruct (_ || _) eqn:E; [fixed_text|].
    apply orb_false_iff in E as [E1%Z.ltb_ge E2%Z.ltb_ge]. done. }
  eapply says_bind; [apply require_says|intros graceText _].
  apply (says_bind (λ grace, 0 < grace <= MaxInt64)); [|intros grace Hgrace].
  { destruct (ParseDuration graceText) as [grace|] eqn:E; [|fixed_text]. apply ParseDuration_range in E.
    destruct (Z.leb_spec grace 0); [fixed_text|]. simpl. lia. }
  eapply says_bind; [apply keycloak_says|intros keycloak Hk]. set (provider := if bool_decide _ then "foundry" else _).
  eapply says_bind; [apply provider_says|intros [[endpoint deployment] litellm] Hp]. eapply says_bind; [apply telemetry_says|intros telemetry Ht].
  eapply says_bind; [apply fixed_says; [fixed_text|intros a; apply Credential.ParseHeaderNames_ok]|intros names Hnames].
  apply (says_bind (λ _, True)); [apply fixed_says; [fixed_text|done]|intros gate _].
  eapply says_bind; [apply require_says|intros directory [_ Hd]]. eapply says_bind; [apply require_says|intros spec [-> _]].
  apply (says_bind (λ a, AllowlistIDs a ≠ [] ∧ ∀ id u, a !! id = Some u →
    ∃ raw, has_item (trim_space (env "AGENT_PLATFORM_MCP_ENDPOINTS")) id raw ∧ good_url parse_endpoint raw u)); [|intros endpoints He].
  { destruct (ParseAllowlist _ _) as [a|] eqn:E; [|fixed_text]. case_bool_decide as Ha; [fixed_text|]. split; [done|].
    intros id u Hu. destruct (ParseAllowlist_ok _ _ _ _ _ E Hu) as (raw & ? & _ & ?). by exists raw. }
  eapply says_bind; [apply require_says|intros settings [_ Hs]]. eapply says_bind; [apply budget_says|intros budget Hb].
  exists env. split; [done|]. constructor; try done. by repeat constructor.
Qed.

(** A server starts only with a configuration it can run with: a port, a
    positive grace period, the settings of its identity provider, one usable
    model provider, at least one tool endpoint, each with a valid URL the
    operator listed, no reserved credential header, and a positive history
    budget.  Otherwise it stops with one of fifteen fixed texts, whatever the
    environment holds, so no secret of it is in the reason. *)
Theorem loadConfig_usable `{urls : Urls} (lookup : option (string → string)) :
  match loadConfig lookup with
  | Ok c => ∃ env, lookup = Some env ∧ usable env c
  | Err e => e ∈ startup_errors
  end.
Proof. apply (loadConfig_says lookup). Qed.

(** ** The activate command *)

Section activate.
Context `{codec : Codec} `{yaml : Yaml} `{replica : Replica}.

(** A result is about the candidate. *)
Definition about (c : string) (r : Result) : Prop := r.(res_Digest) = c ∧ (r.(res_Outcome) ≠ Superseded → r.(res_Current) = c).

Lemma attempt_about rollback c st st' r : attempt rollback c st = (st', Ok (Some r)) → about c r.
Proof.
  unfold attempt. intros (current & st1 & _ & H)%svc_bind_ok. case_bool_decide as Hc; [by injection H as <- <-|].
  apply svc_bind_ok in H as (before & st2 & _ & H). destruct before; [by injection H as <- <-|].
  apply svc_bind_ok in H as (referenced & st3 & _ & H). apply svc_bind_ok in H as (u & st4 & _ & H).
  rewrite asks_bind in H. apply svc_bind_ok in H as (res & st5 & _ & H). destruct res as [[]|[[]|]]; try discriminate H.
  - by injection H as <- <-.
  - apply svc_bind_ok in H as (cur & st6 & _ & H). by injection H as <- <-.
Qed.
Lemma attempts_about n rollback c : ∀ st st' r, attempts n rollback c st = (st', Ok r) → about c r.
Proof.
  induction n as [|n IH]; intros st st' r; [done|]. cbn [attempts]. intros (o & st1 & H1 & H)%svc_bind_ok.
  destruct o as [res|]; [|by eapply IH]. injection H as <- <-. by eapply attempt_about.
Qed.
Lemma Activate_about migrated fsys rollback st st' r : Activate migrated fsys rollback st = (st', Ok r) →
  ∃ b set, ReadBundle fsys = Ok b ∧ CompileBundle b = Ok set ∧ about set.(set_digest) r.
Proof.
  unfold Activate. intros (u & st1 & _ & H)%svc_bind_ok. apply svc_bind_ok in H as (b & st2 & Hb & H).
  apply svc_bind_ok in H as (set & st3 & Hset & H). cbv zeta in H. apply svc_bind_ok in H as (u2 & st4 & _ & H).
  apply svc_bind_ok in H as (u3 & st5 & _ & H). apply attempts_about in H.
  exists b, set. unfold lift_result in Hb, Hset. split_and!; [| |done].
  - destruct (ReadBundle fsys); [|done]. by injection Hb as <- <-.
  - destruct (CompileBundle b); [|done]. by injection Hset as <- <-.
Qed.

(** What an init container reports: when it exits with 0, the bundle it was
    pointed to was read and compiled, and it prints the result of its
    activation, which is about that set's digest and, unless it was superseded,
    says that it is current; otherwise it exits with 1 and one of five fixed lines, whatever
    the bundle, the environment or the database held. *)
Theorem runActivate_reports (args : list string) (lookup : string → string) (connected migrated : bool) (dir : string → hostFS) (st : lstate) :
  let x := (runActivate args lookup connected migrated dir st).2 in
  x.(ex_code) = 1 ∧ x.(ex_stdout) = "" ∧
    (∃ c, c ∈ ["usage"; "configuration"; "database"; "bundle"; "unavailable definition"] ∧ x = fail_with c) ∨
  x.(ex_code) = 0 ∧ x.(ex_stderr) = "" ∧
    ∃ flags b set r, parse_flags activate_flags args [] = Some (flags, []) ∧ ReadBundle (dir (flag_value "bundle" "" flags)) = Ok b ∧
      CompileBundle b = Ok set ∧
      about set.(set_digest) r ∧ x.(ex_stdout) = report r.
Proof.
  cbv zeta. unfold runActivate.
  assert (∀ c, bool_decide (c ∈ ["usage"; "configuration"; "database"; "bundle"; "unavailable definition"]) = true →
    let x := fail_with c in x.(ex_code) = 1 ∧ x.(ex_stdout) = "" ∧
    ∃ c, c ∈ ["usage"; "configuration"; "database"; "bundle"; "unavailable definition"] ∧ x = fail_with c) as Hfail.
  { intros c Hc%bool_decide_eq_true. cbv zeta. split_and!; [done|done|by exists c]. }
  destruct (parse_flags _ args _) as [[flags rest]|] eqn:F; [|left; by apply Hfail]. cbv zeta.
  destruct (_ || _) eqn:E; [left; by apply Hfail|]. apply orb_false_iff in E as [E%negb_false_iff%bool_decide_eq_true _]. subst rest.
  destruct (bool_decide (trim_space (lookup _) = "")); [left; by apply Hfail|].
  destruct connected; [|left; by apply Hfail]. cbn [negb].
  destruct (Activate migrated _ _ st) as [st' [r|e]] eqn:A; cbn [snd].
  - right. apply Activate_about in A as (b & set & Hb & Hset & Hr). split_and!; [done|done|]. by exists flags, b, set, r.
  - left. destruct e; by apply Hfail.
Qed.
End activate.

(** ** A configuration that loads *)

Definition demo_environment : list (string * string) :=
  [("DATABASE_URL", "postgres://db"); ("AGENT_PLATFORM_PORT", "8080"); ("AGENT_PLATFORM_SHUTDOWN_GRACE", "1m30s");
   ("KEYCLOAK_JWT_ISSUER", "https://kc"); ("KEYCLOAK_JWKS_URL", "https://kc/certs"); ("KEYCLOAK_JWT_AUDIENCE", "agent");
   ("KEYCLOAK_JWT_SOURCE", "authorization_bearer"); ("KEYCLOAK_JWT_HEADER", "Authorization"); ("KEYCLOAK_USER_CLAIM_PATH", "/sub");
   ("KEYCLOAK_TENANT_CLAIM_PATH", "/tenant"); ("KEYCLOAK_JWT_ALLOWED_ALGORITHMS", "RS256, RS384"); ("AZ_AGENT_MODEL_PROVIDER", "litellm");
   ("AZ_AGENT_LITELLM_BASE_URL", "https://llm/"); ("AZ_AGENT_LITELLM_API_KEY", "k"); ("AZ_AGENT_LITELLM_MODEL", "gpt");
   ("OTEL_SERVICE_NAME", "agent"); ("OTEL_SERVICE_VERSION", "1"); ("AGENT_PLATFORM_TENANT_DIRECTORY", "/tenants.yaml");
   ("AGENT_PLATFORM_MCP_ENDPOINTS", "main=https://mcp/v1"); ("AGENT_PLATFORM_SETTINGS", "/settings.yaml");
   ("AGENT_PLATFORM_HISTORY_BUDGET", "other=10, gpt=2000")].
Definition demo_lookup (name : string) : string := default "" (assoc name demo_environment).
#[local] Instance demo_urls : Urls := {|
  parse_request_uri := λ s, Some (mk_request_uri "https" "h" "/v1"); parse_endpoint := λ s, Some (mk_URL true "https" "mcp" false "" "" s);
  parse_provider := λ s, Some (mk_provider_url "https" "llm" false "" "") |}.
Example demo_loads : (λ c, (c.(cf_port), c.(cf_grace), c.(cf_litellm), c.(cf_historyBudget), c.(cf_mcpEndpoints))) <$>
    match loadConfig (Some demo_lookup) with Ok c => Some c | Err _ => None end =
  Some (8080, 90 * Second, Litellm.mk_Config "https://llm" "k" "gpt", 2000, {["main" := "https://mcp/v1"]}).
Proof. vm_compute. reflexivity. Qed.
Example demo_refused : loadConfig (Some (λ name, if bool_decide (name = "AGENT_PLATFORM_PORT") then "65536" else demo_lookup name)) =
  Err "invalid listener configuration".
Proof. vm_compute. reflexivity. Qed.
