(* ===== verification/Platform.v ===== *)
(** * The platform

    [internal/platform/platform.go]: admission of a command and the execution of
    the run it starts, readiness and draining, and observation.

    A worker's goroutine is [execute].  The renewal of its lease and the reaper
    are other processes as far as the worker is concerned: their transactions
    are among those of [x_others], and a renewal that fails cancels the
    context ([x_cancelled]).  The loop that starts over when a command was
    admitted at the last moment has no bound in the code; [execute] takes the
    number of its rounds to look at, and says when that was not enough. *)
From S2P Require Import Prelude GoText Db CallBinding JournalCore Commands Owners Runs Records Service.
From S2P Require Import Settings TenantDir Binding Guard Bundle CompileSet Loader Cost Harness Runner.
From S2P Require ActiveSet.

Definition LeaseDuration : Z := 15 * 10 ^ 9.

(** ** Errors *)

(** [errors.Is(err, journal.ErrOwnership)] *)
Definition is_ownership (e : run_error) : bool :=
  match e with
  | XStore (SJournal e) | XCatalog (EJournal e) => bool_decide (e = ErrOwnership)
  | XHarness e => is_journal ErrOwnership e
  | _ => false
  end.

Fixpoint harness_limit (e : herror) : option LimitError :=
  match e with
  | HModel (MLimit kind retryAfter) => Some (mk_LimitError kind retryAfter)
  | HRequest e => harness_limit e
  | _ => None
  end.
(** [errors.As(err, &limit)] *)
Definition as_limit (e : run_error) : option LimitError :=
  match e with
  | XLimit e => Some e
  | XHarness e => harness_limit e
  | _ => None
  end.

Fixpoint harness_auth (e : herror) : bool :=
  match e with
  | HGuard GAuthRequired | HModel MAuthRequired => true
  | HRequest e => harness_auth e
  | _ => false
  end.
(** [errors.Is(err, catalog.ErrAuthRequired)] *)
Definition is_auth (e : run_error) : bool :=
  match e with
  | XCatalog EAuthRequired => true
  | XHarness e => harness_auth e
  | _ => false
  end.

Definition failureReason (e : run_error) : string :=
  match e with
  | XTarget ErrActivationRefused _ => ReasonActivationRefused
  | XTarget ErrPolicyConflict _ => Db.ReasonPolicyConflict
  | XTarget ErrJourneyUnavailable _ => ReasonJourneyUnavailable
  | _ => ""
  end.

(** The state a run ends in. *)
Definition final_state (err : option run_error) : RunState :=
  match err with
  | None => RunCompleted
  | Some e => match e with
              | XDependency => RunDependencyUnavailable
              | _ => if is_auth e then RunAuthRequired else RunFailed
              end
  end.

(** ** Executing a run *)

(** How a worker ends; [Unfinished] is a round not looked at. *)
Inductive ending :=
| Waiting
| Dropped
| Settled (r : result run_error unit)
| Unfinished.

Section platform.
Context `{codec : Codec} `{yaml : Yaml} `{runtime : Runtime}.
Abbreviation running := (prog rstate run_error).

Definition with_scope (s : RunScope) (i : TurnInput) : TurnInput :=
  mk_TurnInput i.(ri_Owner) i.(ri_Iteration) i.(ri_History) i.(ri_ThreadID) i.(ri_RunID) i.(ri_Principal) i.(ri_Tenant)
    i.(ri_TargetJourney) i.(ri_DefinitionDigest) s.(sc_Entry).(en_ProductVersion) s.(sc_endpoint) s.(sc_Settings) i.(ri_Attribution).
Definition with_definition (target digest : string) (i : TurnInput) : TurnInput :=
  mk_TurnInput i.(ri_Owner) i.(ri_Iteration) i.(ri_History) i.(ri_ThreadID) i.(ri_RunID) i.(ri_Principal) i.(ri_Tenant)
    target digest i.(ri_ProductVersion) i.(ri_Endpoint) i.(ri_Settings) i.(ri_Attribution).
Definition with_attribution (a : Attribution) (i : TurnInput) : TurnInput :=
  mk_TurnInput i.(ri_Owner) i.(ri_Iteration) i.(ri_History) i.(ri_ThreadID) i.(ri_RunID) i.(ri_Principal) i.(ri_Tenant)
    i.(ri_TargetJourney) i.(ri_DefinitionDigest) i.(ri_ProductVersion) i.(ri_Endpoint) i.(ri_Settings) a.
Definition with_history (iteration : Z) (history : string) (i : TurnInput) : TurnInput :=
  mk_TurnInput i.(ri_Owner) iteration history i.(ri_ThreadID) i.(ri_RunID) i.(ri_Principal) i.(ri_Tenant)
    i.(ri_TargetJourney) i.(ri_DefinitionDigest) i.(ri_ProductVersion) i.(ri_Endpoint) i.(ri_Settings) i.(ri_Attribution).

(** What precedes the first round, once per run. *)
Definition begin_run (i : TurnInput) : running TurnInput :=
  scope ← ScopeOf i;
  let i := with_scope scope i in
  bound ← BindingOf i;
  let i := with_definition bound.1 bound.2 i in
  admitted ← RunAdmit i;
  let i := with_attribution admitted.1 i in
  history ← call (λ now, Start now i.(ri_Owner) bound.1 bound.2);
  mret (with_history i.(ri_Iteration) history i).

(** The transaction that ends a run. *)
Definition conclude (i : TurnInput) (out : RunOutput) (err : option run_error) : running unit :=
  let owner := i.(ri_Owner) in
  match err ≫= as_limit with
  | Some limit =>
      call (λ now, FinishLimitExceeded now owner out.(out_History) limit.(le_Kind) limit.(le_RetryAfter))
  | None =>
      let state := final_state err in
      let reason := match err with Some e => failureReason e | None => "" end in
      if bool_decide (state = RunFailed) && negb (bool_decide (reason = ""))
      then call (λ now, FinishFailed now owner out.(out_History) reason)
      else call (λ now, Finish now owner state out.(out_History) out.(out_Answer) "" "")
  end.

(** One round after [Run]: [None] is another round. *)
Definition finish_round (i : TurnInput) (out : RunOutput) (err : option run_error) (st : rstate) : rstate * option ending :=
  if out.(out_Waiting) then (st, Some Waiting)
  else
    match is_cancelled st with
    | (st, Ok true) => (st, Some Dropped)
    | (st, _) =>
        if match err with Some e => is_ownership e | None => false end then (st, Some Dropped)
        else
          let '(st, r) := conclude i out err st in
          match err ≫= as_limit, r with
          | None, Err (XStore (SJournal ErrPending)) => (st, None)
          | _, _ => (st, Some (Settled r))
          end
    end.

Fixpoint run_rounds (n : nat) (i : TurnInput) (err : option run_error) (st : rstate) : rstate * ending :=
  match n with
  | O => (st, Unfinished)
  | S n =>
      let '(st, (out, err)) := match err with None => Run i st | Some e => (st, (zero_output, Some e)) end in
      match finish_round i out err st with
      | (st, Some e) => (st, e)
      | (st, None) => run_rounds n (with_history (i.(ri_Iteration) + 1) out.(out_History) i) err st
      end
  end.

Definition execute (n : nat) (i : TurnInput) (st : rstate) : rstate * ending :=
  match begin_run i st with
  | (st, Ok i) => run_rounds n i None st
  | (st, Err e) => run_rounds n i (Some e) st
  end.

(** ** Submitting a command *)

Inductive submit_error := ErrDraining | SubmitCanceled | SubmitError (e : run_error).

Record pstate := mk_pstate { ps_closed : bool; ps_draining : bool; ps_runs : nat; ps_state : rstate }.

Definition zero_settings : Settings := mk_Settings 0 "" 0 "".
Definition turn_input (c : Command) (target : string) (owner : Owner) : TurnInput :=
  mk_TurnInput owner 0 "" c.(c_ThreadID) c.(c_RunID) c.(c_Principal) c.(c_Tenant) target "" "" zeroEndpoint zero_settings
    (mk_Attribution "" "" "" "" "").

Definition run_snapshot (c : Command) : running SnapshotView :=
  call (query (Snapshot c.(c_ThreadID) c.(c_Principal))).
Definition mine (c : Command) (v : RunView) : bool := bool_decide (v.(rv_RunID) = c.(c_RunID)).

(** Admission, and the input of the worker when one is started. *)
Definition admission (ownerID : string) (c : Command) : running (Receipt * option TurnInput) :=
  let replying := negb (bool_decide (c.(c_InteractionID) = "")) in
  r ← call (λ now, Commands.Admit now c);
  match r with
  | Err e => throw (XStore (SJournal e))
  | Ok (receipt, fresh) =>
      fresh ← (
        if negb fresh && replying then
          view ← run_snapshot c;
          mret (existsb (λ v, mine c v && bool_decide (v.(rv_State) = RunPending)) view.(sv_Runs))
        else mret fresh);
      if (fresh : bool) then
        target ← (
          if replying then
            view ← run_snapshot c;
            mret (foldl (λ t v, if mine c v then v.(rv_JourneyID) else t) c.(c_TargetJourney) view.(sv_Runs))
          else mret c.(c_TargetJourney));
        owner ← call (λ now, Claim now c ownerID LeaseDuration);
        mret (receipt, Some (turn_input c target owner))
      else mret (receipt, None)
  end.

(** The gate of [Submit]: past it the command is counted, so [Drain] waits for
    it; [leave] is the [Done] of that count. *)
Definition enter (p : pstate) : result submit_error pstate :=
  if p.(ps_closed) then Err SubmitCanceled
  else if p.(ps_draining) then Err ErrDraining
  else Ok (mk_pstate p.(ps_closed) p.(ps_draining) (S p.(ps_runs)) p.(ps_state)).
Definition leave (p : pstate) : pstate := mk_pstate p.(ps_closed) p.(ps_draining) (pred p.(ps_runs)) p.(ps_state).
Definition work (st : rstate) (p : pstate) : pstate := mk_pstate p.(ps_closed) p.(ps_draining) p.(ps_runs) st.

(** A worker keeps the count until it ends. *)
Definition Submit (ownerID : string) (c : Command) (p : pstate) : pstate * result submit_error (Receipt * option TurnInput) :=
  match enter p with
  | Err e => (p, Err e)
  | Ok p =>
      let '(st, r) := admission ownerID c p.(ps_state) in
      let p := work st p in
      match r with
      | Ok (receipt, Some i) => (p, Ok (receipt, Some i))
      | Ok (receipt, None) => (leave p, Ok (receipt, None))
      | Err e => (leave p, Err (SubmitError e))
      end
  end.

(** ** Readiness and draining *)

Definition BeginDrain (p : pstate) : pstate := mk_pstate p.(ps_closed) true p.(ps_runs) p.(ps_state).
Definition Close (p : pstate) : pstate := mk_pstate true true p.(ps_runs) p.(ps_state).

Definition PlatformReady (p : pstate) : pstate * result run_error bool :=
  if p.(ps_closed) || p.(ps_draining) then (p, Ok false)
  else let '(st, r) := Ready p.(ps_state) in (work st p, r).

(** What happens to a platform, in any order: a command passes the gate, the
    database moves under an admission, a worker or another process, a command or
    worker that was counted ends, and the signals of a shutdown. *)
Inductive platform_step : pstate → pstate → Prop :=
| step_enter p p' : enter p = Ok p' → platform_step p p'
| step_work p st : platform_step p (work st p)
| step_leave p : p.(ps_runs) ≠ 0%nat → platform_step p (leave p)
| step_drain p : platform_step p (BeginDrain p)
| step_close p : platform_step p (Close p).

(** ** Observation *)

(** One poll of [Observe]: the events it sends and the cursor after them. *)
Definition poll (thread principal : string) (after : Z) : running (list Event * Z) :=
  batch ← call (query (Events thread principal after));
  mret (batch, foldl (λ _ e, e.(e_Sequence)) after batch).

(** What [n] polls send, and the error that ended them. *)
Fixpoint polls (n : nat) (thread principal : string) (after : Z) (st : rstate) : rstate * (list Event * option run_error) :=
  match n with
  | O => (st, ([], None))
  | S n =>
      match poll thread principal after st with
      | (st, Err e) => (st, ([], Some e))
      | (st, Ok (batch, after)) =>
          let '(st, (events, e)) := polls n thread principal after st in (st, (batch ++ events, e))
      end
  end.

Definition tail (n : nat) (view : SnapshotView) (thread principal : string) (cursor : Z)
    : running (SnapshotView * (list Event * option run_error)) := λ st,
  let '(st, sent) := polls n thread principal (Z.max cursor view.(sv_Watermark)) st in (st, Ok (view, sent)).
Definition Observe (n : nat) (thread principal : string) (cursor : Z)
    : running (SnapshotView * (list Event * option run_error)) :=
  _ ← unless (0 <=? cursor) (XStore (SJournal ErrState));
  view ← call (query (Snapshot thread principal));
  tail n view thread principal cursor.
End platform.
