(* ===== verification/RunnerSpec.v ===== *)
(** * What a run does to the database

    Every transaction of the runner and the platform is one of the journal's, so
    whatever the dependencies of a run answer, its execution changes the
    database by the journal's steps: all invariants of the journal hold through
    whole executions, next to any other process. *)
From S2P Require Import Prelude GoText Db CallBinding JournalCore Commands Owners Runs DefinitionStore Records Service.
From S2P Require Import Keeps JournalKeeps Journal Journey Resolve Binding Guard Settings TenantDir Bundle CompileSet Loader Cost.
From S2P Require Import Harness HarnessSpec HarnessGate Runner Platform.
From S2P Require ActiveSet.

#[local] Set Default Proof Using "Type".

(** The database moves by steps of the journal, and what left the process stays
    recorded; what is added to it satisfies [P].  [still]: nothing left the
    process. *)
Definition moves `{codec : Codec} (P : list output → Prop) (st st' : rstate) : Prop :=
  steps st.(rs_store).(ls_db) st'.(rs_store).(ls_db) ∧ ∃ l, st'.(rs_log) = st.(rs_log) ++ l ∧ P l.
Definition still `{codec : Codec} (st st' : rstate) : Prop :=
  steps st.(rs_store).(ls_db) st'.(rs_store).(ls_db) ∧ st'.(rs_log) = st.(rs_log).
#[export] Instance still_preorder `{codec : Codec} : PreOrder still.
Proof. split; [by split|]. intros a b c [H1 E1] [H2 E2]. split; [by etransitivity|congruence]. Qed.

Lemma still_moves `{codec : Codec} (P : list output → Prop) st st' : P [] → still st st' → moves P st st'.
Proof. intros HP [H E]. split; [done|]. exists []. by rewrite app_nil_r. Qed.
Lemma moves_app `{codec : Codec} (P Q R : list output → Prop) a b c : (∀ k l, P k → Q l → R (k ++ l)) →
  moves P a b → moves Q b c → moves R a c.
Proof.
  intros HR [H1 (l1 & E1 & P1)] [H2 (l2 & E2 & P2)]. split; [by etransitivity|]. exists (l1 ++ l2).
  split; [by rewrite E2, E1, app_assoc|by apply HR].
Qed.

(** The session is with [ep]. *)
Definition sent_to (ep : Endpoint) (o : output) : Prop :=
  match o with OutConnect e | OutList e | OutClose e => e = ep | OutLoop _ => True end.
(** The provider requests among what was sent. *)
Definition sent_requests (l : list output) : nat :=
  length (omap (M := list) (λ o, match o with OutLoop (EvRequest r) => Some r | _ => None end) l).
Definition within (ep : Endpoint) (n : nat) (l : list output) : Prop := Forall (sent_to ep) l ∧ (sent_requests l ≤ n)%nat.

Lemma within_app ep m n k l : within ep m k → within ep n l → within ep (m + n) (k ++ l).
Proof.
  intros [H1 C1] [H2 C2]. split; [by apply Forall_app_2|]. unfold sent_requests in *. rewrite omap_app, length_app. lia.
Qed.
Lemma within_le ep m n l : (m ≤ n)%nat → within ep m l → within ep n l.
Proof. intros Hle [H C]. split; [done|lia]. Qed.
Lemma within_nil ep n : within ep n [].
Proof. split; [constructor|apply Nat.le_0_l]. Qed.
#[export] Instance moves_preorder `{codec : Codec} ep : PreOrder (moves (within ep 0)).
Proof.
  split; [intros st; apply still_moves; [apply within_nil|reflexivity]|]. intros a b c. apply moves_app, (within_app ep 0 0).
Qed.
(** [sends ep n m]: [m] makes at most [n] provider requests. *)
Definition sends `{codec : Codec} (ep : Endpoint) (n : nat) {E A} (m : prog rstate E A) : Prop :=
  ∀ st, moves (within ep n) st (m st).1.
Lemma sends_bind `{codec : Codec} ep m n {E A B} (p : prog rstate E A) (f : A → prog rstate E B) :
  sends ep m p → (∀ a, sends ep n (f a)) → sends ep (m + n) (p ≫= f).
Proof.
  intros Hp Hf st. unfold mbind, prog_bind. specialize (Hp st). destruct (p st) as [st1 [a|e]]; simpl in *.
  - eapply moves_app; [apply within_app|exact Hp|apply Hf].
  - destruct Hp as [H (l & E1 & P1)]. split; [done|]. exists l. split; [done|]. by eapply within_le; [|exact P1]; lia.
Qed.

Definition db_steps `{codec : Codec} (st st' : lstate) : Prop := steps st.(ls_db) st'.(ls_db).
#[export] Instance db_steps_preorder `{codec : Codec} : PreOrder db_steps.
Proof. unfold db_steps. split; [intros st; reflexivity|]. intros a b c H1 H2. by etransitivity. Qed.

Lemma keeps_id {A} `{codec : Codec} (m : tx A) : (∀ s a s', m s = Ok (a, s') → s' = s) → keeps steps m.
Proof. intros H s a s' Hm. by rewrite (H _ _ _ Hm). Qed.

Section steps.
Context `{codec : Codec} `{yaml : Yaml} `{runtime : Runtime}.
Context (others : ∀ n s, steps s (rt_outside.(x_others) n s)).
#[local] Existing Instance runtime_replica.

Lemma store_steps {A} (t : Z → tx A) : (∀ now, keeps steps (t now)) → always db_steps (store t).
Proof using others.
  intros Ht st. unfold store, db_steps. pose proof (others (ls_tick st) (ls_db st)) as Ho. simpl.
  destruct (transact _ t _) as [s r] eqn:T. apply transact_committed in T as [->|[a T]]; [done|].
  etransitivity; [exact Ho|by eapply Ht].
Qed.

Lemma query_steps {A} (q : db → result error A) : always db_steps (store (query q)).
Proof using others.
  apply store_steps. intros now. apply keeps_id. unfold query. intros s a s'. destruct (q s); [|done]. by intros [= _ ->].
Qed.

Lemma stored_still {A} (m : prog lstate store_error A) : always db_steps m → always still (stored m).
Proof. intros Hm st. unfold stored. specialize (Hm st.(rs_store)). by destruct (m _) as [s r]. Qed.

Lemma Load_steps d : always db_steps (Load d).
Proof using others. unfold Load. always_walk; first [apply query_steps|apply always_update; intros st; unfold db_steps; simpl; reflexivity]. Qed.

Lemma call_still {A} (t : Z → tx A) : (∀ now, keeps steps (t now)) → always still (call t).
Proof using others. intros Ht. by apply stored_still, store_steps. Qed.
Lemma call_query {A} (q : db → result error A) : always still (call (query q)).
Proof using others. apply stored_still, query_steps. Qed.
Lemma load_still d : always still (stored (Load d)).
Proof using others. apply stored_still, Load_steps. Qed.
Lemma tick_still : always still tick.
Proof. intros st. by split. Qed.
Lemma cancelled_still : always still is_cancelled.
Proof. unfold is_cancelled. always_walk. apply tick_still. Qed.
Lemma unavailable_still {A} : always still (unavailable (A := A)).
Proof. unfold unavailable. always_walk. apply cancelled_still. Qed.

(** One transaction of the journal. *)
Ltac journal_op :=
  let now := fresh in intros now;
  let s := fresh in let a := fresh in let s' := fresh in let E := fresh in intros s a s' E;
  match type of E with
  | RecordRunScope _ ?o ?p ?e ?c _ = _ => by eapply (exec_step now (OpRecordRunScope o p e c))
  | RecordServerInfo _ ?o ?i _ = _ => by eapply (exec_step now (OpRecordServerInfo o i))
  | CommitSnapshot _ ?o ?c _ = _ => by eapply (exec_step now (OpCommitSnapshot o c))
  | RecordRunCatalog _ ?o ?d _ = _ => by eapply (exec_step now (OpRecordRunCatalog o d))
  | SetActiveJourneys _ ?o ?a _ = _ => by eapply (exec_step now (OpSetActiveJourneys o a))
  | Start _ ?o ?j ?d _ = _ => by eapply (exec_step now (OpStart o j d))
  | Finish _ ?o ?st ?h ?a ?c ?t _ = _ => by eapply (exec_step now (OpFinish o st h a c t))
  | FinishFailed _ ?o ?h ?r _ = _ => by eapply (exec_step now (OpFinishFailed o h r))
  | FinishLimitExceeded _ ?o ?h ?k ?d _ = _ => by eapply (exec_step now (OpFinishLimitExceeded o h k d))
  | Admit _ ?c _ = _ => by eapply (exec_step now (OpAdmit c))
  | Claim _ ?c ?id ?d _ = _ => by eapply (exec_step now (OpClaim c id d))
  | Check _ ?o _ = _ => by eapply (exec_step now (OpCheck o))
  end.

Lemma ScopeOf_still i : always still (ScopeOf i).
Proof using others.
  unfold ScopeOf. always_walk; first [apply tick_still|apply unavailable_still|apply call_still; journal_op].
Qed.

Lemma RunAdmit_still i : always still (RunAdmit i).
Proof. unfold RunAdmit. cbv zeta. always_walk; apply unavailable_still. Qed.

Lemma resolve_noting_steps served o now : keeps steps (resolve_noting served o now).
Proof.
  intros s a s' E. unfold resolve_noting in E. destruct (ResolveDefinition _ _ _ _) as [[d s1]|e] eqn:R.
  - injection E as _ <-. by eapply (exec_step now (OpResolveDefinition (Some served) o)).
  - injection E as _ <-. reflexivity.
Qed.

Lemma load_missing_still l : always still (load_missing l).
Proof using others. induction l as [|d l IH]; simpl; always_walk; [apply load_still|done]. Qed.

Lemma resolve_attempts_still n o : always still (resolve_attempts n o).
Proof using others.
  induction n as [|n IH]; simpl; always_walk; try done;
    first [apply call_still; intros now; apply resolve_noting_steps|apply load_missing_still].
Qed.

Lemma BindingOf_still i : always still (BindingOf i).
Proof using others. unfold BindingOf. always_walk; first [apply resolve_attempts_still|apply load_still]. Qed.

Lemma all_load_still l : always still (all_load l).
Proof using others. induction l as [|d l IH]; simpl; always_walk; first [apply load_still|done]. Qed.

Lemma Ready_still : always still Ready.
Proof using others. unfold Ready. always_walk; first [apply call_query|apply all_load_still]. Qed.

(** ** Opening the binding *)

Lemma binding_call_still A (t : Z → tx A) : (∀ now, keeps steps (t now)) → always still (binding_call A t).
Proof using others. intros Ht st. unfold binding_call. pose proof (call_still t Ht st). by destruct (call t st). Qed.

Lemma at_tick_still {A} (f : nat → result binding_error A) : always still (at_tick f).
Proof. intros st. by split. Qed.

Lemma ConversationPin_steps o now : keeps steps (ConversationPin now o).
Proof.
  apply keeps_id. intros s a s' E. unfold ConversationPin in E. tx_step E u s1 Hl. apply lockOwner_ok in Hl as [-> _]. by injection E.
Qed.

Lemma still_within {E A} ep (m : prog rstate E A) : always still m → always (moves (within ep 0)) m.
Proof. intros H st. apply still_moves; [apply within_nil|apply H]. Qed.
Lemma emit_within {E} ep o : sent_to ep o → sent_requests [o] = 0%nat → always (moves (within ep 0)) (emit (E := E) o).
Proof.
  intros Ho Hr st. split; [reflexivity|]. exists [o]. split; [done|]. split; [by constructor|by rewrite Hr].
Qed.

Lemma catalog_open_within p ep o set : always (moves (within ep 0)) (catalog_open p ep o set).
Proof using others.
  unfold catalog_open, open, capture. cbv zeta. always_walk; try by apply emit_within.
  all: apply still_within; first [apply at_tick_still|apply binding_call_still; first [apply ConversationPin_steps|journal_op]].
Qed.

(** ** The run *)

Lemma ActiveJourneys_steps o now : keeps steps (ActiveJourneys now o).
Proof. apply lc_ActiveJourneys. Qed.

Lemma prepare_still i set b : always still (prepare i set b).
Proof using others.
  unfold prepare. cbv zeta. always_walk; apply call_still; first [intros now; apply ActiveJourneys_steps|journal_op].
Qed.

Lemma sent_requests_loop h : sent_requests (OutLoop <$> h.(hs_log)) = requests h.
Proof.
  unfold sent_requests, requests. induction (hs_log h) as [|[r|op a ac c] l IH]; [done|..]; cbn; [by f_equal|done].
Qed.

(** A loop makes at most sixteen provider requests. *)
Lemma loop_sends ep i set b active : sends ep 16 (loop i set b active).
Proof using others.
  intros st. unfold loop. pose proof (@runHarness_journal_steps _ (conversation_of i set b) active
    st.(rs_store).(ls_tick) st.(rs_store).(ls_db) others) as Hs.
  pose proof (@runHarness_requests _ (conversation_of i set b) active st.(rs_store).(ls_tick) st.(rs_store).(ls_db)) as Hr.
  destruct (runHarness active _ _) as [h [out e]]. split; [done|]. eexists. split; [done|]. split.
  - apply Forall_forall. by intros o (x & -> & _)%list_elem_of_fmap.
  - by rewrite sent_requests_loop.
Qed.

Lemma converse_sends ep i set b : sends ep 16 (converse i set b).
Proof using others.
  unfold converse. apply (sends_bind ep 0 16); [apply still_within, prepare_still|intros active].
  apply (sends_bind ep 16 0); [apply loop_sends|intros o]. apply still_within, always_ret, _.
Qed.

Lemma run_program_sends i : sends i.(ri_Endpoint) 16 (run_program i).
Proof using others.
  unfold run_program. set (ep := i.(ri_Endpoint)).
  apply (sends_bind ep 0 16); [apply still_within, always_unless, _|intros _].
  apply (sends_bind ep 0 16); [apply still_within, always_try, load_still|intros [set|e]].
  2: { intros st. apply still_moves; [apply within_nil|reflexivity]. }
  apply (sends_bind ep 0 16); [apply still_within, always_unless, _|intros _].
  apply (sends_bind ep 0 16); [apply still_within, call_still; journal_op|intros _].
  apply (sends_bind ep 0 16).
  { apply always_try. intros st. pose proof (catalog_open_within i.(ri_ProductVersion) ep i.(ri_Owner) set st) as H.
    by destruct (catalog_open _ _ _ _ st). }
  assert (∀ e st, moves (within ep 16) st (throw (E := run_error) (A := RunOutput * option run_error) e st).1) as Hthrow
    by (intros e st; apply still_moves; [apply within_nil|reflexivity]).
  intros [b|e]; [|intros st; by destruct e as [| | | | |[]| | |]; apply Hthrow].
  apply (sends_bind ep 16 0).
  - intros st. pose proof (converse_sends ep i set b st) as H. unfold try. by destruct (converse _ _ _ st).
  - intros o. apply (sends_bind ep 0 0); [by apply emit_within|intros _]. apply still_within, always_lift, _.
Qed.

Lemma Run_sends i st : moves (within i.(ri_Endpoint) 16) st (Run i st).1.
Proof using others. unfold Run. pose proof (run_program_sends i st) as H. by destruct (run_program i st) as [st' []]. Qed.

(** ** The worker *)

Lemma begin_run_still i : always still (begin_run i).
Proof using others.
  unfold begin_run. cbv zeta. always_walk;
    first [apply ScopeOf_still|apply BindingOf_still|apply RunAdmit_still|apply call_still; journal_op].
Qed.

Lemma conclude_still i out err : always still (conclude i out err).
Proof using others. unfold conclude. cbv zeta. always_walk; apply call_still; journal_op. Qed.

Lemma finish_round_still i out err st : still st (finish_round i out err st).1.
Proof using others.
  unfold finish_round. destruct (out_Waiting out); [reflexivity|].
  pose proof (cancelled_still st) as H1. destruct (is_cancelled st) as [st1 [[]|e]]; simpl in H1; try done.
  all: destruct (match err with Some e => is_ownership e | None => false end); [done|].
  all: pose proof (conclude_still i out err st1) as H2; destruct (conclude i out err st1) as [st2 r]; simpl in H2.
  all: assert (still st st2) by (by etransitivity); by repeat case_match.
Qed.

Lemma run_rounds_still n : ∀ i e st, still st (run_rounds n i (Some e) st).1.
Proof using others.
  induction n as [|n IH]; intros i e st; cbn [run_rounds]; [reflexivity|].
  pose proof (finish_round_still i zero_output (Some e) st) as H1. destruct (finish_round i _ _ st) as [st2 [x|]]; simpl in *; [done|].
  etransitivity; [exact H1|apply IH].
Qed.

Lemma run_rounds_sends n : ∀ i st, moves (within i.(ri_Endpoint) (16 * n)) st (run_rounds n i None st).1.
Proof using others.
  induction n as [|n IH]; intros i st; cbn [run_rounds].
  { apply still_moves; [apply within_nil|reflexivity]. }
  replace (16 * S n)%nat with (16 + 16 * n)%nat by lia.
  pose proof (Run_sends i st) as H1. destruct (Run i st) as [st1 [out err]]. simpl in H1.
  pose proof (finish_round_still i out err st1) as H2. destruct (finish_round i out err st1) as [st2 x]. simpl in H2.
  assert (moves (within i.(ri_Endpoint) 16) st st2) as H3.
  { apply (moves_app _ (within i.(ri_Endpoint) 0) (within i.(ri_Endpoint) 16) _ _ _ (λ k l, within_app _ 16 0 k l) H1).
    apply still_moves; [apply within_nil|done]. }
  destruct x as [x|]; cbn [fst].
  - destruct H3 as [H (l & E & P)]. split; [done|]. exists l. split; [done|]. by eapply within_le; [|exact P]; lia.
  - eapply moves_app; [apply within_app|exact H3|]. destruct err as [e|].
    + apply still_moves; [apply within_nil|apply run_rounds_still].
    + apply (IH (with_history (i.(ri_Iteration) + 1) out.(out_History) i)).
Qed.

Lemma execute_journal_steps n i st : steps st.(rs_store).(ls_db) (execute n i st).1.(rs_store).(ls_db).
Proof using others.
  unfold execute. pose proof (begin_run_still i st) as [H _]. destruct (begin_run i st) as [st1 [i1|e]]; cbn [fst] in H;
    (etransitivity; [exact H|]).
  - apply run_rounds_sends.
  - apply run_rounds_still.
Qed.

Lemma admission_still id c : always still (admission id c).
Proof using others.
  unfold admission, run_snapshot. cbv zeta. always_walk; first [apply call_query|apply call_still; journal_op].
Qed.
End steps.

(** ** What is sent *)

Section admitted.
Context `{codec : Codec} `{yaml : Yaml} `{runtime : Runtime}.
#[local] Existing Instance runtime_replica.

(** What has been settled about a run before anything is sent: its tenant's
    entry and allowlisted endpoint, its resolved settings, the gate's
    admission of exactly this run, and the target or none. *)
Record admitted (i i' : TurnInput) : Prop := {
  ad_scope : ∃ now dir entry, rt_tenancy.(tn_Directory) = Some dir ∧ dir now i.(ri_Tenant) = Ok entry ∧
    i'.(ri_ProductVersion) = entry.(en_ProductVersion) ∧ i'.(ri_Endpoint).(ep_id) = entry.(en_EndpointID) ∧
    rt_tenancy.(tn_Endpoints) !! entry.(en_EndpointID) = Some i'.(ri_Endpoint).(ep_url);
  ad_settings : ∃ now source, rt_tenancy.(tn_Settings) = Some source ∧
    source now (mk_SettingsScope i.(ri_Tenant) i.(ri_Principal)) = Ok i'.(ri_Settings);
  ad_target : i'.(ri_TargetJourney) = i.(ri_TargetJourney);
  ad_attribution : i'.(ri_Attribution) = mk_Attribution i.(ri_Tenant) i.(ri_Principal) i.(ri_ThreadID) i.(ri_RunID) i.(ri_TargetJourney);
  ad_gate : ∃ d access, let gate := default OpenGate rt_tenancy.(tn_Cost) in
    gate.(g_Admit) i'.(ri_Attribution) i'.(ri_Settings).(s_Profile) = Some d ∧ decision_err d = None ∧
    gate.(g_Access) i'.(ri_Attribution) i'.(ri_Settings).(s_Profile) = Some access;
  ad_same : i'.(ri_Owner) = i.(ri_Owner) ∧ i'.(ri_ThreadID) = i.(ri_ThreadID) ∧ i'.(ri_RunID) = i.(ri_RunID);
}.

Lemma unavailable_err {A} st st' (a : A) : unavailable st ≠ (st', Ok a).
Proof. by unfold unavailable, is_cancelled, tick. Qed.

Lemma Lookup_ok c d a tenant e ep : Lookup c d a tenant = Ok (e, ep) → ∃ resolve, d = Some resolve ∧ resolve tenant = Ok e ∧
  ep.(ep_id) = e.(en_EndpointID) ∧ a !! e.(en_EndpointID) = Some ep.(ep_url).
Proof.
  unfold Lookup. destruct d as [resolve|]; [|done]. destruct (resolve tenant) as [e'|] eqn:R; [|done].
  unfold AllowlistEndpoint. destruct (a !! _) as [u|] eqn:U; [|done]. simpl. intros [= <- <-]. by exists resolve.
Qed.

Lemma ScopeOf_ok i st st' sc : ScopeOf i st = (st', Ok sc) →
  (∃ now dir, rt_tenancy.(tn_Directory) = Some dir ∧ dir now i.(ri_Tenant) = Ok sc.(sc_Entry) ∧
    sc.(sc_endpoint).(ep_id) = sc.(sc_Entry).(en_EndpointID) ∧
    rt_tenancy.(tn_Endpoints) !! sc.(sc_Entry).(en_EndpointID) = Some sc.(sc_endpoint).(ep_url)) ∧
  ∃ now source, rt_tenancy.(tn_Settings) = Some source ∧
    source now (mk_SettingsScope i.(ri_Tenant) i.(ri_Principal)) = Ok sc.(sc_Settings).
Proof.
  unfold ScopeOf. intros (now & st1 & Ht & H)%svc_bind_ok. destruct (Lookup _ _ _ _) as [[e ep]|] eqn:L;
    [|by apply unavailable_err in H]. destruct (tn_Settings _) as [source|] eqn:Hs; [|by apply unavailable_err in H].
  destruct (source now _) as [resolved|] eqn:R; [|by apply unavailable_err in H].
  apply svc_bind_ok in H as (u & st2 & _ & H). injection H as _ <-. simpl.
  apply Lookup_ok in L as (resolve & (dir & Hd & ->)%fmap_Some & HR & He & Ha).
  split; [by exists now, dir|by exists now, source].
Qed.

Lemma RunAdmit_ok i st st' r : RunAdmit i st = (st', Ok r) →
  let gate := default OpenGate rt_tenancy.(tn_Cost) in
  r.1 = mk_Attribution i.(ri_Tenant) i.(ri_Principal) i.(ri_ThreadID) i.(ri_RunID) i.(ri_TargetJourney) ∧
  ∃ d, gate.(g_Admit) r.1 i.(ri_Settings).(s_Profile) = Some d ∧ decision_err d = None ∧
       gate.(g_Access) r.1 i.(ri_Settings).(s_Profile) = Some r.2.
Proof.
  unfold RunAdmit. cbv zeta. destruct (g_Admit _ _ _) as [d|] eqn:G; [|by intros ?%unavailable_err].
  destruct (decision_err d) eqn:D; [done|]. destruct (g_Access _ _ _) as [access|] eqn:A; [|by intros ?%unavailable_err].
  intros [= _ <-]. split; [done|]. by exists d.
Qed.

Lemma BindingOf_target i st st' r : BindingOf i st = (st', Ok r) → r.1 = i.(ri_TargetJourney).
Proof.
  unfold BindingOf. intros (digest & st1 & _ & H)%svc_bind_ok. apply svc_bind_ok in H as (set & st2 & _ & H).
  case_bool_decide as E; [by injection H as _ <-; rewrite E|]. destruct (FindJourney _ _); [|done]. by injection H as _ <-.
Qed.

Lemma begin_run_admitted i st st' i' : begin_run i st = (st', Ok i') → admitted i i'.
Proof.
  unfold begin_run. cbv zeta. intros (sc & st1 & Hsc & H)%svc_bind_ok. apply svc_bind_ok in H as (bd & st2 & Hb & H).
  apply svc_bind_ok in H as (ad & st3 & Ha & H). apply svc_bind_ok in H as (history & st4 & _ & H). injection H as _ <-.
  apply ScopeOf_ok in Hsc as [(now & dir & D1 & D2 & D3 & D4) Hset]. apply BindingOf_target in Hb.
  apply RunAdmit_ok in Ha as [Hat (d & G1 & G2 & G3)]. cbn in *. split; cbn.
  - by exists now, dir, sc.(sc_Entry).
  - done.
  - done.
  - by rewrite Hat, Hb.
  - by exists d, ad.2.
  - done.
Qed.
End admitted.

(** C8 Nothing is sent for a run before it is admitted: when the execution of a
    run opens a session with its tool server, lists its tools, asks the model or
    calls a tool, the run's tenant was in the directory and its endpoint in the
    allowlist, its settings resolved, and the cost gate let exactly this run
    start, before any of it; and the sessions are with that endpoint. *)
Theorem execute_sends_admitted `{codec : Codec} `{yaml : Yaml} `{runtime : Runtime} (n : nat) (i : TurnInput)
    (st st' : rstate) (e : ending)
    (Hothers : ∀ n s, steps s (rt_outside.(x_others) n s))
    (Hexec : execute n i st = (st', e)) (Hsent : st'.(rs_log) ≠ st.(rs_log)) :
  ∃ st1 i1 l, begin_run i st = (st1, Ok i1) ∧ st1.(rs_log) = st.(rs_log) ∧ admitted i i1 ∧
    st'.(rs_log) = st1.(rs_log) ++ l ∧ Forall (sent_to i1.(ri_Endpoint)) l.
Proof.
  unfold execute in Hexec. pose proof (begin_run_still Hothers i st) as [_ Hb].
  destruct (begin_run i st) as [st1 [i1|err]] eqn:B; cbn [fst] in Hb.
  - pose proof (run_rounds_sends Hothers n i1 st1) as [_ (l & El & Hl & _)]. rewrite Hexec in El.
    exists st1, i1, l. split_and!; [done|done| |done|done]. by eapply begin_run_admitted.
  - destruct Hsent. pose proof (run_rounds_still Hothers n i err st1) as [_ Hr]. rewrite Hexec in Hr. cbn [fst] in Hr. by rewrite Hr.
Qed.

(** C36 The conversation with the model is bounded: one call of [Run] makes at
    most sixteen provider requests, whatever the model, the tools and the
    other processes do; the execution of a run in [n] rounds at most [16 * n];
    and a round is followed by another only when its end was refused because a
    command was admitted in the meantime. *)
Theorem execute_bounded `{codec : Codec} `{yaml : Yaml} `{runtime : Runtime} (n : nat) (i : TurnInput) (st : rstate)
    (Hothers : ∀ n s, steps s (rt_outside.(x_others) n s)) :
  (∃ l, (Run i st).1.(rs_log) = st.(rs_log) ++ l ∧ (sent_requests l ≤ 16)%nat) ∧
  (∃ l, (execute n i st).1.(rs_log) = st.(rs_log) ++ l ∧ (sent_requests l ≤ 16 * n)%nat) ∧
  (∀ out err st', finish_round i out err st = (st', None) →
     out.(out_Waiting) = false ∧ ∃ st1, conclude i out err st1 = (st', Err (XStore (SJournal ErrPending)))).
Proof.
  split_and!.
  - pose proof (Run_sends Hothers i st) as [_ (l & El & _ & Hl)]. by exists l.
  - unfold execute. pose proof (begin_run_still Hothers i st) as [_ Hb].
    destruct (begin_run i st) as [st1 [i1|err]]; cbn [fst] in Hb; rewrite <- Hb.
    + pose proof (run_rounds_sends Hothers n i1 st1) as [_ (l & El & _ & Hl)]. by exists l.
    + pose proof (run_rounds_still Hothers n i err st1) as [_ Hr]. exists []. rewrite app_nil_r. split; [done|apply Nat.le_0_l].
  - intros out err st' H. unfold finish_round in H. destruct (out_Waiting out); [done|]. split; [done|].
    destruct (is_cancelled st) as [st1 [[]|]]; try done.
    all: destruct (match err with Some e => is_ownership e | None => false end); [done|].
    all: exists st1; destruct (conclude i out err st1) as [st2 [u|x]] eqn:C; repeat case_match; simplify_eq; done.
Qed.
