(* ===== verification/PlatformSpec.v ===== *)
(** * What the platform guarantees

    How a run ends for each error, what is refused while draining, and that an
    observer gets every event once and in order. *)
From S2P Require Import Prelude GoText Db CallBinding JournalCore Commands Owners Runs DefinitionStore Records Service.
From S2P Require Import Lifecycle Keeps JournalSim JournalKeeps Journal EventLog Binding Guard Settings TenantDir Bundle CompileSet Loader Cost.
From S2P Require Import Harness HarnessSpec Runner Platform RunnerSpec.

#[local] Set Default Proof Using "Type".

Section store.
Context `{codec : Codec} `{yaml : Yaml} `{runtime : Runtime}.

(** A transaction that the caller saw commit is what the database now is. *)
Lemma call_ok {A} (t : Z → tx A) st st' a : call t st = (st', Ok a) → ∃ now s, t now s = Ok (a, st'.(rs_store).(ls_db)).
Proof.
  unfold call, stored, store. destruct (transact _ t _) as [s' [b|e]] eqn:T; intros [= <- H]. subst b. apply transact_ok in T.
  by eexists _, _.
Qed.

Lemma call_query_db {A} (q : db → result error A) st st' r : call (query q) st = (st', r) →
  let s := rt_outside.(x_others) st.(rs_store).(ls_tick) st.(rs_store).(ls_db) in
  st'.(rs_store).(ls_db) = s ∧ (∀ a, r = Ok a → q s = Ok a).
Proof.
  unfold call, stored, store, transact, query. cbv zeta. simpl. destruct (q _) as [b|e] eqn:E; destruct (x_fault _ _); simpl; intros [= <- <-];
    (split; [done|intros a [= ?]; by subst]).
Qed.
End store.

(** ** The end of a run *)

(** What the database says about a finished run: its state, and no command of
    it left pending. *)
Definition ended (o : Owner) (state : RunState) (s : db) : Prop :=
  let t := o.(ow_Command).(c_ThreadID) in let run := o.(ow_Command).(c_RunID) in
  (∃ r, s.(runs) !! run = Some r ∧ r.(rn_thread) = t ∧ r.(rn_state) = state) ∧ no_pending t run (core s).

Lemma dispose_no_pending t run reason l l' : reason ≠ "" →
  l'.(l_cmds) = dispose t run reason l.(l_cmds) → no_pending t run l'.
Proof.
  intros Hr E c Hc Hof. rewrite E in Hc. unfold dispose in Hc. apply list_elem_of_fmap in Hc as (c0 & -> & Hc).
  destruct (command_of t run c0 && pending_command c0) eqn:H.
  - unfold pending_command. simpl. by rewrite (bool_decide_eq_false_2 (reason = "")), andb_false_r.
  - by rewrite Hof in H.
Qed.

Lemma finish_ended `{codec : Codec} now o state h a c tl e s u s' :
  finish now o state h a c tl e s = Ok (u, s') → ended o state s'.
Proof.
  intros (ep & _ & Hn & E)%finish_core. split.
  - assert ((core s').(l_runs) !! o.(ow_Command).(c_RunID) = Some (mk_lrun o.(ow_Command).(c_ThreadID) state ep)) as H
      by (rewrite E; apply lookup_insert_eq).
    apply core_run_inv in H as (r & Hr & [= Ht Hs _]). by exists r.
  - case_bool_decide as Hc.
    + intros k. rewrite E. by apply Hn.
    + eapply (dispose_no_pending _ _ (state_name state) (core s)); [by destruct state|by rewrite E].
Qed.

(** The state a run ends in for each error. *)
Definition run_verdict (err : option run_error) : RunState :=
  match err ≫= as_limit with Some _ => RunLimitExceeded | None => final_state err end.

Section verdict.
Context `{codec : Codec} `{yaml : Yaml} `{runtime : Runtime}.

Lemma conclude_ended i out err st st' : conclude i out err st = (st', Ok tt) →
  ended i.(ri_Owner) (run_verdict err) st'.(rs_store).(ls_db).
Proof.
  unfold conclude, run_verdict. cbv zeta. destruct (err ≫= as_limit) as [l|].
  - intros (now & s & H)%call_ok. unfold FinishLimitExceeded in H. tx_guard H Hg. by eapply finish_ended.
  - destruct (_ && _) eqn:E; intros (now & s & H)%call_ok.
    + apply andb_true_iff in E as [->%bool_decide_eq_true _]. unfold FinishFailed in H. tx_guard H Hg. by eapply finish_ended.
    + unfold Finish in H. tx_guard H Hg. by eapply finish_ended.
Qed.

(** The error of the round a worker ends in: that of the start of the run, or
    that of a round of it. *)
Definition round_error (i : TurnInput) (st : rstate) (err : option run_error) : Prop :=
  (∃ st1 e, begin_run i st = (st1, Err e) ∧ err = Some e) ∨
  ∃ i' st1 st2 out, i'.(ri_Owner) = i.(ri_Owner) ∧ Run i' st1 = (st2, (out, err)).

Lemma finish_round_settled i out err st st' r : finish_round i out err st = (st', Some (Settled r)) →
  r = Ok tt → ended i.(ri_Owner) (run_verdict err) st'.(rs_store).(ls_db).
Proof.
  unfold finish_round. destruct (out_Waiting out); [done|]. destruct (is_cancelled st) as [st1 [[]|e]]; [done| |].
  all: destruct (match err with Some e => is_ownership e | None => false end); [done|].
  all: destruct (conclude i out err st1) as [st2 r2] eqn:C; intros H ->.
  all: assert (st2 = st' ∧ r2 = Ok tt) as [-> ->] by (repeat case_match; by simplify_eq).
  all: by apply conclude_ended in C.
Qed.

Lemma run_rounds_verdict n : ∀ i err st st', run_rounds n i err st = (st', Settled (Ok tt)) →
  ∃ err', (err' = err ∧ err ≠ None ∨ err = None ∧ ∃ i' st1 st2 out, i'.(ri_Owner) = i.(ri_Owner) ∧ Run i' st1 = (st2, (out, err'))) ∧
    ended i.(ri_Owner) (run_verdict err') st'.(rs_store).(ls_db).
Proof.
  induction n as [|n IH]; intros i err st st'; cbn [run_rounds]; [done|]. destruct err as [e|].
  - destruct (finish_round _ _ _ st) as [st2 [r|]] eqn:F.
    + intros [= -> ->]. exists (Some e). split; [by left|]. by eapply finish_round_settled.
    + intros H. apply IH in H as (err' & [[-> _]|[? _]] & He); [|done]. exists (Some e). split; [by left|done].
  - destruct (Run i st) as [st1 [out err]] eqn:R. destruct (finish_round _ _ _ st1) as [st2 [r|]] eqn:F.
    + intros [= -> ->]. exists err. split; [right; split; [done|by exists i, st, st1, out]|]. by eapply finish_round_settled.
    + destruct err as [e|].
      * intros H. apply IH in H as (err' & [[-> _]|[? _]] & He); [|done]. exists (Some e). split; [|done].
        right. split; [done|]. by exists i, st, st1, out.
      * intros H. apply IH in H as (err' & [[_ ?]|(_ & i' & sa & sb & out' & Ho & HR)] & He); [done|]. exists err'. split; [|done].
        right. split; [done|]. by exists i', sa, sb, out'.
Qed.
End verdict.

(** C12 How a run ends: when the worker's last transaction commits, the run is in
    the state its error calls for, with no command of it left without a
    disposition.  A limit of the gate or the provider is [limit_exceeded], a
    dependency that cannot be used [dependency_unavailable], a rejected
    credential [auth_required], any other error [failed], none [completed]. *)
Theorem execute_verdict `{codec : Codec} `{yaml : Yaml} `{runtime : Runtime} (n : nat) (i : TurnInput) (st st' : rstate)
    (Hexec : execute n i st = (st', Settled (Ok tt))) :
  ∃ err, round_error i st err ∧ ended i.(ri_Owner) (run_verdict err) st'.(rs_store).(ls_db) ∧
    run_verdict err = match err with
                      | None => RunCompleted
                      | Some e => if bool_decide (is_Some (as_limit e)) then RunLimitExceeded
                                  else match e with
                                       | XDependency => RunDependencyUnavailable
                                       | _ => if is_auth e then RunAuthRequired else RunFailed
                                       end
                      end.
Proof.
  assert (Hv : ∀ err, run_verdict err = match err with
                      | None => RunCompleted
                      | Some e => if bool_decide (is_Some (as_limit e)) then RunLimitExceeded
                                  else match e with
                                       | XDependency => RunDependencyUnavailable
                                       | _ => if is_auth e then RunAuthRequired else RunFailed
                                       end
                      end).
  { intros [e|]; [|done]. unfold run_verdict. simpl. by destruct (as_limit e). }
  unfold execute in Hexec. unfold round_error. destruct (begin_run i st) as [st1 [i1|e]] eqn:B.
  - assert (i1.(ri_Owner) = i.(ri_Owner)) as Ho by (by apply begin_run_admitted in B as [_ _ _ _ _ (? & _)]).
    apply run_rounds_verdict in Hexec as (err & [[_ ?]|(_ & i' & sa & sb & out & Hi & HR)] & He); [done|]. rewrite Ho in Hi, He.
    exists err. split_and!; [|done|done]. right. by exists i', sa, sb, out.
  - apply run_rounds_verdict in Hexec as (err & [[-> _]|[? _]] & He); [|done]. exists (Some e). split_and!; [|done|apply (Hv (Some e))].
    left. by exists st1, e.
Qed.

(** ** Draining *)

(** Once draining, a platform admits nothing: a command is refused before the
    database is touched, readiness is reported false, and the workers only
    become fewer. *)
Definition quieter `{codec : Codec} `{yaml : Yaml} `{runtime : Runtime} (p p' : pstate) : Prop :=
  p.(ps_draining) = true → p'.(ps_draining) = true ∧ (p'.(ps_runs) ≤ p.(ps_runs))%nat ∧ (p.(ps_closed) = true → p'.(ps_closed) = true).
#[export] Instance quieter_preorder `{codec : Codec} `{yaml : Yaml} `{runtime : Runtime} : PreOrder quieter.
Proof.
  split; [by intros p ?|]. intros p q r H1 H2 Hd. destruct (H1 Hd) as (Hq & Hn & Hc). destruct (H2 Hq) as (Hr & Hn' & Hc').
  split_and!; [done|lia|auto].
Qed.

Lemma step_quieter `{codec : Codec} `{yaml : Yaml} `{runtime : Runtime} p p' : platform_step p p' → quieter p p'.
Proof.
  intros H Hd. destruct H as [p p' H|p st|p Hn|p|p].
  - unfold enter in H. rewrite Hd in H. by destruct (ps_closed p).
  - by split_and!; simpl.
  - split_and!; simpl; [done|lia|done].
  - by split_and!; simpl.
  - by split_and!; simpl.
Qed.

(** A command's way through [Submit] is a sequence of such steps. *)
Lemma Submit_steps `{codec : Codec} `{yaml : Yaml} `{runtime : Runtime} id c p : rtc platform_step p (Submit id c p).1.
Proof.
  unfold Submit. destruct (enter p) as [p1|e] eqn:E; [|reflexivity]. eapply rtc_l; [by apply step_enter|].
  assert (ps_runs p1 ≠ 0%nat) as Hn by (unfold enter in E; repeat case_match; by simplify_eq/=).
  destruct (admission id c _) as [st [[receipt [i|]]|e]]; simpl; (eapply rtc_l; [apply step_work|]);
    first [reflexivity|by apply rtc_once, step_leave].
Qed.

(** After a shutdown signal nothing new starts: from a draining platform on,
    in any interleaving of commands, workers and signals, every command is
    refused without touching the database, the platform reports itself not
    ready, the number of commands and workers being waited for never grows, and
    once it is zero it stays zero. *)
Theorem draining_is_final `{codec : Codec} `{yaml : Yaml} `{runtime : Runtime} (p p' : pstate)
    (Hdrain : p.(ps_draining) = true) (Hsteps : rtc platform_step p p') :
  (∀ id c, Submit id c p' = (p', Err (if p'.(ps_closed) then SubmitCanceled else ErrDraining))) ∧
  PlatformReady p' = (p', Ok false) ∧ (p'.(ps_runs) ≤ p.(ps_runs))%nat ∧ (p.(ps_runs) = 0%nat → p'.(ps_runs) = 0%nat).
Proof.
  assert (quieter p p') as H by (induction Hsteps as [|p q r Hs _ IH]; [done|etransitivity; [by eapply step_quieter|]];
    apply IH; by destruct (step_quieter _ _ Hs Hdrain)).
  destruct (H Hdrain) as (Hd & Hn & _). split_and!; [|..|done|lia].
  - intros id c. unfold Submit, enter. rewrite Hd. by destruct (ps_closed p').
  - unfold PlatformReady. rewrite Hd. by rewrite orb_true_r.
Qed.

(** ** Observation *)

Lemma foldl_last (a : Z) l : numbered (a + 1) l → foldl (λ _ e, e.(e_Sequence)) a l = a + zlen l.
Proof.
  revert a. induction l as [|e l IH]; intros a; simpl; [unfold zlen; simpl; lia|]. intros [-> Hl].
  rewrite IH by done. unfold zlen. simpl. lia.
Qed.

(** Reading on after a batch: nothing is lost or sent twice. *)
Lemma read_on t after s s' : 0 <= after → numbered 1 (thread_events t s) → numbered 1 (thread_events t s') →
  (∃ new, thread_events t s' = thread_events t s ++ new) →
  let batch := readEvents t after s in let next := foldl (λ _ e, e.(e_Sequence)) after batch in
  0 <= next ∧ readEvents t after s' = batch ++ readEvents t next s'.
Proof.
  intros Ha Hn Hn' [new E]. cbv zeta. rewrite !readEvents_drop by done.
  rewrite foldl_last. 2:{ pose proof (numbered_drop _ _ (Z.to_nat after) Hn) as H. by rewrite Z2Nat.id, Z.add_comm in H. }
  unfold zlen. rewrite length_drop. split; [lia|]. rewrite E.
  set (l := thread_events t s). rewrite drop_app. f_equal.
  replace (Z.to_nat (after + Z.of_nat (length l - Z.to_nat after))) with (Nat.max (Z.to_nat after) (length l)) by lia.
  rewrite drop_app, (drop_ge l) by lia. simpl. f_equal. lia.
Qed.

Section observe.
Context `{codec : Codec} `{yaml : Yaml} `{runtime : Runtime}.
Context (others : ∀ n s, steps s (rt_outside.(x_others) n s)).

Lemma numbered_reachable s t : reachable s → numbered 1 (thread_events t s).
Proof.
  intros Hr. destruct (s.(convs) !! t) as [c|] eqn:Hc; [by eapply reachable_numbered|].
  pose proof (reachable_log s Hr t) as H. rewrite Hc in H. by rewrite H.
Qed.

Lemma steps_events s s' t : steps s s' → ∃ new, thread_events t s' = thread_events t s ++ new.
Proof.
  intros Hs. destruct (steps_keeps log_extends _ _ Hs) as (_ & (new & He) & _).
  exists (snd <$> filter (λ p, p.1 = t) new). unfold thread_events. by rewrite He, filter_app, fmap_app.
Qed.

Lemma read_prefix after s s' t : reachable s → steps s s' → readEvents t after s `prefix_of` readEvents t after s'.
Proof.
  intros Hr Hs. destruct (steps_events s s' t Hs) as [new E].
  rewrite !readEvents_drop, E by (apply numbered_reachable; first [done|by eapply reachable_steps]).
  rewrite drop_app. by eexists.
Qed.

Lemma polls_sent n t p : ∀ after st st' sent err, 0 <= after → reachable st.(rs_store).(ls_db) →
  polls n t p after st = (st', (sent, err)) →
  steps st.(rs_store).(ls_db) st'.(rs_store).(ls_db) ∧
  sent `prefix_of` readEvents t after st'.(rs_store).(ls_db) ∧
  (err = None → n ≠ 0%nat → sent = readEvents t after st'.(rs_store).(ls_db)).
Proof using others.
  induction n as [|n IH]; intros after st st' sent err Ha Hr; cbn [polls].
  { intros [= <- <- <-]. split_and!; [reflexivity|by apply prefix_nil|done]. }
  unfold poll. unfold mbind at 1, prog_bind at 1.
  destruct (call (query (Events t p after)) st) as [st1 r] eqn:C. apply call_query_db in C as [Hdb Hq].
  pose proof (others st.(rs_store).(ls_tick) st.(rs_store).(ls_db)) as Ho. rewrite <- Hdb in Ho.
  pose proof (reachable_steps _ _ Hr Ho) as Hr1. destruct r as [batch|e]; simpl.
  2:{ intros [= <- <- <-]. split_and!; [done|by apply prefix_nil|done]. }
  specialize (Hq _ eq_refl). rewrite <- Hdb in Hq. unfold Events in Hq. destruct (convs _ !! t); [|done].
  case_decide; [|done]. injection Hq as <-. set (next := foldl _ after _).
  destruct (polls n t p next st1) as [st2 [events e2]] eqn:P. intros [= -> <- ->].
  assert (∀ s', steps st1.(rs_store).(ls_db) s' → 0 <= next ∧
    readEvents t after s' = readEvents t after st1.(rs_store).(ls_db) ++ readEvents t next s') as Hread.
  { intros s' Hs. apply read_on; [done|by apply numbered_reachable|by eapply numbered_reachable, reachable_steps|by apply steps_events]. }
  destruct (Hread _ (rtc_refl _ _)) as [Hnext _].
  destruct (IH _ _ _ _ _ Hnext Hr1 P) as (Hs & Hp & He). destruct (Hread _ Hs) as [_ E].
  split_and!; [by etransitivity|rewrite E; by apply prefix_app|]. intros Hnone _. rewrite E. f_equal.
  destruct n as [|n]; [|by apply He]. simpl in P. injection P as <- <- _. 
  destruct (Hread _ (rtc_refl _ _)) as [_ E1]. by apply app_inv_head with (l := readEvents t after (ls_db (rs_store st1))); rewrite app_nil_r.
Qed.
End observe.

(** C33 An observer gets every event once and in order: the events of the
    snapshot followed by those sent are always a prefix of the conversation's
    log, and the whole of it as of the last poll that succeeded, whatever other
    processes write in between and however long the observer takes. *)
Theorem Observe_exactly_once `{codec : Codec} `{yaml : Yaml} `{runtime : Runtime} (n : nat) (thread principal : string) (cursor : Z)
    (st st' : rstate) (view : SnapshotView) (sent : list Event) (err : option run_error)
    (Hothers : ∀ n s, steps s (rt_outside.(x_others) n s)) (Hreach : reachable st.(rs_store).(ls_db))
    (Hobserve : Observe n thread principal cursor st = (st', Ok (view, (sent, err)))) (Hcursor : cursor <= view.(sv_Watermark)) :
  let log := readEvents thread 0 st'.(rs_store).(ls_db) in
  view.(sv_Events) ++ sent `prefix_of` log ∧ (err = None → n ≠ 0%nat → view.(sv_Events) ++ sent = log).
Proof.
  cbv zeta. unfold Observe in Hobserve. apply svc_bind_ok in Hobserve as ([] & st0 & H0 & H). apply unless_ok in H0 as [_ ->].
  apply svc_bind_ok in H as (v & st1 & Hv & H). unfold tail in H.
  destruct (polls n _ _ _ st1) as [st2 [events e2]] eqn:P. injection H as -> -> -> ->.
  apply call_query_db in Hv as [Hdb Hv]. specialize (Hv _ eq_refl). rewrite <- Hdb in Hv.
  pose proof (Hothers st.(rs_store).(ls_tick) st.(rs_store).(ls_db)) as Ho. rewrite <- Hdb in Ho.
  pose proof (reachable_steps _ _ Hreach Ho) as Hr1. clear Hdb. revert P Hcursor.
  unfold Snapshot in Hv. destruct (convs _ !! thread) as [c|] eqn:Hc; [|done]. case_decide; [|done]. injection Hv as <-. simpl.
  destruct (reachable_numbered _ _ _ Hr1 Hc) as [Hn Hlen]. intros P Hle. rewrite Z.max_r in P by done.
  assert (0 <= cv_sequence c) as Hseq by (rewrite <- Hlen; unfold zlen; lia).
  destruct (polls_sent Hothers _ _ _ _ _ _ _ _ Hseq Hr1 P) as (Hs & Hp & He).
  destruct (read_on thread 0 _ _ (Z.le_refl 0) Hn (numbered_reachable _ _ (reachable_steps _ _ Hr1 Hs)) (steps_events _ _ _ Hs)) as [_ E].
  rewrite foldl_last in E by (by rewrite readEvents_drop, drop_0 by done).
  assert (0 + zlen (readEvents thread 0 (ls_db (rs_store st1))) = cv_sequence c) as El by (rewrite readEvents_drop, drop_0 by done; lia).
  rewrite El in E. rewrite E. split; [by apply prefix_app|]. intros H1 H2. by rewrite (He H1 H2).
Qed.
