(* ===== verification/Process.v ===== *)
(** * The process

    The goroutines of [internal/platform/platform.go] and what
    [internal/service/service.go] and [cmd/agent-platform/main.go] build on
    them.  [Renewal] is the loop that keeps the lease of a run alive, with the
    time its steps take.  [Drain] is how submissions, workers, renewals, the
    reaper and the calls that shut a platform down interleave.  [Main] is the
    life of the process around them, from its configuration to its exit. *)
From S2P Require Import Prelude GoText Db CallBinding JournalCore Commands Owners Runs Operations DefinitionStore Records Service.
From S2P Require Import Keeps Journal JournalKeeps Lease Settings TenantDir Binding Guard Bundle CompileSet Loader Cost Harness Runner Platform.
From S2P Require Import Auth Provider Config ConfigSpec.
From S2P Require Litellm Foundry.

(** ** The renewal loop of [execute]

    Times are those of the database clock, in microseconds.  [delay] bounds how
    long a goroutine that can run is kept from running; a renewal is given up
    after [period] by the timeout of its context.  Everything else is free:
    when within these bounds a renewal commits and returns, whether it fails,
    and what other transactions commit in between. *)
Module Renewal.
Section renewal.
Context {codec : Codec} (delay : Z) (o : Owner).

(** [journal.LeaseDuration / 3] *)
Definition period : Z := Commands.milliseconds (LeaseDuration `quot` 3).

(** Where the loop is: not started yet, with the time of the claim; waiting for
    a tick, since when and when it is due; in a renewal, with the time its tick
    was received, before or after the commit; returned. *)
Inductive loop :=
| Starting (claimed : Z)
| Ticking (start since due : Z)
| Renewing (start received : Z)
| Renewed (start received : Z)
| Stopped.

(** The run's context is cancelled; its worker has ended it. *)
Record rstate := mk_rstate { r_now : Z; r_db : db; r_loop : loop; r_cancelled : bool; r_ended : bool }.

(** A ticker fires each [period] after its start, and drops a firing while one
    is not received: after one received at [received], the next is the first
    later firing. *)
Definition next_tick (start received : Z) : Z := start + period * ((received - start) / period + 1).

(** The latest time of the loop's next step. *)
Definition limit (l : loop) : option Z :=
  match l with
  | Starting claimed => Some (claimed + delay)
  | Ticking _ since due => Some (Z.max since due + delay)
  | Renewing _ received | Renewed _ received => Some (received + period + delay)
  | Stopped => None
  end.
Definition by_limit (now : Z) (l : loop) : Prop := from_option (λ m, now <= m) True (limit l).

(** A transaction that does not renew the lease of [o] or end its run. *)
Definition leaves_lease (x : op) : Prop :=
  ∀ o', lease_writer x = Some o' → foreign o.(ow_ID) o.(ow_Command).(c_RunID) o'.
(** One by which the worker of [o] ends the run or stops to wait. *)
Definition ends_run (x : op) : Prop := lease_writer x = Some o ∧ ∀ d, x ≠ OpRenew o d.

Inductive rmove (now : Z) (d : db) (c e : bool) : loop → db → loop → bool → bool → Prop :=
| r_idle l : rmove now d c e l d l c e
| r_other l x d' : leaves_lease x → exec now x d = Some d' → rmove now d c e l d' l c e
| r_end l x d' : ends_run x → exec now x d = Some d' → rmove now d c e l d' l c true
| r_cancel l : rmove now d c e l d l true e
| r_start claimed : rmove now d c e (Starting claimed) d (Ticking now now (now + period)) c e
| r_tick start since due : due <= now → rmove now d c e (Ticking start since due) d (Renewing start now) c e
| r_commit start received d' : exec now (OpRenew o LeaseDuration) d = Some d' →
    rmove now d c e (Renewing start received) d' (Renewed start received) c e
| r_return start received :
    rmove now d c e (Renewed start received) d (Ticking start now (next_tick start received)) c e
| r_fail start received : rmove now d c e (Renewing start received) d Stopped true e
| r_lost start received : rmove now d c e (Renewed start received) d Stopped true e
| r_done start since due : c = true → rmove now d c e (Ticking start since due) d Stopped c e.

(** A move at some time the loop's bounds allow. *)
Inductive rstep : rstate → rstate → Prop :=
| rstep_at t now d d' l l' c c' e e' : t <= now → by_limit now l → rmove now d c e l d' l' c' e' →
    rstep (mk_rstate t d l c e) (mk_rstate now d' l' c' e').

Definition claimed_at (now : Z) (d : db) : rstate := mk_rstate now d (Starting now) false false.

(** ** The lease outlives the context *)

Definition covers (until : Z) (l : loop) : Prop :=
  match l with
  | Starting claimed => claimed + 3 * period <= until
  | Ticking _ since due => Z.max since due + period + 2 * delay < until
  | Renewing _ received => received + period + delay < until
  | Renewed _ received => received + 3 * period <= until
  | Stopped => False
  end.
Definition begun (now : Z) (l : loop) : Prop :=
  match l with Renewing _ received | Renewed _ received => received <= now | _ => True end.
Definition owned (s : rstate) : Prop :=
  ∃ until, run_grip o.(ow_Command).(c_RunID) s.(r_db) =
      Some (o.(ow_Command).(c_ThreadID), RunRunning, o.(ow_ID), o.(ow_Epoch), until) ∧
    covers until s.(r_loop) ∧ begun s.(r_now) s.(r_loop) ∧ s.(r_now) < until.
Definition rinv (s : rstate) : Prop := s.(r_cancelled) = false → s.(r_ended) = false → owned s.

Context (Hdelay : 0 <= delay) (Htight : 3 * delay < period).

Lemma lease_periods : Commands.milliseconds LeaseDuration = 3 * period.
Proof. reflexivity. Qed.

Lemma next_tick_soon start received : next_tick start received <= received + period.
Proof.
  unfold next_tick. assert (0 < period) by reflexivity.
  pose proof (Z.mul_div_le (received - start) period). lia.
Qed.

Lemma covers_limit until now l : covers until l → by_limit now l → now < until.
Proof using Hdelay Htight. assert (0 < period) by reflexivity. destruct l; unfold by_limit; simpl; lia. Qed.

Lemma rinv_step s s' : rstep s s' → rinv s → rinv s'.
Proof using Hdelay Htight.
  intros [t now d d' l l' c c' e e' Ht Hl Hm] Hinv. unfold rinv in *; simpl in *. intros Hc' He'.
  assert (c = false ∧ e = false) as [-> ->] by (destruct Hm; subst; try done; by destruct c).
  destruct (Hinv eq_refl eq_refl) as (until & Hg & Hcov & Hb & Hnow). clear Hinv. simpl in *.
  pose proof (covers_limit _ _ _ Hcov Hl) as Hlt. assert (0 < period) as Hp by reflexivity.
  unfold by_limit in Hl. unfold owned; simpl.
  destruct Hm; simpl in *; simplify_eq;
    try (exists until; split_and!; [done|lia|try done; lia|lia]; fail).
  - exists until. split_and!; [done|done|destruct l; simpl in *; try done; lia|done].
  - exists until. split_and!; [by eapply exec_keeps_grip|done|destruct l; simpl in *; try done; lia|done].
  - match goal with H : committed _ _ = Some _ |- _ => apply committed_ok in H as [u (? & _ & ?)%Renew_grip] end.
    exists (now + Commands.milliseconds LeaseDuration). rewrite lease_periods. split_and!; [done|lia..].
  - pose proof (next_tick_soon start received). exists until. split_and!; [done|lia|done|done].
Qed.
End renewal.
End Renewal.

(** C3 As long as nothing cancelled the context of a worker and it did not end its
    run, the run is still its own, under a lease that has not ended, whatever
    others do: so by [lease_protects] nobody can take the run from a worker
    that has not been told to stop.  It needs goroutines that run within a
    third of [period] of when they can. *)
Theorem worker_stops_first {codec : Codec} (delay claimed : Z) (c : Command) (id : string) (o : Owner) (s d : db)
    (r : Renewal.rstate) (Hdelay : 0 <= delay) (Htight : 3 * delay < Renewal.period)
    (Hclaim : Claim claimed c id LeaseDuration s = Ok (o, d))
    (Hsteps : rtc (Renewal.rstep delay o) (Renewal.claimed_at claimed d) r)
    (Hlive : r.(Renewal.r_cancelled) = false) (Hrunning : r.(Renewal.r_ended) = false) :
  ∃ until, run_grip c.(c_RunID) r.(Renewal.r_db) = Some (c.(c_ThreadID), RunRunning, id, o.(ow_Epoch), until) ∧
    r.(Renewal.r_now) < until.
Proof.
  apply Claim_grip in Hclaim as (<- & <- & Hg).
  assert (Renewal.rinv delay o r) as Hinv.
  { assert (Renewal.rinv delay o (Renewal.claimed_at claimed d)) as H0; [|clear Hg].
    { intros _ _. exists (claimed + Commands.milliseconds LeaseDuration). rewrite Renewal.lease_periods in *.
      assert (0 < Renewal.period) by reflexivity. split_and!; [done|simpl; lia..]. }
    induction Hsteps as [|x y z Hxy _ IH]; [done|]. by apply IH, (Renewal.rinv_step delay o Hdelay Htight _ _ Hxy). }
  destruct (Hinv Hlive Hrunning) as (until & Hu & _ & _ & Hn). eauto.
Qed.

(** ** Draining

    What a platform's goroutines do, in any order.  A submission is counted
    from its gate to the end of its worker; a worker runs beside the renewal of
    its lease and ends after it.  The context of the platform is cancelled by
    [Close] and [Drain], and reaches each worker and the reaper later.
    Transactions that only read are left out. *)
Module Drain.

(** A counted submission: before its run is claimed; its worker executing, with
    the renewal's goroutine and whether its context is cancelled; its worker
    past the body of [execute], waiting for the renewal. *)
Inductive activity := Admitting | Working (renewing cancelled : bool) | Leaving (renewing : bool).
(** A call of [Drain]: waiting for the count or its own deadline, told that the
    count is zero, waiting for the reaper, returned. *)
Inductive drain_call := WaitingRuns | RunsDone | WaitingReaper | Returned (err : option string).

Record process := mk_process {
  pr_closed : bool; pr_draining : bool; pr_cancelled : bool; pr_runs : Z;
  pr_work : gmap nat activity; pr_reaping : bool; pr_drains : gmap nat drain_call;
}.
(** [New] *)
Definition new_process : process := mk_process false false false 0 ∅ true ∅.

Inductive event :=
| Enter (i : nat) | AdmissionTx (i : nat) | AdmissionEnds (i : nat) | Transfer (i : nat)
| WorkerTx (i : nat) | RenewalTx (i : nat) | RenewalFails (i : nat) | RenewalEnds (i : nat) | ContextEnds (i : nat)
| BodyEnds (i : nat) | Leave (i : nat)
| ReaperTx | ReaperEnds
| BeginsDrain | Closes
| Drains (j : nat) | CountZero (j : nat) | DrainCancels (j : nat) | DrainEnds (j : nat) | DrainExpires (j : nat).

Inductive kind := Transaction | Call | Internal.
Definition kind_of (e : event) : kind :=
  match e with
  | AdmissionTx _ | WorkerTx _ | RenewalTx _ | ReaperTx => Transaction
  | Enter _ | BeginsDrain | Closes | Drains _ => Call
  | _ => Internal
  end.

Definition with_work (runs : Z) (work : gmap nat activity) (p : process) : process :=
  mk_process p.(pr_closed) p.(pr_draining) p.(pr_cancelled) runs work p.(pr_reaping) p.(pr_drains).
Definition set_work (i : nat) (a : activity) (p : process) : process := with_work p.(pr_runs) (<[i := a]> p.(pr_work)) p.
(** [p.runs.Done()] *)
Definition done_work (i : nat) (p : process) : process := with_work (p.(pr_runs) - 1) (delete i p.(pr_work)) p.
Definition with_drains (draining cancelled : bool) (drains : gmap nat drain_call) (p : process) : process :=
  mk_process p.(pr_closed) draining cancelled p.(pr_runs) p.(pr_work) p.(pr_reaping) drains.
Definition set_drain (cancelled : bool) (j : nat) (d : drain_call) (p : process) : process :=
  with_drains p.(pr_draining) cancelled (<[j := d]> p.(pr_drains)) p.

(** The state after an event, [None] when it cannot happen: of a submission and
    its worker ([Submit], [execute]), of the reaper ([New]), and of a shutdown
    ([BeginDrain], [Close], [Drain]). *)
Definition take_work (e : event) (p : process) : option process :=
  match e with
  | Enter i =>
      if p.(pr_closed) || p.(pr_draining) then None
      else match p.(pr_work) !! i with
           | None => Some (with_work (p.(pr_runs) + 1) (<[i := Admitting]> p.(pr_work)) p)
           | Some _ => None
           end
  | AdmissionTx i => match p.(pr_work) !! i with Some Admitting => Some p | _ => None end
  | AdmissionEnds i => match p.(pr_work) !! i with Some Admitting => Some (done_work i p) | _ => None end
  | Transfer i => match p.(pr_work) !! i with Some Admitting => Some (set_work i (Working true false) p) | _ => None end
  | WorkerTx i => match p.(pr_work) !! i with Some (Working _ _) => Some p | _ => None end
  | RenewalTx i => match p.(pr_work) !! i with Some (Working true _ | Leaving true) => Some p | _ => None end
  | RenewalFails i => match p.(pr_work) !! i with Some (Working true _) => Some (set_work i (Working false true) p) | _ => None end
  | RenewalEnds i =>
      match p.(pr_work) !! i with
      | Some (Working true true) => Some (set_work i (Working false true) p)
      | Some (Leaving true) => Some (set_work i (Leaving false) p)
      | _ => None
      end
  | ContextEnds i =>
      match p.(pr_work) !! i with
      | Some (Working r false) => if p.(pr_cancelled) then Some (set_work i (Working r true) p) else None
      | _ => None
      end
  | BodyEnds i => match p.(pr_work) !! i with Some (Working r _) => Some (set_work i (Leaving r) p) | _ => None end
  | Leave i => match p.(pr_work) !! i with Some (Leaving false) => Some (done_work i p) | _ => None end
  | _ => None
  end.
Definition take_reaper (e : event) (p : process) : option process :=
  match e with
  | ReaperTx => if p.(pr_reaping) then Some p else None
  | ReaperEnds =>
      if p.(pr_reaping) && p.(pr_cancelled)
      then Some (mk_process p.(pr_closed) p.(pr_draining) p.(pr_cancelled) p.(pr_runs) p.(pr_work) false p.(pr_drains))
      else None
  | _ => None
  end.
Definition take_drain (e : event) (p : process) : option process :=
  match e with
  | BeginsDrain => Some (with_drains true p.(pr_cancelled) p.(pr_drains) p)
  | Closes =>
      if p.(pr_draining) then Some (mk_process true true true p.(pr_runs) p.(pr_work) p.(pr_reaping) p.(pr_drains)) else None
  | Drains j =>
      match p.(pr_drains) !! j with
      | None => Some (with_drains true p.(pr_cancelled) (<[j := WaitingRuns]> p.(pr_drains)) p)
      | Some _ => None
      end
  | CountZero j =>
      match p.(pr_drains) !! j with
      | Some WaitingRuns => if p.(pr_runs) =? 0 then Some (set_drain p.(pr_cancelled) j RunsDone p) else None
      | _ => None
      end
  | DrainCancels j => match p.(pr_drains) !! j with Some RunsDone => Some (set_drain true j WaitingReaper p) | _ => None end
  | DrainEnds j =>
      match p.(pr_drains) !! j with
      | Some WaitingReaper => if p.(pr_reaping) then None else Some (set_drain p.(pr_cancelled) j (Returned None) p)
      | _ => None
      end
  | DrainExpires j =>
      match p.(pr_drains) !! j with
      | Some (WaitingRuns | RunsDone) => Some (set_drain true j (Returned (Some "context deadline exceeded")) p)
      | _ => None
      end
  | _ => None
  end.
Definition take (e : event) (p : process) : option process :=
  match e with
  | Enter _ | AdmissionTx _ | AdmissionEnds _ | Transfer _ | WorkerTx _ | RenewalTx _ | RenewalFails _ | RenewalEnds _
  | ContextEnds _ | BodyEnds _ | Leave _ => take_work e p
  | ReaperTx | ReaperEnds => take_reaper e p
  | BeginsDrain | Closes | Drains _ | CountZero _ | DrainCancels _ | DrainEnds _ | DrainExpires _ => take_drain e p
  end.

Fixpoint take_all (l : list event) (p : process) : option process :=
  match l with [] => Some p | e :: l => p' ← take e p; take_all l p' end.

(** ** What is counted *)

Definition live (d : drain_call) : bool := match d with Returned (Some _) => false | WaitingRuns => false | _ => true end.

Record pinv (p : process) : Prop := {
  pv_count : p.(pr_runs) = Z.of_nat (size p.(pr_work));
  pv_closed : p.(pr_closed) = true → p.(pr_draining) = true;
  pv_cancelled : p.(pr_cancelled) = true → p.(pr_draining) = true;
  pv_drains : p.(pr_drains) ≠ ∅ → p.(pr_draining) = true;
  pv_done : ∀ j d, p.(pr_drains) !! j = Some d → live d = true → p.(pr_work) = ∅;
  pv_reaped : ∀ j, p.(pr_drains) !! j = Some (Returned None) → p.(pr_reaping) = false;
  pv_context : ∀ j, p.(pr_drains) !! j = Some WaitingReaper → p.(pr_cancelled) = true;
  pv_renewal : ∀ i, p.(pr_work) !! i ≠ Some (Working false false);
}.

Lemma pinv_new : pinv new_process.
Proof. split; try done; intros; simplify_map_eq. Qed.

Lemma filled {A} (m : gmap nat A) i x : m !! i = Some x → m ≠ ∅.
Proof. intros E ->. by rewrite lookup_empty in E. Qed.

(** While something is counted no [Drain] got past its wait. *)
Lemma counted_waits p i a j d : pinv p → p.(pr_work) !! i = Some a → p.(pr_drains) !! j = Some d → live d = false.
Proof.
  intros Hp Hi Hj. destruct (live d) eqn:E; [|done]. pose proof (pv_done p Hp j d Hj E) as Ew. by rewrite Ew in Hi.
Qed.

Lemma pinv_enter i p : pinv p → p.(pr_draining) = false → p.(pr_work) !! i = None →
  pinv (with_work (p.(pr_runs) + 1) (<[i := Admitting]> p.(pr_work)) p).
Proof.
  intros [Hc Hcl Hca Hd Hdo Hr Hx Hw] Hn Hi. split; simpl; try done.
  - rewrite map_size_insert_None by done. lia.
  - intros j d Hj _. rewrite Hd in Hn; [done|by eapply filled].
  - intros k. destruct (decide (i = k)) as [->|]; [by rewrite lookup_insert_eq|rewrite lookup_insert_ne by done; apply Hw].
Qed.

Lemma pinv_set i a b p : pinv p → p.(pr_work) !! i = Some b → a ≠ Working false false → pinv (set_work i a p).
Proof.
  intros Hp Hi Ha. pose proof (counted_waits p i b) as Hnl. pose proof Hp as [Hc Hcl Hca Hd Hdo Hr Hx Hw]. split; simpl; try done.
  - by rewrite map_size_insert_Some by done.
  - intros j d Hj Hl. by rewrite (Hnl j d) in Hl.
  - intros k. destruct (decide (i = k)) as [->|]; [rewrite lookup_insert_eq; congruence|rewrite lookup_insert_ne by done; apply Hw].
Qed.

Lemma pinv_done i b p : pinv p → p.(pr_work) !! i = Some b → pinv (done_work i p).
Proof.
  intros Hp Hi. pose proof (counted_waits p i b) as Hnl. pose proof Hp as [Hc Hcl Hca Hd Hdo Hr Hx Hw]. split; simpl; try done.
  - rewrite map_size_delete_Some by done. pose proof (map_size_ne_0_lookup_2 (pr_work p) i) as Hs. rewrite Hi in Hs.
    assert (size (pr_work p) ≠ 0%nat) by (apply Hs; eauto). lia.
  - intros j d Hj Hl. by rewrite (Hnl j d) in Hl.
  - intros k. destruct (decide (i = k)) as [->|]; [by rewrite lookup_delete_eq|rewrite lookup_delete_ne by done; apply Hw].
Qed.

Lemma pinv_drain cancelled j d p : pinv p → p.(pr_draining) = true →
  (live d = true → p.(pr_work) = ∅) → (d = Returned None → p.(pr_reaping) = false) → (d = WaitingReaper → cancelled = true) →
  (p.(pr_cancelled) = true → cancelled = true) → pinv (set_drain cancelled j d p).
Proof.
  intros [Hc Hcl Hca Hd Hdo Hr Hx Hw] Hdr Hl He Hwr Hcc. split; simpl; try done;
    intros k; destruct (decide (j = k)) as [->|]; rewrite ?lookup_insert_eq, ?lookup_insert_ne by done; naive_solver.
Qed.

Lemma pinv_drains p : pinv p → pinv (with_drains true p.(pr_cancelled) p.(pr_drains) p).
Proof. intros []. by split. Qed.

Lemma drains_set p j d : with_drains true p.(pr_cancelled) (<[j := d]> p.(pr_drains)) p =
  set_drain p.(pr_cancelled) j d (with_drains true p.(pr_cancelled) p.(pr_drains) p).
Proof. done. Qed.

(** The state an event leads to. *)
Ltac taken H := unfold take, take_work, take_reaper, take_drain in H; repeat case_match; simplify_eq.

Lemma pinv_take e p p' : take e p = Some p' → pinv p → pinv p'.
Proof.
  intros H Hp. destruct e; taken H; try done;
    try (eapply pinv_set; [done|done|by intros [=]]); try (by eapply pinv_done); try (by apply pinv_drains);
    try (eapply pinv_set; [done..|]; intros [= ->]; by eapply pv_renewal).
  - rename select (_ || _ = false) into Hn. apply orb_false_iff in Hn as [_ Hn]. by apply pinv_enter.
  - destruct Hp. by split.
  - destruct Hp. by split.
  - rewrite drains_set. by apply pinv_drain; [apply pinv_drains|..].
  - apply pinv_drain; try done; [by eapply pv_drains, filled|]. intros _. apply map_size_empty_iff.
    rename select (_ =? 0 = true) into Hz. apply Z.eqb_eq in Hz. pose proof (pv_count p Hp). lia.
  - apply pinv_drain; try done; [by eapply pv_drains, filled|]. intros _. by apply (pv_done p Hp j RunsDone).
  - apply pinv_drain; try done; [by eapply pv_drains, filled|]. intros _. by apply (pv_done p Hp j WaitingReaper).
  - apply pinv_drain; try done. by eapply pv_drains, filled.
  - apply pinv_drain; try done. by eapply pv_drains, filled.
Qed.

Lemma pinv_take_all l p p' : take_all l p = Some p' → pinv p → pinv p'.
Proof.
  revert p. induction l as [|e l IH]; intros p H Hp; [by injection H as <-|].
  apply bind_Some in H as (p1 & H1 & H). eapply IH, pinv_take; done.
Qed.

(** ** What is left to do *)

Definition total {A} (f : A → Z) (m : gmap nat A) : Z := map_fold (λ _ a n, f a + n) 0 m.

Lemma total_insert {A} (f : A → Z) m i a : m !! i = None → total f (<[i := a]> m) = f a + total f m.
Proof. intros Hi. unfold total. rewrite map_fold_insert_L; [done|intros; lia|done]. Qed.
Lemma total_delete {A} (f : A → Z) m i a : m !! i = Some a → total f (delete i m) = total f m - f a.
Proof.
  intros Hi. rewrite <- (insert_delete_id m i a Hi) at 2. rewrite total_insert by apply lookup_delete_eq. lia.
Qed.
Lemma total_update {A} (f : A → Z) m i a b : m !! i = Some a → total f (<[i := b]> m) = total f m - f a + f b.
Proof.
  intros Hi. rewrite <- insert_delete_eq, total_insert by apply lookup_delete_eq. rewrite (total_delete f m i a Hi). lia.
Qed.
Lemma total_weight_nonneg {A} (f : A → Z) m : (∀ a, 0 <= f a) → 0 <= total f m.
Proof.
  intros Hf. induction m as [|i a m Hi IH] using map_ind; [done|]. rewrite total_insert by done. specialize (Hf a). lia.
Qed.

(** At most how many internal steps are left of each. *)
Definition activity_left (a : activity) : Z :=
  match a with
  | Admitting => 5
  | Working r c => 2 + (if r then 1 else 0) + (if c then 0 else 1)
  | Leaving r => 1 + (if r then 1 else 0)
  end.
Definition drain_left (d : drain_call) : Z :=
  match d with WaitingRuns => 3 | RunsDone => 2 | WaitingReaper => 1 | Returned _ => 0 end.
Definition left_to_do (p : process) : Z :=
  total activity_left p.(pr_work) + total drain_left p.(pr_drains) + (if p.(pr_reaping) then 1 else 0).

Lemma left_nonneg p : 0 <= left_to_do p.
Proof.
  unfold left_to_do. pose proof (total_weight_nonneg activity_left (pr_work p)). pose proof (total_weight_nonneg drain_left (pr_drains p)).
  assert (∀ a, 0 <= activity_left a) by (intros [|[] []|[]]; simpl; lia).
  assert (∀ a, 0 <= drain_left a) by (intros []; simpl; lia). destruct (pr_reaping p); intuition lia.
Qed.

Definition is_kind (k : kind) (e : event) : Z :=
  match k, kind_of e with Transaction, Transaction | Call, Call | Internal, Internal => 1 | _, _ => 0 end.
Definition steps_of (k : kind) (l : list event) : Z := foldr (λ e n, is_kind k e + n) 0 l.

Lemma take_left e p p' : take e p = Some p' → left_to_do p' + is_kind Internal e <= left_to_do p + 5 * is_kind Call e.
Proof.
  intros H. destruct e; unfold is_kind; simpl kind_of; cbv iota; taken H;
    unfold left_to_do; simpl; rewrite ?total_insert by done;
    repeat match goal with
    | E : ?m !! ?i = Some _ |- context [total _ (<[?i := _]> ?m)] => rewrite (total_update _ _ _ _ _ E)
    | E : ?m !! ?i = Some _ |- context [total _ (delete ?i ?m)] => rewrite (total_delete _ _ _ _ E)
    end; simpl; repeat case_match; try lia.
Qed.

Lemma take_all_left l p p' : take_all l p = Some p' →
  left_to_do p' + steps_of Internal l <= left_to_do p + 5 * steps_of Call l.
Proof.
  revert p. induction l as [|e l IH]; intros p H; [injection H as <-; simpl; lia|].
  apply bind_Some in H as (p1 & H1 & H). apply IH in H. apply take_left in H1. unfold steps_of in *. cbn [foldr]. lia.
Qed.

(** Nothing is left running, and every [Drain] returned. *)
Definition settled (p : process) : Prop :=
  p.(pr_work) = ∅ ∧ p.(pr_reaping) = false ∧ ∀ j d, p.(pr_drains) !! j = Some d → ∃ err, d = Returned err.

Lemma counted_moves p i a : p.(pr_work) !! i = Some a → ∃ e p', kind_of e = Internal ∧ take e p = Some p'.
Proof.
  intros Hi.
  exists (match a with Admitting => AdmissionEnds i | Working _ _ => BodyEnds i | Leaving true => RenewalEnds i | Leaving false => Leave i end).
  destruct a as [|r c|[]]; eexists; (split; [done|]); unfold take, take_work, take_reaper, take_drain; by rewrite Hi.
Qed.

Lemma drain_moves p j d : pinv p → p.(pr_work) = ∅ → p.(pr_reaping) = false → p.(pr_drains) !! j = Some d →
  (∃ err, d = Returned err) ∨ ∃ e p', kind_of e = Internal ∧ take e p = Some p'.
Proof.
  intros Hp Hw Hr Hj. pose proof (pv_count p Hp) as Hc. rewrite Hw, map_size_empty in Hc.
  destruct d as [| | |err]; [right; exists (CountZero j)|right; exists (DrainCancels j)|right; exists (DrainEnds j)|by left; eauto];
    eexists; (split; [done|]); unfold take, take_work, take_reaper, take_drain; by rewrite Hj, ?Hc, ?Hr.
Qed.

Lemma cancelled_moves p : pinv p → p.(pr_cancelled) = true →
  (∀ e, kind_of e = Internal → take e p = None) → settled p.
Proof.
  intros Hp Hc Hnone.
  assert (∀ P : Prop, P ∨ (∃ e p', kind_of e = Internal ∧ take e p = Some p') → P) as Hstuck.
  { intros P [H|(e & p' & He & Ht)]; [done|]. by rewrite Hnone in Ht. }
  assert (p.(pr_work) = ∅) as Hw.
  { apply map_empty. intros i. destruct (pr_work p !! i) as [a|] eqn:E; [|done].
    apply Hstuck. right. by eapply counted_moves. }
  assert (p.(pr_reaping) = false) as Hr.
  { destruct (pr_reaping p) eqn:E; [|done]. apply Hstuck. right. exists ReaperEnds. eexists. split; [done|].
    unfold take, take_reaper. by rewrite E, Hc. }
  split_and!; [done..|]. intros j d Hj. apply Hstuck. by apply (drain_moves p j).
Qed.

Lemma stays_cancelled l p p' : p.(pr_cancelled) = true → take_all l p = Some p' → p'.(pr_cancelled) = true.
Proof.
  revert p. induction l as [|e l IH]; intros p Hc H; [by injection H as <-|].
  apply bind_Some in H as (p1 & H1 & H). eapply IH, H. destruct e; taken H1; done.
Qed.

(** Nothing that writes is left. *)
Record quiet (p : process) : Prop := {
  q_draining : p.(pr_draining) = true; q_work : p.(pr_work) = ∅; q_reaping : p.(pr_reaping) = false;
}.

Lemma quiet_take e p p' : quiet p → take e p = Some p' → quiet p' ∧ kind_of e ≠ Transaction.
Proof.
  intros [Hd Hw Hr] H. destruct e; unfold take, take_work, take_reaper, take_drain in H; rewrite ?Hw, ?Hd, ?Hr, ?lookup_empty, ?orb_true_r in H; try done;
    repeat case_match; simplify_eq; by split.
Qed.
Lemma quiet_take_all l p p' : quiet p → take_all l p = Some p' → quiet p' ∧ steps_of Transaction l = 0.
Proof.
  revert p. induction l as [|e l IH]; intros p Hq H; [by injection H as <-|].
  apply bind_Some in H as (p1 & H1 & H). apply quiet_take in H1 as [H1 Hk]; [|done]. apply IH in H as [H Ht]; [|done].
  split; [done|]. unfold steps_of in *. cbn [foldr]. rewrite Ht. unfold is_kind. by destruct (kind_of e).
Qed.
End Drain.

(** C14 A [Drain] that returned without an error left nothing behind: in whatever
    order things happened before it, no admission, worker, renewal or reaper of
    the process is left, and none ever commits a transaction again. *)
Theorem drained_is_quiet (l l' : list Drain.event) (p p' : Drain.process) (j : nat)
    (Hreach : Drain.take_all l Drain.new_process = Some p)
    (Hdrained : p.(Drain.pr_drains) !! j = Some (Drain.Returned None))
    (Hlater : Drain.take_all l' p = Some p') :
  p.(Drain.pr_work) = ∅ ∧ p.(Drain.pr_reaping) = false ∧ Drain.steps_of Drain.Transaction l' = 0.
Proof.
  pose proof (Drain.pinv_take_all _ _ _ Hreach Drain.pinv_new) as Hp.
  assert (Drain.quiet p) as Hq.
  { split; [by eapply Drain.pv_drains, Drain.filled|by eapply Drain.pv_done|by eapply Drain.pv_reaped]. }
  split_and!; [apply Hq..|]. by eapply Drain.quiet_take_all.
Qed.

(** C15 A shutdown completes: whatever is started or called, a process makes at
    most so many steps of its own, and once its context is cancelled it is
    never stuck before everything has ended and every [Drain] has returned. *)
Theorem shutdown_completes (l l' : list Drain.event) (p p' : Drain.process)
    (Hreach : Drain.take_all l Drain.new_process = Some p) (Hcancelled : p.(Drain.pr_cancelled) = true)
    (Hlater : Drain.take_all l' p = Some p') :
  Drain.steps_of Drain.Internal l' <= Drain.left_to_do p + 5 * Drain.steps_of Drain.Call l' ∧
  ((∀ e, Drain.kind_of e = Drain.Internal → Drain.take e p' = None) → Drain.settled p').
Proof.
  pose proof (Drain.take_all_left _ _ _ Hlater) as Hl. pose proof (Drain.left_nonneg p'). split; [lia|].
  apply Drain.cancelled_moves.
  - eapply Drain.pinv_take_all; [done|]. by eapply Drain.pinv_take_all, Drain.pinv_new.
  - by eapply Drain.stays_cancelled.
Qed.

(** The wait group of a platform is used as [sync.WaitGroup] demands: its
    counter is the number of submissions and workers, so never negative, and it
    is never raised while a [Drain] waits for it. *)
Theorem wait_group_respected (l : list Drain.event) (p : Drain.process) (Hreach : Drain.take_all l Drain.new_process = Some p) :
  p.(Drain.pr_runs) = Z.of_nat (size p.(Drain.pr_work)) ∧
  (p.(Drain.pr_drains) ≠ ∅ → ∀ i, Drain.take (Drain.Enter i) p = None).
Proof.
  pose proof (Drain.pinv_take_all _ _ _ Hreach Drain.pinv_new) as Hp. split; [apply Hp|].
  intros Hd i. simpl. by rewrite (Drain.pv_drains p Hp Hd), orb_true_r.
Qed.

(** A submission passes the gate of [Platform.enter] exactly when it can begin
    to be counted. *)
Lemma enter_counted (p : pstate) (d : Drain.process) (i : nat) :
  d.(Drain.pr_closed) = p.(ps_closed) → d.(Drain.pr_draining) = p.(ps_draining) → d.(Drain.pr_work) !! i = None →
  is_ok (enter p) = bool_decide (is_Some (Drain.take (Drain.Enter i) d)).
Proof.
  intros Hc Hd Hi. simpl. rewrite Hc, Hd, Hi. unfold enter.
  destruct (ps_closed p), (ps_draining p); reflexivity.
Qed.

(** ** The process around the platform *)
Module Main.

(** *** [internal/service/service.go] *)

(** [New], of which dependencies are there. *)
Definition NewService (pool authenticator model directory settings : bool) : result string unit :=
  ensure (pool && authenticator && model && directory && settings) "service dependencies are required".

Section routes.
Context `{codec : Codec} `{yaml : Yaml} `{runtime : Runtime}.

(** The status of [/livez] and [/readyz]; [None] is the chat endpoint. *)
Definition probe (path : string) (p : pstate) : pstate * option Z :=
  if bool_decide (path = "/livez") then (p, Some 200)
  else if bool_decide (path = "/readyz") then
    let '(p, r) := PlatformReady p in
    (p, Some (match r with Ok true => 200 | _ => 503 end))
  else (p, None).
End routes.

(** [Serve]: whether a server is there, and what it ends with, [None] once it
    was shut down. *)
Definition Serve (serving : bool) (ended : option string) : bool * option string :=
  if serving then (true, Some "service already serving") else (true, ended).

Inductive stop_action := StopAdmission | StopServer | StopWork | CloseServer.
(** [Shutdown], given whether its context expires and what the server and
    [Drain] return. *)
Definition Shutdown (serving expired : bool) (drainErr serverErr : option string) : list stop_action * option string :=
  ([StopAdmission] ++ (if serving then [StopServer] else []) ++ [StopWork] ++ (if expired && serving then [CloseServer] else []),
   match drainErr with Some e => Some e | None => if serving then serverErr else None end).

(** *** [cmd/agent-platform/main.go] *)

(** What [run] finds outside: the environment, the files, which of the
    libraries' constructors and calls succeed, and what ends the process. *)
Record outside := mk_outside {
  os_environment : option (string → string);
  os_directory : string → result dir_error (gmap string Entry);
  os_settings : string → result settings_error Compiled;
  os_tracing : bool; os_pool : bool; os_ping : bool; os_migrated : bool; os_credential : bool; os_listen : bool;
  os_signalled : bool; os_service_stopped : bool; os_telemetry_stopped : bool;
}.

Inductive resource := Telemetry | Database | Application.
Inductive effect := Opened (r : resource) | Closed (r : resource) | Serving | Shutting.
#[global] Instance resource_dec : EqDecision resource.
Proof. solve_decision. Defined.
#[global] Instance effect_dec : EqDecision effect.
Proof. solve_decision. Defined.

(** The effects of a part of [run] in order, whether it stopped the telemetry,
    and its result. *)
Record outcome := mk_outcome { oc_effects : list effect; oc_stopped : bool; oc_result : result string unit }.
Definition stops (text : string) : outcome := mk_outcome [] false (Err text).
Definition emit (e : effect) (o : outcome) : outcome := mk_outcome (e :: o.(oc_effects)) o.(oc_stopped) o.(oc_result).
Definition on_return (e : effect) (o : outcome) : outcome := mk_outcome (o.(oc_effects) ++ [e]) o.(oc_stopped) o.(oc_result).
Definition needs (b : bool) (text : string) (o : outcome) : outcome := if b then o else stops text.

Section run.
Context `{urls : Urls} `{jwt : Jwt} (w : outside).

Definition loadTenancy (c : config) : result string (gmap string Entry * gmap string string * Compiled) :=
  directory ← fixed "invalid tenant directory" (w.(os_directory) c.(cf_tenantDirectoryPath));
  source ← fixed "invalid settings" (w.(os_settings) c.(cf_settingsPath));
  Ok (directory, c.(cf_mcpEndpoints), source).

(** The model is configured; [parse_request] is what its adapters need of
    [url.ParseRequestURI]. *)
Definition newModel (parse_request : string → option provider_url) (c : config) : bool :=
  if bool_decide (c.(cf_modelProvider) = "litellm") then is_ok (Litellm.validate parse_provider c.(cf_litellm))
  else w.(os_credential) &&
       is_ok (Foundry.validate parse_request (Foundry.mk_Config c.(cf_foundryEndpoint) c.(cf_foundryDeployment) true)).

(** From a listener to the end: a signal shuts the service down, then the
    telemetry. *)
Definition serve_until : outcome :=
  if w.(os_signalled) then
    mk_outcome [Shutting; Closed Telemetry] true
      (if negb w.(os_service_stopped) then Err "service shutdown failed"
       else if negb w.(os_telemetry_stopped) then Err "telemetry shutdown failed"
       else Ok tt)
  else stops "service stopped".

Definition run_database (parse_request : string → option provider_url) (c : config) : outcome :=
  needs w.(os_ping) "database unavailable" (
  needs w.(os_migrated) "database migration failed" (
  needs (is_ok (NewKeycloakAuthenticator c.(cf_keycloak))) "invalid identity configuration" (
  needs (newModel parse_request c) "invalid model configuration" (
  needs (is_ok (NewService true true true true true)) "service initialization failed" (
  emit (Opened Application) (on_return (Closed Application) (
  needs w.(os_listen) "listener unavailable" (emit Serving serve_until)))))))).

Definition run (parse_request : string → option provider_url) : list effect * result string unit :=
  match loadConfig w.(os_environment) with
  | Err e => ([], Err e)
  | Ok c =>
      if negb w.(os_tracing) then ([], Err "invalid telemetry configuration")
      else
        let o := match loadTenancy c with
                 | Err e => stops e
                 | Ok _ => needs w.(os_pool) "database unavailable"
                             (emit (Opened Database) (on_return (Closed Database) (run_database parse_request c)))
                 end in
        ([Opened Telemetry] ++ o.(oc_effects) ++ (if o.(oc_stopped) then [] else [Closed Telemetry]), o.(oc_result))
  end.
End run.

(** What opens and closes a resource. *)
Definition about (r : resource) (e : effect) : bool :=
  match e, r with
  | (Opened Telemetry | Closed Telemetry), Telemetry | (Opened Database | Closed Database), Database
  | (Opened Application | Closed Application), Application => true
  | _, _ => false
  end.
Definition run_errors : list string :=
  startup_errors ++
  ["invalid telemetry configuration"; "invalid tenant directory"; "invalid settings"; "database unavailable"; "database migration failed";
   "invalid identity configuration"; "invalid model configuration"; "listener unavailable"; "service stopped"; "service shutdown failed";
   "telemetry shutdown failed"].

Lemma loadTenancy_errors w c e : loadTenancy w c = Err e → e ∈ run_errors.
Proof.
  unfold loadTenancy. destruct (os_directory w _); simpl; [|intros [= <-]; fixed_text].
  destruct (os_settings w _); simpl; [done|intros [= <-]; fixed_text].
Qed.
End Main.

(** Membership in a list of effects, and a failure before the service. *)
Ltac elements := apply (bool_decide_unpack _); vm_compute; reflexivity.
Ltac absent :=
  let Hin := fresh in
  intros Hin; exfalso; revert Hin; match goal with |- ?P → _ => exact (@bool_decide_unpack (¬ P) _ I) end.
Ltac run_fails :=
  split_and!; [intros []; cbn; auto|absent|fixed_text].

(** The readiness probe succeeds exactly when the platform takes work and its
    definitions are served; the liveness probe always does. *)
Theorem probes `{codec : Codec} `{yaml : Yaml} `{runtime : Runtime} (p : pstate) :
  (Main.probe "/livez" p).2 = Some 200 ∧
  ((Main.probe "/readyz" p).2 = Some 200 ↔
     p.(ps_closed) = false ∧ p.(ps_draining) = false ∧ (Ready p.(ps_state)).2 = Ok true) ∧
  ((Main.probe "/readyz" p).2 = Some 200 ∨ (Main.probe "/readyz" p).2 = Some 503).
Proof.
  split; [done|]. unfold Main.probe. rewrite (bool_decide_eq_false_2 ("/readyz" = "/livez")), (bool_decide_eq_true_2 ("/readyz" = "/readyz")) by done.
  unfold PlatformReady. destruct (ps_closed p), (ps_draining p); simpl; try (split; [naive_solver|auto]).
  destruct (Ready (ps_state p)) as [st [[]|e]]; simpl; (split; [naive_solver|auto]).
Qed.

(** C13 Whatever fails, [run] leaves nothing open: telemetry, database and
    application are each closed exactly once if they were opened and not at all
    otherwise; it serves only on a usable configuration, a migrated database
    and valid identity and model settings; it succeeds only after a signal and
    a clean shutdown; and what it fails with is one of fixed texts. *)
Theorem run_releases `{urls : Urls} `{jwt : Jwt} (parse_request : string → option provider_url) (w : Main.outside) :
  let '(effects, r) := Main.run w parse_request in
  (∀ k, filter (λ e, Main.about k e = true) effects = [] ∨
        filter (λ e, Main.about k e = true) effects = [Main.Opened k; Main.Closed k]) ∧
  (Main.Serving ∈ effects → w.(Main.os_migrated) = true ∧ ∃ c env, loadConfig w.(Main.os_environment) = Ok c ∧ usable env c ∧
     is_ok (Main.loadTenancy w c) = true ∧ is_ok (NewKeycloakAuthenticator c.(cf_keycloak)) = true ∧ Main.newModel w parse_request c = true) ∧
  match r with
  | Ok _ => Main.Serving ∈ effects ∧ w.(Main.os_signalled) = true ∧ w.(Main.os_service_stopped) = true ∧ w.(Main.os_telemetry_stopped) = true
  | Err e => e ∈ Main.run_errors
  end.
Proof.
  unfold Main.run. pose proof (loadConfig_says w.(Main.os_environment)) as Hc.
  destruct (loadConfig _) as [c|e] eqn:Ec; simpl in Hc; [|split_and!; [by left|by intros ?%elem_of_nil|by apply elem_of_app; left]].
  destruct Hc as (env & _ & Hu).
  destruct w.(Main.os_tracing); [|run_fails]. destruct (Main.loadTenancy w c) as [t|e] eqn:Et.
  2: { apply Main.loadTenancy_errors in Et. by split_and!; [intros []; cbn; auto|absent|]. }
  unfold Main.run_database, Main.serve_until, Main.needs.
  destruct w.(Main.os_pool); [|run_fails]. destruct w.(Main.os_ping); [|run_fails]. destruct w.(Main.os_migrated); [|run_fails].
  destruct (is_ok (NewKeycloakAuthenticator _)) eqn:Ek; [|run_fails].
  destruct (Main.newModel w parse_request c) eqn:Em; [|run_fails]. destruct w.(Main.os_listen); [|run_fails].
  assert (Main.Serving ∈ [Main.Opened Main.Telemetry; Main.Opened Main.Database; Main.Opened Main.Application; Main.Serving] ∧
    ∃ c0 env0, @Ok string config c = Ok c0 ∧ usable env0 c0 ∧ is_ok (Main.loadTenancy w c0) = true ∧
      is_ok (NewKeycloakAuthenticator c0.(cf_keycloak)) = true ∧ Main.newModel w parse_request c0 = true) as [Hin Hgood].
  { split; [elements|]. exists c, env. rewrite Et. by split_and!. }
  destruct w.(Main.os_signalled); (split_and!; [intros []; cbn; auto|done|]).
  - destruct w.(Main.os_service_stopped); [|fixed_text]. destruct w.(Main.os_telemetry_stopped); [|fixed_text].
    cbn. split_and!; [elements|done..].
  - fixed_text.
Qed.

(** ** A shutdown, played *)

(** A run executes when the platform drains: it is waited for, then the reaper
    is stopped. *)
Definition drained_events : list Drain.event :=
  [Drain.Enter 0; Drain.AdmissionTx 0; Drain.Transfer 0; Drain.WorkerTx 0; Drain.Drains 0; Drain.RenewalTx 0; Drain.ReaperTx; Drain.WorkerTx 0;
   Drain.BodyEnds 0; Drain.RenewalEnds 0; Drain.Leave 0; Drain.CountZero 0; Drain.DrainCancels 0; Drain.ReaperEnds; Drain.DrainEnds 0].
Definition drained_process : Drain.process := Eval vm_compute in default Drain.new_process (Drain.take_all drained_events Drain.new_process).
Example drained_in_time : drained_process.(Drain.pr_drains) = {[0%nat := Drain.Returned None]}.
Proof. reflexivity. Qed.
Example no_early_end : Drain.take_all (take 11 drained_events ++ [Drain.DrainEnds 0]) Drain.new_process = None.
Proof. vm_compute. reflexivity. Qed.

Definition closing_process : Drain.process :=
  Eval vm_compute in default Drain.new_process (Drain.take_all [Drain.Enter 0; Drain.Transfer 0; Drain.BeginsDrain; Drain.Closes] Drain.new_process).
Definition ending_events : list Drain.event := [Drain.ContextEnds 0; Drain.BodyEnds 0; Drain.RenewalEnds 0; Drain.Leave 0; Drain.ReaperEnds].
Definition ended_process : Drain.process := Eval vm_compute in default closing_process (Drain.take_all ending_events closing_process).

Lemma drained_is_quiet_witness : drained_process.(Drain.pr_work) = ∅ ∧ drained_process.(Drain.pr_reaping) = false.
Proof.
  assert (Drain.take_all drained_events Drain.new_process = Some drained_process) as Hreach by (vm_compute; reflexivity).
  assert (Drain.take_all [] drained_process = Some drained_process) as Hlater by reflexivity.
  destruct (drained_is_quiet drained_events [] drained_process drained_process 0 Hreach eq_refl Hlater) as (Hw & Hr & _). by split.
Defined.

Lemma shutdown_completes_witness : Drain.steps_of Drain.Internal ending_events <= 5 ∧ Drain.settled ended_process.
Proof.
  assert (Drain.take_all [Drain.Enter 0; Drain.Transfer 0; Drain.BeginsDrain; Drain.Closes] Drain.new_process = Some closing_process) as Hreach
    by (vm_compute; reflexivity).
  assert (Drain.take_all ending_events closing_process = Some ended_process) as Hlater by (vm_compute; reflexivity).
  destruct (shutdown_completes _ ending_events closing_process ended_process Hreach eq_refl Hlater) as [Hl Hs].
  split; [vm_compute in Hl |- *; exact Hl|]. apply Hs. intros e He. destruct e; try discriminate He; reflexivity.
Defined.

Lemma wait_group_respected_witness : closing_process.(Drain.pr_runs) = 1.
Proof.
  assert (Drain.take_all [Drain.Enter 0; Drain.Transfer 0; Drain.BeginsDrain; Drain.Closes] Drain.new_process = Some closing_process) as Hreach
    by (vm_compute; reflexivity).
  exact (proj1 (wait_group_respected _ closing_process Hreach)).
Defined.
