(* ===== verification/RunnerStart.v ===== *)
(** * Starting a run finds its definition set

    [Runner.Binding] resolves under a predicate that only knows which sets are
    loaded, loads what was missing and tries again.  The predicate is asked
    about one digest, so a second attempt succeeds whenever the store can
    serve it. *)
From S2P Require Import Prelude GoText Db CallBinding JournalCore DefinitionStore Service Keeps JournalKeeps Rollout.
From S2P Require Import Bundle Journey CompileSet CompileSpec Loader LoaderSpec Harness Runner RunnerSpec.

#[local] Set Default Proof Using "Type".

(** ** What the predicate is asked *)

Lemma lockOwner_same now o s u s' : lockOwner now o s = Ok (u, s') → s' = s.
Proof. by intros [-> _]%lockOwner_ok. Qed.

(** [ResolveDefinition] depends on its predicate through the digest [asked]
    only: served, it goes on as if everything were; not served, it is refused. *)
Lemma ResolveDefinition_asks now f o s :
  ResolveDefinition now (Some f) o s =
  match asked now o s with
  | [d] => if f d then ResolveDefinition now (Some (λ _, true)) o s else Err ErrDefinition
  | _ => ResolveDefinition now (Some (λ _, true)) o s
  end.
Proof.
  unfold asked, ResolveDefinition, serves, has_served. cbv zeta.
  rewrite !guard_run by done. destruct (lockOwner now o s) as [[u s1]|e] eqn:L; [|by rewrite !(bind_stop _ _ _ _ L)].
  pose proof (lockOwner_same _ _ _ _ _ L) as ->. rewrite !(bind_run _ _ _ _ _ L), !get_run.
  destruct (convs s !! _) as [conv|] eqn:C; [|done]. rewrite !(the_run _ _ conv) by done. rewrite !get_run.
  destruct (cv_definition conv) as [pin|].
  - rewrite !get_run. destruct (current s) as [d|].
    + destruct (negb (bool_decide (d = pin)) && conversationIdle o s);
        destruct (f _) eqn:F; rewrite ?(guard_run _ _ _ _ F), ?(guard_stop _ _ _ _ F); done.
    + destruct (f pin) eqn:F; rewrite ?(guard_run _ _ _ _ F), ?(guard_stop _ _ _ _ F); done.
  - destruct (current s) as [d|]; [|done]. rewrite !(the_run _ _ d) by done.
    destruct (f d) eqn:F; rewrite ?(guard_run _ _ _ _ F), ?(guard_stop _ _ _ _ F); done.
Qed.

Lemma asked_digest now o s d s' : ResolveDefinition now (Some (λ _, true)) o s = Ok (d, s') → asked now o s = [d].
Proof.
  unfold asked, ResolveDefinition, serves, has_served. cbv zeta. intros H. tx_guard H Hg. tx_step H u s1 L.
  rewrite L. apply lockOwner_same in L as ->. tx_get H row. tx_the H conv C. rewrite C. tx_get H cur.
  destruct (cv_definition conv) as [pin|].
  - tx_get H idle. destruct (current s) as [c|].
    + destruct (negb (bool_decide (c = pin)) && conversationIdle o s).
      * tx_guard H Hs. tx_step H u2 s2 H2. tx_step H u3 s3 H3. by injection H as <- _.
      * tx_guard H Hs. by injection H as <- _.
    + tx_guard H Hs. by injection H as <- _.
  - tx_the H c Hc. rewrite Hc. tx_guard H Hs. tx_step H u2 s2 H2. by injection H as <- _.
Qed.

(** At another time the same digest is asked about, or none. *)
Lemma asked_now now now' o s d : asked now o s = [d] → asked now' o s = [d] ∨ asked now' o s = [].
Proof.
  unfold asked. cbv zeta. destruct (lockOwner now o s); [|done]. intros H. destruct (lockOwner now' o s); [by left|by right].
Qed.

(** At most one digest is asked about. *)
Lemma asked_one now o s : asked now o s = [] ∨ ∃ d, asked now o s = [d].
Proof. unfold asked. cbv zeta. repeat case_match; eauto. Qed.

(** ** The attempts *)

Section alone.
Context `{codec : Codec} `{yaml : Yaml} `{runtime : Runtime}.
Context (alone : ∀ n s, rt_outside.(x_others) n s = s) (no_fault : ∀ n, rt_outside.(x_fault) n = NoFault).
#[local] Existing Instance runtime_replica.

Lemma stored_run {A} (m : prog lstate store_error A) st s' a : m st.(rs_store) = (s', Ok a) →
  stored m st = (mk_rstate s' st.(rs_log), Ok a).
Proof. unfold stored. by intros ->. Qed.

Lemma call_alone {A} (t : Z → tx A) st a s' : t (rt_outside.(x_now) st.(rs_store).(ls_tick)) st.(rs_store).(ls_db) = Ok (a, s') →
  call t st = (mk_rstate (with_db s' st.(rs_store)) st.(rs_log), Ok a).
Proof using alone no_fault. intros H. apply stored_run. rewrite (store_alone (replica := runtime_replica) alone no_fault). simpl. by rewrite H. Qed.

(** The state after a resolution: the digest is loaded, the database is the
    one the transaction left. *)
Definition resolved (d : string) (s' : db) (st st' : rstate) : Prop :=
  st'.(rs_store).(ls_db) = s' ∧ Served st'.(rs_store) d = true ∧ st'.(rs_log) = st.(rs_log).

Context (o : Owner) (d : string) (s : db) (answer : result error (string * db)).
(** At the [n]th call the journal asks about [d], and answers [answer] when it
    is served. *)
Definition answers (n : nat) : Prop :=
  ResolveDefinition (rt_outside.(x_now) n) (Some (λ _, true)) o s = answer ∧
  (asked (rt_outside.(x_now) n) o s = [d] ∨ asked (rt_outside.(x_now) n) o s = []).
(** What an attempt under a predicate that serves [d] comes to. *)
Definition reply : result run_error string :=
  match answer with Ok (digest, _) => Ok digest | Err e => Err (XStore (SJournal e)) end.
Definition reply_db : db := match answer with Ok (_, s') => s' | Err _ => s end.

Lemma store_tick {A} (t : Z → tx A) st : ls_tick (store t st).1 = S (ls_tick st).
Proof using. unfold store. by destruct (transact _ _ _). Qed.
Lemma Load_tick digest st : (ls_tick st ≤ ls_tick (Load digest st).1 ≤ S (ls_tick st))%nat.
Proof using.
  unfold Load. rewrite asks_bind. destruct (ls_sets st !! digest); [simpl; lia|].
  pose proof (store_tick (query (DefinitionSet digest)) st) as H. unfold mbind, prog_bind.
  destruct (store (query (DefinitionSet digest)) st) as [st1 [files|e]]; simpl in H; [|simpl; lia].
  destruct (CompileBundle files) as [set|]; [|simpl; lia]. unfold unless. destruct (bool_decide _); simpl; lia.
Qed.

Lemma resolve_served n st : answers st.(rs_store).(ls_tick) → st.(rs_store).(ls_db) = s → Served st.(rs_store) d = true →
  resolve_attempts n o st = (mk_rstate (with_db reply_db st.(rs_store)) st.(rs_log), reply).
Proof using alone no_fault.
  intros [Hr Ha] Hs Hd.
  assert (call (resolve_noting (Served st.(rs_store)) o) st = (mk_rstate (with_db reply_db st.(rs_store)) st.(rs_log),
    Ok (match answer with Ok (digest, _) => Ok digest | Err e => Err (e, []) end))) as E.
  { apply call_alone. unfold resolve_noting, reply_db. rewrite Hs, ResolveDefinition_asks, Hr.
    destruct Ha as [-> | ->]; rewrite ?Hd; destruct answer as [[digest s']|e]; try done. by rewrite filter_cons_False by congruence. }
  unfold reply. destruct n as [|n]; cbn [resolve_attempts]; rewrite asks_bind; unfold mbind, prog_bind; rewrite E; destruct answer as [[digest s']|e]; try done.
  by rewrite (bool_decide_eq_true_2 ([] = [])), andb_false_r by done.
Qed.

(** The digest is not served yet: it is noted, loaded and asked about again. *)
Lemma resolve_missing n st : asked (rt_outside.(x_now) st.(rs_store).(ls_tick)) o s = [d] → st.(rs_store).(ls_db) = s →
  Served st.(rs_store) d = false →
  resolve_attempts (S n) o st = (_ ← load_missing [d]; resolve_attempts n o) (mk_rstate (with_db s st.(rs_store)) st.(rs_log)).
Proof using alone no_fault.
  intros Ha Hs Sd. assert (call (resolve_noting (Served st.(rs_store)) o) st =
    (mk_rstate (with_db s st.(rs_store)) st.(rs_log), Ok (Err (ErrDefinition, [d])))) as E.
  { apply call_alone. unfold resolve_noting. rewrite Hs, ResolveDefinition_asks, Ha, Sd. by rewrite filter_cons_True. }
  cbn [resolve_attempts]. rewrite asks_bind. unfold mbind at 1, prog_bind at 1. rewrite E.
  by rewrite bool_decide_eq_true_2, bool_decide_eq_false_2 by done.
Qed.

Lemma resolve_loads n st set : (∀ k, (st.(rs_store).(ls_tick) ≤ k ≤ st.(rs_store).(ls_tick) + 2)%nat → answers k) →
  asked (rt_outside.(x_now) st.(rs_store).(ls_tick)) o s = [d] →
  st.(rs_store).(ls_db) = s → cache_ok st.(rs_store) → served_set s d = Some set →
  ∃ st', resolve_attempts (S n) o st = (st', reply) ∧ st'.(rs_store).(ls_db) = reply_db ∧ st'.(rs_log) = st.(rs_log) ∧
    st'.(rs_store).(ls_sets) !! d = Some set.
Proof using alone no_fault.
  intros Hr Ha Hs Hok Hd. pose proof (Hr st.(rs_store).(ls_tick) ltac:(lia)) as Hr0.
  assert (∀ ls, cache_ok ls → ls.(ls_db) = s → Served ls d = true → ls.(ls_sets) !! d = Some set) as Hset.
  { intros ls Hc E [t Ht]%bool_decide_eq_true. pose proof (Hc _ _ Ht) as H. rewrite E in H. congruence. }
  destruct (Served st.(rs_store) d) eqn:Sd.
  { eexists. split; [by apply resolve_served|]. split_and!; [done..|]. simpl. by apply Hset. }
  set (st1 := mk_rstate (with_db s st.(rs_store)) st.(rs_log)).
  assert (cache_ok st1.(rs_store)) as Hok1 by (unfold st1; rewrite <- Hs; exact Hok).
  destruct (Load_alone (replica := runtime_replica) alone no_fault d st1.(rs_store) Hok1) as (ls2 & EL & Edb & Hok2 & _ & Hserved).
  change (ls_db (rs_store st1)) with s in *. rewrite Hd in EL.
  assert (Served ls2 d = true) as Hserved2 by (rewrite Hserved; apply bool_decide_eq_true; by exists set).
  assert (answers ls2.(ls_tick)) as Hr2.
  { apply Hr. pose proof (Load_tick d st1.(rs_store)) as H1. rewrite EL in H1. simpl in *. lia. }
  exists (mk_rstate (with_db reply_db ls2) st.(rs_log)). split; [|split_and!; [done|done|exact (Hset ls2 Hok2 Edb Hserved2)]].
  - rewrite (resolve_missing _ _ Ha Hs Sd). unfold mbind, prog_bind. cbn [load_missing].
    fold st1.
    unfold mbind, prog_bind. rewrite (stored_run _ st1 _ _ EL). by apply (resolve_served n (mk_rstate ls2 st1.(rs_log))).
Qed.

(** A digest that cannot be served is refused, and nothing is written. *)
Lemma resolve_refuses n st : asked (rt_outside.(x_now) st.(rs_store).(ls_tick)) o s = [d] → st.(rs_store).(ls_db) = s →
  cache_ok st.(rs_store) → served_set s d = None →
  ∃ st', resolve_attempts (S n) o st = (st', Err (XStore (SJournal ErrDefinition))) ∧
    st'.(rs_store).(ls_db) = s ∧ st'.(rs_log) = st.(rs_log).
Proof using alone no_fault.
  intros Hr Hs Hok Hd. destruct (Served st.(rs_store) d) eqn:Sd.
  { apply Served_servable, bool_decide_eq_true in Sd as [set Ht]; [|done]. rewrite Hs in Ht. congruence. }
  rewrite (resolve_missing _ _ Hr Hs Sd). set (st1 := mk_rstate (with_db s st.(rs_store)) st.(rs_log)).
  assert (cache_ok st1.(rs_store)) as Hok1 by (unfold st1; rewrite <- Hs; exact Hok).
  destruct (Load_alone (replica := runtime_replica) alone no_fault d st1.(rs_store) Hok1) as (ls2 & EL & Edb & _).
  change (ls_db (rs_store st1)) with s in *. rewrite Hd in EL. exists (mk_rstate ls2 st.(rs_log)). split; [|done].
  unfold mbind, prog_bind. cbn [load_missing]. unfold mbind, prog_bind, stored. by rewrite EL.
Qed.
End alone.

#[local] Existing Instance runtime_replica.

(** C27 How a run finds its definition set. When no other process writes, no call
    fails, and the journal would answer the same at each of the three calls the
    resolution may make (the owner's lease lasts): if the digest the journal
    asks about cannot be served, because its stored files do not compile to it,
    the run is refused and nothing is written; otherwise the result is the
    journal's refusal if there is one, or the conversation is pinned to the
    digest, whose set is loaded within two attempts whether or not this replica
    served it before, and the result is the target if the set has it or there
    is none, or the refusal of an unknown target. Nothing is sent in any case. *)
Theorem BindingOf_alone `{codec : Codec} `{yaml : Yaml} `{runtime : Runtime} (i : TurnInput) (st : rstate)
    (answer : result error (string * db))
    (Halone : ∀ n s, rt_outside.(x_others) n s = s) (Hfault : ∀ n, rt_outside.(x_fault) n = NoFault) (Hcache : cache_ok st.(rs_store))
    (Hresolve : ∀ n, (st.(rs_store).(ls_tick) ≤ n ≤ st.(rs_store).(ls_tick) + 2)%nat →
      ResolveDefinition (rt_outside.(x_now) n) (Some (λ _, true)) i.(ri_Owner) st.(rs_store).(ls_db) = answer) :
  let s := st.(rs_store).(ls_db) in
  let refused := existsb (λ d, negb (servable s d)) (asked (rt_outside.(x_now) st.(rs_store).(ls_tick)) i.(ri_Owner) s) in
  ∃ st', st'.(rs_log) = st.(rs_log) ∧
    st'.(rs_store).(ls_db) = (match answer with Ok (_, s') => if refused then s else s' | Err _ => s end) ∧
    BindingOf i st = (st',
      if refused then Err (XStore (SJournal ErrDefinition))
      else match answer with
      | Err e => Err (XStore (SJournal e))
      | Ok (d, _) =>
          if bool_decide (i.(ri_TargetJourney) = "") then Ok ("", d)
          else match served_set s d ≫= (λ set, FindJourney set i.(ri_TargetJourney)) with
               | None => Err (XTarget ErrJourneyUnavailable "unknown journey target")
               | Some _ => Ok (i.(ri_TargetJourney), d)
               end
      end).
Proof.
  cbv zeta. set (s := st.(rs_store).(ls_db)) in *. set (n0 := st.(rs_store).(ls_tick)) in *.
  pose proof (Hresolve n0 ltac:(lia)) as H0. unfold BindingOf. cbn [Nat.sub bindingAttempts].
  assert (∀ d n, asked (rt_outside.(x_now) n0) i.(ri_Owner) s = [d] → (n0 ≤ n ≤ n0 + 2)%nat → answers i.(ri_Owner) d s answer n) as Hans.
  { intros d n Ha Hn. split; [by apply Hresolve|]. by eapply asked_now. }
  destruct (asked_one (rt_outside.(x_now) n0) i.(ri_Owner) s) as [Ha|[d Ha]]; rewrite Ha; cbn [existsb]; rewrite ?orb_false_r.
  - destruct answer as [[d s']|e]; [apply asked_digest in H0; congruence|].
    assert (call (resolve_noting (Served st.(rs_store)) i.(ri_Owner)) st = (mk_rstate (with_db s st.(rs_store)) st.(rs_log), Ok (Err (e, [])))) as E.
    { apply (call_alone Halone Hfault). unfold resolve_noting. fold n0 s. by rewrite ResolveDefinition_asks, Ha, H0. }
    assert (resolve_attempts 2 i.(ri_Owner) st = (mk_rstate (with_db s st.(rs_store)) st.(rs_log), Err (XStore (SJournal e)))) as ER.
    { cbn [resolve_attempts]. rewrite asks_bind. unfold mbind, prog_bind. rewrite E. by rewrite (bool_decide_eq_true_2 ([] = [])), andb_false_r by done. }
    exists (mk_rstate (with_db s st.(rs_store)) st.(rs_log)). split_and!; [done..|]. unfold mbind, prog_bind. by rewrite ER.
  - unfold servable. destruct (served_set s d) as [set|] eqn:Es.
    + destruct (resolve_loads Halone Hfault i.(ri_Owner) d s answer 1 st set (λ k, Hans d k Ha) Ha eq_refl Hcache Es) as (st1 & E & Hdb & Hlog & Hset).
      exists st1. rewrite bool_decide_eq_true_2 by done. cbn [negb]. unfold reply_db in Hdb. split_and!; [done|by destruct answer as [[]|]|].
      unfold mbind, prog_bind. rewrite E. unfold reply. destruct answer as [[d' s']|e]; [|done].
      assert (d' = d) as -> by (apply asked_digest in H0; congruence). rewrite Es.
      assert (Load d st1.(rs_store) = (st1.(rs_store), Ok set)) as EL by (unfold Load; by rewrite asks_bind, Hset).
      rewrite (stored_run _ st1 _ _ EL). destruct st1; cbn. by repeat case_match.
    + destruct (resolve_refuses Halone Hfault i.(ri_Owner) d s 1 st Ha eq_refl Hcache Es) as (st1 & E & Hdb & Hlog).
      exists st1. rewrite bool_decide_eq_false_2 by (by intros []). cbn [negb]. split_and!; [done|by destruct answer as [[]|]|].
      unfold mbind, prog_bind. by rewrite E.
Qed.
