(* ===== verification/Sse.v ===== *)
(** * The event stream on the wire

    What [internal/chat/http.go] writes for a frame and how
    [internal/devtui/client.go] reads a stream back: the lines of the response,
    their limits, and the events handed to the caller.  The JSON of an AG-UI
    event is the library's, so a frame is its text here; the reader only
    decodes its type ([json_type]). *)
From stdpp Require Import pretty.
From Stdlib Require Import Ascii.
From S2P Require Import Prelude GoText.
#[local] Open Scope Z_scope.
#[local] Set Default Proof Using "Type".

Definition line_feed : ascii := "010".
Definition eol : string := String line_feed "".

(** ** Writing *)

(** [emit] of [http.go], for the JSON of an event. *)
Definition write_frame (payload : string) (sequence : Z) : string :=
  (if 0 <? sequence then "id: " +:+ pretty sequence +:+ eol else "") +:+ "data: " +:+ payload +:+ eol +:+ eol.
Definition write_stream (l : list (string * Z)) : string := join "" ((λ f, write_frame f.1 f.2) <$> l).

(** ** Reading *)

Definition maxSSELine : Z := 256 * 2 ^ 10.
Definition maxSSEEvent : Z := 256 * 2 ^ 10.

Record SseEvent := mk_SseEvent { se_Type : string; se_Data : string }.
Inductive sse_error := LineTooLong | EventTooLong | UnexpectedEOF.

(** The lines of [bufio.Scanner]: a last line without its end counts unless it
    is empty. *)
Fixpoint drop_last_empty (l : list string) : list string :=
  match l with
  | [] => []
  | [""] => []
  | x :: l => x :: drop_last_empty l
  end.
Definition raw_lines (body : string) : list string := drop_last_empty (split line_feed body).
(** A carriage return before the end is not part of the line. *)
Fixpoint drop_cr (s : string) : string :=
  match s with
  | "" => ""
  | String c "" => if decide (c = "013"%char) then "" else s
  | String c s => String c (drop_cr s)
  end.

Section sse.
Context (json_type : string → string).

Definition terminal_type (t : string) : bool := bool_decide (t = "RUN_FINISHED") || bool_decide (t = "RUN_ERROR").

(** The reader: the event being read, what was received, and whether a
    terminal event was. *)
Record reader := mk_reader { rd_event : SseEvent; rd_received : list SseEvent; rd_terminal : bool }.
Definition no_event : SseEvent := mk_SseEvent "" "".
Definition new_reader : reader := mk_reader no_event [] false.

(** [emit] of [parseSSE] *)
Definition emit_event (r : reader) : reader :=
  let e := r.(rd_event) in
  if bool_decide (e.(se_Data) = "") then r
  else
    let e := mk_SseEvent (if bool_decide (e.(se_Type) = "") then json_type e.(se_Data) else e.(se_Type)) e.(se_Data) in
    mk_reader e (r.(rd_received) ++ [e]) (r.(rd_terminal) || terminal_type e.(se_Type)).

(** One line. *)
Definition read_line (line : string) (r : reader) : result sse_error reader :=
  let e := r.(rd_event) in
  if bool_decide (line = "") then
    let r := emit_event r in Ok (mk_reader no_event r.(rd_received) r.(rd_terminal))
  else if has_prefix "event:" line then
    Ok (mk_reader (mk_SseEvent (trim_space (trim_prefix "event:" line)) e.(se_Data)) r.(rd_received) r.(rd_terminal))
  else if has_prefix "data:" line then
    let data := trim_space (trim_prefix "data:" line) in
    if maxSSEEvent <? slen e.(se_Data) + slen data + 1 then Err EventTooLong
    else
      let joined := if bool_decide (e.(se_Data) = "") then data else e.(se_Data) +:+ eol +:+ data in
      Ok (mk_reader (mk_SseEvent e.(se_Type) joined) r.(rd_received) r.(rd_terminal))
  else Ok r.

(** The loop over the lines: what was received, and how it ended. *)
Fixpoint read_lines (l : list string) (r : reader) : reader * option sse_error :=
  match l with
  | [] => (r, None)
  | raw :: l =>
      if maxSSELine <=? slen raw then (r, Some LineTooLong)
      else match read_line (drop_cr raw) r with
           | Ok r => read_lines l r
           | Err e => (r, Some e)
           end
  end.
Definition parseSSE (body : string) : list SseEvent * option sse_error :=
  match read_lines (raw_lines body) new_reader with
  | (r, Some e) => (r.(rd_received), Some e)
  | (r, None) =>
      let r := emit_event r in
      (r.(rd_received), if r.(rd_terminal) then None else Some UnexpectedEOF)
  end.
End sse.

(** ** A stream is read back *)

(** What the JSON of an event is like: one line without surrounding blanks, and
    within the limits of the reader. *)
Definition wire_ok (payload : string) : bool :=
  negb (bool_decide (payload = "")) && lacks line_feed payload && lacks "013"%char payload &&
  bool_decide (trim_space payload = payload) && (slen payload + 6 <? maxSSELine).

Definition frame_lines (f : string * Z) : list string :=
  (if 0 <? f.2 then ["id: " +:+ pretty f.2] else []) ++ ["data: " +:+ f.1; ""].

(** A number prints as at most as many digits as its bound has. *)
Lemma pretty_go k : ∀ (x : N) s, (x < 10 ^ N.of_nat k)%N →
  slen (pretty.pretty_N_go x s) <= Z.of_nat k + slen s ∧
  (∀ p : ascii → bool, (∀ c, is_digit c = true → p c = true) → all_bytes p s = true → all_bytes p (pretty.pretty_N_go x s) = true).
Proof.
  induction k as [|k IH]; intros x s Hx.
  - assert (x = 0)%N as -> by (simpl in Hx; lia). rewrite pretty.pretty_N_go_0. split; [lia|done].
  - destruct (decide (x = 0)%N) as [->|Hne]; [rewrite pretty.pretty_N_go_0; split; [lia|done]|].
    rewrite pretty.pretty_N_go_step by lia. set (c := pretty.pretty_N_char (x `mod` 10)).
    assert (x `div` 10 < 10 ^ N.of_nat k)%N as Hd.
    { apply N.Div0.div_lt_upper_bound. replace (N.of_nat (S k)) with (N.succ (N.of_nat k)) in Hx by lia. by rewrite N.pow_succ_r' in Hx. }
    destruct (IH _ (String c s) Hd) as [H1 H2]. split.
    + unfold slen in *. cbn [String.length] in H1. lia.
    + intros p Hp Hs. apply H2; [done|]. simpl. rewrite Hs, Hp; [done|]. apply pretty_N_char_digit.
Qed.
Lemma pretty_number (q : Z) : 0 < q < 2 ^ 63 →
  slen (pretty q) <= 19 ∧ ∀ p : ascii → bool, (∀ c, is_digit c = true → p c = true) → all_bytes p (pretty q) = true.
Proof.
  intros Hq. destruct q as [|x|x]; try lia. change (pretty (Z.pos x)) with (pretty (N.pos x)). unfold pretty, pretty.pretty_N.
  case_decide; [done|]. destruct (pretty_go 19 (N.pos x) "") as [H1 H2].
  - change (10 ^ N.of_nat 19)%N with 10000000000000000000%N. lia.
  - split; [unfold slen in *; simpl in *; lia|]. intros p Hp. by apply H2.
Qed.

Lemma drop_cr_lacks s : lacks "013"%char s = true → drop_cr s = s.
Proof.
  induction s as [|c s IH]; [done|]. unfold lacks in *. cbn [all_bytes]. intros [Hc Hs]%andb_true_iff.
  apply negb_true_iff, bool_decide_eq_false in Hc. destruct s as [|d s]; simpl; [by rewrite decide_False|]. f_equal. by apply IH.
Qed.

Lemma drop_last_snoc l : drop_last_empty (l ++ [""]) = l.
Proof.
  induction l as [|x l IH]; [done|]. simpl. destruct x; [|by rewrite IH]. rewrite IH. by destruct l.
Qed.

Lemma split_frame p q rest : lacks line_feed p = true → q < 2 ^ 63 →
  split line_feed (write_frame p q +:+ rest) = frame_lines (p, q) ++ split line_feed rest.
Proof.
  intros Hp Hq. unfold write_frame, frame_lines. cbn [fst snd].
  assert (split line_feed (("data: " +:+ p +:+ eol +:+ eol) +:+ rest) = ["data: " +:+ p; ""] ++ split line_feed rest) as Hdata.
  { rewrite !append_assoc. change (eol +:+ eol +:+ rest) with (String line_feed (String line_feed rest)).
    rewrite <- append_assoc. rewrite split_app by (by rewrite lacks_app, Hp). done. }
  destruct (0 <? q) eqn:E; [|exact Hdata]. destruct (pretty_number q ltac:(lia)) as [_ Hdig].
  assert (lacks line_feed ("id: " +:+ pretty q) = true) as Hid.
  { rewrite lacks_app. apply andb_true_iff. split; [done|]. apply Hdig. intros c Hc. apply negb_true_iff, bool_decide_eq_false. by intros ->. }
  rewrite !append_assoc. rewrite <- (append_assoc "id: "). change (eol +:+ ?x) with (String line_feed x) at 1.
  rewrite split_app by done. cbn [app]. f_equal. rewrite !append_assoc in Hdata. exact Hdata.
Qed.

Lemma write_cons f l : write_stream (f :: l) = write_frame f.1 f.2 +:+ write_stream l.
Proof.
  unfold write_stream. destruct l as [|g l]; [|done]. cbn. induction (write_frame f.1 f.2) as [|c s IH]; [done|].
  by rewrite str_cons_app, <- IH.
Qed.

Lemma raw_lines_written l : Forall (λ f, wire_ok f.1 = true ∧ f.2 < 2 ^ 63) l → raw_lines (write_stream l) = l ≫= frame_lines.
Proof.
  intros Hl. unfold raw_lines. enough (split line_feed (write_stream l) = (l ≫= frame_lines) ++ [""]) as ->; [apply drop_last_snoc|].
  induction Hl as [|[p q] l [Hw Hq] Hl IH]; [done|]. cbn [fst snd] in *. rewrite write_cons. cbn [fst snd].
  unfold wire_ok in Hw. rewrite !andb_true_iff in Hw. destruct Hw as [[[[_ Hp] _] _] _].
  rewrite split_frame, IH by done. cbn [mbind list_bind]. by rewrite <- app_assoc.
Qed.

Lemma trim_space_blank s : trim_space (String " " s) = trim_space s.
Proof. unfold trim_space, runes. cbn [String.length runes_fuel]. unfold decode_rune at 1. simpl. done. Qed.

Section roundtrip.
Context (json_type : string → string).

(** Reading the lines of one frame between events. *)
Lemma read_frame f received terminal l : wire_ok f.1 = true → f.2 < 2 ^ 63 →
  read_lines json_type (frame_lines f ++ l) (mk_reader no_event received terminal) =
  read_lines json_type l (mk_reader no_event (received ++ [mk_SseEvent (json_type f.1) f.1]) (terminal || terminal_type (json_type f.1))).
Proof.
  destruct f as [p q]. unfold wire_ok, frame_lines. cbn [fst snd]. rewrite !andb_true_iff, negb_true_iff, bool_decide_eq_false, bool_decide_eq_true.
  intros ((((Hne & Hlf) & Hcr) & Htrim) & Hlen) Hq.
  assert (∀ r, read_lines json_type (("data: " +:+ p) :: "" :: l) r = match read_line json_type ("data: " +:+ p) r with
    | Ok r => read_lines json_type ("" :: l) r | Err e => (r, Some e) end) as Hdata.
  { intros r. cbn [read_lines]. rewrite slen_app. change (slen "data: ") with 6.
    rewrite (proj2 (Z.leb_gt _ _)) by lia. rewrite drop_cr_lacks; [done|]. by rewrite lacks_app, Hcr. }
  assert (read_lines json_type (("data: " +:+ p) :: "" :: l) (mk_reader no_event received terminal) =
    read_lines json_type l (mk_reader no_event (received ++ [mk_SseEvent (json_type p) p]) (terminal || terminal_type (json_type p)))) as Hframe.
  { rewrite Hdata. unfold read_line at 1. change (bool_decide ("data: " +:+ p = "")) with false. cbv iota.
    change (has_prefix "event:" ("data: " +:+ p)) with false. cbv iota.
    assert (has_prefix "data:" ("data: " +:+ p) = true ∧ trim_prefix "data:" ("data: " +:+ p) = String " " p) as [-> ->].
    { unfold trim_prefix, has_prefix. by destruct p. }
    rewrite trim_space_blank, Htrim. cbn [se_Data no_event rd_event se_Type]. change (slen "") with 0.
    rewrite (proj2 (Z.ltb_ge _ _)) by (unfold maxSSELine, maxSSEEvent in *; lia). cbn [bool_decide rd_received rd_terminal].
    rewrite bool_decide_eq_true_2 by done. cbn [read_lines]. change (maxSSELine <=? slen "") with false. cbv iota.
    unfold read_line, emit_event. cbn [drop_cr rd_event se_Data se_Type rd_received rd_terminal].
    by rewrite (bool_decide_eq_true_2 ("" = "")), (bool_decide_eq_false_2 (p = "")). }
  destruct (0 <? q) eqn:E; [|exact Hframe]. cbn [app read_lines]. destruct (pretty_number q ltac:(lia)) as [Hl Hdig].
  assert (slen ("id: " +:+ pretty q) <= 23) as Hl' by (rewrite slen_app; change (slen "id: ") with 4; lia).
  rewrite (proj2 (Z.leb_gt _ _)) by (unfold maxSSELine; lia).
  rewrite drop_cr_lacks.
  2:{ rewrite lacks_app. apply andb_true_iff. split; [done|]. apply Hdig. intros c Hc. apply negb_true_iff, bool_decide_eq_false. by intros ->. }
  unfold read_line at 1. change (bool_decide ("id: " +:+ pretty q = "")) with false. cbv iota.
  change (has_prefix "event:" ("id: " +:+ pretty q)) with false. change (has_prefix "data:" ("id: " +:+ pretty q)) with false. cbv iota.
  exact Hframe.
Qed.

Lemma read_stream l : ∀ received terminal, Forall (λ f, wire_ok f.1 = true ∧ f.2 < 2 ^ 63) l →
  read_lines json_type (l ≫= frame_lines) (mk_reader no_event received terminal) =
  (mk_reader no_event (received ++ ((λ f, mk_SseEvent (json_type f.1) f.1) <$> l))
     (terminal || existsb (λ f, terminal_type (json_type f.1)) l), None).
Proof.
  induction l as [|f l IH]; intros received terminal Hl; [by rewrite app_nil_r, orb_false_r|].
  apply Forall_cons in Hl as [[Hw Hq] Hl]. cbn [mbind list_bind]. rewrite read_frame, IH by done.
  cbn [fmap list_fmap existsb]. by rewrite <- app_assoc, orb_assoc.
Qed.
End roundtrip.

(** What the server writes is what the client reads: a stream of frames is
    read back as exactly their events, in order, and counts as complete exactly
    when one of them ends its run. *)
Theorem parseSSE_written (json_type : string → string) (l : list (string * Z))
    (Hl : Forall (λ f, wire_ok f.1 = true ∧ f.2 < 2 ^ 63) l) :
  parseSSE json_type (write_stream l) =
    ((λ f, mk_SseEvent (json_type f.1) f.1) <$> l,
     if existsb (λ f, terminal_type (json_type f.1)) l then None else Some UnexpectedEOF).
Proof.
  unfold parseSSE, new_reader. rewrite raw_lines_written, read_stream by done. done.
Qed.

Lemma parseSSE_written_witness : parseSSE (λ data, if bool_decide (data = "{1}") then "RUN_FINISHED" else "OTHER")
    (write_stream [("{2}", 0); ("{1}", 7)]) = ([mk_SseEvent "OTHER" "{2}"; mk_SseEvent "RUN_FINISHED" "{1}"], None).
Proof.
  assert (Forall (λ f, wire_ok f.1 = true ∧ f.2 < 2 ^ 63) [("{2}", 0); ("{1}", 7)]) as H
    by (repeat constructor; vm_compute; reflexivity).
  rewrite (parseSSE_written _ _ H). reflexivity.
Defined.
