(* ===== verification/Tui.v ===== *)
(** * The terminal client

    [internal/devtui/model.go], the requests of [internal/devtui/client.go] and
    [cmd/agent-platform-tui/main.go]: what the developer's client shows, which
    requests it sends for what is typed and received, and when it starts.

    The state machine of [Model]; its text input and its scrolled view are the
    terminal library's, so a key arrives with the text the input holds after
    it.  A command is what the program runs next; the identifiers [newID] draws
    are arguments. *)
From Stdlib Require Import Ascii.
From S2P Require Import Prelude GoText GoTime Compile HttpHeader Sse.

#[local] Open Scope Z_scope.
#[local] Set Default Proof Using "Type".

Definition maxTranscriptLines : Z := 1000.
Definition maxTranscriptBytes : Z := 256 * 2 ^ 10.

(** ** Data *)

Record question := mk_question { qu_ID : string; qu_Header : string; qu_Question : string; qu_Options : list (string * string) }.
Record interaction := mk_interaction {
  in_ID : string; in_Kind : string; in_Questions : list question; in_CallName : string; in_CallArguments : string; in_CallBinding : string;
}.
Inductive answer := AnswerOption (label : string) | AnswerCustom (text : string).
Inductive reply_answer := ReplyDecision (decision binding : string) | ReplyAnswers (answers : gmap string answer).
Record InteractionReply := mk_InteractionReply { re_InteractionID : string; re_Kind : string; re_Answer : reply_answer }.
Record Request := mk_Request { rq_ThreadID : string; rq_RunID : string; rq_JourneyID : string; rq_Text : string; rq_Reply : option InteractionReply }.

(** The JSON of an event, decoded as far as it could be. *)
Record payload := mk_payload {
  pl_Delta : string; pl_Message : string; pl_ThreadID : string; pl_RunState : string; pl_Interaction : option interaction; pl_ToolName : string;
}.
Class TuiJson := {
  decode_custom : string → option (string * string);
  decode_payload : string → payload;
  decode_pending : string → option interaction;
}.

(** [Model]; [None] answers are the nil map, which cannot be written. *)
Record tui := mk_tui {
  m_baseURL : string; m_threadID : string; m_runID : string; m_journeyID : string; m_input : string; m_transcript : list string;
  m_pending : option interaction; m_answers : option (gmap string answer); m_questionIndex : nat; m_status : string;
  m_streaming : bool; m_cancel : bool; m_terminal : bool; m_lastRequest : option Request; m_resumeRun : string;
}.

Definition with_input (v : string) (m : tui) : tui :=
  mk_tui m.(m_baseURL) m.(m_threadID) m.(m_runID) m.(m_journeyID) v m.(m_transcript) m.(m_pending) m.(m_answers) m.(m_questionIndex)
    m.(m_status) m.(m_streaming) m.(m_cancel) m.(m_terminal) m.(m_lastRequest) m.(m_resumeRun).
Definition with_status (v : string) (m : tui) : tui :=
  mk_tui m.(m_baseURL) m.(m_threadID) m.(m_runID) m.(m_journeyID) m.(m_input) m.(m_transcript) m.(m_pending) m.(m_answers) m.(m_questionIndex)
    v m.(m_streaming) m.(m_cancel) m.(m_terminal) m.(m_lastRequest) m.(m_resumeRun).
Definition with_thread (t r : string) (m : tui) : tui :=
  mk_tui m.(m_baseURL) t r m.(m_journeyID) m.(m_input) m.(m_transcript) m.(m_pending) m.(m_answers) m.(m_questionIndex)
    m.(m_status) m.(m_streaming) m.(m_cancel) m.(m_terminal) m.(m_lastRequest) m.(m_resumeRun).
Definition with_journey (j : string) (m : tui) : tui :=
  mk_tui m.(m_baseURL) m.(m_threadID) m.(m_runID) j m.(m_input) m.(m_transcript) m.(m_pending) m.(m_answers) m.(m_questionIndex)
    m.(m_status) m.(m_streaming) m.(m_cancel) m.(m_terminal) m.(m_lastRequest) m.(m_resumeRun).
Definition with_transcript (l : list string) (m : tui) : tui :=
  mk_tui m.(m_baseURL) m.(m_threadID) m.(m_runID) m.(m_journeyID) m.(m_input) l m.(m_pending) m.(m_answers) m.(m_questionIndex)
    m.(m_status) m.(m_streaming) m.(m_cancel) m.(m_terminal) m.(m_lastRequest) m.(m_resumeRun).
Definition with_pending (p : option interaction) (a : option (gmap string answer)) (i : nat) (m : tui) : tui :=
  mk_tui m.(m_baseURL) m.(m_threadID) m.(m_runID) m.(m_journeyID) m.(m_input) m.(m_transcript) p a i
    m.(m_status) m.(m_streaming) m.(m_cancel) m.(m_terminal) m.(m_lastRequest) m.(m_resumeRun).
(** The fields [start] and the end of a stream set. *)
Definition with_stream (streaming cancel terminal : bool) (last : option Request) (m : tui) : tui :=
  mk_tui m.(m_baseURL) m.(m_threadID) m.(m_runID) m.(m_journeyID) m.(m_input) m.(m_transcript) m.(m_pending) m.(m_answers) m.(m_questionIndex)
    m.(m_status) streaming cancel terminal last m.(m_resumeRun).

Definition NewModel (baseURL threadID runID journeyID : string) : tui :=
  mk_tui baseURL threadID runID journeyID "" [] None None 0 "ready" false false false None runID.

(** ** Text *)

(** [strings.Map]; the encoding of U+FFFD stands for invalid bytes. *)
Definition rune_error : string := String "239" (String "191" (String "189" "")).
Definition kept_rune (r : Z) : bool := (r =? 10) || (r =? 9) || negb (is_control_rune r).
Definition sanitize (value : string) : string :=
  join "" ((λ r, if kept_rune r.1 then if r.1 =? 65533 then rune_error else r.2 else "") <$> runes value).

Fixpoint skip_continuation (s : string) : string :=
  match s with String c rest => if cont_byte c then skip_continuation rest else s | "" => "" end.
Definition utf8Suffix (value : string) (limit : Z) : string :=
  if slen value <=? limit then value else skip_continuation (drop_bytes (Z.to_nat (slen value - limit)) value).

(** The lines that fit from a column on: pieces of one rune each. *)
Fixpoint fill (width column : Z) (l : list string) : string * list string :=
  match l with
  | [] => ("", [])
  | p :: rest =>
      if column <? width then let '(s, rest) := fill width (column + slen p) rest in (p +:+ s, rest) else ("", l)
  end.
Fixpoint wrap_line (fuel : nat) (width : Z) (l : list string) : string :=
  match fuel, l with
  | O, _ | _, [] => ""
  | S fuel, _ => let '(s, rest) := fill width 0 l in s +:+ match rest with [] => "" | _ => eol +:+ wrap_line fuel width rest end
  end.
Definition wrap (value : string) (width : Z) : string :=
  join eol ((λ line, let pieces := snd <$> runes line in wrap_line (length pieces) width pieces) <$> split line_feed value).

(** ** The transcript *)

Fixpoint total_bytes (l : list string) : Z := match l with [] => 0 | x :: l => slen x + total_bytes l end.
Fixpoint trim_bytes (bytes : Z) (l : list string) : list string :=
  match l with
  | [] => []
  | x :: rest =>
      if maxTranscriptBytes <? bytes then
        let excess := bytes - maxTranscriptBytes in
        if slen x <=? excess then trim_bytes (bytes - (slen x + 1)) rest
        else utf8Suffix x (slen x - excess) :: rest
      else l
  end.
Definition trimTranscript (l : list string) : list string :=
  let l := if maxTranscriptLines <? zlen l then drop (Z.to_nat (zlen l - maxTranscriptLines)) l else l in
  trim_bytes (zlen l - 1 + total_bytes l) l.

Definition assistant : string := "assistant: ".
Definition add (line : string) (m : tui) : tui :=
  let l := m.(m_transcript) in
  let joined := match last l with
    | Some x => if has_prefix assistant line && has_prefix assistant x then Some (removelast l ++ [x +:+ trim_prefix assistant line]) else None
    | None => None
    end in
  with_transcript (trimTranscript (default (l ++ [line]) joined)) m.

(** ** The screen *)

Definition canRetry (m : tui) : bool :=
  negb m.(m_terminal) && (bool_decide (is_Some m.(m_lastRequest)) || negb (bool_decide (m.(m_runID) = ""))).

Definition header (width : Z) (m : tui) : string :=
  wrap (join eol ["agent-platform  " +:+ sanitize m.(m_status); "url: " +:+ sanitize m.(m_baseURL); "thread: " +:+ sanitize m.(m_threadID);
                  "run: " +:+ sanitize m.(m_runID); "journey: " +:+ sanitize m.(m_journeyID)]) (Z.max 1 width).
(** [layout]: the height of the view, when the screen has one. *)
Fixpoint count_byte (c : ascii) (s : string) : Z :=
  match s with "" => 0 | String d s => (if bool_decide (d = c) then 1 else 0) + count_byte c s end.
Definition layout (screenHeight width height : Z) (m : tui) : Z :=
  if 0 <? screenHeight then Z.max 1 (screenHeight - count_byte line_feed (header width m) - 3) else height.
(** [refresh]: the content of the view. *)
Definition dash : string := String "226" (String "128" (String "148" "")).
Definition content (m : tui) : string :=
  join eol (m.(m_transcript) ++
    match m.(m_pending) with
    | None => []
    | Some p =>
        if bool_decide (p.(in_Kind) = "approval") then
          ["approval required: " +:+ sanitize p.(in_CallName); "arguments: " +:+ sanitize p.(in_CallArguments); "type approve or deny"]
        else match p.(in_Questions) !! m.(m_questionIndex) with
             | Some q =>
                 (sanitize q.(qu_Header) +:+ ": " +:+ sanitize q.(qu_Question)) ::
                 ((λ o, "  " +:+ sanitize o.1 +:+ " " +:+ dash +:+ " " +:+ sanitize o.2) <$> q.(qu_Options))
             | None => []
             end
    end).
Definition middot : string := String "194" (String "183" "").
Definition footer (m : tui) : string :=
  (if canRetry m then "/retry resend last request " +:+ middot +:+ " " else "") +:+ "PgUp/PgDown scroll " +:+ middot +:+ " Ctrl+C quit".

(** ** Events *)

Section tui.
Context `{json : TuiJson} (json_type : string → string).

Definition apply (e : SseEvent) (m : tui) : tui :=
  let '(typ, data) :=
    match (if bool_decide (e.(se_Type) = "CUSTOM") then decode_custom e.(se_Data) else None) with
    | Some (name, value) => if bool_decide (name = "") then (e.(se_Type), e.(se_Data)) else (name, value)
    | None => (e.(se_Type), e.(se_Data))
    end in
  let p := decode_payload data in
  if bool_decide (typ = "TEXT_MESSAGE_CONTENT") then add (assistant +:+ sanitize p.(pl_Delta)) m
  else if bool_decide (typ = "STATE_SNAPSHOT") then
    let m := if bool_decide (p.(pl_ThreadID) = "") then m else with_thread p.(pl_ThreadID) m.(m_runID) m in
    let m := with_pending p.(pl_Interaction) (Some ∅) 0 m in
    if bool_decide (p.(pl_RunState) = "awaiting_input") && bool_decide (is_Some p.(pl_Interaction)) then with_status "awaiting input" m else m
  else if bool_decide (typ = "interaction.requested") then
    match decode_pending data with
    | Some i => if bool_decide (i.(in_ID) = "") then m else with_status "awaiting input" (with_pending (Some i) (Some ∅) 0 m)
    | None => m
    end
  else if bool_decide (typ = "RUN_FINISHED") then
    let m := with_stream m.(m_streaming) m.(m_cancel) true m.(m_lastRequest) m in
    match m.(m_pending) with None => with_status "finished" m | Some _ => m end
  else if bool_decide (typ = "RUN_ERROR") then
    with_status ("error: " +:+ sanitize p.(pl_Message)) (with_stream m.(m_streaming) m.(m_cancel) true m.(m_lastRequest) m)
  else if has_prefix "tool." typ then
    add (sanitize typ +:+ ": " +:+ sanitize (if bool_decide (p.(pl_ToolName) = "") then "operation" else p.(pl_ToolName))) m
  else m.

(** ** Requests *)

(** What runs next: a stream of a request, the stream of a run, waiting for the
    stream, or the end of the program ([true] when a stream is cancelled). *)
Inductive command := CStream (r : Request) | CResume (threadID runID : string) | CWait | CQuit (cancelled : bool).

Definition start (r : Request) (m : tui) : tui * option command :=
  (with_status "streaming" (with_stream true true false (Some r) m), Some (CStream r)).
Definition startResume (m : tui) : tui * option command :=
  (with_status "resuming" (with_stream true true false m.(m_lastRequest) m), Some (CResume m.(m_threadID) m.(m_runID))).
(** [Init] *)
Definition Init (m : tui) : tui * option command :=
  if bool_decide (m.(m_resumeRun) = "") then (m, None)
  else
    (with_status "resuming" (with_stream true true false m.(m_lastRequest) m), Some (CResume m.(m_threadID) m.(m_resumeRun))).

(** [strings.ToLower], as far as the two decisions go: no rune beyond ASCII has
    the lower case of a letter in them. *)
Definition lower (s : string) : string := map_bytes to_lower s.

Definition take_answer (q : question) (text : string) : answer :=
  if existsb (λ o, bool_decide (text = o.1)) q.(qu_Options) then AnswerOption text else AnswerCustom text.

(** A panic (writing to the nil map) is [None]. *)
Definition submitInteraction (newRun : string) (pending : interaction) (text : string) (m : tui) : option (tui * option command) :=
  if bool_decide (pending.(in_Kind) = "approval") then
    let decision := lower text in
    if negb (bool_decide (decision = "approve")) && negb (bool_decide (decision = "deny")) then Some (with_status "type approve or deny" m, None)
    else
      let m := with_thread m.(m_threadID) newRun m in
      Some (start (mk_Request m.(m_threadID) m.(m_runID) "" ""
              (Some (mk_InteractionReply pending.(in_ID) "approval" (ReplyDecision decision pending.(in_CallBinding))))) m)
  else
    answered ← match pending.(in_Questions) !! m.(m_questionIndex) with
      | Some q => answers ← m.(m_answers);
                  Some (with_pending m.(m_pending) (Some (<[q.(qu_ID) := take_answer q text]> answers)) (S m.(m_questionIndex)) m)
      | None => Some m
      end;
    if bool_decide (m_questionIndex answered < length pending.(in_Questions))%nat then Some (answered, None)
    else
      let m := with_thread answered.(m_threadID) newRun answered in
      Some (start (mk_Request m.(m_threadID) m.(m_runID) "" ""
              (Some (mk_InteractionReply pending.(in_ID) "clarification" (ReplyAnswers (default ∅ m.(m_answers)))))) m).

(** [submit], with the thread and run identifiers it would draw. *)
Definition submit (newThread newRun : string) (m : tui) : option (tui * option command) :=
  let text := trim_space m.(m_input) in
  if bool_decide (text = "") then Some (m, None)
  else
    let m := with_input "" m in
    if bool_decide (text = "/new") then
      Some (with_status "new conversation" (with_transcript []
              (with_stream m.(m_streaming) m.(m_cancel) false None (with_pending None None m.(m_questionIndex) (with_thread "" "" m)))), None)
    else if bool_decide (text = "/retry") then
      match m.(m_lastRequest), m.(m_terminal) with
      | Some r, false => Some (start r m)
      | _, _ =>
          if negb (bool_decide (m.(m_runID) = "")) && negb m.(m_terminal) then Some (startResume m)
          else Some (with_status "nothing to retry" m, None)
      end
    else if bool_decide (is_Some m.(m_lastRequest)) && negb m.(m_terminal) then Some (with_status "stream ended; type /retry" m, None)
    else
      let journey := trim_space (trim_prefix "/journey " text) in
      if has_prefix "/journey " text && negb (bool_decide (journey = "")) then
        Some (with_status ("journey: " +:+ sanitize journey) (with_journey journey m), None)
      else
        match m.(m_pending) with
        | Some pending => submitInteraction newRun pending text m
        | None =>
            let m := with_thread (if bool_decide (m.(m_threadID) = "") then newThread else m.(m_threadID)) newRun m in
            let m := add ("you: " +:+ sanitize text) m in
            Some (start (mk_Request m.(m_threadID) m.(m_runID) m.(m_journeyID) text None) m)
        end.

(** ** The loop *)

Inductive msg :=
| WindowSize
| StreamEvent (e : SseEvent)
| StreamDone (err : option string)
| Key (key typed : string).

(** [Update], with what [newID] would draw. *)
Definition Update (newThread newRun : string) (x : msg) (m : tui) : option (tui * option command) :=
  match x with
  | WindowSize => Some (m, None)
  | StreamEvent e => Some (apply e m, Some CWait)
  | StreamDone err =>
      let m := with_stream false false m.(m_terminal) m.(m_lastRequest) m in
      let m :=
        match err with
        | Some text => with_status ("error: " +:+ sanitize text +:+ (if canRetry m then "; type /retry" else "")) m
        | None =>
            if negb m.(m_terminal) then with_status "stream ended; type /retry" m
            else if bool_decide (is_Some m.(m_pending)) then with_status "awaiting input" m
            else if bool_decide (m.(m_status) = "streaming") then with_status "finished" m
            else m
        end in
      Some (m, None)
  | Key key typed =>
      if bool_decide (key = "ctrl+c") then Some (m, Some (CQuit m.(m_cancel)))
      else if contains key ["pgup"; "pgdown"] then Some (m, None)
      else if bool_decide (key = "enter") && negb m.(m_streaming) then submit newThread newRun m
      else Some (with_input typed m, None)
  end.
End tui.

(** ** The requests on the wire *)

(** The body of a request before it is marshalled; tools, context and state
    are empty. *)
Record chatRequest := mk_chatRequest {
  cr_ThreadID : string; cr_RunID : string; cr_Messages : list (string * string * string);
  cr_JourneyID : string; cr_InteractionReply : option InteractionReply;
}.
Definition stream_body (r : Request) : chatRequest :=
  mk_chatRequest r.(rq_ThreadID) r.(rq_RunID)
    (match r.(rq_Reply) with None => [(r.(rq_RunID) +:+ ":user", "user", r.(rq_Text))] | Some _ => [] end)
    r.(rq_JourneyID) r.(rq_Reply).
Definition endpoint (baseURL : string) : string := trim_right (λ c, bool_decide (c = "/"%char)) baseURL.

(** The HTTP client of the standard library, which follows no redirect here:
    one request and its response, or an error. *)
Record http_request := mk_http_request { hq_Method : string; hq_URL : string; hq_Header : Header; hq_Body : string }.
Record http_response := mk_http_response { hs_StatusCode : Z; hs_Status : string; hs_Body : string }.
Definition success (r : http_response) : bool := (200 <=? r.(hs_StatusCode)) && (r.(hs_StatusCode) <? 300).

Inductive client_error := BadRequest | NoResponse | BadStatus (text : string) | BadStream (e : sse_error).

Section client.
(** [encoding/json] on a request and on the type of an event; [net/url] on an
    endpoint with the thread and run to resume. *)
Context (marshal : chatRequest → option string) (json_type : string → string)
  (resume_url : string → string → string → option string).
Context {W : Type} (exchange : http_request → W → W * option http_response).

(** [Client.do]: the events received, and the error. *)
Definition do (token : string) (q : http_request) (s : W) : W * (list SseEvent * option client_error) :=
  let h := if bool_decide (token = "") then q.(hq_Header) else header_set "Authorization" ("Bearer " +:+ token) q.(hq_Header) in
  let h := header_set "Accept" "text/event-stream" h in
  match exchange (mk_http_request q.(hq_Method) q.(hq_URL) h q.(hq_Body)) s with
  | (s, None) => (s, ([], Some NoResponse))
  | (s, Some r) =>
      if negb (success r)
      then (s, ([], Some (BadStatus ("chat request failed: " +:+ r.(hs_Status) +:+ ": " +:+ trim_space (String.substring 0 4096 r.(hs_Body))))))
      else let '(events, err) := parseSSE json_type r.(hs_Body) in (s, (events, BadStream <$> err))
  end.

(** [Client.Stream] *)
Definition Stream (baseURL token : string) (r : Request) (s : W) : W * (list SseEvent * option client_error) :=
  match marshal (stream_body r) with
  | None => (s, ([], Some BadRequest))
  | Some body => do token (mk_http_request "POST" (endpoint baseURL) (header_set "Content-Type" "application/json" ∅) body) s
  end.
(** [Client.Resume] *)
Definition Resume (baseURL token threadID runID : string) (s : W) : W * (list SseEvent * option client_error) :=
  match resume_url (endpoint baseURL) threadID runID with
  | None => (s, ([], Some BadRequest))
  | Some url => do token (mk_http_request "GET" url ∅ "") s
  end.
End client.

(** ** The command line *)

Record options := mk_options { op_baseURL : string; op_journeyID : string; op_threadID : string; op_runID : string }.
Inductive options_error := BadFlags | UnexpectedArgument (arg : string) | RunWithoutThread | EmptyURL.
Definition tui_flags (name : string) : option bool :=
  if contains name ["url"; "journey"; "thread"; "run"] then Some false else None.

Definition parseFlags (args : list string) (lookup : option (string → string)) : result options_error options :=
  let baseURL := match lookup with
    | Some lookup => let value := trim_space (lookup "AGENT_PLATFORM_URL") in
                     if bool_decide (value = "") then "http://localhost:8080" else value
    | None => "http://localhost:8080"
    end in
  match parse_flags tui_flags args [] with
  | None => Err BadFlags
  | Some (set, arg :: _) => Err (UnexpectedArgument arg)
  | Some (set, []) =>
      let url := flag_value "url" baseURL set in
      let thread := flag_value "thread" "" set in
      let run := flag_value "run" "" set in
      if negb (bool_decide (run = "")) && bool_decide (thread = "") then Err RunWithoutThread
      else if bool_decide (trim_space url = "") then Err EmptyURL
      else Ok (mk_options url (trim_space (flag_value "journey" "" set)) (trim_space thread) (trim_space run))
  end.

(** A parsed base URL, and [net/url]'s text of one. *)
Record base_url := mk_base_url { bu_Scheme : string; bu_Host : string; bu_Path : string; bu_RawQuery : string; bu_Fragment : string }.

Inductive start_error :=
| BadOptions (e : options_error) | NoTTY | TokenRequired | InvalidURL | ReadinessFailed | NotReady (status : Z).
Inductive startup := ShowUsage | NotStarted (e : start_error) | Started (o : options) (token : string).

Definition wantsHelp (args : list string) : bool := existsb (λ a, contains a ["--help"; "-h"]) args.

Section main.
Context (url_parse : string → option base_url) (url_string : base_url → string).

Definition readinessEndpoint (baseURL : string) : option string :=
  match url_parse (trim_space baseURL) with
  | None => None
  | Some u =>
      if bool_decide (u.(bu_Scheme) = "") || bool_decide (u.(bu_Host) = "") then None
      else Some (url_string (mk_base_url u.(bu_Scheme) u.(bu_Host)
             (trim_right (λ c, bool_decide (c = "/"%char)) u.(bu_Path) +:+ "/readyz") "" ""))
  end.

(** [checkReadiness]; [get] is the status of a request, if there is one in
    time. *)
Definition checkReadiness (get : string → option Z) (baseURL : string) : option start_error :=
  match readinessEndpoint baseURL with
  | None => Some InvalidURL
  | Some url =>
      match get url with
      | None => Some ReadinessFailed
      | Some status => if (status <? 200) || (300 <=? status) then Some (NotReady status) else None
      end
  end.

(** [runContext] up to the program. *)
Definition runContext (args : list string) (lookup : string → string) (terminal : bool) (get : string → option Z) : startup :=
  if wantsHelp args then ShowUsage
  else match parseFlags args (Some lookup) with
       | Err e => NotStarted (BadOptions e)
       | Ok o =>
           if negb terminal then NotStarted NoTTY
           else
             let token := trim_space (lookup "KEYCLOAK_ACCESS_TOKEN") in
             if bool_decide (token = "") then NotStarted TokenRequired
             else match checkReadiness get o.(op_baseURL) with
                  | Some e => NotStarted e
                  | None => Started o token
                  end
       end.
End main.

(** The check comes before the blanks go: a run can be resumed without a
    thread after all. *)
Example run_without_thread : parseFlags ["--run"; "r1"; "--thread"; " "] None = Ok (mk_options "http://localhost:8080" "" "" "r1").
Proof. vm_compute. reflexivity. Qed.
