(* ===== verification/Chat.v ===== *)
(** * The chat endpoint

    [internal/chat/http.go]: reading a request, submitting its command, and
    the stream of AG-UI events that answers it.

    A response is a refusal or the frames written to the stream.  The class
    [ChatIO] is what surrounds the handler: the authenticator at this request,
    the decoding of the request body (a type of the AG-UI library), which calls
    of the chat tables fail, and what other replicas do to those tables.
    Events arrive by polls of the platform; the handler takes a batch before
    the next poll, and [serve n] looks at [n] polls of a stream that only ends
    when its run does. *)
From S2P Require Import Prelude GoText Db CallBinding JournalCore Commands Owners Runs Service.
From S2P Require Import HttpHeader Cost Auth Identity Settings TenantDir Binding Guard Bundle CompileSet Loader Harness Runner Platform.

(** ** Requests *)

(** A decoded JSON value, as far as the handler tells values apart. *)
#[warnings="-register-all"]
Inductive prop := PNull | PString (s : string) | PObject (o : gmap string prop) | POther.

(** A message; its content when that is text. *)
Record chat_message := mk_chat_message { cm_Role : string; cm_Text : option string }.
Record RunAgentInput := mk_RunAgentInput {
  ai_ThreadID : string; ai_RunID : string; ai_Tools : nat; ai_Messages : list chat_message; ai_ForwardedProps : prop;
}.
Record InteractionReply := mk_InteractionReply { ir_InteractionID : string; ir_Kind : string; ir_Answer : string }.
Record request := mk_request { rq_Method : string; rq_Header : Header; rq_Query : string → string; rq_Body : string }.

(** [http.Error]: status and text. *)
Definition refusal : Type := (Z * string)%type.

Class ChatIO := {
  authenticate : Header → option Identity;
  (** the first value of the body, and whether anything follows it *)
  decode_input : string → option (RunAgentInput * bool);
  (** marshalling the property and [DecodeStrict] of the result *)
  decode_interaction : prop → option InteractionReply;
  ids_fault : nat → bool;
  ids_others : nat → idmap → idmap;
  ids_drawn : nat → drawn;
  (** whether a failed observation is noticed before its channels close *)
  failure_seen : bool;
}.

Definition maxBody : Z := 2 ^ 20.

Fixpoint last_user (l : list chat_message) : option string :=
  match l with
  | [] => None
  | m :: l =>
      if bool_decide (m.(cm_Role) = "user") then
        t ← m.(cm_Text); if bool_decide (trim_space t = "") then None else Some t
      else last_user l
  end.
Definition lastUserText (messages : list chat_message) : option string := last_user (rev messages).

Definition targetJourney (value : prop) : option string :=
  match value with
  | PNull => Some ""
  | PObject properties =>
      match properties !! "journeyId" with
      | None => Some ""
      | Some (PString name) => if bool_decide (name = "") then None else Some name
      | Some _ => None
      end
  | _ => None
  end.
(** [props["interactionReply"]], when there is one. *)
Definition interaction_prop (value : prop) : option prop :=
  match value with
  | PObject properties => match properties !! "interactionReply" with Some PNull | None => None | Some v => Some v end
  | _ => None
  end.

(** What the handler has read of a request. *)
Record parsed := mk_parsed {
  pq_Identity : Identity; pq_Cursor : Z; pq_Create : bool; pq_ThreadID : string; pq_RunID : string;
  pq_Text : string; pq_Target : string; pq_Reply : InteractionReply;
}.
Definition no_reply : InteractionReply := mk_InteractionReply "" "" "".

Section requests.
Context `{io : ChatIO}.

Definition read_cursor (h : Header) : result refusal Z :=
  let raw := header_get "Last-Event-ID" h in
  if bool_decide (raw = "") then Ok 0
  else match ParseInt raw with
       | Some n => if n <? 0 then Err (400, "invalid Last-Event-ID") else Ok n
       | None => Err (400, "invalid Last-Event-ID")
       end.

Definition read_input (r : request) : result refusal RunAgentInput :=
  if bool_decide (r.(rq_Method) = "POST") then
    if maxBody <? slen r.(rq_Body) then Err (400, "invalid request")
    else match decode_input r.(rq_Body) with
         | Some (input, false) =>
             _ ← ensure (bool_decide (input.(ai_Tools) = 0%nat)) (400, "client tools are not supported");
             Ok input
         | _ => Err (400, "invalid request")
         end
  else if bool_decide (r.(rq_Method) = "GET") then
    Ok (mk_RunAgentInput (r.(rq_Query) "threadId") (r.(rq_Query) "runId") 0 [] PNull)
  else Err (405, "method not allowed").

(** The text or the reply of a command. *)
Definition read_command (input : RunAgentInput) : result refusal (string * InteractionReply) :=
  match interaction_prop input.(ai_ForwardedProps) with
  | Some value =>
      match decode_interaction value with
      | Some reply =>
          _ ← ensure (negb (bool_decide (reply.(ir_InteractionID) = "")) && negb (bool_decide (reply.(ir_Kind) = ""))
                      && negb (bool_decide (reply.(ir_Answer) = "")) && bool_decide (input.(ai_Messages) = []))
                (400, "invalid interaction reply");
          Ok ("", reply)
      | None => Err (400, "invalid interaction reply")
      end
  | None =>
      match lastUserText input.(ai_Messages) with
      | Some text => Ok (text, no_reply)
      | None => Err (400, "user text is required")
      end
  end.

Definition read_request (r : request) : result refusal parsed :=
  match authenticate r.(rq_Header) with
  | None => Err (401, "unauthorized")
  | Some identity =>
      cursor ← read_cursor r.(rq_Header);
      let create := bool_decide (r.(rq_Method) = "POST") in
      input ← read_input r;
      _ ← ensure (negb (bool_decide (input.(ai_ThreadID) = "") || bool_decide (input.(ai_RunID) = "")))
            (400, "threadId and runId are required");
      if create then
        '(text, reply) ← read_command input;
        match targetJourney input.(ai_ForwardedProps) with
        | None => Err (400, "invalid journey target")
        | Some target => Ok (mk_parsed identity cursor true input.(ai_ThreadID) input.(ai_RunID) text target reply)
        end
      else Ok (mk_parsed identity cursor false input.(ai_ThreadID) input.(ai_RunID) "" "" no_reply)
  end.
End requests.

(** ** Errors *)

Inductive chat_error := CIdentity (e : id_error) | CSubmit (e : submit_error) | CStore (e : run_error) | CUnmapped.

(** [commandError] *)
Definition journal_status (e : error) : refusal :=
  match e with
  | ErrExpired => (409, "interaction_expired")
  | ErrConflict | ErrBusy => (409, "Conflict")
  | ErrForbidden => (403, "Forbidden")
  | _ => (500, "Internal Server Error")
  end.
Definition run_status (e : run_error) : refusal :=
  match e with XStore (SJournal e) => journal_status e | _ => (500, "Internal Server Error") end.
Definition commandError (e : chat_error) : refusal :=
  match e with
  | CIdentity IdForbidden => (403, "Forbidden")
  | CIdentity IdDatabase => (500, "Internal Server Error")
  | CSubmit ErrDraining => (503, "Service Unavailable")
  | CSubmit SubmitCanceled => (500, "Internal Server Error")
  | CSubmit (SubmitError e) | CStore e => run_status e
  | CUnmapped => (500, "observation unavailable")
  end.

Definition failureCode (reason : string) : string :=
  if contains reason [ReasonJourneyUnavailable; Db.ReasonPolicyConflict; ReasonActivationRefused; ReasonInteractionExpired]
  then reason else "internal_error".

(** ** The stream *)

(** [safeInteraction] *)
Record SafeInteraction := mk_SafeInteraction {
  si_ID : string; si_Kind : string; si_Questions : list Question; si_CallID : string; si_Name : string;
  si_Arguments : string; si_Binding : string; si_ExpiresAt : Z;
}.
Definition safeInteraction (i : Interaction) : SafeInteraction :=
  mk_SafeInteraction i.(i_ID) i.(i_Kind) i.(i_Questions) i.(i_Call).(pc_CallID) i.(i_Call).(pc_Name)
    i.(i_Call).(pc_Arguments) i.(i_Call).(pc_Binding) i.(i_ExpiresAt).

Record StateView := mk_StateView {
  st_ThreadID : string; st_Watermark : Z; st_JourneyID : string; st_RunState : option RunState; st_Pending : Z;
  st_Commands : list (string * string * string); st_Operations : list (string * string * string); st_Answer : string;
  st_Interaction : option SafeInteraction;
}.

Inductive frame :=
| RunStarted (thread run : string)
| StateSnapshot (v : StateView)
| TextStart (id : string)
| TextContent (id delta : string)
| TextEnd (id : string)
| Requested (i : option SafeInteraction)
| LimitExceeded (kind : string) (retryAfterSeconds : Z)
| Custom (name reason callID toolName run : string)
| RunFinished (thread run : string)
| RunError (message code run : string).

(** Frames written, with the sequence each carries (0 is none), and how many
    more writes succeed when the client goes away. *)
Record out := mk_out { o_frames : list (frame * Z); o_left : option nat }.
Definition emit (f : frame) (sequence : Z) (o : out) : out * bool :=
  let sent left := mk_out (o.(o_frames) ++ [(f, sequence)]) left in
  match o.(o_left) with
  | None => (sent None, true)
  | Some (S n) => (sent (Some n), true)
  | Some O => (o, false)
  end.

Record cstate := mk_cstate { cs_platform : pstate; cs_ids : idmap; cs_tick : nat }.
(** While streaming: the handler's map of external commands with it. *)
Record sstate := mk_sstate { ss_chat : cstate; ss_external : gmap string string; ss_out : out }.

Section handler.
Context `{codec : Codec} `{yaml : Yaml} `{runtime : Runtime} `{io : ChatIO}.

Abbreviation chat := (prog cstate chat_error).

(** A call of the chat tables, after what others did to them. *)
Definition ids_call {A} (f : drawn → idmap → idmap * result id_error A) : chat A := λ c,
  let n := c.(cs_tick) in
  let s := ids_others n c.(cs_ids) in
  if ids_fault n then (mk_cstate c.(cs_platform) s (S n), Err (CIdentity IdDatabase))
  else
    let '(s, r) := f (ids_drawn n) s in
    (mk_cstate c.(cs_platform) s (S n), match r with Ok a => Ok a | Err e => Err (CIdentity e) end).
Definition platform_call {A} (m : prog rstate run_error A) : chat A := λ c,
  let '(st, r) := m c.(cs_platform).(ps_state) in
  (mk_cstate (work st c.(cs_platform)) c.(cs_ids) c.(cs_tick), match r with Ok a => Ok a | Err e => Err (CStore e) end).
Definition submit_call (ownerID : string) (command : Command) : chat unit := λ c,
  let '(p, r) := Submit ownerID command c.(cs_platform) in
  (mk_cstate p c.(cs_ids) c.(cs_tick), match r with Ok _ => Ok tt | Err e => Err (CSubmit e) end).

Definition external_call (principal thread : string) : chat (gmap string string) :=
  ids_call (λ _ s, (s, Ok (externalCommands principal thread s))).

(** What is known when the stream starts. *)
Record accepted := mk_accepted {
  ac_parsed : parsed; ac_thread : string; ac_run : string; ac_current : option RunView; ac_watermark : Z;
  ac_external : gmap string string; ac_commands : list (string * string * string);
}.

(** The run of the snapshot that executes the command of this run. *)
Definition find_current (run : string) (l : list RunView) : option RunView :=
  head (filter (λ v, v.(rv_RunID) = run ∨ run ∈ v.(rv_CommandRunIDs)) l).

Fixpoint external_outcomes (external : gmap string string) (l : list CommandOutcome) : option (list (string * string * string)) :=
  match l with
  | [] => Some []
  | o :: l => e ← external !! o.(co_CommunicationID); l ← external_outcomes external l; Some ((e, o.(co_State), o.(co_Reason)) :: l)
  end.

(** [ServeHTTP] up to the first byte of the stream. *)
Definition accept (ownerID : string) (p : parsed) : chat accepted :=
  let principal := p.(pq_Identity).(id_Principal) in
  i ← ids_call (λ d, resolve principal p.(pq_ThreadID) p.(pq_RunID) p.(pq_Create) d);
  let thread := i.(id_thread) in
  let run := i.(id_run) in
  _ ← (if p.(pq_Create) then
         submit_call ownerID (mk_Command thread run i.(id_communication) principal p.(pq_Identity).(id_Tenant) p.(pq_Text) p.(pq_Target)
           p.(pq_Reply).(ir_InteractionID) p.(pq_Reply).(ir_Kind) p.(pq_Reply).(ir_Answer))
       else mret tt);
  view ← platform_call (_ ← unless (0 <=? p.(pq_Cursor)) (XStore (SJournal ErrState));
                        call (query (Snapshot thread principal)));
  let current := find_current run view.(sv_Runs) in
  let run := match current with Some v => v.(rv_RunID) | None => run end in
  external ← external_call principal thread;
  match external_outcomes external (match current with Some v => v.(rv_CommandOutcomes) | None => [] end) with
  | None => throw CUnmapped
  | Some commands => mret (mk_accepted p thread run current view.(sv_Watermark) external commands)
  end.

Section stream.
Context (a : accepted).
Definition pq : parsed := a.(ac_parsed).
Definition principal : string := pq.(pq_Identity).(id_Principal).

Definition state_view : StateView :=
  match a.(ac_current) with
  | Some v => mk_StateView pq.(pq_ThreadID) a.(ac_watermark) v.(rv_JourneyID) (Some v.(rv_State)) v.(rv_PendingCommands) a.(ac_commands)
      ((λ o, (o.(oo_CallID), o.(oo_ToolName), Db.outcome_name o.(oo_Outcome))) <$> v.(rv_OperationOutcomes))
      v.(rv_Answer) (safeInteraction <$> v.(rv_Interaction))
  | None => mk_StateView pq.(pq_ThreadID) a.(ac_watermark) "" None 0 a.(ac_commands) [] "" None
  end.

(** A frame; whether it was written. *)
Definition say (f : frame) (sequence : Z) (s : sstate) : sstate * bool :=
  let '(o, ok) := emit f sequence s.(ss_out) in (mk_sstate s.(ss_chat) s.(ss_external) o, ok).
(** A call of the handler while it streams. *)
Definition ask {A} (m : chat A) (s : sstate) : sstate * result chat_error A :=
  let '(c, r) := m s.(ss_chat) in (mk_sstate c s.(ss_external) s.(ss_out), r).
Definition remember (external : gmap string string) (s : sstate) : sstate := mk_sstate s.(ss_chat) external s.(ss_out).

Definition run_finished : frame := RunFinished pq.(pq_ThreadID) pq.(pq_RunID).
Definition unavailable_frame : frame := RunError "observation unavailable" "" "".
Definition error_frame (code : string) : frame := RunError "run could not complete" code pq.(pq_RunID).

(** Frames one after another, as long as they are written. *)
Fixpoint say_all (l : list (frame * Z)) (s : sstate) : sstate * bool :=
  match l with
  | [] => (s, true)
  | (f, sequence) :: l => match say f sequence s with (s, true) => say_all l s | (s, false) => (s, false) end
  end.

(** The last frames of a run: written whether or not the earlier ones were. *)
Fixpoint say_each (l : list (frame * Z)) (s : sstate) : sstate :=
  match l with [] => s | (f, sequence) :: l => say_each l (say f sequence s).1 end.

Definition code_of (e : Event) : string :=
  if bool_decide (e.(e_Type) = "run.failed") then failureCode e.(e_Reason)
  else if bool_decide (e.(e_Type) = "run.interrupted") then "interrupted"
  else if bool_decide (e.(e_Type) = "auth_required") then "auth_required"
  else if bool_decide (e.(e_Type) = "run.dependency_unavailable") then "dependency_unavailable"
  else "internal_error".

(** The default case of [terminal]: an event that ends nothing. *)
Definition custom_event (e : Event) (sequence : Z) (s : sstate) : sstate * bool :=
  let custom run s := let '(s, ok) := say (Custom e.(e_Type) e.(e_Reason) e.(e_CallID) e.(e_ToolName) run) sequence s in (s, negb ok) in
  if bool_decide (e.(e_CommunicationID) = "") then custom "" s
  else
    match s.(ss_external) !! e.(e_CommunicationID) with
    | Some external => custom external s
    | None =>
        let '(s, r) := ask (external_call principal a.(ac_thread)) s in
        match r with
        | Ok external =>
            let s := remember external s in
            match external !! e.(e_CommunicationID) with
            | Some external => custom external s
            | None => (say_each [(unavailable_frame, 0)] s, true)
            end
        | Err _ => (say_each [(unavailable_frame, 0)] (remember ∅ s), true)
        end
    end.

(** [terminal]: writes an event and says whether the stream is over. *)
Definition terminal (e : Event) (sequence : Z) (s : sstate) : sstate * bool :=
  let typ := e.(e_Type) in
  let message := pq.(pq_RunID) +:+ ":answer" in
  if bool_decide (typ = "message.completed") then
    let '(s, ok) := say_all [(TextStart message, 0); (TextContent message e.(e_Answer), sequence); (TextEnd message, 0)] s in (s, negb ok)
  else if bool_decide (typ = "run.awaiting_input") then
    let '(s, r) := ask (platform_call (call (query (Snapshot a.(ac_thread) principal)))) s in
    match r with
    | Err _ => (say_each [(unavailable_frame, sequence)] s, true)
    | Ok view =>
        let mine := filter (λ v, v.(rv_RunID) = a.(ac_run)) view.(sv_Runs) in
        (say_each (((λ v, (Requested (safeInteraction <$> v.(rv_Interaction)), sequence)) <$> mine) ++ [(run_finished, 0)]) s, true)
    end
  else if bool_decide (typ = "run.completed") then (say_each [(run_finished, sequence)] s, true)
  else if bool_decide (typ = "run.limit_exceeded") then
    let retry := match e.(e_Detail) with Some (DLimit _ seconds) => seconds | _ => 0 end in
    let '(s, ok) := say (LimitExceeded e.(e_Reason) retry) sequence s in
    (if ok then say_each [(RunError "run limit exceeded" "limit_exceeded" pq.(pq_RunID), 0)] s else s, true)
  else if contains typ ["run.failed"; "auth_required"; "run.interrupted"; "run.dependency_unavailable"] then
    (say_each [(error_frame (code_of e), sequence)] s, true)
  else custom_event e sequence s.

(** The event that says a run has ended in a state. *)
Definition final_event (v : RunView) : option Event :=
  match v.(rv_State) with
  | RunAwaitingInput => Some (Db.event "run.awaiting_input" "")
  | RunCompleted => Some (Db.event "run.completed" "")
  | RunInterrupted => Some (Db.event "run.interrupted" "")
  | RunFailed => Some (command_event "run.failed" "" "" v.(rv_TerminalReason))
  | RunAuthRequired => Some (Db.event "auth_required" "")
  | RunDependencyUnavailable => Some (Db.event "run.dependency_unavailable" "")
  | RunLimitExceeded => Some (mk_Event 0 "run.limit_exceeded" "" "" "" "" "" v.(rv_TerminalReason) v.(rv_TerminalDetail))
  | RunPending | RunRunning => None
  end.

(** The events of one poll; [true] when the stream is over. *)
Fixpoint deliver (l : list Event) (s : sstate) : sstate * bool :=
  match l with
  | [] => (s, false)
  | e :: l =>
      if bool_decide (e.(e_RunID) = a.(ac_run)) then
        match terminal e e.(e_Sequence) s with (s, true) => (s, true) | (s, false) => deliver l s end
      else deliver l s
  end.
Fixpoint watch (n : nat) (after : Z) (s : sstate) : sstate :=
  match n with
  | O => s
  | S n =>
      let '(s, r) := ask (platform_call (poll a.(ac_thread) principal after)) s in
      match r with
      | Err _ => if failure_seen then say_each [(unavailable_frame, 0)] s else s
      | Ok (batch, after) => match deliver batch s with (s, true) => s | (s, false) => watch n after s end
      end
  end.

(** The state the snapshot shows, before anything live. *)
Definition project (s : sstate) : sstate * bool :=
  match a.(ac_current) with
  | None => (s, false)
  | Some v =>
      let answered := if bool_decide (v.(rv_Answer) = "") then (s, false)
                      else terminal (mk_Event 0 "message.completed" "" "" "" v.(rv_Answer) "" "" None) 0 s in
      match answered with
      | (s, true) => (s, true)
      | (s, false) => match final_event v with Some e => ((terminal e 0 s).1, true) | None => (s, false) end
      end
  end.

Definition stream (n : nat) (left : option nat) (c : cstate) : sstate :=
  let s := mk_sstate c a.(ac_external) (mk_out [] left) in
  let start := Z.max pq.(pq_Cursor) a.(ac_watermark) in
  match say_all [(RunStarted pq.(pq_ThreadID) pq.(pq_RunID), 0); (StateSnapshot state_view, start)] s with
  | (s, false) => s
  | (s, true) => match project s with (s, true) => s | (s, false) => watch n start s end
  end.
End stream.

Inductive response := Refused (r : refusal) | Streamed (l : list (frame * Z)).

(** [ServeHTTP] *)
Definition serve (n : nat) (left : option nat) (ownerID : string) (r : request) (c : cstate) : cstate * response :=
  match read_request r with
  | Err e => (c, Refused e)
  | Ok p =>
      match accept ownerID p c with
      | (c, Err e) => (c, Refused (commandError e))
      | (c, Ok a) => let s := stream a n left c in (s.(ss_chat), Streamed s.(ss_out).(o_frames))
      end
  end.
End handler.
