(* ===== verification/ChatSpec.v ===== *)
(** * What the chat endpoint guarantees

    A stream belongs to the caller, shows events of the journal in their order,
    and ends with its last frame; read back as in [Sse.v], it is received as it
    was written. *)
From S2P Require Import Prelude GoText Db CallBinding JournalCore Commands Owners Runs Service.
From S2P Require Import Keeps JournalSim JournalKeeps Journal EventLog HttpHeader Cost Auth Identity Settings TenantDir Binding Guard.
From S2P Require Import Bundle CompileSet Loader Harness Runner Platform RunnerSpec PlatformSpec Sse Chat.

#[local] Set Default Proof Using "Type".

(** ** What a stream grows by *)

Definition frames (s : sstate) : list (frame * Z) := s.(ss_out).(o_frames).
Definition final (f : frame) : bool := match f with RunFinished _ _ | RunError _ _ _ => true | _ => false end.
Definition ongoing (l : list (frame * Z)) : Prop := Forall (λ f, final f.1 = false) l.

(** Only the last frame may be final. *)
Fixpoint well_ended (l : list (frame * Z)) : Prop :=
  match l with
  | [] => True
  | f :: l => (final f.1 = true → l = []) ∧ well_ended l
  end.

Lemma well_ended_app l k : ongoing l → well_ended k → well_ended (l ++ k).
Proof. induction 1 as [|f l Hf Hl IH]; intros Hk; [done|]. simpl. split; [by rewrite Hf|auto]. Qed.
Lemma ongoing_well_ended l : ongoing l → well_ended l.
Proof. intros H. rewrite <- (app_nil_r l). by apply well_ended_app. Qed.
Lemma well_ended_take k l : well_ended l → well_ended (take k l).
Proof.
  revert k. induction l as [|f l IH]; intros [|k]; simpl; try done. intros [Hf Hl]. split; [|by apply IH].
  intros E. rewrite (Hf E). by rewrite take_nil.
Qed.
Lemma well_ended_split l l1 f l2 : well_ended l → l = l1 ++ f :: l2 → final f.1 = true → l2 = [].
Proof.
  revert l1. induction l as [|g l IH]; intros [|g' l1]; simpl; intros H E Hf; try done.
  - injection E as -> <-. by apply H.
  - injection E as -> E. by eapply IH; [apply H|..].
Qed.

(** A step of the stream: what it adds, whether it ends the stream, and what all
    added frames satisfy. *)
Definition adds (P : Z → Prop) (s s' : sstate) (over : bool) : Prop :=
  ∃ l, frames s' = frames s ++ l ∧ well_ended l ∧ (over = false → ongoing l) ∧ Forall (λ f, P f.2) l.

Lemma adds_none P s s' over : frames s' = frames s → adds P s s' over.
Proof. intros E. exists []. rewrite app_nil_r. split_and!; [done|done|by constructor|by constructor]. Qed.
Lemma adds_trans P s1 s2 s3 over : adds P s1 s2 false → adds P s2 s3 over → adds P s1 s3 over.
Proof.
  intros (l & E1 & _ & O1 & P1) (k & E2 & W2 & O2 & P2). exists (l ++ k). specialize (O1 eq_refl). split_and!.
  - by rewrite E2, E1, app_assoc.
  - by apply well_ended_app.
  - intros H. apply Forall_app. split; [done|by apply O2].
  - by apply Forall_app.
Qed.
Lemma adds_weaken (P Q : Z → Prop) s s' over : (∀ q, P q → Q q) → adds P s s' over → adds Q s s' over.
Proof. intros H (l & E & W & O & HP). exists l. split_and!; [done..|]. eapply Forall_impl; [done|]. intros f. apply H. Qed.
Lemma adds_over P s s' over : adds P s s' over → adds P s s' true.
Proof. intros (l & E & W & _ & HP). exists l. by split_and!. Qed.

Lemma say_grows f q s : frames (say f q s).1 = frames s ++ (if (say f q s).2 then [(f, q)] else []).
Proof. unfold say, emit, frames. destruct (o_left (ss_out s)) as [[|n]|]; simpl; by rewrite ?app_nil_r. Qed.

Lemma say_each_grows l : ∀ s, ∃ k, frames (say_each l s) = frames s ++ k ∧ k `sublist_of` l.
Proof.
  induction l as [|[f q] l IH]; intros s; [exists []; by rewrite app_nil_r|]. simpl. destruct (IH (say f q s).1) as (k & E & Hk).
  rewrite E, say_grows. destruct (say f q s).2.
  - exists ((f, q) :: k). split; [by rewrite <- app_assoc|by constructor].
  - exists k. split; [by rewrite app_nil_r|by constructor].
Qed.

Lemma say_all_grows l : ∀ s s' ok, say_all l s = (s', ok) → ∃ k, frames s' = frames s ++ k ∧ k `sublist_of` l ∧ (ok = true → k = l).
Proof.
  induction l as [|[f q] l IH]; intros s s' ok; simpl.
  - intros [= <- <-]. exists []. by rewrite app_nil_r.
  - pose proof (say_grows f q s) as Hg. destruct (say f q s) as [s1 [|]]; simpl in Hg.
    + intros H. destruct (IH _ _ _ H) as (k & E & Hk & Hok). exists ((f, q) :: k). split_and!.
      * by rewrite E, Hg, <- app_assoc.
      * by constructor.
      * intros Ht. by rewrite (Hok Ht).
    + intros [= <- <-]. exists []. by split_and!; [|apply sublist_nil_l|].
Qed.

Lemma say_all_prefix l : ∀ s s' ok, say_all l s = (s', ok) → ∃ k, frames s' = frames s ++ k ∧ k `prefix_of` l.
Proof.
  induction l as [|[f q] l IH]; intros s s' ok; simpl; [intros [= <- <-]; exists []; by rewrite app_nil_r|].
  pose proof (say_grows f q s) as Hg. destruct (say f q s) as [s1 [|]]; simpl in Hg.
  - intros H. destruct (IH _ _ _ H) as (k & E & Hk). exists ((f, q) :: k). split; [by rewrite E, Hg, <- app_assoc|by apply prefix_cons].
  - intros [= <- <-]. exists []. split; [done|apply prefix_nil].
Qed.

Lemma sublist_ended k l : k `sublist_of` l → well_ended l → well_ended k.
Proof.
  induction 1 as [|f k l Hk IH|f k l Hk IH]; simpl; [done| |]; intros [Hf Hl]; [|by apply IH].
  split; [|by apply IH]. intros E. rewrite (Hf E) in Hk. by apply sublist_nil_r in Hk.
Qed.
Lemma sublist_forall {A} (Q : A → Prop) k l : k `sublist_of` l → Forall Q l → Forall Q k.
Proof. induction 1; intros HF; [done| |]; inversion_clear HF; [constructor|]; auto. Qed.

Lemma say_each_adds P l s : well_ended l → Forall (λ f, P f.2) l → adds P s (say_each l s) true.
Proof.
  intros Hw HP. destruct (say_each_grows l s) as (k & E & Hk). exists k.
  split_and!; [done|by eapply sublist_ended|done|by eapply sublist_forall].
Qed.
Lemma say_all_adds P l s s' ok over : ongoing l → Forall (λ f, P f.2) l → say_all l s = (s', ok) → adds P s s' over.
Proof.
  intros Ho HP H. destruct (say_all_grows _ _ _ _ H) as (k & E & Hk & _). exists k. pose proof (sublist_forall _ _ _ Hk Ho) as Hko.
  split_and!; [done|by apply ongoing_well_ended|done|by eapply sublist_forall].
Qed.
Lemma say_adds (P : Z → Prop) f q s s' ok over : final f = false → P q → say f q s = (s', ok) → adds P s s' over.
Proof.
  intros Hf HP H. eapply (say_all_adds P [(f, q)]); [by repeat constructor|by repeat constructor|].
  simpl. rewrite H. by destruct ok.
Qed.

(** The numbers the frames carry, in their order. *)
Definition numbers (l : list (frame * Z)) : list Z := filter (λ q, q ≠ 0) (snd <$> l).
Lemma numbers_app l k : numbers (l ++ k) = numbers l ++ numbers k.
Proof. unfold numbers. by rewrite fmap_app, filter_app. Qed.
Lemma numbers_sublist k l : k `sublist_of` l → numbers k `sublist_of` numbers l.
Proof.
  unfold numbers. induction 1 as [|f k l _ IH|f k l _ IH]; [done| |]; cbn; case_decide; [by constructor|done|by constructor|done].
Qed.
Lemma numbers_zero l : Forall (λ f, f.2 = 0) l → numbers l = [].
Proof. unfold numbers. induction 1 as [|f l Hf _ IH]; [done|]. cbn. by rewrite decide_False by (by intros []). Qed.

(** A step that shows one event: the number of the event at most once, and
    exactly once when the stream goes on. *)
Definition once (q : Z) (s s' : sstate) (over : bool) : Prop :=
  ∃ l, frames s' = frames s ++ l ∧ numbers l `sublist_of` [q] ∧ (over = false → numbers l = [q]).

Lemma once_after q s s1 s' over : frames s1 = frames s → once q s1 s' over → once q s s' over.
Proof. intros E (l & El & ?). exists l. by rewrite El, E. Qed.
Lemma say_each_once q l s : numbers l `sublist_of` [q] → once q s (say_each l s) true.
Proof.
  intros Hl. destruct (say_each_grows l s) as (k & E & Hk). exists k. split_and!; [done| |done].
  etransitivity; [by apply numbers_sublist|done].
Qed.
Lemma say_all_once q l s s' ok : numbers l = [q] → say_all l s = (s', ok) → once q s s' (negb ok).
Proof.
  intros Hl (k & E & Hk & Hok)%say_all_grows. exists k. split_and!; [done|by rewrite <- Hl; apply numbers_sublist|].
  intros Ho%negb_false_iff. by rewrite (Hok Ho).
Qed.
Lemma say_once q f s s' ok : q ≠ 0 → say f q s = (s', ok) → once q s s' (negb ok).
Proof.
  intros Hq H. eapply (say_all_once q [(f, q)]); [unfold numbers; cbn; by rewrite decide_True|]. simpl. rewrite H. by destruct ok.
Qed.

#[local] Opaque say_each say_all.

Section stream.
Context `{codec : Codec} `{yaml : Yaml} `{runtime : Runtime} `{io : ChatIO}.
Context (a : accepted).

(** Frames without a sequence, and frames with the sequence of an event. *)
Definition of_event (q : Z) (x : Z) : Prop := x = 0 ∨ x = q.

Lemma ask_frames {A} (m : prog cstate chat_error A) s s' r : ask m s = (s', r) → frames s' = frames s.
Proof. unfold ask. destruct (m (ss_chat s)) as [c r']. by intros [= <- <-]. Qed.

Lemma custom_adds e q s s' over : custom_event a e q s = (s', over) → adds (of_event q) s s' over.
Proof.
  unfold custom_event. cbv zeta.
  assert (∀ run s s' over, (let '(s, ok) := say (Custom e.(e_Type) e.(e_Reason) e.(e_CallID) e.(e_ToolName) run) q s in (s, negb ok)) = (s', over) →
    adds (of_event q) s s' over) as Hc.
  { intros run s0 s0' over0. destruct (say _ q s0) as [s1 ok] eqn:E. intros [= <- <-]. eapply say_adds; [|by right|exact E]. done. }
  assert (∀ s, adds (of_event q) s (say_each [(unavailable_frame, 0)] s) true) as Hu by (intros s0; apply say_each_adds; [done|by repeat constructor]).
  case_bool_decide; [by apply Hc|]. destruct (ss_external s !! _) as [x|]; [by apply Hc|].
  destruct (ask _ s) as [s1 r] eqn:A. apply ask_frames in A.
  assert (∀ m, adds (of_event q) s (remember m s1) false) as Hr by (intros m; by apply adds_none).
  destruct r as [external|err].
  - destruct (external !! _) as [x|]; intros Hx; (eapply adds_trans; [apply Hr|]); [by eapply Hc|]. injection Hx as <- <-. apply Hu.
  - intros [= <- <-]. eapply adds_trans; [apply Hr|]. apply Hu.
Qed.

Lemma terminal_adds e q s s' over : terminal a e q s = (s', over) → adds (of_event q) s s' over.
Proof.
  unfold terminal. cbv zeta. case_bool_decide.
  { destruct (say_all _ s) as [s1 ok] eqn:E. intros [= <- <-]. eapply say_all_adds; [| |exact E]; repeat constructor; by (left || right). }
  case_bool_decide.
  { destruct (ask _ s) as [s1 r] eqn:A. apply ask_frames in A. assert (adds (of_event q) s s1 false) as Hs by (by apply adds_none).
    destruct r as [view|err]; intros [= <- <-]; (eapply adds_trans; [exact Hs|]); apply say_each_adds; try (repeat constructor; by right).
    - apply well_ended_app; [apply Forall_fmap, Forall_forall; by intros|done].
    - apply Forall_app. split; [apply Forall_fmap, Forall_forall; intros; by right|repeat constructor; by left]. }
  case_bool_decide; [intros [= <- <-]; apply say_each_adds; [done|repeat constructor; by right]|]. case_bool_decide.
  { destruct (say _ q s) as [s1 [|]] eqn:E; intros [= <- <-].
    - eapply adds_trans; [eapply say_adds; [| |exact E]; [done|by right]|]. apply say_each_adds; [done|repeat constructor; by left].
    - eapply say_adds; [| |exact E]; [done|by right]. }
  destruct (contains _ _); [|apply custom_adds]. intros [= <- <-]. apply say_each_adds; [done|repeat constructor; by right].
Qed.

Lemma custom_once e q s s' over : q ≠ 0 → custom_event a e q s = (s', over) → once q s s' over.
Proof.
  intros Hq. unfold custom_event. cbv zeta.
  assert (∀ run s s' over, (let '(s, ok) := say (Custom e.(e_Type) e.(e_Reason) e.(e_CallID) e.(e_ToolName) run) q s in (s, negb ok)) = (s', over) →
    once q s s' over) as Hc.
  { intros run s0 s0' over0. destruct (say _ q s0) as [s1 ok] eqn:E. intros [= <- <-]. by eapply say_once. }
  assert (∀ s, once q s (say_each [(unavailable_frame, 0)] s) true) as Hu.
  { intros s0. apply say_each_once. rewrite numbers_zero by (by repeat constructor). apply sublist_nil_l. }
  case_bool_decide; [by apply Hc|]. destruct (ss_external s !! _) as [x|]; [by apply Hc|].
  destruct (ask _ s) as [s1 r] eqn:A. apply ask_frames in A.
  destruct r as [external|err].
  - destruct (external !! _) as [x|]; intros Hx; (eapply (once_after q s (remember external s1)); [done|]); [by eapply Hc|].
    injection Hx as <- <-. apply Hu.
  - intros [= <- <-]. eapply (once_after q s (remember ∅ s1)); [done|]. apply Hu.
Qed.

(** A snapshot has each run once. *)
Lemma Snapshot_runs t p s v : Snapshot t p s = Ok v → NoDup (rv_RunID <$> v.(sv_Runs)).
Proof.
  unfold Snapshot. destruct (convs s !! t) as [c|]; [|done]. case_decide; [|done]. cbv zeta. intros [= <-]. cbn.
  rewrite <- list_fmap_compose, (list_fmap_ext _ fst) by (by intros ? [] ?).
  unfold matching. generalize (NoDup_fst_map_to_list (runs s)). generalize (map_to_list (runs s)) as l.
  induction l as [|[id r] l IH]; [done|]. intros [Hn Hl]%NoDup_cons. rewrite filter_cons. case_decide; [|by apply IH].
  cbn. apply NoDup_cons. split; [|by apply IH]. intros (x & -> & [_ Hin]%list_elem_of_filter)%list_elem_of_fmap.
  apply Hn. apply (list_elem_of_fmap_2 fst l _ Hin).
Qed.

Lemma mine_once (run : string) l : NoDup (rv_RunID <$> l) → (length (filter (λ v, v.(rv_RunID) = run) l) <= 1)%nat.
Proof.
  induction l as [|v l IH]; cbn; [lia|]. intros [Hn Hl]%NoDup_cons. case_decide as E; [|by apply IH].
  match goal with |- (length (_ :: ?k) <= 1)%nat => assert (k = []) as ->; [|cbn; lia] end.
  apply elem_of_nil_inv. intros w [Ew Hw]%list_elem_of_filter. apply Hn. rewrite E, <- Ew. apply (list_elem_of_fmap_2 rv_RunID l w Hw).
Qed.

Lemma terminal_once e q s s' over : q ≠ 0 → terminal a e q s = (s', over) → once q s s' over.
Proof.
  intros Hq. assert (∀ f l, Forall (λ f, f.2 = 0) l → numbers ((f, q) :: l) = [q]) as Hnum.
  { intros f l Hl. unfold numbers. cbn. rewrite decide_True by done. f_equal. by apply numbers_zero. }
  unfold terminal. cbv zeta. case_bool_decide.
  { destruct (say_all _ s) as [s1 ok] eqn:E. intros [= <- <-]. eapply say_all_once; [|exact E].
    apply (Hnum (TextContent "" "") [(TextEnd "", 0)]). by repeat constructor. }
  assert (∀ f s, once q s (say_each [(f, q)] s) true) as H1.
  { intros f s0. apply say_each_once. by rewrite (Hnum f []). }
  case_bool_decide.
  { destruct (ask _ s) as [s1 r] eqn:A. pose proof (ask_frames _ _ _ _ A) as Hf.
    destruct r as [view|err]; intros [= <- <-]; (eapply once_after; [exact Hf|]); [|apply H1].
    apply say_each_once. assert (NoDup (rv_RunID <$> view.(sv_Runs))) as Hnd.
    { unfold ask, platform_call in A. destruct (call _ _) as [st [v|e0]] eqn:C; [|done]. injection A as _ ->.
      apply call_query_db in C as [_ Hs]. by eapply Snapshot_runs, Hs. }
    apply (mine_once (ac_run a)) in Hnd. destruct (filter _ _) as [|v [|? ?]]; cbn in Hnd; [| |lia].
    - rewrite numbers_zero by (by repeat constructor). apply sublist_nil_l.
    - change (numbers ((Requested (safeInteraction <$> rv_Interaction v), q) :: [(run_finished a, 0)]) `sublist_of` [q]).
      by rewrite Hnum by (by repeat constructor). }
  case_bool_decide; [intros [= <- <-]; apply H1|]. case_bool_decide.
  { destruct (say _ q s) as [s1 [|]] eqn:E; intros [= <- <-].
    - destruct (say_once _ _ _ _ _ Hq E) as (l & El & Hl & Hall). specialize (Hall eq_refl).
      destruct (say_each_grows [(RunError "run limit exceeded" "limit_exceeded" (pq_RunID (pq a)), 0)] s1) as (k & Ek & Hk).
      exists (l ++ k). split_and!; [by rewrite Ek, El, app_assoc| |done]. rewrite numbers_app, Hall.
      apply numbers_sublist in Hk. rewrite (numbers_zero [_]) in Hk by (by repeat constructor). apply sublist_nil_r in Hk. by rewrite Hk.
    - destruct (say_once _ _ _ _ _ Hq E) as (l & El & Hl & _). exists l. by split_and!. }
  destruct (contains _ _); [|by apply custom_once]. intros [= <- <-]. apply H1.
Qed.

(** ** Events in their order *)

(** What is added shows the events of the run in a log with numbers after [lo]
    and up to [hi]: in their order, none twice, and none left out before the
    last one shown, or at all when the stream goes on. *)
Definition shows (lo hi : Z) (log : list Event) (s s' : sstate) (over : bool) : Prop :=
  ∃ l, frames s' = frames s ++ l ∧ well_ended l ∧ (over = false → ongoing l) ∧
    Forall (λ f, f.2 = 0 ∨ lo < f.2 <= hi ∧ ∃ e, e ∈ log ∧ e.(e_Sequence) = f.2 ∧ e.(e_RunID) = a.(ac_run)) l ∧
    StronglySorted Z.lt (numbers l) ∧
    (∀ e, e ∈ log → e.(e_RunID) = a.(ac_run) → lo < e.(e_Sequence) <= hi →
      over = false ∨ Exists (λ q, e.(e_Sequence) < q) (numbers l) → e.(e_Sequence) ∈ numbers l).

Lemma sorted_app (l k : list Z) : StronglySorted Z.lt l → StronglySorted Z.lt k → (∀ x y, x ∈ l → y ∈ k → x < y) → StronglySorted Z.lt (l ++ k).
Proof.
  induction 1 as [|x l Hl IH Hx]; intros Hk Hxy; [done|]. simpl. constructor.
  - apply IH; [done|]. intros u v Hu. apply Hxy. by right.
  - apply Forall_app. split; [done|]. apply Forall_forall. intros y. apply Hxy. by left.
Qed.

Lemma shows_none lo hi log s s' over : frames s' = frames s →
  (over = false → ∀ e, e ∈ log → e.(e_RunID) = a.(ac_run) → ¬ lo < e.(e_Sequence) <= hi) → shows lo hi log s s' over.
Proof.
  intros E H. exists []. rewrite app_nil_r. split_and!; [done|done|by constructor|by constructor|apply SSorted_nil|].
  intros e He Hr Hq [Ho|[]%Exists_nil]. by destruct (H Ho e He Hr).
Qed.
Lemma shows_empty lo log s s' over : frames s' = frames s → shows lo lo log s s' over.
Proof. intros E. apply shows_none; [done|]. intros; lia. Qed.

(** The numbers of what is shown. *)
Lemma shown_range lo hi (log : list Event) (l : list (frame * Z)) :
  Forall (λ f, f.2 = 0 ∨ lo < f.2 <= hi ∧ ∃ e, e ∈ log ∧ e.(e_Sequence) = f.2 ∧ e.(e_RunID) = a.(ac_run)) l →
  ∀ q, q ∈ numbers l → lo < q <= hi.
Proof.
  intros H q [Hq (f & -> & Hf)%list_elem_of_fmap]%list_elem_of_filter. rewrite Forall_forall in H. by destruct (H f Hf) as [|[? _]].
Qed.

Lemma shows_trans lo mid hi log s1 s2 s3 over : lo <= mid → mid <= hi → shows lo mid log s1 s2 false → shows mid hi log s2 s3 over →
  shows lo hi log s1 s3 over.
Proof.
  intros Hlm Hmh (l & E1 & _ & O1 & P1 & S1 & G1) (k & E2 & W2 & O2 & P2 & S2 & G2). exists (l ++ k). specialize (O1 eq_refl).
  pose proof (shown_range _ _ _ _ P1) as H1. pose proof (shown_range _ _ _ _ P2) as H2. rewrite numbers_app. split_and!.
  - by rewrite E2, E1, app_assoc.
  - by apply well_ended_app.
  - intros Ho. apply Forall_app. split; [done|by apply O2].
  - apply Forall_app. split; (eapply Forall_impl; [eassumption|]); simpl; intros f [?|[? Hx]]; [by left|right; split; [lia|done]..|by left|right; split; [lia|done]].
  - apply sorted_app; [done..|]. intros x y Hx%H1 Hy%H2. lia.
  - intros e He Hr Hq Hor. apply elem_of_app. destruct (Z.le_gt_cases e.(e_Sequence) mid); [left; apply G1; [done..|lia|by left]|].
    right. apply G2; [done..|lia|]. destruct Hor as [?|Hx]; [by left|]. right.
    apply Exists_app in Hx as [(x & Hx & ?)%Exists_exists|?]; [|done]. apply H1 in Hx. lia.
Qed.

Lemma shows_log lo hi log log' s s' over : (∀ e, e ∈ log → e ∈ log') →
  (∀ e, e ∈ log' → lo < e.(e_Sequence) <= hi → e ∈ log) → shows lo hi log s s' over → shows lo hi log' s s' over.
Proof.
  intros Hsub Hback (l & E & W & O & HP & HS & HG). exists l. split_and!; try done.
  - eapply Forall_impl; [exact HP|]. simpl. intros f [?|[? (e & ? & ?)]]; [by left|]. right. split; [done|]. exists e. split; [by apply Hsub|done].
  - intros e He Hr Hq. apply HG; [by apply Hback|done..].
Qed.

(** An ended stream shows nothing of later numbers. *)
Lemma shows_over lo hi hi' log s s' : hi <= hi' → shows lo hi log s s' true → shows lo hi' log s s' true.
Proof.
  intros Hh (l & E & W & O & HP & HS & HG). exists l. split_and!; try done.
  - eapply Forall_impl; [exact HP|]. simpl. intros f [?|[? Hx]]; [by left|right; split; [lia|done]].
  - intros e He Hr Hq [?|Hx]; [done|]. apply HG; [done..| |by right]. apply Exists_exists in Hx as (x & Hx & ?).
    pose proof (shown_range _ _ _ _ HP x Hx). lia.
Qed.

Lemma terminal_shows e s s' over log : 0 < e.(e_Sequence) → e ∈ log → e.(e_RunID) = a.(ac_run) →
  terminal a e e.(e_Sequence) s = (s', over) → shows (e.(e_Sequence) - 1) e.(e_Sequence) log s s' over.
Proof.
  intros Hpos He Hr H. assert (e.(e_Sequence) ≠ 0) as H0 by lia.
  destruct (terminal_once e _ _ _ _ H0 H) as (l' & E' & Hl & Hall).
  apply terminal_adds in H as (l & E & W & O & HP).
  assert (l' = l) as -> by (rewrite E in E'; by apply app_inv_head in E'). exists l. split_and!; try done.
  - eapply Forall_impl; [exact HP|]. simpl. intros f [?|Hq]; [by left|]. right. split; [lia|by exists e].
  - destruct (numbers l) as [|x [|y k]]; [constructor|by repeat constructor|]. apply sublist_length in Hl. cbn in Hl. lia.
  - intros e' He' Hr' Hq [Ho|Hx].
    + rewrite (Hall Ho). apply list_elem_of_singleton. lia.
    + apply Exists_exists in Hx as (x & Hx & Hlt). eapply elem_of_submseteq in Hx; [|by apply sublist_submseteq]. apply list_elem_of_singleton in Hx. lia.
Qed.

Lemma deliver_shows batch : ∀ n s s' over, 0 <= n → numbered (n + 1) batch → deliver a batch s = (s', over) → shows n (n + zlen batch) batch s s' over.
Proof.
  induction batch as [|e batch IH]; intros n s s' over Hn0; cbn [deliver].
  - intros _ [= <- <-]. unfold zlen. simpl. rewrite Z.add_0_r. by apply shows_empty.
  - intros Hnum. pose proof Hnum as [He Hn]. assert (n + zlen (e :: batch) = n + 1 + zlen batch) as -> by (unfold zlen; simpl; lia).
    assert (0 <= zlen batch) as Hlen by (unfold zlen; lia).
    assert (∀ s0 s1 over, deliver a batch s0 = (s1, over) → shows (n + 1) (n + 1 + zlen batch) (e :: batch) s0 s1 over) as Hrest.
    { intros s0 s1 ov Hd. eapply shows_log; [| |apply IH; [lia|exact Hn|exact Hd]]; [intros x Hx; by right|].
      intros x [->|Hx]%elem_of_cons Hq; [lia|done]. }
    case_bool_decide as Hr.
    + destruct (terminal a e _ s) as [s1 [|]] eqn:T; apply (terminal_shows _ _ _ _ (e :: batch)) in T; try done; try lia; try by left.
      * intros [= <- <-]. rewrite He in T. replace (n + 1 - 1) with n in T by lia. eapply shows_over; [|exact T]. lia.
      * intros Hd. rewrite He in T. replace (n + 1 - 1) with n in T by lia.
        eapply (shows_trans n (n + 1)); [lia|lia|exact T|by apply Hrest].
    + intros Hd. eapply (shows_trans n (n + 1)); [lia|lia| |by apply Hrest]. apply shows_none; [done|].
      intros _ x Hx Hxr Hq. apply Hr. rewrite <- (numbered_inj _ _ x e Hnum Hx ltac:(by left)); [done|lia].
Qed.
End stream.

(** ** The database under a stream *)

Definition cdb (c : cstate) : db := c.(cs_platform).(ps_state).(rs_store).(ls_db).
Definition sdb (s : sstate) : db := cdb s.(ss_chat).

Section database.
Context `{codec : Codec} `{yaml : Yaml} `{runtime : Runtime} `{io : ChatIO}.
Context (others : ∀ n s, steps s (rt_outside.(x_others) n s)).
Context (a : accepted).

Definition chat_steps (c c' : cstate) : Prop := steps (cdb c) (cdb c').
#[local] Instance chat_steps_preorder : PreOrder chat_steps.
Proof. unfold chat_steps. split; [intros c; reflexivity|]. intros x y z H1 H2. by etransitivity. Qed.

Lemma platform_call_steps {A} (m : prog rstate run_error A) : always still m → always chat_steps (platform_call m).
Proof. intros Hm c. unfold platform_call. specialize (Hm c.(cs_platform).(ps_state)). by destruct (m _) as [st r]; destruct Hm. Qed.
Lemma ids_call_steps {A} (f : drawn → idmap → idmap * result id_error A) : always chat_steps (ids_call f).
Proof. intros c. unfold ids_call, chat_steps. cbv zeta. destruct (ids_fault _); [reflexivity|]. destruct (f _ _). reflexivity. Qed.

Lemma ask_steps {A} (m : prog cstate chat_error A) s s' r : always chat_steps m → ask m s = (s', r) → steps (sdb s) (sdb s').
Proof. intros Hm. unfold ask, sdb. specialize (Hm s.(ss_chat)). destruct (m _) as [c r']. by intros [= <- <-]. Qed.

Lemma say_db f q s : sdb (say f q s).1 = sdb s.
Proof. unfold say. by destruct (emit _ _ _). Qed.
#[local] Transparent say_each say_all.
Lemma say_each_db l : ∀ s, sdb (say_each l s) = sdb s.
Proof. induction l as [|[f q] l IH]; intros s; simpl; [done|]. by rewrite IH, say_db. Qed.
Lemma say_all_db l : ∀ s s' ok, say_all l s = (s', ok) → sdb s' = sdb s.
Proof.
  induction l as [|[f q] l IH]; intros s s' ok; simpl; [by intros [= <- <-]|]. pose proof (say_db f q s) as Hs.
  destruct (say f q s) as [s1 [|]]; simpl in Hs; [|by intros [= <- <-]]. intros Hx. by rewrite (IH _ _ _ Hx).
Qed.
#[local] Opaque say_each say_all.

Lemma custom_steps e q s s' over : custom_event a e q s = (s', over) → steps (sdb s) (sdb s').
Proof.
  unfold custom_event. cbv zeta.
  assert (∀ run s s' over, (let '(s, ok) := say (Custom e.(e_Type) e.(e_Reason) e.(e_CallID) e.(e_ToolName) run) q s in (s, negb ok)) = (s', over) →
    sdb s' = sdb s) as Hc.
  { intros run s0 s0' over0. pose proof (say_db (Custom e.(e_Type) e.(e_Reason) e.(e_CallID) e.(e_ToolName) run) q s0) as Hs.
    destruct (say _ q s0) as [s1 ok]. by intros [= <- <-]. }
  case_bool_decide; [intros Hx; by rewrite (Hc _ _ _ _ Hx)|].
  destruct (ss_external s !! _) as [x|]; [intros Hx; by rewrite (Hc _ _ _ _ Hx)|].
  destruct (ask _ s) as [s1 r] eqn:A. apply ask_steps in A; [|apply ids_call_steps].
  destruct r as [external|err].
  - destruct (external !! _) as [x|]; intros Hx.
    + apply Hc in Hx. by rewrite Hx.
    + injection Hx as <- <-. by rewrite say_each_db.
  - intros [= <- <-]. by rewrite say_each_db.
Qed.

Lemma terminal_steps e q s s' over : terminal a e q s = (s', over) → steps (sdb s) (sdb s').
Proof using others.
  unfold terminal. cbv zeta. case_bool_decide.
  { destruct (say_all _ s) as [s1 ok] eqn:E. apply say_all_db in E. intros [= <- <-]. by rewrite E. }
  case_bool_decide.
  { destruct (ask _ s) as [s1 r] eqn:A. apply ask_steps in A; [|by apply platform_call_steps, call_query].
    by destruct r as [view|err]; intros [= <- <-]; rewrite say_each_db. }
  case_bool_decide; [intros [= <- <-]; by rewrite say_each_db|]. case_bool_decide.
  { pose proof (say_db (LimitExceeded (e_Reason e) match e_Detail e with Some (DLimit _ seconds) => seconds | _ => 0 end) q s) as Hs.
    destruct (say _ q s) as [s1 [|]]; simpl in Hs; intros [= <- <-]; by rewrite ?say_each_db, Hs. }
  destruct (contains _ _); [|apply custom_steps]. intros [= <- <-]. by rewrite say_each_db.
Qed.

Lemma deliver_steps batch : ∀ s s' over, deliver a batch s = (s', over) → steps (sdb s) (sdb s').
Proof using others.
  induction batch as [|e batch IH]; intros s s' over; cbn [deliver]; [by intros [= <- <-]|].
  case_bool_decide; [|by apply IH]. destruct (terminal a e _ s) as [s1 [|]] eqn:T; apply terminal_steps in T; [by intros [= <- <-]|].
  intros Hx. apply IH in Hx. by etransitivity.
Qed.

(** A poll: what it read, of which database, and where the next one starts. *)
Lemma poll_ok t p after st st' batch next : poll t p after st = (st', Ok (batch, next)) →
  batch = readEvents t after st'.(rs_store).(ls_db) ∧ next = foldl (λ _ e, e.(e_Sequence)) after batch.
Proof.
  unfold poll. intros (b & st1 & C & H)%svc_bind_ok. injection H as <- <- <-. apply call_query_db in C as [Hdb Hq].
  specialize (Hq _ eq_refl). rewrite <- Hdb in Hq. unfold Events in Hq. destruct (convs _ !! t); [|done].
  case_decide; [|done]. by injection Hq as <-.
Qed.

Lemma watch_shows n : ∀ after s, reachable (sdb s) → 0 <= after → ∃ hi, after <= hi ∧
  steps (sdb s) (sdb (watch a n after s)) ∧
  shows a after hi (thread_events a.(ac_thread) (sdb (watch a n after s))) s (watch a n after s) true.
Proof using others.
  induction n as [|n IH]; intros after s Hr Ha; cbn [watch]; [exists after; split_and!; [done|reflexivity|by apply shows_empty]|].
  destruct (ask _ s) as [s1 r] eqn:A.
  assert (steps (sdb s) (sdb s1)) as Hs1 by (eapply ask_steps; [|exact A]; apply platform_call_steps; unfold poll; always_walk; by apply call_query).
  pose proof (ask_frames _ _ _ _ A) as Hf1. pose proof (reachable_steps _ _ Hr Hs1) as Hr1. destruct r as [[batch next]|err].
  2:{ exists after. destruct failure_seen; (split_and!; [done|by rewrite ?say_each_db|]); [|by apply shows_empty].
      destruct (say_each_adds (λ q, q = 0) [(unavailable_frame, 0)] s1) as (l & E & W & O & HP); [done|by repeat constructor|].
      exists l. rewrite (numbers_zero l HP). split_and!; [by rewrite E, Hf1|done|done| |constructor|intros; lia].
      eapply Forall_impl; [exact HP|]. simpl. by left. }
  assert (batch = readEvents a.(ac_thread) after (sdb s1) ∧ next = foldl (λ _ e, e.(e_Sequence)) after batch) as [Hb Hnext].
  { unfold ask, platform_call in A. destruct (poll _ _ _ _) as [st rr] eqn:P. destruct rr as [[b nx]|]; [|done].
    injection A as <- -> ->. by apply poll_ok in P. }
  pose proof (numbered_reachable _ a.(ac_thread) Hr1) as Hn1.
  assert (numbered (after + 1) batch) as Hnb.
  { rewrite Hb, readEvents_drop by done. pose proof (numbered_drop _ _ (Z.to_nat after) Hn1) as Hd. by rewrite Z2Nat.id, Z.add_comm in Hd. }
  assert (next = after + zlen batch) as -> by (rewrite Hnext; by apply foldl_last).
  assert (0 <= zlen batch) as Hlen by (unfold zlen; lia).
  destruct (deliver a batch s1) as [s2 over] eqn:D; pose proof (deliver_steps _ _ _ _ D) as Hs2;
    apply (deliver_shows a batch after) in D; try done.
  assert (∀ s', steps (sdb s1) s' → shows a after (after + zlen batch) (thread_events a.(ac_thread) s') s1 s2 over) as Hd.
  { intros s' Hs'. eapply shows_log; [| |exact D];
      intros e; rewrite Hb, readEvents_drop by done; destruct (steps_events _ _ a.(ac_thread) Hs') as [new E]; rewrite E.
    - intros He. apply elem_of_app. left. rewrite <- (take_drop (Z.to_nat after)). apply elem_of_app. by right.
    - intros He Hq. pose proof (numbered_reachable _ a.(ac_thread) (reachable_steps _ _ Hr1 Hs')) as Hn'. rewrite E in Hn'.
      by eapply numbered_between. }
  destruct over.
  - exists (after + zlen batch). split_and!; [lia|by etransitivity|].
    eapply shows_trans; [apply Z.le_refl|lia|by apply (shows_empty a after)|by apply Hd].
  - destruct (IH (after + zlen batch) s2) as (hi & Hhi & Hs3 & Hsh); [by eapply reachable_steps|lia|].
    exists hi. split_and!; [lia|by do 2 (etransitivity; [done|])|].
    eapply shows_trans; [apply Z.le_refl| |by apply (shows_empty a after)|]; [lia|].
    eapply shows_trans; [| |apply Hd|exact Hsh]; [lia|lia|]. by etransitivity.
Qed.

(** ** A response *)

Lemma submit_call_steps id command : always chat_steps (submit_call id command).
Proof using others.
  intros c. unfold submit_call, chat_steps, cdb. unfold Submit. destruct (enter _) as [p|e] eqn:E; [|reflexivity].
  assert (p.(ps_state) = c.(cs_platform).(ps_state)) as Hp by (unfold enter in E; repeat case_match; by simplify_eq/=).
  pose proof (admission_still others id command p.(ps_state)) as [Hs _]. rewrite Hp in Hs |- *.
  destruct (admission id command _) as [st [[receipt [i|]]|e]]; exact Hs.
Qed.

Lemma platform_call_ok {A} (m : prog rstate run_error A) c c' v : platform_call m c = (c', Ok v) →
  ∃ st, m c.(cs_platform).(ps_state) = (st, Ok v) ∧ c' = mk_cstate (work st c.(cs_platform)) c.(cs_ids) c.(cs_tick).
Proof. unfold platform_call. destruct (m _) as [st [x|e]]; [|done]. intros [= <- <-]. by exists st. Qed.

(** What [accept] has established: the rows of the identifiers, and that the
    conversation of the journal is the caller's. *)
Record owned (p : parsed) (b : accepted) (c : cstate) : Prop := {
  ow_parsed : b.(ac_parsed) = p;
  ow_conversation : ∃ conv, (cdb c).(convs) !! b.(ac_thread) = Some conv ∧ conv.(cv_principal) = p.(pq_Identity).(id_Principal);
  ow_watermark : 0 <= b.(ac_watermark);
}.

Lemma accept_ok id p c c' b : reachable (cdb c) → accept id p c = (c', Ok b) → owned p b c' ∧ steps (cdb c) (cdb c').
Proof using others.
  intros Hr. unfold accept. cbv zeta. intros (i & c1 & H1 & H)%svc_bind_ok. apply svc_bind_ok in H as (u & c2 & H2 & H).
  apply svc_bind_ok in H as (view & c3 & H3 & H). apply svc_bind_ok in H as (external & c4 & H4 & H).
  assert (steps (cdb c) (cdb c1)) as S1.
  { pose proof (ids_call_steps (λ d, resolve p.(pq_Identity).(id_Principal) p.(pq_ThreadID) p.(pq_RunID) p.(pq_Create) d) c) as Hx. by rewrite H1 in Hx. }
  assert (steps (cdb c1) (cdb c2)) as S2.
  { destruct (pq_Create p); [|by injection H2 as <-]. eapply (f_equal fst) in H2. simpl in H2. rewrite <- H2. apply submit_call_steps. }
  assert (steps (cdb c2) (cdb c3) ∧ Snapshot i.(id_thread) p.(pq_Identity).(id_Principal) (cdb c3) = Ok view) as [S3 Hview].
  { split; [eapply (f_equal fst) in H3; simpl in H3; rewrite <- H3; apply platform_call_steps; always_walk; by apply call_query|].
    apply platform_call_ok in H3 as (st & E & ->). apply svc_bind_ok in E as ([] & st1 & E1 & E). apply unless_ok in E1 as [_ ->]. apply call_query_db in E as [Hdb Hq].
    specialize (Hq _ eq_refl). by rewrite <- Hdb in Hq. }
  assert (cs_platform c4 = cs_platform c3) as S4.
  { revert H4. unfold external_call, ids_call. cbv zeta. destruct (ids_fault _); [done|]. by intros [= <- _]. }
  destruct (external_outcomes _ _) as [commands|]; [|done]. injection H as -> <-.
  assert (cdb c' = cdb c3) as Hc by (unfold cdb; by rewrite S4).
  split; [|rewrite Hc; by do 2 (etransitivity; [done|])].
  revert Hview. unfold Snapshot. destruct (convs _ !! _) as [conv|] eqn:C; [|done]. case_decide as Hp; [|done]. intros [= <-].
  split; [done|exists conv; rewrite Hc; by split|]. cbn [ac_watermark sv_Watermark].
  assert (reachable (cdb c3)) as Hr3 by (do 3 (eapply reachable_steps; [|done]); done).
  destruct (reachable_numbered _ _ _ Hr3 C) as [_ Hlen]. rewrite <- Hlen. unfold zlen. lia.
Qed.

Lemma read_request_cursor r p : read_request r = Ok p → 0 <= p.(pq_Cursor).
Proof.
  assert (∀ h n, read_cursor h = Ok n → 0 <= n) as Hc.
  { intros h n. unfold read_cursor. cbv zeta. case_bool_decide; [by intros [= <-]|]. destruct (ParseInt _) as [x|]; [|done].
    destruct (x <? 0) eqn:E; [done|]. intros [= <-]. lia. }
  unfold read_request. destruct (authenticate _) as [identity|]; [|done]. cbv zeta. intros H.
  apply bind_ok in H as (cursor & Hcur & H). apply Hc in Hcur. apply bind_ok in H as (input & _ & H). apply ensure_bind in H as [_ H].
  destruct (bool_decide _); [|by injection H as <-]. apply bind_ok in H as ([text reply] & _ & H).
  destruct (targetJourney _); [|done]. by injection H as <-.
Qed.

Lemma project_adds s s' over : project a s = (s', over) → adds (λ q, q = 0) s s' over.
Proof.
  assert (∀ e s s' over, terminal a e 0 s = (s', over) → adds (λ q, q = 0) s s' over) as Ht.
  { intros e s0 s1 ov Hx%terminal_adds. eapply adds_weaken; [|exact Hx]. by intros q [|]. }
  unfold project. destruct (ac_current a) as [v|]; [|intros [= <- <-]; by apply adds_none]. cbv zeta.
  assert (∀ s1 s2 over, match final_event v with Some e => ((terminal a e 0 s1).1, true) | None => (s1, false) end = (s2, over) →
    adds (λ q, q = 0) s1 s2 over) as Hfin.
  { intros s1 s2 ov. destruct (final_event v) as [e|]; intros [= <- <-]; [|by apply adds_none].
    destruct (terminal a e 0 s1) as [s2 ov] eqn:T. apply Ht in T. by eapply adds_over. }
  case_bool_decide; [by apply Hfin|]. destruct (terminal a _ 0 s) as [s1 [|]] eqn:T; apply Ht in T; [by intros [= <- <-]|].
  intros Hx. eapply adds_trans; [exact T|by apply Hfin].
Qed.

Lemma project_steps s s' over : project a s = (s', over) → steps (sdb s) (sdb s').
Proof using others.
  unfold project. destruct (ac_current a) as [v|]; [|by intros [= <- <-]]. cbv zeta.
  assert (∀ s1 s2 over, match final_event v with Some e => ((terminal a e 0 s1).1, true) | None => (s1, false) end = (s2, over) →
    steps (sdb s1) (sdb s2)) as Hfin.
  { intros s1 s2 ov. destruct (final_event v) as [e|]; intros [= <- <-]; [|done].
    destruct (terminal a e 0 s1) as [s2 ov] eqn:T. by eapply terminal_steps. }
  case_bool_decide; [by apply Hfin|]. destruct (terminal a _ 0 s) as [s1 [|]] eqn:T; apply terminal_steps in T; [by intros [= <- <-]|].
  intros Hx. apply Hfin in Hx. by etransitivity.
Qed.
End database.

(** The two frames a stream opens with. *)
Definition opening (a : accepted) : list (frame * Z) :=
  [(RunStarted (pq a).(pq_ThreadID) (pq a).(pq_RunID), 0); (StateSnapshot (state_view a), Z.max (pq a).(pq_Cursor) a.(ac_watermark))].

Lemma stream_frames `{codec : Codec} `{yaml : Yaml} `{runtime : Runtime} `{io : ChatIO}
    (others : ∀ n s, steps s (rt_outside.(x_others) n s)) n left a c : reachable (cdb c) → 0 <= (pq a).(pq_Cursor) → 0 <= a.(ac_watermark) →
  frames (stream a n left c) `prefix_of` opening a ∨
  ∃ hi s, frames s = opening a ∧ shows a (Z.max (pq a).(pq_Cursor) a.(ac_watermark)) hi (thread_events a.(ac_thread) (sdb (stream a n left c)))
    s (stream a n left c) true.
Proof.
  intros Hr Hcur Hw. unfold stream. fold (opening a). set (start := Z.max _ _). set (s0 := mk_sstate _ _ _). cbv zeta.
  destruct (say_all (opening a) s0) as [s1 ok] eqn:O. pose proof (say_all_db _ _ _ _ O) as Hdb1.
  destruct ok.
  2:{ left. apply say_all_prefix in O as (k & Hk & Hp). by rewrite Hk. }
  destruct (say_all_grows _ _ _ _ O) as (k & Hk & _ & Hok). rewrite (Hok eq_refl) in Hk. right.
  assert (reachable (sdb s1)) as Hr1 by (by rewrite Hdb1).
  destruct (project a s1) as [s2 over] eqn:R. pose proof (project_adds _ _ _ _ R) as (l & El & Wl & Ol & Pl).
  assert (∀ log ov, (ov = false → ongoing l) → shows a start start log s1 s2 ov) as Hrep.
  { intros log ov Hov. exists l. rewrite (numbers_zero l Pl). split_and!; [done..| |constructor|intros; lia].
    eapply Forall_impl; [exact Pl|]. by left. }
  destruct over; [exists start, s1; by split; [|apply Hrep]|].
  pose proof (project_steps others _ _ _ _ R) as Hs2.
  destruct (watch_shows others a n start s2) as (hi & Hhi & _ & Hsh); [by eapply reachable_steps|lia|].
  exists hi, s1. split; [done|]. eapply shows_trans; [apply Z.le_refl|exact Hhi|by apply Hrep|exact Hsh].
Qed.

Lemma serve_streamed `{codec : Codec} `{yaml : Yaml} `{runtime : Runtime} `{io : ChatIO}
    (others : ∀ n s, steps s (rt_outside.(x_others) n s)) n left owner r c c' l : reachable (cdb c) →
  serve n left owner r c = (c', Streamed l) → ∃ p a c1, read_request r = Ok p ∧ accept owner p c = (c1, Ok a) ∧ owned p a c1 ∧
    reachable (cdb c1) ∧ 0 <= p.(pq_Cursor) ∧ l = frames (stream a n left c1) ∧ cdb c' = sdb (stream a n left c1).
Proof.
  intros Hr. unfold serve. destruct (read_request r) as [p|] eqn:P; [|done]. destruct (accept owner p c) as [c1 [a|e]] eqn:A; [|done].
  cbv zeta. intros [= <- <-]. destruct (accept_ok others owner p c c1 a Hr A) as [Ho Hs]. exists p, a, c1.
  split_and!; try done; [by eapply reachable_steps|by eapply read_request_cursor].
Qed.

(** C5 A stream is only ever of the caller's own conversation: whoever is
    answered with a stream was authenticated, and the journal's conversation
    the frames are read from has the caller's principal as its owner. *)
Theorem stream_isolated `{codec : Codec} `{yaml : Yaml} `{runtime : Runtime} `{io : ChatIO}
    (n : nat) (left : option nat) (owner : string) (r : request) (c c' : cstate) (l : list (frame * Z))
    (Hothers : ∀ n s, steps s (rt_outside.(x_others) n s)) (Hreach : reachable (cdb c))
    (Hserve : serve n left owner r c = (c', Streamed l)) :
  ∃ identity p a c1 conv, authenticate r.(rq_Header) = Some identity ∧ accept owner p c = (c1, Ok a) ∧
    (cdb c1).(convs) !! a.(ac_thread) = Some conv ∧ conv.(cv_principal) = identity.(id_Principal) ∧
    l = frames (stream a n left c1).
Proof.
  destruct (serve_streamed Hothers _ _ _ _ _ _ _ Hreach Hserve) as (p & a & c1 & P & A & [_ (conv & Hc & Hp) _] & _ & _ & -> & _).
  unfold read_request in P. destruct (authenticate _) as [identity|]; [|done]. cbv zeta in P.
  assert (pq_Identity p = identity) as Hi.
  { apply bind_ok in P as (cursor & _ & P). apply bind_ok in P as (input & _ & P). apply ensure_bind in P as [_ P].
    destruct (bool_decide _); [|by injection P as <-]. apply bind_ok in P as ([text reply] & _ & P).
    destruct (targetJourney _); [|done]. by injection P as <-. }
  exists identity, p, a, c1, conv. by rewrite <- Hi.
Qed.

(** Nothing follows a final frame. *)
Lemma streamed_well_ended `{codec : Codec} `{yaml : Yaml} `{runtime : Runtime} `{io : ChatIO}
    (n : nat) (left : option nat) (owner : string) (r : request) (c c' : cstate) (l : list (frame * Z))
    (Hothers : ∀ n s, steps s (rt_outside.(x_others) n s)) (Hreach : reachable (cdb c))
    (Hserve : serve n left owner r c = (c', Streamed l)) : well_ended l.
Proof.
  destruct (serve_streamed Hothers _ _ _ _ _ _ _ Hreach Hserve) as (p & a & c1 & P & A & [Hp _ Hw] & Hr1 & Hcur & -> & Hdb).
  rewrite <- Hp in Hcur. assert (ongoing (opening a)) as Hopen by repeat constructor.
  destruct (stream_frames Hothers n left a c1 Hr1 Hcur Hw) as [Hpre|(hi & s & Hs & k & Hk & Wk & _)].
  - destruct Hpre as [m Hm]. apply ongoing_well_ended. rewrite Hm in Hopen. by apply Forall_app in Hopen as [? _].
  - rewrite Hs in Hk. rewrite Hk. by apply well_ended_app.
Qed.

(** C28 A stream shows the events of its run once, in the order of the log and
    without gaps, and stops at its end: it opens with the run and the snapshot;
    every later frame that carries a number carries that of an event of this run
    after the client's cursor and the snapshot; the numbers increase, so no
    event is numbered twice; every event of the run between the snapshot and the
    last number shown is shown; and nothing follows a frame that says the run
    has finished or failed. *)
Theorem stream_ordered `{codec : Codec} `{yaml : Yaml} `{runtime : Runtime} `{io : ChatIO}
    (n : nat) (left : option nat) (owner : string) (r : request) (c c' : cstate) (l : list (frame * Z))
    (Hothers : ∀ n s, steps s (rt_outside.(x_others) n s)) (Hreach : reachable (cdb c))
    (Hserve : serve n left owner r c = (c', Streamed l)) :
  (∀ l1 f l2, l = l1 ++ f :: l2 → final f.1 = true → l2 = []) ∧
  ∃ p a c1, read_request r = Ok p ∧ accept owner p c = (c1, Ok a) ∧
    let start := Z.max p.(pq_Cursor) a.(ac_watermark) in
    let log := thread_events a.(ac_thread) (cdb c') in
    (l `prefix_of` opening a ∨
     ∃ k, l = opening a ++ k ∧
       (∀ q, q ∈ numbers k → start < q ∧ ∃ e, e ∈ log ∧ e.(e_Sequence) = q ∧ e.(e_RunID) = a.(ac_run)) ∧
       StronglySorted Z.lt (numbers k) ∧
       ∀ e q, e ∈ log → e.(e_RunID) = a.(ac_run) → start < e.(e_Sequence) → q ∈ numbers k → e.(e_Sequence) < q →
         e.(e_Sequence) ∈ numbers k).
Proof.
  split; [intros l1 f l2; by eapply well_ended_split, streamed_well_ended|].
  destruct (serve_streamed Hothers _ _ _ _ _ _ _ Hreach Hserve) as (p & a & c1 & P & A & [Hp _ Hw] & Hr1 & Hcur & -> & Hdb).
  rewrite Hdb. rewrite <- Hp in Hcur. exists p, a, c1. split_and!; [done|done|]. cbv zeta.
  destruct (stream_frames Hothers n left a c1 Hr1 Hcur Hw) as [Hpre|(hi & s & Hs & k & Hk & _ & _ & Pk & Sk & Gk)]; [by left|].
  rewrite Hs in Hk. right. exists k. rewrite <- Hp. split_and!; [done| |done|].
  - intros q [Hq (f & -> & Hf)%list_elem_of_fmap]%list_elem_of_filter. rewrite Forall_forall in Pk.
    destruct (Pk f Hf) as [|[? He]]; [done|]. split; [unfold pq in *; lia|done].
  - intros e q He Hr Hlt Hq Hlq. pose proof (shown_range _ _ _ _ _ Pk q Hq). apply Gk; [done..| |].
    + unfold pq in *; lia.
    + right. apply Exists_exists. by exists q.
Qed.

(** ** What the client receives *)

(** The type of the AG-UI event of a frame. *)
Definition frame_type (f : frame) : string :=
  match f with
  | RunStarted _ _ => "RUN_STARTED"
  | StateSnapshot _ => "STATE_SNAPSHOT"
  | TextStart _ => "TEXT_MESSAGE_START"
  | TextContent _ _ => "TEXT_MESSAGE_CONTENT"
  | TextEnd _ => "TEXT_MESSAGE_END"
  | Requested _ | LimitExceeded _ _ | Custom _ _ _ _ _ => "CUSTOM"
  | RunFinished _ _ => "RUN_FINISHED"
  | RunError _ _ _ => "RUN_ERROR"
  end.

Lemma final_type f : terminal_type (frame_type f) = final f.
Proof. by destruct f. Qed.

(** When only the last frame may be final, a final frame is the last. *)
Lemma well_ended_final l : well_ended l → existsb final (fst <$> l) = true ↔ ∃ k f, l = k ++ [f] ∧ final f.1 = true.
Proof.
  intros Hl. split.
  - intros (x & Hx & Hf)%existsb_exists. apply list_elem_of_In, list_elem_of_fmap in Hx as (f & -> & Hx).
    apply list_elem_of_split in Hx as (l1 & l2 & ->). rewrite (well_ended_split _ l1 f l2 Hl eq_refl Hf). by exists l1, f.
  - intros (k & f & -> & Hf). apply existsb_exists. exists f.1. split; [|done]. apply list_elem_of_In, list_elem_of_fmap.
    exists f. split; [done|]. apply elem_of_app. right. by apply list_elem_of_singleton.
Qed.

Lemma emit_nothing json_type received terminal :
  emit_event json_type (mk_reader no_event received terminal) = mk_reader no_event received terminal.
Proof. done. Qed.

(** A refused request has the status of an error. *)
Definition refuses {A} (r : result refusal A) : Prop := match r with Ok _ => True | Err e => 400 <= e.1 < 600 end.
Lemma refuses_bind {A B} (r : result refusal A) (f : A → result refusal B) : refuses r → (∀ a, refuses (f a)) → refuses (r ≫= f).
Proof. destruct r; simpl; auto. Qed.
Lemma refuses_ensure b (e : refusal) : 400 <= e.1 < 600 → refuses (ensure b e).
Proof. by destruct b. Qed.

Lemma read_request_refuses `{io : ChatIO} r : refuses (read_request r).
Proof.
  assert (∀ i, refuses (read_command i)) as Hc.
  { intros i. unfold read_command. destruct (interaction_prop _) as [v|]; [|by destruct (lastUserText _)].
    destruct (decode_interaction v); [|done]. by apply refuses_bind; [apply refuses_ensure|]. }
  assert (refuses (read_input r)) as Hi.
  { unfold read_input. case_bool_decide; [|by case_bool_decide]. destruct (_ <? _); [done|].
    destruct (decode_input _) as [[i []]|]; try done. by apply refuses_bind; [apply refuses_ensure|]. }
  unfold read_request. cbv zeta. destruct (authenticate _) as [identity|]; [|done]. apply refuses_bind; [|intros cursor].
  { unfold read_cursor. cbv zeta. case_bool_decide; [done|]. destruct (ParseInt _) as [k|]; [by destruct (k <? 0)|done]. }
  apply refuses_bind; [done|intros i]. apply refuses_bind; [by apply refuses_ensure|intros _].
  case_bool_decide; [|done]. apply refuses_bind; [done|intros [text reply]]. by destruct (targetJourney _).
Qed.

Lemma serve_refuses `{codec : Codec} `{yaml : Yaml} `{runtime : Runtime} `{io : ChatIO} n left owner r c c' code text :
  serve n left owner r c = (c', Refused (code, text)) → 400 <= code < 600.
Proof.
  assert (∀ e : chat_error, 400 <= (commandError e).1 < 600) as He.
  { intros [e|[| |e]|e|]; unfold commandError, run_status, journal_status; repeat case_match; simpl; lia. }
  pose proof (read_request_refuses r) as Hr. unfold serve. destruct (read_request r) as [p|e].
  - destruct (accept owner p c) as [c1 [a|e]]; [done|]. intros [= _ H]. specialize (He e). by rewrite H in He.
  - intros [= _ ->]. exact Hr.
Qed.

Section delivery.
(** The JSON of the AG-UI library, and the type a decoder finds in it. *)
Context (frame_json : frame → string) (json_type : string → string).
Context (json_typed : ∀ f, json_type (frame_json f) = frame_type f).

Definition on_the_wire (l : list (frame * Z)) : string := write_stream ((λ f, (frame_json f.1, f.2)) <$> l).

Lemma stream_read `{codec : Codec} `{yaml : Yaml} `{runtime : Runtime} `{io : ChatIO}
    (n : nat) (left : option nat) (owner : string) (r : request) (c c' : cstate) (l : list (frame * Z))
    (Hothers : ∀ n s, steps s (rt_outside.(x_others) n s)) (Hreach : reachable (cdb c))
    (Hserve : serve n left owner r c = (c', Streamed l))
    (Hlines : Forall (λ f, wire_ok (frame_json f.1) = true ∧ f.2 < 2 ^ 63) l) :
  let '(events, err) := parseSSE json_type (on_the_wire l) in
  events = ((λ f, mk_SseEvent (frame_type f.1) (frame_json f.1)) <$> l) ∧
  (err = None ↔ ∃ k f, l = k ++ [f] ∧ final f.1 = true).
Proof using json_typed.
  pose proof (streamed_well_ended _ _ _ _ _ _ _ Hothers Hreach Hserve) as Hend. apply well_ended_final in Hend.
  unfold parseSSE, on_the_wire, new_reader. set (w := (λ f, (frame_json f.1, f.2)) <$> l).
  assert (Forall (λ f, wire_ok f.1 = true ∧ f.2 < 2 ^ 63) w) as Hl by (by apply Forall_fmap).
  rewrite raw_lines_written, read_stream by done. rewrite emit_nothing. cbn [app orb rd_received rd_terminal]. split.
  - unfold w. rewrite <- list_fmap_compose. apply list_fmap_ext. intros i f _. simpl. by rewrite json_typed.
  - rewrite <- Hend. assert (existsb (λ f : string * Z, terminal_type (json_type f.1)) w = existsb final (fst <$> l)) as ->.
    { unfold w. clear -json_typed. induction l as [|f l IH]; [done|]. cbn. by rewrite IH, json_typed, final_type. }
    by destruct (existsb final _).
Qed.

(** What a response streams is what its client receives: every frame's event
    once, in order and with its type; and the client takes the stream for
    complete exactly when its last frame said that the run has finished or
    failed. *)
Theorem stream_received `{codec : Codec} `{yaml : Yaml} `{runtime : Runtime} `{io : ChatIO}
    (n : nat) (left : option nat) (owner : string) (r : request) (c c' : cstate) (l : list (frame * Z))
    (Hothers : ∀ n s, steps s (rt_outside.(x_others) n s)) (Hreach : reachable (cdb c))
    (Hserve : serve n left owner r c = (c', Streamed l))
    (Hlines : Forall (λ f, wire_ok (frame_json f.1) = true ∧ f.2 < 2 ^ 63) l) :
  let '(events, err) := parseSSE json_type (on_the_wire l) in
  events = ((λ f, mk_SseEvent (frame_type f.1) (frame_json f.1)) <$> l) ∧
  (err = None ↔ ∃ k f, l = k ++ [f] ∧ final f.1 = true).
Proof using json_typed. by apply (stream_read n left owner r c c'). Qed.
End delivery.
