(* ===== verification/TuiSpec.v ===== *)
(** * What the terminal client guarantees

    Its transcript stays bounded and it never crashes on what it is sent; a
    request whose run has not ended is only ever sent again unchanged; and the
    server reads a request the way it was meant.  At the end a client is played:
    a message is typed, its stream breaks off, the user tries something else and
    then sends it again. *)
From Stdlib Require Import Ascii.
From S2P Require Import Prelude GoText GoTime Compile HttpHeader Sse Tui.
From S2P Require Auth Identity Db Journal Binding CompileSet Harness Runner Chat ChatSpec.

#[local] Open Scope Z_scope.
#[local] Set Default Proof Using "Type".

(** ** The transcript *)

Definition text_bytes (l : list string) : Z := zlen l - 1 + total_bytes l.
Definition transcript_ok (l : list string) : Prop := zlen l <= maxTranscriptLines ∧ text_bytes l <= maxTranscriptBytes.

Lemma skip_continuation_short s : slen (skip_continuation s) <= slen s.
Proof. induction s as [|c s IH]; [done|]. cbn [skip_continuation]. destruct (cont_byte c); [|done]. unfold slen in *. cbn [String.length]. lia. Qed.
Lemma drop_bytes_length n : ∀ s, (n ≤ String.length s)%nat → (String.length (drop_bytes n s) = String.length s - n)%nat.
Proof. induction n as [|n IH]; intros s Hn; destruct s as [|c s]; simpl in *; try lia. apply IH. lia. Qed.
Lemma utf8Suffix_short v limit : 0 <= limit → slen (utf8Suffix v limit) <= limit.
Proof.
  intros Hl. unfold utf8Suffix. destruct (Z.leb_spec (slen v) limit); [done|].
  etransitivity; [apply skip_continuation_short|]. unfold slen in *. rewrite drop_bytes_length; lia.
Qed.

Lemma trim_bytes_ok l : let k := trim_bytes (text_bytes l) l in (length k ≤ length l)%nat ∧ text_bytes k <= maxTranscriptBytes.
Proof.
  cbv zeta. unfold text_bytes, zlen. induction l as [|x l IH]; [done|]. cbn [trim_bytes total_bytes length].
  destruct (Z.ltb_spec maxTranscriptBytes (Z.of_nat (S (length l)) - 1 + (slen x + total_bytes l))) as [Hb|Hb].
  2:{ cbn [length total_bytes]. split; lia. }
  set (b := Z.of_nat (S (length l)) - 1 + (slen x + total_bytes l)) in *. destruct (Z.leb_spec (slen x) (b - maxTranscriptBytes)) as [Hx|Hx].
  - replace (b - (slen x + 1)) with (Z.of_nat (length l) - 1 + total_bytes l) by (unfold b; lia). destruct IH as [H1 H2]. split; [lia|done].
  - pose proof (utf8Suffix_short x (slen x - (b - maxTranscriptBytes)) ltac:(lia)) as Hs. cbn [length total_bytes]. split; [lia|]. unfold b in *. lia.
Qed.

Lemma trimTranscript_ok l : transcript_ok (trimTranscript l).
Proof.
  unfold trimTranscript, transcript_ok. cbv zeta. set (k := if maxTranscriptLines <? zlen l then _ else l).
  assert (zlen k <= maxTranscriptLines) as Hk.
  { unfold k. destruct (Z.ltb_spec maxTranscriptLines (zlen l)) as [H|H]; [|done]. unfold zlen in *. rewrite length_drop.
    unfold maxTranscriptLines in *. lia. }
  destruct (trim_bytes_ok k) as [H1 H2]. fold (text_bytes k). unfold zlen in *. split; [lia|done].
Qed.

(** ** The life of the client *)

Section life.
Context `{json : TuiJson}.

(** What holds of every state: a bounded transcript, and a map to write
    answers to whenever there are questions. *)
Definition tui_ok (m : tui) : Prop := transcript_ok m.(m_transcript) ∧ (is_Some m.(m_pending) → is_Some m.(m_answers)).

Lemma add_ok line m : tui_ok m → tui_ok (add line m).
Proof. intros [_ H]. split; [apply trimTranscript_ok|exact H]. Qed.

Lemma apply_ok e m : tui_ok m → tui_ok (apply e m).
Proof.
  intros [Ht Hp]. unfold apply. match goal with |- context [let (_, _) := ?q in _] => destruct q as [typ data] end. cbv zeta.
  repeat case_match; try (by apply add_ok); by split; simpl; eauto.
Qed.

Lemma start_ok r m : tui_ok m → tui_ok (start r m).1.
Proof. done. Qed.

Lemma submitInteraction_ok newRun p text m : tui_ok m → m.(m_pending) = Some p →
  ∃ m' c, submitInteraction newRun p text m = Some (m', c) ∧ tui_ok m'.
Proof.
  intros [Ht Hp] Hm. destruct (Hp ltac:(by rewrite Hm)) as [answers Ha]. unfold submitInteraction.
  destruct (bool_decide (in_Kind p = _)).
  { cbv zeta. destruct (_ && _); do 2 eexists; (split; [reflexivity|]); by split. }
  destruct (in_Questions p !! m_questionIndex m) as [q|]; rewrite ?Ha; cbn [mbind option_bind];
    destruct (bool_decide (_ < _)%nat); do 2 eexists; (split; [reflexivity|]); by split.
Qed.

Lemma submit_ok newThread newRun m : tui_ok m → ∃ m' c, submit newThread newRun m = Some (m', c) ∧ tui_ok m'.
Proof.
  intros Hok. unfold submit. cbv zeta. set (text := trim_space (m_input m)).
  assert (tui_ok (with_input "" m)) as Hi by exact Hok. destruct Hok as [Ht Hp].
  case_bool_decide; [by do 2 eexists|]. case_bool_decide; [do 2 eexists; (split; [reflexivity|]); split; [done|by intros [? ?]]|].
  case_bool_decide; [repeat case_match; do 2 eexists; (split; [reflexivity|]); exact Hi|].
  case_match; [do 2 eexists; (split; [reflexivity|]); exact Hi|]. case_match; [do 2 eexists; (split; [reflexivity|]); exact Hi|].
  destruct (m_pending (with_input "" m)) as [p|] eqn:Hpend; [by apply submitInteraction_ok|].
  do 2 eexists. split; [reflexivity|]. apply start_ok, add_ok. split; [done|exact Hp].
Qed.

Lemma Update_ok newThread newRun x m : tui_ok m → ∃ m' c, Update newThread newRun x m = Some (m', c) ∧ tui_ok m'.
Proof.
  intros Hok. destruct x as [|e|err|key typed]; cbn [Update].
  - by do 2 eexists.
  - do 2 eexists. split; [reflexivity|]. by apply apply_ok.
  - do 2 eexists. split; [reflexivity|]. cbv zeta. repeat case_match; exact Hok.
  - destruct (bool_decide _); [by do 2 eexists|]. destruct (contains _ _); [by do 2 eexists|].
    destruct (_ && _); [by apply submit_ok|]. do 2 eexists. split; [reflexivity|exact Hok].
Qed.

(** The states a client can be in: started, then after any messages. *)
Inductive tui_reachable : tui → Prop :=
| tui_started baseURL thread run journey : tui_reachable (Init (NewModel baseURL thread run journey)).1
| tui_updated m newThread newRun x m' c : tui_reachable m → Update newThread newRun x m = Some (m', c) → tui_reachable m'.

Lemma reachable_ok m : tui_reachable m → tui_ok m.
Proof.
  induction 1 as [baseURL thread run journey|m nt nr x m' c _ IH Hu].
  - unfold Init. case_match; (split; [by split; vm_compute|by intros [? ?]]).
  - destruct (Update_ok nt nr x m IH) as (m1 & c1 & E & Hok). rewrite E in Hu. by injection Hu as <- <-.
Qed.

(** The client never crashes and its memory is bounded: whatever the server
    sends and the user types, in any order, every message is handled, and the
    transcript never holds more than a thousand lines or 256 KiB. *)
Theorem client_bounded (m : tui) (Hreach : tui_reachable m) :
  zlen m.(m_transcript) <= 1000 ∧ text_bytes m.(m_transcript) <= 2 ^ 18 ∧
  ∀ newThread newRun x, is_Some (Update newThread newRun x m).
Proof.
  pose proof (reachable_ok m Hreach) as [[Hl Hb] Hp]. split_and!; [done|done|]. intros nt nr x.
  destruct (Update_ok nt nr x m) as (m' & c & -> & _); [by split; [split|]|done].
Qed.

(** ** A request is sent until its run ends *)

(** The last request's run has not ended. *)
Definition unfinished (r : Request) (m : tui) : Prop := m.(m_lastRequest) = Some r ∧ m.(m_terminal) = false.
Definition still_open (m : tui) : Prop := is_Some m.(m_lastRequest) ∧ m.(m_terminal) = false.

(** Messages handled while the run stays open, with the commands they give. *)
Inductive waiting : tui → list command → tui → Prop :=
| waiting_done m : waiting m [] m
| waiting_step m newThread newRun x m1 c cs m2 : Update newThread newRun x m = Some (m1, c) → still_open m1 → waiting m1 cs m2 →
    waiting m (option_list c ++ cs) m2.

Lemma add_request line m : (add line m).(m_lastRequest) = m.(m_lastRequest).
Proof. done. Qed.

Lemma apply_request e m : (apply e m).(m_lastRequest) = m.(m_lastRequest).
Proof.
  unfold apply. match goal with |- context [let (_, _) := ?q in _] => destruct q as [typ data] end. cbv zeta.
  repeat case_match; done.
Qed.

Lemma unfinished_step r newThread newRun x m m1 c : unfinished r m → Update newThread newRun x m = Some (m1, c) →
  (m1.(m_lastRequest) = Some r ∨ m1.(m_lastRequest) = None) ∧ ∀ q, c = Some (CStream q) → q = r.
Proof.
  intros [Hr Ht]. destruct x as [|e|err|key typed]; cbn [Update].
  - intros [= <- <-]. by split; [left|].
  - intros [= <- <-]. rewrite apply_request. by split; [left|].
  - intros [= <- <-]. split; [left|done]. cbv zeta. repeat case_match; done.
  - case_bool_decide; [intros [= <- <-]; by split; [left|]|]. case_match; [intros [= <- <-]; by split; [left|]|].
    destruct (_ && _); [|intros [= <- <-]; by split; [left|]]. unfold submit. cbv zeta.
    case_bool_decide; [intros [= <- <-]; by split; [left|]|]. case_bool_decide; [intros [= <- <-]; by split; [right|]|].
    case_bool_decide.
    + cbn [with_input m_lastRequest m_terminal]. rewrite Hr, Ht. intros [= <- <-]. split; [by left|]. by intros q [= <-].
    + cbn [with_input m_lastRequest m_terminal]. rewrite Hr, Ht, bool_decide_eq_true_2 by by eexists. cbn [andb negb]. intros [= <- <-]. by split; [left|].
Qed.

(** A message is never sent twice under two identities: once a request was
    sent and until its run ends or the user starts over, whatever is typed or
    received, the only request the client sends is that one, unchanged, so that
    the server recognises the repetition. *)
Theorem unfinished_resent (r : Request) (m m' : tui) (cs : list command) (Hopen : unfinished r m) (Hwait : waiting m cs m') :
  (∀ q, CStream q ∈ cs → q = r) ∧ unfinished r m'.
Proof.
  induction Hwait as [m|m nt nr x m1 c cs m2 Hu [Hs Ht] _ IH]; [split; [by intros q ?%elem_of_nil|done]|].
  destruct (unfinished_step _ _ _ _ _ _ _ Hopen Hu) as [[Hr|Hr] Hc]; [|rewrite Hr in Hs; by destruct Hs].
  destruct (IH (conj Hr Ht)) as [Hcs Hm]. split; [|done]. intros q [Hq|Hq]%elem_of_app; [|by apply Hcs].
  destruct c as [c|]; [|by apply elem_of_nil in Hq]. apply list_elem_of_singleton in Hq as <-. by apply Hc.
Qed.
End life.

(** ** What the server reads *)

Section server.
Context `{io : Chat.ChatIO} (answer_json : reply_answer → string) (wire_reply : InteractionReply → Chat.prop).

(** A request as the server decodes its body. *)
Definition wire_props (b : chatRequest) : gmap string Chat.prop :=
  (if bool_decide (b.(cr_JourneyID) = "") then ∅ else {["journeyId" := Chat.PString b.(cr_JourneyID)]}) ∪
  match b.(cr_InteractionReply) with Some reply => {["interactionReply" := wire_reply reply]} | None => ∅ end.
Definition wire_input (b : chatRequest) : Chat.RunAgentInput :=
  Chat.mk_RunAgentInput b.(cr_ThreadID) b.(cr_RunID) 0
    ((λ m, Chat.mk_chat_message m.1.2 (Some m.2)) <$> b.(cr_Messages)) (Chat.PObject (wire_props b)).
Definition read_reply (reply : InteractionReply) : Chat.InteractionReply :=
  Chat.mk_InteractionReply reply.(re_InteractionID) reply.(re_Kind) (answer_json reply.(re_Answer)).

(** What a request means: its text, or its reply. *)
Definition meant (identity : Auth.Identity) (r : Request) : Chat.parsed :=
  Chat.mk_parsed identity 0 true r.(rq_ThreadID) r.(rq_RunID)
    (match r.(rq_Reply) with None => r.(rq_Text) | Some _ => "" end) r.(rq_JourneyID)
    (match r.(rq_Reply) with None => Chat.no_reply | Some reply => read_reply reply end).
Definition sendable (r : Request) : Prop :=
  r.(rq_ThreadID) ≠ "" ∧ r.(rq_RunID) ≠ "" ∧
  match r.(rq_Reply) with
  | None => trim_space r.(rq_Text) ≠ ""
  | Some reply => Chat.decode_interaction (wire_reply reply) = Some (read_reply reply) ∧ wire_reply reply ≠ Chat.PNull ∧
                  reply.(re_InteractionID) ≠ "" ∧ reply.(re_Kind) ≠ "" ∧ answer_json reply.(re_Answer) ≠ ""
  end.

Lemma wire_journey b : Chat.targetJourney (Chat.PObject (wire_props b)) = Some b.(cr_JourneyID).
Proof.
  unfold Chat.targetJourney, wire_props. case_bool_decide as E.
  - rewrite E, (left_id_L ∅ (∪)). destruct (cr_InteractionReply b) as [reply|]; [by rewrite lookup_singleton_ne|by rewrite lookup_empty].
  - rewrite lookup_union_l', lookup_singleton_eq; [by rewrite bool_decide_eq_false_2|by rewrite lookup_singleton_eq].
Qed.
Lemma wire_interaction b : (∀ reply, b.(cr_InteractionReply) = Some reply → wire_reply reply ≠ Chat.PNull) →
  Chat.interaction_prop (Chat.PObject (wire_props b)) = wire_reply <$> b.(cr_InteractionReply).
Proof.
  intros Hn. unfold Chat.interaction_prop, wire_props. rewrite lookup_union_r.
  - destruct (cr_InteractionReply b) as [reply|]; [|by rewrite lookup_empty]. rewrite lookup_singleton_eq. specialize (Hn reply eq_refl).
    simpl. by destruct (wire_reply reply).
  - case_bool_decide; [apply lookup_empty|by rewrite lookup_singleton_ne].
Qed.

Lemma command_read r : sendable r → Chat.read_command (wire_input (stream_body r)) =
  Ok (match r.(rq_Reply) with None => r.(rq_Text) | Some _ => "" end,
      match r.(rq_Reply) with None => Chat.no_reply | Some reply => read_reply reply end).
Proof.
  intros (_ & _ & Hr). unfold Chat.read_command. cbn [wire_input Chat.ai_ForwardedProps]. rewrite wire_interaction.
  2:{ intros reply E. cbn in E. rewrite E in Hr. apply Hr. }
  cbn [stream_body cr_InteractionReply]. destruct (rq_Reply r) as [reply|] eqn:E; cbn [fmap option_fmap option_map].
  - destruct Hr as (-> & _ & Hi & Hk & Ha). cbn [read_reply Chat.ir_InteractionID Chat.ir_Kind Chat.ir_Answer].
    rewrite (bool_decide_eq_false_2 (re_InteractionID reply = "")), (bool_decide_eq_false_2 (re_Kind reply = "")),
      (bool_decide_eq_false_2 (answer_json (re_Answer reply) = "")) by done.
    unfold wire_input, stream_body. cbn. rewrite E. done.
  - unfold wire_input, stream_body. cbn. rewrite E. cbn. by rewrite (bool_decide_eq_false_2 (trim_space (rq_Text r) = "")).
Qed.

(** A request of the client is read by the server the way it was meant: the
    thread, run and journey it names, and its message or its reply. *)
Theorem request_read (identity : Auth.Identity) (r : Request) (h : Header) (query : string → string) (body : string)
    (Hauth : Chat.authenticate h = Some identity) (Hfirst : header_get "Last-Event-ID" h = "") (Hsize : slen body <= Chat.maxBody)
    (Hbody : Chat.decode_input body = Some (wire_input (stream_body r), false)) (Hr : sendable r) :
  Chat.read_request (Chat.mk_request "POST" h query body) = Ok (meant identity r).
Proof.
  unfold Chat.read_request. cbn [Chat.rq_Header Chat.rq_Method]. rewrite Hauth. unfold Chat.read_cursor. rewrite Hfirst.
  rewrite (bool_decide_eq_true_2 ("" = "")), (bool_decide_eq_true_2 ("POST" = "POST")) by done. cbn [mbind result_bind].
  unfold Chat.read_input. cbn [Chat.rq_Method Chat.rq_Body]. rewrite (bool_decide_eq_true_2 ("POST" = "POST")) by done.
  destruct (Z.ltb_spec Chat.maxBody (slen body)); [lia|]. rewrite Hbody. cbn [mbind result_bind ensure].
  change (Chat.ai_Tools (wire_input (stream_body r))) with 0%nat.
  assert (∀ (f : Chat.RunAgentInput → result Chat.refusal Chat.parsed), (ensure (bool_decide (0%nat = 0%nat)) (400, "client tools are not supported")
    ≫= λ _ : (), Ok (wire_input (stream_body r))) ≫= f = f (wire_input (stream_body r))) as -> by done. cbv beta.
  change (Chat.ai_ThreadID (wire_input (stream_body r))) with (rq_ThreadID r). change (Chat.ai_RunID (wire_input (stream_body r))) with (rq_RunID r).
  pose proof Hr as (Ht & Hrun & _).
  rewrite (bool_decide_eq_false_2 (rq_ThreadID r = "")), (bool_decide_eq_false_2 (rq_RunID r = "")) by done. cbn [orb negb mbind result_bind ensure].
  rewrite (command_read r Hr). cbn [mbind result_bind wire_input Chat.ai_ForwardedProps]. by rewrite wire_journey.
Qed.
End server.

(** ** From a key press to the journal and back *)

Section round.
Context `{codec : Db.Codec} `{yaml : CompileSet.Yaml} `{runtime : Runner.Runtime} `{io : Chat.ChatIO}.
(** [encoding/json] and [net/url] on both sides, and the text of a status. *)
Context (marshal : chatRequest → option string) (query_of : string → string → string) (status_line : Z → string)
  (frame_json : Chat.frame → string) (json_type : string → string).
Context (json_typed : ∀ f, json_type (frame_json f) = ChatSpec.frame_type f).

(** A request and a response between the client and [ServeHTTP]; a refusal is
    what [http.Error] writes. *)
Definition server_request (q : http_request) : Chat.request :=
  Chat.mk_request q.(hq_Method) q.(hq_Header) (query_of q.(hq_URL)) q.(hq_Body).
Definition written (r : Chat.response) : http_response :=
  match r with
  | Chat.Refused (code, text) => mk_http_response code (status_line code) (text +:+ eol)
  | Chat.Streamed l => mk_http_response 200 (status_line 200) (ChatSpec.on_the_wire frame_json l)
  end.
Definition respond (n : nat) (left : option nat) (owner : string) (q : http_request) (c : Chat.cstate)
    : Chat.cstate * option http_response :=
  let '(c, r) := Chat.serve n left owner (server_request q) c in (c, Some (written r)).

(** What [Stream] sends. *)
Definition sent_request (baseURL token body : string) : http_request :=
  mk_http_request "POST" (endpoint baseURL)
    (header_set "Accept" "text/event-stream" (header_set "Authorization" ("Bearer " +:+ token) (header_set "Content-Type" "application/json" ∅))) body.

Lemma sent_first_event baseURL token body : header_get "Last-Event-ID" (sent_request baseURL token body).(hq_Header) = "".
Proof.
  unfold header_get, header_values, sent_request. cbn [hq_Header]. unfold header_set.
  rewrite !lookup_insert_ne by (vm_compute; discriminate). reflexivity.
Qed.

(** C6 What becomes of a request: it is read as it was meant; when the endpoint
    refuses it, the caller gets the status and its text; when it streams, each
    frame's event, once and in order, and no error exactly when the last frame
    was final. *)
Theorem client_end_to_end (n : nat) (left : option nat) (owner baseURL token body : string) (identity : Auth.Identity)
    (answer_json : reply_answer → string) (wire_reply : InteractionReply → Chat.prop) (r : Request) (c : Chat.cstate)
    (Hothers : ∀ n s, Journal.steps s (Runner.rt_outside.(Harness.x_others) n s)) (Hreach : Journal.reachable (ChatSpec.cdb c))
    (Htoken : token ≠ "") (Hmarshal : marshal (stream_body r) = Some body) (Hsize : slen body <= Chat.maxBody)
    (Hbody : Chat.decode_input body = Some (wire_input wire_reply (stream_body r), false))
    (Hauth : Chat.authenticate (sent_request baseURL token body).(hq_Header) = Some identity)
    (Hr : sendable answer_json wire_reply r) :
  let q := server_request (sent_request baseURL token body) in
  let '(c', (events, err)) := Stream marshal json_type (respond n left owner) baseURL token r c in
  Chat.read_request q = Ok (meant answer_json identity r) ∧ c' = (Chat.serve n left owner q c).1 ∧
  match (Chat.serve n left owner q c).2 with
  | Chat.Refused (code, text) =>
      events = [] ∧ err = Some (BadStatus ("chat request failed: " +:+ status_line code +:+ ": " +:+ trim_space (String.substring 0 4096 (text +:+ eol))))
  | Chat.Streamed l =>
      Forall (λ f, wire_ok (frame_json f.1) = true ∧ f.2 < 2 ^ 63) l →
      events = ((λ f, mk_SseEvent (ChatSpec.frame_type f.1) (frame_json f.1)) <$> l) ∧
      (err = None ↔ ∃ k f, l = k ++ [f] ∧ ChatSpec.final f.1 = true)
  end.
Proof using yaml json_typed.
  cbv zeta. assert (Stream marshal json_type (respond n left owner) baseURL token r c =
    let '(c', resp) := Chat.serve n left owner (server_request (sent_request baseURL token body)) c in
    (c', let h := written resp in
         if negb (success h) then ([], Some (BadStatus ("chat request failed: " +:+ h.(hs_Status) +:+ ": " +:+ trim_space (String.substring 0 4096 h.(hs_Body)))))
         else let '(events, err) := parseSSE json_type h.(hs_Body) in (events, BadStream <$> err))) as ->.
  { unfold Stream. rewrite Hmarshal. unfold do. cbn [hq_Header hq_Method hq_URL hq_Body]. rewrite bool_decide_eq_false_2 by done.
    unfold respond. fold (sent_request baseURL token body). destruct (Chat.serve _ _ _ _ _) as [c' resp]. cbv zeta.
    destruct (negb _); [done|]. by destruct (parseSSE json_type _). }
  destruct (Chat.serve n left owner _ c) as [c' resp] eqn:E. cbv zeta. cbn [fst snd].
  assert (Chat.read_request (server_request (sent_request baseURL token body)) = Ok (meant answer_json identity r)) as Hread.
  { by apply (request_read answer_json wire_reply); [|apply sent_first_event|..]. }
  destruct resp as [[code text]|l]; cbn [written hs_StatusCode hs_Status hs_Body].
  - pose proof (ChatSpec.serve_refuses _ _ _ _ _ _ _ _ E) as Hc. unfold success. cbn [hs_StatusCode].
    destruct (Z.ltb_spec code 300); [lia|]. rewrite andb_false_r. by split_and!.
  - change (success _) with true. cbn [negb].
    pose proof (ChatSpec.stream_read frame_json json_type json_typed _ _ _ _ _ _ _ Hothers Hreach E) as H.
    destruct (parseSSE json_type _) as [events err]. split_and!; [done..|]. intros Hl. destruct (H Hl) as [-> <-]. split; [done|].
    by destruct err.
Qed.
End round.

(** ** Starting *)

(** The program starts only on a terminal, with a token and with a server that
    answered its readiness probe with a success; and its options are those of
    the command line. *)
Theorem started_when_ready (url_parse : string → option base_url) (url_string : base_url → string) (args : list string)
    (lookup : string → string) (terminal : bool) (get : string → option Z) (o : options) (token : string) :
  runContext url_parse url_string args lookup terminal get = Started o token ↔
  wantsHelp args = false ∧ terminal = true ∧ parseFlags args (Some lookup) = Ok o ∧
  token = trim_space (lookup "KEYCLOAK_ACCESS_TOKEN") ∧ token ≠ "" ∧
  ∃ url status, readinessEndpoint url_parse url_string o.(op_baseURL) = Some url ∧ get url = Some status ∧ 200 <= status < 300.
Proof.
  unfold runContext, checkReadiness. cbv zeta. split.
  - destruct (wantsHelp args); [done|]. destruct (parseFlags _ _) as [o'|]; [|done]. destruct terminal; [|done]. simpl.
    case_bool_decide as Ht; [done|]. destruct (readinessEndpoint _ _ _) as [url|] eqn:Eu; [|done].
    destruct (get url) as [status|] eqn:Es; [|done]. destruct (_ || _) eqn:E; [done|]. intros [= <- <-].
    apply orb_false_iff in E as [E1%Z.ltb_ge E2%Z.leb_gt]. split_and!; try done. by exists url, status.
  - intros (-> & -> & -> & -> & Ht & url & status & -> & -> & [H1 H2]). simpl. rewrite bool_decide_eq_false_2 by done.
    by rewrite (proj2 (Z.ltb_ge _ _) H1), (proj2 (Z.leb_gt _ _) H2).
Qed.

(** ** A client, played *)

#[local] Instance demo_json : TuiJson := {|
  decode_custom := λ _, None; decode_payload := λ data, mk_payload data "" "" "" None ""; decode_pending := λ _, None |}.

(** Messages one after another, with the identifiers that are drawn. *)
Fixpoint play (l : list msg) (m : tui) : option (tui * list command) :=
  match l with
  | [] => Some (m, [])
  | x :: l => '(m, c) ← Update "t1" "r1" x m; '(m, cs) ← play l m; Some (m, option_list c ++ cs)
  end.

Definition started : tui := (Init (NewModel "http://localhost:8080" "" "" "")).1.
Definition typed (text : string) : list msg := [Key "x" text; Key "enter" ""].
Definition first_message : list msg := typed "Hello".
Definition demo_sent : Request := mk_Request "t1" "r1" "" "Hello" None.
Definition sent_state : tui := Eval vm_compute in (default (started, []) (play first_message started)).1.
Example demo_sends_message : play first_message started = Some (sent_state, [CStream demo_sent]).
Proof. vm_compute. reflexivity. Qed.

(** The stream breaks off; another message is refused; [/retry] sends again. *)
Definition broken : list msg :=
  [StreamEvent (mk_SseEvent "TEXT_MESSAGE_CONTENT" "Hi"); StreamDone (Some "EOF")] ++ typed "Are you there?" ++ typed "/retry".
Definition retried : tui * list command := Eval vm_compute in default (started, []) (play broken sent_state).
Example demo_retries : retried.2 = [CWait; CStream demo_sent] ∧ retried.1.(m_transcript) = ["you: Hello"; "assistant: Hi"].
Proof. split; reflexivity. Qed.

Fixpoint opens (l : list msg) (m : tui) : bool :=
  match l with
  | [] => true
  | x :: l => match Update "t1" "r1" x m with
              | Some (m, _) => bool_decide (is_Some m.(m_lastRequest)) && negb m.(m_terminal) && opens l m
              | None => false
              end
  end.
Lemma play_waiting l : ∀ m m' cs, opens l m = true → play l m = Some (m', cs) → waiting m cs m'.
Proof.
  induction l as [|x l IH]; intros m m' cs Ho Hp; cbn [opens play] in *; [injection Hp as <- <-; constructor|].
  destruct (Update "t1" "r1" x m) as [[m1 c]|] eqn:E; [|done]. cbn [mbind option_bind] in Hp.
  destruct (play l m1) as [[m2 cs']|] eqn:P; [|done]. injection Hp as <- <-. gosimpl. econstructor; [done|by split|by apply IH].
Qed.

Lemma unfinished_resent_witness : retried.2 = [CWait; CStream demo_sent] ∧ ∀ q, CStream q ∈ retried.2 → q = demo_sent.
Proof.
  assert (waiting sent_state retried.2 retried.1) as Hw by (apply (play_waiting broken); vm_compute; reflexivity).
  split; [reflexivity|]. apply (unfinished_resent demo_sent sent_state retried.1 retried.2); [split; reflexivity|exact Hw].
Defined.

Lemma client_bounded_witness : zlen started.(m_transcript) <= 1000.
Proof. apply (client_bounded started). apply tui_started. Defined.

(** The server of [Chat.v], for this one request. *)
Definition demo_reply_json (a : reply_answer) : string := "{}".
Definition demo_wire (reply : InteractionReply) : Chat.prop := Chat.POther.
Definition alice : Auth.Identity := Auth.mk_Identity "acme" "alice".
#[local] Instance demo_io : Chat.ChatIO := {|
  Chat.authenticate := λ _, Some alice; Chat.decode_input := λ _, Some (wire_input demo_wire (stream_body demo_sent), false);
  Chat.decode_interaction := λ _, None; Chat.ids_fault := λ _, false; Chat.ids_others := λ _ s, s;
  Chat.ids_drawn := λ _, Identity.mk_drawn "t" "r" "c"; Chat.failure_seen := true |}.
Lemma request_read_witness : Chat.read_request (Chat.mk_request "POST" ∅ (λ _, "") "{...}") =
  Ok (Chat.mk_parsed alice 0 true "t1" "r1" "Hello" "" Chat.no_reply).
Proof.
  assert (header_get "Last-Event-ID" ∅ = "") as Hfirst by (vm_compute; reflexivity).
  rewrite (request_read (io := demo_io) demo_reply_json demo_wire alice demo_sent ∅ (λ _, "") "{...}" eq_refl Hfirst);
    [reflexivity|vm_compute; discriminate|reflexivity|].
  split; [discriminate|]. split; [discriminate|]. vm_compute. discriminate.
Defined.
