(* ===== verification/Demo.v ===== *)
(** * Examples around the journal

    The theorems about catalogs, settings, tenants and guarded calls, applied
    to a small deployment: two journeys, two advertised tools, one tenant. *)
From S2P Require Import Prelude GoText Db CallBinding Interactions JournalCore Commands Owners Runs.
From S2P Require Import Operations Records Lifecycle Journal Service Scenario.
From S2P Require Import Selectors Journey Resolve ResolveSpec Binding Settings TenantDir Guard.

(** ** A catalog *)

Definition demo_selector : Selector := {| Ops := ["invoices.pay"]; Tags := []; Alias := "pay";
  ReadOnlyHint := false; SelClass := ClassEffectful; ApprovalRequired := true |}.
Definition demo_tags : Selector := {| Ops := []; Tags := ["billing"]; Alias := ""; ReadOnlyHint := true;
  SelClass := ""; ApprovalRequired := false |}.
Definition demo_journey (id : string) (tools : list Selector) : Journey := {|
  j_ID := id; j_Description := ""; j_Prompt := ""; j_Skills := []; j_Digest := ""; j_Tools := tools;
  j_Deny := []; j_MaxTools := 0; j_ProductVersions := {| Min := "1.0"; MaxExclusive := "2.0" |};
  j_Catalog := {| OperationMetaKey := "op"; CallIDHeader := "" |}; j_Skill := "" |}.
Definition billing : Journey := demo_journey "billing" [demo_selector; demo_tags].
Definition overview : Journey := demo_journey "overview" [demo_tags].

Definition pay_tool : Descriptor :=
  mk_Descriptor "PayInvoice" "" "{}" {["op" := AString "invoices.pay"]} false "1".
Definition list_tool : Descriptor := mk_Descriptor "ListInvoices" "" "{}"
  {["op" := AString "invoices.list"; "tags" := AList [AString "billing"]]} true "2".
Definition demo_snapshot (tools : list Descriptor) : Snapshot := mk_Snapshot "d" "1.2" "main" "7" tools.

Example demo_resolution : (λ t, (t.(t_Alias), t.(t_RemoteName), t.(t_RequiresApproval))) <$>
  (Resolve billing (demo_snapshot [list_tool; pay_tool]) "op").(r_Tools) =
  [("invoices_list", "ListInvoices", true); ("pay", "PayInvoice", true)].
Proof. vm_compute. reflexivity. Qed.

Lemma Resolve_sound_witness :
  Available (Resolve billing (demo_snapshot [list_tool; pay_tool]) "op") = true ∧
  NoDup (t_OperationKey <$> (Resolve billing (demo_snapshot [list_tool; pay_tool]) "op").(r_Tools)).
Proof.
  assert (Available (Resolve billing (demo_snapshot [list_tool; pay_tool]) "op") = true) as Ha by (vm_compute; reflexivity).
  split; [exact Ha|]. exact (proj1 (proj2 (proj2 (Resolve_sound billing _ "op" Ha)))).
Defined.

Lemma Resolve_order_witness :
  (Resolve billing (demo_snapshot [list_tool; pay_tool]) "op").(r_Tools) =
  (Resolve billing (demo_snapshot [pay_tool; list_tool]) "op").(r_Tools).
Proof.
  apply (Resolve_order billing (demo_snapshot [list_tool; pay_tool]) (demo_snapshot [pay_tool; list_tool]) "op");
    [reflexivity|]. apply Permutation_swap.
Defined.

(** Reasons may come in another order: two tools of one key whose aliases both
    collide are reported in the order in which the server lists them. *)
Definition clash_journey : Journey := demo_journey "clash"
  [{| Ops := ["k"]; Tags := []; Alias := "a"; ReadOnlyHint := true; SelClass := ""; ApprovalRequired := false |};
   {| Ops := ["b"]; Tags := []; Alias := "k"; ReadOnlyHint := false; SelClass := ""; ApprovalRequired := false |};
   {| Ops := []; Tags := ["t"]; Alias := ""; ReadOnlyHint := false; SelClass := ""; ApprovalRequired := false |}].
Definition clash_tool (key : string) (hint : bool) : Descriptor :=
  mk_Descriptor "r" "" "{}" {["op" := AString key; "tags" := AList [AString "t"]]} hint "".
Example reasons_follow_listing :
  (Resolve clash_journey (demo_snapshot [clash_tool "a" false; clash_tool "b" false; clash_tool "k" true; clash_tool "k" false]) "op").(r_Unavailable)
    = [mk_Unavailable ReasonAmbiguous "k"; mk_Unavailable ReasonCollision "a"; mk_Unavailable ReasonCollision "k"] ∧
  (Resolve clash_journey (demo_snapshot [clash_tool "a" false; clash_tool "b" false; clash_tool "k" false; clash_tool "k" true]) "op").(r_Unavailable)
    = [mk_Unavailable ReasonAmbiguous "k"; mk_Unavailable ReasonCollision "k"; mk_Unavailable ReasonCollision "a"].
Proof. split; vm_compute; reflexivity. Qed.

Definition demo_resolutions : list Resolution :=
  [Resolve billing (demo_snapshot [list_tool; pay_tool]) "op"; Resolve overview (demo_snapshot [list_tool]) "op"].

Lemma CheckPolicies_spec_witness : named demo_resolutions ∧
  CheckPolicies (CheckPolicies demo_resolutions) = CheckPolicies demo_resolutions.
Proof.
  assert (named demo_resolutions) as Hn.
  { intros r t Hr Ht. apply elem_of_cons in Hr as [->|Hr%list_elem_of_singleton]; [|subst r];
      eapply Resolve_named; (apply list_elem_of_singleton; reflexivity) || exact Ht. }
  split; [exact Hn|]. apply (CheckPolicies_spec demo_resolutions Hn).
Defined.

(** ** An opened binding *)

Definition demo_set : DefSet := {|
  set_catalog := {| OperationMetaKey := "op"; CallIDHeader := "" |}; set_conversationPrompt := ""; set_digest := demo_digest;
  set_order := ["billing"; "overview"]; set_journeys := {["billing" := billing; "overview" := overview]};
  set_canonical := ∅; set_skillBytes := 0; set_skillFiles := 0; set_bundle := ∅ |}.
Definition demo_array (raw : string) : option (list string) := if bool_decide (raw = "[1,2]") then Some ["1"; "2"] else None.
Definition demo_raw (raw : string) : option rawDescriptor :=
  if bool_decide (raw = "1") then Some (mk_rawDescriptor "PayInvoice" "" "{}" {["op" := AString "invoices.pay"]} None)
  else Some (mk_rawDescriptor "ListInvoices" "" "{}"
    {["op" := AString "invoices.list"; "tags" := AList [AString "billing"]]} (Some (ABool true))).
Definition demo_scope : Scope := mk_Scope "1.2" "main".

(** The codec of the scenario with digests of 32 bytes, as the catalog tables
    require. *)
Definition padded_codec : Codec := {|
  jsonb := jsonb; json_valid := json_valid; decode_reply := decode_reply; unmarshal_reply := unmarshal_reply;
  canonical_object := canonical_object; canonical_value := canonical_value; close_history := close_history;
  settings_ttl := settings_ttl; sha256 := λ s, String.substring 0 32 (s +:+ "................................");
|}.

Definition demo_open (s : db) : (list Z * db) * result binding_error Binding :=
  @open padded_codec demo_array demo_raw _ at_times demo_owner demo_scope demo_set 0 "mcp" "7"
    (lift_result (Ok "[1,2]")) ([2; 3; 4], s).
Definition db_opened : db := Eval vm_compute in (demo_open db_claimed).1.2.
Definition demo_bound : Binding := Eval vm_compute in
  match (demo_open db_claimed).2 with Ok b => b | Err _ => mk_Binding [] ∅ "" "" "" "" end.
Lemma demo_opens : demo_open db_claimed = (([], db_opened), Ok demo_bound).
Proof. vm_compute. reflexivity. Qed.
(** Opening again reuses the pin: the session's listing is not asked for. *)
Example demo_reopens : (@open padded_codec demo_array demo_raw _ at_times demo_owner demo_scope demo_set 0 "mcp" "7" (lift_result (Err EEncode)) ([5; 6; 7], db_opened)).2
  = Ok demo_bound.
Proof. vm_compute. reflexivity. Qed.

Lemma open_binds_tools_witness :
  t_Alias <$> Binding_Tools demo_bound ["overview"; "billing"] = ["invoices_list"; "pay"] ∧
  NoDup (t_Alias <$> Binding_Tools demo_bound ["overview"; "billing"]).
Proof.
  split; [vm_compute; reflexivity|].
  exact (proj1 (@open_binds_tools padded_codec demo_array demo_raw _ at_times demo_owner demo_scope demo_set 0 "mcp" "7"
    (lift_result (Ok "[1,2]")) ([2; 3; 4], db_claimed) ([], db_opened) demo_bound ["overview"; "billing"] demo_opens)).
Defined.

Lemma open_pins_witness : pinned demo_owner demo_bound.(b_digest) db_opened.
Proof.
  exact (proj1 (@open_pins padded_codec demo_array demo_raw 2 3 4 demo_owner demo_scope demo_set 0 "mcp" "7" (Ok "[1,2]")
    db_claimed db_opened [] demo_bound demo_opens)).
Defined.

(** ** Settings *)

Definition demo_document : Document := mk_Document (mk_Layer (Some 3) None None)
  {["acme" := mk_Layer None (Some (Some "gold")) None]} {["acme" := {["alice" := mk_Layer (Some 1) None None]}]}.
Definition demo_settings (p : string) : option Settings :=
  match (c ← CompileSettings demo_document; ResolveSettings c (mk_SettingsScope "acme" p)) with Ok s => Some s | Err _ => None end.
Example demo_alice : (λ s, (s.(s_MaxActiveJourneys), s.(s_Profile))) <$> demo_settings "alice" = Some (1, "gold").
Proof. vm_compute. reflexivity. Qed.

Definition demo_compiled : Compiled :=
  mk_Compiled demo_document.(doc_Default) demo_document.(doc_Tenants) demo_document.(doc_Users).
Definition alice_settings : Settings := Eval vm_compute in
  match ResolveSettings demo_compiled (mk_SettingsScope "acme" "alice") with Ok s => s | Err _ => mk_Settings 0 "" 0 "" end.
Definition bob_settings : Settings := Eval vm_compute in
  match ResolveSettings demo_compiled (mk_SettingsScope "acme" "bob") with Ok s => s | Err _ => mk_Settings 0 "" 0 "" end.

(** Alice's narrower limit shows in her digest. *)
Lemma settings_digest_identifies_witness : alice_settings.(s_Digest) ≠ bob_settings.(s_Digest).
Proof.
  intros E. assert (alice_settings = bob_settings) as H; [|discriminate H].
  apply (settings_digest_identifies demo_compiled demo_compiled (mk_SettingsScope "acme" "alice")
    (mk_SettingsScope "acme" "bob")); [vm_compute; reflexivity..|intros Hx; exact Hx|exact E].
Defined.

(** ** Tenants *)

Definition demo_parse (raw : string) : option URL :=
  if bool_decide (raw = "https://mcp.example/v1") then Some (mk_URL true "https" "mcp.example" false "" "" raw) else None.
Definition demo_spec : string := " main = https://mcp.example/v1 ".
Definition demo_directory (tenant : string) : result dir_error Entry :=
  ResolveStaticDir false {["acme" := mk_Entry "1.2" "main"]} tenant.

Lemma Lookup_only_allowlisted_witness :
  Lookup false (Some demo_directory) {["main" := "https://mcp.example/v1"]} "acme" =
    Ok (mk_Entry "1.2" "main", mk_Endpoint "main" "https://mcp.example/v1") ∧
  ∃ raw, has_item demo_spec "main" raw.
Proof.
  assert (ParseAllowlist demo_parse demo_spec = Ok {["main" := "https://mcp.example/v1"]}) as Hp by (vm_compute; reflexivity).
  assert (Lookup false (Some demo_directory) {["main" := "https://mcp.example/v1"]} "acme" =
    Ok (mk_Entry "1.2" "main", mk_Endpoint "main" "https://mcp.example/v1")) as Hl by (vm_compute; reflexivity).
  split; [exact Hl|].
  destruct (proj1 (proj2 (Lookup_only_allowlisted demo_parse demo_spec _ false (Some demo_directory) "acme" Hp)) _ _ Hl)
    as (_ & raw & Hr & _). exists raw. exact Hr.
Defined.

Definition demo_allowlist : gmap string string := {["main" := "https://mcp.example/v1"]}.
Lemma demo_allowlist_ok id u : demo_allowlist !! id = Some u → id = "main" ∧ u = "https://mcp.example/v1".
Proof. unfold demo_allowlist. intros Hu. apply lookup_singleton_Some in Hu as [<- <-]. done. Qed.
Lemma ParseAllowlist_print_witness : ParseAllowlist demo_parse (print_allowlist demo_allowlist) = Ok demo_allowlist.
Proof.
  apply ParseAllowlist_print.
  intros id u Hu. apply demo_allowlist_ok in Hu as [-> ->]. unfold printable. split_and!; [vm_compute; reflexivity..|]. unfold good_url.
  exists (mk_URL true "https" "mcp.example" false "" "" "https://mcp.example/v1").
  split_and!; try (vm_compute; reflexivity); [right; left|discriminate].
Defined.

(** ** A guarded call *)

Definition demo_replying : list (Z * op) :=
  [(6, OpAdmit demo_reply); (7, OpClaim demo_reply "w2" 15000000000);
   (8, OpRecordRunScope demo_owner2 "1.2" "https://api" "{}"); (9, OpStart demo_owner2 "billing" demo_digest)].
Definition db_resumed : db := Eval vm_compute in run_ops demo_replying db_waiting.
Definition demo_world : world := mk_world (λ n, mk_moment (10 + 2 * n) (λ s, s) NoFault) (λ n, mk_moment (11 + 2 * n) (λ s, s) NoFault) (λ _, false) (λ _, Ok "paid").

Lemma guardedCall_journaled_witness :
  ∃ s' log, guardedCall demo_world demo_owner2 demo_operation "i1" db_resumed = (s', log, Ok (GResult "paid")) ∧
    op_is demo_operation OCompleted s' ∧ length log = 1%nat.
Proof.
  destruct (guardedCall demo_world demo_owner2 demo_operation "i1" db_resumed) as [[s' log] r] eqn:E.
  pose proof (guardedCall_journaled _ _ _ _ _ _ _ _ E) as (_ & _ & _ & _ & Hs).
  vm_compute in E. injection E as E1 E2 E3. subst r. exists s', log. split; [reflexivity|].
  destruct (Hs eq_refl) as (s1 & n & reply & Hl & Hv & Ho & _). subst log. split; [|reflexivity].
  injection Hl as _ _ <-. exact Ho.
Defined.
