(* ===== verification/HarnessDemo.v ===== *)
(** * The conversation loop, played

    One run of the loop on concrete values: the model activates a journey,
    calls its tool and answers.  The theorems about the loop are applied to it.
    Then the loop with a LiteLLM adapter for its model, whose SDK posts the last
    input item and answers what the server returned. *)
From S2P Require Import Prelude GoText Db CallBinding Interactions JournalCore Commands Owners Runs.
From S2P Require Import Operations Records Lifecycle Keeps Journal Service Scenario.
From S2P Require Import Selectors Journey History Resolve Binding Guard Dispatch Harness HarnessSpec HarnessHistory HarnessGate Demo.
From S2P Require Import HttpHeader Cost Provider ProviderSpec.
From S2P Require Litellm.

Definition list_selector : Selector := {| Ops := ["invoices.list"]; Tags := []; Alias := "list";
  ReadOnlyHint := true; SelClass := ClassReadOnly; ApprovalRequired := false |}.
Definition reader : Journey.Journey := demo_journey "reader" [list_selector].
Definition reader_resolution : Resolution := Eval vm_compute in Resolve reader (demo_snapshot [list_tool]) "op".
Definition reader_catalog : Binding :=
  mk_Binding [reader_resolution] (list_to_map ((λ t, (t.(t_Alias), t)) <$> reader_resolution.(r_Tools))) "" "" "" "".
Definition reader_set : DefSet := {|
  set_catalog := {| OperationMetaKey := "op"; CallIDHeader := "" |}; set_conversationPrompt := "Be brief."; set_digest := demo_digest;
  set_order := ["reader"]; set_journeys := {["reader" := reader]};
  set_canonical := ∅; set_skillBytes := 0; set_skillFiles := 0; set_bundle := ∅ |}.

Definition db_started : db := Eval vm_compute in
  run_ops [(2, OpRecordRunScope demo_owner "1.2" "https://api" "{}"); (3, OpStart demo_owner "" demo_digest)] db_claimed.

Definition demo_framework : framework := {|
  fw_unmarshal := λ _, ([], true); fw_marshal := λ l, Some "[]"; fw_collect := λ cs, [mk_Message "assistant" cs ""];
  fw_text := λ m, m.(m_rest); fw_string := λ l, "Two invoices."; fw_activate := λ s, Some s; fw_resource := λ _, None;
  fw_questions := λ _, None; fw_checkpoint := λ _, None; fw_question_schema := "{}" |}.

(** The model goes by the number of results it has seen. *)
Definition demo_model (r : ModelRequest) : ModelResponse :=
  let usage := mk_Tokens "m" 1 1 0 in
  match length r.(mr_ToolResults) with
  | 0%nat => mk_ModelResponse "" [mk_ToolCall "p1" "activate_journey" "reader"] None usage
  | 1%nat => mk_ModelResponse "" [mk_ToolCall "p2" "list" "{}"; mk_ToolCall "p3" "pay" "{}"] None usage
  | _ => mk_ModelResponse "Two invoices." [] None usage
  end.
Definition demo_outside : outside := {|
  x_now := λ n, 10 + Z.of_nat n; x_others := λ _ s, s; x_random := λ _, "R"; x_cancelled := λ _, false;
  x_dispatches := λ _ _, true; x_complete := λ _ r _, Ok (demo_model r); x_remote := λ _ _ _ _, RCompleted "[1, 2]";
  x_expired := λ _ _, false; x_fault := λ _, NoFault |}.
Definition demo_input : RunInput := mk_RunInput demo_owner 0 "[]" "t1" "r1" "alice" "" "1.2" "".
#[export] Instance demo_conversation : Conversation :=
  mk_Conversation demo_framework demo_outside demo_input reader_set reader_catalog [reader] 2 0.

Definition demo_run : hstate * outcome := Eval vm_compute in runHarness [] 0 db_started.
Lemma demo_runs : runHarness [] 0 db_started = demo_run.
Proof. vm_compute. reflexivity. Qed.

Example demo_run_answers : demo_run.2 = (mk_RunOutput false "[]" "" "Two invoices.", None).
Proof. reflexivity. Qed.
Definition call_of (name arguments : string) : FunctionCall := mk_FunctionCall name arguments false.
Example demo_run_history : demo_run.1.(hs_history) ≫= m_Contents =
  [TextContent "pay the invoice";
   FunctionCallContent "p1" (call_of "activate_journey" "reader"); FunctionResultContent "p1" (VActivated "reader" []);
   FunctionCallContent "p2" (call_of "list" "{}"); FunctionCallContent "p3" (call_of "pay" "{}");
   FunctionResultContent "p2" (VAnswer "[1, 2]"); FunctionResultContent "p3" (VError "tool_not_active" "");
   TextContent "Two invoices."].
Proof. reflexivity. Qed.

Lemma runHarness_steps_witness : steps db_started demo_run.1.(hs_db).
Proof. rewrite <- demo_runs. apply runHarness_steps. intros n s. reflexivity. Defined.

Lemma runHarness_active_set_witness : journaled_active "t1" demo_run.1.(hs_db) = Some ["reader"] ∧ demo_run.1.(hs_active) = ["reader"].
Proof.
  assert (run_ops [(2, OpRecordRunScope demo_owner "1.2" "https://api" "{}"); (3, OpStart demo_owner "" demo_digest)] db_claimed = db_started)
    as Hrun by (vm_compute; reflexivity).
  assert (reachable db_started) as Hr by (apply (reachable_steps db_claimed); [exact reachable_claimed|rewrite <- Hrun; apply run_ops_steps]).
  assert (held demo_owner db_started) as Hh by (eexists; split_and!; reflexivity).
  pose proof (runHarness_active_set (λ n s, rtc_refl _ s) [] 0 db_started Hr Hh eq_refl) as H. rewrite demo_runs in H.
  destruct (H eq_refl) as [H1 H2]. split; [exact H1|exact (H2 eq_refl)].
Defined.

Lemma runHarness_closes_calls_witness : ¬ unanswered "p3" (demo_run.1.(hs_history) ≫= m_Contents).
Proof.
  assert (enters 0 db_started) as He by (vm_compute; reflexivity).
  pose proof (runHarness_closes_calls (λ cs, app_nil_r cs) [] 0 db_started He eq_refl) as H. rewrite demo_runs in H.
  destruct H as [_ H]. exact (H "p3").
Defined.

Definition demo_dispatched : option (Operation * list string * sent) :=
  head (omap (M := list) (λ e, match e with EvDispatch op _ a c => Some (op, a, c) | _ => None end) demo_run.1.(hs_log)).
Lemma runHarness_gated_witness : ∃ op a c, demo_dispatched = Some (op, a, c) ∧ allowed op "" a.
Proof.
  destruct demo_dispatched as [[[op a] c]|] eqn:E; [|vm_compute in E; discriminate E].
  exists op, a, c. split; [reflexivity|]. apply (runHarness_gated [] 0 db_started op "" a c).
  vm_compute in E. injection E as <- <- <-. unfold log_of. rewrite demo_runs.
  apply list_elem_of_lookup. exists 2%nat. vm_compute. reflexivity.
Defined.

(** ** A provider request *)

#[local] Instance demo_decoders : Decoders := {| json_map := λ _, None; parse_float := λ _, None; parse_time := λ _, None |}.
#[local] Instance demo_wire : Wire := {|
  value_string := λ v, match v with VAnswer a => Some a | _ => None end; value_json := λ _, Some "{}";
  schema_json := Some; json_object := λ s, Some (Some s); offered := λ t, mk_ModelTool (tool_name t) "" "{}" |}.

Definition item_text (i : input_item) : string :=
  match i with ItemMessage _ t => t | ItemFunctionCall _ name _ => name | ItemFunctionCallOutput _ output => output end.
Definition demo_sdk (c : Litellm.Config) (p : Litellm.params) : sdk store_error (result sdk_error (option Litellm.response)) :=
  Send (mk_http_request {["Authorization" := ["Bearer " +:+ c.(Litellm.c_APIKey)]]} (default "" (item_text <$> last p.(Litellm.pa_Input))))
    (λ r, match r with
          | Ok response =>
              if response.(hp_Status) =? 200
              then Return (Ok (Some (Litellm.mk_response "completed" "Hello." p.(Litellm.pa_Model) 3 1 0 [])))
              else Return (Err (mk_sdk_error false (Some (mk_api_error response.(hp_Status) "" (Some response)))))
          | Err _ => Return (Err (mk_sdk_error false None))
          end).
Definition demo_base (status : Z) (sent : list http_request) (q : http_request) : option http_response :=
  Some (mk_http_response status ∅ None).

Definition demo_config : Litellm.Config := Litellm.mk_Config "https://litellm" "k" "gpt".
Definition demo_access : option (gmap string string) := Some {["X-Agent-Tenant" := "acme"]}.
Definition demo_adapter (status : Z) : adapter :=
  litellm_adapter demo_sdk (λ _, demo_base status) (λ _, 0) (λ _, false) (Some demo_config) demo_access.

Definition demo_request : ModelRequest :=
  mk_ModelRequest "[]" [] "Be brief." [] [mk_Message "user" [TextContent "Hi"] ""] [QuestionTool] [] "" []
    (mk_RequestProvenance (mk_Provenance "" "") (mk_Provenance "" "") (mk_Provenance "" "") (mk_Provenance "" "") [] [] [] []).

(** What it sends, and what a refusal becomes. *)
Example demo_sends :
  Litellm.Complete demo_sdk (demo_base 200) 0 (Some demo_config) false demo_request (Some (λ n : nat, (S n, Ok tt))) demo_access 0%nat =
  ((1%nat, [mk_http_request (<["X-Agent-Tenant" := ["acme"]]> {["Authorization" := ["Bearer k"]]}) "Hi"]),
   Ok (mk_ModelResponse "Hello." [] None (mk_Tokens "gpt" 3 1 0))).
Proof. vm_compute. reflexivity. Qed.
Example demo_refused_commit :
  Litellm.Complete demo_sdk (demo_base 200) 0 (Some demo_config) false demo_request (Some (λ n : nat, (S n, Err (SJournal ErrOwnership)))) demo_access 0%nat =
  ((1%nat, []), Err (AObserved (SJournal ErrOwnership))).
Proof. vm_compute. reflexivity. Qed.
Example demo_rate_limited :
  (Litellm.Complete (E := store_error) demo_sdk (demo_base 429) 0 (Some demo_config) false demo_request (Some (λ n : nat, (S n, Ok tt))) demo_access 0%nat).2 =
  Err (ALimit (mk_LimitError LimitRate 0)).
Proof. vm_compute. reflexivity. Qed.

(** The loop of [HarnessDemo.v] with this model. *)
Definition adapter_conversation : Conversation :=
  mk_Conversation demo_framework
    {| x_now := demo_outside.(x_now); x_others := λ _ s, s; x_random := λ _, "R"; x_cancelled := λ _, false;
       x_dispatches := adapter_dispatches (demo_adapter 200); x_complete := adapter_complete (demo_adapter 200);
       x_remote := demo_outside.(x_remote); x_expired := λ _ _, false; x_fault := λ _, NoFault |}
    demo_input reader_set reader_catalog [reader] 2 0.
Definition demo_start : hstate := mk_hstate db_started 0 [] [] [] 0 0 [] [].

Lemma complete_implemented_witness : ∃ h, complete (conversation := adapter_conversation) [] demo_request demo_start =
  (h, Ok (mk_ModelResponse "Hello." [] None (mk_Tokens "gpt" 3 1 0))).
Proof.
  rewrite <- (complete_implemented (conversation := adapter_conversation) (demo_adapter 200) [] demo_request demo_start eq_refl eq_refl).
  eexists. vm_compute. reflexivity.
Defined.
