(* ===== verification/DefsDemo.v ===== *)
(** * Definition sets, played

    A small bundle directory is read, compiled, stored and activated; the
    theorems about bundles, compiled sets and the loader are applied to it. *)
From S2P Require Import Prelude GoText Db CallBinding Interactions JournalCore Commands DefinitionStore Service Scenario.
From S2P Require Import GoPath Bundle BundleSpec Selectors Journey Compile Skill CompileSet CompileSpec CompileWf.
From S2P Require Import Keeps JournalKeeps Rollout Dispatch Loader LoaderSpec.
From Stdlib Require Import Ascii.

(** ** A codec with digests of 32 bytes *)

Fixpoint toy_hash (h : Z) (s : string) : Z :=
  match s with "" => h | String c s => toy_hash ((h * 257 + code c + 1) mod 18446744073709551616) s end.
Fixpoint toy_bytes (n : nat) (h : Z) : string :=
  match n with O => "" | S n => String (ascii_of_N (Z.to_N (h mod 256))) (toy_bytes n (h / 256)) end.
Definition toy_codec : Codec := {|
  jsonb := jsonb; json_valid := json_valid; decode_reply := decode_reply; unmarshal_reply := unmarshal_reply;
  canonical_object := canonical_object; canonical_value := canonical_value; close_history := close_history;
  settings_ttl := settings_ttl; sha256 := λ s, toy_bytes 32 (toy_hash 0 s);
|}.
Lemma toy_size x : String.length (@sha256 toy_codec x) = 32%nat.
Proof.
  assert (∀ n h, String.length (toy_bytes n h) = n) as H by (intros n; induction n as [|n IH]; intros h; simpl; [done|by rewrite IH]).
  apply H.
Qed.
#[local] Existing Instance toy_codec.

(** ** A bundle *)

Definition nl : string := String Skill.newline "".
Definition skill_md : string := "---" +:+ nl +:+ "name: reader" +:+ nl +:+ "description: Reads invoices" +:+ nl +:+ "---" +:+ nl +:+ "Look first." +:+ nl.
Definition demo_bundle : gmap string string := list_to_map
  [("journeys.yaml", "yaml"); ("prompt.md", "Be brief."); ("skills/reader/SKILL.md", skill_md);
   ("skills/reader/ref/terms.md", "Net 30."); ("skills/reader/.draft", "not read"); ("unused.txt", "not read")].
Definition demo_tool : rawTool := {| rt_Op := None; rt_Tags := None; rt_Alias := "list"; rt_ReadOnly := true;
  rt_Class := "read_only"; rt_Approval := "" |}.
Definition demo_config : yamlConfig := {|
  yc_Catalog := {| rc_OperationMetaKey := "op"; rc_CallIDHeader := "x-call-id" |};
  yc_ConversationPrompt := "./prompt.md";
  yc_Journeys := [{| yj_Journey := {| rj_ID := "reader"; rj_Skill := "skills//reader/"; rj_Versions := {| Min := "1.0"; MaxExclusive := "" |};
      rj_Tools := []; rj_Deny := ["invoices.pay"]; rj_MaxTools := None |};
    yj_Tools := [{| yt_Op := Some (YSequence [YScalar "!!str" "invoices.list"]); yt_Tool := demo_tool |}] |}] |}.
#[local] Instance demo_yaml : Yaml := λ data, if bool_decide (data = "yaml") then Ok (demo_config, false) else Err (YError "line 3: bad").

Definition compiled_set : DefSet := Eval vm_compute in
  match CompileBundle demo_bundle with Ok s => s
  | Err _ => {| set_catalog := {| OperationMetaKey := ""; CallIDHeader := "" |}; set_conversationPrompt := ""; set_digest := "";
      set_order := []; set_journeys := ∅; set_canonical := ∅; set_skillBytes := 0; set_skillFiles := 0; set_bundle := ∅ |} end.
Lemma demo_compiles : CompileBundle demo_bundle = Ok compiled_set.
Proof. vm_compute. reflexivity. Qed.

(** Only what was read is kept. *)
Example demo_kept : sort_strings (elements (dom compiled_set.(set_bundle))) =
  ["journeys.yaml"; "prompt.md"; "skills/reader/SKILL.md"; "skills/reader/ref/terms.md"].
Proof. vm_compute. reflexivity. Qed.
Example demo_journey_compiled : (λ j, (j.(j_ID), j.(j_Description), j.(j_Prompt), Alias <$> j.(j_Tools))) <$> Journeys compiled_set =
  [("reader", "Reads invoices", "Look first.", ["list"])].
Proof. vm_compute. reflexivity. Qed.
Example demo_decode_error : @CompileBundle toy_codec demo_yaml {["journeys.yaml" := "oops"]} =
  Err (FDecode "decode journey config: YAML syntax error near line 3").
Proof. vm_compute. reflexivity. Qed.

Lemma CompileBundle_stable_witness : CompileBundle compiled_set.(set_bundle) = Ok compiled_set.
Proof. exact (CompileBundle_stable demo_bundle compiled_set demo_compiles). Defined.

Lemma CompileBundle_well_formed_witness : NoDup compiled_set.(set_order) ∧ compiled_set.(set_order) = ["reader"].
Proof. split; [|reflexivity]. exact (proj1 (proj1 (CompileBundle_well_formed demo_bundle compiled_set demo_compiles))). Defined.

Definition demo_reader : Journey := Eval vm_compute in default zeroJourney (FindJourney compiled_set "reader").
Lemma compiled_material_readable_witness : ∃ m, ReadSkill (NewSkillSource demo_reader) "reader" "ref/terms.md" = Ok m ∧
  m.(mt_Body) = "Net 30." ∧ m.(mt_FileDigest) = hex (sha256 m.(mt_Body)).
Proof.
  assert (FindJourney compiled_set "reader" = Some demo_reader) as Hj by (vm_compute; reflexivity).
  pose proof (compiled_material_readable demo_bundle compiled_set "reader" demo_reader "reader" "ref/terms.md" demo_compiles Hj) as H.
  destruct (ReadSkill (NewSkillSource demo_reader) "reader" "ref/terms.md") as [m|e] eqn:E; [|vm_compute in E; discriminate E].
  exists m. split; [reflexivity|]. split; [vm_compute in E; injection E as <-; reflexivity|exact (proj1 H)].
Defined.

(** ** A directory *)

Definition demo_file (data : string) : option (option hostFile) := Some (Some (mk_hostFile true (slen data) (Some data))).
Definition demo_host : hostFS := {|
  h_readdir := λ dir,
    if bool_decide (dir = ".") then Some [(".git", TDir); ("journeys.yaml", TFile); ("prompt.md", TFile); ("skills", TDir)]
    else if bool_decide (dir = "skills") then Some [("reader", TDir)]
    else if bool_decide (dir = "skills/reader") then Some [(".draft", TFile); ("SKILL.md", TFile); ("ref", TDir)]
    else if bool_decide (dir = "skills/reader/ref") then Some [("terms.md", TFile)] else None;
  h_open := λ name, match demo_bundle !! name with Some data => demo_file data | None => None end |}.
Definition demo_read : gmap string string := Eval vm_compute in match ReadBundle demo_host with Ok b => b | Err _ => ∅ end.
Lemma demo_reads : ReadBundle demo_host = Ok demo_read.
Proof. vm_compute. reflexivity. Qed.
Lemma demo_read_compiles : CompileBundle demo_read = Ok compiled_set.
Proof. vm_compute. reflexivity. Qed.

Lemma demo_plain : plain_names demo_host.
Proof.
  intros dir l name typ. simpl. intros H Hin. repeat case_bool_decide; try discriminate H; injection H as <-;
    repeat (apply elem_of_cons in Hin as [[= -> ->]|Hin]; [by vm_compute|]); by apply elem_of_nil in Hin.
Qed.
Lemma demo_sized : sized demo_host.
Proof. intros name. unfold stat_size, demo_host, demo_file. simpl. destruct (demo_bundle !! name); simpl; unfold slen; lia. Qed.
Lemma ReadBundle_bounded_witness : on_disk demo_host [] "skills/reader/ref/terms.md" ∧ Z.of_nat (size demo_read) <= MaxBundleFiles.
Proof.
  destruct (proj2 (ReadBundle_bounded demo_host demo_plain demo_sized) demo_read demo_reads) as (H1 & _ & H2 & _).
  split; [|exact H2]. apply H1. vm_compute. eexists. reflexivity.
Defined.

(** ** Activation *)

#[local] Instance demo_replica : Replica := {| r_now := λ n, Z.of_nat n; r_others := λ _ s, s; r_fault := λ _, NoFault |}.

(** A store that also holds files that compile to nothing. *)
Definition stale_store : db := upd_def_sets <["stale" := mk_defset None {["x" := "y"]}]> empty_db.
Definition demo_activated : lstate * result activate_error Result := Eval vm_compute in Activate true demo_host false (mk_lstate stale_store 0 ∅).
Lemma demo_activates : Activate true demo_host false (mk_lstate stale_store 0 ∅) = demo_activated.
Proof. vm_cast_no_check (eq_refl demo_activated). Qed.

Lemma Activate_servable_witness : demo_activated.2 = Ok (mk_Result compiled_set.(set_digest) compiled_set.(set_digest) Activated) ∧
  servable demo_activated.1.(ls_db) compiled_set.(set_digest) = true ∧ served_set demo_activated.1.(ls_db) "stale" = None.
Proof.
  destruct (Activate_servable (replica := demo_replica) true demo_host false stale_store 0 demo_activated.1
    (mk_Result compiled_set.(set_digest) compiled_set.(set_digest) Activated) (λ n s, reflexivity s) demo_activates eq_refl)
    as (b & set & now & s0 & Hb & Hset & _ & _ & _ & _ & H).
  rewrite demo_reads in Hb. injection Hb as <-. rewrite demo_read_compiles in Hset. injection Hset as <-.
  split; [reflexivity|]. split; [apply (H _ (or_introl eq_refl)); reflexivity|vm_compute; reflexivity].
Defined.

Lemma Activate_alone_witness : ∃ st, Activate true demo_host true (mk_lstate stale_store 0 ∅) =
  (st, Ok (mk_Result compiled_set.(set_digest) compiled_set.(set_digest) Activated)) ∧ st.(ls_db).(current) = Some compiled_set.(set_digest).
Proof.
  pose proof (Activate_alone (replica := demo_replica) toy_size (λ n s, eq_refl) (λ n, eq_refl) demo_host true stale_store 0) as H.
  cbv zeta in H. rewrite demo_reads, demo_read_compiles in H. destruct H as (st & H & Hdb & _).
  assert (verdict true compiled_set.(set_digest) (put_set compiled_set.(set_digest) compiled_set.(set_bundle) stale_store) =
    Ok (mk_Result compiled_set.(set_digest) compiled_set.(set_digest) Activated)) as Hv by (vm_compute; reflexivity).
  rewrite Hv in H, Hdb. destruct Hdb as [now Hdb]. exists st. split; [exact H|]. rewrite Hdb. reflexivity.
Defined.

(** A current set that cannot be served stops every later one. *)
Definition stuck_store : db := upd_current (λ _, Some "stale") stale_store.
Example demo_stuck : (Activate true demo_host false (mk_lstate stuck_store 0 ∅)).2 = Err (ADefinition "stale").
Proof. vm_compute. reflexivity. Qed.
