(* ===== verification/RunnerDemo.v ===== *)
(** * A message, played

    A command is submitted, its run executed to its answer and its events
    observed, on a store another process activated a definition set in.  Then
    its user asks the chat endpoint for the stream again.  The theorems about
    runs, the platform and the endpoint are applied to it. *)
From S2P Require Import Prelude GoText Db CallBinding Interactions JournalCore Commands Owners Runs DefinitionStore Records Service.
From S2P Require Import Keeps Journal JournalKeeps Scenario Settings TenantDir Journey Resolve Binding Guard Bundle CompileSet Loader LoaderSpec Cost.
From S2P Require Import HttpHeader Auth Identity Harness Runner Platform RunnerSpec PlatformSpec RunnerStart Lease Process Sse Chat ChatSpec Demo HarnessDemo DefsDemo.
From S2P Require Tui TuiSpec.

#[local] Existing Instance toy_codec.
#[local] Existing Instance demo_yaml.

Definition demo_tenancy : Tenancy := mk_Tenancy (Some (λ _, demo_directory)) demo_allowlist
  (Some (λ _ s, ResolveSettings demo_compiled s)) None 0.
#[local] Instance demo_runtime : Runtime := {|
  rt_framework := demo_framework; rt_outside := demo_outside; rt_tenancy := demo_tenancy;
  rt_connect := λ _ _, Ok ("mcp", "7"); rt_list := λ _ _, Ok "[1,2]"; rt_array := demo_array; rt_raw := demo_raw |}.

(** The store, with a cache that has not seen the set yet. *)
Definition demo_store : db := Eval vm_compute in (Activate (replica := demo_replica) true demo_host false (mk_lstate empty_db 0 ∅)).1.(ls_db).
Definition idle : pstate := mk_pstate false false 0 (mk_rstate (mk_lstate demo_store 0 ∅) []).
Definition submitted : pstate * result submit_error (Receipt * option TurnInput) := Eval vm_compute in Submit "w1" demo_command idle.
Definition demo_turn : TurnInput := Eval vm_compute in
  match submitted.2 with Ok (_, Some i) => i | _ => turn_input demo_command "" demo_owner end.
Definition before_run : rstate := Eval vm_compute in submitted.1.(ps_state).
Definition executed : rstate * ending := Eval vm_compute in execute 1 demo_turn before_run.
Lemma demo_executes : execute 1 demo_turn before_run = executed.
Proof. vm_cast_no_check (eq_refl executed). Qed.

Example demo_submitted : submitted.1.(ps_runs) = 1%nat ∧ demo_turn.(ri_Owner) = demo_owner.
Proof. by split. Qed.
Example demo_settled : executed.2 = Settled (Ok tt).
Proof. reflexivity. Qed.
(** The session is opened, the tools listed, the model asked three times and one
    tool called, and the session closed. *)
Example demo_sent : (λ o, match o with OutConnect _ => "connect" | OutList _ => "list" | OutClose _ => "close"
    | OutLoop (EvRequest _) => "request" | OutLoop (EvDispatch _ _ _ _) => "call" end) <$> executed.1.(rs_log) =
  ["connect"; "list"; "request"; "request"; "call"; "request"; "close"].
Proof. reflexivity. Qed.

Lemma others_steps n s : steps s (rt_outside.(x_others) n s).
Proof. reflexivity. Qed.

Lemma execute_sends_admitted_witness : ∃ i1, admitted demo_turn i1 ∧ i1.(ri_Endpoint).(ep_url) = "https://mcp.example/v1" ∧
  head executed.1.(rs_log) = Some (OutConnect i1.(ri_Endpoint)).
Proof.
  destruct executed as [st' e] eqn:E.
  destruct (execute_sends_admitted 1 demo_turn before_run st' e others_steps) as (st1 & i1 & l & _ & Hlog & H & Hl & Hsent).
  - rewrite demo_executes. exact E.
  - replace st' with executed.1 by (rewrite E; reflexivity). discriminate.
  - exists i1. split; [exact H|]. split.
    + destruct H as [(now & dir & entry & [= <-] & Hd & _ & _ & Hu) _ _ _ _ _].
      vm_compute in Hd. injection Hd as <-. vm_compute in Hu. injection Hu as Hu. symmetry. exact Hu.
    + rewrite Hlog in Hl. replace st' with executed.1 in * by (rewrite E; reflexivity). simpl in Hl.
      destruct Hsent as [|o l Ho _]; [discriminate Hl|]. injection Hl as <- _. simpl in Ho |- *. by rewrite Ho.
Defined.

Lemma execute_bounded_witness : ∃ l, executed.1.(rs_log) = l ∧ (sent_requests l ≤ 16)%nat.
Proof.
  destruct (execute_bounded 1 demo_turn before_run others_steps) as (_ & (l & El & Hl) & _).
  rewrite demo_executes in El. exists l. split; [exact El|exact Hl].
Defined.

Lemma execute_verdict_witness : ∃ err, ended demo_owner (run_verdict err) executed.1.(rs_store).(ls_db).
Proof.
  destruct (execute_verdict 1 demo_turn before_run executed.1) as (err & _ & H & _); [rewrite demo_executes; reflexivity|].
  exists err. exact H.
Defined.

Lemma draining_is_final_witness :
  Submit "w1" demo_command (leave (BeginDrain submitted.1)) = (leave (BeginDrain submitted.1), Err ErrDraining).
Proof.
  assert (rtc platform_step (BeginDrain submitted.1) (leave (BeginDrain submitted.1))) as H.
  { apply rtc_once, step_leave. discriminate. }
  exact (proj1 (draining_is_final (BeginDrain submitted.1) _ eq_refl H) "w1" demo_command).
Defined.

Definition demo_row : defset_row := Eval vm_compute in default (mk_defset None ∅) (demo_store.(def_sets) !! compiled_set.(set_digest)).
Lemma demo_sets : before_run.(rs_store).(ls_db).(def_sets) = {[compiled_set.(set_digest) := demo_row]}.
Proof. vm_cast_no_check (eq_refl before_run.(rs_store).(ls_db).(def_sets)). Qed.
Lemma empty_cache : cache_ok before_run.(rs_store).
Proof. intros d set Hd. discriminate Hd. Qed.

(** The lease lasts through the three calls of the resolution. *)
Definition pinned_db : db := Eval vm_compute in
  match ResolveDefinition 12 (Some (λ _, true)) demo_owner before_run.(rs_store).(ls_db) with Ok (_, s) => s | Err _ => empty_db end.
Lemma demo_resolves : Forall (λ n, ResolveDefinition (demo_outside.(x_now) n) (Some (λ _, true)) demo_owner before_run.(rs_store).(ls_db) =
  Ok (compiled_set.(set_digest), pinned_db)) [2; 3; 4]%nat.
Proof. repeat constructor; vm_cast_no_check (eq_refl (A := result error (string * db)) (Ok (compiled_set.(set_digest), pinned_db))). Qed.

Lemma BindingOf_alone_witness : ∃ st', BindingOf demo_turn before_run = (st', Ok ("", compiled_set.(set_digest))) ∧
  st'.(rs_store).(ls_db) = pinned_db.
Proof.
  destruct (BindingOf_alone (runtime := demo_runtime) demo_turn before_run (Ok (compiled_set.(set_digest), pinned_db))
    (λ n s, eq_refl) (λ n, eq_refl) empty_cache) as (st' & _ & Hdb & H).
  - intros n Hn. change (2 ≤ n ≤ 4)%nat in Hn. apply (proj1 (Forall_forall _ _) demo_resolves).
    assert (n = 2 ∨ n = 3 ∨ n = 4)%nat as [->|[->| ->]] by lia; repeat constructor.
  - assert (existsb (λ d, negb (servable before_run.(rs_store).(ls_db) d))
      (asked (rt_outside.(x_now) before_run.(rs_store).(ls_tick)) demo_turn.(ri_Owner) before_run.(rs_store).(ls_db)) = false) as Hr
      by (vm_compute; reflexivity).
    rewrite Hr in H, Hdb. exists st'. split; [exact H|exact Hdb].
Defined.

(** ** Watching *)

(** The same database, by the journal's calls: the set is stored and activated,
    the command admitted and claimed. *)
Definition demo_calls : list (Z * op) :=
  [(0, OpPutDefinitionSet compiled_set.(set_digest) demo_row.(ds_files));
   (5, OpActivate (Some (λ _, true)) "" compiled_set.(set_digest) false);
   (10, OpAdmit demo_command); (11, OpClaim demo_command "w1" LeaseDuration)].
Lemma demo_calls_run : run_ops demo_calls empty_db = before_run.(rs_store).(ls_db).
Proof. vm_cast_no_check (eq_refl before_run.(rs_store).(ls_db)). Qed.
Lemma executed_reachable : reachable executed.1.(rs_store).(ls_db).
Proof.
  apply (reachable_steps before_run.(rs_store).(ls_db)); [rewrite <- demo_calls_run; apply run_ops_steps|].
  rewrite <- demo_executes. by apply execute_journal_steps, others_steps.
Qed.

Definition demo_observed : option (rstate * SnapshotView * list Event) := Eval vm_compute in
  match Observe 2 "t1" "alice" 0 executed.1 with (st, Ok (view, (sent, None))) => Some (st, view, sent) | _ => None end.
Definition observed : rstate := Eval vm_compute in match demo_observed with Some (st, _, _) => st | None => before_run end.
Definition demo_view : SnapshotView := Eval vm_compute in
  match demo_observed with Some (_, view, _) => view | None => mk_SnapshotView [] "" "" None 0 [] [] end.
Definition demo_events : list Event := Eval vm_compute in match demo_observed with Some (_, _, sent) => sent | None => [] end.
Definition demo_observation : result run_error (SnapshotView * (list Event * option run_error)) := Ok (demo_view, (demo_events, None)).
Lemma demo_observes : Observe 2 "t1" "alice" 0 executed.1 = (observed, demo_observation).
Proof. vm_cast_no_check (eq_refl (observed, demo_observation)). Qed.

Lemma Observe_exactly_once_witness : demo_view.(sv_Events) ++ demo_events = readEvents "t1" 0 observed.(rs_store).(ls_db).
Proof.
  refine (proj2 (Observe_exactly_once 2 "t1" "alice" 0 executed.1 observed demo_view demo_events None others_steps executed_reachable
    demo_observes _) eq_refl _); discriminate.
Defined.

(** ** The stream *)

#[local] Instance demo_chat_io : ChatIO := {|
  authenticate := StaticAuthenticate [("secret", "alice")];
  decode_input := λ body, if bool_decide (body = "hello")
    then Some (mk_RunAgentInput "my-thread" "my-run" 0 [mk_chat_message "user" (Some "pay the invoice")] PNull, false) else None;
  decode_interaction := λ _, None; ids_fault := λ _, false; ids_others := λ _ s, s;
  ids_drawn := λ _, mk_drawn "t1" "r1" "m1"; failure_seen := true |}.
Definition demo_get : request := mk_request "GET" {["Authorization" := ["Bearer secret"]; "Last-Event-Id" := ["1"]]}
  (λ k, if bool_decide (k = "threadId") then "my-thread" else "my-run") "".
Definition demo_ids : idmap := (resolve "alice" "my-thread" "my-run" true (mk_drawn "t1" "r1" "m1") empty_idmap).1.
Definition before_get : cstate := mk_cstate (work executed.1 submitted.1) demo_ids 0.

Definition demo_response : cstate * response := Eval vm_compute in serve 1 None "w1" demo_get before_get.
Lemma demo_serves : serve 1 None "w1" demo_get before_get = demo_response.
Proof. vm_cast_no_check (eq_refl demo_response). Qed.
Definition demo_frames : list (frame * Z) := Eval vm_compute in match demo_response.2 with Streamed l => l | Refused _ => [] end.
Lemma demo_streams : serve 1 None "w1" demo_get before_get = (demo_response.1, Streamed demo_frames).
Proof. rewrite demo_serves. reflexivity. Qed.

Example demo_tail : drop 2 demo_frames =
  [(TextStart "my-run:answer", 0); (TextContent "my-run:answer" "Two invoices.", 0); (TextEnd "my-run:answer", 0);
   (RunFinished "my-thread" "my-run", 0)].
Proof. reflexivity. Qed.
Example demo_unauthorized : (serve 1 None "w1" (mk_request "GET" ∅ (λ _, "") "") before_get).2 = Refused (401, "unauthorized").
Proof. vm_compute. reflexivity. Qed.

Lemma stream_isolated_witness : ∃ p a c1 conv, accept "w1" p before_get = (c1, Ok a) ∧
  (cdb c1).(convs) !! a.(ac_thread) = Some conv ∧ conv.(cv_principal) = "alice".
Proof.
  destruct (stream_isolated 1 None "w1" demo_get before_get _ _ others_steps executed_reachable demo_streams)
    as (identity & p & a & c1 & conv & Hi & Ha & Hc & Hp & _).
  exists p, a, c1, conv. split; [exact Ha|]. split; [exact Hc|]. vm_compute in Hi. injection Hi as <-. exact Hp.
Defined.

Lemma stream_ordered_witness : take 5 demo_frames ++ [(RunFinished "my-thread" "my-run", 0)] = demo_frames ∧ drop 6 demo_frames = [].
Proof.
  split; [reflexivity|].
  apply (proj1 (stream_ordered 1 None "w1" demo_get before_get _ _ others_steps executed_reachable demo_streams)
           (take 5 demo_frames) (RunFinished "my-thread" "my-run", 0) (drop 6 demo_frames)); reflexivity.
Defined.

Lemma stream_received_witness : parseSSE (λ s, s) (on_the_wire frame_type demo_frames) =
  ((λ f, mk_SseEvent (frame_type f.1) (frame_type f.1)) <$> demo_frames, None).
Proof.
  pose proof (stream_received frame_type (λ s, s) (λ f, eq_refl) 1 None "w1" demo_get before_get _ demo_frames
    others_steps executed_reachable demo_streams) as H.
  destruct (parseSSE _ _) as [events err]. destruct H as [-> Herr].
  - repeat constructor; vm_compute; reflexivity.
  - f_equal. apply Herr. exists (take 5 demo_frames), (RunFinished "my-thread" "my-run", 0). split; reflexivity.
Defined.

(** *** The request repeated by the terminal client *)

Definition tui_request : Tui.Request := Tui.mk_Request "my-thread" "my-run" "" "pay the invoice" None.
Definition tui_wire (reply : Tui.InteractionReply) : prop := POther.
Definition tui_answer (a : Tui.reply_answer) : string := "{}".
Definition tui_io : ChatIO := {|
  authenticate := λ h, if bool_decide (header_get "Authorization" h = "Bearer secret") then Some (mk_Identity "acme" "alice") else None;
  decode_input := λ body, if bool_decide (body = "hello") then Some (TuiSpec.wire_input tui_wire (Tui.stream_body tui_request), false) else None;
  decode_interaction := λ _, None; ids_fault := λ _, false; ids_others := λ _ s, s;
  ids_drawn := λ _, mk_drawn "t1" "r1" "m1"; failure_seen := true |}.
Definition tui_stream : cstate → cstate * (list SseEvent * option Tui.client_error) :=
  Tui.Stream (λ _, Some "hello") (λ s, s) (TuiSpec.respond (io := tui_io) (λ _ _, "") (λ _, "200 OK") frame_type 1 None "w1")
    "http://localhost:8080" "secret" tui_request.
Definition tui_answered : cstate * (list SseEvent * option Tui.client_error) := Eval vm_compute in tui_stream before_get.
Lemma tui_streams : tui_stream before_get = tui_answered.
Proof. vm_cast_no_check (eq_refl tui_answered). Qed.
Definition tui_sent : request := Eval vm_compute in
  TuiSpec.server_request (λ _ _, "") (TuiSpec.sent_request "http://localhost:8080" "secret" "hello").
Definition tui_served : cstate * response := Eval vm_compute in serve (io := tui_io) 1 None "w1" tui_sent before_get.
Lemma tui_serves : serve (io := tui_io) 1 None "w1"
  (TuiSpec.server_request (λ _ _, "") (TuiSpec.sent_request "http://localhost:8080" "secret" "hello")) before_get = tui_served.
Proof. vm_cast_no_check (eq_refl tui_served). Qed.

Lemma client_end_to_end_witness :
  read_request (io := tui_io) (TuiSpec.server_request (λ _ _, "") (TuiSpec.sent_request "http://localhost:8080" "secret" "hello")) =
    Ok (mk_parsed (mk_Identity "acme" "alice") 0 true "my-thread" "my-run" "pay the invoice" "" no_reply) ∧
  tui_answered.2.2 = None.
Proof.
  assert (@authenticate tui_io (TuiSpec.sent_request "http://localhost:8080" "secret" "hello").(Tui.hq_Header) = Some (mk_Identity "acme" "alice"))
    as Hauth by (vm_compute; reflexivity).
  assert (TuiSpec.sendable (io := tui_io) tui_answer tui_wire tui_request) as Hsend by (split_and!; vm_compute; discriminate).
  assert (@decode_input tui_io "hello" = Some (TuiSpec.wire_input tui_wire (Tui.stream_body tui_request), false)) as Hbody by reflexivity.
  pose proof (TuiSpec.client_end_to_end (io := tui_io) (λ _, Some "hello") (λ _ _, "") (λ _, "200 OK") frame_type (λ s, s) (λ f, eq_refl)
    1 None "w1" "http://localhost:8080" "secret" "hello" (mk_Identity "acme" "alice") tui_answer tui_wire tui_request before_get
    others_steps executed_reachable ltac:(discriminate) eq_refl ltac:(vm_compute; discriminate) Hbody Hauth Hsend) as H.
  cbv zeta in H. fold tui_stream in H. rewrite tui_streams, tui_serves in H.
  destruct tui_answered as [c [events err]] eqn:E. destruct H as (Hread & _ & H). split; [exact Hread|].
  destruct tui_served as [c' [r|l]] eqn:Es; [discriminate Es|]. apply (f_equal snd) in Es. cbn [tui_served snd] in Es. injection Es as <-.
  apply H.
  - repeat constructor; vm_compute; reflexivity.
  - eexists (_ :: _ :: _ :: _ :: _ :: []), _. split; reflexivity.
Defined.

(** *** The lease of the run *)

Lemma lease_protects_witness :
  exec 20 (OpReap "t1" "r1") before_run.(rs_store).(ls_db) = Some before_run.(rs_store).(ls_db) ∧
  run_grip "r1" before_run.(rs_store).(ls_db) = Some ("t1", RunRunning, "w1", 1, 15000011).
Proof.
  assert (exec 20 (OpReap "t1" "r1") before_run.(rs_store).(ls_db) = Some before_run.(rs_store).(ls_db)) as He by (vm_compute; reflexivity).
  split; [exact He|].
  apply (lease_protects "r1" "t1" "w1" 1 15000011 20 (OpReap "t1" "r1") before_run.(rs_store).(ls_db)); [reflexivity|reflexivity| |exact He].
  intros o H. discriminate H.
Defined.

(** The worker's loop starts, receives its first tick five seconds later and
    renews; the context is alive then. *)
Definition renewed_db : db := Eval vm_compute in
  default empty_db (exec 5000013 (OpRenew demo_owner LeaseDuration) before_run.(rs_store).(ls_db)).
Definition renewed : Renewal.rstate :=
  Renewal.mk_rstate 5000014 renewed_db (Renewal.Ticking 12 5000014 (Renewal.next_tick 12 5000012)) false false.
Lemma renewal_runs : rtc (Renewal.rstep 1000 demo_owner) (Renewal.claimed_at 11 before_run.(rs_store).(ls_db)) renewed.
Proof.
  eapply rtc_l; [apply (Renewal.rstep_at 1000 demo_owner 11 12); [lia| |apply Renewal.r_start]; vm_compute; discriminate|].
  eapply rtc_l; [apply (Renewal.rstep_at 1000 demo_owner 12 5000012); [lia| |apply Renewal.r_tick]; vm_compute; discriminate|].
  eapply rtc_l; [apply (Renewal.rstep_at 1000 demo_owner 5000012 5000013); [lia|vm_compute; discriminate|apply Renewal.r_commit; vm_compute; reflexivity]|].
  eapply rtc_l; [apply (Renewal.rstep_at 1000 demo_owner 5000013 5000014); [lia|vm_compute; discriminate|apply Renewal.r_return]|].
  apply rtc_refl.
Qed.

Lemma worker_stops_first_witness : ∃ until, run_grip "r1" renewed_db = Some ("t1", RunRunning, "w1", 1, until) ∧ 5000014 < until.
Proof.
  assert (Claim 11 demo_command "w1" LeaseDuration (run_ops (take 3 demo_calls) empty_db) = Ok (demo_owner, before_run.(rs_store).(ls_db))) as Hclaim
    by (vm_compute; reflexivity).
  exact (worker_stops_first 1000 11 demo_command "w1" demo_owner _ _ renewed ltac:(lia) eq_refl Hclaim renewal_runs eq_refl eq_refl).
Defined.

(** Had the worker died, the sweep after its lease would have interrupted it. *)
Lemma before_run_reachable : reachable before_run.(rs_store).(ls_db).
Proof. rewrite <- demo_calls_run. apply run_ops_steps. Qed.
Definition swept : db := Eval vm_compute in (Reap 16000000 before_run.(rs_store).(ls_db)).2.
Lemma Reap_recovers_witness : Reap 16000000 before_run.(rs_store).(ls_db) = (None, swept) ∧
  run_grip "r1" swept ≠ Some ("t1", RunRunning, "w1", 1, 15000011).
Proof.
  assert (Reap 16000000 before_run.(rs_store).(ls_db) = (None, swept)) as Hreap by (vm_compute; reflexivity).
  split; [exact Hreap|]. intros H. unfold run_grip in H. apply fmap_Some in H as (r & Hr & H).
  destruct (Reap_recovers 16000000 _ swept before_run_reachable Hreap) as [Hruns _].
  unfold grip in H. injection H as _ Hs _ _ Hl. specialize (Hruns "r1" r Hr (eq_sym Hs)). rewrite <- Hl in Hruns. discriminate Hruns.
Defined.
