(* ===== verification/Telemetry.v ===== *)
(** * Telemetry

    [internal/telemetry/telemetry.go]: what the tracer provider of the process
    is set up with, and how long its shutdown may take.
    [internal/telemetry/redact.go]: what of an ended span reaches the exporter.
    A span is its attributes and its events; everything else passes through. *)
From S2P Require Import Prelude GoText Config.

(** ** The provider *)

(** Durations in nanoseconds. *)
Definition defaultShutdownTimeout : Z := 5 * 10 ^ 9.
Definition defaultExportTimeout : Z := 10 * 10 ^ 9.

(** What the exporter is created with. *)
Record Exporter := mk_Exporter { ex_Endpoint : string; ex_Headers : gmap string string; ex_Timeout : Z }.
Record Provider := mk_Provider { pv_ServiceName : string; pv_ServiceVersion : string; pv_Exporter : option Exporter; pv_shutdownTimeout : Z }.

(** [if d <= 0 { d = fallback }] *)
Definition or_default (d fallback : Z) : Z := if d <=? 0 then fallback else d.

(** [New], with the [ExportTimeout] of its configuration: [described] and
    [exporter] are whether the resource and the exporter can be created. *)
Definition New (described : bool) (exporter : Exporter → bool) (c : TelemetryConfig) (exportTimeout : Z) : option Provider :=
  let name := if bool_decide (c.(te_ServiceName) = "") then "az-agent-platform" else c.(te_ServiceName) in
  let shutdown := or_default c.(te_ShutdownTimeout) defaultShutdownTimeout in
  let timeout := or_default exportTimeout defaultExportTimeout in
  if negb described then None
  else if bool_decide (c.(te_Endpoint) = "") then Some (mk_Provider name c.(te_ServiceVersion) None shutdown)
  else
    let e := mk_Exporter c.(te_Endpoint) c.(te_Headers) timeout in
    if exporter e then Some (mk_Provider name c.(te_ServiceVersion) (Some e) shutdown) else None.

(** [Shutdown]: the time it is given up at; no provider, no work. *)
Definition Shutdown (p : option Provider) (now : Z) (deadline : option Z) : option Z :=
  p ← p;
  let bound := now + p.(pv_shutdownTimeout) in
  Some (match deadline with Some d => Z.min d bound | None => bound end).

Lemma or_default_pos d fallback : 0 < fallback → 0 < or_default d fallback.
Proof. unfold or_default. destruct (Z.leb_spec d 0); lia. Qed.
Lemma or_default_id d fallback : 0 < d → or_default d fallback = d.
Proof. unfold or_default. destruct (Z.leb_spec d 0); lia. Qed.

(** The bound is positive and the caller's deadline shortens it but never
    extends it; without an endpoint nothing is exported. *)
Theorem telemetry_bounded (described : bool) (exporter : Exporter → bool) (c : TelemetryConfig) (exportTimeout now : Z) (deadline : option Z)
    (p : Provider) (t : Z) (Hnew : New described exporter c exportTimeout = Some p) (Hstop : Shutdown (Some p) now deadline = Some t) :
  now < now + p.(pv_shutdownTimeout) ∧ t <= now + p.(pv_shutdownTimeout) ∧
  (0 < c.(te_ShutdownTimeout) → p.(pv_shutdownTimeout) = c.(te_ShutdownTimeout)) ∧
  (∀ d, deadline = Some d → t <= d) ∧
  (c.(te_Endpoint) = "" ↔ p.(pv_Exporter) = None) ∧
  (∀ e, p.(pv_Exporter) = Some e → e.(ex_Endpoint) = c.(te_Endpoint) ∧ 0 < e.(ex_Timeout)).
Proof.
  unfold New in Hnew. cbv zeta in Hnew. unfold Shutdown in Hstop. injection Hstop as <-.
  pose proof (or_default_pos c.(te_ShutdownTimeout) defaultShutdownTimeout eq_refl).
  pose proof (or_default_pos exportTimeout defaultExportTimeout eq_refl).
  pose proof (or_default_id c.(te_ShutdownTimeout) defaultShutdownTimeout).
  destruct described; [|done]. cbn [negb] in Hnew. case_bool_decide as Hep; [injection Hnew as <-|destruct (exporter _); [injection Hnew as <-|done]];
    cbn [pv_shutdownTimeout pv_Exporter]; (split_and!; [lia|destruct deadline; lia|done|intros d ->; lia|done|]); [done|].
  by intros e [= <-].
Qed.

(** ** Redaction *)

Record attribute := mk_attribute { a_Key : string; a_Value : string }.
Record span_event := mk_span_event { ev_Name : string; ev_Attributes : list attribute }.
Record span := mk_span { sp_Attributes : list attribute; sp_Events : list span_event; sp_rest : string }.

Definition RedactedAttributes : list string := ["gen_ai.tool.description"].
Definition is_redacted (a : attribute) : bool := contains a.(a_Key) RedactedAttributes.

(** [withoutRedacted]: the list itself when there is nothing to drop. *)
Fixpoint delete_redacted (l : list attribute) : list attribute :=
  match l with [] => [] | a :: l => if is_redacted a then delete_redacted l else a :: delete_redacted l end.
Definition withoutRedacted (attrs : list attribute) : list attribute :=
  if existsb is_redacted attrs then delete_redacted attrs else attrs.

(** [redactedSpan], as [OnEnd] passes it on. *)
Definition redactedSpan (s : span) : span :=
  mk_span (withoutRedacted s.(sp_Attributes))
    ((λ e, mk_span_event e.(ev_Name) (withoutRedacted e.(ev_Attributes))) <$> s.(sp_Events)) s.(sp_rest).

Lemma withoutRedacted_filter l : withoutRedacted l = filter (λ a, a.(a_Key) ∉ RedactedAttributes) l.
Proof.
  assert (delete_redacted l = filter (λ a, a.(a_Key) ∉ RedactedAttributes) l) as Hd.
  { induction l as [|a l IH]; [done|]. cbn [delete_redacted]. unfold is_redacted, contains. rewrite filter_cons.
    case_bool_decide; case_decide; try done. by rewrite IH. }
  unfold withoutRedacted. destruct (existsb is_redacted l) eqn:E; [done|]. symmetry.
  induction l as [|a l IH]; [done|]. cbn in E. apply orb_false_iff in E as [Ha E]. unfold is_redacted in Ha. apply contains_false in Ha.
  rewrite filter_cons_True by done. f_equal. apply IH; [|done].
  unfold delete_redacted in Hd; fold delete_redacted in Hd. unfold is_redacted, contains in Hd. rewrite bool_decide_eq_false_2 in Hd by done.
  rewrite filter_cons_True in Hd by done. by injection Hd.
Qed.

(** A tool description never leaves the process in a span, and everything else
    of the span does, in order. *)
Theorem span_redacted (s : span) :
  (redactedSpan s).(sp_Attributes) = filter (λ a, a.(a_Key) ∉ RedactedAttributes) s.(sp_Attributes) ∧
  Forall2 (λ e e', e'.(ev_Name) = e.(ev_Name) ∧ e'.(ev_Attributes) = filter (λ a, a.(a_Key) ∉ RedactedAttributes) e.(ev_Attributes))
    s.(sp_Events) (redactedSpan s).(sp_Events) ∧
  (redactedSpan s).(sp_rest) = s.(sp_rest).
Proof.
  split_and!; [apply withoutRedacted_filter| |done]. cbn [redactedSpan sp_Events]. apply Forall2_fmap_r, Forall_Forall2_diag, Forall_true.
  intros e. split; [done|apply withoutRedacted_filter].
Qed.
